(* ===== verification/_CoqProject ===== *)
-Q . S2P
Prelude.v
GoLib.v
StoreSpec.v
MapStore.v
Partition.v
ShardedStore.v
SyncMapStore.v
LockFreeStore.v
SyncMapConc.v
CRDTStore.v
GoIO.v
Utf8.v
Resp.v
Evict.v
BitcaskStore.v
KeyOrder.v
OrderedSpec.v
SkipListStore.v
BPTreeStore.v
BPTreeProofs.v
ARTStore.v
ARTProofs.v
ARTScan.v
ARTRefine.v
TTLStore.v
TTLConc.v
Handler.v
Replies.v
DelConc.v
Persist.v
AOF.v
AOFTorn.v
WAL.v
RDB.v
RDBFile.v
WALConc.v
Network.v
Lifecycle.v
Telemetry.v
Config.v
Background.v
Server.v
ServerConc.v
Crash.v
CrashFiles.v
HttpJSON.v
AuxServers.v
Main.v
