(* ===== verification/Prelude.v ===== *)
(** * FluxCache: a verification library

    FluxCache (src/) is an in-memory key-value server in Go.  A connection
    (src/network) delivers RESP commands (src/resp) to handlers
    (src/handler), which work on a TTL store (src/store/ttl.go) over one of
    nine inner stores (src/store), with an eviction policy (src/evict);
    writes go to a log (src/persistence), which is replayed when the server
    starts (src/main.go); src/config chooses and builds the parts.

    ** Conventions

    A Go call is a function into the monad [go] of this file: [Ret], [Panic],
    [Deadlock] (it blocks for ever) or [NoFuel] (the bound of a loop of the
    model ran out).  Methods thread the receiver as their last argument; a Go
    [error] is a [bool] or a sum.  Integers are [Z] with their wrap-around
    written out ([wrap64], [wrap 32]); strings and byte slices are
    [list ascii].  The clock, random numbers and the iteration order of Go
    maps are arguments of the operations that read them, and the theorems
    quantify over them.  A method that holds its lock for its whole body is
    one step; where the code interleaves (the compare-and-swap of the
    lock-free store, the nested locks of Merge) the steps are explicit.

    ** Files

    - Prelude (this file): the monad, tactics, hint databases, list lemmas.
    - GoLib: the parts of Go's standard library the sources use on values
      (integer widths, big-endian encodings, strconv, strings, durations).
    - GoIO: files with offset and free space, input streams as segments,
      [bufio.Reader] with its 4096-byte buffer.
    - StoreSpec: the abstract content [kv], the interface [StoreOps]
      (store.go), its contract [StoreLaws] and the lifting of the contract to
      all sequences of calls.
    - MapStore (map.go), ShardedStore (sharded.go, with Partition for the FNV
      hash), SyncMapStore (syncmap.go), LockFreeStore (lockfree.go), CRDTStore
      (crdt.go), BitcaskStore (bitcask.go): one file per inner store, its
      state, every method, an invariant and the [StoreLaws] instance.
    - SkipListStore (skiplist.go): the nodes and their forward pointers in a
      heap; the representation predicate [sk_rep], the search, the pointer
      updates of Set and Del, the ordered scans.
    - BPTreeStore (bptree.go) and BPTreeProofs: the B+ tree in a heap; layers
      of nodes with their separators, splits that propagate to the root.
    - OrderedSpec: the interface OrderedStore of store.go and its contract,
      discharged by both; KeyOrder: the order of keys, sorted association
      lists.
    - ARTStore (art.go), ARTProofs, ARTScan, ARTRefine: the adaptive radix
      tree; its four node layouts as one map from bytes to children
      ([kids]), the tree predicate [art_tree], the scans, and the condition
      [art_keys_ok] on the keys under which the store is a map.
    - Evict (src/evict): the five policies and their common interface.
    - TTLStore (ttl.go): deadlines, tracked keys and eviction over any
      [StoreLaws] store; traces of calls and sweeps.
    - TTLConc (ttl.go): goroutines that interleave the lock regions and inner
      calls of the same methods.
    - Background (ttl.go, wal.go, rdb.go): the three ticker goroutines.
    - SyncMapConc (syncmap.go): goroutines that interleave the sync.Map calls
      of the writers.
    - Resp (src/resp), Handler (src/handler), Network (src/network): the
      wire format and its parser, the nine commands, the connection loop
      shared by TCP, TLS and Unix sockets, HTTP and gRPC request handling,
      the connection limit.
    - Replies: the types of the handlers' replies and their wire format.
    - DelConc (handler.go): DEL commands that interleave their store calls.
    - Lifecycle (src/network/*.go, main.go): Listen and Close of the five
      transports and the select and shutdown of main as interleaved steps.
    - Telemetry (src/telemetry, src/health, src/log, instrument of main.go).
    - Persist (persistence.go, null.go, dual.go: the interface
      [PersistenceOps] and what a log promises, [PersistenceLaws]), AOF, WAL,
      RDB (the backends); AOFTorn (aof.go): a file whose last record was cut;
      WALConc (wal.go): writers that interleave their two lock regions;
      RDBFile (rdb.go): the snapshot call by call on a disk with limited
      room, cut by a kill at any of them.
    - Config (config.go): overrides, defaults, validation, construction.
    - Server (main.go): boot with replay, serving, restart; proved against
      [StoreLaws] and [PersistenceLaws], so for every store and log that
      discharges them.
    - ServerConc (main.go, src/network): connections served at the same time;
      the log callback and the handlers of their commands interleave, and the
      run follows an abstract machine that records both orders.
    - Crash (main.go, wal.go): the same with the lock regions of the
      write-ahead log as steps and with flushes, killed between two steps or
      inside the file write of a flush;
      CrashFiles (main.go, aof.go, rdb.go, wal.go): a start on the append-only
      file of a killed server, on a cut snapshot, on a log whose disk was full.
    - Utf8, HttpJSON (http.go): runes, the JSON encoder and decoder as the
      handler uses them, requests and responses as bytes.
    - AuxServers (health.go, telemetry/server.go, main.go): the health and
      metrics servers and the collector beside Lifecycle, with the log.
    - Main (main.go, config.go): the start of the program from command line,
      environment and files, on interface values ([AnyStore], [AnyLog]).

    ** What the theorems show

    - Stores: each answers every sequence of calls like [kv]; the lock-free
      store does so for every interleaving of its writers; Bitcask recovers
      its content from its file; the skip list stays sorted and linked
      whatever the coin flips, the B+ tree stays balanced and its splits
      find their parents, and the scans of both return the keys asked for;
      the radix tree does the same for keys without NUL bytes that are not
      shorter than a shared prefix, and blocks for ever on a shorter one;
      Merge keeps the newer entries, so that replicas that merged the same
      stores agree when there are no ties; it leaks a read lock, so a store
      that was merged from cannot be written again, and brings deleted keys
      back; concurrent
      writers of the sync.Map store lose nothing, but its Del is not atomic.
    - TTL store: exact bookkeeping on all traces; reads answer the
      unexpired content and cleaning is invisible; deadlines are kept; the
      key limit holds for histories that start empty and write no empty key;
      LRU evicts the least recently used key.  Under
      concurrency no present key is left untracked and a write of a key
      without deadline stays; a sweep can delete a value set meanwhile.
    - Protocol: round trip of RESP for values that arrive at once within the
      4096-byte read buffer, and what happens beyond it; parsing and
      connections terminate; nothing runs before authentication; pipelined
      requests are lost.
    - Commands: the handlers implement the abstract commands (without
      deadlines and key limit) and never crash on a store that keeps the
      contract;
      their replies have the types of the command and reach the client;
      concurrent DELs remove what they name and may count it twice.
    - Logs: AOF, WAL, RDB and Bitcask round trips with their exact bounds,
      what torn or failing writes do, and what a shutdown leaves in the file;
      for every cut of the last AOF record and of a snapshot, what a start
      reads from it; concurrent writers of the WAL lose, when killed between
      two writes to the file, less than a batch and the calls that had not
      returned, and a kill inside such a write either does the same or leaves
      a record on which Replay never ends.
    - HTTP: commands and replies as bytes, unchanged exactly for UTF-8 text.
    - Server: what a restart recovers (SET without deadline and HSET, without
      a key limit) and what it does not (DEL, deadlines), with any number
      of connections when their written keys differ; a killed process loses
      less than one batch of the write-ahead log besides what was not
      answered, unless the kill cuts a record, and nothing of an append-only
      file of at most 4096 bytes; the whole program
      from configuration and bytes on a connection to the restarted store;
      shutdown is ordered and ends once the listener is closed, hangs when
      Listen fails by itself, and lets connected clients run commands after
      the log is closed; the health and metrics servers stop after the signal
      and answer 200 whatever the state of the server; instrumentation
      changes nothing.
    - Configuration: what Validate accepts is built as the names say, except
      for the nested parts of a dual log; Load returns valid configurations,
      saved ones are loaded back.

    ** Fuel

    Every fuelled loop is given a bound that its theorems show to be enough:
    the RESP parser twice the bytes of input plus one ([Read_fuel_total]), a
    connection one iteration per byte, AOF replay one per byte, Bitcask
    recovery one per byte, WAL replay one per byte ([wal_loop_fuel]: when it
    runs out the Go loop never ends), the compare-and-swap loop of a
    sequential call one iteration, a walk along a level of the skip list one
    per node of the heap ([descend_spec], [scan_keys_spec]), a descent, a
    parent search or a chain of splits in the B+ tree one per level, of which
    there are fewer than nodes ([good_size]), a descent or a scan of the
    radix tree one per level, of which there are [height], the elements of a
    JSON body one per byte ([elements_of_fuel]).

    ** Not modelled

    The generated gRPC code (src/network/grpcpb) and the protobuf encoding,
    YAML, time.ParseDuration and the Prometheus registry are third-party or
    generated: what the sources use of them is a parameter or left out.
    Sockets, certificates and the HTTP and gRPC server libraries are the
    answers of the operating system in the steps of Lifecycle and AuxServers;
    signals are steps.  fsync changes nothing the program can read: a crash
    here is a kill of the process, not of the machine.  Disk errors are lack
    of space or a closed file.  Allocations succeed, up to the size at which
    make panics in the RESP reader; the copies of the lock-free store are
    values, so sharing between a bucket and its copy is not represented.
    encoding/json is modelled as the transport uses it (HttpJSON).  The attributes of log messages are left out.
    TTLConc abstracts the inner store to its content and the policy to its
    choice of a victim; the theorems of TTLStore take a call as one step,
    those of DelConc a store call, and those of ServerConc a handler. *)

From stdpp Require Import base list gmap strings.
From Stdlib Require Import ZArith Ascii.

Declare Scope flux_scope.
Delimit Scope flux_scope with flux.
Open Scope flux_scope.

(** ** The effect of a Go call

    A call returns a value, panics, or blocks for ever; [NoFuel] is the
    artefact of a bounded loop of the model that was given too little fuel. *)
Inductive go (A : Type) : Type :=
| Ret (a : A)
| Panic
| Deadlock
| NoFuel.
Arguments Ret {A} a.
Arguments Panic {A}.
Arguments Deadlock {A}.
Arguments NoFuel {A}.

#[global] Instance go_ret : MRet go := λ A a, Ret a.

#[global] Instance go_bind : MBind go := λ A B f m,
  match m with
  | Ret a => f a
  | Panic => Panic
  | Deadlock => Deadlock
  | NoFuel => NoFuel
  end.

#[global] Instance go_fmap : FMap go := λ A B f m,
  match m with
  | Ret a => Ret (f a)
  | Panic => Panic
  | Deadlock => Deadlock
  | NoFuel => NoFuel
  end.

(** [returns m] : the call comes back with a value. *)
Definition returns {A} (m : go A) : Prop := ∃ a, m = Ret a.

Lemma go_bind_Ret {A B} (a : A) (f : A → go B) : (Ret a ≫= f) = f a.
Proof. reflexivity. Qed.

Lemma go_bind_inv {A B} (m : go A) (f : A → go B) b :
  m ≫= f = Ret b → ∃ a, m = Ret a ∧ f a = Ret b.
Proof. destruct m; simpl; intros; simplify_eq; eauto. Qed.

Lemma go_bind_assoc {A B C} (m : go A) (f : A → go B) (g : B → go C) :
  (m ≫= f) ≫= g = m ≫= (λ a, f a ≫= g).
Proof. by destruct m. Qed.

Lemma returns_Ret {A} (a : A) : returns (Ret a).
Proof. by exists a. Qed.

Lemma returns_bind {A B} (m : go A) (f : A → go B) :
  returns m → (∀ a, m = Ret a → returns (f a)) → returns (m ≫= f).
Proof. intros [a ->] H. by apply H. Qed.

(** Run a state transformer over a list, left to right. *)
Fixpoint go_foldl {A S} (f : A → S → go S) (l : list A) (s : S) : go S :=
  match l with
  | [] => Ret s
  | a :: l' => s' ← f a s; go_foldl f l' s'
  end.

Lemma go_foldl_app {A S} (f : A → S → go S) l1 l2 s :
  go_foldl f (l1 ++ l2) s = s' ← go_foldl f l1 s; go_foldl f l2 s'.
Proof.
  revert s; induction l1 as [|a l1 IH]; intros s; simpl; [done|].
  destruct (f a s); simpl; auto.
Qed.

(** ** Tactics and hint databases *)
Create HintDb flux discriminated.
Create Rewrite HintDb flux.

(** Invert every hypothesis [m ≫= f = Ret b]. *)
Ltac go_inv :=
  repeat match goal with
  | H : mbind _ ?m = Ret _ |- _ =>
      let a := fresh "a" in let E := fresh "Ego" in
      apply go_bind_inv in H as (a & E & H); simpl in H
  | H : Ret _ = Ret _ |- _ => injection H as H
  | p : (_ * _)%type |- _ => destruct p
  end; simplify_eq/=.

(** Step through a bind whose first call is known to return. *)
Ltac go_step H :=
  rewrite H; cbn [mbind go_bind].

(** Destruct the scrutinee of the innermost [match] of the goal. *)
Ltac case_go :=
  match goal with
  | |- context [match ?x with _ => _ end] => destruct x eqn:?
  end.

#[export] Hint Resolve returns_Ret : flux.

(** ** Generic lemmas on lists *)
Lemma forallb_Forall_iff {A} (p : A → bool) (l : list A) :
  forallb p l = true ↔ Forall (λ x, p x = true) l.
Proof. rewrite forallb_forall, Forall_forall. by setoid_rewrite list_elem_of_In. Qed.

Lemma take_drop_app_split {A} (l1 l2 : list A) n :
  length l1 = n → take n (l1 ++ l2) = l1 ∧ drop n (l1 ++ l2) = l2.
Proof. intros <-. by rewrite take_app_length, drop_app_length. Qed.

Lemma foldr_permutation_comm {A B} (f : A → B → B) (b : B) (l1 l2 : list A) :
  (∀ x y z, x ∈ l1 → y ∈ l1 → x ≠ y → f x (f y z) = f y (f x z)) →
  NoDup l1 → l1 ≡ₚ l2 → foldr f b l1 = foldr f b l2.
Proof.
  intros Hc Hnd Hp. induction Hp as [|x l l' Hp IH|x y l|l l' l'' H1 IH1 H2 IH2]; simpl.
  - done.
  - apply NoDup_cons in Hnd as [_ ?]. f_equal. apply IH; [|done].
    intros; apply Hc; by try right.
  - apply NoDup_cons in Hnd as [Hx _]. symmetry; apply Hc; set_solver.
  - rewrite IH1 by done. apply IH2; [|by rewrite <-H1].
    intros; apply Hc; by rewrite ?H1.
Qed.

(** ** Events of several goroutines *)

(** The events of goroutine [i], in order. *)
Definition by_thread {A} (i : nat) (l : list (nat * A)) : list A := (filter (λ x, x.1 = i) l).*2.

Lemma by_thread_app {A} i (l1 l2 : list (nat * A)) : by_thread i (l1 ++ l2) = by_thread i l1 ++ by_thread i l2.
Proof. unfold by_thread. by rewrite filter_app, fmap_app. Qed.

Lemma by_thread_one {A} i j (a : A) : by_thread i [(j, a)] = if decide (j = i) then [a] else [].
Proof. unfold by_thread. rewrite filter_cons, filter_nil. simpl. by case_decide. Qed.
