(* ===== verification/GoLib.v ===== *)
(** * GoLib: what the sources use of the Go language and of its library

    Byte strings, 64-bit integers with their wrap-around, big-endian
    encoding ([encoding/binary]), [strconv.Itoa]/[ParseInt]/[Atoi],
    [strings.ToUpper]/[HasPrefix], string comparison, durations, [sync.RWMutex] and the
    conversion of a duration to seconds. *)

From stdpp Require Import base list gmap strings.
From Stdlib Require Import ZArith Ascii Lia SpecFloat.
From S2P Require Import Prelude.
Local Open Scope Z_scope.

(** ** Strings are sequences of bytes *)
Abbreviation byte := ascii.
Abbreviation gostring := (list ascii).

Definition str (s : string) : gostring := String.list_ascii_of_string s.
Arguments str s%_string.

Definition byteZ (a : byte) : Z := Z.of_N (N_of_ascii a).
Definition Zbyte (z : Z) : byte := ascii_of_N (Z.to_N (z mod 256)).

Lemma byteZ_range a : 0 ≤ byteZ a < 256.
Proof. unfold byteZ. pose proof (N_ascii_bounded a). lia. Qed.

Lemma Zbyte_byteZ a : Zbyte (byteZ a) = a.
Proof.
  unfold Zbyte. rewrite Z.mod_small by apply byteZ_range.
  unfold byteZ. rewrite N2Z.id. apply ascii_N_embedding.
Qed.

Lemma byteZ_Zbyte z : byteZ (Zbyte z) = z mod 256.
Proof.
  unfold Zbyte, byteZ. pose proof (Z.mod_pos_bound z 256).
  rewrite N_ascii_embedding; lia.
Qed.

Lemma byteZ_inj a b : byteZ a = byteZ b → a = b.
Proof. intros H. by rewrite <-(Zbyte_byteZ a), H, Zbyte_byteZ. Qed.

(** ** Machine integers *)
Definition wrap (w z : Z) : Z := z mod 2 ^ w.
(** Two's complement [int64], which is also [int] and [time.Duration]. *)
Definition wrap64 (z : Z) : Z := (z + 2 ^ 63) mod 2 ^ 64 - 2 ^ 63.
Definition min_int64 : Z := - 2 ^ 63.
Definition max_int64 : Z := 2 ^ 63 - 1.
Definition in_int64 (z : Z) : bool := (min_int64 <=? z) && (z <=? max_int64).

Lemma wrap64_id z : in_int64 z = true → wrap64 z = z.
Proof.
  unfold in_int64, wrap64, min_int64, max_int64. intros H.
  rewrite Z.mod_small; lia.
Qed.

Lemma wrap64_range z : in_int64 (wrap64 z) = true.
Proof.
  unfold in_int64, wrap64, min_int64, max_int64.
  pose proof (Z.mod_pos_bound (z + 2 ^ 63) (2 ^ 64)). lia.
Qed.

Lemma wrap_small w z : 0 ≤ z < 2 ^ w → wrap w z = z.
Proof. apply Z.mod_small. Qed.

(** ** [binary.BigEndian] *)
Fixpoint be_put (n : nat) (z : Z) : list byte :=
  match n with
  | O => []
  | S n' => Zbyte (Z.shiftr z (8 * Z.of_nat n')) :: be_put n' z
  end.

Definition be_get (l : list byte) : Z := foldl (λ acc b, acc * 256 + byteZ b) 0 l.

Definition PutUint16 (z : Z) : list byte := be_put 2 (wrap 16 z).
Definition PutUint32 (z : Z) : list byte := be_put 4 (wrap 32 z).

Lemma length_be_put n z : length (be_put n z) = n.
Proof. induction n; simpl; auto. Qed.

Lemma be_get_acc l acc :
  foldl (λ acc b, acc * 256 + byteZ b) acc l = acc * 256 ^ Z.of_nat (length l) + be_get l.
Proof.
  unfold be_get. revert acc; induction l as [|b l IH]; intros acc; cbn [foldl length].
  - lia.
  - rewrite IH, (IH (0 * 256 + byteZ b)). rewrite Nat2Z.inj_succ, Z.pow_succ_r; lia.
Qed.

Lemma be_get_cons b l : be_get (b :: l) = byteZ b * 256 ^ Z.of_nat (length l) + be_get l.
Proof. unfold be_get at 1. cbn [foldl]. by rewrite be_get_acc, Z.mul_0_l, Z.add_0_l. Qed.

Lemma be_get_put n z : be_get (be_put n z) = z mod 256 ^ Z.of_nat n.
Proof.
  induction n as [|n IH]; [by rewrite Z.mod_1_r|].
  cbn [be_put]. rewrite be_get_cons, IH, length_be_put, byteZ_Zbyte.
  rewrite Z.shiftr_div_pow2 by lia.
  replace (2 ^ (8 * Z.of_nat n)) with (256 ^ Z.of_nat n)
    by (rewrite Z.pow_mul_r by lia; done).
  rewrite Nat2Z.inj_succ, Z.pow_succ_r by lia.
  set (M := 256 ^ Z.of_nat n). assert (0 < M) by (apply Z.pow_pos_nonneg; lia).
  rewrite (Z.mul_comm 256 M), Z.rem_mul_r by lia. lia.
Qed.

Lemma be_get_range l : 0 ≤ be_get l < 256 ^ Z.of_nat (length l).
Proof.
  induction l as [|b l IH]; [done|]. rewrite be_get_cons.
  simpl length. rewrite Nat2Z.inj_succ, Z.pow_succ_r by lia.
  pose proof (byteZ_range b). nia.
Qed.

Lemma be_get_PutUint32 z : 0 ≤ z < 2 ^ 32 → be_get (PutUint32 z) = z.
Proof. intros. unfold PutUint32. rewrite wrap_small, be_get_put by done. by apply Z.mod_small. Qed.

Lemma be_get_PutUint16 z : 0 ≤ z < 2 ^ 16 → be_get (PutUint16 z) = z.
Proof. intros. unfold PutUint16. rewrite wrap_small, be_get_put by done. by apply Z.mod_small. Qed.

Lemma length_PutUint32 z : length (PutUint32 z) = 4%nat.
Proof. apply length_be_put. Qed.

Lemma length_PutUint16 z : length (PutUint16 z) = 2%nat.
Proof. apply length_be_put. Qed.

(** ** [strconv] *)
Definition CR : byte := Ascii.ascii_of_nat 13.
Definition LF : byte := Ascii.ascii_of_nat 10.
Definition NUL : byte := Ascii.ascii_of_nat 0.

Definition isDigit (b : byte) : bool := (48 <=? byteZ b) && (byteZ b <=? 57).
Definition digit (d : Z) : byte := Zbyte (48 + d).

Fixpoint digits_val (acc : Z) (s : gostring) : option Z :=
  match s with
  | [] => Some acc
  | b :: s' => if isDigit b then digits_val (acc * 10 + (byteZ b - 48)) s' else None
  end.

(** [ParseUint(s, 10, 64)], without the range check of its caller. *)
Definition ParseUint (s : gostring) : option Z :=
  match s with [] => None | _ => digits_val 0 s end.

(** [ParseInt(s, 10, 64)] and [Atoi(s)]: [None] when the error is not nil. *)
Definition ParseInt (s : gostring) : option Z :=
  match s with
  | [] => None
  | c :: s' =>
      let neg := bool_decide (c = "-"%char) in
      let ds := if neg || bool_decide (c = "+"%char) then s' else s in
      un ← ParseUint ds;
      let v := if neg then - un else un in
      if in_int64 v then Some v else None
  end.

Fixpoint itoa_loop (fuel : nat) (n : Z) (acc : gostring) : gostring :=
  match fuel with
  | O => acc
  | S f =>
      let acc' := digit (n mod 10) :: acc in
      if n / 10 =? 0 then acc' else itoa_loop f (n / 10) acc'
  end.

(** [strconv.Itoa]. *)
Definition Itoa (n : Z) : gostring :=
  let a := Z.abs n in
  let ds := itoa_loop (S (Z.to_nat (Z.log2 a))) a [] in
  if n <? 0 then "-"%char :: ds else ds.

Lemma digit_isDigit d : 0 ≤ d < 10 → isDigit (digit d) = true ∧ byteZ (digit d) = 48 + d.
Proof.
  intros. unfold isDigit, digit. rewrite byteZ_Zbyte, Z.mod_small by lia.
  split; lia.
Qed.

Lemma itoa_loop_val fuel n acc :
  0 ≤ n < 10 ^ Z.of_nat fuel → fuel ≠ O →
  digits_val 0 (itoa_loop fuel n acc) = digits_val n acc.
Proof.
  revert n acc; induction fuel as [|f IH]; intros n acc Hn Hf; [done|].
  cbn [itoa_loop]. pose proof (Z.mod_pos_bound n 10 ltac:(lia)).
  destruct (digit_isDigit (n mod 10) ltac:(lia)) as [Hd Hv].
  rewrite Nat2Z.inj_succ, Z.pow_succ_r in Hn by lia.
  pose proof (Z.div_mod n 10 ltac:(lia)).
  destruct (Z.eqb_spec (n / 10) 0) as [E|E].
  - cbn [digits_val]. rewrite Hd, Hv. f_equal. lia.
  - rewrite IH.
    + cbn [digits_val]. rewrite Hd, Hv. f_equal. lia.
    + split; [apply Z.div_pos; lia|]. apply Z.div_lt_upper_bound; lia.
    + intros ->. simpl in Hn. assert (n / 10 = 0) by (apply Z.div_small; lia). done.
Qed.

Lemma itoa_loop_digits fuel n acc :
  Forall (λ b, isDigit b = true) acc →
  Forall (λ b, isDigit b = true) (itoa_loop fuel n acc).
Proof.
  revert n acc; induction fuel as [|f IH]; intros n acc Ha; simpl; [done|].
  assert (Forall (λ b, isDigit b = true) (digit (n mod 10) :: acc)).
  { constructor; [apply digit_isDigit, Z.mod_pos_bound; lia|done]. }
  case_match; auto.
Qed.

Lemma itoa_loop_nonempty fuel n acc : fuel ≠ O → itoa_loop fuel n acc ≠ [].
Proof.
  intros Hf. assert (∀ f m a, a ≠ [] → itoa_loop f m a ≠ []) as Hne.
  { induction f as [|f IH]; intros m a Ha; simpl; [done|]. case_match; [done|by apply IH]. }
  destruct fuel; simpl; [done|]. case_match; [done|by apply Hne].
Qed.

Lemma itoa_fuel a : 0 ≤ a → a < 10 ^ Z.of_nat (S (Z.to_nat (Z.log2 a))).
Proof.
  intros Ha. destruct (Z.eq_dec a 0) as [->|]; [done|].
  pose proof (Z.log2_nonneg a). pose proof (Z.log2_spec a ltac:(lia)) as [_ Hlt].
  eapply Z.lt_le_trans; [exact Hlt|].
  rewrite Nat2Z.inj_succ, Z2Nat.id by lia. apply Z.pow_le_mono_l; lia.
Qed.

Lemma isDigit_not_sign b : isDigit b = true → b ≠ "-"%char ∧ b ≠ "+"%char ∧ b ≠ CR.
Proof.
  intros H. split_and!; intros ->; vm_compute in H; discriminate.
Qed.

(** Printing an [int] in decimal and parsing it back gives the same [int]. *)
Lemma ParseInt_Itoa n : in_int64 n = true → ParseInt (Itoa n) = Some n.
Proof.
  intros Hr. unfold Itoa.
  set (a := Z.abs n). set (ds := itoa_loop _ _ _).
  assert (Hv : digits_val 0 ds = Some a).
  { unfold ds. rewrite itoa_loop_val; [done| |done]. split; [lia|apply itoa_fuel; lia]. }
  assert (Hne : ds ≠ []) by by apply itoa_loop_nonempty.
  assert (Hds : Forall (λ b, isDigit b = true) ds) by (apply itoa_loop_digits; constructor).
  destruct ds as [|d ds']; [done|].
  apply Forall_cons_1 in Hds as [Hd _]. apply isDigit_not_sign in Hd as (?&?&_).
  destruct (Z.ltb_spec n 0).
  - unfold ParseInt. rewrite (bool_decide_eq_true_2 ("-"%char = "-"%char)) by done.
    cbn [orb]. unfold ParseUint. rewrite Hv. cbn. replace (- a) with n by lia. by rewrite Hr.
  - unfold ParseInt. rewrite !bool_decide_eq_false_2 by done.
    cbn [orb]. unfold ParseUint. rewrite Hv. cbn. replace a with n by lia. by rewrite Hr.
Qed.

Lemma Itoa_no_CR n : Forall (λ b, b ≠ CR) (Itoa n).
Proof.
  unfold Itoa. assert (∀ f m, Forall (λ b, b ≠ CR) (itoa_loop f m [])) as Hl.
  { intros f m. eapply Forall_impl; [by apply itoa_loop_digits|].
    intros b Hb. by apply isDigit_not_sign in Hb as (?&?&?). }
  case_match; [constructor; [done|apply Hl]|apply Hl].
Qed.

(** ** [strings] *)

(** [strings.ToUpper] maps an ASCII string byte by byte; a string with a
    byte ≥ 0x80 goes through the Unicode tables, which are a parameter. *)
Class UnicodeUpper := unicode_upper : gostring → gostring.

Definition isASCII (b : byte) : bool := byteZ b <? 128.
Definition upper_byte (b : byte) : byte :=
  if (97 <=? byteZ b) && (byteZ b <=? 122) then Zbyte (byteZ b - 32) else b.
Definition ToUpper `{UnicodeUpper} (s : gostring) : gostring :=
  if forallb isASCII s then map upper_byte s else unicode_upper s.

(** A name [ToUpper] leaves alone: ASCII, with no lower-case letter. *)
Definition is_upper (s : gostring) : bool :=
  forallb (λ b, isASCII b && negb ((97 <=? byteZ b) && (byteZ b <=? 122))) s.

Lemma ToUpper_is_upper `{UnicodeUpper} s : is_upper s = true → ToUpper s = s.
Proof.
  unfold is_upper, ToUpper. rewrite forallb_Forall_iff. intros Hs.
  assert (forallb isASCII s = true) as ->.
  { apply forallb_Forall_iff. eapply Forall_impl; [exact Hs|]. simpl.
    by intros b [? _]%andb_prop. }
  induction Hs as [|b s Hb Hs IH]; simpl; [done|].
  apply andb_prop in Hb as [_ Hb%negb_true_iff]. rewrite IH.
  f_equal. unfold upper_byte. by rewrite Hb.
Qed.

Fixpoint HasPrefix (s p : gostring) : bool :=
  match p, s with
  | [], _ => true
  | x :: p', y :: s' => bool_decide (x = y) && HasPrefix s' p'
  | _ :: _, [] => false
  end.

(** The order of Go strings: bytewise lexicographic. *)
Fixpoint str_ltb (a b : gostring) : bool :=
  match a, b with
  | _, [] => false
  | [], _ :: _ => true
  | x :: a', y :: b' =>
      if byteZ x <? byteZ y then true
      else if byteZ y <? byteZ x then false else str_ltb a' b'
  end.

(** ** [time.Duration] *)
Definition Second : Z := 1000000000.
(** [Time.Sub] and [time.Until] saturate. *)
Definition time_Sub (t u : Z) : Z := Z.max min_int64 (Z.min max_int64 (t - u)).

Definition float_of_Z (z : Z) : spec_float := binary_normalize 53 1024 z 0 false.
(** [Duration.Seconds]: a [float64]. *)
Definition Seconds (d : Z) : spec_float :=
  SFadd 53 1024 (float_of_Z (Z.quot d Second))
    (SFdiv 53 1024 (float_of_Z (Z.rem d Second)) (float_of_Z 1000000000)).
(** [int(f)]: truncation toward zero. *)
Definition int_of_float (f : spec_float) : Z :=
  match f with
  | S754_finite s m e =>
      let a := if 0 <=? e then Z.pos m * 2 ^ e else Z.pos m / 2 ^ (- e) in
      if s then - a else a
  | _ => 0
  end.

Example seconds_ex : map (λ d, int_of_float (Seconds d)) [ -2; 0; 999999999; 1500000000; 58 * Second]
  = [0; 0; 0; 1; 58].
Proof. vm_compute. reflexivity. Qed.

(** ** [sync.RWMutex], seen by one goroutine *)
Record RWMutex := mkRWMutex { rw_readers : nat; rw_writer : bool }.
Definition unlocked : RWMutex := mkRWMutex 0 false.

Definition rw_Lock (m : RWMutex) : go RWMutex :=
  if rw_writer m || negb (rw_readers m =? 0)%nat then Deadlock else Ret (mkRWMutex 0 true).
Definition rw_Unlock (m : RWMutex) : go RWMutex :=
  if rw_writer m then Ret (mkRWMutex (rw_readers m) false) else Panic.
Definition rw_RLock (m : RWMutex) : go RWMutex :=
  if rw_writer m then Deadlock else Ret (mkRWMutex (S (rw_readers m)) false).
Definition rw_RUnlock (m : RWMutex) : go RWMutex :=
  match rw_readers m with O => Panic | S n => Ret (mkRWMutex n (rw_writer m)) end.
