(* ===== verification/StoreSpec.v ===== *)
(** * StoreSpec: the contract of [store.Store]

    [kv] is the abstract content of a store: string keys and hashes in two
    name spaces ([Del] clears both).  [StoreOps] is the Go interface
    [store.Store] (src/store/store.go); [StoreLaws] states that an
    implementation, through an invariant and an abstraction function, behaves
    as [kv].  [store_refines] lifts the laws to every sequence of calls. *)

From stdpp Require Import base list gmap strings.
From S2P Require Import Prelude GoLib.

(** ** The abstract content *)
Record kv := mkKV {
  kv_strings : gmap gostring gostring;
  kv_hashes : gmap gostring (gmap gostring gostring)
}.

#[global] Instance kv_eq_dec : EqDecision kv.
Proof. solve_decision. Defined.

Definition kv_empty : kv := mkKV ∅ ∅.
Definition kv_set (k v : gostring) (s : kv) : kv :=
  mkKV (<[k := v]> (kv_strings s)) (kv_hashes s).
Definition kv_del (k : gostring) (s : kv) : kv :=
  mkKV (delete k (kv_strings s)) (delete k (kv_hashes s)).
Definition kv_get (k : gostring) (s : kv) : option gostring := kv_strings s !! k.
Definition kv_hset (h k v : gostring) (s : kv) : kv :=
  mkKV (kv_strings s) (<[h := <[k := v]> (default ∅ (kv_hashes s !! h))]> (kv_hashes s)).
Definition kv_hget (h k : gostring) (s : kv) : option gostring :=
  kv_hashes s !! h ≫= λ m, m !! k.
Definition kv_hgetall (h : gostring) (s : kv) : option (gmap gostring gostring) :=
  kv_hashes s !! h.
(** The keys of both name spaces. *)
Definition kv_dom (s : kv) : gset gostring := dom (kv_strings s) ∪ dom (kv_hashes s).

(** [if _, ok := hashes[h]; !ok { hashes[h] = make(...) }; hashes[h][k] = v],
    the body every store shares. *)
Definition hash_put (h k v : gostring) (hs : gmap gostring (gmap gostring gostring)) :
    gmap gostring (gmap gostring gostring) :=
  alter (<[k := v]>) h (match hs !! h with None => <[h := ∅]> hs | Some _ => hs end).

Lemma hash_put_spec h k v hs :
  hash_put h k v hs = <[h := <[k := v]> (default ∅ (hs !! h))]> hs.
Proof.
  unfold hash_put. apply map_eq; intros i.
  rewrite lookup_alter, lookup_insert. destruct (hs !! h) eqn:E; simpl.
  - case_decide; subst; [by rewrite E|done].
  - case_decide; subst; [by rewrite lookup_insert_eq|by rewrite lookup_insert_ne].
Qed.

(** [m, ok := hashes[h]; if !ok { return "", false }; v, ok := m[k]]. *)
Definition hash_get (h k : gostring) (hs : gmap gostring (gmap gostring gostring)) :
    option gostring :=
  match hs !! h with None => None | Some m => m !! k end.

Lemma hash_get_spec h k s : hash_get h k (kv_hashes s) = kv_hget h k s.
Proof. reflexivity. Qed.

Lemma kv_dom_set k v s : kv_dom (kv_set k v s) = {[k]} ∪ kv_dom s.
Proof. unfold kv_dom; simpl. rewrite dom_insert_L. set_solver. Qed.

Lemma kv_dom_del k s : kv_dom (kv_del k s) = kv_dom s ∖ {[k]}.
Proof. unfold kv_dom; simpl. rewrite !dom_delete_L. set_solver. Qed.

Lemma kv_dom_hset h k v s : kv_dom (kv_hset h k v s) = {[h]} ∪ kv_dom s.
Proof. unfold kv_dom; simpl. rewrite dom_insert_L. set_solver. Qed.

Lemma kv_get_not_in k s : k ∉ kv_dom s → kv_get k s = None.
Proof. unfold kv_dom, kv_get. rewrite not_elem_of_union, !not_elem_of_dom. tauto. Qed.

Lemma kv_get_Some_in k v s : kv_get k s = Some v → k ∈ kv_dom s.
Proof. unfold kv_dom, kv_get. intros. apply elem_of_union_l, elem_of_dom; eauto. Qed.

#[export] Hint Rewrite kv_dom_set kv_dom_del kv_dom_hset : flux.

(** ** The interface *)
Class StoreOps (S : Type) := {
  st_Set : gostring → gostring → S → go S;
  st_Get : gostring → S → go (option gostring);
  st_Del : gostring → S → go S;
  st_HSet : gostring → gostring → gostring → S → go S;
  st_HGet : gostring → gostring → S → go (option gostring);
  st_HGetAll : gostring → S → go (option (gmap gostring gostring));
  st_Close : S → go S
}.

(** What an implementation promises to its clients: each call returns, and
    commutes with the abstraction function. *)
Class StoreLaws (S : Type) `{!StoreOps S} := {
  st_inv : S → Prop;
  st_abs : S → kv;
  law_Set k v s : st_inv s →
    ∃ s', st_Set k v s = Ret s' ∧ st_inv s' ∧ st_abs s' = kv_set k v (st_abs s);
  law_Del k s : st_inv s →
    ∃ s', st_Del k s = Ret s' ∧ st_inv s' ∧ st_abs s' = kv_del k (st_abs s);
  law_HSet h k v s : st_inv s →
    ∃ s', st_HSet h k v s = Ret s' ∧ st_inv s' ∧ st_abs s' = kv_hset h k v (st_abs s);
  law_Get k s : st_inv s → st_Get k s = Ret (kv_get k (st_abs s));
  law_HGet h k s : st_inv s → st_HGet h k s = Ret (kv_hget h k (st_abs s));
  law_HGetAll h s : st_inv s → st_HGetAll h s = Ret (kv_hgetall h (st_abs s))
}.

(** ** Sequences of calls *)
Inductive store_op :=
| OpSet (k v : gostring)
| OpDel (k : gostring)
| OpHSet (h k v : gostring)
| OpGet (k : gostring)
| OpHGet (h k : gostring)
| OpHGetAll (h : gostring).

Inductive store_out :=
| OutUnit
| OutVal (v : option gostring)
| OutMap (m : option (gmap gostring gostring)).

Definition store_step {S} `{!StoreOps S} (o : store_op) (s : S) : go (S * store_out) :=
  match o with
  | OpSet k v => s' ← st_Set k v s; Ret (s', OutUnit)
  | OpDel k => s' ← st_Del k s; Ret (s', OutUnit)
  | OpHSet h k v => s' ← st_HSet h k v s; Ret (s', OutUnit)
  | OpGet k => v ← st_Get k s; Ret (s, OutVal v)
  | OpHGet h k => v ← st_HGet h k s; Ret (s, OutVal v)
  | OpHGetAll h => m ← st_HGetAll h s; Ret (s, OutMap m)
  end.

Definition kv_step (o : store_op) (s : kv) : kv * store_out :=
  match o with
  | OpSet k v => (kv_set k v s, OutUnit)
  | OpDel k => (kv_del k s, OutUnit)
  | OpHSet h k v => (kv_hset h k v s, OutUnit)
  | OpGet k => (s, OutVal (kv_get k s))
  | OpHGet h k => (s, OutVal (kv_hget h k s))
  | OpHGetAll h => (s, OutMap (kv_hgetall h s))
  end.

Fixpoint store_run {S} `{!StoreOps S} (os : list store_op) (s : S) : go (S * list store_out) :=
  match os with
  | [] => Ret (s, [])
  | o :: os' =>
      '(s1, r) ← store_step o s;
      '(s2, rs) ← store_run os' s1;
      Ret (s2, r :: rs)
  end.

Fixpoint kv_run (os : list store_op) (s : kv) : kv * list store_out :=
  match os with
  | [] => (s, [])
  | o :: os' =>
      let '(s1, r) := kv_step o s in
      let '(s2, rs) := kv_run os' s1 in
      (s2, r :: rs)
  end.

Section refinement.
Context {S : Type} `{!StoreOps S} `{!StoreLaws S}.

Lemma store_step_refines o s :
  st_inv s →
  ∃ s', store_step o s = Ret (s', (kv_step o (st_abs s)).2) ∧ st_inv s' ∧
        st_abs s' = (kv_step o (st_abs s)).1.
Proof.
  intros Hi. destruct o as [k v|k|h k v|k|h k|h]; simpl.
  - destruct (law_Set k v s Hi) as (s' & -> & ? & ?). by exists s'.
  - destruct (law_Del k s Hi) as (s' & -> & ? & ?). by exists s'.
  - destruct (law_HSet h k v s Hi) as (s' & -> & ? & ?). by exists s'.
  - rewrite law_Get by done. by exists s.
  - rewrite law_HGet by done. by exists s.
  - rewrite law_HGetAll by done. by exists s.
Qed.

(** Every sequence of calls returns, answers what the abstract store
    answers, and ends in a state that abstracts to the abstract one. *)
Lemma store_refines os s :
  st_inv s →
  ∃ s', store_run os s = Ret (s', (kv_run os (st_abs s)).2) ∧ st_inv s' ∧
        st_abs s' = (kv_run os (st_abs s)).1.
Proof.
  revert s; induction os as [|o os IH]; intros s Hi; simpl; [by exists s|].
  destruct (store_step_refines o s Hi) as (s1 & -> & Hi1 & Ha1). simpl.
  destruct (IH s1 Hi1) as (s2 & -> & Hi2 & Ha2). simpl.
  destruct (kv_step o (st_abs s)) as [a r]. simpl in *. subst a.
  destruct (kv_run os (st_abs s1)) as [b rs]. by exists s2.
Qed.
End refinement.
