(* ===== verification/MapStore.v ===== *)
(** * MapStore: src/store/map.go

    Two Go maps behind one lock that every method takes and releases; a
    method is therefore one atomic step, and the reference point of the other
    implementations. *)

From stdpp Require Import base list gmap strings.
From S2P Require Import Prelude GoLib StoreSpec.

Record MapStore := mkMapStore {
  ms_strings : gmap gostring gostring;
  ms_hashes : gmap gostring (gmap gostring gostring)
}.

Definition NewMapStore : MapStore := mkMapStore ∅ ∅.

Definition MapStore_Set (k v : gostring) (s : MapStore) : go MapStore :=
  Ret (mkMapStore (<[k := v]> (ms_strings s)) (ms_hashes s)).

Definition MapStore_Del (k : gostring) (s : MapStore) : go MapStore :=
  Ret (mkMapStore (delete k (ms_strings s)) (delete k (ms_hashes s))).

Definition MapStore_Get (k : gostring) (s : MapStore) : go (option gostring) :=
  Ret (ms_strings s !! k).

Definition MapStore_HSet (h k v : gostring) (s : MapStore) : go MapStore :=
  Ret (mkMapStore (ms_strings s) (hash_put h k v (ms_hashes s))).

Definition MapStore_HGet (h k : gostring) (s : MapStore) : go (option gostring) :=
  Ret (hash_get h k (ms_hashes s)).

Definition MapStore_HGetAll (h : gostring) (s : MapStore) : go (option (gmap gostring gostring)) :=
  Ret (ms_hashes s !! h).

Definition MapStore_Close (s : MapStore) : go MapStore := Ret s.

#[global] Instance MapStore_ops : StoreOps MapStore := {
  st_Set := MapStore_Set;
  st_Get := MapStore_Get;
  st_Del := MapStore_Del;
  st_HSet := MapStore_HSet;
  st_HGet := MapStore_HGet;
  st_HGetAll := MapStore_HGetAll;
  st_Close := MapStore_Close
}.

Definition MapStore_abs (s : MapStore) : kv := mkKV (ms_strings s) (ms_hashes s).

#[global] Program Instance MapStore_laws : StoreLaws MapStore := {
  st_inv := λ _, True;
  st_abs := MapStore_abs
}.
Next Obligation. intros. eexists; split_and!; [done..|]. reflexivity. Qed.
Next Obligation. intros. eexists; split_and!; [done..|]. reflexivity. Qed.
Next Obligation.
  intros. eexists; split_and!; [done..|].
  unfold MapStore_abs, kv_hset; simpl. by rewrite hash_put_spec.
Qed.
Next Obligation. reflexivity. Qed.
Next Obligation. reflexivity. Qed.
Next Obligation. reflexivity. Qed.
