(* ===== verification/Partition.v ===== *)
(** * Partition: a finite map spread over a list of maps

    [ShardedStore] and [LockFreeStore] spread their keys over a slice of
    buckets by a hash of the key.  The lemmas here relate an update of one
    bucket to the union of all of them. *)

From stdpp Require Import base list gmap strings.
From Stdlib Require Import ZArith Lia.
From S2P Require Import Prelude GoLib.

(** ** [hash/fnv]: the 64-bit FNV-1a hash *)
Definition fnv_offset64 : Z := 14695981039346656037.
Definition fnv_prime64 : Z := 1099511628211.

Definition fnv64a (s : gostring) : Z :=
  foldl (λ h b, wrap 64 (Z.lxor h (byteZ b) * fnv_prime64)%Z) fnv_offset64 s.

Lemma fnv64a_range s : (0 ≤ fnv64a s < 2 ^ 64)%Z.
Proof.
  unfold fnv64a. assert (0 ≤ fnv_offset64 < 2 ^ 64)%Z as H by done. revert H.
  generalize fnv_offset64. induction s as [|b s IH]; intros z Hz; simpl; [done|].
  apply IH. apply Z.mod_pos_bound. lia.
Qed.

(** [h & (n - 1)] is a valid index of a slice of length [n], whether or not
    [n] is a power of two. *)
Lemma land_mask_bound (h n : Z) : (0 ≤ h → 0 < n → 0 ≤ Z.land h (n - 1) < n)%Z.
Proof.
  intros Hh Hn. assert (0 ≤ Z.land h (n - 1))%Z by (apply Z.land_nonneg; lia).
  split; [done|]. enough (Z.land h (n - 1) ≤ n - 1)%Z by lia.
  apply Z.ldiff_le; [lia|]. apply Z.bits_inj'; intros i Hi.
  rewrite Z.ldiff_spec, Z.land_spec, Z.bits_0.
  by destruct (Z.testbit h i), (Z.testbit (n - 1) i).
Qed.

Section partition.
Context {V : Type} (idx : gostring → nat).
Implicit Types (parts : list (gmap gostring V)) (m : gmap gostring V).

(** Each key lives in the bucket its index names. *)
Definition part_inv parts : Prop :=
  ∀ i m k, parts !! i = Some m → is_Some (m !! k) → idx k = i.

Lemma union_list_lookup_None parts k :
  (∀ i m, parts !! i = Some m → m !! k = None) → (⋃ parts) !! k = None.
Proof.
  induction parts as [|m parts IH]; intros H; simpl; [done|].
  apply lookup_union_None. split; [by apply (H 0)|].
  apply IH. intros i m' Hi. by apply (H (S i)).
Qed.

Lemma union_list_lookup_only parts i m k :
  parts !! i = Some m →
  (∀ j m', parts !! j = Some m' → j ≠ i → m' !! k = None) →
  (⋃ parts) !! k = m !! k.
Proof.
  revert i; induction parts as [|m0 parts IH]; intros i Hi Ho; [done|].
  destruct i as [|i]; simpl in *; simplify_eq.
  - rewrite lookup_union, union_list_lookup_None; [by rewrite (right_id None _)|].
    intros j m' Hj. by apply (Ho (S j)).
  - rewrite lookup_union, (Ho 0 m0) by done. rewrite (left_id None _).
    apply IH with i; [done|]. intros j m' Hj Hne. apply (Ho (S j)); [done|lia].
Qed.

Lemma part_lookup parts k m :
  part_inv parts → parts !! idx k = Some m → (⋃ parts) !! k = m !! k.
Proof.
  intros Hp Hm. apply union_list_lookup_only with (idx k); [done|].
  intros j m' Hj Hne. apply eq_None_not_Some. intros Hs. by destruct Hne; eapply eq_sym, Hp.
Qed.

Section update.
Context (parts : list (gmap gostring V)) (k : gostring) (m m' : gmap gostring V).
Hypothesis Hp : part_inv parts.
Hypothesis Hall : ∀ j, is_Some (parts !! idx j).
Hypothesis Hm : parts !! idx k = Some m.
Hypothesis Hoff : ∀ j, j ≠ k → m' !! j = m !! j.

Lemma part_inv_update : part_inv (<[idx k := m']> parts).
Proof.
  intros i mi j Hi Hs. destruct (decide (i = idx k)) as [->|Hne].
  - rewrite list_lookup_insert_eq in Hi by by eapply lookup_lt_Some. simplify_eq.
    destruct (decide (j = k)) as [->|]; [done|]. rewrite Hoff in Hs by done. eauto.
  - rewrite list_lookup_insert_ne in Hi by done. eauto.
Qed.

Lemma part_lookup_update j :
  (⋃ (<[idx k := m']> parts)) !! j = if decide (j = k) then m' !! k else (⋃ parts) !! j.
Proof.
  assert (Hl : idx k < length parts) by by eapply lookup_lt_Some.
  destruct (Hall j) as [mj Hj].
  destruct (decide (idx j = idx k)) as [E|E].
  - rewrite (part_lookup _ j m' part_inv_update)
      by (rewrite E; by apply list_lookup_insert_eq).
    case_decide as Hd; [by subst|]. rewrite Hoff by done.
    symmetry. apply part_lookup; [done|]. congruence.
  - rewrite (part_lookup _ j mj part_inv_update)
      by (by rewrite list_lookup_insert_ne).
    case_decide as Hd; [by subst|]. symmetry. by apply part_lookup.
Qed.
End update.

Lemma part_insert parts k v m :
  part_inv parts → (∀ j, is_Some (parts !! idx j)) → parts !! idx k = Some m →
  part_inv (<[idx k := <[k := v]> m]> parts) ∧
  ⋃ (<[idx k := <[k := v]> m]> parts) = <[k := v]> (⋃ parts).
Proof.
  intros Hp Ha Hm. assert (∀ j, j ≠ k → <[k := v]> m !! j = m !! j) as Hoff.
  { intros. by apply lookup_insert_ne. }
  split; [by eapply part_inv_update|]. apply map_eq; intros j.
  rewrite (part_lookup_update _ _ m) by done. rewrite !lookup_insert.
  repeat case_decide; congruence.
Qed.

Lemma part_delete parts k m :
  part_inv parts → (∀ j, is_Some (parts !! idx j)) → parts !! idx k = Some m →
  part_inv (<[idx k := delete k m]> parts) ∧
  ⋃ (<[idx k := delete k m]> parts) = delete k (⋃ parts).
Proof.
  intros Hp Ha Hm. assert (∀ j, j ≠ k → delete k m !! j = m !! j) as Hoff.
  { intros. by apply lookup_delete_ne. }
  split; [by eapply part_inv_update|]. apply map_eq; intros j.
  rewrite (part_lookup_update _ _ m) by done. rewrite !lookup_delete.
  repeat case_decide; congruence.
Qed.

Lemma part_inv_replicate n : part_inv (replicate n ∅).
Proof.
  intros i m k Hi [v Hv]. apply lookup_replicate in Hi as [-> _]. by rewrite lookup_empty in Hv.
Qed.

Lemma union_list_replicate_empty n : ⋃ (replicate n (∅ : gmap gostring V)) = ∅.
Proof. induction n as [|n IH]; simpl; [done|]. by rewrite IH, (left_id_L ∅ _). Qed.
End partition.
