(* ===== verification/ShardedStore.v ===== *)
(** * ShardedStore: src/store/sharded.go

    A slice of shards, each with its two maps behind its own lock; a key's
    shard is [fnv64a(key) & mask].  Every method works under the lock of one
    shard, so it is one atomic step on the slice. *)

From stdpp Require Import base list gmap strings.
From Stdlib Require Import ZArith Lia.
From S2P Require Import Prelude GoLib StoreSpec Partition.

Record shard := mkShard {
  sh_strings : gmap gostring gostring;
  sh_hashes : gmap gostring (gmap gostring gostring)
}.

Record ShardedStore := mkShardedStore {
  shards : list shard;
  mask : Z
}.

Definition NewShardedStore (shardCount : Z) : ShardedStore :=
  let n := if (shardCount <=? 0)%Z then 256%Z else shardCount in
  mkShardedStore (replicate (Z.to_nat n) (mkShard ∅ ∅)) (wrap 64 (n - 1)).

(** [s.shards[h.Sum64() & s.mask]]: the index and the shard it points to. *)
Definition getShard (key : gostring) (s : ShardedStore) : go (nat * shard) :=
  let i := Z.to_nat (Z.land (fnv64a key) (mask s)) in
  match shards s !! i with
  | Some sh => Ret (i, sh)
  | None => Panic
  end.

(** Store the updated shard back through its pointer. *)
Definition put_shard (i : nat) (sh : shard) (s : ShardedStore) : ShardedStore :=
  mkShardedStore (<[i := sh]> (shards s)) (mask s).

Definition ShardedStore_Set (key value : gostring) (s : ShardedStore) : go ShardedStore :=
  '(i, sh) ← getShard key s;
  Ret (put_shard i (mkShard (<[key := value]> (sh_strings sh)) (sh_hashes sh)) s).

Definition ShardedStore_Del (key : gostring) (s : ShardedStore) : go ShardedStore :=
  '(i, sh) ← getShard key s;
  Ret (put_shard i (mkShard (delete key (sh_strings sh)) (delete key (sh_hashes sh))) s).

Definition ShardedStore_Get (key : gostring) (s : ShardedStore) : go (option gostring) :=
  '(_, sh) ← getShard key s;
  Ret (sh_strings sh !! key).

Definition ShardedStore_HSet (hash key value : gostring) (s : ShardedStore) : go ShardedStore :=
  '(i, sh) ← getShard hash s;
  Ret (put_shard i (mkShard (sh_strings sh) (hash_put hash key value (sh_hashes sh))) s).

Definition ShardedStore_HGet (hash key : gostring) (s : ShardedStore) : go (option gostring) :=
  '(_, sh) ← getShard hash s;
  Ret (hash_get hash key (sh_hashes sh)).

Definition ShardedStore_HGetAll (hash : gostring) (s : ShardedStore) :
    go (option (gmap gostring gostring)) :=
  '(_, sh) ← getShard hash s;
  Ret (sh_hashes sh !! hash).

Definition ShardedStore_Close (s : ShardedStore) : go ShardedStore := Ret s.

#[global] Instance ShardedStore_ops : StoreOps ShardedStore := {
  st_Set := ShardedStore_Set;
  st_Get := ShardedStore_Get;
  st_Del := ShardedStore_Del;
  st_HSet := ShardedStore_HSet;
  st_HGet := ShardedStore_HGet;
  st_HGetAll := ShardedStore_HGetAll;
  st_Close := ShardedStore_Close
}.

(** ** Invariant and abstraction *)
Definition shard_idx (m : Z) (key : gostring) : nat := Z.to_nat (Z.land (fnv64a key) m).

(** The mask fits the slice, and each key is in the shard of its hash. *)
Record ShardedStore_inv (s : ShardedStore) : Prop := {
  sharded_mask : mask s = (Z.of_nat (length (shards s)) - 1)%Z;
  sharded_nonempty : shards s ≠ [];
  sharded_strings : part_inv (shard_idx (mask s)) (sh_strings <$> shards s);
  sharded_hashes : part_inv (shard_idx (mask s)) (sh_hashes <$> shards s)
}.

Definition ShardedStore_abs (s : ShardedStore) : kv :=
  mkKV (⋃ (sh_strings <$> shards s)) (⋃ (sh_hashes <$> shards s)).

Lemma getShard_inv key s :
  ShardedStore_inv s →
  ∃ sh, getShard key s = Ret (shard_idx (mask s) key, sh) ∧
        shards s !! shard_idx (mask s) key = Some sh.
Proof.
  intros [Hm Hne _ _]. unfold getShard, shard_idx.
  destruct (lookup_lt_is_Some_2 (shards s)
    (Z.to_nat (Z.land (fnv64a key) (mask s)))) as [sh Hsh].
  { assert (length (shards s) ≠ 0) by (by destruct (shards s)).
    pose proof (fnv64a_range key). rewrite Hm.
    pose proof (land_mask_bound (fnv64a key) (Z.of_nat (length (shards s)))). lia. }
  exists sh. by rewrite Hsh.
Qed.

Lemma shard_all {A} (f : shard → A) s key :
  ShardedStore_inv s → is_Some ((f <$> shards s) !! shard_idx (mask s) key).
Proof.
  intros Hi. destruct (getShard_inv key s Hi) as (sh & _ & Hsh).
  rewrite list_lookup_fmap, Hsh. eauto.
Qed.

Lemma fmap_put_same {A} (f : shard → A) (l : list shard) i sh sh' :
  l !! i = Some sh → f sh' = f sh → f <$> <[i := sh']> l = f <$> l.
Proof.
  intros Hl Hf. rewrite list_fmap_insert, Hf. apply list_insert_id.
  by rewrite list_lookup_fmap, Hl.
Qed.

(** Replacing one shard keeps the invariant and moves the abstraction, when
    both of its maps change at the key only. *)
Lemma put_shard_inv key s sh sh' :
  ShardedStore_inv s →
  shards s !! shard_idx (mask s) key = Some sh →
  part_inv (shard_idx (mask s)) (<[shard_idx (mask s) key := sh_strings sh']> (sh_strings <$> shards s)) →
  part_inv (shard_idx (mask s)) (<[shard_idx (mask s) key := sh_hashes sh']> (sh_hashes <$> shards s)) →
  ShardedStore_inv (put_shard (shard_idx (mask s) key) sh' s).
Proof.
  intros [Hm Hne _ _] Hl Hs Hh. split; simpl; rewrite ?length_insert, ?list_fmap_insert; try done.
  intros E. apply Hne, length_zero_iff_nil. by rewrite <-(length_insert _ (shard_idx (mask s) key) sh'), E.
Qed.

Lemma NewShardedStore_inv n : (n ≤ 2 ^ 63)%Z → ShardedStore_inv (NewShardedStore n).
Proof.
  intros Hn. unfold NewShardedStore.
  set (c := if (n <=? 0)%Z then 256%Z else n).
  assert (0 < c ≤ 2 ^ 63)%Z as Hc by (unfold c; destruct (Z.leb_spec n 0); lia).
  split; simpl.
  - rewrite length_replicate, wrap_small; lia.
  - destruct (Z.to_nat c) eqn:E; [lia|done].
  - rewrite fmap_replicate. apply part_inv_replicate.
  - rewrite fmap_replicate. apply part_inv_replicate.
Qed.

Lemma NewShardedStore_abs n : ShardedStore_abs (NewShardedStore n) = kv_empty.
Proof.
  unfold ShardedStore_abs, NewShardedStore; simpl.
  rewrite !fmap_replicate. cbn [sh_strings sh_hashes].
  by rewrite !union_list_replicate_empty.
Qed.

(** The shape all the lookups share. *)
Ltac sharded_lookup key s Hi :=
  let sh := fresh "sh" in let Hg := fresh "Hg" in let Hl := fresh "Hl" in
  destruct (getShard_inv key s Hi) as (sh & Hg & Hl);
  go_step Hg.

#[global] Program Instance ShardedStore_laws : StoreLaws ShardedStore := {
  st_inv := ShardedStore_inv;
  st_abs := ShardedStore_abs
}.
Next Obligation.
  intros k v s Hi. simpl. unfold ShardedStore_Set. sharded_lookup k s Hi.
  eexists; split; [done|].
  destruct (part_insert (shard_idx (mask s)) (sh_strings <$> shards s) k v (sh_strings sh)) as [Hp Hu].
  { apply Hi. } { intros; by apply shard_all. } { by rewrite list_lookup_fmap, Hl. }
  split.
  - apply put_shard_inv with sh; [done..|]. simpl. rewrite list_insert_id; [apply Hi|].
    by rewrite list_lookup_fmap, Hl.
  - unfold ShardedStore_abs, kv_set; simpl. f_equal.
    + by rewrite list_fmap_insert.
    + by rewrite (fmap_put_same sh_hashes _ _ sh).
Qed.
Next Obligation.
  intros k s Hi. simpl. unfold ShardedStore_Del. sharded_lookup k s Hi.
  eexists; split; [done|].
  destruct (part_delete (shard_idx (mask s)) (sh_strings <$> shards s) k (sh_strings sh)) as [Hp Hu].
  { apply Hi. } { intros; by apply shard_all. } { by rewrite list_lookup_fmap, Hl. }
  destruct (part_delete (shard_idx (mask s)) (sh_hashes <$> shards s) k (sh_hashes sh)) as [Hp' Hu'].
  { apply Hi. } { intros; by apply shard_all. } { by rewrite list_lookup_fmap, Hl. }
  split.
  - by apply put_shard_inv with sh.
  - unfold ShardedStore_abs, kv_del; simpl. by rewrite !list_fmap_insert, <-Hu, <-Hu'.
Qed.
Next Obligation.
  intros h k v s Hi. simpl. unfold ShardedStore_HSet. sharded_lookup h s Hi.
  eexists; split; [done|].
  rewrite hash_put_spec.
  destruct (part_insert (shard_idx (mask s)) (sh_hashes <$> shards s) h
    (<[k := v]> (default ∅ (sh_hashes sh !! h))) (sh_hashes sh)) as [Hp Hu].
  { apply Hi. } { intros; by apply shard_all. } { by rewrite list_lookup_fmap, Hl. }
  split.
  - apply put_shard_inv with sh; [done..| |done]. simpl. rewrite list_insert_id; [apply Hi|].
    by rewrite list_lookup_fmap, Hl.
  - unfold ShardedStore_abs, kv_hset; simpl. f_equal.
    + by rewrite (fmap_put_same sh_strings _ _ sh).
    + rewrite list_fmap_insert. simpl. rewrite Hu. do 3 f_equal.
      symmetry. apply part_lookup with (shard_idx (mask s)); [apply Hi|].
      by rewrite list_lookup_fmap, Hl.
Qed.
Next Obligation.
  intros k s Hi. simpl. unfold ShardedStore_Get. sharded_lookup k s Hi.
  unfold kv_get, ShardedStore_abs; simpl. f_equal. symmetry.
  apply part_lookup with (shard_idx (mask s)); [apply Hi|]. by rewrite list_lookup_fmap, Hl.
Qed.
Next Obligation.
  intros h k s Hi. simpl. unfold ShardedStore_HGet. sharded_lookup h s Hi.
  rewrite <-hash_get_spec. unfold hash_get; simpl.
  rewrite (part_lookup (shard_idx (mask s)) _ h (sh_hashes sh)); [done|apply Hi|].
  by rewrite list_lookup_fmap, Hl.
Qed.
Next Obligation.
  intros h s Hi. simpl. unfold ShardedStore_HGetAll. sharded_lookup h s Hi.
  unfold kv_hgetall, ShardedStore_abs; simpl. f_equal. symmetry.
  apply part_lookup with (shard_idx (mask s)); [apply Hi|]. by rewrite list_lookup_fmap, Hl.
Qed.

(** ** Theorems *)

(** C35: Whatever shard count the configuration gives (any [int], also zero,
    negative or not a power of two), every sequence of calls on a new
    ShardedStore returns without a panic and answers exactly what one pair of
    maps would answer. *)
Theorem sharded_refines (n : Z) (os : list store_op) :
  in_int64 n = true →
  ∃ s', store_run os (NewShardedStore n) = Ret (s', (kv_run os kv_empty).2) ∧
        ShardedStore_abs s' = (kv_run os kv_empty).1.
Proof.
  intros Hn. assert (ShardedStore_inv (NewShardedStore n)) as Hi.
  { apply NewShardedStore_inv. unfold in_int64, max_int64 in Hn. lia. }
  destruct (store_refines os (NewShardedStore n)) as (s' & Hr & _ & Ha); [exact Hi|].
  simpl in Hr, Ha. rewrite NewShardedStore_abs in Hr, Ha. by exists s'.
Qed.

Definition sharded_demo : list store_op :=
  [OpSet (str "a") (str "1"); OpHSet (str "a") (str "f") (str "2"); OpSet (str "b") (str "3");
   OpDel (str "b"); OpGet (str "a"); OpGet (str "b"); OpHGet (str "a") (str "f")].

Lemma sharded_refines_witness :
  in_int64 3 = true ∧
  ∃ s', store_run sharded_demo (NewShardedStore 3) = Ret (s', (kv_run sharded_demo kv_empty).2) ∧
        ShardedStore_abs s' = (kv_run sharded_demo kv_empty).1.
Proof. split; [reflexivity|]. apply (sharded_refines 3). reflexivity. Defined.
