(* ===== verification/SyncMapStore.v ===== *)
(** * SyncMapStore: src/store/syncmap.go

    [strings] is a [sync.Map] of strings; [hashes] is a [sync.Map] whose
    values are POINTERS to further [sync.Map]s.  The pointers are kept: the
    inner maps live in a heap, and [LoadOrStore] allocates a fresh map on
    every call even when it is not used. *)

From stdpp Require Import base list gmap strings.
From Stdlib Require Import Lia.
From S2P Require Import Prelude GoLib StoreSpec.

Record SyncMapStore := mkSyncMapStore {
  sm_strings : gmap gostring gostring;
  sm_hashes : gmap gostring nat;
  sm_heap : gmap nat (gmap gostring gostring);
  sm_next : nat
}.

Definition NewSyncMapStore : SyncMapStore := mkSyncMapStore ∅ ∅ ∅ 0.

Definition SyncMapStore_Set (key value : gostring) (s : SyncMapStore) : go SyncMapStore :=
  Ret (mkSyncMapStore (<[key := value]> (sm_strings s)) (sm_hashes s) (sm_heap s) (sm_next s)).

Definition SyncMapStore_Del (key : gostring) (s : SyncMapStore) : go SyncMapStore :=
  Ret (mkSyncMapStore (delete key (sm_strings s)) (delete key (sm_hashes s)) (sm_heap s) (sm_next s)).

Definition SyncMapStore_Get (key : gostring) (s : SyncMapStore) : go (option gostring) :=
  Ret (sm_strings s !! key).

(** [s.hashes.LoadOrStore(hash, &sync.Map{})]: the pointer now stored. *)
Definition LoadOrStore (hash : gostring) (s : SyncMapStore) : nat * SyncMapStore :=
  let fresh := sm_next s in
  let heap := <[fresh := ∅]> (sm_heap s) in
  match sm_hashes s !! hash with
  | Some p => (p, mkSyncMapStore (sm_strings s) (sm_hashes s) heap (S fresh))
  | None => (fresh, mkSyncMapStore (sm_strings s) (<[hash := fresh]> (sm_hashes s)) heap (S fresh))
  end.

(** [h.( *sync.Map ).Store(key, value)] through the pointer [p]. *)
Definition inner_Store (p : nat) (key value : gostring) (s : SyncMapStore) : go SyncMapStore :=
  match sm_heap s !! p with
  | Some m => Ret (mkSyncMapStore (sm_strings s) (sm_hashes s) (<[p := <[key := value]> m]> (sm_heap s)) (sm_next s))
  | None => Panic
  end.

Definition SyncMapStore_HSet (hash key value : gostring) (s : SyncMapStore) : go SyncMapStore :=
  let '(p, s1) := LoadOrStore hash s in
  inner_Store p key value s1.

Definition SyncMapStore_HGet (hash key : gostring) (s : SyncMapStore) : go (option gostring) :=
  match sm_hashes s !! hash with
  | None => Ret None
  | Some p =>
      match sm_heap s !! p with
      | Some m => Ret (m !! key)
      | None => Panic
      end
  end.

(** The [Range] callback copies each pair into [out]. *)
Definition SyncMapStore_HGetAll (hash : gostring) (s : SyncMapStore) :
    go (option (gmap gostring gostring)) :=
  match sm_hashes s !! hash with
  | None => Ret None
  | Some p =>
      match sm_heap s !! p with
      | Some m => Ret (Some (map_fold (λ k v out, <[k := v]> out) ∅ m))
      | None => Panic
      end
  end.

Definition SyncMapStore_Close (s : SyncMapStore) : go SyncMapStore := Ret s.

#[global] Instance SyncMapStore_ops : StoreOps SyncMapStore := {
  st_Set := SyncMapStore_Set;
  st_Get := SyncMapStore_Get;
  st_Del := SyncMapStore_Del;
  st_HSet := SyncMapStore_HSet;
  st_HGet := SyncMapStore_HGet;
  st_HGetAll := SyncMapStore_HGetAll;
  st_Close := SyncMapStore_Close
}.

(** ** Invariant: no dangling and no shared pointer *)
Record SyncMapStore_inv (s : SyncMapStore) : Prop := {
  syncmap_valid h p : sm_hashes s !! h = Some p → is_Some (sm_heap s !! p);
  syncmap_fresh p : is_Some (sm_heap s !! p) → p < sm_next s;
  syncmap_inj h h' p : sm_hashes s !! h = Some p → sm_hashes s !! h' = Some p → h = h'
}.

Definition SyncMapStore_abs (s : SyncMapStore) : kv :=
  mkKV (sm_strings s) (omap (λ p, sm_heap s !! p) (sm_hashes s)).

Lemma map_fold_insert_copy (m : gmap gostring gostring) :
  map_fold (λ k v out, <[k := v]> out) ∅ m = m.
Proof.
  apply (map_fold_weak_ind (λ (r m' : gmap gostring gostring), r = m')); [done|].
  by intros k v m' r _ ->.
Qed.

Lemma syncmap_next_unused s : SyncMapStore_inv s → sm_heap s !! sm_next s = None.
Proof.
  intros Hi. apply eq_None_not_Some. intros H%(syncmap_fresh s Hi). lia.
Qed.

Lemma NewSyncMapStore_inv : SyncMapStore_inv NewSyncMapStore.
Proof.
  split; simpl.
  - intros h p. by rewrite lookup_empty.
  - intros p [? H]. by rewrite lookup_empty in H.
  - intros h h' p. by rewrite lookup_empty.
Qed.

Lemma LoadOrStore_spec hash s :
  SyncMapStore_inv s →
  let '(p, s1) := LoadOrStore hash s in
  SyncMapStore_inv s1 ∧ sm_hashes s1 !! hash = Some p ∧ sm_strings s1 = sm_strings s ∧
  sm_heap s1 !! p = Some (default ∅ (kv_hashes (SyncMapStore_abs s) !! hash)) ∧
  (∀ h, h ≠ hash → kv_hashes (SyncMapStore_abs s1) !! h = kv_hashes (SyncMapStore_abs s) !! h).
Proof.
  intros Hi. unfold LoadOrStore. pose proof (syncmap_next_unused s Hi) as Hfr.
  destruct Hi as [Hv Hf Hj]. destruct (sm_hashes s !! hash) as [p|] eqn:E; simpl.
  - destruct (Hv hash p E) as [m Hm]. assert (p < sm_next s) by eauto.
    split_and!; [split; simpl|done|done| |].
    + intros h q Hq. destruct (Hv h q Hq) as [mq Hmq]. assert (q < sm_next s) by eauto.
      rewrite lookup_insert_ne by lia. eauto.
    + intros q [mq Hq]. destruct (decide (q = sm_next s)) as [->|]; [lia|].
      rewrite lookup_insert_ne in Hq by done. assert (q < sm_next s) by eauto. lia.
    + done.
    + rewrite lookup_insert_ne by lia. rewrite lookup_omap, E. simpl. by rewrite Hm.
    + intros h Hne. rewrite !lookup_omap. destruct (sm_hashes s !! h) as [q|] eqn:Eq; simpl; [|done].
      assert (q < sm_next s) by eauto. by rewrite lookup_insert_ne by lia.
  - split_and!; [split; simpl| by rewrite lookup_insert_eq|done| |].
    + intros h q. rewrite lookup_insert. case_decide; intros Hq; simplify_eq.
      * rewrite lookup_insert_eq; eauto.
      * assert (q < sm_next s) by eauto. rewrite lookup_insert_ne by lia. eauto.
    + intros q [mq Hq]. destruct (decide (q = sm_next s)) as [->|]; [lia|].
      rewrite lookup_insert_ne in Hq by done. assert (q < sm_next s) by eauto. lia.
    + intros h h' q. rewrite !lookup_insert. repeat case_decide; intros; simplify_eq; try done.
      * assert (sm_next s < sm_next s) by eauto. lia.
      * assert (sm_next s < sm_next s) by eauto. lia.
      * eauto.
    + rewrite lookup_insert_eq, lookup_omap, E. done.
    + intros h Hne. rewrite !lookup_omap, lookup_insert_ne by done.
      destruct (sm_hashes s !! h) as [q|] eqn:Eq; simpl; [|done].
      assert (q < sm_next s) by eauto. by rewrite lookup_insert_ne by lia.
Qed.

Lemma inner_Store_spec hash p m key value s :
  SyncMapStore_inv s → sm_hashes s !! hash = Some p → sm_heap s !! p = Some m →
  ∃ s', inner_Store p key value s = Ret s' ∧ SyncMapStore_inv s' ∧ sm_strings s' = sm_strings s ∧
    kv_hashes (SyncMapStore_abs s') = <[hash := <[key := value]> m]> (kv_hashes (SyncMapStore_abs s)).
Proof.
  intros [Hv Hf Hj] Hp Hm. unfold inner_Store. rewrite Hm.
  eexists; split_and!; [done|split; simpl|done|].
  - intros h q Hq. rewrite lookup_insert. case_decide; eauto.
  - intros q. rewrite lookup_insert. case_decide; subst; eauto.
  - done.
  - simpl. apply map_eq; intros h. rewrite lookup_omap, lookup_insert.
    case_decide as Hd; [subst; rewrite Hp; simpl; by rewrite lookup_insert_eq|].
    rewrite lookup_omap. destruct (sm_hashes s !! h) as [q|] eqn:Eq; simpl; [|done].
    rewrite lookup_insert_ne; [done|]. intros ->. eauto.
Qed.

#[global] Program Instance SyncMapStore_laws : StoreLaws SyncMapStore := {
  st_inv := SyncMapStore_inv;
  st_abs := SyncMapStore_abs
}.
Next Obligation. intros k v s [??]. eexists; split_and!; [done|by split|done]. Qed.
Next Obligation.
  intros k s [Hv Hf Hj]. eexists; split_and!; [done|split; simpl|].
  - intros h p [_ ?]%lookup_delete_Some. eauto.
  - done.
  - intros h h' p [_ ?]%lookup_delete_Some [_ ?]%lookup_delete_Some. eauto.
  - unfold SyncMapStore_abs, kv_del; simpl. f_equal. by rewrite omap_delete.
Qed.
Next Obligation.
  intros h k v s Hi. simpl. unfold SyncMapStore_HSet.
  pose proof (LoadOrStore_spec h s Hi) as Hl. destruct (LoadOrStore h s) as [p s1].
  destruct Hl as (Hi1 & Hp & Hstr & Hm & Hoth).
  destruct (inner_Store_spec h p _ k v s1 Hi1 Hp Hm) as (s' & -> & Hi' & Hstr' & Hh).
  eexists; split_and!; [done|done|].
  destruct (SyncMapStore_abs s') as [ss hs] eqn:E. unfold kv_hset.
  assert (ss = sm_strings s') as -> by (unfold SyncMapStore_abs in E; congruence).
  simpl in Hh. subst hs. f_equal; [simpl; congruence|].
  apply map_eq; intros j. rewrite !lookup_insert. case_decide; [done|]. by apply Hoth.
Qed.
Next Obligation. reflexivity. Qed.
Next Obligation.
  intros h k s Hi. simpl. unfold SyncMapStore_HGet, kv_hget; simpl. rewrite lookup_omap.
  destruct (sm_hashes s !! h) as [p|] eqn:E; simpl; [|done].
  destruct (syncmap_valid s Hi h p E) as [m ->]. done.
Qed.
Next Obligation.
  intros h s Hi. simpl. unfold SyncMapStore_HGetAll, kv_hgetall; simpl. rewrite lookup_omap.
  destruct (sm_hashes s !! h) as [p|] eqn:E; simpl; [|done].
  destruct (syncmap_valid s Hi h p E) as [m ->]. by rewrite map_fold_insert_copy.
Qed.

(** ** Theorems *)

(** Every sequence of calls on a new SyncMapStore returns and answers
    what one pair of maps would answer, although its hashes are reached
    through pointers: no pointer dangles and no two hashes share an inner
    map, also after a hash is deleted and created again. *)
Theorem syncmap_refines (os : list store_op) :
  ∃ s', store_run os NewSyncMapStore = Ret (s', (kv_run os kv_empty).2) ∧
        SyncMapStore_inv s' ∧ SyncMapStore_abs s' = (kv_run os kv_empty).1.
Proof.
  destruct (store_refines os NewSyncMapStore) as (s' & Hr & Hi & Ha);
    [exact NewSyncMapStore_inv|].
  simpl in Hr, Ha. by exists s'.
Qed.
