(* ===== verification/LockFreeStore.v ===== *)
(** * LockFreeStore: src/store/lockfree.go

    A slice of atomic pointers to bucket data.  A writer loads the pointer,
    clones the bucket, changes the clone and publishes it with
    [CompareAndSwap], retrying when it lost a race.  The heap of bucket data
    and the pointers are explicit, so that the same definitions give the
    sequential methods and the interleaved steps of several goroutines. *)

From stdpp Require Import base list gmap strings relations.
From Stdlib Require Import ZArith Lia.
From S2P Require Import Prelude GoLib StoreSpec Partition ShardedStore.

Record bucketData := mkBucket {
  bd_strings : gmap gostring gostring;
  bd_hashes : gmap gostring (gmap gostring gostring)
}.

Record LockFreeStore := mkLockFreeStore {
  lf_buckets : list nat;            (* atomic.Pointer[bucketData] *)
  lf_mask : Z;
  lf_heap : gmap nat bucketData;
  lf_next : nat
}.

Definition NewLockFreeStore (shardCount : Z) : LockFreeStore :=
  let n := Z.to_nat (if (shardCount <=? 0)%Z then 256%Z else shardCount) in
  mkLockFreeStore (seq 0 n) (wrap 64 (Z.of_nat n - 1))
    (list_to_map ((λ p, (p, mkBucket ∅ ∅)) <$> seq 0 n)) n.

(** [&s.buckets[h.Sum64() & s.mask]] *)
Definition bucket (key : gostring) (s : LockFreeStore) : go nat :=
  let i := Z.to_nat (Z.land (fnv64a key) (lf_mask s)) in
  if decide (i < length (lf_buckets s)) then Ret i else Panic.

(** [b.Load()] followed by the dereference of the pointer. *)
Definition Load (i : nat) (s : LockFreeStore) : go (nat * bucketData) :=
  match lf_buckets s !! i with
  | Some p => match lf_heap s !! p with Some d => Ret (p, d) | None => Panic end
  | None => Panic
  end.

Definition clone {V} (m : gmap gostring V) : gmap gostring V :=
  map_fold (λ k v out, <[k := v]> out) ∅ m.

Definition cloneBucket (d : bucketData) : bucketData :=
  mkBucket (clone (bd_strings d)) (map_fold (λ h inner out, <[h := clone inner]> out) ∅ (bd_hashes d)).

(** The change each writer makes to its private clone. *)
Definition bucket_set (key value : gostring) (d : bucketData) : bucketData :=
  mkBucket (<[key := value]> (bd_strings d)) (bd_hashes d).
Definition bucket_del (key : gostring) (d : bucketData) : bucketData :=
  mkBucket (delete key (bd_strings d)) (delete key (bd_hashes d)).
Definition bucket_hset (hash key value : gostring) (d : bucketData) : bucketData :=
  mkBucket (bd_strings d) (hash_put hash key value (bd_hashes d)).

(** Load, clone and change: the new bucket data is allocated, not published. *)
Definition prepare (i : nat) (f : bucketData → bucketData) (s : LockFreeStore) :
    go (nat * nat * LockFreeStore) :=
  '(old, d) ← Load i s;
  let data := lf_next s in
  Ret (old, data, mkLockFreeStore (lf_buckets s) (lf_mask s)
    (<[data := f (cloneBucket d)]> (lf_heap s)) (S data)).

(** [b.CompareAndSwap(old, data)] *)
Definition CompareAndSwap (i old data : nat) (s : LockFreeStore) : bool * LockFreeStore :=
  if decide (lf_buckets s !! i = Some old)
  then (true, mkLockFreeStore (<[i := data]> (lf_buckets s)) (lf_mask s) (lf_heap s) (lf_next s))
  else (false, s).

(** [for { old := b.Load(); ...; if b.CompareAndSwap(old, data) { return } }] *)
Fixpoint cas_loop (fuel : nat) (i : nat) (f : bucketData → bucketData) (s : LockFreeStore) :
    go LockFreeStore :=
  match fuel with
  | O => NoFuel
  | S fuel' =>
      '(old, data, s1) ← prepare i f s;
      let '(ok, s2) := CompareAndSwap i old data s1 in
      if ok then Ret s2 else cas_loop fuel' i f s2
  end.

(** Without another goroutine one iteration is enough
    ([LockFreeStore_laws] proves that these return). *)
Definition LockFreeStore_Set (key value : gostring) (s : LockFreeStore) : go LockFreeStore :=
  b ← bucket key s; cas_loop 1 b (bucket_set key value) s.
Definition LockFreeStore_Del (key : gostring) (s : LockFreeStore) : go LockFreeStore :=
  b ← bucket key s; cas_loop 1 b (bucket_del key) s.
Definition LockFreeStore_HSet (hash key value : gostring) (s : LockFreeStore) : go LockFreeStore :=
  b ← bucket hash s; cas_loop 1 b (bucket_hset hash key value) s.
Definition LockFreeStore_Get (key : gostring) (s : LockFreeStore) : go (option gostring) :=
  b ← bucket key s; '(_, d) ← Load b s; Ret (bd_strings d !! key).
Definition LockFreeStore_HGet (hash key : gostring) (s : LockFreeStore) : go (option gostring) :=
  b ← bucket hash s; '(_, d) ← Load b s; Ret (hash_get hash key (bd_hashes d)).
Definition LockFreeStore_HGetAll (hash : gostring) (s : LockFreeStore) :
    go (option (gmap gostring gostring)) :=
  b ← bucket hash s; '(_, d) ← Load b s; Ret (clone <$> (bd_hashes d !! hash)).
Definition LockFreeStore_Close (s : LockFreeStore) : go LockFreeStore := Ret s.

#[global] Instance LockFreeStore_ops : StoreOps LockFreeStore := {
  st_Set := LockFreeStore_Set;
  st_Get := LockFreeStore_Get;
  st_Del := LockFreeStore_Del;
  st_HSet := LockFreeStore_HSet;
  st_HGet := LockFreeStore_HGet;
  st_HGetAll := LockFreeStore_HGetAll;
  st_Close := LockFreeStore_Close
}.

(** ** The published buckets, read as a [ShardedStore] *)
Definition bucket_shard (d : bucketData) : shard := mkShard (bd_strings d) (bd_hashes d).
Definition lf_view (s : LockFreeStore) : ShardedStore :=
  mkShardedStore
    ((λ p, bucket_shard (default (mkBucket ∅ ∅) (lf_heap s !! p))) <$> lf_buckets s) (lf_mask s).

Record LockFreeStore_inv (s : LockFreeStore) : Prop := {
  lockfree_sharded : ShardedStore_inv (lf_view s);
  lockfree_valid i p : lf_buckets s !! i = Some p → is_Some (lf_heap s !! p);
  lockfree_fresh p : is_Some (lf_heap s !! p) → p < lf_next s
}.

Definition LockFreeStore_abs (s : LockFreeStore) : kv := ShardedStore_abs (lf_view s).

Lemma clone_id {V} (m : gmap gostring V) : clone m = m.
Proof.
  apply (map_fold_weak_ind (λ (r m' : gmap gostring V), r = m')); [done|].
  by intros k v m' r _ ->.
Qed.

Lemma cloneBucket_id d : cloneBucket d = d.
Proof.
  destruct d as [ss hs]. unfold cloneBucket; simpl. rewrite clone_id. f_equal.
  apply (map_fold_weak_ind (λ (r m' : gmap gostring (gmap gostring gostring)), r = m')); [done|].
  intros k v m' r _ ->. by rewrite clone_id.
Qed.

Lemma lf_bucket key s :
  LockFreeStore_inv s → bucket key s = Ret (shard_idx (lf_mask s) key).
Proof.
  intros [Hi _ _]. unfold bucket. destruct (getShard_inv key (lf_view s) Hi) as (sh & _ & Hl).
  apply lookup_lt_Some in Hl. simpl in Hl. rewrite length_fmap in Hl.
  unfold shard_idx in *. by rewrite decide_True by done.
Qed.

Lemma lf_Load key s :
  LockFreeStore_inv s →
  ∃ p d, Load (shard_idx (lf_mask s) key) s = Ret (p, d) ∧
    lf_buckets s !! shard_idx (lf_mask s) key = Some p ∧ lf_heap s !! p = Some d ∧
    getShard key (lf_view s) = Ret (shard_idx (lf_mask s) key, bucket_shard d).
Proof.
  intros Hi. destruct (getShard_inv key (lf_view s)) as (sh & Hg & Hl); [apply Hi|].
  simpl in Hl. rewrite list_lookup_fmap in Hl.
  destruct (lf_buckets s !! _) as [p|] eqn:E; simplify_eq/=.
  destruct (lockfree_valid s Hi _ p E) as [d Hd]. exists p, d.
  unfold Load. rewrite E, Hd. rewrite Hd in Hg. split_and!; done.
Qed.

(** Allocating unpublished bucket data changes no published bucket. *)
Lemma lf_view_alloc s d :
  LockFreeStore_inv s →
  let s1 := mkLockFreeStore (lf_buckets s) (lf_mask s) (<[lf_next s := d]> (lf_heap s)) (S (lf_next s)) in
  lf_view s1 = lf_view s ∧ LockFreeStore_inv s1.
Proof.
  intros [Hs Hv Hf]. simpl. assert (lf_view (mkLockFreeStore (lf_buckets s) (lf_mask s)
    (<[lf_next s := d]> (lf_heap s)) (S (lf_next s))) = lf_view s) as E.
  { unfold lf_view; simpl. f_equal. apply list_fmap_ext. intros i p Hp. do 2 f_equal.
    destruct (Hv i p Hp) as [d' Hd]. assert (p < lf_next s) by eauto.
    by rewrite lookup_insert_ne by lia. }
  split; [done|]. split; simpl.
  - by rewrite E.
  - intros i p Hp. rewrite lookup_insert. case_decide; eauto.
  - intros p. rewrite lookup_insert. case_decide; subst; [lia|]. intros ?%Hf. lia.
Qed.

(** Publishing [data] at index [i] is an update of shard [i]. *)
Lemma lf_view_publish s i data d :
  lf_heap s !! data = Some d →
  lf_view (mkLockFreeStore (<[i := data]> (lf_buckets s)) (lf_mask s) (lf_heap s) (lf_next s))
  = put_shard i (bucket_shard d) (lf_view s).
Proof.
  intros Hd. unfold lf_view, put_shard; simpl. f_equal. by rewrite list_fmap_insert, Hd.
Qed.

Lemma lf_inv_publish s i data d :
  LockFreeStore_inv s → lf_heap s !! data = Some d →
  ShardedStore_inv (put_shard i (bucket_shard d) (lf_view s)) →
  LockFreeStore_inv (mkLockFreeStore (<[i := data]> (lf_buckets s)) (lf_mask s) (lf_heap s) (lf_next s)).
Proof.
  intros [Hs Hv Hf] Hd Hp. split; simpl.
  - by rewrite (lf_view_publish s i data d).
  - intros j p Hj. destruct (decide (j = i)) as [->|].
    + apply list_lookup_insert_Some in Hj. naive_solver.
    + rewrite list_lookup_insert_ne in Hj by done. eauto.
  - done.
Qed.

(** The abstract operation a writer performs on the shard of its key. *)
Inductive write_op :=
| WSet (k v : gostring)
| WDel (k : gostring)
| WHSet (h k v : gostring).

Definition write_key (o : write_op) : gostring :=
  match o with WSet k _ => k | WDel k => k | WHSet h _ _ => h end.
Definition write_bucket (o : write_op) : bucketData → bucketData :=
  match o with
  | WSet k v => bucket_set k v
  | WDel k => bucket_del k
  | WHSet h k v => bucket_hset h k v
  end.
Definition write_kv (o : write_op) : kv → kv :=
  match o with
  | WSet k v => kv_set k v
  | WDel k => kv_del k
  | WHSet h k v => kv_hset h k v
  end.
Definition write_lf (o : write_op) : LockFreeStore → go LockFreeStore :=
  match o with
  | WSet k v => LockFreeStore_Set k v
  | WDel k => LockFreeStore_Del k
  | WHSet h k v => LockFreeStore_HSet h k v
  end.

Lemma write_bucket_sharded o s d :
  ShardedStore_inv s →
  getShard (write_key o) s = Ret (shard_idx (mask s) (write_key o), bucket_shard d) →
  let s' := put_shard (shard_idx (mask s) (write_key o)) (bucket_shard (write_bucket o d)) s in
  ShardedStore_inv s' ∧ ShardedStore_abs s' = write_kv o (ShardedStore_abs s).
Proof.
  intros Hi Hg. destruct o as [k v|k|h k v]; simpl in *.
  - destruct (law_Set k v s) as (s' & E & ? & ?); [exact Hi|]; simpl in E.
    unfold ShardedStore_Set in E. rewrite Hg in E. simpl in E. by simplify_eq.
  - destruct (law_Del k s) as (s' & E & ? & ?); [exact Hi|]; simpl in E.
    unfold ShardedStore_Del in E. rewrite Hg in E. simpl in E. by simplify_eq.
  - destruct (law_HSet h k v s) as (s' & E & ? & ?); [exact Hi|]; simpl in E.
    unfold ShardedStore_HSet in E. rewrite Hg in E. simpl in E. by simplify_eq.
Qed.

Lemma lf_view_New n : lf_view (NewLockFreeStore n) = NewShardedStore n.
Proof.
  unfold lf_view, NewLockFreeStore, NewShardedStore; simpl.
  set (c := if (n <=? 0)%Z then 256%Z else n).
  assert (0 < c)%Z as Hc by (unfold c; destruct (Z.leb_spec n 0); lia).
  f_equal; [|f_equal; lia].
  apply list_eq; intros i. rewrite list_lookup_fmap.
  destruct (decide (i < Z.to_nat c)).
  - rewrite lookup_seq_lt, lookup_replicate_2 by lia. simpl. do 2 f_equal.
    destruct (list_to_map ((λ p, (p, mkBucket ∅ ∅)) <$> seq 0 (Z.to_nat c)) !! i)
      as [d|] eqn:El; simpl; [|done].
    apply elem_of_list_to_map_2, list_elem_of_fmap in El as (q & Hq & _). by simplify_eq.
  - rewrite lookup_seq_ge by lia. simpl. symmetry. apply lookup_replicate_None. lia.
Qed.

Lemma NewLockFreeStore_inv n : (n ≤ 2 ^ 63)%Z → LockFreeStore_inv (NewLockFreeStore n).
Proof.
  intros Hn. split.
  - rewrite lf_view_New. by apply NewShardedStore_inv.
  - intros i p Hp. apply lookup_seq in Hp as [-> Hlt]. simpl in *.
    destruct (list_to_map _ !! _) eqn:El; [eauto|].
    apply not_elem_of_list_to_map_2 in El. destruct El.
    rewrite <-list_fmap_compose. apply list_elem_of_fmap. exists i. split; [done|]. apply elem_of_seq. lia.
  - simpl. intros p [d Hd]. apply elem_of_list_to_map_2, list_elem_of_fmap in Hd as (q & Hq & Hin).
    simplify_eq. apply elem_of_seq in Hin. lia.
Qed.

Lemma NewLockFreeStore_abs n : LockFreeStore_abs (NewLockFreeStore n) = kv_empty.
Proof. unfold LockFreeStore_abs. rewrite lf_view_New. apply NewShardedStore_abs. Qed.

(** ** Goroutines

    Each goroutine runs one writer.  Its shared accesses are the load of the
    bucket pointer and the compare-and-swap; between them it works on data no
    other goroutine can reach. *)
Inductive gostate :=
| GStart (o : write_op)
| GTry (o : write_op) (i old data : nat)
| GDone.

Record conf := mkConf { c_store : LockFreeStore; c_threads : gmap nat gostate }.

Inductive cstep : conf → option (nat * write_op) → conf → Prop :=
| step_prepare t o i old data s s' ths :
    ths !! t = Some (GStart o) →
    bucket (write_key o) s = Ret i →
    prepare i (write_bucket o) s = Ret (old, data, s') →
    cstep (mkConf s ths) None (mkConf s' (<[t := GTry o i old data]> ths))
| step_cas_ok t o i old data s s' ths :
    ths !! t = Some (GTry o i old data) →
    CompareAndSwap i old data s = (true, s') →
    cstep (mkConf s ths) (Some (t, o)) (mkConf s' (<[t := GDone]> ths))
| step_cas_fail t o i old data s s' ths :
    ths !! t = Some (GTry o i old data) →
    CompareAndSwap i old data s = (false, s') →
    cstep (mkConf s ths) None (mkConf s' (<[t := GStart o]> ths)).

(** Runs, with the successful writes in the order of their swaps. *)
Inductive csteps : conf → list (nat * write_op) → conf → Prop :=
| csteps_refl c : csteps c [] c
| csteps_silent c ls c1 c2 : csteps c ls c1 → cstep c1 None c2 → csteps c ls c2
| csteps_write c ls c1 c2 w : csteps c ls c1 → cstep c1 (Some w) c2 → csteps c (ls ++ [w]) c2.

(** A goroutine between its load and its swap holds the changed clone of the
    bucket data it loaded. *)
Definition gostate_ok (s : LockFreeStore) (g : gostate) : Prop :=
  match g with
  | GTry o i old data =>
      i = shard_idx (lf_mask s) (write_key o) ∧
      ∃ d, lf_heap s !! old = Some d ∧ lf_heap s !! data = Some (write_bucket o d)
  | _ => True
  end.

Record conf_ok (c : conf) : Prop := {
  conf_store : LockFreeStore_inv (c_store c);
  conf_threads t g : c_threads c !! t = Some g → gostate_ok (c_store c) g
}.

Lemma prepare_ok o s i old data s' :
  LockFreeStore_inv s → bucket (write_key o) s = Ret i →
  prepare i (write_bucket o) s = Ret (old, data, s') →
  LockFreeStore_inv s' ∧ lf_view s' = lf_view s ∧ lf_buckets s' = lf_buckets s ∧
  lf_buckets s !! i = Some old ∧ data = lf_next s ∧
  gostate_ok s' (GTry o i old data) ∧ (∀ g, gostate_ok s g → gostate_ok s' g).
Proof.
  intros Hi Hb Hp. rewrite lf_bucket in Hb by done. simplify_eq.
  destruct (lf_Load (write_key o) s Hi) as (p & d & Hl & Hpb & Hd & _).
  unfold prepare in Hp. rewrite Hl in Hp. simpl in Hp. simplify_eq.
  rewrite cloneBucket_id in *.
  destruct (lf_view_alloc s (write_bucket o d) Hi) as [Hv Hi'].
  assert (∀ q dq, lf_heap s !! q = Some dq →
    <[lf_next s := write_bucket o d]> (lf_heap s) !! q = Some dq) as Hold.
  { intros q dq Hq. assert (q < lf_next s) by (eapply lockfree_fresh; eauto).
    by rewrite lookup_insert_ne by lia. }
  split_and!; try done; simpl.
  - split; [done|]. exists d. split; [by apply Hold|]. by rewrite lookup_insert_eq.
  - intros [| |]; try done. simpl. naive_solver.
Qed.

Lemma cas_ok o i old data s s' :
  LockFreeStore_inv s → gostate_ok s (GTry o i old data) →
  CompareAndSwap i old data s = (true, s') →
  LockFreeStore_inv s' ∧ LockFreeStore_abs s' = write_kv o (LockFreeStore_abs s) ∧
  lf_heap s' = lf_heap s ∧ lf_mask s' = lf_mask s.
Proof.
  intros Hi (-> & d & Ho & Hdata) Hc. unfold CompareAndSwap in Hc. case_decide as Hold; simplify_eq.
  destruct (lf_Load (write_key o) s Hi) as (p & d' & _ & Hp & Hd' & Hg). simplify_eq.
  destruct (write_bucket_sharded o (lf_view s) d) as [Hs Ha]; [apply Hi|done|].
  split_and!; try done.
  - by eapply lf_inv_publish.
  - unfold LockFreeStore_abs. by erewrite lf_view_publish by done.
Qed.

Lemma cstep_ok c l c' :
  conf_ok c → cstep c l c' →
  conf_ok c' ∧
  LockFreeStore_abs (c_store c') =
    match l with Some w => write_kv w.2 (LockFreeStore_abs (c_store c)) | None => LockFreeStore_abs (c_store c) end.
Proof.
  intros [Hi Ht] Hs. destruct Hs as [t o i old data s s' ths Hg Hb Hp
    |t o i old data s s' ths Hg Hc|t o i old data s s' ths Hg Hc]; simpl in *.
  - destruct (prepare_ok _ _ _ _ _ _ Hi Hb Hp) as (Hi' & Hv & _ & _ & _ & Hok & Hmono).
    split; [split; simpl; [done|]|by unfold LockFreeStore_abs; rewrite Hv].
    intros t' g. rewrite lookup_insert. case_decide; naive_solver.
  - destruct (cas_ok _ _ _ _ _ _ Hi (Ht _ _ Hg) Hc) as (Hi' & Ha & Hh & Hm).
    split; [split; simpl; [done|]|done]. intros t' g. rewrite lookup_insert.
    case_decide; [naive_solver|]. intros Hg'. specialize (Ht _ _ Hg').
    destruct g; simpl in *; [done| |done]. by rewrite Hh, Hm.
  - unfold CompareAndSwap in Hc. case_decide; simplify_eq.
    split; [split; simpl; [done|]|done]. intros t' g. rewrite lookup_insert. case_decide; naive_solver.
Qed.

Lemma csteps_ok c ls c' :
  conf_ok c → csteps c ls c' →
  conf_ok c' ∧ LockFreeStore_abs (c_store c') = foldl (λ a w, write_kv w.2 a) (LockFreeStore_abs (c_store c)) ls.
Proof.
  intros Hc Hs. induction Hs as [c|c ls c1 c2 _ IH Hs|c ls c1 c2 w _ IH Hs]; [done|..];
    destruct (IH Hc) as [Hc1 Ha1]; destruct (cstep_ok _ _ _ Hc1 Hs) as [Hc2 Ha2].
  - split; [done|]. congruence.
  - split; [done|]. rewrite foldl_app. simpl. congruence.
Qed.

Lemma LockFreeStore_write_law o s :
  LockFreeStore_inv s →
  ∃ s', write_lf o s = Ret s' ∧ LockFreeStore_inv s' ∧
        LockFreeStore_abs s' = write_kv o (LockFreeStore_abs s).
Proof.
  intros Hi. set (i := shard_idx (lf_mask s) (write_key o)).
  assert (∃ old data s1, prepare i (write_bucket o) s = Ret (old, data, s1)) as (old & data & s1 & Hp).
  { destruct (lf_Load (write_key o) s Hi) as (p & d & Hl & _). unfold prepare, i. rewrite Hl. simpl. eauto. }
  destruct (prepare_ok o s i old data s1 Hi (lf_bucket _ _ Hi) Hp) as (Hi1 & Hv & Hb & Hold & _ & Hok & _).
  destruct (CompareAndSwap i old data s1) as [ok s2] eqn:Ec.
  assert (ok = true) as ->.
  { unfold CompareAndSwap in Ec. rewrite Hb, decide_True in Ec by done. by simplify_eq. }
  destruct (cas_ok _ _ _ _ _ _ Hi1 Hok Ec) as (Hi2 & Ha & _).
  exists s2. split_and!; [|done|by unfold LockFreeStore_abs in *; rewrite Ha, Hv].
  assert (write_lf o s = cas_loop 1 i (write_bucket o) s) as ->.
  { pose proof (lf_bucket (write_key o) s Hi) as Hb'.
    destruct o; simpl in *; unfold LockFreeStore_Set, LockFreeStore_Del, LockFreeStore_HSet;
      by go_step Hb'. }
  simpl. go_step Hp. by rewrite Ec.
Qed.

#[global] Program Instance LockFreeStore_laws : StoreLaws LockFreeStore := {
  st_inv := LockFreeStore_inv;
  st_abs := LockFreeStore_abs
}.
Next Obligation. intros k v. apply (LockFreeStore_write_law (WSet k v)). Qed.
Next Obligation. intros k. apply (LockFreeStore_write_law (WDel k)). Qed.
Next Obligation. intros h k v. apply (LockFreeStore_write_law (WHSet h k v)). Qed.
Next Obligation.
  intros k s Hi. simpl. unfold LockFreeStore_Get. rewrite lf_bucket by done. simpl.
  destruct (lf_Load k s Hi) as (p & d & -> & _ & _ & Hg). simpl.
  pose proof (law_Get k (lf_view s) (lockfree_sharded s Hi)) as E. simpl in E.
  unfold ShardedStore_Get in E. by rewrite Hg in E.
Qed.
Next Obligation.
  intros h k s Hi. simpl. unfold LockFreeStore_HGet. rewrite lf_bucket by done. simpl.
  destruct (lf_Load h s Hi) as (p & d & -> & _ & _ & Hg). simpl.
  pose proof (law_HGet h k (lf_view s) (lockfree_sharded s Hi)) as E. simpl in E.
  unfold ShardedStore_HGet in E. by rewrite Hg in E.
Qed.
Next Obligation.
  intros h s Hi. simpl. unfold LockFreeStore_HGetAll. rewrite lf_bucket by done. simpl.
  destruct (lf_Load h s Hi) as (p & d & -> & _ & _ & Hg). simpl.
  pose proof (law_HGetAll h (lf_view s) (lockfree_sharded s Hi)) as E. simpl in E.
  unfold ShardedStore_HGetAll in E. rewrite Hg in E. simpl in E.
  unfold LockFreeStore_abs. rewrite <-E.
  destruct (bd_hashes d !! h); simpl; [by rewrite clone_id|done].
Qed.

(** Who has written so far: a goroutine is done exactly when its write is in
    the history, and it is there once. *)
Definition thread_rel (ths : gmap nat gostate) (ls : list (nat * write_op)) (c : conf) : Prop :=
  NoDup ls.*1 ∧
  ∀ t, match c_threads c !! t with
       | None => t ∉ ls.*1
       | Some (GStart o) | Some (GTry o _ _ _) => ths !! t = Some (GStart o) ∧ t ∉ ls.*1
       | Some GDone => ∃ o, ths !! t = Some (GStart o) ∧ (t, o) ∈ ls
       end.

Lemma cstep_silent_threads ths ls c c' :
  thread_rel ths ls c → cstep c None c' → thread_rel ths ls c'.
Proof.
  intros [Hnd Ht] Hs. split; [done|]. intros t'. inversion Hs; subst; simpl in *;
    rewrite lookup_insert; (case_decide as Hd; [subst t'; specialize (Ht t)|by apply Ht]);
    destruct (ths0 !! t); by simplify_eq.
Qed.

Lemma cstep_write_threads ths ls c w c' :
  thread_rel ths ls c → cstep c (Some w) c' → thread_rel ths (ls ++ [w]) c'.
Proof.
  intros [Hnd Ht] Hs. inversion Hs as [|t o i old data s s' ths0 Hg Hc|]; subst; simpl in *.
  pose proof (Ht t) as Ho. rewrite Hg in Ho. destruct Ho as [Ho Hnin]. split.
  - rewrite fmap_app. simpl. apply NoDup_app. split_and!; [done| |apply NoDup_singleton].
    intros x Hx ->%list_elem_of_singleton. done.
  - intros t'. simpl. rewrite lookup_insert. case_decide; subst.
    { exists o. split; [done|]. apply elem_of_app. right. by apply list_elem_of_singleton. }
    specialize (Ht t'). rewrite fmap_app. simpl.
    destruct (ths0 !! t') as [[o'|o' ???|]|]; rewrite ?elem_of_app, ?list_elem_of_singleton; [naive_solver..| |].
    + destruct Ht as (o' & ? & ?). exists o'. rewrite elem_of_app. by auto.
    + naive_solver.
Qed.

Lemma csteps_threads ths s ls c' :
  (∀ t g, ths !! t = Some g → ∃ o, g = GStart o) →
  csteps (mkConf s ths) ls c' → thread_rel ths ls c'.
Proof.
  intros Hst Hs. remember (mkConf s ths) as c eqn:E.
  induction Hs as [c|c ls c1 c2 _ IH Hs|c ls c1 c2 w _ IH Hs]; subst.
  - split; [apply NoDup_nil_2|]. intros t. simpl. destruct (ths !! t) as [g|] eqn:Eg; [|set_solver].
    destruct (Hst t g Eg) as [o ->]. split; [done|set_solver].
  - eapply cstep_silent_threads; eauto.
  - eapply cstep_write_threads; eauto.
Qed.

Lemma cstep_buckets c l c' j :
  conf_ok c → cstep c l c' →
  (∀ w, l = Some w → shard_idx (lf_mask (c_store c)) (write_key w.2) ≠ j) →
  lf_buckets (c_store c') !! j = lf_buckets (c_store c) !! j ∧
  lf_mask (c_store c') = lf_mask (c_store c).
Proof.
  intros [_ Ht] Hs Hw. inversion Hs as [t o i old data s s' ths Hg Hb Hp
    |t o i old data s s' ths Hg Hc|t o i old data s s' ths Hg Hc]; subst; simpl in *.
  - unfold prepare in Hp. by go_inv.
  - destruct (Ht _ _ Hg) as [-> _]. specialize (Hw _ eq_refl). simpl in Hw.
    unfold CompareAndSwap in Hc. case_decide; simplify_eq. simpl.
    by rewrite list_lookup_insert_ne.
  - unfold CompareAndSwap in Hc. case_decide; by simplify_eq.
Qed.

Lemma csteps_buckets c ls c' j :
  conf_ok c → csteps c ls c' →
  Forall (λ w, shard_idx (lf_mask (c_store c)) (write_key w.2) ≠ j) ls →
  lf_buckets (c_store c') !! j = lf_buckets (c_store c) !! j ∧
  lf_mask (c_store c') = lf_mask (c_store c).
Proof.
  intros Hc Hs. induction Hs as [c|c ls c1 c2 Hs1 IH Hs|c ls c1 c2 w Hs1 IH Hs]; intros Hw; [done| |].
  - destruct (IH Hc Hw) as [E1 E2]. destruct (csteps_ok _ _ _ Hc Hs1) as [Hc1 _].
    destruct (cstep_buckets c1 None c2 j Hc1 Hs) as [E3 E4]; [done|]. split; congruence.
  - apply Forall_app in Hw as [Hw [Hw1 _]%Forall_cons_1].
    destruct (IH Hc Hw) as [E1 E2]. destruct (csteps_ok _ _ _ Hc Hs1) as [Hc1 _].
    destruct (cstep_buckets c1 (Some w) c2 j Hc1 Hs) as [E3 E4]; [|split; congruence].
    intros w' [= <-]. by rewrite E2.
Qed.

(** ** Theorems *)

(** C11: Goroutines that write concurrently through load, clone and
    compare-and-swap lose no update: in every interleaving, the content of the
    store is that of the completed writes applied one after the other in the
    order of their swaps, each exactly once, and a goroutine is done exactly
    when its write is among them. *)
Theorem lockfree_linearizable (n : Z) (ths : gmap nat gostate) ls c' :
  in_int64 n = true →
  (∀ t g, ths !! t = Some g → ∃ o, g = GStart o) →
  csteps (mkConf (NewLockFreeStore n) ths) ls c' →
  LockFreeStore_abs (c_store c') = foldl (λ a w, write_kv w.2 a) kv_empty ls ∧
  NoDup ls.*1 ∧
  (∀ t o, ths !! t = Some (GStart o) → c_threads c' !! t = Some GDone ↔ (t, o) ∈ ls).
Proof.
  intros Hn Hst Hs. assert (conf_ok (mkConf (NewLockFreeStore n) ths)) as Hc.
  { split; simpl.
    - apply NewLockFreeStore_inv. unfold in_int64, max_int64 in Hn. lia.
    - intros t g Hg. by destruct (Hst t g Hg) as [o ->]. }
  destruct (csteps_ok _ _ _ Hc Hs) as [_ Ha]. simpl in Ha. rewrite NewLockFreeStore_abs in Ha.
  destruct (csteps_threads _ _ _ _ Hst Hs) as [Hnd Ht].
  split_and!; [done|done|]. intros t o Ho. specialize (Ht t). split.
  - intros Hd. rewrite Hd in Ht. destruct Ht as (o' & ? & ?). by simplify_eq.
  - intros Hin. assert (t ∈ ls.*1) by (apply list_elem_of_fmap; by exists (t, o)).
    destruct (c_threads c' !! t) as [[| |]|]; by destruct_and?.
Qed.

Definition lf_demo_threads : gmap nat gostate :=
  {[ 0 := GStart (WSet (str "k") (str "x")); 1 := GStart (WSet (str "k") (str "y")) ]}.

(** Both goroutines load the same bucket; the second swaps first, the first
    one fails, retries and wins. *)
Definition lf_demo_writes : list (nat * write_op) :=
  [(1, WSet (str "k") (str "y")); (0, WSet (str "k") (str "x"))].

Lemma lf_demo_run :
  ∃ c', csteps (mkConf (NewLockFreeStore 2) lf_demo_threads) lf_demo_writes c'.
Proof.
  eexists.
  change lf_demo_writes
    with ((([] ++ [(1, WSet (str "k") (str "y"))]) ++ [(0, WSet (str "k") (str "x"))])).
  eapply csteps_write; [eapply csteps_silent; [eapply csteps_silent; [eapply csteps_write;
    [eapply csteps_silent; [eapply csteps_silent; [apply csteps_refl|]|]|]|]|]|].
  - eapply (step_prepare 0); [reflexivity|vm_compute; reflexivity|vm_compute; reflexivity].
  - eapply (step_prepare 1); [reflexivity|vm_compute; reflexivity|vm_compute; reflexivity].
  - eapply (step_cas_ok 1); [reflexivity|vm_compute; reflexivity].
  - eapply (step_cas_fail 0); [reflexivity|vm_compute; reflexivity].
  - eapply (step_prepare 0); [reflexivity|vm_compute; reflexivity|vm_compute; reflexivity].
  - eapply (step_cas_ok 0); [reflexivity|vm_compute; reflexivity].
Qed.

Lemma lockfree_linearizable_witness :
  ∃ c', csteps (mkConf (NewLockFreeStore 2) lf_demo_threads) lf_demo_writes c' ∧
        LockFreeStore_abs (c_store c') = foldl (λ a w, write_kv w.2 a) kv_empty lf_demo_writes.
Proof.
  destruct lf_demo_run as [c' H]. exists c'. split; [exact H|].
  apply (lockfree_linearizable 2 lf_demo_threads lf_demo_writes c'); [reflexivity| |exact H].
  intros t g. unfold lf_demo_threads. rewrite lookup_insert, lookup_singleton.
  repeat case_decide; intros; simplify_eq; eauto.
Defined.

(** A compare-and-swap fails only when the write of another goroutine
    on the same bucket succeeded since the load, so some writer always makes
    progress (the retry loop is lock-free). *)
Theorem lockfree_failed_swap_progress s ths t o i old data c1 ls c' :
  conf_ok (mkConf s ths) →
  ths !! t = Some (GStart o) →
  bucket (write_key o) s = Ret i →
  prepare i (write_bucket o) s = Ret (old, data, c1) →
  csteps (mkConf c1 (<[t := GTry o i old data]> ths)) ls c' →
  (CompareAndSwap i old data (c_store c')).1 = false →
  ∃ w, w ∈ ls ∧ bucket (write_key w.2) s = Ret i.
Proof.
  intros Hc Ht Hb Hp Hs Hf. pose proof (conf_store _ Hc) as Hi. simpl in Hi.
  destruct (cstep_ok _ _ _ Hc (step_prepare t o i old data s c1 ths Ht Hb Hp)) as [Hc1 _].
  destruct (prepare_ok _ _ _ _ _ _ Hi Hb Hp) as (_ & Hv & Hbs & Hold & _).
  assert (lf_mask c1 = lf_mask s) as Hm by (apply (f_equal mask) in Hv; done).
  destruct (decide (Forall (λ w, shard_idx (lf_mask c1) (write_key w.2) ≠ i) ls)) as [Hall|Hex].
  - destruct (csteps_buckets _ _ _ i Hc1 Hs Hall) as [E _]. simpl in E.
    unfold CompareAndSwap in Hf. rewrite E, Hbs, decide_True in Hf by done. done.
  - apply not_Forall_Exists in Hex; [|apply _]. apply Exists_exists in Hex as (w & Hw & Hn).
    exists w. split; [done|]. rewrite lf_bucket by done. f_equal.
    apply dec_stable in Hn. by rewrite <-Hm.
Qed.

Lemma lf_demo_conf_ok : conf_ok (mkConf (NewLockFreeStore 2) lf_demo_threads).
Proof.
  split; simpl; [by apply NewLockFreeStore_inv|].
  intros t g. unfold lf_demo_threads. rewrite lookup_insert, lookup_singleton.
  repeat case_decide; intros; by simplify_eq.
Qed.

(** The three states of the demonstration: goroutine 0 has loaded, then
    goroutine 1 has loaded, then goroutine 1 has swapped. *)
Definition lf_demo_i : nat := shard_idx 1 (str "k").
Definition lf_demo_alloc (o : write_op) (s : LockFreeStore) : LockFreeStore :=
  match prepare lf_demo_i (write_bucket o) s with Ret (_, _, s1) => s1 | _ => s end.
Definition lf_demo_1 : LockFreeStore :=
  lf_demo_alloc (WSet (str "k") (str "x")) (NewLockFreeStore 2).
Definition lf_demo_2 : LockFreeStore := lf_demo_alloc (WSet (str "k") (str "y")) lf_demo_1.
Definition lf_demo_3 : LockFreeStore := (CompareAndSwap lf_demo_i lf_demo_i 3 lf_demo_2).2.

Lemma lockfree_failed_swap_progress_witness :
  (CompareAndSwap lf_demo_i lf_demo_i 2 lf_demo_3).1 = false ∧
  ∃ w, w ∈ [(1, WSet (str "k") (str "y"))] ∧
       bucket (write_key w.2) (NewLockFreeStore 2) = Ret lf_demo_i.
Proof.
  split; [vm_compute; reflexivity|].
  eapply (lockfree_failed_swap_progress (NewLockFreeStore 2) lf_demo_threads 0
    (WSet (str "k") (str "x")) lf_demo_i lf_demo_i 2 lf_demo_1 _
    (mkConf lf_demo_3 (<[1 := GDone]> (<[1 := GTry (WSet (str "k") (str "y")) lf_demo_i lf_demo_i 3]>
       (<[0 := GTry (WSet (str "k") (str "x")) lf_demo_i lf_demo_i 2]> lf_demo_threads)))));
    [apply lf_demo_conf_ok|reflexivity|vm_compute; reflexivity|vm_compute; reflexivity| |vm_compute; reflexivity].
  change [(1, WSet (str "k") (str "y"))] with ([] ++ [(1, WSet (str "k") (str "y"))]).
  eapply csteps_write; [eapply csteps_silent; [apply csteps_refl|]|].
  - eapply (step_prepare 1 _ lf_demo_i lf_demo_i 3 lf_demo_1 lf_demo_2);
      [reflexivity|vm_compute; reflexivity|vm_compute; reflexivity].
  - eapply (step_cas_ok 1 _ lf_demo_i lf_demo_i 3 lf_demo_2 lf_demo_3);
      [reflexivity|vm_compute; reflexivity].
Defined.
