(* ===== verification/SyncMapConc.v ===== *)
(** * SyncMapConc: goroutines on the sync.Map store, src/store/syncmap.go

    The methods of [SyncMapStore] take no lock: each call on a [sync.Map] is
    atomic, and between two of them other goroutines run.  [HSet] is a
    [LoadOrStore] of the inner map and a [Store] into it, [Del] two calls of
    [Delete].  A goroutine is the list of its atomic steps; a schedule names
    the goroutine that runs next.  A write is counted as done, in the list of
    commits, at the last of its steps. *)

From stdpp Require Import base list gmap strings.
From Stdlib Require Import Lia.
From S2P Require Import Prelude GoLib StoreSpec LockFreeStore SyncMapStore.

Inductive sinstr :=
| SSet (k v : gostring)                  (* s.strings.Store *)
| SDelStrings (k : gostring)             (* s.strings.Delete *)
| SDelHashes (k : gostring)              (* s.hashes.Delete *)
| SLoad (h k v : gostring)               (* s.hashes.LoadOrStore *)
| SStore (h : gostring) (p : nat) (k v : gostring).   (* h.Store, through the pointer loaded for [h] *)

(** ** The methods *)
Definition steps_of (o : write_op) : list sinstr :=
  match o with
  | WSet k v => [SSet k v]
  | WDel k => [SDelStrings k; SDelHashes k]
  | WHSet h k v => [SLoad h k v]
  end.

(** A step: the store after it, the steps it leads to, the write it ends. *)
Definition sstep (i : sinstr) (s : SyncMapStore) : go (SyncMapStore * list sinstr * option write_op) :=
  match i with
  | SSet k v => s' ← SyncMapStore_Set k v s; Ret (s', [], Some (WSet k v))
  | SDelStrings k => Ret (mkSyncMapStore (delete k (sm_strings s)) (sm_hashes s) (sm_heap s) (sm_next s), [], None)
  | SDelHashes k => Ret (mkSyncMapStore (sm_strings s) (delete k (sm_hashes s)) (sm_heap s) (sm_next s), [], Some (WDel k))
  | SLoad h k v => let '(p, s') := LoadOrStore h s in Ret (s', [SStore h p k v], None)
  | SStore h p k v => s' ← inner_Store p k v s; Ret (s', [], Some (WHSet h k v))
  end.

Record sconf := mkSconf { sc_threads : list (list sinstr); sc_store : SyncMapStore; sc_commits : list (nat * write_op) }.

Definition sc_step (i : nat) (x : sconf) : go sconf :=
  match sc_threads x !! i with
  | Some (c :: p) =>
      '(s, q, o) ← sstep c (sc_store x);
      Ret (mkSconf (<[i := q ++ p]> (sc_threads x)) s
             (sc_commits x ++ match o with Some o => [(i, o)] | None => [] end))
  | _ => Ret x
  end.

Definition sc_run : list nat → sconf → go sconf := go_foldl sc_step.

Definition sc_start (progs : list (list write_op)) (s : SyncMapStore) : sconf :=
  mkSconf ((λ os, concat (steps_of <$> os)) <$> progs) s [].

Definition all_done (x : sconf) : Prop := Forall (λ p, p = []) (sc_threads x).

(** ** Lemmas *)

(** The writes a list of steps still has to end. *)
Definition owed (c : sinstr) : list write_op :=
  match c with
  | SSet k v => [WSet k v]
  | SDelStrings _ => []
  | SDelHashes k => [WDel k]
  | SLoad h k v | SStore h _ k v => [WHSet h k v]
  end.

Definition owes (p : list sinstr) : list write_op := concat (owed <$> p).

Lemma owes_start os : owes (concat (steps_of <$> os)) = os.
Proof.
  unfold owes. induction os as [|o os IH]; [done|]. rewrite fmap_cons. cbn [concat]. rewrite fmap_app, concat_app, IH.
  by destruct o.
Qed.

Lemma sstep_owes c s s' q o :
  sstep c s = Ret (s', q, o) → owed c = match o with Some o => [o] | None => [] end ++ owes q.
Proof.
  destruct c; cbn.
  - by intros [= <- <- <-].
  - by intros [= <- <- <-].
  - by intros [= <- <- <-].
  - destruct (LoadOrStore h s). by intros [= <- <- <-].
  - destruct (inner_Store p k v s); [|done..]. by intros [= <- <- <-].
Qed.

(** Each goroutine ends its writes in its own order. *)
Definition sc_order (progs : list (list write_op)) (x : sconf) : Prop :=
  ∀ i, progs !! i = (λ p, by_thread i (sc_commits x) ++ owes p) <$> sc_threads x !! i ∧
       (sc_threads x !! i = None → by_thread i (sc_commits x) = []).

Lemma sc_start_order progs s : sc_order progs (sc_start progs s).
Proof.
  intros i. simpl. rewrite list_lookup_fmap. split; [|done]. destruct (progs !! i) as [os|]; simpl; [|done].
  by rewrite owes_start.
Qed.

Lemma sc_step_order progs i x x' : sc_order progs x → sc_step i x = Ret x' → sc_order progs x'.
Proof.
  intros Ho E. unfold sc_step in E. destruct (sc_threads x !! i) as [[|c p]|] eqn:Ei; [by simplify_eq| |by simplify_eq].
  destruct (sstep c (sc_store x)) as [[[s q] o]| | |] eqn:Es; [|done..]. cbn in E. injection E as <-.
  apply sstep_owes in Es. intros j. destruct (Ho j) as [H1 H2]. cbn [sc_commits sc_threads]. rewrite by_thread_app.
  assert (by_thread j match o with Some o => [(i, o)] | None => [] end =
    if decide (i = j) then match o with Some o => [o] | None => [] end else []) as ->.
  { destruct o; [apply by_thread_one|]. by case_decide. }
  case_decide as Hij; subst.
  - rewrite list_lookup_insert_eq by (by eapply lookup_lt_Some). split; [|done]. rewrite H1, Ei. simpl.
    f_equal. rewrite <-app_assoc. f_equal. unfold owes in *. by rewrite fmap_cons, fmap_app, concat_app, app_assoc, <-Es.
  - by rewrite list_lookup_insert_ne, app_nil_r.
Qed.

(** *** Writers without [Del] *)
Definition no_del (o : write_op) : Prop := match o with WDel _ => False | _ => True end.

(** The pointer of a pending store is the one the hash has, and a hash that
    nothing was stored into yet belongs to a pending store. *)
Definition committed (a : kv) (x : sconf) : kv := foldl (λ a w, write_kv w.2 a) a (sc_commits x).

Record sc_inv (a : kv) (x : sconf) : Prop := {
  sci_store : SyncMapStore_inv (sc_store x);
  sci_nodel p c : p ∈ sc_threads x → c ∈ p → match c with SDelStrings _ | SDelHashes _ => False | _ => True end;
  sci_ptr p h q k v : p ∈ sc_threads x → SStore h q k v ∈ p → sm_hashes (sc_store x) !! h = Some q;
  sci_strings : sm_strings (sc_store x) = kv_strings (committed a x);
  sci_hashes h :
    kv_hashes (SyncMapStore_abs (sc_store x)) !! h = kv_hashes (committed a x) !! h ∨
    (kv_hashes (SyncMapStore_abs (sc_store x)) !! h = Some ∅ ∧ kv_hashes (committed a x) !! h = None ∧
     ∃ p q k v, p ∈ sc_threads x ∧ SStore h q k v ∈ p)
}.

Lemma sc_start_inv progs s :
  SyncMapStore_inv s → Forall (Forall no_del) progs → sc_inv (SyncMapStore_abs s) (sc_start progs s).
Proof.
  intros Hi Hn. assert (∀ p c, p ∈ sc_threads (sc_start progs s) → c ∈ p →
    match c with SSet _ _ | SLoad _ _ _ => True | _ => False end) as Hc.
  { intros p c Hp Hc. simpl in Hp. apply list_elem_of_fmap in Hp as (os & -> & Hos).
    apply list_elem_of_In, in_concat in Hc as (l & Hl & Hc). apply list_elem_of_In, list_elem_of_fmap in Hl as (o & -> & Ho).
    rewrite Forall_forall in Hn. specialize (Hn os Hos). rewrite Forall_forall in Hn. specialize (Hn o Ho).
    destruct o; simpl in *; [|done|]; by destruct Hc as [<-|[]]. }
  split; [done| | |done|by left].
  - intros p c Hp Hcp. specialize (Hc p c Hp Hcp). by destruct c.
  - intros p h q k v Hp Hcp. by apply (Hc p _ Hp) in Hcp.
Qed.

(** Membership in the goroutines after one of them took a step. *)
Lemma threads_elem i (l : list (list sinstr)) x p : p ∈ <[i := x]> l → p = x ∨ p ∈ l.
Proof.
  intros (j & Hj)%list_elem_of_lookup. destruct (decide (i = j)) as [->|].
  - apply list_lookup_insert_Some in Hj as [(_ & ? & _)|(? & _)]; [by left|done].
  - rewrite list_lookup_insert_ne in Hj by done. right. by eapply list_elem_of_lookup_2.
Qed.

Lemma threads_keep i (l : list (list sinstr)) c p q p0 e :
  l !! i = Some (c :: p) → p0 ∈ l → e ∈ p0 → e ≠ c → ∃ p1, p1 ∈ <[i := q ++ p]> l ∧ e ∈ p1.
Proof.
  intros Hi (j & Hj)%list_elem_of_lookup He Hne. destruct (decide (i = j)) as [->|Hij].
  - exists (q ++ p). split; [apply list_elem_of_insert; by eapply lookup_lt_Some|].
    rewrite Hi in Hj. injection Hj as <-. apply elem_of_app. right. by apply elem_of_cons in He as [?|].
  - exists p0. split; [|done]. apply (list_elem_of_lookup_2 _ j). by rewrite list_lookup_insert_ne.
Qed.

Lemma LoadOrStore_keeps h s h' q :
  sm_hashes s !! h' = Some q → sm_hashes (LoadOrStore h s).2 !! h' = Some q.
Proof.
  intros E. unfold LoadOrStore. destruct (sm_hashes s !! h) eqn:Eh; simpl; [done|].
  by rewrite lookup_insert_ne by congruence.
Qed.

Lemma committed_snoc a x gs s i o :
  committed a (mkSconf gs s (sc_commits x ++ [(i, o)])) = write_kv o (committed a x).
Proof. unfold committed. cbn [sc_commits]. by rewrite foldl_app. Qed.

Lemma committed_same a x gs s : committed a (mkSconf gs s (sc_commits x ++ [])) = committed a x.
Proof. unfold committed. cbn [sc_commits]. by rewrite app_nil_r. Qed.

(** The three steps of these writers. *)
Lemma sc_step_Set a x i p k v :
  sc_inv a x → sc_threads x !! i = Some (SSet k v :: p) →
  ∃ x', sc_step i x = Ret x' ∧ sc_inv a x'.
Proof.
  intros [Hs Hn Hp Hstr Hh] Ei. unfold sc_step. rewrite Ei. cbn. eexists. split; [done|].
  set (x' := mkSconf _ _ _). assert (committed a x' = kv_set k v (committed a x)) as Hc by apply committed_snoc.
  pose proof (list_elem_of_lookup_2 _ _ _ Ei) as Hin.
  assert (∀ p' e, p' ∈ sc_threads x' → e ∈ p' → ∃ p0, p0 ∈ sc_threads x ∧ e ∈ p0) as Hold.
  { intros p' e Hp' He. apply threads_elem in Hp' as [->|]; [|by eauto]. exists (SSet k v :: p). split; [done|by right]. }
  split.
  - destruct Hs as [V F J]. split; [exact V|exact F|exact J].
  - intros p' c Hp' Hc'. destruct (Hold _ _ Hp' Hc') as (p0 & Hp0 & Hc0). exact (Hn p0 c Hp0 Hc0).
  - intros p' h q k' v' Hp' Hc'. destruct (Hold _ _ Hp' Hc') as (p0 & ? & ?). by eapply Hp.
  - rewrite Hc. simpl. by rewrite Hstr.
  - intros h. rewrite Hc. destruct (Hh h) as [|(? & ? & p0 & q & k' & v' & Hp0 & He)]; [by left|right].
    split; [done|]. split; [done|]. destruct (threads_keep i _ _ p [] p0 _ Ei Hp0 He) as (p1 & ? & ?); [done|]. eauto 10.
Qed.

Lemma sc_step_Load a x i p h k v :
  sc_inv a x → sc_threads x !! i = Some (SLoad h k v :: p) →
  ∃ x', sc_step i x = Ret x' ∧ sc_inv a x'.
Proof.
  intros [Hs Hn Hp Hstr Hh] Ei. unfold sc_step. rewrite Ei. cbn.
  pose proof (LoadOrStore_spec h (sc_store x) Hs) as Hl. pose proof (LoadOrStore_keeps h (sc_store x)) as Hk.
  destruct (LoadOrStore h (sc_store x)) as [q s1] eqn:El. destruct Hl as (Hi1 & Hq & Hs1 & Hm & Hoth).
  cbn. eexists. split; [done|]. set (x' := mkSconf _ _ _). assert (committed a x' = committed a x) as Hc by apply committed_same.
  pose proof (list_elem_of_lookup_2 _ _ _ Ei) as Hin.
  assert (∀ p' e, p' ∈ sc_threads x' → e ∈ p' → e = SStore h q k v ∨ ∃ p0, p0 ∈ sc_threads x ∧ e ∈ p0) as Hold.
  { intros p' e Hp' He. apply threads_elem in Hp' as [->|]; [|by eauto]. apply elem_of_cons in He as [->|He]; [by left|right].
    exists (SLoad h k v :: p). split; [done|by right]. }
  assert (kv_hashes (SyncMapStore_abs s1) !! h = Some (default ∅ (kv_hashes (SyncMapStore_abs (sc_store x)) !! h))) as Hnew.
  { rewrite <-Hm. simpl. rewrite lookup_omap, Hq. done. }
  split.
  - done.
  - intros p' c Hp' Hc'. destruct (Hold _ _ Hp' Hc') as [->|(p0 & Hp0 & Hc0)]; [done|]. exact (Hn p0 c Hp0 Hc0).
  - intros p' h' q' k' v' Hp' Hc'. destruct (Hold _ _ Hp' Hc') as [[= -> -> -> ->]|(p0 & ? & ?)]; [done|].
    by eapply Hk, Hp.
  - rewrite Hc. cbn. by rewrite Hs1.
  - intros h'. rewrite Hc. cbn [sc_store x'].
    assert (∀ p0 q' k' v', p0 ∈ sc_threads x → SStore h' q' k' v' ∈ p0 →
      ∃ p q k v, p ∈ sc_threads x' ∧ SStore h' q k v ∈ p) as Hpend.
    { intros p0 q' k' v' Hp0 He. destruct (threads_keep i _ _ p [SStore h q k v] p0 _ Ei Hp0 He) as (p1 & ? & ?); [done|]. eauto 10. }
    destruct (decide (h' = h)) as [->|Hne].
    + rewrite Hnew. destruct (Hh h) as [E|(E & E' & p0 & q' & k' & v' & Hp0 & He)]; rewrite E; [|right; eauto 10].
      destruct (kv_hashes (committed a x) !! h) as [m|]; [by left|right]. split; [done|]. split; [done|].
      exists (SStore h q k v :: p), q, k, v. split; [|by left]. apply list_elem_of_insert. by eapply lookup_lt_Some.
    + rewrite Hoth by done. destruct (Hh h') as [|(? & ? & p0 & q' & k' & v' & Hp0 & He)]; [by left|right; eauto 10].
Qed.

Lemma sc_step_Store a x i p h q k v :
  sc_inv a x → sc_threads x !! i = Some (SStore h q k v :: p) →
  ∃ x', sc_step i x = Ret x' ∧ sc_inv a x'.
Proof.
  intros [Hs Hn Hp Hstr Hh] Ei. unfold sc_step. rewrite Ei. cbn [sstep].
  pose proof (list_elem_of_lookup_2 _ _ _ Ei) as Hin.
  assert (sm_hashes (sc_store x) !! h = Some q) as Hq by (eapply Hp; [exact Hin|by left]).
  destruct (syncmap_valid _ Hs h q Hq) as [m Hm].
  destruct (inner_Store_spec h q m k v (sc_store x) Hs Hq Hm) as (s' & E & Hi' & Hs' & Ha).
  assert (sm_hashes s' = sm_hashes (sc_store x)) as Hsh by (unfold inner_Store in E; rewrite Hm in E; by injection E as <-).
  rewrite E. cbn [mbind go_bind]. eexists. split; [done|].
  set (x' := mkSconf _ _ _). assert (committed a x' = kv_hset h k v (committed a x)) as Hc by apply committed_snoc.
  assert (∀ p' e, p' ∈ sc_threads x' → e ∈ p' → ∃ p0, p0 ∈ sc_threads x ∧ e ∈ p0) as Hold.
  { intros p' e Hp' He. apply threads_elem in Hp' as [->|]; [|by eauto]. exists (SStore h q k v :: p). split; [done|by right]. }
  assert (kv_hashes (SyncMapStore_abs (sc_store x)) !! h = Some m) as Hmh by (simpl; by rewrite lookup_omap, Hq).
  split.
  - done.
  - intros p' c Hp' Hc'. destruct (Hold _ _ Hp' Hc') as (p0 & Hp0 & Hc0). exact (Hn p0 c Hp0 Hc0).
  - intros p' h' q' k' v' Hp' Hc'. destruct (Hold _ _ Hp' Hc') as (p0 & ? & ?). cbn. rewrite Hsh. by eapply Hp.
  - rewrite Hc. cbn. by rewrite Hs'.
  - intros h'. rewrite Hc. cbn [sc_store x']. rewrite Ha. simpl. destruct (decide (h' = h)) as [->|Hne].
    + left. rewrite !lookup_insert_eq. do 2 f_equal. destruct (Hh h) as [E'|(E' & E'' & _)].
      * by rewrite <-E', Hmh.
      * rewrite E''. simpl. congruence.
    + rewrite !lookup_insert_ne by done. destruct (Hh h') as [|(? & ? & p0 & q' & k' & v' & Hp0 & He)]; [by left|right].
      split; [done|]. split; [done|]. destruct (threads_keep i _ _ p [] p0 _ Ei Hp0 He) as (p1 & ? & ?); [congruence|]. eauto 10.
Qed.

Lemma sc_step_inv a x i : sc_inv a x → ∃ x', sc_step i x = Ret x' ∧ sc_inv a x'.
Proof.
  intros Hx. destruct (sc_threads x !! i) as [[|c p]|] eqn:Ei; [by exists x; unfold sc_step; rewrite Ei| |by exists x; unfold sc_step; rewrite Ei].
  pose proof (sci_nodel a x Hx _ c (list_elem_of_lookup_2 _ _ _ Ei) ltac:(by left)) as Hc.
  destruct c; [by eapply sc_step_Set|done|done|by eapply sc_step_Load|by eapply sc_step_Store].
Qed.

Lemma sc_run_inv a progs sched x :
  sc_inv a x → sc_order progs x → ∃ x', sc_run sched x = Ret x' ∧ sc_inv a x' ∧ sc_order progs x'.
Proof.
  revert x; induction sched as [|i sched IH]; intros x Hx Ho; [by exists x|].
  destruct (sc_step_inv a x i Hx) as (x1 & E1 & H1). destruct (IH x1 H1) as (x2 & E2 & H2 & O2); [by eapply sc_step_order|].
  exists x2. split; [|done]. unfold sc_run in *. cbn [go_foldl]. by rewrite E1.
Qed.

(** ** Theorems *)

(** C14: concurrent writers of the sync.Map store lose nothing: goroutines
    that run [Set] and [HSet] in any interleaving of their sync.Map calls,
    also several that create one hash at the same time, never fail, and when
    all have returned the content is that of the writes executed one after
    the other in some order that keeps the order of each goroutine. *)
Theorem syncmap_concurrent_writes (progs : list (list write_op)) (sched : list nat) (s : SyncMapStore) :
  SyncMapStore_inv s → Forall (Forall no_del) progs →
  ∃ x, sc_run sched (sc_start progs s) = Ret x ∧
    (all_done x →
     SyncMapStore_abs (sc_store x) = foldl (λ a w, write_kv w.2 a) (SyncMapStore_abs s) (sc_commits x) ∧
     ∀ i, by_thread i (sc_commits x) = default [] (progs !! i)).
Proof.
  intros Hi Hn. destruct (sc_run_inv _ progs sched _ (sc_start_inv progs s Hi Hn) (sc_start_order progs s)) as (x & E & Hx & Ho).
  exists x. split; [done|]. intros Hd. unfold all_done in Hd. rewrite Forall_forall in Hd. split.
  - change (foldl _ _ _) with (committed (SyncMapStore_abs s) x).
    destruct (committed (SyncMapStore_abs s) x) as [ss hs] eqn:Ec. unfold SyncMapStore_abs. f_equal.
    + by rewrite (sci_strings _ _ Hx), Ec.
    + apply map_eq. intros h. destruct (sci_hashes _ _ Hx h) as [Eh|(_ & _ & p & q & k & v & Hp & He)].
      * rewrite Ec in Eh. exact Eh.
      * rewrite (Hd p Hp) in He. by apply not_elem_of_nil in He.
  - intros i. destruct (Ho i) as [H1 H2]. destruct (sc_threads x !! i) as [p|] eqn:Ei.
    + rewrite (Hd p) in H1 by (by eapply list_elem_of_lookup_2). rewrite H1. simpl. by rewrite app_nil_r.
    + rewrite H1. simpl. by apply H2.
Qed.

(** [Del] is not atomic: it deletes the string and the hash of a key one
    after the other.  Next to a goroutine that sets both it can delete the new
    hash and leave the new string, which no order of the three calls does. *)
Theorem syncmap_del_not_atomic (k f v w : gostring) :
  ∃ sched x, sc_run sched (sc_start [[WDel k]; [WSet k v; WHSet k f w]] NewSyncMapStore) = Ret x ∧ all_done x ∧
    kv_get k (SyncMapStore_abs (sc_store x)) = Some v ∧ kv_hget k f (SyncMapStore_abs (sc_store x)) = None ∧
    Forall (λ os, foldl (λ a o, write_kv o a) kv_empty os ≠ SyncMapStore_abs (sc_store x))
      [[WDel k; WSet k v; WHSet k f w]; [WSet k v; WDel k; WHSet k f w]; [WSet k v; WHSet k f w; WDel k]].
Proof.
  exists [0; 1; 1; 1; 0]. eexists. split.
  { unfold sc_run, sc_start. cbn. unfold LoadOrStore. cbn. rewrite lookup_empty. cbn. unfold inner_Store. cbn.
    rewrite lookup_insert_eq. cbn. reflexivity. }
  split; [by repeat constructor|]. unfold kv_get, kv_hget, SyncMapStore_abs. cbn.
  split; [apply lookup_insert_eq|]. split; [by rewrite lookup_omap, lookup_delete_eq|].
  repeat apply Forall_cons_2; [| | |constructor]; intros E.
  - apply (f_equal (λ a, kv_hashes a !! k)) in E. cbn in E. by rewrite lookup_insert_eq, lookup_omap, !lookup_delete_eq in E.
  - apply (f_equal (λ a, kv_hashes a !! k)) in E. cbn in E. by rewrite lookup_insert_eq, lookup_omap, !lookup_delete_eq in E.
  - apply (f_equal (λ a, kv_strings a !! k)) in E. cbn in E. by rewrite lookup_delete_eq, lookup_insert_eq in E.
Qed.

(** ** Witnesses *)
Lemma syncmap_concurrent_writes_witness :
  let progs := [[WHSet (str "h") (str "a") (str "1")]; [WHSet (str "h") (str "b") (str "2"); WSet (str "k") (str "v")]] in
  ∃ x, sc_run [0; 1; 1; 1; 0] (sc_start progs NewSyncMapStore) = Ret x ∧
    SyncMapStore_abs (sc_store x) = foldl (λ a w, write_kv w.2 a) kv_empty (sc_commits x).
Proof.
  intros progs. destruct (syncmap_concurrent_writes progs [0; 1; 1; 1; 0] NewSyncMapStore) as (x & E & Hx).
  - apply NewSyncMapStore_inv.
  - repeat constructor.
  - exists x. split; [exact E|]. apply Hx. revert E. vm_compute. intros [= <-]. by repeat constructor.
Defined.
