(* ===== verification/CRDTStore.v ===== *)
(** * CRDTStore: src/store/crdt.go

    Last-writer-wins string keys with a logical clock.  [Merge] takes the
    read lock of the other store TWICE and releases it once, so the lock is
    part of the model: a call that must wait for a lock nobody will release
    is [Deadlock].  [Merge] works on a heap of stores, since its two stores
    may be the same object. *)

From stdpp Require Import base list gmap strings.
From Stdlib Require Import ZArith Lia.
From S2P Require Import Prelude GoLib StoreSpec.
Local Open Scope Z_scope.

(** ** The store *)
Record crdtValue := mkCrdt { cv_value : gostring; cv_ts : Z }.

#[global] Instance crdtValue_eq_dec : EqDecision crdtValue.
Proof. solve_decision. Defined.

Record CRDTStore := mkCRDTStore {
  cr_data : gmap gostring crdtValue;
  cr_hashes : gmap gostring (gmap gostring gostring);
  cr_clock : Z;                                  (* uint64 *)
  cr_mu : RWMutex
}.

Definition NewCRDTStore : CRDTStore := mkCRDTStore ∅ ∅ 0 unlocked.

(** [s.mu.Lock(); ...; s.mu.Unlock()] around a change of the other fields. *)
Definition locked (f : CRDTStore → CRDTStore) (s : CRDTStore) : go CRDTStore :=
  m1 ← rw_Lock (cr_mu s);
  let s1 := f (mkCRDTStore (cr_data s) (cr_hashes s) (cr_clock s) m1) in
  m2 ← rw_Unlock (cr_mu s1);
  Ret (mkCRDTStore (cr_data s1) (cr_hashes s1) (cr_clock s1) m2).

(** [s.mu.RLock(); r := ...; s.mu.RUnlock()] *)
Definition rlocked {A} (f : CRDTStore → A) (s : CRDTStore) : go A :=
  m1 ← rw_RLock (cr_mu s); _ ← rw_RUnlock m1; Ret (f s).

Definition nextTS (s : CRDTStore) : Z := wrap 64 (cr_clock s + 1).

Definition CRDTStore_Set (key value : gostring) : CRDTStore → go CRDTStore :=
  locked (λ s, let ts := nextTS s in
    mkCRDTStore (<[key := mkCrdt value ts]> (cr_data s)) (cr_hashes s) ts (cr_mu s)).

Definition CRDTStore_Del (key : gostring) : CRDTStore → go CRDTStore :=
  locked (λ s, mkCRDTStore (delete key (cr_data s)) (delete key (cr_hashes s)) (cr_clock s) (cr_mu s)).

Definition CRDTStore_Get (key : gostring) : CRDTStore → go (option gostring) :=
  rlocked (λ s, cv_value <$> (cr_data s !! key)).

Definition CRDTStore_SetWithTS (key value : gostring) (ts : Z) : CRDTStore → go CRDTStore :=
  locked (λ s,
    let data := match cr_data s !! key with
                | None => <[key := mkCrdt value ts]> (cr_data s)
                | Some existing =>
                    if (cv_ts existing <? ts) || ((ts =? cv_ts existing) && false)
                    then <[key := mkCrdt value ts]> (cr_data s) else cr_data s
                end in
    mkCRDTStore data (cr_hashes s) (if cr_clock s <? ts then ts else cr_clock s) (cr_mu s)).

Definition CRDTStore_Snapshot : CRDTStore → go (gmap gostring crdtValue) := rlocked cr_data.

Definition CRDTStore_HSet (hash key value : gostring) : CRDTStore → go CRDTStore :=
  locked (λ s, mkCRDTStore (cr_data s) (hash_put hash key value (cr_hashes s)) (cr_clock s) (cr_mu s)).

Definition CRDTStore_HGet (hash key : gostring) : CRDTStore → go (option gostring) :=
  rlocked (λ s, hash_get hash key (cr_hashes s)).

Definition CRDTStore_HGetAll (hash : gostring) : CRDTStore → go (option (gmap gostring gostring)) :=
  rlocked (λ s, cr_hashes s !! hash).

Definition CRDTStore_Close (s : CRDTStore) : go CRDTStore := Ret s.

(** ** Merge, on a heap of stores *)
Definition on_store (l : nat) (f : CRDTStore → go CRDTStore) (h : gmap nat CRDTStore) :
    go (gmap nat CRDTStore) :=
  match h !! l with
  | None => Panic
  | Some s => s' ← f s; Ret (<[l := s']> h)
  end.

Definition with_mu (f : RWMutex → go RWMutex) (s : CRDTStore) : go CRDTStore :=
  m ← f (cr_mu s); Ret (mkCRDTStore (cr_data s) (cr_hashes s) (cr_clock s) m).

(** One iteration of the loop over [other.data], and over [other.hashes]. *)
Definition entry_upd (kv : gostring * crdtValue) (s : CRDTStore) : CRDTStore :=
  let '(key, v) := kv in
  let data := match cr_data s !! key with
              | None => <[key := v]> (cr_data s)
              | Some existing => if cv_ts existing <? cv_ts v then <[key := v]> (cr_data s) else cr_data s
              end in
  mkCRDTStore data (cr_hashes s) (if cr_clock s <? cv_ts v then cv_ts v else cr_clock s) (cr_mu s).
Definition merge_entry (kv : gostring * crdtValue) : CRDTStore → go CRDTStore :=
  locked (entry_upd kv).

Definition hash_upd (hm : gostring * gmap gostring gostring) (s : CRDTStore) : CRDTStore :=
  let '(hash, inner) := hm in
  let hs := match cr_hashes s !! hash with None => <[hash := ∅]> (cr_hashes s) | Some _ => cr_hashes s end in
  mkCRDTStore (cr_data s) (alter (λ m, inner ∪ m) hash hs) (cr_clock s) (cr_mu s).
Definition merge_hash (hm : gostring * gmap gostring gostring) : CRDTStore → go CRDTStore :=
  locked (hash_upd hm).

(** [entries] and [hentries] are the pairs of [other.data] and [other.hashes]
    in the order the two [range] loops visit them. *)
Definition CRDTStore_Merge (s other : nat) (entries : list (gostring * crdtValue))
    (hentries : list (gostring * gmap gostring gostring)) (h : gmap nat CRDTStore) :
    go (gmap nat CRDTStore) :=
  h1 ← on_store other (with_mu rw_RLock) h;
  h2 ← go_foldl (λ kv, on_store s (merge_entry kv)) entries h1;
  h3 ← on_store other (with_mu rw_RLock) h2;
  h4 ← go_foldl (λ hm, on_store s (merge_hash hm)) hentries h3;
  on_store other (with_mu rw_RUnlock) h4.

#[global] Instance CRDTStore_ops : StoreOps CRDTStore := {
  st_Set := CRDTStore_Set;
  st_Get := CRDTStore_Get;
  st_Del := CRDTStore_Del;
  st_HSet := CRDTStore_HSet;
  st_HGet := CRDTStore_HGet;
  st_HGetAll := CRDTStore_HGetAll;
  st_Close := CRDTStore_Close
}.

(** ** Invariant and abstraction *)
Definition CRDTStore_abs (s : CRDTStore) : kv := mkKV (cv_value <$> cr_data s) (cr_hashes s).
Definition CRDTStore_inv (s : CRDTStore) : Prop := cr_mu s = unlocked.

(** A change made under the lock of an unlocked store returns, unlocked. *)
Lemma locked_ret f s :
  cr_mu s = unlocked →
  (∀ x, cr_mu (f x) = cr_mu x) →
  (∀ x m, f (mkCRDTStore (cr_data x) (cr_hashes x) (cr_clock x) m) =
          mkCRDTStore (cr_data (f x)) (cr_hashes (f x)) (cr_clock (f x)) m) →
  locked f s = Ret (f s).
Proof.
  intros Hu Hmu Hf. unfold locked. rewrite Hu. cbn [mbind go_bind rw_Lock].
  simpl. rewrite Hmu. simpl. rewrite Hf. simpl.
  pose proof (Hmu s) as E. rewrite Hu in E. destruct (f s); simpl in *. by subst.
Qed.

Lemma rlocked_ret {A} (f : CRDTStore → A) s : cr_mu s = unlocked → rlocked f s = Ret (f s).
Proof. intros Hu. unfold rlocked. by rewrite Hu. Qed.

(** A store whose read lock was leaked blocks every later writer. *)
Lemma locked_blocked f s : (rw_readers (cr_mu s) ≠ 0)%nat → locked f s = Deadlock.
Proof.
  intros Hr. unfold locked, rw_Lock.
  destruct (Nat.eqb_spec (rw_readers (cr_mu s)) 0); [done|]. by rewrite orb_true_r.
Qed.

#[global] Program Instance CRDTStore_laws : StoreLaws CRDTStore := {
  st_inv := CRDTStore_inv;
  st_abs := CRDTStore_abs
}.
Next Obligation.
  intros k v s Hi. simpl. eexists; split_and!; [by apply locked_ret|done|].
  unfold CRDTStore_abs, kv_set; simpl. by rewrite fmap_insert.
Qed.
Next Obligation.
  intros k s Hi. simpl. eexists; split_and!; [by apply locked_ret|done|].
  unfold CRDTStore_abs, kv_del; simpl. by rewrite fmap_delete.
Qed.
Next Obligation.
  intros h k v s Hi. simpl. eexists; split_and!; [by apply locked_ret|done|].
  unfold CRDTStore_abs, kv_hset; simpl. by rewrite hash_put_spec.
Qed.
Next Obligation.
  intros k s Hi. simpl. unfold CRDTStore_Get. rewrite rlocked_ret by done.
  unfold kv_get; simpl. by rewrite lookup_fmap.
Qed.
Next Obligation. intros h k s Hi. simpl. unfold CRDTStore_HGet. by rewrite rlocked_ret. Qed.
Next Obligation. intros h s Hi. simpl. unfold CRDTStore_HGetAll. by rewrite rlocked_ret. Qed.

(** ** The effect of a merge *)
Definition lww (a b : crdtValue) : crdtValue := if cv_ts a <? cv_ts b then b else a.
Definition lww_merge (d1 d2 : gmap gostring crdtValue) : gmap gostring crdtValue :=
  union_with (λ a b, Some (lww a b)) d1 d2.
Definition hash_merge (h1 h2 : gmap gostring (gmap gostring gostring)) :
    gmap gostring (gmap gostring gostring) :=
  union_with (λ m inner, Some (inner ∪ m)) h1 h2.

Lemma merge_entry_ret kv s :
  cr_mu s = unlocked → merge_entry kv s = Ret (entry_upd kv s) ∧ cr_mu (entry_upd kv s) = unlocked.
Proof. intros Hu. destruct kv. split; [by apply locked_ret|done]. Qed.

Lemma merge_hash_ret hm s :
  cr_mu s = unlocked → merge_hash hm s = Ret (hash_upd hm s) ∧ cr_mu (hash_upd hm s) = unlocked.
Proof. intros Hu. destruct hm. split; [by apply locked_ret|done]. Qed.

Lemma on_store_ret l f h s s' :
  h !! l = Some s → f s = Ret s' → on_store l f h = Ret (<[l := s']> h).
Proof. intros Hl Hf. unfold on_store. by rewrite Hl, Hf. Qed.

Lemma on_store_block l f h s :
  h !! l = Some s → f s = Deadlock → on_store l f h = Deadlock.
Proof. intros Hl Hf. unfold on_store. by rewrite Hl, Hf. Qed.

Lemma foldl_on_store {A} (f : A → CRDTStore → CRDTStore) (g : A → CRDTStore → go CRDTStore) l st h as_ :
  (∀ a x, cr_mu x = unlocked → g a x = Ret (f a x) ∧ cr_mu (f a x) = unlocked) →
  h !! l = Some st → cr_mu st = unlocked →
  go_foldl (λ a, on_store l (g a)) as_ h = Ret (<[l := foldl (λ x a, f a x) st as_]> h) ∧
  cr_mu (foldl (λ x a, f a x) st as_) = unlocked.
Proof.
  intros Hg. revert st h; induction as_ as [|a as_ IH]; intros st h Hl Hu; simpl.
  - by rewrite insert_id.
  - destruct (Hg a st Hu) as [Ha Hu'].
    assert (on_store l (g a) h = Ret (<[l := f a st]> h)) as -> by by eapply on_store_ret.
    simpl.
    destruct (IH (f a st) (<[l := f a st]> h)) as [E Hu2]; [by rewrite lookup_insert_eq|done|].
    by rewrite E, insert_insert_eq.
Qed.

Lemma entry_upd_data k v s d :
  d !! k = None →
  lww_merge (cr_data (entry_upd (k, v) s)) d = lww_merge (cr_data s) (<[k := v]> d).
Proof.
  intros Hd. apply map_eq; intros j. unfold lww_merge. rewrite !lookup_union_with.
  destruct (decide (j = k)) as [->|Hne].
  - rewrite Hd, lookup_insert_eq. simpl. destruct (cr_data s !! k) as [a|] eqn:E; simpl.
    + unfold lww. destruct (Z.ltb_spec (cv_ts a) (cv_ts v)); by rewrite ?lookup_insert_eq, ?E.
    + by rewrite lookup_insert_eq.
  - rewrite lookup_insert_ne by done. f_equal. simpl.
    destruct (cr_data s !! k); [case_match|]; rewrite ?lookup_insert_ne; done.
Qed.

Lemma entries_data l s :
  NoDup l.*1 →
  cr_data (foldl (λ x kv, entry_upd kv x) s l) = lww_merge (cr_data s) (list_to_map l).
Proof.
  revert s; induction l as [|[k v] l IH]; intros s Hnd; cbn [foldl].
  - unfold lww_merge. simpl. by rewrite (right_id_L ∅ _).
  - apply NoDup_cons in Hnd as [Hk Hnd]. rewrite IH by done. simpl.
    apply entry_upd_data. by apply not_elem_of_list_to_map_1.
Qed.

Lemma entries_hashes l s :
  cr_hashes (foldl (λ x kv, entry_upd kv x) s l) = cr_hashes s.
Proof. revert s; induction l as [|[k v] l IH]; intros s; simpl; [done|]. by rewrite IH. Qed.

Lemma entries_clock l s :
  cr_clock (foldl (λ x kv, entry_upd kv x) s l) = foldl Z.max (cr_clock s) ((λ kv, cv_ts kv.2) <$> l).
Proof.
  revert s; induction l as [|[k v] l IH]; intros s; simpl; [done|]. rewrite IH. simpl. f_equal.
  destruct (Z.ltb_spec (cr_clock s) (cv_ts v)); lia.
Qed.

Lemma foldl_max_ge l c : c ≤ foldl Z.max c l.
Proof.
  revert c; induction l as [|y l IH]; intros c; simpl; [lia|].
  transitivity (Z.max c y); [lia|apply IH].
Qed.

Lemma foldl_max_elem l c x : x ∈ l → x ≤ foldl Z.max c l.
Proof.
  revert c; induction l as [|y l IH]; intros c; [set_solver|]. simpl.
  intros [->|Hx]%elem_of_cons; [|by apply IH].
  transitivity (Z.max c y); [lia|apply foldl_max_ge].
Qed.

Lemma hashes_fold_data l s :
  NoDup l.*1 →
  cr_hashes (foldl (λ x hm, hash_upd hm x) s l) = hash_merge (cr_hashes s) (list_to_map l) ∧
  cr_data (foldl (λ x hm, hash_upd hm x) s l) = cr_data s ∧
  cr_clock (foldl (λ x hm, hash_upd hm x) s l) = cr_clock s.
Proof.
  revert s; induction l as [|[k m] l IH]; intros s Hnd; cbn [foldl].
  - split_and!; [|done..]. unfold hash_merge. simpl. by rewrite (right_id_L ∅ _).
  - apply NoDup_cons in Hnd as [Hk Hnd]. destruct (IH (hash_upd (k, m) s) Hnd) as (-> & -> & ->).
    split_and!; [|done..]. apply not_elem_of_list_to_map_1 in Hk. simpl in Hk.
    apply map_eq; intros j. unfold hash_merge. rewrite !lookup_union_with. simpl.
    destruct (decide (j = k)) as [->|Hne].
    + rewrite Hk, lookup_insert_eq, lookup_alter_eq.
      destruct (cr_hashes s !! k) eqn:E; [by rewrite E|].
      rewrite lookup_insert_eq. simpl. by rewrite (right_id_L ∅ _).
    + rewrite lookup_insert_ne, lookup_alter_ne by done.
      destruct (cr_hashes s !! k); [done|]. by rewrite lookup_insert_ne.
Qed.

(** [other] after a merge: its data is untouched, its lock has one reader more. *)
Definition leak_reader (s : CRDTStore) : CRDTStore :=
  mkCRDTStore (cr_data s) (cr_hashes s) (cr_clock s) (mkRWMutex (S (rw_readers (cr_mu s))) (rw_writer (cr_mu s))).

Section merge.
Context (h : gmap nat CRDTStore) (l lo : nat) (s o : CRDTStore).
Context (entries : list (gostring * crdtValue)) (hentries : list (gostring * gmap gostring gostring)).
Hypothesis Hne : l ≠ lo.
Hypothesis Hs : h !! l = Some s.
Hypothesis Ho : h !! lo = Some o.
Hypothesis Hsu : cr_mu s = unlocked.
Hypothesis Hou : rw_writer (cr_mu o) = false.
Hypothesis He : entries ≡ₚ map_to_list (cr_data o).
Hypothesis Hh : hentries ≡ₚ map_to_list (cr_hashes o).

Lemma entries_nodup : NoDup entries.*1 ∧ NoDup hentries.*1.
Proof. rewrite He, Hh. split; apply NoDup_fst_map_to_list. Qed.

Lemma Merge_run :
  CRDTStore_Merge l lo entries hentries h =
    Ret (<[lo := leak_reader o]>
          (<[l := foldl (λ x hm, hash_upd hm x) (foldl (λ x kv, entry_upd kv x) s entries) hentries]> h)).
Proof.
  unfold CRDTStore_Merge.
  set (readers n := mkCRDTStore (cr_data o) (cr_hashes o) (cr_clock o) (mkRWMutex n false)).
  assert (∀ n, with_mu rw_RLock (readers n) = Ret (readers (S n))) as Hrl by done.
  set (n := rw_readers (cr_mu o)).
  assert (o = readers n) as E0 by (unfold readers, n; destruct o as [? ? ? []]; simpl in *; by subst).
  erewrite (on_store_ret lo _ h); [|done|by rewrite E0, Hrl]. cbn [mbind go_bind].
  destruct (foldl_on_store entry_upd merge_entry l s (<[lo := readers (S n)]> h) entries) as [E1 Hu1];
    [apply merge_entry_ret|by rewrite lookup_insert_ne|done|].
  rewrite E1. cbn [mbind go_bind]. set (s1 := foldl _ s entries) in *.
  erewrite on_store_ret; [|by rewrite lookup_insert_ne, lookup_insert_eq|apply Hrl]. cbn [mbind go_bind].
  destruct (foldl_on_store hash_upd merge_hash l s1
    (<[lo := readers (S (S n))]> (<[l := s1]> (<[lo := readers (S n)]> h))) hentries) as [E2 Hu2];
    [apply merge_hash_ret|by rewrite lookup_insert_ne, lookup_insert_eq|done|].
  rewrite E2. cbn [mbind go_bind].
  erewrite on_store_ret; [|by rewrite lookup_insert_ne, lookup_insert_eq|done].
  f_equal. unfold leak_reader. rewrite Hou.
  apply map_eq; intros i. rewrite !lookup_insert. repeat case_decide; try done; congruence.
Qed.

Lemma Merge_store :
  ∃ s', CRDTStore_Merge l lo entries hentries h = Ret (<[lo := leak_reader o]> (<[l := s']> h)) ∧
    cr_mu s' = unlocked ∧
    cr_data s' = lww_merge (cr_data s) (cr_data o) ∧
    cr_hashes s' = hash_merge (cr_hashes s) (cr_hashes o) ∧
    cr_clock s ≤ cr_clock s' ∧ (∀ k v, cr_data o !! k = Some v → cv_ts v ≤ cr_clock s').
Proof.
  eexists; split; [apply Merge_run|]. destruct entries_nodup as [Hn1 Hn2].
  set (s1 := foldl (λ x kv, entry_upd kv x) s entries).
  destruct (foldl_on_store entry_upd merge_entry l s h entries) as [_ Hu1]; [apply merge_entry_ret|done|done|].
  destruct (foldl_on_store hash_upd merge_hash l s1 (<[l := s1]> h) hentries) as [_ Hu2];
    [apply merge_hash_ret|by rewrite lookup_insert_eq|done|].
  destruct (hashes_fold_data hentries s1 Hn2) as (-> & -> & ->).
  unfold s1 in *. rewrite entries_data, entries_hashes, entries_clock by done.
  split_and!; [done| | |apply foldl_max_ge|].
  - f_equal. rewrite <-(list_to_map_to_list (cr_data o)). by apply list_to_map_proper.
  - f_equal. rewrite <-(list_to_map_to_list (cr_hashes o)). by apply list_to_map_proper.
  - intros k v Hk. apply foldl_max_elem. apply list_elem_of_fmap. exists (k, v). split; [done|].
    rewrite He. by apply elem_of_map_to_list.
Qed.
End merge.

(** ** Many merges in one run *)

(** A call [into.Merge(from)] with the order its loops visit the maps in. *)
Record merge_call := mkMerge {
  mg_into : nat;
  mg_from : nat;
  mg_entries : list (gostring * crdtValue);
  mg_hentries : list (gostring * gmap gostring gostring)
}.

Definition merge_run : list merge_call → gmap nat CRDTStore → go (gmap nat CRDTStore) :=
  go_foldl (λ m, CRDTStore_Merge (mg_into m) (mg_from m) (mg_entries m) (mg_hentries m)).

(** The strings of a store, and the stores merged into [l], in order. *)
Definition data_of (h : gmap nat CRDTStore) (l : nat) : gmap gostring crdtValue := default ∅ (cr_data <$> h !! l).
Definition merged_into (l : nat) (ms : list merge_call) : list nat := mg_from <$> filter (λ m, mg_into m = l) ms.

(** The call merges into one of the stores [T] from a store outside of [T]. *)
Definition merge_ok (T : gset nat) (h : gmap nat CRDTStore) (m : merge_call) : Prop :=
  mg_into m ∈ T ∧ (mg_from m ∉ T) ∧
  ∃ o, h !! mg_from m = Some o ∧ rw_writer (cr_mu o) = false ∧
    mg_entries m ≡ₚ map_to_list (cr_data o) ∧ mg_hentries m ≡ₚ map_to_list (cr_hashes o).

Definition free (h : gmap nat CRDTStore) (l : nat) : Prop := ∃ s, h !! l = Some s ∧ cr_mu s = unlocked.

(** A merge leaves calls that were possible possible. *)
Lemma merge_ok_step T h m l s' lo o :
  l ∈ T → h !! lo = Some o → merge_ok T h m → merge_ok T (<[lo := leak_reader o]> (<[l := s']> h)) m.
Proof.
  intros Hl Ho (H1 & H2 & o' & Ho' & Hw & He). split; [done|]. split; [done|].
  destruct (decide (mg_from m = lo)) as [E|Hne].
  - exists (leak_reader o). rewrite E, lookup_insert_eq. assert (o' = o) as -> by congruence. done.
  - exists o'. rewrite lookup_insert_ne by done. rewrite lookup_insert_ne by set_solver. done.
Qed.

(** Each target ends with its strings merged with those of its sources. *)
Lemma merge_run_data T ms h :
  (∀ l, l ∈ T → free h l) → Forall (merge_ok T h) ms →
  ∃ h', merge_run ms h = Ret h' ∧ ∀ l, l ∈ T → free h' l ∧ data_of h' l = foldl lww_merge (data_of h l) (data_of h <$> merged_into l ms).
Proof.
  revert h; induction ms as [|m ms IH]; intros h Hf Hms; [exists h; split; [done|]; intros l Hl; split; [by apply Hf|done]|].
  apply Forall_cons in Hms as [Hm Hms]. pose proof Hm as (Hi & Hn & o & Ho & Hw & He & Hh). destruct (Hf _ Hi) as (s & Hs & Hu).
  assert (mg_into m ≠ mg_from m) as Hne by (intros E; by rewrite E in Hi).
  destruct (Merge_store h (mg_into m) (mg_from m) s o (mg_entries m) (mg_hentries m)) as (s' & E & Hu' & Hd & _); [done..|].
  set (h1 := <[mg_from m := leak_reader o]> (<[mg_into m := s']> h)) in *.
  destruct (IH h1) as (h' & E' & H').
  { intros l Hl. destruct (decide (l = mg_into m)) as [->|Hlm].
    - exists s'. split; [|done]. unfold h1. by rewrite lookup_insert_ne, lookup_insert_eq.
    - destruct (Hf l Hl) as (x & Hx & Hxu). exists x. split; [|done]. unfold h1. by rewrite !lookup_insert_ne by set_solver. }
  { eapply Forall_impl; [exact Hms|]. intros x. by apply merge_ok_step. }
  exists h'. split; [unfold merge_run in *; cbn [go_foldl]; by rewrite E|]. intros l Hl. destruct (H' l Hl) as [Hfl ->]. split; [done|].
  assert (∀ lo, lo ∉ T → data_of h1 lo = data_of h lo) as Hsrc.
  { intros lo Hlo. unfold data_of, h1. destruct (decide (lo = mg_from m)) as [->|]; [by rewrite lookup_insert_eq, Ho|].
    by rewrite !lookup_insert_ne by set_solver. }
  assert (data_of h1 <$> merged_into l ms = data_of h <$> merged_into l ms) as ->.
  { unfold merged_into. rewrite <-!list_fmap_compose. apply list_fmap_ext. intros i x Hx. apply Hsrc.
    apply list_elem_of_lookup_2, list_elem_of_filter in Hx as [_ Hx]. rewrite Forall_forall in Hms. by apply Hms. }
  unfold merged_into. rewrite filter_cons. destruct (decide (mg_into m = l)) as [<-|Hlm].
  - cbn [fmap list_fmap foldl]. f_equal. unfold data_of, h1. rewrite lookup_insert_ne, lookup_insert_eq, Hs, Ho by done. exact Hd.
  - f_equal. unfold data_of, h1. by rewrite !lookup_insert_ne by set_solver.
Qed.

(** Of the entries of a key the merge keeps one with the latest timestamp. *)
Lemma lww_fold_latest (ds : list (gmap gostring crdtValue)) d k :
  (∀ u, foldl lww_merge d ds !! k = Some u → ∃ d', d' ∈ d :: ds ∧ d' !! k = Some u) ∧
  (∀ d' v, d' ∈ d :: ds → d' !! k = Some v → ∃ u, foldl lww_merge d ds !! k = Some u ∧ cv_ts v ≤ cv_ts u).
Proof.
  revert d; induction ds as [|e ds IH]; intros d; cbn [foldl].
  { split; [intros u Hu; exists d; by split; [left|]|]. intros d' v ->%list_elem_of_singleton Hv. exists v. split; [done|lia]. }
  destruct (IH (lww_merge d e)) as [H1 H2].
  assert (∀ d' v, d' = d ∨ d' = e → d' !! k = Some v → ∃ w, lww_merge d e !! k = Some w ∧ cv_ts v ≤ cv_ts w) as Hstep.
  { intros d' v Hd Hv. unfold lww_merge. rewrite lookup_union_with. unfold lww.
    destruct (d !! k) as [a|] eqn:Ea, (e !! k) as [b|] eqn:Eb; cbn [union_with option_union_with];
      [destruct (Z.ltb_spec (cv_ts a) (cv_ts b))|..]; destruct Hd as [-> | ->]; simplify_eq; eexists; (split; [reflexivity|lia]). }
  split.
  - intros u Hu. destruct (H1 u Hu) as (d' & Hd' & Hk). apply elem_of_cons in Hd' as [->|Hd']; [|exists d'; split; [set_solver|done]].
    unfold lww_merge in Hk. rewrite lookup_union_with in Hk. unfold lww in Hk.
    destruct (d !! k) as [a|] eqn:Ea, (e !! k) as [b|] eqn:Eb; simplify_eq/=;
      [destruct (cv_ts a <? cv_ts b)|..]; simplify_eq; ((exists d; split; [set_solver|done]) || (exists e; split; [set_solver|done])).
  - intros d' v Hd' Hv. assert ((d' = d ∨ d' = e) ∨ d' ∈ ds) as [Hd|Hd] by set_solver.
    + destruct (Hstep d' v Hd Hv) as (w & Hw & Hle). destruct (H2 _ w ltac:(by left) Hw) as (u & Hu & Hle'). exists u. split; [done|lia].
    + apply (H2 d' v); [by right|done].
Qed.

(** ** Theorems *)

(** Every sequence of Store calls on a new CRDTStore returns and
    answers what one pair of maps would answer (timestamps are invisible to
    the Store interface). *)
Theorem crdt_refines (os : list store_op) :
  ∃ s', store_run os NewCRDTStore = Ret (s', (kv_run os kv_empty).2) ∧
        CRDTStore_abs s' = (kv_run os kv_empty).1.
Proof.
  destruct (store_refines os NewCRDTStore) as (s' & Hr & _ & Ha); [done|]. simpl in Hr, Ha.
  assert (CRDTStore_abs NewCRDTStore = kv_empty) as E by (unfold CRDTStore_abs; simpl; by rewrite fmap_empty).
  rewrite E in Hr, Ha. by exists s'.
Qed.

(** Merge of another store keeps, for every key and in every iteration
    order, the value with the larger timestamp (its own on a tie), lets the
    other store's hash fields win, and moves the clock past every timestamp
    it has seen; the other store's contents are untouched. *)
Theorem crdt_merge_lww (h : gmap nat CRDTStore) (l lo : nat) (s o : CRDTStore) entries hentries :
  l ≠ lo → h !! l = Some s → h !! lo = Some o →
  cr_mu s = unlocked → rw_writer (cr_mu o) = false →
  entries ≡ₚ map_to_list (cr_data o) → hentries ≡ₚ map_to_list (cr_hashes o) →
  ∃ s' o', CRDTStore_Merge l lo entries hentries h = Ret (<[lo := o']> (<[l := s']> h)) ∧
    cr_data o' = cr_data o ∧ cr_hashes o' = cr_hashes o ∧
    (∀ k, cr_data s' !! k =
      match cr_data s !! k, cr_data o !! k with
      | Some a, Some b => Some (if cv_ts a <? cv_ts b then b else a)
      | Some a, None => Some a
      | None, r => r
      end) ∧
    (∀ hk f, hash_get hk f (cr_hashes s') =
      match hash_get hk f (cr_hashes o) with Some v => Some v | None => hash_get hk f (cr_hashes s) end) ∧
    cr_clock s ≤ cr_clock s' ∧ (∀ k v, cr_data o !! k = Some v → cv_ts v ≤ cr_clock s').
Proof.
  intros Hne Hs Ho Hsu Hou He Hh.
  destruct (Merge_store h l lo s o entries hentries Hne Hs Ho Hsu Hou He Hh)
    as (s' & Hm & _ & Hd & Hhs & Hc1 & Hc2).
  exists s', (leak_reader o). split_and!; try done.
  - intros k. rewrite Hd. unfold lww_merge. rewrite lookup_union_with.
    by destruct (cr_data s !! k), (cr_data o !! k).
  - intros hk f. rewrite Hhs. unfold hash_get, hash_merge. rewrite lookup_union_with.
    destruct (cr_hashes s !! hk) as [m1|], (cr_hashes o !! hk) as [m2|]; simpl; try done.
    + rewrite lookup_union. by destruct (m2 !! f), (m1 !! f).
    + by destruct (m2 !! f).
Qed.

Definition crdt_demo_a : CRDTStore :=
  mkCRDTStore {[ str "a" := mkCrdt (str "from-a") 1; str "b" := mkCrdt (str "from-a") 2 ]} ∅ 2 unlocked.
Definition crdt_demo_b : CRDTStore :=
  mkCRDTStore {[ str "b" := mkCrdt (str "from-b") 3 ]} {[ str "h" := {[ str "f" := str "v" ]} ]} 3 unlocked.
Definition crdt_demo_heap : gmap nat CRDTStore := {[ 0%nat := crdt_demo_a; 1%nat := crdt_demo_b ]}.

Lemma crdt_merge_lww_witness :
  ∃ s' o', CRDTStore_Merge 0 1 (map_to_list (cr_data crdt_demo_b)) (map_to_list (cr_hashes crdt_demo_b)) crdt_demo_heap
      = Ret (<[1%nat := o']> (<[0%nat := s']> crdt_demo_heap)) ∧
    cr_data s' !! str "b" = Some (mkCrdt (str "from-b") 3).
Proof.
  destruct (crdt_merge_lww crdt_demo_heap 0 1 crdt_demo_a crdt_demo_b
    (map_to_list (cr_data crdt_demo_b)) (map_to_list (cr_hashes crdt_demo_b)))
    as (s' & o' & Hm & _ & _ & Hd & _); try reflexivity; [lia|].
  exists s', o'. split; [exact Hm|]. rewrite Hd. vm_compute. reflexivity.
Defined.

(** Merge leaks a read lock of the other store: after it returned,
    every method that writes the other store, and every merge of data back
    into it, blocks for ever. *)
Theorem crdt_merge_leaks_lock (h : gmap nat CRDTStore) (l lo : nat) (s o : CRDTStore) entries hentries :
  l ≠ lo → h !! l = Some s → h !! lo = Some o →
  cr_mu s = unlocked → cr_mu o = unlocked →
  entries ≡ₚ map_to_list (cr_data o) → hentries ≡ₚ map_to_list (cr_hashes o) →
  ∃ h' o', CRDTStore_Merge l lo entries hentries h = Ret h' ∧ h' !! lo = Some o' ∧
    (∀ k v, CRDTStore_Set k v o' = Deadlock) ∧ (∀ k, CRDTStore_Del k o' = Deadlock) ∧
    (∀ hk k v, CRDTStore_HSet hk k v o' = Deadlock) ∧
    (∀ k v ts, CRDTStore_SetWithTS k v ts o' = Deadlock) ∧
    (∀ e es hes, CRDTStore_Merge lo l (e :: es) hes h' = Deadlock).
Proof.
  intros Hne Hs Ho Hsu Hou He Hh.
  destruct (Merge_store h l lo s o entries hentries Hne Hs Ho Hsu) as (s' & Hm & Hu' & _); [by rewrite Hou|done|done|].
  eexists _, (leak_reader o). split; [done|]. split; [by rewrite lookup_insert_eq|].
  assert (∀ f, locked f (leak_reader o) = Deadlock) as Hb by (intros; by apply locked_blocked).
  split_and!; try (intros; apply Hb).
  intros e es hes. unfold CRDTStore_Merge.
  erewrite (on_store_ret l); [|by rewrite lookup_insert_ne, lookup_insert_eq|unfold with_mu; by rewrite Hu'].
  cbn [mbind go_bind go_foldl].
  erewrite (on_store_block lo); [done|by rewrite lookup_insert_ne, lookup_insert_eq|apply Hb].
Qed.

Lemma crdt_merge_leaks_lock_witness :
  ∃ h' o', CRDTStore_Merge 0 1 (map_to_list (cr_data crdt_demo_b)) (map_to_list (cr_hashes crdt_demo_b)) crdt_demo_heap
      = Ret h' ∧ h' !! 1%nat = Some o' ∧ CRDTStore_Set (str "x") (str "y") o' = Deadlock.
Proof.
  destruct (crdt_merge_leaks_lock crdt_demo_heap 0 1 crdt_demo_a crdt_demo_b
    (map_to_list (cr_data crdt_demo_b)) (map_to_list (cr_hashes crdt_demo_b)))
    as (h' & o' & Hm & Ho & Hset & _); try reflexivity; [lia|].
  exists h', o'. split; [exact Hm|]. split; [exact Ho|]. apply Hset.
Defined.

(** C36: Replicas that have merged the same stores converge on the string keys.
    Two stores start with the same strings (two new ones, say) and merge
    other stores, in one run and in any order, each of them any number of
    times; when both have merged the same stores they hold the same entries,
    and no entry they saw is lost to an older one.  No key has one timestamp
    with two different values; and no store that was merged from is merged
    into, since a merge leaves it read-locked. *)
Theorem crdt_merge_converges (h : gmap nat CRDTStore) (l1 l2 : nat) (ms : list merge_call) :
  free h l1 → free h l2 → data_of h l1 = data_of h l2 → Forall (merge_ok {[l1; l2]} h) ms →
  (∀ lo, lo ∈ merged_into l1 ms ↔ lo ∈ merged_into l2 ms) →
  (∀ x y k a b, x ∈ l1 :: merged_into l1 ms → y ∈ l1 :: merged_into l1 ms →
    data_of h x !! k = Some a → data_of h y !! k = Some b → cv_ts a = cv_ts b → a = b) →
  ∃ h' s1 s2, merge_run ms h = Ret h' ∧ h' !! l1 = Some s1 ∧ h' !! l2 = Some s2 ∧ cr_data s1 = cr_data s2 ∧
    ∀ x k v, x ∈ l1 :: merged_into l1 ms → data_of h x !! k = Some v → ∃ u, cr_data s1 !! k = Some u ∧ cv_ts v ≤ cv_ts u.
Proof.
  intros F1 F2 H0 Hms Hsame Htie. destruct (merge_run_data {[l1; l2]} ms h) as (h' & E & H'); [set_solver|done|].
  destruct (H' l1) as [(s1 & Hs1 & _) D1]; [set_solver|]. destruct (H' l2) as [(s2 & Hs2 & _) D2]; [set_solver|].
  unfold data_of at 1 in D1. rewrite Hs1 in D1. unfold data_of at 1 in D2. rewrite Hs2 in D2. cbn in D1, D2.
  exists h', s1, s2. split_and!; [done..| |].
  - apply map_eq. intros k. rewrite D1, D2, <-H0.
    destruct (lww_fold_latest (data_of h <$> merged_into l1 ms) (data_of h l1) k) as [A1 B1].
    destruct (lww_fold_latest (data_of h <$> merged_into l2 ms) (data_of h l1) k) as [A2 B2].
    assert (∀ d, d ∈ data_of h l1 :: (data_of h <$> merged_into l2 ms) → ∃ x, x ∈ l1 :: merged_into l1 ms ∧ d = data_of h x) as Hin.
    { intros d [->|(x & -> & Hx)%list_elem_of_fmap]%elem_of_cons; [exists l1; set_solver|]. exists x. rewrite <-Hsame in Hx. set_solver. }
    assert (∀ d, d ∈ data_of h l1 :: (data_of h <$> merged_into l1 ms) ↔ d ∈ data_of h l1 :: (data_of h <$> merged_into l2 ms)) as Heq.
    { intros d. rewrite !elem_of_cons, !list_elem_of_fmap. by setoid_rewrite Hsame. }
    destruct (foldl _ _ (data_of h <$> merged_into l1 ms) !! k) as [u1|] eqn:E1, (foldl _ _ (data_of h <$> merged_into l2 ms) !! k) as [u2|] eqn:E2; [| | |done].
    + destruct (A1 u1 eq_refl) as (d1 & Hd1 & Hk1). destruct (A2 u2 eq_refl) as (d2 & Hd2 & Hk2).
      destruct (B2 d1 u1) as (? & [= <-] & L1); [by apply Heq|done|]. destruct (B1 d2 u2) as (? & [= <-] & L2); [by apply Heq|done|].
      apply Heq, Hin in Hd1 as (x & Hx & ->). apply Hin in Hd2 as (y & Hy & ->). f_equal. apply (Htie x y k); [done..|lia].
    + destruct (A1 u1 eq_refl) as (d1 & Hd1 & Hk1). destruct (B2 d1 u1) as (? & ? & _); [by apply Heq|done..].
    + destruct (A2 u2 eq_refl) as (d2 & Hd2 & Hk2). destruct (B1 d2 u2) as (? & ? & _); [by apply Heq|done..].
  - intros x k v Hx Hv. rewrite D1. apply (proj2 (lww_fold_latest _ _ k) (data_of h x)); [|done].
    apply elem_of_cons in Hx as [->|Hx]; [by left|]. right. by apply list_elem_of_fmap_2.
Qed.

(** Two new stores that merge [a] and [b] in opposite orders. *)
Definition merge_of (h : gmap nat CRDTStore) (l lo : nat) : merge_call :=
  mkMerge l lo (map_to_list (data_of h lo)) (map_to_list (default ∅ (cr_hashes <$> h !! lo))).
Definition fan_heap (a b : CRDTStore) : gmap nat CRDTStore := {[ 0%nat := a; 1%nat := b; 2%nat := NewCRDTStore; 3%nat := NewCRDTStore ]}.
Definition fan_calls (h : gmap nat CRDTStore) : list merge_call := [merge_of h 2 0; merge_of h 3 1; merge_of h 2 1; merge_of h 3 0].

Lemma fan_ok a b :
  cr_mu a = unlocked → cr_mu b = unlocked →
  (∀ l, l ∈ ({[2%nat; 3%nat]} : gset nat) → free (fan_heap a b) l) ∧ Forall (merge_ok {[2%nat; 3%nat]} (fan_heap a b)) (fan_calls (fan_heap a b)).
Proof.
  intros Ha Hb. split.
  - intros l Hl. assert (l = 2%nat ∨ l = 3%nat) as [-> | ->] by set_solver; by exists NewCRDTStore.
  - assert (∀ l lo o, l ∈ ({[2%nat; 3%nat]} : gset nat) → lo ∉ ({[2%nat; 3%nat]} : gset nat) → fan_heap a b !! lo = Some o → cr_mu o = unlocked →
      merge_ok {[2%nat; 3%nat]} (fan_heap a b) (merge_of (fan_heap a b) l lo)) as H.
    { intros l lo o Hl Hlo Ho Hu. split; [done|]. split; [done|]. exists o. unfold merge_of, data_of. cbn [mg_from mg_entries mg_hentries].
      rewrite Ho. by rewrite Hu. }
    repeat constructor; eapply H; try done; set_solver.
Qed.

Lemma crdt_merge_converges_witness :
  let h := fan_heap crdt_demo_a crdt_demo_b in
  ∃ h' s1 s2, merge_run (fan_calls h) h = Ret h' ∧ h' !! 2%nat = Some s1 ∧ h' !! 3%nat = Some s2 ∧ cr_data s1 = cr_data s2.
Proof.
  intros h. destruct (fan_ok crdt_demo_a crdt_demo_b eq_refl eq_refl) as [Hf Hok].
  destruct (crdt_merge_converges h 2 3 (fan_calls h)) as (h' & s1 & s2 & H1 & H2 & H3 & H4 & _).
  - apply Hf. set_solver.
  - apply Hf. set_solver.
  - reflexivity.
  - exact Hok.
  - intros lo. change (merged_into 2 (fan_calls h)) with [0; 1]%nat. change (merged_into 3 (fan_calls h)) with [1; 0]%nat. set_solver.
  - intros x y k a b. change (merged_into 2 (fan_calls h)) with [0; 1]%nat. rewrite !elem_of_cons, !elem_of_nil.
    assert (∀ z v, z = 2%nat ∨ z = 0%nat ∨ z = 1%nat ∨ False → data_of h z !! k = Some v →
      v = if decide (z = 1%nat) then mkCrdt (str "from-b") 3 else mkCrdt (str "from-a") (if decide (k = str "a") then 1 else 2)) as Hv.
    { intros z v [->|[->|[->|[]]]].
      - change (data_of h 2) with (∅ : gmap gostring crdtValue). by rewrite lookup_empty.
      - change (data_of h 0) with (cr_data crdt_demo_a). unfold crdt_demo_a. cbn [cr_data].
        destruct (decide (k = str "a")) as [->|Hk]; [rewrite lookup_insert_eq; by intros [= <-]|].
        rewrite lookup_insert_ne by done. intros [_ <-]%lookup_singleton_Some. done.
      - change (data_of h 1) with (cr_data crdt_demo_b). unfold crdt_demo_b. cbn [cr_data]. by intros [_ <-]%lookup_singleton_Some. }
    intros Hx Hy Ha Hb. rewrite (Hv x a Hx Ha), (Hv y b Hy Hb). repeat case_decide; simpl; by intros.
  - exists h', s1, s2. by repeat split.
Defined.

(** On a tie the replicas do NOT converge: two new stores that each set
    one key once carry timestamp 1 for it, and two further stores that merge
    both in opposite orders keep different values. *)
Theorem crdt_tie_diverges (k v1 v2 : gostring) :
  ∃ a b h' s1 s2, CRDTStore_Set k v1 NewCRDTStore = Ret a ∧ CRDTStore_Set k v2 NewCRDTStore = Ret b ∧
    merge_run (fan_calls (fan_heap a b)) (fan_heap a b) = Ret h' ∧ h' !! 2%nat = Some s1 ∧ h' !! 3%nat = Some s2 ∧
    CRDTStore_Get k s1 = Ret (Some v1) ∧ CRDTStore_Get k s2 = Ret (Some v2).
Proof.
  set (fresh v := mkCRDTStore {[ k := mkCrdt v 1 ]} ∅ 1 unlocked). exists (fresh v1), (fresh v2).
  set (h := fan_heap (fresh v1) (fresh v2)). destruct (fan_ok (fresh v1) (fresh v2) eq_refl eq_refl) as [Hf Hok].
  destruct (merge_run_data {[2%nat; 3%nat]} (fan_calls h) h Hf Hok) as (h' & E & H').
  destruct (H' 2%nat) as [(s1 & Hs1 & U1) D1]; [set_solver|]. destruct (H' 3%nat) as [(s2 & Hs2 & U2) D2]; [set_solver|].
  unfold data_of at 1 in D1. rewrite Hs1 in D1. unfold data_of at 1 in D2. rewrite Hs2 in D2.
  exists h', s1, s2. split_and!; [done..| |]; unfold CRDTStore_Get; rewrite rlocked_ret by done.
  - change (cr_data s1 = lww_merge (lww_merge ∅ {[ k := mkCrdt v1 1 ]}) {[ k := mkCrdt v2 1 ]}) in D1. rewrite D1.
    unfold lww_merge. by rewrite !lookup_union_with, !lookup_singleton_eq, lookup_empty.
  - change (cr_data s2 = lww_merge (lww_merge ∅ {[ k := mkCrdt v2 1 ]}) {[ k := mkCrdt v1 1 ]}) in D2. rewrite D2.
    unfold lww_merge. by rewrite !lookup_union_with, !lookup_singleton_eq, lookup_empty.
Qed.

(** A local write made after a merge wins over everything that merge
    brought in: merging the same store again keeps the new value, as long as
    the 64-bit clock does not wrap around. *)
Theorem crdt_set_after_merge_wins (h : gmap nat CRDTStore) (l lo : nat) (s o : CRDTStore) es hes es2 hes2 k v :
  l ≠ lo → h !! l = Some s → h !! lo = Some o → cr_mu s = unlocked → cr_mu o = unlocked →
  es ≡ₚ map_to_list (cr_data o) → hes ≡ₚ map_to_list (cr_hashes o) →
  es2 ≡ₚ map_to_list (cr_data o) → hes2 ≡ₚ map_to_list (cr_hashes o) →
  ∃ h1 s1, CRDTStore_Merge l lo es hes h = Ret h1 ∧ h1 !! l = Some s1 ∧
    (0 ≤ cr_clock s1 < 2 ^ 64 - 1 →
     ∃ h2 h3 s3, on_store l (CRDTStore_Set k v) h1 = Ret h2 ∧
       CRDTStore_Merge l lo es2 hes2 h2 = Ret h3 ∧ h3 !! l = Some s3 ∧
       CRDTStore_Get k s3 = Ret (Some v)).
Proof.
  intros Hne Hs Ho Hsu Hou He Hh He2 Hh2.
  destruct (Merge_store h l lo s o es hes Hne Hs Ho Hsu) as (s1 & Hm & Hu1 & _ & _ & _ & Hts);
    [by rewrite Hou|done..|].
  eexists _, s1. split; [done|]. split; [by rewrite lookup_insert_ne, lookup_insert_eq|]. intros Hc.
  set (h1 := <[lo := leak_reader o]> (<[l := s1]> h)).
  set (s2 := mkCRDTStore (<[k := mkCrdt v (cr_clock s1 + 1)]> (cr_data s1)) (cr_hashes s1) (cr_clock s1 + 1) unlocked).
  assert (CRDTStore_Set k v s1 = Ret s2) as Hset.
  { unfold CRDTStore_Set. rewrite locked_ret by done. unfold nextTS. rewrite wrap_small by lia. by rewrite Hu1. }
  assert (h1 !! l = Some s1) as Hl1 by (unfold h1; by rewrite lookup_insert_ne, lookup_insert_eq).
  destruct (Merge_store (<[l := s2]> h1) l lo s2 (leak_reader o) es2 hes2) as (s3 & Hm3 & Hu3 & Hd3 & _);
    [done|by rewrite lookup_insert_eq|unfold h1; by rewrite lookup_insert_ne, lookup_insert_eq|done|simpl; by rewrite Hou|done|done|].
  eexists _, _, s3. split; [by eapply on_store_ret|]. split; [done|].
  split; [by rewrite lookup_insert_ne, lookup_insert_eq|].
  unfold CRDTStore_Get. rewrite rlocked_ret by done. rewrite Hd3. unfold lww_merge.
  rewrite lookup_union_with. simpl. rewrite lookup_insert_eq.
  destruct (cr_data o !! k) as [b|] eqn:Eb; simpl; [|done].
  unfold lww. simpl. specialize (Hts k b Eb). by destruct (Z.ltb_spec (cr_clock s1 + 1) (cv_ts b)); [lia|].
Qed.

Lemma crdt_set_after_merge_wins_witness :
  ∃ h1 s1, CRDTStore_Merge 0 1 (map_to_list (cr_data crdt_demo_b)) (map_to_list (cr_hashes crdt_demo_b)) crdt_demo_heap = Ret h1 ∧
    h1 !! 0%nat = Some s1 ∧
    (0 ≤ cr_clock s1 < 2 ^ 64 - 1 →
     ∃ h2 h3 s3, on_store 0 (CRDTStore_Set (str "b") (str "new")) h1 = Ret h2 ∧
       CRDTStore_Merge 0 1 (map_to_list (cr_data crdt_demo_b)) (map_to_list (cr_hashes crdt_demo_b)) h2 = Ret h3 ∧
       h3 !! 0%nat = Some s3 ∧ CRDTStore_Get (str "b") s3 = Ret (Some (str "new"))).
Proof.
  apply (crdt_set_after_merge_wins crdt_demo_heap 0 1 crdt_demo_a crdt_demo_b); try reflexivity. lia.
Defined.

(** A deletion does not survive a merge: [Del] leaves no trace, so merging
    a replica that still has the key brings its value back, however old. *)
Theorem crdt_delete_resurrected (h : gmap nat CRDTStore) (l lo : nat) (s o : CRDTStore) es hes k b :
  l ≠ lo → h !! l = Some s → h !! lo = Some o → cr_mu s = unlocked → cr_mu o = unlocked →
  es ≡ₚ map_to_list (cr_data o) → hes ≡ₚ map_to_list (cr_hashes o) → cr_data o !! k = Some b →
  ∃ h1 s1 h2 s2, on_store l (CRDTStore_Del k) h = Ret h1 ∧ h1 !! l = Some s1 ∧ CRDTStore_Get k s1 = Ret None ∧
    CRDTStore_Merge l lo es hes h1 = Ret h2 ∧ h2 !! l = Some s2 ∧ CRDTStore_Get k s2 = Ret (Some (cv_value b)).
Proof.
  intros Hne Hs Ho Hsu Hou He Hh Hk.
  set (s1 := mkCRDTStore (delete k (cr_data s)) (delete k (cr_hashes s)) (cr_clock s) unlocked).
  assert (CRDTStore_Del k s = Ret s1) as Hdel by (unfold CRDTStore_Del; rewrite locked_ret by done; by rewrite Hsu).
  destruct (Merge_store (<[l := s1]> h) l lo s1 o es hes) as (s2 & Hm & Hu2 & Hd2 & _);
    [done|by rewrite lookup_insert_eq|by rewrite lookup_insert_ne|done|by rewrite Hou|done|done|].
  eexists _, s1, _, s2. split; [by eapply on_store_ret|]. split; [by rewrite lookup_insert_eq|].
  split; [unfold CRDTStore_Get; rewrite rlocked_ret by done; simpl; by rewrite lookup_delete_eq|].
  split; [exact Hm|]. split; [by rewrite lookup_insert_ne, lookup_insert_eq|].
  unfold CRDTStore_Get. rewrite rlocked_ret by done. rewrite Hd2. unfold lww_merge. rewrite lookup_union_with.
  simpl. by rewrite lookup_delete_eq, Hk.
Qed.

Lemma crdt_delete_resurrected_witness :
  ∃ h1 s1 h2 s2, on_store 0 (CRDTStore_Del (str "b")) crdt_demo_heap = Ret h1 ∧ h1 !! 0%nat = Some s1 ∧
    CRDTStore_Get (str "b") s1 = Ret None ∧
    CRDTStore_Merge 0 1 (map_to_list (cr_data crdt_demo_b)) (map_to_list (cr_hashes crdt_demo_b)) h1 = Ret h2 ∧
    h2 !! 0%nat = Some s2 ∧ CRDTStore_Get (str "b") s2 = Ret (Some (str "from-b")).
Proof.
  apply (crdt_delete_resurrected crdt_demo_heap 0 1 crdt_demo_a crdt_demo_b _ _ (str "b") (mkCrdt (str "from-b") 3));
    try reflexivity. lia.
Defined.
