(* ===== verification/GoIO.v ===== *)
(** * GoIO: [os.File], [io.Reader] and [bufio.Reader] as the sources use them

    A file is its bytes and an offset; a stream of input is the list of
    segments its successive [Read] calls can deliver (a file is one segment,
    a connection one segment per arrival).  [bufio.Reader] keeps its 4096-byte
    buffer, since what it drops or truncates is visible to the program. *)

From stdpp Require Import base list gmap strings.
From Stdlib Require Import ZArith Lia.
From S2P Require Import Prelude GoLib.

(** ** [os.File]

    [f_room] is the space left on the disk: [None] for an unlimited one. A
    write that does not fit is partial and reports an error, as is any write
    after [Close]. *)
Record file := mkFile {
  f_data : list byte;
  f_pos : nat;
  f_room : option nat;
  f_closed : bool
}.

Definition write_at (data : list byte) (pos : nat) (b : list byte) : list byte :=
  take pos data ++ replicate (pos - length data) NUL ++ b ++ drop (pos + length b) data.

(** [f.Write(b)]: the file and whether an error was returned. *)
Definition file_Write (b : list byte) (f : file) : file * bool :=
  if f_closed f then (f, true) else
  let n := match f_room f with None => length b | Some r => Nat.min r (length b) end in
  (mkFile (write_at (f_data f) (f_pos f) (take n b)) (f_pos f + n)
     ((λ r, r - n) <$> f_room f) false,
   bool_decide (n < length b)).

Definition file_SeekStart (f : file) : file := mkFile (f_data f) 0 (f_room f) (f_closed f).
Definition file_SeekEnd (f : file) : file := mkFile (f_data f) (length (f_data f)) (f_room f) (f_closed f).
Definition file_Close (f : file) : file := mkFile (f_data f) (f_pos f) (f_room f) true.
(** [os.OpenFile(path, O_CREATE|O_RDWR)] of a file with these bytes: offset 0. *)
Definition file_Open (data : list byte) (room : option nat) : file := mkFile data 0 room false.

Lemma write_at_end data b : write_at data (length data) b = data ++ b.
Proof.
  unfold write_at. rewrite take_ge, Nat.sub_diag, drop_ge by lia. simpl. by rewrite app_nil_r.
Qed.

Lemma file_Write_end f b :
  f_pos f = length (f_data f) → f_room f = None → f_closed f = false →
  file_Write b f = (mkFile (f_data f ++ b) (length (f_data f ++ b)) None false, false).
Proof.
  intros Hp Hr Hc. unfold file_Write. rewrite Hr, Hc, Hp.
  rewrite firstn_all, write_at_end, length_app. simpl.
  rewrite bool_decide_eq_false_2 by lia. done.
Qed.

(** [f.ReadAt(buf, pos)] with [len(buf) = n]: [None] when it returns an error,
    that is, when fewer than [n] bytes are there. *)
Definition file_ReadAt (n pos : nat) (data : list byte) : option (list byte) :=
  if decide (pos + n ≤ length data) then Some (take n (drop pos data)) else None.

(** ** Streams of input *)
Abbreviation stream := (list (list byte)).

Fixpoint stream_size (s : stream) : nat :=
  match s with [] => 0 | seg :: s' => length seg + stream_size s' end.

(** One [Read] of at most [n] bytes; [None] at end of file. An empty segment
    is no delivery and is skipped. *)
Fixpoint stream_Read (n : nat) (s : stream) : option (list byte * stream) :=
  match s with
  | [] => None
  | [] :: s' => stream_Read n s'
  | seg :: s' => Some (take n seg, drop n seg :: s')
  end.

Lemma stream_Read_size n s b s' :
  stream_Read n s = Some (b, s') → n ≠ 0 →
  b ≠ [] ∧ stream_size s = length b + stream_size s'.
Proof.
  intros H Hn. revert H. induction s as [|[|x seg] s IH]; intros H; simpl in *; [done|auto|].
  simplify_eq. destruct n as [|n]; [done|]. simpl. split; [done|].
  pose proof (length_take seg n). pose proof (length_drop seg n). lia.
Qed.

(** ** [bufio.Reader] *)
Record Reader := mkReader { rbuf : list byte; rsrc : stream }.

Definition bufSize : nat := 4096.
Definition NewReader (s : stream) : Reader := mkReader [] s.
Definition rd_size (r : Reader) : nat := length (rbuf r) + stream_size (rsrc r).

(** [ReadByte]: fills an empty buffer first; [None] is io.EOF. *)
Definition ReadByte (r : Reader) : option (byte * Reader) :=
  match rbuf r with
  | b :: buf => Some (b, mkReader buf (rsrc r))
  | [] =>
      match stream_Read bufSize (rsrc r) with
      | Some (b :: buf, src) => Some (b, mkReader buf src)
      | _ => None
      end
  end.

(** [Read(p)] with [len(p) = n]: at most ONE read of the underlying stream,
    so it may return fewer than [n] bytes. *)
Definition bufio_Read (n : nat) (r : Reader) : list byte * Reader :=
  match n, rbuf r with
  | O, _ => ([], r)
  | _, [] =>
      if decide (bufSize ≤ n) then
        match stream_Read n (rsrc r) with
        | Some (b, src) => (b, mkReader [] src)
        | None => ([], r)
        end
      else
        match stream_Read bufSize (rsrc r) with
        | Some (b, src) => (take n b, mkReader (drop n b) src)
        | None => ([], r)
        end
  | _, buf => (take n buf, mkReader (drop n buf) (rsrc r))
  end.

Lemma ReadByte_size r b r' : ReadByte r = Some (b, r') → rd_size r = S (rd_size r').
Proof.
  unfold ReadByte, rd_size. destruct r as [[|x buf] src]; simpl; intros H; simplify_eq; [|done].
  destruct (stream_Read bufSize src) as [[[|y b'] src']|] eqn:E; simplify_eq. simpl.
  apply stream_Read_size in E as [_ E]; [|done]. simpl in E. lia.
Qed.

Lemma bufio_Read_size n r b r' : bufio_Read n r = (b, r') → rd_size r = length b + rd_size r'.
Proof.
  unfold bufio_Read, rd_size. destruct n as [|n]; [by intros; simplify_eq|].
  destruct r as [[|x buf] src]; simpl.
  - case_decide.
    + destruct (stream_Read (S n) src) as [[c src']|] eqn:E; intros; simplify_eq; simpl; [|done].
      apply stream_Read_size in E as [_ E]; lia.
    + destruct (stream_Read bufSize src) as [[c src']|] eqn:E; intros; simplify_eq; [|done].
      apply stream_Read_size in E as [_ E]; [|done]. cbn [rbuf rsrc].
      rewrite length_take, length_drop. lia.
  - intros; simplify_eq. cbn [rbuf rsrc length]. rewrite length_take, length_drop. lia.
Qed.

Lemma ReadByte_buffered b buf src : ReadByte (mkReader (b :: buf) src) = Some (b, mkReader buf src).
Proof. reflexivity. Qed.

Lemma bufio_Read_buffered p rest src n :
  length p = n → bufio_Read n (mkReader (p ++ rest) src) = (p, mkReader rest src).
Proof.
  intros <-. unfold bufio_Read. destruct p as [|x p]; [done|]. simpl.
  by rewrite take_app_length, drop_app_length.
Qed.
