(* ===== verification/Utf8.v ===== *)
(** * Utf8: the parts of unicode/utf8 and unicode/utf16 that encoding/json
    uses, for src/network/http.go

    Runes are integers.  [DecodeRune] and [EncodeRune] follow the library,
    the accept ranges of the second byte included; [utf8] describes valid
    text without the decoder. *)

From stdpp Require Import base list strings.
From Stdlib Require Import ZArith Lia Ascii.
From S2P Require Import Prelude GoLib.
Local Open Scope Z_scope.

Definition RuneError : Z := 65533.        (* U+FFFD *)
Definition surrogate (r : Z) : bool := (55296 <=? r) && (r <=? 57343).

(** A Unicode scalar value. *)
Definition scalar (r : Z) : Prop := 0 ≤ r ≤ 1114111 ∧ surrogate r = false.

(** [utf8.EncodeRune]: what is no scalar value is written as U+FFFD. *)
Definition EncodeRune (r : Z) : list byte :=
  let r := if (r <? 0) || surrogate r || (1114111 <? r) then RuneError else r in
  if r <=? 127 then [Zbyte r]
  else if r <=? 2047 then [Zbyte (192 + r / 64); Zbyte (128 + r mod 64)]
  else if r <=? 65535 then [Zbyte (224 + r / 4096); Zbyte (128 + r / 64 mod 64); Zbyte (128 + r mod 64)]
  else [Zbyte (240 + r / 262144); Zbyte (128 + r / 4096 mod 64); Zbyte (128 + r / 64 mod 64); Zbyte (128 + r mod 64)].

(** The table of first bytes: the length of the sequence and the range of
    the second byte. *)
Definition first_byte (b : Z) : option (nat * Z * Z) :=
  if b <? 194 then None
  else if b <=? 223 then Some (2%nat, 128, 191)
  else if b =? 224 then Some (3%nat, 160, 191)
  else if b =? 237 then Some (3%nat, 128, 159)
  else if b <=? 239 then Some (3%nat, 128, 191)
  else if b =? 240 then Some (4%nat, 144, 191)
  else if b <=? 243 then Some (4%nat, 128, 191)
  else if b =? 244 then Some (4%nat, 128, 143)
  else None.

Definition within (lo hi b : Z) : bool := (lo <=? b) && (b <=? hi).

(** [utf8.DecodeRune]: the first rune and its length; an invalid sequence is
    one byte long and counts as U+FFFD. *)
Definition DecodeRune (s : list byte) : Z * nat :=
  match byteZ <$> s with
  | [] => (RuneError, 0%nat)
  | b0 :: t =>
      if b0 <? 128 then (b0, 1%nat) else
      match first_byte b0, t with
      | Some (2%nat, lo, hi), b1 :: _ =>
          if within lo hi b1 then ((b0 - 192) * 64 + (b1 - 128), 2%nat) else (RuneError, 1%nat)
      | Some (3%nat, lo, hi), b1 :: b2 :: _ =>
          if within lo hi b1 && within 128 191 b2
          then ((b0 - 224) * 4096 + (b1 - 128) * 64 + (b2 - 128), 3%nat) else (RuneError, 1%nat)
      | Some (4%nat, lo, hi), b1 :: b2 :: b3 :: _ =>
          if within lo hi b1 && within 128 191 b2 && within 128 191 b3
          then ((b0 - 240) * 262144 + (b1 - 128) * 4096 + (b2 - 128) * 64 + (b3 - 128), 4%nat) else (RuneError, 1%nat)
      | _, _ => (RuneError, 1%nat)
      end
  end.

(** The result says that the first byte starts no valid sequence. *)
Definition invalid (d : Z * nat) : bool := (d.1 =? RuneError) && (d.2 =? 1)%nat.

(** Valid text. *)
Inductive utf8 : list byte → Prop :=
| utf8_nil : utf8 []
| utf8_cons r s : scalar r → utf8 s → utf8 (EncodeRune r ++ s).

(** [utf16.DecodeRune]: a high and a low surrogate, or U+FFFD. *)
Definition utf16_DecodeRune (r1 r2 : Z) : Z :=
  if within 55296 56319 r1 && within 56320 57343 r2
  then (r1 - 55296) * 1024 + (r2 - 56320) + 65536 else RuneError.

(** ** Lemmas *)
Lemma within_iff lo hi b : within lo hi b = true ↔ lo ≤ b ≤ hi.
Proof. unfold within. lia. Qed.

(** Writing out [EncodeRune] by the size of the rune. *)
Lemma EncodeRune_scalar r :
  scalar r →
  (r ≤ 127 ∧ EncodeRune r = [Zbyte r]) ∨
  (128 ≤ r ≤ 2047 ∧ EncodeRune r = [Zbyte (192 + r / 64); Zbyte (128 + r mod 64)]) ∨
  (2048 ≤ r ≤ 65535 ∧ EncodeRune r = [Zbyte (224 + r / 4096); Zbyte (128 + r / 64 mod 64); Zbyte (128 + r mod 64)]) ∨
  (65536 ≤ r ∧ EncodeRune r =
     [Zbyte (240 + r / 262144); Zbyte (128 + r / 4096 mod 64); Zbyte (128 + r / 64 mod 64); Zbyte (128 + r mod 64)]).
Proof.
  intros [Hr Hs]. unfold EncodeRune. rewrite Hs.
  rewrite (proj2 (Z.ltb_ge r 0)), (proj2 (Z.ltb_ge 1114111 r)) by lia. cbn [orb].
  destruct (Z.leb_spec r 127); [by left|]. destruct (Z.leb_spec r 2047); [right; left; split; [lia|done]|].
  destruct (Z.leb_spec r 65535); right; right; [left|right]; (split; [lia|done]).
Qed.

(** Every rune is written as some scalar value. *)
Lemma EncodeRune_valid r : ∃ r', scalar r' ∧ EncodeRune r = EncodeRune r'.
Proof.
  destruct ((r <? 0) || surrogate r || (1114111 <? r)) eqn:E.
  - exists RuneError. split; [by split|]. unfold EncodeRune. by rewrite E.
  - exists r. split; [|done]. apply orb_false_iff in E as [[? ?]%orb_false_iff ?]. split; [lia|done].
Qed.

Lemma EncodeRune_pos r : (0 < length (EncodeRune r))%nat.
Proof. unfold EncodeRune. repeat case_match; simpl; lia. Qed.

Lemma first_byte_2 b : 194 ≤ b ≤ 223 → first_byte b = Some (2%nat, 128, 191).
Proof. intros. unfold first_byte. by rewrite (proj2 (Z.ltb_ge b 194)), (proj2 (Z.leb_le b 223)) by lia. Qed.

Lemma first_byte_3 b :
  224 ≤ b ≤ 239 →
  first_byte b = Some (3%nat, if b =? 224 then 160 else 128, if b =? 237 then 159 else 191).
Proof.
  intros. unfold first_byte. rewrite (proj2 (Z.ltb_ge b 194)), (proj2 (Z.leb_gt b 223)), (proj2 (Z.leb_le b 239)) by lia.
  destruct (Z.eqb_spec b 224) as [->|]; [done|]. by destruct (Z.eqb_spec b 237).
Qed.

Lemma first_byte_4 b :
  240 ≤ b ≤ 244 →
  first_byte b = Some (4%nat, if b =? 240 then 144 else 128, if b =? 244 then 143 else 191).
Proof. intros. assert (b = 240 ∨ b = 241 ∨ b = 242 ∨ b = 243 ∨ b = 244) as [->|[->|[->|[->| ->]]]] by lia; done. Qed.

Lemma first_byte_Some b n lo hi :
  first_byte b = Some (n, lo, hi) →
  (n = 2%nat ∧ 194 ≤ b ≤ 223 ∧ lo = 128 ∧ hi = 191) ∨
  (n = 3%nat ∧ 224 ≤ b ≤ 239 ∧ lo = (if b =? 224 then 160 else 128) ∧ hi = (if b =? 237 then 159 else 191)) ∨
  (n = 4%nat ∧ 240 ≤ b ≤ 244 ∧ lo = (if b =? 240 then 144 else 128) ∧ hi = (if b =? 244 then 143 else 191)).
Proof.
  intros E. destruct (decide (194 ≤ b ≤ 223)); [rewrite first_byte_2 in E by done; naive_solver|].
  destruct (decide (224 ≤ b ≤ 239)); [rewrite first_byte_3 in E by done; naive_solver|].
  destruct (decide (240 ≤ b ≤ 244)); [rewrite first_byte_4 in E by done; naive_solver|].
  exfalso. unfold first_byte in E. repeat case_match; lia || done.
Qed.

(** Goals about the bits of a rune. *)
Ltac rune_lia :=
  repeat match goal with |- context [if ?a =? ?b then _ else _] => destruct (Z.eqb_spec a b) end;
  Z.div_mod_to_equations; lia.

(** Decoding what was encoded, whatever follows. *)
Lemma DecodeRune_EncodeRune r rest :
  scalar r → DecodeRune (EncodeRune r ++ rest) = (r, length (EncodeRune r)) ∧
             invalid (r, length (EncodeRune r)) = false.
Proof.
  intros Hs. pose proof Hs as [Hr Hsur]. unfold surrogate in Hsur.
  destruct (EncodeRune_scalar r Hs) as [[H ->]|[[H ->]|[[H ->]|[H ->]]]]; unfold invalid, DecodeRune;
    cbn [app fmap list_fmap length fst snd]; rewrite !byteZ_Zbyte, !Z.mod_small by rune_lia;
    (split; [|apply andb_false_iff; first [by right|left; unfold RuneError; lia]]).
  - by rewrite (proj2 (Z.ltb_lt _ _)) by lia.
  - rewrite (proj2 (Z.ltb_ge _ 128)) by rune_lia. rewrite first_byte_2 by rune_lia.
    rewrite (proj2 (within_iff _ _ _)) by rune_lia. f_equal. rune_lia.
  - rewrite (proj2 (Z.ltb_ge _ 128)) by rune_lia. rewrite first_byte_3 by rune_lia.
    rewrite !(proj2 (within_iff _ _ _)) by rune_lia. cbn [andb]. f_equal. rune_lia.
  - rewrite (proj2 (Z.ltb_ge _ 128)) by rune_lia. rewrite first_byte_4 by rune_lia.
    rewrite !(proj2 (within_iff _ _ _)) by rune_lia. cbn [andb]. f_equal. rune_lia.
Qed.

Lemma EncodeRune_bytes r l :
  scalar r → Forall2 (λ z b, z = byteZ b)
    (if r <=? 127 then [r]
     else if r <=? 2047 then [192 + r / 64; 128 + r mod 64]
     else if r <=? 65535 then [224 + r / 4096; 128 + r / 64 mod 64; 128 + r mod 64]
     else [240 + r / 262144; 128 + r / 4096 mod 64; 128 + r / 64 mod 64; 128 + r mod 64]) l → EncodeRune r = l.
Proof.
  intros [Hr Hs] Hl. unfold EncodeRune. rewrite Hs, (proj2 (Z.ltb_ge r 0)), (proj2 (Z.ltb_ge 1114111 r)) by lia. cbn [orb].
  repeat case_match; repeat (apply Forall2_cons_inv_l in Hl as (? & ? & -> & Hl & ->));
    apply Forall2_nil_inv_l in Hl as ->; by rewrite ?Zbyte_byteZ.
Qed.

(** A rune that was decoded is the encoded one at the head of the text. *)
Lemma DecodeRune_valid s :
  s ≠ [] → invalid (DecodeRune s) = false →
  ∃ r rest, scalar r ∧ s = EncodeRune r ++ rest ∧ DecodeRune s = (r, length (EncodeRune r)).
Proof.
  intros Hne Hv. assert (∃ r l rest, scalar r ∧ s = l ++ rest ∧ EncodeRune r = l) as (r & l & rest & Hr & -> & <-).
  2:{ exists r, rest. split; [done|]. split; [done|]. by apply DecodeRune_EncodeRune. }
  destruct s as [|a0 s]; [done|]. clear Hne. unfold invalid, DecodeRune in Hv. cbn [fmap list_fmap] in Hv.
  pose proof (byteZ_range a0). destruct (Z.ltb_spec (byteZ a0) 128).
  { exists (byteZ a0), [a0], s. split; [split; [lia|unfold surrogate; lia]|]. split; [done|].
    apply EncodeRune_bytes; [split; [lia|unfold surrogate; lia]|]. rewrite (proj2 (Z.leb_le _ _)) by lia. by repeat constructor. }
  destruct (first_byte (byteZ a0)) as [[[n lo] hi]|] eqn:E; [|done].
  apply first_byte_Some in E as [(-> & Hb & -> & ->)|[(-> & Hb & -> & ->)|(-> & Hb & -> & ->)]].
  - destruct s as [|a1 s]; [done|]. cbn [fmap list_fmap] in Hv.
    destruct (within _ _ (byteZ a1)) eqn:W1; [|done]. apply within_iff in W1.
    set (r := (byteZ a0 - 192) * 64 + (byteZ a1 - 128)). assert (scalar r) as Hr by (split; [lia|unfold surrogate; lia]).
    exists r, [a0; a1], s. split; [done|]. split; [done|]. apply EncodeRune_bytes; [done|].
    rewrite (proj2 (Z.leb_gt _ _)), (proj2 (Z.leb_le _ _)) by lia. subst r. repeat constructor; rune_lia.
  - destruct s as [|a1 [|a2 s]]; [done..|]. cbn [fmap list_fmap] in Hv.
    destruct (within _ _ (byteZ a1)) eqn:W1; [|done]. destruct (within _ _ (byteZ a2)) eqn:W2; [|done].
    apply within_iff in W1, W2. set (r := (byteZ a0 - 224) * 4096 + (byteZ a1 - 128) * 64 + (byteZ a2 - 128)).
    assert (2048 ≤ r ≤ 65535 ∧ surrogate r = false) as [Hr Hs].
    { subst r. unfold surrogate. destruct (Z.eqb_spec (byteZ a0) 224), (Z.eqb_spec (byteZ a0) 237); lia. }
    exists r, [a0; a1; a2], s. split; [split; [lia|done]|]. split; [done|]. apply EncodeRune_bytes; [split; [lia|done]|].
    rewrite !(proj2 (Z.leb_gt _ _)), (proj2 (Z.leb_le _ _)) by lia. clear Hr Hs Hv. subst r.
    repeat constructor; destruct (Z.eqb_spec (byteZ a0) 224), (Z.eqb_spec (byteZ a0) 237); rune_lia.
  - destruct s as [|a1 [|a2 [|a3 s]]]; [done..|]. cbn [fmap list_fmap] in Hv.
    destruct (within _ _ (byteZ a1)) eqn:W1; [|done]. destruct (within _ _ (byteZ a2)) eqn:W2; [|done].
    destruct (within _ _ (byteZ a3)) eqn:W3; [|done]. apply within_iff in W1, W2, W3.
    set (r := (byteZ a0 - 240) * 262144 + (byteZ a1 - 128) * 4096 + (byteZ a2 - 128) * 64 + (byteZ a3 - 128)).
    assert (65536 ≤ r ≤ 1114111) as Hr by (subst r; destruct (Z.eqb_spec (byteZ a0) 240), (Z.eqb_spec (byteZ a0) 244); lia).
    assert (scalar r) as Hs by (split; [lia|unfold surrogate; lia]).
    exists r, [a0; a1; a2; a3], s. split; [done|]. split; [done|]. apply EncodeRune_bytes; [done|].
    rewrite !(proj2 (Z.leb_gt _ _)) by lia. clear Hr Hs Hv. subst r.
    repeat constructor; destruct (Z.eqb_spec (byteZ a0) 240), (Z.eqb_spec (byteZ a0) 244); rune_lia.
Qed.
