(* ===== verification/Resp.v ===== *)
(** * Resp: the RESP wire format, src/resp/{value,writer,reader}.go

    [Value] with its serialiser [Marshal], and the parser [Resp_Read] over a
    [bufio.Reader].  The parser is written with fuel; [Resp_Read] supplies
    enough of it for every input ([resp_read_total]). *)

From stdpp Require Import base list gmap strings.
From Stdlib Require Import ZArith Lia Ascii.
From S2P Require Import Prelude GoLib GoIO.

(** ** Values *)

(** The [Type] constants; [TypeZero] is the empty string of [Value{}]. *)
Inductive vtype := TypeArray | TypeBulk | TypeString | TypeNull | TypeError | TypeInteger | TypeZero.

#[global] Instance vtype_eq_dec : EqDecision vtype.
Proof. solve_decision. Defined.

#[warnings="-register-all"]
Inductive Value := mkValue (v_Type : vtype) (v_Str : gostring) (v_Num : Z) (v_Bulk : gostring) (v_Array : list Value).

Definition v_Type (v : Value) : vtype := let 'mkValue t _ _ _ _ := v in t.
Definition v_Str (v : Value) : gostring := let 'mkValue _ s _ _ _ := v in s.
Definition v_Num (v : Value) : Z := let 'mkValue _ _ n _ _ := v in n.
Definition v_Bulk (v : Value) : gostring := let 'mkValue _ _ _ b _ := v in b.
Definition v_Array (v : Value) : list Value := let 'mkValue _ _ _ _ a := v in a.

Definition VZero : Value := mkValue TypeZero [] 0 [] [].
Definition VString (s : gostring) : Value := mkValue TypeString s 0 [] [].
Definition VError (s : gostring) : Value := mkValue TypeError s 0 [] [].
Definition VInteger (n : Z) : Value := mkValue TypeInteger [] n [] [].
Definition VBulk (b : gostring) : Value := mkValue TypeBulk [] 0 b [].
Definition VNull : Value := mkValue TypeNull [] 0 [] [].
Definition VArray (a : list Value) : Value := mkValue TypeArray [] 0 [] a.

(** ** Marshal *)
Definition STRING : byte := "+"%char.
Definition ERROR : byte := "-"%char.
Definition INTEGER : byte := ":"%char.
Definition BULK : byte := "$"%char.
Definition ARRAY : byte := "*"%char.
Definition CRLF : list byte := [CR; LF].

Definition marshalString (s : gostring) : list byte := [STRING] ++ s ++ CRLF.
Definition marshalBulk (b : gostring) : list byte :=
  [BULK] ++ Itoa (Z.of_nat (length b)) ++ CRLF ++ b ++ CRLF.
Definition marshallError (s : gostring) : list byte := [ERROR] ++ s ++ CRLF.
Definition marshallNull : list byte := str "$-1" ++ CRLF.
Definition marshalInteger (n : Z) : list byte := [INTEGER] ++ Itoa n ++ CRLF.
(** The number of elements and their bytes. *)
Definition marshalArray (n : nat) (items : list (list byte)) : list byte :=
  [ARRAY] ++ Itoa (Z.of_nat n) ++ CRLF ++ concat items.

Fixpoint Marshal (v : Value) : list byte :=
  match v with
  | mkValue t s n b a =>
      match t with
      | TypeArray => marshalArray (length a) (map Marshal a)
      | TypeBulk => marshalBulk b
      | TypeString => marshalString s
      | TypeNull => marshallNull
      | TypeError => marshallError s
      | TypeInteger => marshalInteger n
      | TypeZero => []
      end
  end.

(** ** The parser *)
Inductive rerr := EOF | NumError.

(** [len(line) >= 2 && line[len(line)-2] == '\r'] *)
Definition line_complete (line : list byte) : bool :=
  bool_decide (2 ≤ length line) && bool_decide (line !! (length line - 2) = Some CR).

Fixpoint readLine_loop (fuel : nat) (line : list byte) (r : Reader) : go (Reader * (rerr + list byte)) :=
  match fuel with
  | O => NoFuel
  | S f =>
      match ReadByte r with
      | None => Ret (r, inl EOF)
      | Some (b, r') =>
          let line' := line ++ [b] in
          if line_complete line'
          then Ret (r', inr (take (length line' - 2) line'))
          else readLine_loop f line' r'
      end
  end.

Definition readLine (r : Reader) : go (Reader * (rerr + list byte)) :=
  readLine_loop (S (rd_size r)) [] r.

Definition readInteger (r : Reader) : go (Reader * (rerr + Z)) :=
  '(r', l) ← readLine r;
  match l with
  | inl e => Ret (r', inl e)
  | inr line =>
      match ParseInt line with
      | None => Ret (r', inl NumError)
      | Some n => Ret (r', inr n)
      end
  end.

(** [make([]byte, n)] panics on a negative or impossible length (the address
    space of a 64-bit process has 2^48 bytes). *)
Definition maxAlloc : Z := 2 ^ 48.

Definition readBulk (r : Reader) : go (Reader * (rerr + Value)) :=
  '(r1, l) ← readInteger r;
  match l with
  | inl e => Ret (r1, inl e)
  | inr len =>
      if (len =? -1)%Z then Ret (r1, inr VNull)
      else if (len <? 0)%Z || (maxAlloc <? len)%Z then Panic
      else
        let '(got, r2) := bufio_Read (Z.to_nat len) r1 in
        let bulk := got ++ replicate (Z.to_nat len - length got) NUL in
        '(r3, _) ← readLine r2;
        Ret (r3, inr (VBulk bulk))
  end.

Definition readSimple (mk : gostring → Value) (r : Reader) : go (Reader * (rerr + Value)) :=
  '(r1, l) ← readLine r;
  match l with inl e => Ret (r1, inl e) | inr line => Ret (r1, inr (mk line)) end.

Definition readSimpleString : Reader → go (Reader * (rerr + Value)) := readSimple VString.
Definition readError : Reader → go (Reader * (rerr + Value)) := readSimple VError.

Definition readIntegerValue (r : Reader) : go (Reader * (rerr + Value)) :=
  '(r1, l) ← readInteger r;
  match l with inl e => Ret (r1, inl e) | inr n => Ret (r1, inr (VInteger n)) end.

(** The switch of [Read] on the type byte. *)
Definition read_switch (readArray : Reader → go (Reader * (rerr + Value))) (t : byte) (r : Reader) :
    go (Reader * (rerr + Value)) :=
  if bool_decide (t = ARRAY) then readArray r
  else if bool_decide (t = BULK) then readBulk r
  else if bool_decide (t = STRING) then readSimpleString r
  else if bool_decide (t = ERROR) then readError r
  else if bool_decide (t = INTEGER) then readIntegerValue r
  else Ret (r, inr VZero).

(** [Read], and [readArray] with its loop ([for range len]: no iteration when
    [len] is negative). *)
Fixpoint Read_fuel (fuel : nat) (r : Reader) : go (Reader * (rerr + Value)) :=
  match fuel with
  | O => NoFuel
  | S f =>
      match ReadByte r with
      | None => Ret (r, inl EOF)
      | Some (t, r0) =>
          read_switch (λ r0,
            '(r1, l) ← readInteger r0;
            match l with
            | inl e => Ret (r1, inl e)
            | inr len => readArray_loop f len [] r1
            end) t r0
      end
  end
with readArray_loop (fuel : nat) (len : Z) (acc : list Value) (r : Reader) :
    go (Reader * (rerr + Value)) :=
  match fuel with
  | O => NoFuel
  | S f =>
      if (len <=? 0)%Z then Ret (r, inr (VArray acc))
      else
        '(r1, v) ← Read_fuel f r;
        match v with
        | inl e => Ret (r1, inl e)
        | inr x => readArray_loop f (len - 1) (acc ++ [x]) r1
        end
  end.

Definition Resp_Read (r : Reader) : go (Reader * (rerr + Value)) := Read_fuel (2 * rd_size r + 1) r.

(** [Writer.Write]: the bytes handed to the underlying writer. *)
Definition Writer_Write (v : Value) (out : list byte) : list byte := out ++ Marshal v.

Example marshal_ex : Marshal (VArray [VBulk (str "GET"); VBulk (str "k")]) =
  str "*2" ++ CRLF ++ str "$3" ++ CRLF ++ str "GET" ++ CRLF ++ str "$1" ++ CRLF ++ str "k" ++ CRLF.
Proof. reflexivity. Qed.

Example read_ex : Resp_Read (NewReader [str "*1" ++ CRLF ++ str "$4" ++ CRLF ++ str "PING" ++ CRLF; str "+x"])
  = Ret (mkReader [] [ []; str "+x"], inr (VArray [VBulk (str "PING")])).
Proof. vm_compute. reflexivity. Qed.

(** ** Termination: the fuel [Resp_Read] supplies is always enough *)
Lemma readLine_loop_total fuel line r :
  rd_size r < fuel →
  ∃ r' l, readLine_loop fuel line r = Ret (r', l) ∧ rd_size r' ≤ rd_size r.
Proof.
  revert line r; induction fuel as [|f IH]; intros line r Hf; simpl; [lia|].
  destruct (ReadByte r) as [[b r']|] eqn:E; [|by eauto].
  apply ReadByte_size in E. case_match; [eexists _, _; split; [done|lia]|].
  destruct (IH (line ++ [b]) r') as (r2 & l & -> & ?); [lia|]. eexists _, _; split; [done|lia].
Qed.

Lemma readLine_total r : ∃ r' l, readLine r = Ret (r', l) ∧ rd_size r' ≤ rd_size r.
Proof. apply readLine_loop_total. lia. Qed.

Lemma readInteger_total r : ∃ r' l, readInteger r = Ret (r', l) ∧ rd_size r' ≤ rd_size r.
Proof.
  unfold readInteger. destruct (readLine_total r) as (r' & [e|line] & -> & ?); simpl; [by eauto|].
  destruct (ParseInt line); eauto.
Qed.

(** What a parsing call may do: return with no input added, or panic. *)
Definition parse_ok (r : Reader) (m : go (Reader * (rerr + Value))) : Prop :=
  m = Panic ∨ ∃ r' v, m = Ret (r', v) ∧ rd_size r' ≤ rd_size r.

Lemma readBulk_ok r : parse_ok r (readBulk r).
Proof.
  unfold readBulk. destruct (readInteger_total r) as (r1 & [e|len] & -> & ?); simpl; [right; by eauto|].
  case_match; [right; by eauto|]. case_match; [by left|].
  destruct (bufio_Read (Z.to_nat len) r1) as [got r2] eqn:E. apply bufio_Read_size in E.
  destruct (readLine_total r2) as (r3 & l & -> & ?). right. simpl. eexists _, _; split; [done|lia].
Qed.

Lemma readSimple_ok mk r : parse_ok r (readSimple mk r).
Proof.
  unfold readSimple. destruct (readLine_total r) as (r1 & [e|line] & -> & ?); right; simpl; eauto.
Qed.

Lemma readIntegerValue_ok r : parse_ok r (readIntegerValue r).
Proof.
  unfold readIntegerValue. destruct (readInteger_total r) as (r1 & [e|n] & -> & ?); right; simpl; eauto.
Qed.

Lemma parse_ok_le r r0 m : parse_ok r0 m → rd_size r0 ≤ rd_size r → parse_ok r m.
Proof. intros [->|(r' & v & -> & ?)] ?; [by left|]. right. eexists _, _; split; [done|lia]. Qed.

#[local] Hint Resolve readBulk_ok readSimple_ok readIntegerValue_ok : flux.

Lemma read_switch_ok arr t r : parse_ok r (arr r) → parse_ok r (read_switch arr t r).
Proof.
  intros Ha. unfold read_switch, readSimpleString, readError.
  repeat case_match; auto with flux. right. eauto.
Qed.

(** Reading a value consumes input. *)
Definition read_progress (r : Reader) (m : go (Reader * (rerr + Value))) : Prop :=
  m = Panic ∨ ∃ r' v, m = Ret (r', v) ∧ rd_size r' ≤ rd_size r ∧
    match v with inl _ => True | inr _ => rd_size r' < rd_size r end.

Lemma Read_fuel_total fuel :
  (∀ r, 2 * rd_size r + 1 ≤ fuel → read_progress r (Read_fuel fuel r)) ∧
  (∀ len acc r, 2 * rd_size r + 2 ≤ fuel → parse_ok r (readArray_loop fuel len acc r)).
Proof.
  induction fuel as [|f [IHr IHl]]; [split; intros; lia|]. split.
  - intros r Hf. cbn [Read_fuel].
    destruct (ReadByte r) as [[t r0]|] eqn:E; [|right; by eexists _, _].
    apply ReadByte_size in E.
    edestruct (read_switch_ok (λ r0, '(r1, l) ← readInteger r0;
      match l with inl e => Ret (r1, inl e) | inr len => readArray_loop f len [] r1 end) t r0)
      as [->|(r' & v & -> & ?)].
    + destruct (readInteger_total r0) as (r1 & [e|len] & -> & ?); simpl; [right; by eauto|].
      eapply parse_ok_le; [apply IHl; lia|done].
    + by left.
    + right. eexists _, _; split_and!; [done|lia|]. destruct v; [done|lia].
  - intros len acc r Hf. cbn [readArray_loop]. case_match; [right; by eauto|].
    destruct (IHr r) as [->|(r1 & [e|x] & -> & ? & ?)]; [lia|by left|..]; simpl.
    + right. eexists _, _; split; [done|lia].
    + eapply parse_ok_le; [apply IHl; lia|lia].
Qed.

(** ** Round trip *)

(** Values the wire format can carry: a line holds no CR, lengths fit. *)
Fixpoint wf_value (v : Value) : bool :=
  match v with
  | mkValue t s n b a =>
      match t with
      | TypeArray =>
          bool_decide (s = []) && (n =? 0)%Z && bool_decide (b = []) &&
          in_int64 (Z.of_nat (length a)) && forallb wf_value a
      | TypeBulk =>
          bool_decide (s = []) && (n =? 0)%Z && bool_decide (a = []) && (Z.of_nat (length b) <=? maxAlloc)%Z
      | TypeString | TypeError =>
          forallb (λ c, negb (bool_decide (c = CR))) s && (n =? 0)%Z && bool_decide (b = []) && bool_decide (a = [])
      | TypeInteger => bool_decide (s = []) && in_int64 n && bool_decide (b = []) && bool_decide (a = [])
      | TypeNull => bool_decide (s = []) && (n =? 0)%Z && bool_decide (b = []) && bool_decide (a = [])
      | TypeZero => false
      end
  end.

(** Induction on values, through their arrays. *)
Lemma Value_induction (P : Value → Prop) :
  (∀ t s n b a, Forall P a → P (mkValue t s n b a)) → ∀ v, P v.
Proof.
  intros H. fix IH 1. intros [t s n b a]. apply H.
  induction a as [|x a IHa]; constructor; [apply IH|exact IHa].
Qed.

Lemma line_complete_snoc2 l p b : line_complete (l ++ [p; b]) = bool_decide (p = CR).
Proof.
  unfold line_complete. rewrite length_app. simpl.
  rewrite bool_decide_eq_true_2 by lia. simpl. apply bool_decide_ext.
  replace (length l + 2 - 2) with (length l) by lia.
  rewrite list_lookup_middle by done. naive_solver.
Qed.

Lemma line_complete_no_CR l b : CR ∉ l → line_complete (l ++ [b]) = false.
Proof.
  intros Hn. destruct l as [|p l _] using rev_ind; [done|].
  rewrite <-app_assoc. simpl. rewrite line_complete_snoc2. apply bool_decide_eq_false_2. set_solver.
Qed.

Lemma readLine_loop_buffered fuel line s x rest src :
  CR ∉ line → CR ∉ s → length s + 1 < fuel →
  readLine_loop fuel line (mkReader (s ++ CR :: x :: rest) src) = Ret (mkReader rest src, inr (line ++ s)).
Proof.
  revert line s; induction fuel as [|f IH]; intros line s Hl Hs Hf; [lia|].
  destruct s as [|b s]; cbn [app readLine_loop]; rewrite ReadByte_buffered.
  - rewrite line_complete_no_CR by done. destruct f as [|f]; [simpl in Hf; lia|].
    cbn [readLine_loop]. rewrite ReadByte_buffered. rewrite <-app_assoc. simpl.
    rewrite line_complete_snoc2, bool_decide_eq_true_2 by done.
    rewrite length_app. simpl. replace (length line + 2 - 2) with (length line) by lia.
    by rewrite take_app_length, app_nil_r.
  - rewrite line_complete_no_CR by done. rewrite IH; [by rewrite <-app_assoc|..].
    + set_solver.
    + set_solver.
    + simpl in Hf. lia.
Qed.

Lemma readLine_buffered s x rest src :
  CR ∉ s → readLine (mkReader (s ++ CR :: x :: rest) src) = Ret (mkReader rest src, inr s).
Proof.
  intros Hs. unfold readLine. rewrite readLine_loop_buffered; [done|set_solver|done|].
  unfold rd_size. simpl. rewrite length_app. simpl. lia.
Qed.

Lemma Itoa_CR n : CR ∉ Itoa n.
Proof. intros H. pose proof (Itoa_no_CR n) as Hf. rewrite Forall_forall in Hf. by apply (Hf CR). Qed.

Lemma readInteger_buffered n rest src :
  in_int64 n = true → readInteger (mkReader (Itoa n ++ CRLF ++ rest) src) = Ret (mkReader rest src, inr n).
Proof.
  intros Hn. unfold readInteger, CRLF. simpl. rewrite readLine_buffered by apply Itoa_CR.
  simpl. by rewrite ParseInt_Itoa.
Qed.

Lemma in_int64_length {A} (l : list A) : (Z.of_nat (length l) ≤ max_int64)%Z → in_int64 (Z.of_nat (length l)) = true.
Proof. unfold in_int64, min_int64. lia. Qed.

Lemma readBulk_buffered b rest src :
  (Z.of_nat (length b) ≤ maxAlloc)%Z →
  readBulk (mkReader (Itoa (Z.of_nat (length b)) ++ CRLF ++ b ++ CRLF ++ rest) src)
  = Ret (mkReader rest src, inr (VBulk b)).
Proof.
  intros Hb. unfold readBulk. rewrite readInteger_buffered.
  2: { apply in_int64_length. unfold maxAlloc, max_int64 in *. lia. }
  cbn [mbind go_bind]. destruct (Z.eqb_spec (Z.of_nat (length b)) (-1)); [lia|].
  destruct (Z.ltb_spec (Z.of_nat (length b)) 0); [lia|].
  destruct (Z.ltb_spec maxAlloc (Z.of_nat (length b))); [lia|]. simpl orb. cbn match.
  rewrite Nat2Z.id, bufio_Read_buffered, Nat.sub_diag by done. cbn [replicate].
  change (CRLF ++ rest) with ([] ++ CR :: LF :: rest).
  rewrite readLine_buffered by set_solver. cbn [mbind go_bind]. by rewrite app_nil_r.
Qed.

Lemma readSimple_buffered mk s rest src :
  forallb (λ c, negb (bool_decide (c = CR))) s = true →
  readSimple mk (mkReader (s ++ CRLF ++ rest) src) = Ret (mkReader rest src, inr (mk s)).
Proof.
  intros Hs. unfold readSimple, CRLF. simpl. rewrite readLine_buffered; [done|].
  intros Hin. apply forallb_Forall_iff in Hs. rewrite Forall_forall in Hs.
  specialize (Hs CR Hin). by rewrite bool_decide_eq_true_2 in Hs.
Qed.

Lemma Marshal_pos v : wf_value v = true → 1 ≤ length (Marshal v).
Proof. destruct v as [[] s n b a]; simpl; intros; lia || done. Qed.

(** A marshalled value at the head of the buffer is read back, and nothing
    after it is consumed. *)
Definition reads_back (v : Value) : Prop :=
  wf_value v = true → ∀ fuel rest src, 2 * length (Marshal v) ≤ fuel →
  Read_fuel fuel (mkReader (Marshal v ++ rest) src) = Ret (mkReader rest src, inr v).

Lemma readArray_loop_buffered a acc fuel rest src :
  Forall reads_back a → forallb wf_value a = true →
  2 * length (concat (map Marshal a)) + 1 ≤ fuel →
  readArray_loop fuel (Z.of_nat (length a)) acc (mkReader (concat (map Marshal a) ++ rest) src)
  = Ret (mkReader rest src, inr (VArray (acc ++ a))).
Proof.
  intros Hr. revert acc fuel; induction Hr as [|x a Hx Hr IH]; intros acc fuel Hwf Hf.
  - destruct fuel; [simpl in Hf; lia|]. simpl. by rewrite app_nil_r.
  - simpl in Hwf. apply andb_prop in Hwf as [Hwx Hwa]. pose proof (Marshal_pos x Hwx).
    cbn [map concat] in *. rewrite length_app in Hf.
    destruct fuel as [|f]; [lia|]. cbn [readArray_loop length].
    destruct (Z.leb_spec (Z.of_nat (S (length a))) 0); [lia|].
    rewrite <-app_assoc, Hx by (done || lia). cbn [mbind go_bind].
    replace (Z.of_nat (S (length a)) - 1)%Z with (Z.of_nat (length a)) by lia.
    rewrite IH by (done || lia). by rewrite <-app_assoc.
Qed.

Lemma Marshal_reads_back v : reads_back v.
Proof.
  induction v as [t s n b a IH] using Value_induction. intros Hwf fuel rest src Hf.
  pose proof (Marshal_pos _ Hwf). destruct fuel as [|f]; [lia|].
  assert (∀ c l, Read_fuel (S f) (mkReader (([c] ++ l) ++ rest) src) =
    read_switch (λ r0, '(r1, l) ← readInteger r0;
      match l with inl e => Ret (r1, inl e) | inr len => readArray_loop f len [] r1 end) c (mkReader (l ++ rest) src))
    as Hrd by done.
  destruct t; simpl in Hwf; repeat (apply andb_prop in Hwf as [Hwf ?]); try done;
    repeat match goal with
    | H : bool_decide _ = true |- _ => apply bool_decide_eq_true in H; subst
    | H : (_ =? _)%Z = true |- _ => apply Z.eqb_eq in H; subst
    end; cbn [Marshal] in *; unfold marshalArray in *.
  - rewrite Hrd. unfold read_switch. rewrite bool_decide_eq_true_2 by done.
    rewrite <-!app_assoc, readInteger_buffered by done. cbn [mbind go_bind].
    apply (readArray_loop_buffered a [] f rest src IH); [done|].
    simpl in Hf. rewrite !length_app in Hf. simpl in Hf. lia.
  - unfold marshalBulk. rewrite Hrd. unfold read_switch. simpl bool_decide. cbn match.
    rewrite <-!app_assoc. apply readBulk_buffered. lia.
  - unfold marshalString. rewrite Hrd. rewrite <-app_assoc. by apply readSimple_buffered.
  - done.
  - unfold marshallError. rewrite Hrd. rewrite <-app_assoc. by apply readSimple_buffered.
  - unfold marshalInteger. rewrite Hrd. rewrite <-app_assoc.
    unfold read_switch. simpl bool_decide. cbn match. unfold readIntegerValue.
    by rewrite readInteger_buffered.
Qed.

(** A new reader over one delivery of at most 4096 bytes behaves as if the
    delivery were in its buffer. *)
Lemma Resp_Read_fresh d s : d ≠ [] → length d ≤ bufSize → Resp_Read (NewReader (d :: s)) = Resp_Read (mkReader d ([] :: s)).
Proof.
  intros Hd Hl. unfold Resp_Read. assert (rd_size (NewReader (d :: s)) = rd_size (mkReader d ([] :: s))) as -> by done.
  generalize (2 * rd_size (mkReader d ([] :: s)) + 1). intros [|f]; [done|]. cbn [Read_fuel].
  destruct d as [|c d]; [done|]. unfold ReadByte. cbn [rbuf rsrc NewReader stream_Read].
  rewrite take_ge, drop_ge by done. done.
Qed.

Lemma Resp_Read_buffered v rest src :
  wf_value v = true → Resp_Read (mkReader (Marshal v ++ rest) src) = Ret (mkReader rest src, inr v).
Proof.
  intros Hv. apply Marshal_reads_back; [done|]. unfold rd_size. simpl. rewrite length_app. lia.
Qed.

(** ** Theorems *)

(** C12: Round trip of the wire format: a value whose lines hold no CR is
    parsed back from its marshalled bytes, nested arrays included, and the
    parser stops exactly at its end, when the bytes arrive in one delivery
    that fits the 4096-byte read buffer. *)
Theorem resp_roundtrip (v : Value) (rest : list byte) :
  wf_value v = true → length (Marshal v ++ rest) ≤ bufSize →
  Resp_Read (NewReader [Marshal v ++ rest]) = Ret (mkReader rest [[]], inr v).
Proof.
  intros Hv Hl. rewrite Resp_Read_fresh; [by apply Resp_Read_buffered| |done].
  pose proof (Marshal_pos v Hv). destruct (Marshal v); simpl in *; [lia|done].
Qed.

Definition resp_demo : Value :=
  VArray [VBulk (str "SET"); VArray [VInteger (-42); VNull; VString (str "ok")]; VBulk (CRLF ++ [NUL])].

Lemma resp_roundtrip_witness :
  wf_value resp_demo = true ∧
  Resp_Read (NewReader [Marshal resp_demo ++ str "+next"]) = Ret (mkReader (str "+next") [[]], inr resp_demo).
Proof. split; [reflexivity|]. apply (resp_roundtrip resp_demo); [reflexivity|]. vm_compute. lia. Defined.

(** C38: Parsing terminates on every input, however it is cut into
    deliveries and whatever lengths it announces: it returns (with no input
    added) or it panics, and it consumes at least one byte per value. *)
Theorem resp_read_total (r : Reader) :
  Resp_Read r = Panic ∨
  ∃ r' v, Resp_Read r = Ret (r', v) ∧ rd_size r' ≤ rd_size r ∧
    match v with inl _ => True | inr _ => rd_size r' < rd_size r end.
Proof. apply (Read_fuel_total (2 * rd_size r + 1)). lia. Qed.

(** A bulk header with a negative length other than -1, or with a
    length no allocation can serve, makes the parser panic: any client can
    stop the server with a few bytes. *)
Theorem resp_bulk_length_panics (n : Z) (rest : list byte) :
  in_int64 n = true → (n < -1 ∨ maxAlloc < n)%Z →
  length ([BULK] ++ Itoa n ++ CRLF ++ rest) ≤ bufSize →
  Resp_Read (NewReader [[BULK] ++ Itoa n ++ CRLF ++ rest]) = Panic.
Proof.
  intros Hi Hn Hl. rewrite Resp_Read_fresh by done. unfold Resp_Read.
  rewrite Nat.add_1_r. cbn [Read_fuel]. cbn [app]. rewrite ReadByte_buffered.
  unfold read_switch. simpl bool_decide. cbn match. unfold readBulk.
  rewrite readInteger_buffered by done. cbn [mbind go_bind].
  assert (maxAlloc = 281474976710656%Z) as E by done.
  destruct (Z.eqb_spec n (-1)); [lia|].
  destruct (Z.ltb_spec n 0), (Z.ltb_spec maxAlloc n); done || lia.
Qed.

Lemma resp_bulk_length_panics_witness :
  in_int64 (-2) = true ∧ Resp_Read (NewReader [[BULK] ++ Itoa (-2) ++ CRLF ++ []]) = Panic.
Proof. split; [reflexivity|]. apply (resp_bulk_length_panics (-2) []); [reflexivity|lia|vm_compute; lia]. Defined.

(** A bulk string whose bytes arrive in two deliveries is NOT read
    back: the parser takes the bytes of the first delivery and leaves zeros in
    the place of the others. *)
Theorem resp_split_bulk_truncated (p1 p2 rest : list byte) :
  p1 ≠ [] → (Z.of_nat (length (p1 ++ p2)) ≤ maxAlloc)%Z →
  length ([BULK] ++ Itoa (Z.of_nat (length (p1 ++ p2))) ++ CRLF ++ p1) ≤ bufSize →
  ∃ r', Resp_Read (NewReader [[BULK] ++ Itoa (Z.of_nat (length (p1 ++ p2))) ++ CRLF ++ p1; p2 ++ CRLF ++ rest])
        = Ret (r', inr (VBulk (p1 ++ replicate (length p2) NUL))).
Proof.
  intros Hp1 Hmax Hl. rewrite Resp_Read_fresh by done. unfold Resp_Read.
  rewrite Nat.add_1_r. cbn [Read_fuel]. cbn [app]. rewrite ReadByte_buffered.
  unfold read_switch. simpl bool_decide. cbn match. unfold readBulk.
  rewrite readInteger_buffered.
  2: { apply in_int64_length. unfold maxAlloc, max_int64 in *. lia. }
  cbn [mbind go_bind]. set (n := length (p1 ++ p2)) in *.
  assert (n = length p1 + length p2) as Hn by (unfold n; by rewrite length_app).
  destruct (Z.eqb_spec (Z.of_nat n) (-1)); [lia|].
  destruct (Z.ltb_spec (Z.of_nat n) 0); [lia|].
  destruct (Z.ltb_spec maxAlloc (Z.of_nat n)); [lia|]. simpl orb. cbn match.
  rewrite Nat2Z.id. unfold bufio_Read. cbn [rbuf rsrc].
  destruct p1 as [|x p1]; [done|]. destruct n as [|n]; [simpl in Hn; lia|].
  rewrite take_ge, drop_ge by (simpl in *; lia).
  destruct (readLine_total (mkReader [] [[]; p2 ++ CRLF ++ rest])) as (r3 & l & -> & _).
  exists r3. cbn [mbind go_bind].
  by replace (S n - length (x :: p1)) with (length p2) by lia.
Qed.

Lemma resp_split_bulk_truncated_witness :
  ∃ r', Resp_Read (NewReader [[BULK] ++ Itoa (Z.of_nat (length (str "hel" ++ str "lo"))) ++ CRLF ++ str "hel"; str "lo" ++ CRLF ++ []])
        = Ret (r', inr (VBulk (str "hel" ++ replicate (length (str "lo")) NUL))).
Proof.
  apply (resp_split_bulk_truncated (str "hel") (str "lo") []); [discriminate|vm_compute; discriminate|vm_compute; lia].
Defined.
