(* ===== verification/Evict.v ===== *)
(** * Evict: the eviction policies, src/evict/*.go

    The Go interface [EvictionPolicy] has five implementations; a policy is
    the sum of their states, because a store can be given another policy at
    run time.  [time.Now()] and [rand.IntN] are inputs ([now], [rnd]). *)

From stdpp Require Import base list gmap strings.
From Stdlib Require Import ZArith Lia.
From S2P Require Import Prelude GoLib.
Local Open Scope Z_scope.

(** The zero [time.Time] (1 January of year 1), in nanoseconds since 1970. *)
Definition zeroTime : Z := -62135596800 * 1000000000.

(** The loop the LRU, LFU and TTL policies share: keep the key with the
    smallest score seen so far; a key without a score is skipped. *)
Fixpoint scan (score : gostring → option Z) (best : gostring) (bestScore : Z) (l : list gostring) : gostring :=
  match l with
  | [] => best
  | key :: l' =>
      match score key with
      | Some t => if t <? bestScore then scan score key t l' else scan score best bestScore l'
      | None => scan score best bestScore l'
      end
  end.

(** ** LRU: src/evict/lru.go *)
Record LRUPolicy := mkLRU { lru_access : gmap gostring Z }.
Definition NewLRUPolicy : LRUPolicy := mkLRU ∅.
Definition LRUPolicy_Record (now : Z) (key : gostring) (p : LRUPolicy) : LRUPolicy :=
  mkLRU (<[key := now]> (lru_access p)).
Definition LRUPolicy_Delete (key : gostring) (p : LRUPolicy) : LRUPolicy :=
  mkLRU (delete key (lru_access p)).
Definition LRUPolicy_Evict (candidates : list gostring) (p : LRUPolicy) : gostring :=
  match candidates with
  | [] => []
  | c :: cs => scan (λ k, lru_access p !! k) c (default zeroTime (lru_access p !! c)) cs
  end.

(** ** LFU: src/evict/lfu.go *)
Record LFUPolicy := mkLFU { lfu_freq : gmap gostring Z }.
Definition NewLFUPolicy : LFUPolicy := mkLFU ∅.
Definition LFUPolicy_Record (key : gostring) (p : LFUPolicy) : LFUPolicy :=
  mkLFU (<[key := wrap64 (default 0 (lfu_freq p !! key) + 1)]> (lfu_freq p)).
Definition LFUPolicy_Delete (key : gostring) (p : LFUPolicy) : LFUPolicy :=
  mkLFU (delete key (lfu_freq p)).
Definition LFUPolicy_Evict (candidates : list gostring) (p : LFUPolicy) : gostring :=
  match candidates with
  | [] => []
  | c :: cs => scan (λ k, lfu_freq p !! k) c (default 0 (lfu_freq p !! c)) cs
  end.

(** ** Random: src/evict/random.go *)
Definition RandomPolicy_Evict (rnd : nat) (candidates : list gostring) : go gostring :=
  match candidates with
  | [] => Ret []
  | _ => match candidates !! rnd with Some k => Ret k | None => Panic end
  end.

(** ** TTL: src/evict/ttlpolicy.go *)
Definition TTLPolicy_Evict (now : Z) (candidates : list gostring) (expireAt : gmap gostring Z) : gostring :=
  let ttl k := (λ exp, time_Sub exp now) <$> expireAt !! k in
  match candidates with
  | [] => []
  | c :: cs => scan ttl c (default 0 (ttl c)) cs
  end.

(** ** None: src/evict/none.go *)
Definition NoEviction_Evict (candidates : list gostring) (expireAt : gmap gostring Z) : gostring := [].

(** ** The interface: src/evict/evict.go *)
Inductive Policy :=
| NoEviction
| LRU (p : LRUPolicy)
| LFU (p : LFUPolicy)
| RandomP
| TTLP.

Definition Policy_Name (p : Policy) : gostring :=
  match p with
  | NoEviction => str "none"
  | LRU _ => str "allkeys-lru"
  | LFU _ => str "allkeys-lfu"
  | RandomP => str "allkeys-random"
  | TTLP => str "volatile-ttl"
  end.

Definition Policy_Record (now : Z) (key : gostring) (p : Policy) : Policy :=
  match p with
  | LRU q => LRU (LRUPolicy_Record now key q)
  | LFU q => LFU (LFUPolicy_Record key q)
  | _ => p
  end.

Definition Policy_Delete (key : gostring) (p : Policy) : Policy :=
  match p with
  | LRU q => LRU (LRUPolicy_Delete key q)
  | LFU q => LFU (LFUPolicy_Delete key q)
  | _ => p
  end.

Definition Policy_Evict (now : Z) (rnd : nat) (candidates : list gostring) (expireAt : gmap gostring Z)
    (p : Policy) : go gostring :=
  match p with
  | NoEviction => Ret (NoEviction_Evict candidates expireAt)
  | LRU q => Ret (LRUPolicy_Evict candidates q)
  | LFU q => Ret (LFUPolicy_Evict candidates q)
  | RandomP => RandomPolicy_Evict rnd candidates
  | TTLP => Ret (TTLPolicy_Evict now candidates expireAt)
  end.

(** ** Lemmas *)
Lemma scan_elem score best bs l : scan score best bs l = best ∨ scan score best bs l ∈ l.
Proof.
  revert best bs; induction l as [|k l IH]; intros best bs; simpl; [by left|].
  destruct (score k) as [t|]; [case_match|].
  - destruct (IH k t) as [->|?]; right; [by left|by right].
  - destruct (IH best bs) as [->|?]; [by left|right; by right].
  - destruct (IH best bs) as [->|?]; [by left|right; by right].
Qed.

(** The result scores at most as much as every key that has a score. *)
Lemma scan_min score best bs l :
  score best = Some bs →
  ∃ t, score (scan score best bs l) = Some t ∧ t ≤ bs ∧ ∀ k s, k ∈ l → score k = Some s → t ≤ s.
Proof.
  revert best bs; induction l as [|k l IH]; intros best bs Hb; simpl.
  - exists bs. split_and!; [done|lia|]. set_solver.
  - destruct (score k) as [t|] eqn:E; [case_match eqn:Hlt|].
    + destruct (IH k t E) as (m & -> & ? & Hm). exists m. split_and!; [done|lia|].
      intros k' s [->|?]%elem_of_cons ?; [simplify_eq; lia|eauto].
    + destruct (IH best bs Hb) as (m & -> & ? & Hm). exists m. split_and!; [done|lia|].
      intros k' s [->|?]%elem_of_cons ?; [simplify_eq; lia|eauto].
    + destruct (IH best bs Hb) as (m & -> & ? & Hm). exists m. split_and!; [done|lia|].
      intros k' s [->|?]%elem_of_cons ?; [congruence|eauto].
Qed.

Lemma scan_cons_elem score c bs cs : scan score c bs cs ∈ c :: cs.
Proof. destruct (scan_elem score c bs cs) as [->|?]; [by left|by right]. Qed.

Lemma scan_cons_min (score : gostring → option Z) c bs cs :
  (∀ k, k ∈ c :: cs → is_Some (score k)) → score c = Some bs →
  ∃ t, score (scan score c bs cs) = Some t ∧ ∀ k s, k ∈ c :: cs → score k = Some s → t ≤ s.
Proof.
  intros _ Hb. destruct (scan_min score c bs cs Hb) as (t & Ht & Hle & Hmin). exists t.
  split; [done|]. intros k s [->|Hk]%elem_of_cons Hs; [simplify_eq; lia|eauto].
Qed.

(** What every policy promises to the store: a victim among the candidates,
    or none. *)
Lemma Policy_Evict_candidate now rnd cands exp p :
  (rnd < length cands)%nat →
  ∃ k, Policy_Evict now rnd cands exp p = Ret k ∧ (k = [] ∨ k ∈ cands).
Proof.
  intros Hr. destruct cands as [|c cs]; [simpl in Hr; lia|].
  destruct p; simpl; try (eexists; split; [done|]); [by left|right; apply scan_cons_elem..| |right; apply scan_cons_elem].
  unfold RandomPolicy_Evict. destruct (lookup_lt_is_Some_2 (c :: cs) rnd Hr) as [k Hk].
  rewrite Hk. exists k. split; [done|]. right. by eapply list_elem_of_lookup_2.
Qed.

(** ** Theorems *)

(** The LRU policy evicts a candidate that no other candidate was used
    before: its last access is the earliest. *)
Theorem lru_evicts_least_recent (p : LRUPolicy) (candidates : list gostring) :
  candidates ≠ [] → (∀ k, k ∈ candidates → is_Some (lru_access p !! k)) →
  ∃ t, LRUPolicy_Evict candidates p ∈ candidates ∧
       lru_access p !! LRUPolicy_Evict candidates p = Some t ∧
       ∀ k s, k ∈ candidates → lru_access p !! k = Some s → t ≤ s.
Proof.
  intros Hne Hall. destruct candidates as [|c cs]; [done|]. simpl.
  destruct (Hall c) as [bs Hb]; [by left|]. rewrite Hb. simpl.
  destruct (scan_cons_min (λ k, lru_access p !! k) c bs cs Hall Hb) as (t & ? & ?).
  exists t. split; [apply scan_cons_elem|done].
Qed.

Lemma lru_evicts_least_recent_witness :
  let p := LRUPolicy_Record 5 (str "a") (LRUPolicy_Record 3 (str "b") (LRUPolicy_Record 1 (str "a") NewLRUPolicy)) in
  LRUPolicy_Evict [str "a"; str "b"] p = str "b" ∧
  ∃ t, LRUPolicy_Evict [str "a"; str "b"] p ∈ [str "a"; str "b"] ∧
       lru_access p !! LRUPolicy_Evict [str "a"; str "b"] p = Some t ∧
       ∀ k s, k ∈ [str "a"; str "b"] → lru_access p !! k = Some s → t ≤ s.
Proof.
  intros p. split; [vm_compute; reflexivity|].
  apply lru_evicts_least_recent; [discriminate|].
  intros k [->|[->|H]%elem_of_cons]%elem_of_cons; [vm_compute; eauto..|]. set_solver.
Defined.

(** The LFU policy evicts a candidate with the smallest use count. *)
Theorem lfu_evicts_least_frequent (p : LFUPolicy) (candidates : list gostring) :
  candidates ≠ [] → (∀ k, k ∈ candidates → is_Some (lfu_freq p !! k)) →
  ∃ n, LFUPolicy_Evict candidates p ∈ candidates ∧
       lfu_freq p !! LFUPolicy_Evict candidates p = Some n ∧
       ∀ k s, k ∈ candidates → lfu_freq p !! k = Some s → n ≤ s.
Proof.
  intros Hne Hall. destruct candidates as [|c cs]; [done|]. simpl.
  destruct (Hall c) as [bs Hb]; [by left|]. rewrite Hb. simpl.
  destruct (scan_cons_min (λ k, lfu_freq p !! k) c bs cs Hall Hb) as (t & ? & ?).
  exists t. split; [apply scan_cons_elem|done].
Qed.

Lemma lfu_evicts_least_frequent_witness :
  let p := LFUPolicy_Record (str "a") (LFUPolicy_Record (str "b") (LFUPolicy_Record (str "a") NewLFUPolicy)) in
  LFUPolicy_Evict [str "a"; str "b"] p = str "b" ∧
  ∃ n, LFUPolicy_Evict [str "a"; str "b"] p ∈ [str "a"; str "b"] ∧
       lfu_freq p !! LFUPolicy_Evict [str "a"; str "b"] p = Some n ∧
       ∀ k s, k ∈ [str "a"; str "b"] → lfu_freq p !! k = Some s → n ≤ s.
Proof.
  intros p. split; [vm_compute; reflexivity|].
  apply lfu_evicts_least_frequent; [discriminate|].
  intros k [->|[->|H]%elem_of_cons]%elem_of_cons; [vm_compute; eauto..|]. set_solver.
Defined.

(** The volatile-ttl policy evicts a candidate whose deadline is the
    nearest, as long as the remaining times fit a Duration (292 years). *)
Theorem ttl_evicts_nearest_deadline (now : Z) (candidates : list gostring) (expireAt : gmap gostring Z) :
  candidates ≠ [] →
  (∀ k, k ∈ candidates → ∃ exp, expireAt !! k = Some exp ∧ in_int64 (exp - now) = true) →
  ∃ exp, TTLPolicy_Evict now candidates expireAt ∈ candidates ∧
         expireAt !! TTLPolicy_Evict now candidates expireAt = Some exp ∧
         ∀ k e, k ∈ candidates → expireAt !! k = Some e → exp ≤ e.
Proof.
  intros Hne Hall. destruct candidates as [|c cs]; [done|]. unfold TTLPolicy_Evict. cbv zeta.
  set (ttl := λ k, (λ exp, time_Sub exp now) <$> expireAt !! k).
  assert (∀ k, k ∈ c :: cs → ∃ e, expireAt !! k = Some e ∧ ttl k = Some (e - now)) as Httl.
  { intros k Hk. destruct (Hall k Hk) as (e & He & Hr). exists e. split; [done|].
    unfold ttl. rewrite He. simpl. f_equal. unfold time_Sub, in_int64 in *. lia. }
  destruct (Httl c) as (e0 & _ & Hc); [by left|].
  change ((λ exp, time_Sub exp now) <$> expireAt !! c) with (ttl c). rewrite Hc. simpl default.
  pose proof (scan_cons_elem ttl c (e0 - now) cs) as Hin.
  destruct (scan_cons_min ttl c (e0 - now) cs) as (t & Ht & Hmin); [|done|].
  { intros k Hk. destruct (Httl k Hk) as (e & _ & ->). eauto. }
  destruct (Httl _ Hin) as (e & He & Et). exists e. split_and!; [done|done|].
  intros k e' Hk He'. destruct (Httl k Hk) as (e'' & He'' & Et'').
  specialize (Hmin k _ Hk Et''). simplify_eq. lia.
Qed.

Lemma ttl_evicts_nearest_deadline_witness :
  let m : gmap gostring Z := {[ str "a" := 90; str "b" := 40 ]} in
  TTLPolicy_Evict 10 [str "a"; str "b"] m = str "b" ∧
  ∃ exp, TTLPolicy_Evict 10 [str "a"; str "b"] m ∈ [str "a"; str "b"] ∧
         m !! TTLPolicy_Evict 10 [str "a"; str "b"] m = Some exp ∧
         ∀ k e, k ∈ [str "a"; str "b"] → m !! k = Some e → exp ≤ e.
Proof.
  intros m. split; [vm_compute; reflexivity|].
  apply ttl_evicts_nearest_deadline; [discriminate|].
  intros k [->|[->|H]%elem_of_cons]%elem_of_cons; [by eexists..|]. set_solver.
Defined.
