(* ===== verification/BitcaskStore.v ===== *)
(** * BitcaskStore: src/store/bitcask.go

    Two maps in memory and an append-only file of records that [recover]
    reads back when the store is opened.  The methods hold one lock for their
    whole body and ignore write errors, as the code does. *)

From stdpp Require Import base list gmap strings.
From Stdlib Require Import ZArith Lia Ascii.
From S2P Require Import Prelude GoLib StoreSpec GoIO.

Record BitcaskStore := mkBitcask {
  bc_file : file;
  bc_strings : gmap gostring gostring;
  bc_hashes : gmap gostring (gmap gostring gostring)
}.

Definition bitcaskMagic : gostring := str "FCBT01".

(** [readStringAt]: the string and the position after it. *)
Definition readStringAt (data : list byte) (pos : nat) : gostring * nat :=
  match file_ReadAt 4 pos data with
  | None => ([], pos)
  | Some lenBuf =>
      let strLen := Z.to_nat (be_get lenBuf) in
      let pos := pos + 4 in
      if bool_decide (strLen = 0) then ([], pos) else
      match file_ReadAt strLen pos data with
      | None => ([], pos)
      | Some buf => (buf, pos + strLen)
      end
  end.

(** One iteration after the operation byte has been read. *)
Definition recover_op (op : byte) (data : list byte) (pos : nat)
    (m : gmap gostring gostring * gmap gostring (gmap gostring gostring)) :
    nat * (gmap gostring gostring * gmap gostring (gmap gostring gostring)) :=
  if bool_decide (op = "S"%char) then
    let '(key, pos) := readStringAt data pos in
    let '(val, pos) := readStringAt data pos in
    (pos, (<[key := val]> m.1, m.2))
  else if bool_decide (op = "D"%char) then
    let '(key, pos) := readStringAt data pos in
    (pos, (delete key m.1, delete key m.2))
  else if bool_decide (op = "H"%char) then
    let '(hash, pos) := readStringAt data pos in
    let '(field, pos) := readStringAt data pos in
    let '(val, pos) := readStringAt data pos in
    (pos, (m.1, hash_put hash field val m.2))
  else (pos, m).

Fixpoint recover_loop (fuel : nat) (data : list byte) (pos : nat)
    (m : gmap gostring gostring * gmap gostring (gmap gostring gostring)) :
    go (gmap gostring gostring * gmap gostring (gmap gostring gostring)) :=
  match fuel with
  | O => NoFuel
  | S f =>
      match file_ReadAt 1 pos data with
      | Some [op] => let '(pos', m') := recover_op op data (pos + 1) m in recover_loop f data pos' m'
      | _ => Ret m
      end
  end.

Inductive bitcask_error := WriteError | ReadError | InvalidMagic.

Definition recover (f : file) : go (bitcask_error + BitcaskStore) :=
  let data := f_data f in
  if bool_decide (length data = 0) then
    let '(f', err) := file_Write bitcaskMagic f in
    Ret (if err : bool then inl WriteError else inr (mkBitcask f' ∅ ∅))
  else
    match file_ReadAt (length bitcaskMagic) 0 data with
    | None => Ret (inl ReadError)
    | Some magic =>
        if negb (bool_decide (magic = bitcaskMagic)) then Ret (inl InvalidMagic) else
        m ← recover_loop (length data + 1) data (length bitcaskMagic) (∅, ∅);
        Ret (inr (mkBitcask (file_SeekEnd f) m.1 m.2))
    end.

Definition NewBitcaskStore (data : list byte) (room : option nat) : go (bitcask_error + BitcaskStore) :=
  recover (file_Open data room).

Definition op_part (p : gostring) : list byte := PutUint32 (Z.of_nat (length p)) ++ p.

(** The record [writeOp] appends. *)
Definition op_bytes (op : byte) (parts : list gostring) : list byte := op :: concat (op_part <$> parts).

Definition writeOp (op : byte) (parts : list gostring) (s : BitcaskStore) : BitcaskStore :=
  mkBitcask (file_Write (op_bytes op parts) (bc_file s)).1 (bc_strings s) (bc_hashes s).

Definition BitcaskStore_Set (k v : gostring) (s : BitcaskStore) : go BitcaskStore :=
  Ret (writeOp "S"%char [k; v] (mkBitcask (bc_file s) (<[k := v]> (bc_strings s)) (bc_hashes s))).
Definition BitcaskStore_Get (k : gostring) (s : BitcaskStore) : go (option gostring) := Ret (bc_strings s !! k).
Definition BitcaskStore_Del (k : gostring) (s : BitcaskStore) : go BitcaskStore :=
  Ret (writeOp "D"%char [k] (mkBitcask (bc_file s) (delete k (bc_strings s)) (delete k (bc_hashes s)))).
Definition BitcaskStore_HSet (h k v : gostring) (s : BitcaskStore) : go BitcaskStore :=
  Ret (writeOp "H"%char [h; k; v] (mkBitcask (bc_file s) (bc_strings s) (hash_put h k v (bc_hashes s)))).
Definition BitcaskStore_HGet (h k : gostring) (s : BitcaskStore) : go (option gostring) := Ret (hash_get h k (bc_hashes s)).
Definition BitcaskStore_HGetAll (h : gostring) (s : BitcaskStore) : go (option (gmap gostring gostring)) := Ret (bc_hashes s !! h).
Definition BitcaskStore_Close (s : BitcaskStore) : go BitcaskStore :=
  Ret (mkBitcask (file_Close (bc_file s)) (bc_strings s) (bc_hashes s)).

#[global] Instance BitcaskStore_ops : StoreOps BitcaskStore := {
  st_Set := BitcaskStore_Set;
  st_Get := BitcaskStore_Get;
  st_Del := BitcaskStore_Del;
  st_HSet := BitcaskStore_HSet;
  st_HGet := BitcaskStore_HGet;
  st_HGetAll := BitcaskStore_HGetAll;
  st_Close := BitcaskStore_Close
}.

Definition BitcaskStore_abs (s : BitcaskStore) : kv := mkKV (bc_strings s) (bc_hashes s).

#[global] Program Instance BitcaskStore_laws : StoreLaws BitcaskStore := {
  st_inv := λ _, True;
  st_abs := BitcaskStore_abs
}.
Next Obligation. intros. eexists; split_and!; [done..|]. reflexivity. Qed.
Next Obligation. intros. eexists; split_and!; [done..|]. reflexivity. Qed.
Next Obligation.
  intros. eexists; split_and!; [done..|]. unfold BitcaskStore_abs, kv_hset; simpl. by rewrite hash_put_spec.
Qed.
Next Obligation. reflexivity. Qed.
Next Obligation. reflexivity. Qed.
Next Obligation. reflexivity. Qed.

(** ** The file format *)
Definition short_part (p : gostring) : Prop := (Z.of_nat (length p) < 2 ^ 32)%Z.

(** The record of a call: reads write nothing. *)
Definition op_record (o : store_op) : list byte :=
  match o with
  | OpSet k v => op_bytes "S"%char [k; v]
  | OpDel k => op_bytes "D"%char [k]
  | OpHSet h k v => op_bytes "H"%char [h; k; v]
  | _ => []
  end.
Definition op_short (o : store_op) : Prop :=
  match o with
  | OpSet k v => short_part k ∧ short_part v
  | OpDel k => short_part k
  | OpHSet h k v => short_part h ∧ short_part k ∧ short_part v
  | _ => True
  end.
Definition op_writesb (o : store_op) : bool := match o with OpSet _ _ | OpDel _ | OpHSet _ _ _ => true | _ => false end.

Lemma ReadAt_app n pre p rest :
  length p = n → file_ReadAt n (length pre) (pre ++ p ++ rest) = Some p.
Proof.
  intros <-. unfold file_ReadAt. rewrite decide_True by (rewrite !length_app; lia).
  by rewrite drop_app_length, take_app_length.
Qed.

Lemma readStringAt_part pre s rest :
  short_part s → readStringAt (pre ++ op_part s ++ rest) (length pre) = (s, length (pre ++ op_part s)).
Proof.
  intros Hs. unfold readStringAt, op_part. rewrite <-app_assoc.
  rewrite ReadAt_app by apply length_PutUint32. unfold short_part in Hs.
  rewrite be_get_PutUint32, Nat2Z.id by lia. rewrite !length_app, length_PutUint32.
  case_bool_decide as H0; [apply nil_length_inv in H0 as ->; f_equal; simpl; lia|].
  replace (length pre + 4) with (length (pre ++ PutUint32 (Z.of_nat (length s)))) by (rewrite length_app, length_PutUint32; lia).
  rewrite (app_assoc pre). rewrite ReadAt_app by done. f_equal. rewrite length_app, length_PutUint32. lia.
Qed.

(** The content a pair of maps stands for. *)
Definition maps_kv (m : gmap gostring gostring * gmap gostring (gmap gostring gostring)) : kv := mkKV m.1 m.2.

Lemma ReadAt_op op pre rest : file_ReadAt 1 (length pre) (pre ++ op :: rest) = Some [op].
Proof. exact (ReadAt_app 1 pre [op] rest eq_refl). Qed.

(** A record in the middle of the file is read back and applied. *)
Lemma recover_op_record o pre rest m :
  op_writesb o = true → op_short o →
  ∃ op m', file_ReadAt 1 (length pre) (pre ++ op_record o ++ rest) = Some [op] ∧
    recover_op op (pre ++ op_record o ++ rest) (length pre + 1) m = (length (pre ++ op_record o), m') ∧
    maps_kv m' = (kv_step o (maps_kv m)).1.
Proof.
  intros Hw Hs. destruct o as [k v|k|h k v|k|h k|h]; try discriminate Hw;
    cbn [op_record]; unfold op_bytes; cbn [fmap list_fmap concat]; rewrite !app_nil_r.
  - destruct Hs as [Hk Hv]. exists "S"%char. eexists. split; [apply ReadAt_op|]. unfold recover_op.
    rewrite bool_decide_eq_true_2 by done.
    set (pre' := pre ++ ["S"%char]). replace (length pre + 1) with (length pre') by (unfold pre'; by rewrite length_app).
    replace (pre ++ ("S"%char :: op_part k ++ op_part v) ++ rest) with (pre' ++ op_part k ++ op_part v ++ rest)
      by (unfold pre'; rewrite <-!app_assoc; cbn [app]; by repeat rewrite <-app_assoc).
    rewrite readStringAt_part by done. rewrite (app_assoc pre'). rewrite readStringAt_part by done.
    split; [apply f_equal2; [|reflexivity]|reflexivity]. f_equal. unfold pre'. by rewrite <-!app_assoc.
  - exists "D"%char. eexists. split; [apply ReadAt_op|]. unfold recover_op.
    rewrite bool_decide_eq_false_2, bool_decide_eq_true_2 by done.
    set (pre' := pre ++ ["D"%char]). replace (length pre + 1) with (length pre') by (unfold pre'; by rewrite length_app).
    replace (pre ++ ("D"%char :: op_part k) ++ rest) with (pre' ++ op_part k ++ rest)
      by (unfold pre'; rewrite <-!app_assoc; cbn [app]; by repeat rewrite <-app_assoc).
    rewrite readStringAt_part by done. split; [apply f_equal2; [|reflexivity]|reflexivity]. f_equal. unfold pre'. by rewrite <-!app_assoc.
  - destruct Hs as (Hh & Hk & Hv). exists "H"%char. eexists. split; [apply ReadAt_op|]. unfold recover_op.
    rewrite !bool_decide_eq_false_2, bool_decide_eq_true_2 by done.
    set (pre' := pre ++ ["H"%char]). replace (length pre + 1) with (length pre') by (unfold pre'; by rewrite length_app).
    replace (pre ++ ("H"%char :: op_part h ++ op_part k ++ op_part v) ++ rest)
      with (pre' ++ op_part h ++ op_part k ++ op_part v ++ rest) by (unfold pre'; rewrite <-!app_assoc; cbn [app]; by repeat rewrite <-app_assoc).
    rewrite readStringAt_part by done. rewrite (app_assoc pre'). rewrite readStringAt_part by done.
    rewrite (app_assoc (pre' ++ op_part h)). rewrite readStringAt_part by done. split.
    + apply f_equal2; [|reflexivity]. f_equal. unfold pre'. by rewrite <-!app_assoc.
    + unfold maps_kv, kv_hset; simpl. by rewrite hash_put_spec.
Qed.

Definition records (os : list store_op) : list byte := concat (op_record <$> os).
Definition effect (os : list store_op) (a : kv) : kv := foldl (λ a o, (kv_step o a).1) a os.

Lemma recover_loop_records fuel os pre rest m :
  Forall op_short os → length os ≤ fuel →
  ∃ n m', recover_loop fuel (pre ++ records os ++ rest) (length pre) m =
            recover_loop n (pre ++ records os ++ rest) (length (pre ++ records os)) m' ∧
          maps_kv m' = effect os (maps_kv m) ∧ fuel ≤ n + length os.
Proof.
  intros Hos. revert fuel pre m. induction Hos as [|o os Ho Hos IH]; intros fuel pre m Hf.
  - exists fuel, m. split_and!; [by simpl; rewrite app_nil_r|done|simpl; lia].
  - change (records (o :: os)) with (op_record o ++ records os). rewrite <-!app_assoc.
    destruct (op_writesb o) eqn:Hw.
    + destruct fuel as [|f]; [simpl in Hf; lia|].
      destruct (recover_op_record o pre (records os ++ rest) m Hw Ho) as (op & m1 & E1 & E2 & E3).
      cbn [recover_loop]. rewrite E1, E2. rewrite (app_assoc pre).
      destruct (IH f (pre ++ op_record o) m1) as (n & m' & E & Em & Hn); [simpl in Hf; lia|].
      exists n, m'. split_and!; [by rewrite E, <-(app_assoc pre (op_record o) (records os))|by rewrite Em, E3|simpl; lia].
    + assert (op_record o = []) as -> by by destruct o. simpl app.
      destruct (IH fuel pre m) as (n & m' & E & Em & Hn); [simpl in Hf; lia|]. exists n, m'.
      split_and!; [exact E| |simpl; lia]. rewrite Em. by destruct o.
Qed.

Lemma ReadAt_end data pos : length data ≤ pos → file_ReadAt 1 pos data = None.
Proof. intros Hl. unfold file_ReadAt. by rewrite decide_False by lia. Qed.

Lemma op_record_pos o : op_writesb o = true → 1 ≤ length (op_record o).
Proof. destruct o; simpl; try done; lia. Qed.

(** Reading never moves backwards, so every iteration makes progress. *)
Lemma readStringAt_pos data pos : pos ≤ (readStringAt data pos).2.
Proof. unfold readStringAt. repeat case_match; simpl; lia. Qed.

Lemma recover_op_pos op data pos m : pos ≤ (recover_op op data pos m).1.
Proof.
  unfold recover_op. repeat case_bool_decide; simpl.
  - pose proof (readStringAt_pos data pos). destruct (readStringAt data pos) as [k p]. simpl in *.
    pose proof (readStringAt_pos data p). destruct (readStringAt data p). simpl in *. lia.
  - pose proof (readStringAt_pos data pos). by destruct (readStringAt data pos).
  - pose proof (readStringAt_pos data pos). destruct (readStringAt data pos) as [k p]. simpl in *.
    pose proof (readStringAt_pos data p). destruct (readStringAt data p) as [k' p']. simpl in *.
    pose proof (readStringAt_pos data p'). destruct (readStringAt data p'). simpl in *. lia.
  - lia.
Qed.

Lemma recover_loop_total fuel data pos m :
  length data < fuel + pos → 0 < fuel → returns (recover_loop fuel data pos m).
Proof.
  revert pos m; induction fuel as [|f IH]; intros pos m Hf H0; [lia|]. cbn [recover_loop].
  destruct (file_ReadAt 1 pos data) as [b|] eqn:E; [|by eexists].
  unfold file_ReadAt in E. case_decide as Hd; [|done].
  destruct b as [|op [|]]; [by eexists| |by eexists].
  pose proof (recover_op_pos op data (pos + 1) m) as Hp.
  destruct (recover_op op data (pos + 1) m) as [pos' m']. simpl in Hp. apply IH; lia.
Qed.

(** The file after a trace of calls on an unbounded disk. *)
Definition bc_ok (os : list store_op) (s : BitcaskStore) : Prop :=
  f_data (bc_file s) = bitcaskMagic ++ records os ∧ f_pos (bc_file s) = length (f_data (bc_file s)) ∧
  f_room (bc_file s) = None ∧ f_closed (bc_file s) = false ∧ BitcaskStore_abs s = effect os kv_empty.

Lemma writeOp_data op parts s :
  f_pos (bc_file s) = length (f_data (bc_file s)) → f_room (bc_file s) = None → f_closed (bc_file s) = false →
  bc_file (writeOp op parts s) = mkFile (f_data (bc_file s) ++ op_bytes op parts) (length (f_data (bc_file s) ++ op_bytes op parts)) None false.
Proof. intros. unfold writeOp; simpl. by rewrite file_Write_end. Qed.

Lemma records_snoc os o : records (os ++ [o]) = records os ++ op_record o.
Proof. unfold records. rewrite fmap_app, concat_app. simpl. by rewrite app_nil_r. Qed.

Lemma effect_snoc os o a : effect (os ++ [o]) a = (kv_step o (effect os a)).1.
Proof. unfold effect. by rewrite foldl_app. Qed.

Lemma bc_step os o s : bc_ok os s → ∃ s' r, store_step o s = Ret (s', r) ∧ bc_ok (os ++ [o]) s'.
Proof.
  intros (Hd & Hp & Hr & Hc & Ha).
  assert (∀ op parts st hs, op_record o = op_bytes op parts → mkKV st hs = (kv_step o (BitcaskStore_abs s)).1 →
    bc_ok (os ++ [o]) (writeOp op parts (mkBitcask (bc_file s) st hs))) as Hw.
  { intros op parts st hs E1 E2. unfold bc_ok. rewrite writeOp_data by done. cbn [bc_file f_data f_pos f_room f_closed].
    rewrite records_snoc, effect_snoc, E1, <-Ha, <-E2, Hd, app_assoc. by split_and!. }
  destruct o as [k v|k|h k v|k|h k|h]; (eexists _, _; split; [reflexivity|]).
  - by apply Hw.
  - by apply Hw.
  - apply Hw; [done|]. unfold kv_hset; simpl. by rewrite hash_put_spec.
  - unfold bc_ok. rewrite records_snoc, effect_snoc. simpl op_record. rewrite app_nil_r. by split_and!.
  - unfold bc_ok. rewrite records_snoc, effect_snoc. simpl op_record. rewrite app_nil_r. by split_and!.
  - unfold bc_ok. rewrite records_snoc, effect_snoc. simpl op_record. rewrite app_nil_r. by split_and!.
Qed.

Lemma bc_run os0 os s : bc_ok os0 s → ∃ s' rs, store_run os s = Ret (s', rs) ∧ bc_ok (os0 ++ os) s'.
Proof.
  revert os0 s; induction os as [|o os IH]; intros os0 s Hs; [exists s, []; by rewrite app_nil_r|].
  cbn [store_run]. destruct (bc_step os0 o s Hs) as (s1 & r & -> & H1). cbn [mbind go_bind].
  destruct (IH _ _ H1) as (s2 & rs & -> & H2). cbn [mbind go_bind]. eexists _, _. split; [done|].
  by rewrite <-app_assoc in H2.
Qed.

(** Opening a file with the records of a trace, followed by [tail]. *)
Lemma NewBitcask_records os tail room :
  Forall op_short os →
  ∃ n m, NewBitcaskStore (bitcaskMagic ++ records os ++ tail) room =
    (m' ← recover_loop n (bitcaskMagic ++ records os ++ tail) (length (bitcaskMagic ++ records os)) m;
     Ret (inr (mkBitcask (file_SeekEnd (file_Open (bitcaskMagic ++ records os ++ tail) room)) m'.1 m'.2))) ∧
    maps_kv m = effect os kv_empty ∧ length tail < n.
Proof.
  intros Hos. set (os' := filter (λ o, op_writesb o = true) os).
  assert (records os' = records os ∧ effect os' kv_empty = effect os kv_empty ∧ Forall op_short os' ∧
    length os' ≤ length (records os')) as (Er & Ee & Hs & Hl).
  { unfold os'. clear os'. generalize kv_empty. induction Hos as [|o os Ho Hos IH]; intros a; [done|].
    rewrite filter_cons. destruct (IH (kv_step o a).1) as (I1 & I2 & I3 & I4). case_decide as Hd.
    - split_and!; [unfold records in *; by rewrite !fmap_cons, !concat_cons, I1|exact I2|by constructor|].
      change (records (o :: filter _ os)) with (op_record o ++ records (filter (λ o, op_writesb o = true) os)).
      rewrite length_app. pose proof (op_record_pos o Hd). simpl. lia.
    - destruct o; simpl in Hd; try (exfalso; by apply Hd); split_and!; done. }
  rewrite <-Er, <-Ee. set (data := bitcaskMagic ++ records os' ++ tail).
  destruct (recover_loop_records (length data + 1) os' bitcaskMagic tail (∅, ∅) Hs) as (n & m & E & Em & Hn).
  { unfold data. rewrite !length_app. lia. }
  exists n, m. split_and!; [|exact Em|unfold data in Hn; rewrite !length_app in Hn; simpl in Hn; lia].
  unfold NewBitcaskStore, recover. cbn [f_data file_Open]. fold data. rewrite bool_decide_eq_false_2.
  2: { unfold data. rewrite length_app. simpl. lia. }
  assert (file_ReadAt (length bitcaskMagic) 0 data = Some bitcaskMagic) as ->.
  { apply (ReadAt_app (length bitcaskMagic) [] bitcaskMagic (records os' ++ tail) eq_refl). }
  rewrite bool_decide_eq_true_2 by done. cbn [negb]. fold data in E. rewrite E. done.
Qed.

(** ** Theorems *)

(** C16: Durability of the Bitcask store: after any calls on a fresh store
    (keys and values below 4 GiB), opening its file again gives a store with
    exactly the same content, deletions included, ready for more calls. *)
Theorem bitcask_reopen (os : list store_op) :
  Forall op_short os →
  ∃ s0 s1 s2 rs, NewBitcaskStore [] None = Ret (inr s0) ∧ store_run os s0 = Ret (s1, rs) ∧
    NewBitcaskStore (f_data (bc_file s1)) None = Ret (inr s2) ∧
    BitcaskStore_abs s2 = BitcaskStore_abs s1 ∧ BitcaskStore_abs s2 = effect os kv_empty ∧
    f_pos (bc_file s2) = length (f_data (bc_file s2)).
Proof.
  intros Hos. eexists. destruct (bc_run [] os (mkBitcask (mkFile bitcaskMagic 6 None false) ∅ ∅)) as (s1 & rs & E1 & Hd & Hp & Hr & Hc & Ha);
    [by split_and!|].
  destruct (NewBitcask_records os [] None Hos) as (n & m & E & Em & Hn). rewrite !app_nil_r in E.
  destruct n as [|n]; [simpl in Hn; lia|]. cbn [recover_loop] in E. rewrite ReadAt_end in E by done. cbn [mbind go_bind] in E.
  exists s1. eexists _, rs. split; [reflexivity|]. split; [exact E1|]. rewrite Hd. simpl app. split; [exact E|].
  unfold BitcaskStore_abs at 1 3. cbn [bc_strings bc_hashes bc_file]. fold (maps_kv m). rewrite Ha, Em. done.
Qed.

(** Opening a Bitcask file ends on every content: it returns a store or an
    error, never a crash or a loop. *)
Theorem bitcask_open_total (data : list byte) (room : option nat) : returns (NewBitcaskStore data room).
Proof.
  unfold NewBitcaskStore, recover. cbv zeta. case_bool_decide; [destruct (file_Write _ _); by eexists|].
  case_match; [|by eexists]. case_match; [by eexists|].
  destruct (recover_loop_total (length (f_data (file_Open data room)) + 1) (f_data (file_Open data room))
    (length bitcaskMagic) (∅, ∅)) as [m ->]; [lia|lia|]. by eexists.
Qed.

(** A torn record is not detected: when a crash leaves only the operation
    byte of a [Set] at the end of the file, opening it adds the empty key
    with an empty value to the content. *)
Theorem bitcask_torn_set (os : list store_op) :
  Forall op_short os →
  ∃ s, NewBitcaskStore (bitcaskMagic ++ records os ++ ["S"%char]) None = Ret (inr s) ∧
    BitcaskStore_abs s = kv_set [] [] (effect os kv_empty).
Proof.
  intros Hos. destruct (NewBitcask_records os ["S"%char] None Hos) as (n & m & E & Em & Hn).
  destruct n as [|[|n]]; [simpl in Hn; lia..|]. rewrite E. clear E.
  set (data := bitcaskMagic ++ records os ++ ["S"%char]).
  assert (file_ReadAt 1 (length (bitcaskMagic ++ records os)) data = Some ["S"%char]) as E1.
  { unfold data. rewrite app_assoc. apply ReadAt_op. }
  assert (length data = length (bitcaskMagic ++ records os) + 1) as Hld.
  { unfold data. rewrite app_assoc, length_app. done. }
  assert (readStringAt data (length (bitcaskMagic ++ records os) + 1) = ([], length (bitcaskMagic ++ records os) + 1)) as E2.
  { unfold readStringAt, file_ReadAt. by rewrite decide_False by lia. }
  cbn [recover_loop]. rewrite E1. unfold recover_op. rewrite bool_decide_eq_true_2 by done. rewrite E2, E2.
  rewrite ReadAt_end by lia. cbn [mbind go_bind fst snd]. eexists. split; [reflexivity|].
  unfold BitcaskStore_abs; simpl. rewrite <-Em. reflexivity.
Qed.

(** ** Witnesses *)
Definition bc_demo : list store_op :=
  [OpSet (str "a") (str "1"); OpHSet (str "h") (str "f") []; OpGet (str "a"); OpDel (str "a"); OpSet (str "b") (str "2")].

Lemma bc_demo_short : Forall op_short bc_demo.
Proof. repeat (apply Forall_cons_2; [unfold op_short, short_part; simpl; lia|]). apply Forall_nil_2. Qed.

Lemma bitcask_reopen_witness :
  ∃ s0 s1 s2 rs, NewBitcaskStore [] None = Ret (inr s0) ∧ store_run bc_demo s0 = Ret (s1, rs) ∧
    NewBitcaskStore (f_data (bc_file s1)) None = Ret (inr s2) ∧
    BitcaskStore_abs s2 = BitcaskStore_abs s1 ∧ BitcaskStore_abs s2 = effect bc_demo kv_empty ∧
    f_pos (bc_file s2) = length (f_data (bc_file s2)).
Proof. apply (bitcask_reopen bc_demo). apply bc_demo_short. Defined.

Lemma bitcask_torn_set_witness :
  ∃ s, NewBitcaskStore (bitcaskMagic ++ records bc_demo ++ ["S"%char]) None = Ret (inr s) ∧
    BitcaskStore_abs s = kv_set [] [] (effect bc_demo kv_empty).
Proof. apply (bitcask_torn_set bc_demo). apply bc_demo_short. Defined.
