(* ===== verification/KeyOrder.v ===== *)
(** * KeyOrder: the order of keys the ordered stores rely on

    Go compares strings bytewise ([str_ltb]): a strict total order, in which
    the strings with a common prefix are contiguous. *)

From stdpp Require Import base list gmap strings sorting.
From Stdlib Require Import ZArith Lia Ascii.
From S2P Require Import Prelude GoLib.

Definition str_lt (a b : gostring) : Prop := str_ltb a b = true.

Lemma str_ltb_irrefl a : str_ltb a a = false.
Proof. induction a as [|x a IH]; simpl; [done|]. by rewrite Z.ltb_irrefl. Qed.

Lemma str_ltb_trans a b c : str_ltb a b = true → str_ltb b c = true → str_ltb a c = true.
Proof.
  revert b c; induction a as [|x a IH]; intros [|y b] [|z c]; simpl; try done.
  destruct (Z.ltb_spec (byteZ x) (byteZ y)), (Z.ltb_spec (byteZ y) (byteZ x)), (Z.ltb_spec (byteZ y) (byteZ z)),
    (Z.ltb_spec (byteZ z) (byteZ y)), (Z.ltb_spec (byteZ x) (byteZ z)), (Z.ltb_spec (byteZ z) (byteZ x));
    try done; try lia. apply IH.
Qed.

Lemma str_ltb_total a b : str_ltb a b = false → str_ltb b a = false → a = b.
Proof.
  revert b; induction a as [|x a IH]; intros [|y b]; simpl; try done.
  destruct (Z.ltb_spec (byteZ x) (byteZ y)), (Z.ltb_spec (byteZ y) (byteZ x)); try done; try lia.
  intros. f_equal; [apply byteZ_inj; lia|by apply IH].
Qed.

#[global] Instance str_lt_strict : StrictOrder str_lt.
Proof.
  split.
  - intros a Ha. unfold str_lt in Ha. by rewrite str_ltb_irrefl in Ha.
  - intros a b c. apply str_ltb_trans.
Qed.

Lemma str_ltb_asym a b : str_ltb a b = true → str_ltb b a = false.
Proof.
  intros H. destruct (str_ltb b a) eqn:E; [|done]. pose proof (str_ltb_trans a b a H E) as H2.
  by rewrite str_ltb_irrefl in H2.
Qed.

(** Not smaller: equal or larger. *)
Lemma str_ltb_false a b : str_ltb a b = false ↔ a = b ∨ str_ltb b a = true.
Proof.
  split.
  - intros H. destruct (str_ltb b a) eqn:E; [by right|]. left. by apply str_ltb_total.
  - intros [->|H]; [apply str_ltb_irrefl|by apply str_ltb_asym].
Qed.

Lemma HasPrefix_not_lt k p : HasPrefix k p = true → str_ltb k p = false.
Proof.
  revert p; induction k as [|x k IH]; intros [|y p]; simpl; try done.
  intros [->%bool_decide_eq_true H]%andb_prop. rewrite Z.ltb_irrefl. by apply IH.
Qed.

(** Past the strings with a prefix, none has it. *)
Lemma HasPrefix_convex p k k' :
  str_ltb k p = false → str_ltb k k' = true → HasPrefix k' p = true → HasPrefix k p = true.
Proof.
  revert k k'; induction p as [|y p IH]; intros [|x k] [|x' k']; simpl; try done.
  intros H1 H2 [->%bool_decide_eq_true H3]%andb_prop.
  destruct (Z.ltb_spec (byteZ x) (byteZ x')) as [|H4]; [done|].
  destruct (Z.ltb_spec (byteZ x') (byteZ x)) as [|H5]; [done|].
  assert (x = x') as -> by (apply byteZ_inj; lia). rewrite bool_decide_eq_true_2 by done. simpl. by eapply IH.
Qed.

(** ** Sorted keys and association lists *)
Abbreviation sorted_keys := (StronglySorted str_lt).

Lemma sorted_mid l1 k l2 : sorted_keys (l1 ++ k :: l2) → (k ∉ l1) ∧ (k ∉ l2).
Proof.
  intros (H1 & _ & H2)%StronglySorted_app. apply StronglySorted_cons in H2 as [H2 _]. split; intros Hk.
  - apply (irreflexivity str_lt k). apply (H1 k k Hk). by left.
  - apply (irreflexivity str_lt k). rewrite Forall_forall in H2. by apply H2.
Qed.

Lemma sorted_insert l1 k l2 :
  sorted_keys (l1 ++ l2) → (∀ x, x ∈ l1 → str_lt x k) → (∀ x, x ∈ l2 → str_lt k x) → sorted_keys (l1 ++ k :: l2).
Proof.
  intros (H1 & H2 & H3)%StronglySorted_app Hl Hr. apply StronglySorted_app. split_and!; [|done|].
  - intros x y Hx [->|Hy]%elem_of_cons; [by apply Hl|by apply H1].
  - apply StronglySorted_cons. split; [|done]. apply Forall_forall. auto.
Qed.

Lemma sorted_remove l1 k l2 : sorted_keys (l1 ++ k :: l2) → sorted_keys (l1 ++ l2).
Proof.
  intros (H1 & H2 & H3)%StronglySorted_app. apply StronglySorted_cons in H3 as [_ H3].
  apply StronglySorted_app. split_and!; [|done|done]. intros x y Hx Hy. apply H1; [done|by right].
Qed.

Lemma sorted_NoDup l : sorted_keys l → NoDup l.
Proof.
  induction 1 as [|k l Hs IH Hk]; constructor; [|done]. intros Hin. rewrite Forall_forall in Hk.
  apply (irreflexivity str_lt k). by apply Hk.
Qed.

Lemma filter_none (P : gostring → Prop) `{!∀ k, Decision (P k)} (l : list gostring) : (∀ k, k ∈ l → ¬ P k) → filter P l = [].
Proof.
  induction l as [|x l IH]; intros Hl; [done|]. rewrite filter_cons_False by (apply Hl; by left).
  apply IH. intros k Hk. apply Hl. by right.
Qed.

Lemma filter_same (f g : gostring → bool) (l : list gostring) :
  (∀ k, k ∈ l → f k = g k) → filter (λ k, f k) l = filter (λ k, g k) l.
Proof.
  induction l as [|x l IH]; intros Hl; [done|]. rewrite !filter_cons. rewrite (Hl x) by by left.
  rewrite IH by (intros; apply Hl; by right). done.
Qed.

Lemma sorted_filter (f : gostring → bool) (l : list gostring) : sorted_keys l → sorted_keys (filter (λ k, f k) l).
Proof.
  induction 1 as [|x l Hs IH Hx]; [constructor|]. rewrite filter_cons. case_decide; [|done]. constructor; [done|].
  rewrite Forall_forall in *. intros k [_ Hk]%list_elem_of_filter. by apply Hx.
Qed.

Section assoc.
Context {V : Type}.
Implicit Types l : list (gostring * V).

Lemma assoc_insert l1 k v l2 :
  k ∉ l1.*1 → (list_to_map (l1 ++ (k, v) :: l2) : gmap gostring V) = <[k := v]> (list_to_map (l1 ++ l2)).
Proof.
  induction l1 as [|[k' v'] l1 IH]; simpl; [done|]. intros [Hne Hn]%not_elem_of_cons.
  rewrite IH by done. by rewrite insert_insert_ne.
Qed.

Lemma assoc_update l1 k v v' l2 :
  k ∉ l1.*1 → (list_to_map (l1 ++ (k, v) :: l2) : gmap gostring V) = <[k := v]> (list_to_map (l1 ++ (k, v') :: l2)).
Proof. intros Hk. rewrite !assoc_insert by done. by rewrite insert_insert_eq. Qed.

Lemma assoc_delete l1 k v l2 :
  k ∉ l1.*1 → k ∉ l2.*1 → (list_to_map (l1 ++ l2) : gmap gostring V) = delete k (list_to_map (l1 ++ (k, v) :: l2)).
Proof.
  intros H1 H2. rewrite assoc_insert by done. rewrite delete_insert_eq, delete_id; [done|].
  apply not_elem_of_list_to_map. rewrite fmap_app. set_solver.
Qed.

Lemma assoc_lookup l1 k v l2 : k ∉ l1.*1 → (list_to_map (l1 ++ (k, v) :: l2) : gmap gostring V) !! k = Some v.
Proof. intros H. rewrite assoc_insert by done. apply lookup_insert_eq. Qed.

Lemma assoc_is_Some l k : is_Some ((list_to_map l : gmap gostring V) !! k) ↔ k ∈ l.*1.
Proof.
  destruct (decide (k ∈ l.*1)) as [H|H]; split; try done.
  - intros _. destruct ((list_to_map l : gmap gostring V) !! k) eqn:E; [by eexists|].
    by apply not_elem_of_list_to_map in E.
  - intros [v Hv]. apply not_elem_of_list_to_map in H. by rewrite H in Hv.
Qed.
End assoc.
