(* ===== verification/OrderedSpec.v ===== *)
(** * OrderedSpec: the contract of [store.OrderedStore]

    [OrderedOps] is the Go interface (src/store/store.go): a [Store] with two
    ordered scans.  [OrderedLaws] states what they return on a store that
    discharges [StoreLaws]. *)

From stdpp Require Import base list gmap strings sorting.
From S2P Require Import Prelude GoLib StoreSpec KeyOrder.

Class OrderedOps (S : Type) `{!StoreOps S} := {
  st_PrefixKeys : gostring → S → go (list gostring);
  st_RangeKeys : gostring → gostring → S → go (list gostring)
}.

(** [ks] lists the keys of [m] that satisfy [p], each once, in order. *)
Definition keys_where (m : kv) (p : gostring → bool) (ks : list gostring) : Prop :=
  sorted_keys ks ∧ ∀ k, k ∈ ks ↔ is_Some (kv_get k m) ∧ p k = true.

Definition in_range (start end_ k : gostring) : bool := negb (str_ltb k start) && negb (str_ltb end_ k).

Class OrderedLaws (S : Type) `{!StoreOps S} `{!OrderedOps S} `{!StoreLaws S} := {
  law_PrefixKeys prefix s : st_inv s →
    ∃ ks, st_PrefixKeys prefix s = Ret ks ∧ keys_where (st_abs s) (λ k, HasPrefix k prefix) ks;
  law_RangeKeys start end_ s : st_inv s →
    ∃ ks, st_RangeKeys start end_ s = Ret ks ∧ keys_where (st_abs s) (in_range start end_) ks
}.

(** The list is determined by the content. *)
Lemma keys_where_unique m p ks ks' : keys_where m p ks → keys_where m p ks' → ks = ks'.
Proof.
  intros [Hs Hk] [Hs' Hk']. apply (StronglySorted_unique_strong str_lt); [|done|done|].
  - intros x y _ _ Hxy Hyx. exfalso. apply (irreflexivity str_lt x). by transitivity y.
  - apply NoDup_Permutation; [by apply sorted_NoDup|by apply sorted_NoDup|]. intros k. by rewrite Hk, Hk'.
Qed.

(** Both scans after a sequence of calls. *)
Lemma ordered_refines {S} `{!StoreOps S} `{!OrderedOps S} `{!StoreLaws S} `{!OrderedLaws S} os (s : S) prefix start end_ :
  st_inv s →
  ∃ s' ps rs, store_run os s = Ret (s', (kv_run os (st_abs s)).2) ∧
    st_PrefixKeys prefix s' = Ret ps ∧ keys_where (kv_run os (st_abs s)).1 (λ k, HasPrefix k prefix) ps ∧
    st_RangeKeys start end_ s' = Ret rs ∧ keys_where (kv_run os (st_abs s)).1 (in_range start end_) rs.
Proof.
  intros Hi. destruct (store_refines os s Hi) as (s' & E & Hi' & Ha). rewrite <-Ha.
  destruct (law_PrefixKeys prefix s' Hi') as (ps & ? & ?). destruct (law_RangeKeys start end_ s' Hi') as (rs & ? & ?).
  by exists s', ps, rs.
Qed.
