(* ===== verification/SkipListStore.v ===== *)
(** * SkipListStore: src/store/skiplist.go

    The skip list as the code has it: nodes in a heap, each with its slice of
    forward pointers; the level of a new node comes from a sequence of coin
    flips ([rand.Float64() < skipP]) that is part of the state, and the
    theorems hold for every sequence.  An index out of range and a nil
    dereference panic. *)

From stdpp Require Import base list gmap strings sorting.
From Stdlib Require Import ZArith Lia Ascii.
From S2P Require Import Prelude GoLib StoreSpec KeyOrder OrderedSpec.

Definition skipMaxLevel : nat := 32.

Record skipNode := mkSkip { sn_key : gostring; sn_value : gostring; sn_next : list (option nat) }.

Record SkipListStore := mkSkipList {
  sk_head : nat;
  sk_level : nat;
  sk_hashes : gmap gostring (gmap gostring gostring);
  sk_heap : gmap nat skipNode;
  sk_alloc : nat;                 (* the next free address *)
  sk_coins : nat → bool;          (* the outcomes of [rand.Float64() < skipP] *)
  sk_pos : nat                    (* how many were drawn *)
}.

Definition NewSkipListStore (coins : nat → bool) : SkipListStore :=
  mkSkipList 0 1 ∅ {[0 := mkSkip [] [] (replicate skipMaxLevel None)]} 1 coins 0.

Definition deref (heap : gmap nat skipNode) (p : nat) : go skipNode :=
  match heap !! p with Some n => Ret n | None => Panic end.

(** [p.next[i]] *)
Definition next_of (heap : gmap nat skipNode) (p i : nat) : go (option nat) :=
  n ← deref heap p;
  match sn_next n !! i with Some q => Ret q | None => Panic end.

(** [p.next[i] = q] *)
Definition set_next (p i : nat) (q : option nat) (heap : gmap nat skipNode) : go (gmap nat skipNode) :=
  n ← deref heap p;
  if decide (i < length (sn_next n)) then Ret (<[p := mkSkip (sn_key n) (sn_value n) (<[i := q]> (sn_next n))]> heap)
  else Panic.

(** [for curr.next[i] != nil && curr.next[i].key < key { curr = curr.next[i] }] *)
Fixpoint walk_level (fuel : nat) (heap : gmap nat skipNode) (key : gostring) (i curr : nat) : go nat :=
  match fuel with
  | O => NoFuel
  | S f =>
      q ← next_of heap curr i;
      match q with
      | None => Ret curr
      | Some n =>
          nd ← deref heap n;
          if str_ltb (sn_key nd) key then walk_level f heap key i n else Ret curr
      end
  end.

(** [for i := level - 1; i >= 0; i-- { ...; prev[i] = curr }]; the searches
    that keep no [prev] pass an empty one. *)
Fixpoint descend (level : nat) (heap : gmap nat skipNode) (key : gostring) (curr : nat) (prev : list (option nat)) :
    go (nat * list (option nat)) :=
  match level with
  | O => Ret (curr, prev)
  | S i =>
      c ← walk_level (S (size heap)) heap key i curr;
      descend i heap key c (<[i := Some c]> prev)
  end.

(** [for level < skipMaxLevel && rand.Float64() < skipP { level++ }]: the level
    and the position after the flips. *)
Fixpoint skipLevel_loop (fuel : nat) (coins : nat → bool) (pos level : nat) : nat * nat :=
  match fuel with
  | O => (level, pos)
  | S f =>
      if decide (level < skipMaxLevel) then
        if coins pos then skipLevel_loop f coins (pos + 1) (level + 1) else (level, pos + 1)
      else (level, pos)
  end.
Definition skipLevel (coins : nat → bool) (pos : nat) : nat * nat := skipLevel_loop skipMaxLevel coins pos 1.

(** [prev[i]], dereferenced by the caller: a nil entry panics. *)
Definition prev_at (prev : list (option nat)) (i : nat) : go nat :=
  match prev !! i with Some (Some p) => Ret p | _ => Panic end.

(** [n.next[i] = prev[i].next[i]; prev[i].next[i] = n] *)
Definition link (prev : list (option nat)) (n i : nat) (heap : gmap nat skipNode) : go (gmap nat skipNode) :=
  p ← prev_at prev i;
  q ← next_of heap p i;
  heap1 ← set_next n i q heap;
  set_next p i (Some n) heap1.

(** [prev[i].next[i] = curr.next[i]] *)
Definition unlink (prev : list (option nat)) (curr i : nat) (heap : gmap nat skipNode) : go (gmap nat skipNode) :=
  q ← next_of heap curr i;
  p ← prev_at prev i;
  set_next p i q heap.

Definition with_heap (heap : gmap nat skipNode) (s : SkipListStore) : SkipListStore :=
  mkSkipList (sk_head s) (sk_level s) (sk_hashes s) heap (sk_alloc s) (sk_coins s) (sk_pos s).

(** The end of [Set], when the key is not there. *)
Definition insert_node (prev : list (option nat)) (key value : gostring) (s : SkipListStore) : go SkipListStore :=
  let '(level, pos) := skipLevel (sk_coins s) (sk_pos s) in
  let prev' := if decide (sk_level s < level)
               then foldl (λ pr i, <[i := Some (sk_head s)]> pr) prev (seq (sk_level s) (level - sk_level s)) else prev in
  let slevel := if decide (sk_level s < level) then level else sk_level s in
  let n := sk_alloc s in
  let heap1 := <[n := mkSkip key value (replicate level None)]> (sk_heap s) in
  heap2 ← go_foldl (link prev' n) (seq 0 level) heap1;
  Ret (mkSkipList (sk_head s) slevel (sk_hashes s) heap2 (n + 1) (sk_coins s) pos).

Definition SkipListStore_Set (key value : gostring) (s : SkipListStore) : go SkipListStore :=
  '(curr, prev) ← descend (sk_level s) (sk_heap s) key (sk_head s) (replicate skipMaxLevel None);
  q ← next_of (sk_heap s) curr 0;
  match q with
  | Some n =>
      nd ← deref (sk_heap s) n;
      if decide (sn_key nd = key) then Ret (with_heap (<[n := mkSkip (sn_key nd) value (sn_next nd)]> (sk_heap s)) s)
      else insert_node prev key value s
  | None => insert_node prev key value s
  end.

Definition SkipListStore_Del (key : gostring) (s : SkipListStore) : go SkipListStore :=
  '(curr, prev) ← descend (sk_level s) (sk_heap s) key (sk_head s) (replicate skipMaxLevel None);
  q ← next_of (sk_heap s) curr 0;
  heap ← match q with
         | Some n =>
             nd ← deref (sk_heap s) n;
             if decide (sn_key nd = key) then go_foldl (unlink prev n) (seq 0 (length (sn_next nd))) (sk_heap s)
             else Ret (sk_heap s)
         | None => Ret (sk_heap s)
         end;
  Ret (mkSkipList (sk_head s) (sk_level s) (delete key (sk_hashes s)) heap (sk_alloc s) (sk_coins s) (sk_pos s)).

Definition SkipListStore_Get (key : gostring) (s : SkipListStore) : go (option gostring) :=
  '(curr, _) ← descend (sk_level s) (sk_heap s) key (sk_head s) [];
  q ← next_of (sk_heap s) curr 0;
  match q with
  | Some n => nd ← deref (sk_heap s) n; Ret (if decide (sn_key nd = key) then Some (sn_value nd) else None)
  | None => Ret None
  end.

Definition SkipListStore_HSet (h k v : gostring) (s : SkipListStore) : go SkipListStore :=
  Ret (mkSkipList (sk_head s) (sk_level s) (hash_put h k v (sk_hashes s)) (sk_heap s) (sk_alloc s) (sk_coins s) (sk_pos s)).
Definition SkipListStore_HGet (h k : gostring) (s : SkipListStore) : go (option gostring) := Ret (hash_get h k (sk_hashes s)).
Definition SkipListStore_HGetAll (h : gostring) (s : SkipListStore) : go (option (gmap gostring gostring)) := Ret (sk_hashes s !! h).
Definition SkipListStore_Close (s : SkipListStore) : go SkipListStore := Ret s.

(** [for curr != nil && cond(curr.key) { if keep(curr.key) { append }; curr = curr.next[0] }] *)
Fixpoint scan_keys (fuel : nat) (heap : gmap nat skipNode) (cond keep : gostring → bool) (curr : option nat) : go (list gostring) :=
  match fuel with
  | O => NoFuel
  | S f =>
      match curr with
      | None => Ret []
      | Some n =>
          nd ← deref heap n;
          if cond (sn_key nd) then
            q ← next_of heap n 0;
            out ← scan_keys f heap cond keep q;
            Ret (if keep (sn_key nd) then sn_key nd :: out else out)
          else Ret []
      end
  end.

Definition SkipListStore_PrefixKeys (prefix : gostring) (s : SkipListStore) : go (list gostring) :=
  '(curr, _) ← descend (sk_level s) (sk_heap s) prefix (sk_head s) [];
  q ← next_of (sk_heap s) curr 0;
  scan_keys (S (size (sk_heap s))) (sk_heap s) (λ k, HasPrefix k prefix) (λ _, true) q.

Definition SkipListStore_RangeKeys (start end_ : gostring) (s : SkipListStore) : go (list gostring) :=
  '(curr, _) ← descend (sk_level s) (sk_heap s) start (sk_head s) [];
  q ← next_of (sk_heap s) curr 0;
  scan_keys (S (size (sk_heap s))) (sk_heap s) (λ k, negb (str_ltb end_ k)) (λ k, negb (str_ltb k start)) q.

#[global] Instance SkipListStore_ops : StoreOps SkipListStore := {
  st_Set := SkipListStore_Set;
  st_Get := SkipListStore_Get;
  st_Del := SkipListStore_Del;
  st_HSet := SkipListStore_HSet;
  st_HGet := SkipListStore_HGet;
  st_HGetAll := SkipListStore_HGetAll;
  st_Close := SkipListStore_Close
}.

Example skip_ex :
  ('(s, rs) ← store_run [OpSet (str "b") (str "1"); OpSet (str "a") (str "2"); OpSet (str "c") (str "3"); OpSet (str "b") (str "4");
              OpDel (str "a"); OpGet (str "a"); OpGet (str "b"); OpGet (str "c")] (NewSkipListStore (λ n, Nat.even n));
  ks ← SkipListStore_RangeKeys (str "a") (str "bz") s; Ret (drop 5 rs, ks))
  = Ret ([OutVal None; OutVal (Some (str "4")); OutVal (Some (str "3"))], [str "b"]).
Proof. vm_compute. reflexivity. Qed.

(** ** The shape of the heap *)
Definition hgt (heap : gmap nat skipNode) (n : nat) : nat := from_option (λ nd, length (sn_next nd)) 0 (heap !! n).
Definition keyof (heap : gmap nat skipNode) (n : nat) : gostring := from_option sn_key [] (heap !! n).
Definition valof (heap : gmap nat skipNode) (n : nat) : gostring := from_option sn_value [] (heap !! n).

(** The first node of a list that reaches level [i]. *)
Definition first (heap : gmap nat skipNode) (i : nat) (l : list nat) : option nat :=
  List.find (λ n, Nat.ltb i (hgt heap n)) l.

Arguments first : simpl never.

(** The nodes of [l] are linked: at each of its levels a node points to the
    next node of the list that reaches that level. *)
Definition chain (heap : gmap nat skipNode) (l : list nat) : Prop :=
  ∀ pre n post, l = pre ++ n :: post →
    ∃ nd, heap !! n = Some nd ∧ ∀ i, i < length (sn_next nd) → sn_next nd !! i = Some (first heap i post).

Record sk_rep (s : SkipListStore) (ns : list nat) : Prop := mk_rep {
  rep_chain : chain (sk_heap s) (sk_head s :: ns);
  rep_nodup : NoDup (sk_head s :: ns);
  rep_head : hgt (sk_heap s) (sk_head s) = skipMaxLevel;
  rep_hgt n : n ∈ ns → 1 ≤ hgt (sk_heap s) n ≤ sk_level s;
  rep_level : 1 ≤ sk_level s ≤ skipMaxLevel;
  rep_sorted : sorted_keys (keyof (sk_heap s) <$> ns);
  rep_alloc p : is_Some (sk_heap s !! p) → p < sk_alloc s
}.

Lemma first_cons heap i x l : first heap i (x :: l) = if decide (i < hgt heap x) then Some x else first heap i l.
Proof. unfold first. simpl. destruct (Nat.ltb_spec i (hgt heap x)); [by rewrite decide_True|by rewrite decide_False by lia]. Qed.

Lemma first_app heap i l1 l2 :
  first heap i (l1 ++ l2) = match first heap i l1 with Some n => Some n | None => first heap i l2 end.
Proof. unfold first. induction l1 as [|x l1 IH]; simpl; [done|]. by destruct (Nat.ltb _ _). Qed.

Lemma first_Some heap i l n :
  first heap i l = Some n → ∃ l1 l2, l = l1 ++ n :: l2 ∧ i < hgt heap n ∧ first heap i l1 = None.
Proof.
  unfold first. induction l as [|x l IH]; simpl; [done|]. destruct (Nat.ltb i (hgt heap x)) eqn:E; intros H.
  - simplify_eq. apply Nat.ltb_lt in E. by exists [], l.
  - destruct (IH H) as (l1 & l2 & -> & ? & Hn). exists (x :: l1), l2. simpl. by rewrite E.
Qed.

Lemma first_absent heap i l : first heap i l = None ↔ ∀ n, n ∈ l → hgt heap n ≤ i.
Proof.
  unfold first. split.
  - intros H n Hn%list_elem_of_In. apply (List.find_none _ _ H) in Hn. apply Nat.ltb_ge in Hn. done.
  - intros H. induction l as [|x l IH]; simpl; [done|].
    rewrite (proj2 (Nat.ltb_ge _ _)) by (apply H; by left). apply IH. intros n Hn. apply H. by right.
Qed.

Lemma first_elem heap i l n : first heap i l = Some n → n ∈ l.
Proof. intros (l1 & l2 & -> & _)%first_Some. apply elem_of_app. right. by left. Qed.

Lemma hgt_Some heap n nd : heap !! n = Some nd → hgt heap n = length (sn_next nd).
Proof. intros H. unfold hgt. by rewrite H. Qed.

Lemma keyof_Some heap n nd : heap !! n = Some nd → keyof heap n = sn_key nd.
Proof. intros H. unfold keyof. by rewrite H. Qed.

(** Following a pointer of a chain. *)
Lemma chain_next heap l pre n post i :
  chain heap l → l = pre ++ n :: post → i < hgt heap n → next_of heap n i = Ret (first heap i post).
Proof.
  intros Hc Hl Hi. destruct (Hc pre n post Hl) as (nd & Hn & Hp). unfold next_of, deref. rewrite Hn. simpl.
  rewrite Hp; [done|]. by rewrite <-(hgt_Some _ _ _ Hn).
Qed.

Lemma chain_deref heap l n : chain heap l → n ∈ l → ∃ nd, heap !! n = Some nd.
Proof. intros Hc (pre & post & Hl)%list_elem_of_split. destruct (Hc pre n post Hl) as (nd & ? & _). by exists nd. Qed.

(** ** The search *)
Section search.
Context (heap : gmap nat skipNode) (key : gostring) (lo hi : list nat).
Context (Hchain : chain heap (lo ++ hi)).
(** [lo] is the head and the smaller keys, [hi] the others. *)
Context (Hlo : ∀ pre n post, lo = pre ++ n :: post → pre ≠ [] → str_ltb (keyof heap n) key = true).
Context (Hhi : ∀ n, n ∈ hi → str_ltb (keyof heap n) key = false).

(** [p] is the last node of [lo] that reaches level [i]. *)
Definition last_at (i p : nat) : Prop := ∃ a b, lo = a ++ p :: b ∧ i < hgt heap p ∧ first heap i b = None.

Lemma last_at_next i p : last_at i p → next_of heap p i = Ret (first heap i hi).
Proof using Hchain.
  intros (a & b & Hl & Hi & Hb).
  rewrite (chain_next heap (lo ++ hi) a p (b ++ hi) i); [|done|by rewrite Hl, <-app_assoc|done].
  by rewrite first_app, Hb.
Qed.

Lemma walk_level_spec fuel i a curr b :
  lo = a ++ curr :: b → i < hgt heap curr → length b < fuel →
  ∃ p, walk_level fuel heap key i curr = Ret p ∧ last_at i p.
Proof.
  revert a curr b; induction fuel as [|f IH]; intros a curr b Hl Hi Hf; [lia|]. cbn [walk_level].
  rewrite (chain_next heap (lo ++ hi) a curr (b ++ hi) i); [|done|by rewrite Hl, <-app_assoc|done].
  cbn [mbind go_bind]. rewrite first_app. destruct (first heap i b) as [n|] eqn:E.
  - destruct (first_Some _ _ _ _ E) as (b1 & b2 & -> & Hn & Hb1).
    assert (lo = (a ++ curr :: b1) ++ n :: b2) as Hl2 by (rewrite Hl, <-app_assoc; done).
    destruct (chain_deref heap (lo ++ hi) n Hchain) as [nd Hnd]; [rewrite Hl2; set_solver|].
    unfold deref. rewrite Hnd. cbn [mbind go_bind]. rewrite <-(keyof_Some _ _ _ Hnd).
    rewrite (Hlo _ _ _ Hl2) by (by destruct a). apply (IH _ _ _ Hl2 Hn).
    rewrite length_app in Hf. simpl in Hf. lia.
  - destruct (first heap i hi) as [n|] eqn:E2; [|exists curr; split; [done|by exists a, b]].
    destruct (chain_deref heap (lo ++ hi) n Hchain) as [nd Hnd].
    { apply elem_of_app. right. by eapply first_elem. }
    unfold deref. rewrite Hnd. cbn [mbind go_bind]. rewrite <-(keyof_Some _ _ _ Hnd).
    rewrite Hhi by by eapply first_elem. exists curr. split; [done|by exists a, b].
Qed.

Lemma chain_length : NoDup (lo ++ hi) → length (lo ++ hi) ≤ size heap.
Proof.
  intros Hnd. rewrite <-size_dom. rewrite <-(size_list_to_set (C:=gset nat) (lo ++ hi)) by done.
  apply subseteq_size. intros n Hn%elem_of_list_to_set. apply elem_of_dom. by eapply chain_deref.
Qed.

Lemma descend_spec level curr prev :
  NoDup (lo ++ hi) → curr ∈ lo → level ≤ hgt heap curr →
  ∃ c prev', descend level heap key curr prev = Ret (c, prev') ∧ length prev' = length prev ∧
    (level = 0 → c = curr) ∧ (0 < level → last_at 0 c) ∧
    (∀ i, i < level → i < length prev → ∃ p, prev' !! i = Some (Some p) ∧ last_at i p) ∧
    (∀ i, level ≤ i → prev' !! i = prev !! i).
Proof.
  intros Hnd. revert curr prev; induction level as [|i IH]; intros curr prev Hc Hh.
  { exists curr, prev. split_and!; [done|done|done|lia|lia|done]. }
  cbn [descend]. apply list_elem_of_split in Hc as (a & b & Hl).
  destruct (walk_level_spec (S (size heap)) i a curr b Hl) as (p & -> & Hp); [lia| |].
  { pose proof (chain_length Hnd) as Hsz. rewrite Hl, !length_app in Hsz. simpl in Hsz. lia. }
  cbn [mbind go_bind]. pose proof Hp as (a' & b' & Hl' & Hi & _).
  destruct (IH p (<[i:=Some p]> prev)) as (c & prev' & -> & Hlen & H0 & H1 & H2 & H3); [rewrite Hl'; set_solver|lia|].
  rewrite length_insert in *. exists c, prev'. split_and!; [done|done|lia| | |].
  - intros _. destruct (decide (i = 0)) as [->|]; [by rewrite H0|apply H1; lia].
  - intros j Hj Hjl. destruct (decide (j = i)) as [->|]; [|apply H2; lia].
    exists p. split; [|done]. rewrite H3 by lia. by apply list_lookup_insert_eq.
  - intros j Hj. rewrite H3 by lia. apply list_lookup_insert_ne. lia.
Qed.
End search.

(** ** Writing pointers *)
Lemma next_of_Some heap p nd i q : heap !! p = Some nd → sn_next nd !! i = Some q → next_of heap p i = Ret q.
Proof. intros Hp Hq. unfold next_of, deref. rewrite Hp. simpl. by rewrite Hq. Qed.

Lemma set_next_Some heap p nd i q :
  heap !! p = Some nd → i < length (sn_next nd) →
  set_next p i q heap = Ret (<[p := mkSkip (sn_key nd) (sn_value nd) (<[i := q]> (sn_next nd))]> heap).
Proof. intros Hp Hi. unfold set_next, deref. rewrite Hp. simpl. by rewrite decide_True. Qed.

(** Pending writes: [w p i = Some q] writes [q] to [p.next[i]]; [h'] is [h]
    after the writes [w]. *)
Definition patched (w : nat → nat → option (option nat)) (h h' : gmap nat skipNode) : Prop :=
  ∀ p, match h !! p with
       | Some nd => ∃ nx, h' !! p = Some (mkSkip (sn_key nd) (sn_value nd) nx) ∧ length nx = length (sn_next nd) ∧
           ∀ i, i < length nx → nx !! i = match w p i with Some q => Some q | None => sn_next nd !! i end
       | None => h' !! p = None
       end.

Lemma patched_none h : patched (λ _ _, None) h h.
Proof. intros p. destruct (h !! p) as [[k v nx]|] eqn:E; [|done]. by exists nx. Qed.

Lemma patched_ext w w' h h' : (∀ p i, w p i = w' p i) → patched w h h' → patched w' h h'.
Proof.
  intros Hw Hp p. specialize (Hp p). destruct (h !! p) as [nd|]; [|done].
  destruct Hp as (nx & H1 & H2 & H3). exists nx. split_and!; [done..|]. intros i Hi. rewrite <-Hw. by apply H3.
Qed.

Definition write (p i : nat) (q : option nat) (w : nat → nat → option (option nat)) : nat → nat → option (option nat) :=
  λ p' i', if decide (p' = p ∧ i' = i) then Some q else w p' i'.

Lemma patched_write w h h' p i q :
  patched w h h' → i < hgt h p → ∃ h'', set_next p i q h' = Ret h'' ∧ patched (write p i q w) h h''.
Proof.
  intros Hp Hi. pose proof (Hp p) as Hpp. unfold hgt in Hi. destruct (h !! p) as [nd|] eqn:E; simpl in Hi; [|lia].
  destruct Hpp as (nx & Hn & Hlen & Hnx). erewrite set_next_Some by (done || simpl; lia).
  eexists. split; [done|]. intros p'. specialize (Hp p'). simpl. destruct (decide (p' = p)) as [->|Hne].
  - rewrite E. exists (<[i:=q]> nx). rewrite lookup_insert_eq, length_insert. split_and!; [done..|].
    intros i' Hi'. unfold write. destruct (decide (i' = i)) as [->|].
    + rewrite list_lookup_insert_eq by lia. by rewrite decide_True.
    + rewrite list_lookup_insert_ne, decide_False by naive_solver. by apply Hnx.
  - rewrite lookup_insert_ne by done. destruct (h !! p') as [nd'|] eqn:E'; [|done].
    destruct Hp as (nx' & H1 & H2 & H3). exists nx'. split_and!; [done..|]. intros i' Hi'. unfold write.
    rewrite decide_False by naive_solver. by apply H3.
Qed.

(** Reading after the writes. *)
Lemma patched_next w h h' p i q :
  patched w h h' → next_of h p i = Ret q → next_of h' p i = Ret (default q (w p i)).
Proof.
  intros Hp. specialize (Hp p). unfold next_of, deref. destruct (h !! p) as [nd|]; [|done].
  destruct Hp as (nx & -> & Hlen & Hnx). simpl. destruct (sn_next nd !! i) as [q'|] eqn:Eq; [|done]. intros [= ->].
  rewrite Hnx by (rewrite Hlen; by eapply lookup_lt_Some). rewrite Eq. by destruct (w p i).
Qed.

Lemma patched_dom w h h' p : patched w h h' → is_Some (h' !! p) ↔ is_Some (h !! p).
Proof.
  intros Hp. specialize (Hp p). destruct (h !! p) as [nd|]; [|by rewrite Hp].
  destruct Hp as (nx & -> & _). by split; eexists.
Qed.

Lemma patched_hgt w h h' p : patched w h h' → hgt h' p = hgt h p.
Proof. intros Hp. specialize (Hp p). unfold hgt. destruct (h !! p); [destruct Hp as (nx & -> & Hl & _); done|by rewrite Hp]. Qed.

Lemma patched_keyof w h h' p : patched w h h' → keyof h' p = keyof h p.
Proof. intros Hp. specialize (Hp p). unfold keyof. destruct (h !! p); [by destruct Hp as (nx & -> & _)|by rewrite Hp]. Qed.

Lemma patched_valof w h h' p : patched w h h' → valof h' p = valof h p.
Proof. intros Hp. specialize (Hp p). unfold valof. destruct (h !! p); [by destruct Hp as (nx & -> & _)|by rewrite Hp]. Qed.

Lemma first_ext h h' i l : (∀ n, n ∈ l → hgt h' n = hgt h n) → first h' i l = first h i l.
Proof.
  unfold first. induction l as [|x l IH]; intros H; simpl; [done|]. rewrite H by by left.
  destruct (Nat.ltb _ _); [done|]. apply IH. intros n Hn. apply H. by right.
Qed.

Lemma next_of_hgt h p i q : next_of h p i = Ret q → i < hgt h p.
Proof.
  unfold next_of, deref, hgt. destruct (h !! p) as [nd|]; [|done]. simpl.
  destruct (sn_next nd !! i) eqn:E; [|done]. intros _. by eapply lookup_lt_Some.
Qed.

(** The loop of [Del]: the pointers of [pv i] at the levels below [j]. *)
Definition unlink_writes (pv : nat → nat) (q : nat → option nat) (j : nat) : nat → nat → option (option nat) :=
  λ p i, if decide (i < j ∧ p = pv i) then Some (q i) else None.

Lemma unlink_all prev c h pv q j :
  (∀ i, i < j → prev !! i = Some (Some (pv i)) ∧ pv i ≠ c ∧ i < hgt h (pv i) ∧ next_of h c i = Ret (q i)) →
  ∃ h', go_foldl (unlink prev c) (seq 0 j) h = Ret h' ∧ patched (unlink_writes pv q j) h h'.
Proof.
  induction j as [|j IH]; intros Hpv.
  { exists h. split; [done|]. eapply patched_ext; [|apply patched_none]. intros p i. unfold unlink_writes. by rewrite decide_False by lia. }
  destruct IH as (h1 & E1 & Hp1); [intros i Hi; apply Hpv; lia|].
  rewrite seq_S, go_foldl_app, E1. cbn [mbind go_bind go_foldl]. rewrite Nat.add_0_l.
  destruct (Hpv j) as (Hprev & Hne & Hlt & Hq); [lia|]. unfold unlink.
  rewrite (patched_next _ _ _ _ _ _ Hp1 Hq). unfold unlink_writes at 1. rewrite decide_False by lia.
  unfold prev_at. rewrite Hprev. cbn [mbind go_bind default].
  destruct (patched_write _ _ _ (pv j) j (q j) Hp1 Hlt) as (h2 & -> & Hp2). exists h2. split; [done|].
  eapply patched_ext; [|exact Hp2]. intros p i. unfold write, unlink_writes.
  destruct (decide (i = j)) as [->|]; repeat case_decide; destruct_and?; subst; first [done|exfalso; lia].
Qed.

(** The loop of [Set]. *)
Definition link_writes (pv : nat → nat) (n : nat) (q : nat → option nat) (j : nat) : nat → nat → option (option nat) :=
  λ p i, if decide (i < j) then
           if decide (p = n) then Some (q i) else if decide (p = pv i) then Some (Some n) else None
         else None.

Lemma link_all prev n h pv q j :
  j ≤ hgt h n →
  (∀ i, i < j → prev !! i = Some (Some (pv i)) ∧ pv i ≠ n ∧ next_of h (pv i) i = Ret (q i)) →
  ∃ h', go_foldl (link prev n) (seq 0 j) h = Ret h' ∧ patched (link_writes pv n q j) h h'.
Proof.
  induction j as [|j IH]; intros Hj Hpv; [by exists h; split; [|apply patched_none]|].
  destruct IH as (h1 & E1 & Hp1); [lia|intros i Hi; apply Hpv; lia|].
  rewrite seq_S, go_foldl_app, E1. cbn [mbind go_bind go_foldl]. rewrite Nat.add_0_l.
  destruct (Hpv j) as (Hprev & Hne & Hq); [lia|]. unfold link, prev_at. rewrite Hprev. cbn [mbind go_bind].
  rewrite (patched_next _ _ _ _ _ _ Hp1 Hq). unfold link_writes at 1. rewrite decide_False by lia. cbn [mbind go_bind default].
  destruct (patched_write _ _ _ n j (q j) Hp1) as (h2 & -> & Hp2); [lia|]. cbn [mbind go_bind].
  destruct (patched_write _ _ _ (pv j) j (Some n) Hp2) as (h3 & -> & Hp3); [by eapply next_of_hgt|].
  exists h3. split; [done|]. eapply patched_ext; [|exact Hp3].
  intros p i. unfold write, link_writes.
  destruct (decide (i = j)) as [->|]; repeat case_decide; destruct_and?; subst; first [done|exfalso; lia].
Qed.

(** ** The position of a key *)
Lemma NoDup_split_eq (a b a' b' : list nat) p : NoDup (a ++ p :: b) → a ++ p :: b = a' ++ p :: b' → a = a' ∧ b = b'.
Proof.
  revert a'; induction a as [|x a IH]; intros [|x' a'] Hnd; simpl in *; intros Heq; simplify_eq; [done| | |].
  - apply NoDup_cons in Hnd as [Hnd _]. set_solver.
  - apply NoDup_cons in Hnd as [Hnd _]. set_solver.
  - apply NoDup_cons in Hnd as [_ Hnd]. destruct (IH a' Hnd) as [-> ->]; done.
Qed.

Lemma last_at_last heap lo i p : last_at heap lo i p → last (filter (λ n, i < hgt heap n) lo) = Some p.
Proof.
  intros (a & b & -> & Hi & Hb). rewrite filter_app, filter_cons_True by done.
  assert (filter (λ n, i < hgt heap n) b = []) as ->; [|apply last_snoc].
  destruct (filter (λ n, i < hgt heap n) b) as [|n l] eqn:E; [done|].
  assert (n ∈ filter (λ n, i < hgt heap n) b) as [H1 H2]%list_elem_of_filter by (rewrite E; by left).
  apply first_absent with (n := n) in Hb; [lia|done].
Qed.

(** A node that reaches level [i] is the last one exactly when no later one
    does. *)
Lemma last_at_iff heap lo i q pre p post :
  NoDup lo → last_at heap lo i q → lo = pre ++ p :: post → i < hgt heap p → q = p ↔ first heap i post = None.
Proof.
  intros Hnd Hq Hl Hi. split.
  - intros <-. destruct Hq as (a & b & Hl' & _ & Hb). rewrite Hl' in Hnd, Hl.
    by destruct (NoDup_split_eq _ _ _ _ _ Hnd Hl) as [-> ->].
  - intros Hp. apply last_at_last in Hq. assert (last_at heap lo i p) as Hp2 by by exists pre, post.
    apply last_at_last in Hp2. congruence.
Qed.

Lemma sorted_split heap key ns :
  sorted_keys (keyof heap <$> ns) →
  ∃ los his, ns = los ++ his ∧ (∀ n, n ∈ los → str_ltb (keyof heap n) key = true) ∧
    (∀ n, n ∈ his → str_ltb (keyof heap n) key = false).
Proof.
  induction ns as [|x l IH]; [intros _; exists [], []; split_and!; set_solver|].
  rewrite fmap_cons, StronglySorted_cons. intros [Hx Hs]. destruct (str_ltb (keyof heap x) key) eqn:E.
  - destruct (IH Hs) as (los & his & -> & Hlo & Hhi). exists (x :: los), his. split_and!; [done| |done].
    intros n [->|Hn]%elem_of_cons; [done|by apply Hlo].
  - exists [], (x :: l). split_and!; [done|set_solver|]. intros n [->|Hn]%elem_of_cons; [done|].
    rewrite Forall_forall in Hx. specialize (Hx _ (list_elem_of_fmap_2 (keyof heap) _ _ Hn)). destruct (str_ltb (keyof heap n) key) eqn:E2; [|done].
    unfold str_lt in Hx. by rewrite (str_ltb_trans _ _ _ Hx E2) in E.
Qed.

(** What a search finds: [los] are the nodes with smaller keys, [his] the
    others. *)
Record located (s : SkipListStore) (ns : list nat) (key : gostring) (los his : list nat) : Prop := {
  loc_eq : ns = los ++ his;
  loc_lo n : n ∈ los → str_ltb (keyof (sk_heap s) n) key = true;
  loc_hi n : n ∈ his → str_ltb (keyof (sk_heap s) n) key = false
}.

Lemma first_0 heap l : (∀ n, n ∈ l → 1 ≤ hgt heap n) → first heap 0 l = head l.
Proof.
  destruct l as [|x l]; simpl; [done|]. intros H. unfold first. simpl. rewrite (proj2 (Nat.ltb_lt _ _)); [done|].
  specialize (H x (list_elem_of_here _ _)). lia.
Qed.

Lemma sk_search s ns key prev :
  sk_rep s ns →
  ∃ los his c prev', located s ns key los his ∧
    descend (sk_level s) (sk_heap s) key (sk_head s) prev = Ret (c, prev') ∧ length prev' = length prev ∧
    next_of (sk_heap s) c 0 = Ret (head his) ∧
    (∀ i, i < sk_level s → i < length prev → ∃ p, prev' !! i = Some (Some p) ∧ last_at (sk_heap s) (sk_head s :: los) i p).
Proof.
  intros [Hc Hnd Hh Hhg Hlv Hs _]. destruct (sorted_split (sk_heap s) key ns Hs) as (los & his & -> & Hlo & Hhi).
  assert (∀ pre n post, sk_head s :: los = pre ++ n :: post → pre ≠ [] → str_ltb (keyof (sk_heap s) n) key = true) as Hlo'.
  { intros [|x pre] n post Hl Hpre; [done|]. simplify_eq/=. apply Hlo. set_solver. }
  destruct (descend_spec (sk_heap s) key (sk_head s :: los) his Hc Hlo' Hhi (sk_level s) (sk_head s) prev)
    as (c & prev' & E & Hlen & _ & H0 & H1 & _); [done|by left|lia|].
  exists los, his, c, prev'. split_and!; [by split|done|done| |done].
  rewrite (last_at_next (sk_heap s) (sk_head s :: los) his Hc 0 c) by (apply H0; lia).
  rewrite first_0; [done|]. intros n Hn. apply Hhg. set_solver.
Qed.

(** ** Splicing a chain *)
Lemma chain_patched heap w heap' l' :
  patched w heap heap' →
  (∀ pre p post, l' = pre ++ p :: post → is_Some (heap !! p) ∧
     ∀ i, i < hgt heap p → ∃ q, next_of heap p i = Ret q ∧ default q (w p i) = first heap i post) →
  chain heap' l'.
Proof.
  intros Hp Hl pre p post Heq. destruct (Hl pre p post Heq) as [[nd Hnd] Hi]. pose proof (Hp p) as Hpp. rewrite Hnd in Hpp.
  destruct Hpp as (nx & Hn & Hlen & _). eexists. split; [done|]. simpl. intros i Hlt.
  rewrite (first_ext heap) by (intros; by eapply patched_hgt).
  destruct (Hi i) as (q & Hq & Hd); [rewrite (hgt_Some _ _ _ Hnd); lia|].
  pose proof (patched_next _ _ _ _ _ _ Hp Hq) as Hx. rewrite Hd in Hx. unfold next_of, deref in Hx.
  rewrite Hn in Hx. simpl in Hx. by destruct (nx !! i); simplify_eq.
Qed.

Section splice.
Context (heap : gmap nat skipNode) (lo hi : list nat) (pv : nat → nat).

(** Removing [c]: the pointers to it skip it. *)
Lemma chain_unlink heap' c :
  NoDup (lo ++ c :: hi) → chain heap (lo ++ c :: hi) → (∀ i, i < hgt heap c → last_at heap lo i (pv i)) →
  patched (unlink_writes pv (λ i, first heap i hi) (hgt heap c)) heap heap' → chain heap' (lo ++ hi).
Proof.
  intros Hnd Hc Hpv Hp. apply (chain_patched _ _ _ _ Hp). intros pre p post Heq.
  pose proof Hnd as (Hndl & Hdis & Hndr)%NoDup_app.
  assert (is_Some (heap !! p)) as Hsome.
  { destruct (chain_deref _ _ p Hc) as [nd Hn]; [|by exists nd]. assert (p ∈ lo ++ hi) by (rewrite Heq; set_solver). set_solver. }
  split; [done|]. intros i Hi. unfold unlink_writes.
  apply app_eq_inv in Heq as [(k & Hlo & Hk)|(k & Hpre & Hhi)].
  - destruct k as [|x k]; simplify_eq/=.
    + rewrite app_nil_r in *. eexists. split; [eapply (chain_next _ _ (pre ++ [c]) p post); [done|by rewrite <-app_assoc|done]|].
      rewrite decide_False; [done|]. intros [Hic ->]. destruct (Hpv i Hic) as (a & b & -> & _). set_solver.
    + eexists. split; [eapply (chain_next _ _ pre x (k ++ c :: hi)); [done|by rewrite <-app_assoc|done]|].
      rewrite !first_app, first_cons. destruct (decide (i < hgt heap c)) as [Hic|Hic].
      * pose proof (last_at_iff heap _ i (pv i) pre x k Hndl (Hpv i Hic) eq_refl Hi) as Hiff.
        case_decide as Hd; simpl.
        -- destruct Hd as [_ Hd]. rewrite (proj1 Hiff) by done. done.
        -- destruct (first heap i k) eqn:E; [done|]. destruct Hd. split; [done|]. symmetry. by apply Hiff.
      * by rewrite decide_False by lia.
  - subst pre hi. eexists. split; [eapply (chain_next _ _ (lo ++ c :: k) p post); [done|by rewrite <-app_assoc|done]|].
    rewrite decide_False; [done|]. intros [Hic ->]. destruct (Hpv i Hic) as (a & b & -> & _). set_solver.
Qed.

(** Inserting [n], present in the heap. *)
Lemma chain_link heap' n :
  NoDup (lo ++ hi) → n ∉ lo ++ hi → is_Some (heap !! n) → chain heap (lo ++ hi) →
  (∀ i, i < hgt heap n → last_at heap lo i (pv i)) →
  (∀ i, i < hgt heap n → ∃ q, next_of heap n i = Ret q) →
  patched (link_writes pv n (λ i, first heap i hi) (hgt heap n)) heap heap' → chain heap' (lo ++ n :: hi).
Proof.
  intros Hnd Hfr Hn Hc Hpv Hnx Hp. apply (chain_patched _ _ _ _ Hp). intros pre p post Heq.
  pose proof Hnd as (Hndl & Hdis & Hndr)%NoDup_app. split.
  { destruct (decide (p = n)) as [->|]; [done|]. destruct (chain_deref _ _ p Hc) as [nd Hnd']; [|by exists nd].
    assert (p ∈ lo ++ n :: hi) by (rewrite Heq; set_solver). set_solver. }
  intros i Hi. unfold link_writes. apply app_eq_inv in Heq as [(k & Hlo & Hk)|(k & Hpre & Hhi)].
  - destruct k as [|x k]; simplify_eq/=.
    + destruct (Hnx i Hi) as [q Hq]. exists q. split; [done|]. by rewrite decide_True, decide_True by done.
    + eexists. split; [eapply (chain_next _ _ pre x (k ++ hi)); [done|by rewrite <-app_assoc|done]|].
      rewrite !first_app, first_cons. destruct (decide (i < hgt heap n)) as [Hin|Hin]; [|done].
      pose proof (last_at_iff heap _ i (pv i) pre x k Hndl (Hpv i Hin) eq_refl Hi) as Hiff.
      rewrite decide_False by (intros ->; set_solver). case_decide as Hd; simpl.
      * by rewrite (proj1 Hiff).
      * destruct (first heap i k) eqn:E; [done|]. destruct Hd. symmetry. by apply Hiff.
  - destruct k as [|x k]; simplify_eq/=.
    + destruct (Hnx i Hi) as [q Hq]. exists q. split; [done|]. by rewrite decide_True, decide_True by done.
    + eexists. split; [eapply (chain_next _ _ (lo ++ k) p post); [done|by rewrite <-app_assoc|done]|].
      destruct (decide (i < hgt heap x)) as [Hin|Hin]; [|done].
      rewrite decide_False by (intros ->; set_solver). rewrite decide_False; [done|].
      intros ->. destruct (Hpv i Hin) as (a & b & -> & _). set_solver.
Qed.
End splice.

(** ** The content *)
Fixpoint bottom (fuel : nat) (heap : gmap nat skipNode) (p : nat) : list nat :=
  match fuel with
  | O => []
  | S f => match next_of heap p 0 with Ret (Some q) => q :: bottom f heap q | _ => [] end
  end.
Definition sk_nodes (s : SkipListStore) : list nat := bottom (size (sk_heap s)) (sk_heap s) (sk_head s).
Definition sk_entries (heap : gmap nat skipNode) (l : list nat) : list (gostring * gostring) :=
  (λ n, (keyof heap n, valof heap n)) <$> l.
Definition SkipListStore_abs (s : SkipListStore) : kv :=
  mkKV (list_to_map (sk_entries (sk_heap s) (sk_nodes s))) (sk_hashes s).

Lemma bottom_chain heap fuel pre p post :
  chain heap (pre ++ p :: post) → 1 ≤ hgt heap p → (∀ n, n ∈ post → 1 ≤ hgt heap n) → length post ≤ fuel → bottom fuel heap p = post.
Proof.
  revert pre p post; induction fuel as [|f IH]; intros pre p post Hc Hp Hpost Hf; [by destruct post; simpl in *; [|lia]|].
  cbn [bottom]. rewrite (chain_next heap _ pre p post 0 Hc) by (done || lia). rewrite first_0 by done.
  destruct post as [|x post]; simpl; [done|]. f_equal. apply (IH (pre ++ [p])); [by rewrite <-app_assoc| | |].
  - apply Hpost. by left.
  - intros n Hn. apply Hpost. by right.
  - simpl in Hf. lia.
Qed.

Lemma rep_size s ns : sk_rep s ns → S (length ns) ≤ size (sk_heap s).
Proof. intros Hr. apply (chain_length (sk_heap s) [] (sk_head s :: ns)); apply Hr. Qed.

Lemma rep_nodes s ns : sk_rep s ns → sk_nodes s = ns.
Proof.
  intros Hr. unfold sk_nodes. apply (bottom_chain _ _ []).
  - apply Hr.
  - rewrite (rep_head s ns Hr). unfold skipMaxLevel. lia.
  - intros n Hn. by apply (rep_hgt s ns Hr).
  - pose proof (rep_size s ns Hr). lia.
Qed.

Lemma entries_keys heap l : (sk_entries heap l).*1 = keyof heap <$> l.
Proof. unfold sk_entries. by rewrite <-list_fmap_compose. Qed.

Lemma entries_ext h h' l :
  (∀ n, n ∈ l → keyof h' n = keyof h n ∧ valof h' n = valof h n) → sk_entries h' l = sk_entries h l.
Proof. intros H. apply list_fmap_ext. intros i n Hn%list_elem_of_lookup_2. by destruct (H n Hn) as [-> ->]. Qed.

Lemma rep_abs s ns : sk_rep s ns → SkipListStore_abs s = mkKV (list_to_map (sk_entries (sk_heap s) ns)) (sk_hashes s).
Proof. intros Hr. unfold SkipListStore_abs. by rewrite (rep_nodes s ns Hr). Qed.

(** The key searched for is not among the smaller ones, and among the others
    only at their head. *)
Lemma located_lo s ns key los his : located s ns key los his → key ∉ (sk_entries (sk_heap s) los).*1.
Proof.
  intros [_ Hlo _]. rewrite entries_keys. intros (n & Hk & Hn)%list_elem_of_fmap. apply Hlo in Hn.
  rewrite <-Hk, str_ltb_irrefl in Hn. done.
Qed.

Lemma located_hi s ns key los his :
  sk_rep s ns → located s ns key los his →
  (∀ n, head his = Some n → keyof (sk_heap s) n ≠ key) → ∀ n, n ∈ his → str_lt key (keyof (sk_heap s) n).
Proof.
  intros Hr [-> _ Hhi] Hh. pose proof (rep_sorted s _ Hr) as Hs. rewrite fmap_app in Hs. apply StronglySorted_app_1_r in Hs.
  destruct his as [|x his]; [set_solver|]. rewrite fmap_cons in Hs. apply StronglySorted_cons in Hs as [Hs _].
  rewrite Forall_forall in Hs. assert (str_lt key (keyof (sk_heap s) x)) as Hx.
  { destruct (proj1 (str_ltb_false (keyof (sk_heap s) x) key)) as [Heq|]; [apply Hhi; by left| |done].
    by destruct (Hh x). }
  intros n [->|Hn]%elem_of_cons; [done|]. etrans; [exact Hx|]. apply Hs. by apply list_elem_of_fmap_2.
Qed.

(** ** Inserting *)
Lemma skipLevel_loop_bound fuel coins pos level :
  level ≤ skipMaxLevel → level ≤ (skipLevel_loop fuel coins pos level).1 ≤ skipMaxLevel.
Proof.
  revert pos level; induction fuel as [|f IH]; intros pos level Hl; cbn [skipLevel_loop]; [simpl; lia|].
  destruct (decide (level < skipMaxLevel)); [|simpl; lia]. destruct (coins pos); [|simpl; lia].
  specialize (IH (pos + 1) (level + 1)). lia.
Qed.

Lemma skipLevel_bound coins pos : 1 ≤ (skipLevel coins pos).1 ≤ skipMaxLevel.
Proof. apply skipLevel_loop_bound. unfold skipMaxLevel. lia. Qed.

(** [for i := s.level; i < level; i++ { prev[i] = s.head }] *)
Lemma raise_prev (h : nat) (prev : list (option nat)) a n i :
  a + n ≤ length prev →
  foldl (λ pr i, <[i := Some h]> pr) prev (seq a n) !! i = if decide (a ≤ i < a + n) then Some (Some h) else prev !! i.
Proof.
  revert a prev; induction n as [|n IH]; intros a prev Hl; simpl; [by rewrite decide_False by lia|].
  rewrite IH by (rewrite length_insert; lia). destruct (decide (i = a)) as [->|].
  - rewrite decide_False, decide_True by lia. apply list_lookup_insert_eq. lia.
  - rewrite list_lookup_insert_ne by done. destruct (decide (S a ≤ i < S a + n)).
    + by rewrite decide_True by lia.
    + by rewrite decide_False by lia.
Qed.

Lemma last_at_ext h h' lo i p : (∀ n, n ∈ lo → hgt h' n = hgt h n) → last_at h lo i p → last_at h' lo i p.
Proof.
  intros Hh (a & b & -> & Hi & Hb). exists a, b. split_and!; [done|rewrite Hh; [done|set_solver]|].
  rewrite (first_ext h); [done|]. intros n Hn. apply Hh. set_solver.
Qed.

Lemma hgt_insert_ne h n nd p : p ≠ n → hgt (<[n:=nd]> h) p = hgt h p.
Proof. intros. unfold hgt. by rewrite lookup_insert_ne. Qed.

Lemma chain_insert_ne h n nd l : n ∉ l → chain h l → chain (<[n:=nd]> h) l.
Proof.
  intros Hn Hc pre p post Hl. destruct (Hc pre p post Hl) as (ndp & Hp & Hx). exists ndp.
  rewrite lookup_insert_ne by set_solver. split; [done|]. intros i Hi. rewrite Hx by done. f_equal. symmetry.
  apply first_ext. intros m Hm. apply hgt_insert_ne. set_solver.
Qed.

(** The predecessors after the level was raised. *)
Lemma raised_prev s ns los his key prev level i :
  sk_rep s ns → located s ns key los his → length prev = skipMaxLevel → level ≤ skipMaxLevel →
  (∀ i, i < sk_level s → ∃ p, prev !! i = Some (Some p) ∧ last_at (sk_heap s) (sk_head s :: los) i p) →
  i < level →
  ∃ p, (if decide (sk_level s < level)
        then foldl (λ pr i, <[i := Some (sk_head s)]> pr) prev (seq (sk_level s) (level - sk_level s)) else prev) !! i = Some (Some p)
    ∧ last_at (sk_heap s) (sk_head s :: los) i p.
Proof.
  intros Hr [-> _ _] Hlen Hlv Hprev Hi. destruct (decide (sk_level s < level)); [|apply Hprev; lia].
  rewrite raise_prev by lia. case_decide; [|apply Hprev; lia]. exists (sk_head s). split; [done|].
  exists [], los. split_and!; [done|rewrite (rep_head s _ Hr); lia|]. apply first_absent. intros n Hn.
  destruct (rep_hgt s _ Hr n); [set_solver|lia].
Qed.

Lemma rep_fresh s ns : sk_rep s ns → sk_alloc s ∉ sk_head s :: ns.
Proof.
  intros Hr Hn. destruct (chain_deref _ _ _ (rep_chain s ns Hr) Hn) as [nd Hnd].
  assert (sk_alloc s < sk_alloc s) by (apply (rep_alloc s ns Hr); by exists nd). lia.
Qed.

(** The heap after the loop of [Set], for a fresh node [n]. *)
Lemma link_heap heap hd los his prev n key value level :
  NoDup (hd :: los ++ his) → chain heap (hd :: los ++ his) → n ∉ hd :: los ++ his →
  (∀ i, i < level → ∃ p, prev !! i = Some (Some p) ∧ last_at heap (hd :: los) i p) →
  ∃ w h', go_foldl (link prev n) (seq 0 level) (<[n := mkSkip key value (replicate level None)]> heap) = Ret h' ∧
    patched w (<[n := mkSkip key value (replicate level None)]> heap) h' ∧ chain h' (hd :: los ++ n :: his).
Proof.
  intros Hnd Hc Hfresh Hprev. set (h1 := <[n:=_]> heap). set (pv := λ i, match prev !! i with Some (Some p) => p | _ => 0 end).
  assert (hgt h1 n = level) as Hhn by (unfold h1, hgt; rewrite lookup_insert_eq; apply length_replicate).
  assert (chain h1 ((hd :: los) ++ his)) as Hc1 by by apply chain_insert_ne.
  assert (∀ i, i < level → prev !! i = Some (Some (pv i)) ∧ last_at h1 (hd :: los) i (pv i)) as Hpv.
  { intros i Hi. destruct (Hprev i Hi) as (p & Hp & Hla). unfold pv. rewrite Hp. split; [done|].
    eapply last_at_ext; [|exact Hla]. intros m Hm. apply hgt_insert_ne. set_solver. }
  destruct (link_all prev n h1 pv (λ i, first h1 i his) level) as (h2 & E2 & Hp2); [lia| |].
  { intros i Hi. destruct (Hpv i Hi) as [Hp Hla]. split_and!; [done| |by apply (last_at_next h1 _ _ Hc1)].
    destruct Hla as (a & b & Hab & _). intros Hx. rewrite Hx in Hab.
    assert (n ∈ hd :: los) by (rewrite Hab; set_solver). set_solver. }
  exists (link_writes pv n (λ i, first h1 i his) level), h2. split_and!; [done|done|].
  apply (chain_link h1 (hd :: los) his pv h2 n); [done|done|unfold h1; by rewrite lookup_insert_eq|done| | |by rewrite Hhn].
  - rewrite Hhn. intros i Hi. by apply Hpv.
  - rewrite Hhn. intros i Hi. exists None. eapply next_of_Some; [apply lookup_insert_eq|]. by apply lookup_replicate_2.
Qed.

Lemma insert_node_spec s ns key value prev los his :
  sk_rep s ns → located s ns key los his → (∀ n, n ∈ his → str_lt key (keyof (sk_heap s) n)) → length prev = skipMaxLevel →
  (∀ i, i < sk_level s → ∃ p, prev !! i = Some (Some p) ∧ last_at (sk_heap s) (sk_head s :: los) i p) →
  ∃ s', insert_node prev key value s = Ret s' ∧ sk_rep s' (los ++ sk_alloc s :: his) ∧ sk_hashes s' = sk_hashes s ∧
    sk_entries (sk_heap s') (los ++ sk_alloc s :: his) = sk_entries (sk_heap s) los ++ (key, value) :: sk_entries (sk_heap s) his.
Proof.
  intros Hr Hloc Hhi Hlen Hprev. unfold insert_node. pose proof (skipLevel_bound (sk_coins s) (sk_pos s)) as Hlb.
  destruct (skipLevel (sk_coins s) (sk_pos s)) as [level pos]. simpl in Hlb. cbv zeta.
  pose proof (λ i, raised_prev s ns los his key prev level i Hr Hloc Hlen (proj2 Hlb) Hprev) as Hraise.
  destruct Hloc as [-> Hlo _]. pose proof (rep_fresh s _ Hr) as Hfresh. pose proof Hr as [Hc Hnd Hh Hhg Hlv Hs Hal].
  destruct (link_heap _ _ _ _ _ _ key value level Hnd Hc Hfresh Hraise) as (w & h2 & -> & Hp & Hc2). cbn [mbind go_bind].
  set (n := sk_alloc s) in *. set (h1 := <[n:=_]> (sk_heap s)) in *.
  assert (∀ p, p ∈ sk_head s :: los ++ his →
    hgt h2 p = hgt (sk_heap s) p ∧ keyof h2 p = keyof (sk_heap s) p ∧ valof h2 p = valof (sk_heap s) p) as Hold.
  { intros p Hpin. rewrite (patched_hgt _ _ _ _ Hp), (patched_keyof _ _ _ _ Hp), (patched_valof _ _ _ _ Hp).
    unfold h1, hgt, keyof, valof. by rewrite lookup_insert_ne by congruence. }
  assert (hgt h2 n = level ∧ keyof h2 n = key ∧ valof h2 n = value) as (Hn1 & Hn2 & Hn3).
  { rewrite (patched_hgt _ _ _ _ Hp), (patched_keyof _ _ _ _ Hp), (patched_valof _ _ _ _ Hp).
    unfold h1, hgt, keyof, valof. rewrite lookup_insert_eq. simpl. by rewrite length_replicate. }
  assert (sk_entries h2 (los ++ n :: his) = sk_entries (sk_heap s) los ++ (key, value) :: sk_entries (sk_heap s) his) as Hent.
  { unfold sk_entries. rewrite fmap_app, fmap_cons, Hn2, Hn3. f_equal; [|f_equal]; apply entries_ext; intros p Hpin; apply Hold; set_solver. }
  eexists. split; [done|]. split_and!; [|done|done]. split; simpl.
  - done.
  - rewrite app_comm_cons, <-Permutation_middle. by constructor.
  - rewrite <-Hh. apply Hold. by left.
  - intros m Hm. assert (m = n ∨ m ∈ los ++ his) as [->|Hm'] by set_solver; [rewrite Hn1; case_decide; lia|].
    rewrite (proj1 (Hold m (list_elem_of_further _ _ _ Hm'))). apply Hhg in Hm'. case_decide; lia.
  - case_decide; lia.
  - rewrite <-entries_keys, Hent, fmap_app, fmap_cons, !entries_keys. rewrite fmap_app in Hs. apply sorted_insert; [done| |].
    + intros x (m & -> & Hm)%list_elem_of_fmap. by apply Hlo.
    + intros x (m & -> & Hm)%list_elem_of_fmap. by apply Hhi.
  - intros p Hps%(patched_dom _ _ _ _ Hp). unfold h1 in Hps. rewrite lookup_insert in Hps. case_decide; [lia|].
    apply Hal in Hps. lia.
Qed.

(** ** The operations keep the representation *)

(** Two heaps with the same keys and pointers represent the same list. *)
Lemma rep_values s ns h' :
  sk_rep s ns → (∀ p, (λ nd, (sn_key nd, sn_next nd)) <$> h' !! p = (λ nd, (sn_key nd, sn_next nd)) <$> sk_heap s !! p) →
  sk_rep (with_heap h' s) ns.
Proof.
  intros [Hc Hnd Hh Hhg Hlv Hs Hal] Heq.
  assert (∀ p, hgt h' p = hgt (sk_heap s) p ∧ keyof h' p = keyof (sk_heap s) p) as Hsame.
  { intros p. specialize (Heq p). unfold hgt, keyof.
    destruct (h' !! p), (sk_heap s !! p); simpl in *; try done. by injection Heq as -> ->. }
  split; simpl; try done.
  - intros pre p post Hl. destruct (Hc pre p post Hl) as (nd & Hp & Hx). specialize (Heq p). rewrite Hp in Heq.
    destruct (h' !! p) as [nd'|]; [|done]. injection Heq as Hk Hn. exists nd'. split; [done|]. rewrite Hn. intros i Hi.
    rewrite Hx by done. f_equal. symmetry. apply first_ext. intros m _. apply Hsame.
  - rewrite <-Hh. apply Hsame.
  - intros n Hn. rewrite (proj1 (Hsame n)). by apply Hhg.
  - erewrite list_fmap_ext; [exact Hs|]. intros i n _. apply Hsame.
  - intros p Hp. apply Hal. specialize (Heq p). destruct (h' !! p), (sk_heap s !! p); try done.
Qed.

Lemma entries_mid heap n nd los his :
  heap !! n = Some nd → sk_entries heap (los ++ n :: his) = sk_entries heap los ++ (sn_key nd, sn_value nd) :: sk_entries heap his.
Proof. intros Hn. unfold sk_entries. rewrite fmap_app, fmap_cons. do 2 f_equal. unfold keyof, valof. by rewrite Hn. Qed.

Lemma entries_insert_ne heap n nd l : n ∉ l → sk_entries (<[n:=nd]> heap) l = sk_entries heap l.
Proof. intros Hn. apply entries_ext. intros p Hp. unfold keyof, valof. by rewrite lookup_insert_ne by congruence. Qed.

Lemma sk_Set_spec key value s ns :
  sk_rep s ns →
  ∃ s' ns', SkipListStore_Set key value s = Ret s' ∧ sk_rep s' ns' ∧ SkipListStore_abs s' = kv_set key value (SkipListStore_abs s).
Proof.
  intros Hr. unfold SkipListStore_Set.
  destruct (sk_search s ns key (replicate skipMaxLevel None) Hr) as (los & his & c & prev & Hloc & -> & Hlen & Hq & Hprev).
  cbn [mbind go_bind]. rewrite Hq. cbn [mbind go_bind]. rewrite length_replicate in *.
  assert ((∀ n, head his = Some n → keyof (sk_heap s) n ≠ key) →
    ∃ s' ns', insert_node prev key value s = Ret s' ∧ sk_rep s' ns' ∧ SkipListStore_abs s' = kv_set key value (SkipListStore_abs s)) as Hins.
  { intros Hhd. destruct (insert_node_spec s ns key value prev los his Hr Hloc) as (s' & E & Hr' & Hhs & Hent);
      [by apply (located_hi s ns key los)|done| |].
    { intros i Hi. apply Hprev; [done|]. pose proof (rep_level s ns Hr). lia. }
    exists s', (los ++ sk_alloc s :: his). split_and!; [done|done|]. rewrite (rep_abs s' _ Hr'), (rep_abs s _ Hr), Hent, Hhs.
    pose proof (located_lo _ _ _ _ _ Hloc). destruct Hloc as [-> _ _]. unfold kv_set. simpl.
    unfold sk_entries at 3. rewrite fmap_app. f_equal. by apply assoc_insert. }
  destruct his as [|n his]; [by apply Hins|]. cbn [head].
  destruct (chain_deref _ _ n (rep_chain s ns Hr)) as [nd Hnd]; [destruct Hloc; set_solver|].
  unfold deref. rewrite Hnd. cbn [mbind go_bind]. destruct (decide (sn_key nd = key)) as [Hk|Hk].
  - eexists _, ns. split; [done|]. assert (sk_rep (with_heap (<[n := mkSkip (sn_key nd) value (sn_next nd)]> (sk_heap s)) s) ns) as Hr'.
    { apply rep_values; [done|]. intros p. rewrite lookup_insert. case_decide; subst; [by rewrite Hnd|done]. }
    split; [done|]. rewrite (rep_abs _ _ Hr'), (rep_abs s _ Hr).
    pose proof (located_lo _ _ _ _ _ Hloc). destruct Hloc as [-> _ _]. unfold kv_set. simpl. f_equal.
    pose proof (rep_nodup s _ Hr) as (_ & (_ & Hd & (Hd2 & _)%NoDup_cons)%NoDup_app)%NoDup_cons.
    erewrite entries_mid, (entries_mid _ _ _ _ _ Hnd) by apply lookup_insert_eq. rewrite !entries_insert_ne by set_solver.
    simpl. rewrite Hk. by apply assoc_update.
  - apply Hins. intros m [= <-]. by rewrite (keyof_Some _ _ _ Hnd).
Qed.

Lemma located_absent s ns key los his :
  sk_rep s ns → located s ns key los his → (∀ n, head his = Some n → keyof (sk_heap s) n ≠ key) →
  (list_to_map (sk_entries (sk_heap s) ns) : gmap gostring gostring) !! key = None.
Proof.
  intros Hr Hloc Hhd. pose proof (located_lo _ _ _ _ _ Hloc) as Hnlo. pose proof (located_hi _ _ _ _ _ Hr Hloc Hhd) as Hgt.
  apply not_elem_of_list_to_map. destruct Hloc as [-> _ _]. rewrite !entries_keys in *. rewrite fmap_app.
  apply not_elem_of_app. split; [done|]. intros (n & Hk & Hn)%list_elem_of_fmap. apply Hgt in Hn. rewrite <-Hk in Hn.
  by apply irreflexivity in Hn; [|apply _].
Qed.

(** The heap after the loop of [Del]. *)
Lemma unlink_heap heap hd los c his prev :
  NoDup (hd :: los ++ c :: his) → chain heap (hd :: los ++ c :: his) →
  (∀ i, i < hgt heap c → ∃ p, prev !! i = Some (Some p) ∧ last_at heap (hd :: los) i p) →
  ∃ w h', go_foldl (unlink prev c) (seq 0 (hgt heap c)) heap = Ret h' ∧ patched w heap h' ∧ chain h' (hd :: los ++ his).
Proof.
  intros Hnd Hc Hprev. set (pv := λ i, match prev !! i with Some (Some p) => p | _ => 0 end).
  assert (∀ i, i < hgt heap c → prev !! i = Some (Some (pv i)) ∧ last_at heap (hd :: los) i (pv i)) as Hpv.
  { intros i Hi. destruct (Hprev i Hi) as (p & Hp & Hla). unfold pv. by rewrite Hp. }
  pose proof Hnd as (_ & Hdis & _)%(NoDup_app (hd :: los) (c :: his)).
  destruct (unlink_all prev c heap pv (λ i, first heap i his) (hgt heap c)) as (h' & E & Hp).
  { intros i Hi. destruct (Hpv i Hi) as [Hp (a & b & Hab & Hlt & _)]. split_and!; [done| |done|].
    - intros Hx. apply (Hdis c); [rewrite Hab, Hx; set_solver|by left].
    - by apply (chain_next heap (hd :: los ++ c :: his) (hd :: los) c his). }
  exists (unlink_writes pv (λ i, first heap i his) (hgt heap c)), h'. split_and!; [done|done|].
  apply (chain_unlink heap (hd :: los) his pv h' c); [done|done| |done]. intros i Hi. by apply Hpv.
Qed.

Lemma unlink_rep s los c his w h' hs :
  sk_rep s (los ++ c :: his) → patched w (sk_heap s) h' → chain h' (sk_head s :: los ++ his) →
  sk_rep (mkSkipList (sk_head s) (sk_level s) hs h' (sk_alloc s) (sk_coins s) (sk_pos s)) (los ++ his).
Proof.
  intros [Hc Hnd Hh Hhg Hlv Hs Hal] Hp Hc'. split; simpl.
  - done.
  - rewrite app_comm_cons, <-Permutation_middle in Hnd. by apply NoDup_cons in Hnd as [_ Hnd].
  - by rewrite (patched_hgt _ _ _ _ Hp).
  - intros n Hn. rewrite (patched_hgt _ _ _ _ Hp). apply Hhg. set_solver.
  - done.
  - erewrite list_fmap_ext; [|intros i n _; by apply (patched_keyof _ _ _ _ Hp)].
    rewrite fmap_app, fmap_cons in *. by eapply sorted_remove.
  - intros p Hps%(patched_dom _ _ _ _ Hp). by apply Hal.
Qed.

Lemma sk_Del_spec key s ns :
  sk_rep s ns →
  ∃ s' ns', SkipListStore_Del key s = Ret s' ∧ sk_rep s' ns' ∧ SkipListStore_abs s' = kv_del key (SkipListStore_abs s).
Proof.
  intros Hr. unfold SkipListStore_Del.
  destruct (sk_search s ns key (replicate skipMaxLevel None) Hr) as (los & his & c & prev & Hloc & -> & Hlen & Hq & Hprev).
  cbn [mbind go_bind]. rewrite Hq. cbn [mbind go_bind]. rewrite length_replicate in *.
  set (done_with := λ h, mkSkipList (sk_head s) (sk_level s) (delete key (sk_hashes s)) h (sk_alloc s) (sk_coins s) (sk_pos s)).
  pose proof (located_lo _ _ _ _ _ Hloc) as Hnlo.
  assert ((∀ n, head his = Some n → keyof (sk_heap s) n ≠ key) →
    ∃ s' ns', Ret (done_with (sk_heap s)) = Ret s' ∧ sk_rep s' ns' ∧ SkipListStore_abs s' = kv_del key (SkipListStore_abs s)) as Habs.
  { intros Hhd. exists (done_with (sk_heap s)), ns. split; [done|].
    assert (sk_rep (done_with (sk_heap s)) ns) as Hr' by (destruct Hr; by split). split; [done|].
    rewrite (rep_abs _ _ Hr'), (rep_abs s _ Hr). unfold kv_del. simpl. f_equal. symmetry. apply delete_id.
    by eapply located_absent. }
  destruct his as [|n his]; [by apply Habs|]. cbn [head].
  destruct (chain_deref _ _ n (rep_chain s ns Hr)) as [nd Hnd]; [destruct Hloc; set_solver|].
  unfold deref. rewrite Hnd. cbn [mbind go_bind]. destruct (decide (sn_key nd = key)) as [Hk|Hk].
  - destruct Hloc as [-> _ _]. destruct (unlink_heap (sk_heap s) (sk_head s) los n his prev) as (w & h' & E & Hp & Hc').
    { apply Hr. } { apply Hr. } { intros i Hi. pose proof (rep_hgt s _ Hr n). pose proof (rep_level s _ Hr). apply Hprev; set_solver by lia. }
    rewrite <-(hgt_Some _ _ _ Hnd), E. cbn [mbind go_bind]. exists (done_with h'), (los ++ his). split; [done|].
    pose proof (unlink_rep s los n his w h' (delete key (sk_hashes s)) Hr Hp Hc') as Hr'. split; [done|].
    rewrite (rep_abs (done_with h') _ Hr'), (rep_abs s _ Hr). unfold kv_del. simpl. f_equal.
    rewrite (entries_ext (sk_heap s)) by (intros; by rewrite (patched_keyof _ _ _ _ Hp), (patched_valof _ _ _ _ Hp)).
    rewrite (entries_mid _ _ _ _ _ Hnd). unfold sk_entries at 1. rewrite fmap_app, Hk. apply assoc_delete; [done|].
    rewrite entries_keys. pose proof (rep_sorted s _ Hr) as Hs. rewrite fmap_app, fmap_cons, (keyof_Some _ _ _ Hnd), Hk in Hs.
    by apply sorted_mid in Hs as [_ ?].
  - apply Habs. intros m [= <-]. by rewrite (keyof_Some _ _ _ Hnd).
Qed.

Lemma sk_Get_spec key s ns : sk_rep s ns → SkipListStore_Get key s = Ret (kv_get key (SkipListStore_abs s)).
Proof.
  intros Hr. unfold SkipListStore_Get. destruct (sk_search s ns key [] Hr) as (los & his & c & prev & Hloc & -> & _ & Hq & _).
  cbn [mbind go_bind]. rewrite Hq. cbn [mbind go_bind]. rewrite (rep_abs s _ Hr). unfold kv_get. simpl.
  pose proof (located_absent _ _ _ _ _ Hr Hloc) as Habs. pose proof (located_lo _ _ _ _ _ Hloc) as Hlo.
  destruct his as [|n his]; [by rewrite Habs|]. cbn [head].
  destruct (chain_deref _ _ n (rep_chain s ns Hr)) as [nd Hnd]; [destruct Hloc; set_solver|].
  unfold deref. rewrite Hnd. cbn [mbind go_bind]. case_decide as Hk.
  - destruct Hloc as [-> _ _]. rewrite (entries_mid _ _ _ _ _ Hnd), Hk. by rewrite assoc_lookup.
  - rewrite Habs; [done|]. intros m [= <-]. by rewrite (keyof_Some _ _ _ Hnd).
Qed.

#[global] Program Instance SkipListStore_laws : StoreLaws SkipListStore := {
  st_inv := λ s, ∃ ns, sk_rep s ns;
  st_abs := SkipListStore_abs
}.
Next Obligation. intros k v s [ns Hr]. destruct (sk_Set_spec k v s ns Hr) as (s' & ns' & ? & ? & ?). eauto. Qed.
Next Obligation. intros k s [ns Hr]. destruct (sk_Del_spec k s ns Hr) as (s' & ns' & ? & ? & ?). eauto. Qed.
Next Obligation.
  intros h k v s [ns Hr]. eexists. split_and!; [done|exists ns; by destruct Hr|].
  unfold SkipListStore_abs, kv_hset, sk_nodes. simpl. by rewrite hash_put_spec.
Qed.
Next Obligation. intros k s [ns Hr]. by apply (sk_Get_spec k s ns). Qed.
Next Obligation. done. Qed.
Next Obligation. done. Qed.

Lemma NewSkipListStore_rep coins : sk_rep (NewSkipListStore coins) [].
Proof.
  unfold NewSkipListStore. split; cbn [sk_heap sk_head sk_level sk_alloc].
  - intros pre n post Hl. destruct pre as [|? [|]]; simpl in Hl; simplify_eq. eexists. split; [apply lookup_singleton_eq|].
    cbn [sn_next]. rewrite length_replicate. intros i Hi. by apply lookup_replicate_2.
  - by apply NoDup_singleton.
  - unfold hgt. rewrite lookup_singleton_eq. apply length_replicate.
  - set_solver.
  - unfold skipMaxLevel. lia.
  - constructor.
  - intros p [nd Hp]. apply lookup_singleton_Some in Hp as [<- _]. lia.
Qed.

(** ** Ordered scans *)
Lemma scan_keys_spec heap cond keep pre post fuel :
  chain heap (pre ++ post) → (∀ n, n ∈ post → 1 ≤ hgt heap n) → length post < fuel →
  (∀ a n b, post = a ++ n :: b → cond (keyof heap n) = false → ∀ m, m ∈ b → cond (keyof heap m) = false) →
  scan_keys fuel heap cond keep (head post) = Ret (filter (λ k, cond k && keep k) (keyof heap <$> post)).
Proof.
  revert pre post; induction fuel as [|f IH]; intros pre post Hc Hh Hf Hm; [lia|]. cbn [scan_keys].
  destruct post as [|n post]; [done|]. cbn [head].
  destruct (chain_deref _ _ n Hc) as [nd Hnd]; [set_solver|]. unfold deref. rewrite Hnd. cbn [mbind go_bind].
  rewrite fmap_cons, (keyof_Some _ _ _ Hnd), filter_cons. destruct (cond (sn_key nd)) eqn:Ec.
  - rewrite (chain_next heap _ pre n post 0 Hc) by (done || apply Hh; by left). rewrite first_0 by (intros; apply Hh; by right).
    cbn [mbind go_bind]. rewrite (IH (pre ++ [n]) post); [|by rewrite <-app_assoc|intros; apply Hh; by right|simpl in Hf; lia|].
    + cbn [mbind go_bind]. by destruct (keep (sn_key nd)).
    + intros a m b Hpost. apply (Hm (n :: a)). by rewrite Hpost.
  - simpl. f_equal. symmetry. apply filter_none. intros k (m & -> & Hin)%list_elem_of_fmap. 
    rewrite <-(keyof_Some _ _ _ Hnd) in Ec. rewrite (Hm [] n post eq_refl Ec m Hin). by intros [].
Qed.

(** A scan from [start]: [cond], once false, stays false. *)
Lemma sk_scan s ns start cond keep :
  sk_rep s ns → (∀ k k', str_ltb k start = false → cond k = false → str_lt k k' → cond k' = false) →
  ('(curr, _) ← descend (sk_level s) (sk_heap s) start (sk_head s) [];
   q ← next_of (sk_heap s) curr 0;
   scan_keys (S (size (sk_heap s))) (sk_heap s) cond keep q) =
  Ret (filter (λ k, negb (str_ltb k start) && (cond k && keep k)) (keyof (sk_heap s) <$> ns)).
Proof.
  intros Hr Hcl. destruct (sk_search s ns start [] Hr) as (los & his & c & prev & Hloc & -> & _ & Hq & _).
  cbn [mbind go_bind]. rewrite Hq. cbn [mbind go_bind]. pose proof (rep_size s ns Hr) as Hsz. destruct Hloc as [-> Hlo Hhi].
  pose proof (rep_sorted s _ Hr) as Hs. rewrite fmap_app in Hs. apply StronglySorted_app_1_r in Hs.
  rewrite (scan_keys_spec _ _ _ (sk_head s :: los) his); [|apply Hr| | |].
  - f_equal. rewrite fmap_app, filter_app. rewrite (filter_none _ (keyof (sk_heap s) <$> los)).
    + simpl. apply filter_same. intros k (m & -> & Hm)%list_elem_of_fmap. by rewrite (Hhi m Hm).
    + intros k (m & -> & Hm)%list_elem_of_fmap. rewrite (Hlo m Hm). by intros [].
  - intros n Hn. apply (rep_hgt s _ Hr). set_solver.
  - rewrite length_app in Hsz. lia.
  - intros a n b -> Hf m Hm. eapply Hcl; [apply Hhi| |]; [|done|]; [set_solver|].
    rewrite fmap_app, fmap_cons in Hs. apply StronglySorted_app_1_r, StronglySorted_cons in Hs as [Hs _].
    rewrite Forall_forall in Hs. apply Hs. by apply list_elem_of_fmap_2.
Qed.

Lemma rep_keys s ns k : sk_rep s ns → k ∈ keyof (sk_heap s) <$> ns ↔ is_Some (kv_get k (SkipListStore_abs s)).
Proof. intros Hr. rewrite (rep_abs s ns Hr). unfold kv_get. simpl. rewrite assoc_is_Some, entries_keys. done. Qed.

#[global] Instance SkipListStore_ordered : OrderedOps SkipListStore := {
  st_PrefixKeys := SkipListStore_PrefixKeys;
  st_RangeKeys := SkipListStore_RangeKeys
}.

#[global] Program Instance SkipListStore_ordered_laws : OrderedLaws SkipListStore.
Next Obligation.
  intros prefix s [ns Hr]. simpl. unfold SkipListStore_PrefixKeys. rewrite (sk_scan s ns _ _ _ Hr).
  2:{ intros k k' Hk Hc Hlt. apply not_true_iff_false. intros Hc'. by rewrite (HasPrefix_convex _ _ _ Hk Hlt Hc') in Hc. }
  eexists. split; [done|]. split.
  - apply (sorted_filter (λ k, negb (str_ltb k prefix) && (HasPrefix k prefix && true))), Hr.
  - intros k. rewrite list_elem_of_filter, (rep_keys s ns k Hr). split.
    + intros [(_ & [Hp _]%andb_prop)%Is_true_true%andb_prop ?]. done.
    + intros [? Hp]. split; [|done]. by rewrite (HasPrefix_not_lt _ _ Hp), Hp.
Qed.
Next Obligation.
  intros start end_ s [ns Hr]. simpl. unfold SkipListStore_RangeKeys. rewrite (sk_scan s ns _ _ _ Hr).
  2:{ intros k k' Hk Hc Hlt. rewrite negb_false_iff in *. by eapply str_ltb_trans. }
  eexists. split; [done|]. split.
  - apply (sorted_filter (λ k, negb (str_ltb k start) && (negb (str_ltb end_ k) && negb (str_ltb k start)))), Hr.
  - intros k. rewrite list_elem_of_filter, (rep_keys s ns k Hr). unfold in_range.
    destruct (str_ltb k start), (str_ltb end_ k); simpl; naive_solver.
Qed.

Lemma NewSkipListStore_abs coins : SkipListStore_abs (NewSkipListStore coins) = kv_empty.
Proof. by rewrite (rep_abs _ _ (NewSkipListStore_rep coins)). Qed.

(** ** Theorems *)

(** C30: Whatever the coin flips, every sequence of calls on a new
    SkipListStore returns (no nil pointer is followed and no loop runs on) and
    answers what one pair of maps would answer; the heap stays a skip list:
    at each of its levels a node points to the next node that reaches that
    level, in strictly increasing order of keys. *)
Theorem skiplist_refines (coins : nat → bool) (os : list store_op) :
  ∃ s' ns, store_run os (NewSkipListStore coins) = Ret (s', (kv_run os kv_empty).2) ∧
        sk_rep s' ns ∧ SkipListStore_abs s' = (kv_run os kv_empty).1.
Proof.
  destruct (store_refines os (NewSkipListStore coins)) as (s' & E & [ns Hr] & Ha); [exists []; apply NewSkipListStore_rep|].
  simpl in E, Ha. rewrite NewSkipListStore_abs in E, Ha. by exists s', ns.
Qed.

(** After any calls, PrefixKeys returns the keys present that start with
    the prefix and RangeKeys those between the bounds, both included, each
    key once and in increasing order, although the scans stop at the first
    key past the answer. *)
Theorem skiplist_ordered (coins : nat → bool) (os : list store_op) (prefix start end_ : gostring) :
  ∃ s ps rs, store_run os (NewSkipListStore coins) = Ret (s, (kv_run os kv_empty).2) ∧
    SkipListStore_PrefixKeys prefix s = Ret ps ∧ keys_where (kv_run os kv_empty).1 (λ k, HasPrefix k prefix) ps ∧
    SkipListStore_RangeKeys start end_ s = Ret rs ∧ keys_where (kv_run os kv_empty).1 (in_range start end_) rs.
Proof.
  destruct (ordered_refines os (NewSkipListStore coins) prefix start end_) as (s & ps & rs & H); [exists []; apply NewSkipListStore_rep|].
  simpl in H. rewrite NewSkipListStore_abs in H. by exists s, ps, rs.
Qed.
