(* ===== verification/BPTreeStore.v ===== *)
(** * BPTreeStore: src/store/bptree.go

    The B+ tree as the code has it: nodes in a heap, children and the chain
    of leaves as pointers, splits that look their parent up again by a search
    from the root ([findParent]).  An index out of range and a nil
    dereference panic. *)

From stdpp Require Import base list gmap strings sorting relations.
From Stdlib Require Import ZArith Lia Ascii.
From S2P Require Import Prelude GoLib StoreSpec KeyOrder.

Definition bpOrder : nat := 32.

(** [bp_values] is [None] for the nil slice of an internal node. *)
Record bpNode := mkBP {
  bp_keys : list gostring;
  bp_children : list nat;
  bp_values : option (list gostring);
  bp_next : option nat
}.

Definition newLeaf : bpNode := mkBP [] [] (Some []) None.
Definition newInternal : bpNode := mkBP [] [] None None.

Definition isLeaf (n : bpNode) : bool := match bp_values n with Some _ => true | None => false end.

Record BPTreeStore := mkBPTree {
  bt_root : nat;
  bt_hashes : gmap gostring (gmap gostring gostring);
  bt_heap : gmap nat bpNode;
  bt_alloc : nat                  (* the next free address *)
}.

Definition NewBPTreeStore : BPTreeStore := mkBPTree 0 ∅ {[0 := newLeaf]} 1.

(** ** Slices and the heap *)
Definition at_heap (heap : gmap nat bpNode) (p : nat) : go bpNode :=
  match heap !! p with Some n => Ret n | None => Panic end.

Definition index {A} (s : list A) (i : nat) : go A := match s !! i with Some x => Ret x | None => Panic end.

(** [s[i:]] *)
Definition slice_from {A} (s : list A) (i : nat) : go (list A) := if decide (i ≤ length s) then Ret (drop i s) else Panic.
(** [s[:i]] *)
Definition slice_to {A} (s : list A) (i : nat) : go (list A) := if decide (i ≤ length s) then Ret (take i s) else Panic.

Definition insertAt {A} (s : list A) (idx : nat) (v : A) : go (list A) :=
  if decide (idx ≤ length s) then Ret (take idx s ++ v :: drop idx s) else Panic.

(** [append(s[:idx], s[idx+1:]...)] *)
Definition removeAt {A} (s : list A) (idx : nat) : go (list A) :=
  if decide (idx < length s) then Ret (take idx s ++ drop (idx + 1) s) else Panic.

(** [s[idx] = v] *)
Definition assignAt {A} (s : list A) (idx : nat) (v : A) : go (list A) :=
  if decide (idx < length s) then Ret (<[idx := v]> s) else Panic.

(** [sort.Search]: binary search on [i, j). *)
Fixpoint search_loop (fuel : nat) (f : nat → go bool) (i j : nat) : go nat :=
  match fuel with
  | O => NoFuel
  | S fl =>
      if decide (i < j) then
        let h := (i + j) / 2 in
        b ← f h;
        if (b : bool) then search_loop fl f i h else search_loop fl f (h + 1) j
      else Ret i
  end.
Definition Search (n : nat) (f : nat → go bool) : go nat := search_loop (S n) f 0 n.

(** The two predicates the methods search with: [keys[i] > key] and
    [keys[i] >= key]. *)
Definition search_gt (keys : list gostring) (key : gostring) : go nat :=
  Search (length keys) (λ i, k ← index keys i; Ret (str_ltb key k)).
Definition search_ge (keys : list gostring) (key : gostring) : go nat :=
  Search (length keys) (λ i, k ← index keys i; Ret (negb (str_ltb k key))).

(** [idx < len(leaf.keys) && leaf.keys[idx] == key] *)
Definition found (keys : list gostring) (idx : nat) (key : gostring) : bool := bool_decide (keys !! idx = Some key).

(** ** Searching *)
Fixpoint searchLeaf_loop (fuel : nat) (heap : gmap nat bpNode) (key : gostring) (n : nat) : go nat :=
  match fuel with
  | O => NoFuel
  | S f =>
      nd ← at_heap heap n;
      if isLeaf nd then Ret n else
      idx ← search_gt (bp_keys nd) key;
      c ← index (bp_children nd) idx;
      searchLeaf_loop f heap key c
  end.
Definition searchLeaf (key : gostring) (s : BPTreeStore) : go nat :=
  searchLeaf_loop (S (size (bt_heap s))) (bt_heap s) key (bt_root s).

(** The loop over [n.children], from index [i]; [rec] is the recursive call. *)
Fixpoint find_in (rec : nat → go (option (nat * nat))) (heap : gmap nat bpNode) (n target i : nat) (cs : list nat) :
    go (option (nat * nat)) :=
  match cs with
  | [] => Ret None
  | child :: cs' =>
      if decide (child = target) then Ret (Some (n, i)) else
      nd ← at_heap heap child;
      if isLeaf nd then find_in rec heap n target (i + 1) cs' else
      r ← rec child;
      match r with
      | Some p => Ret (Some p)
      | None => find_in rec heap n target (i + 1) cs'
      end
  end.
Fixpoint findParent (fuel : nat) (heap : gmap nat bpNode) (n target : nat) : go (option (nat * nat)) :=
  match fuel with
  | O => NoFuel
  | S f =>
      nd ← at_heap heap n;
      if isLeaf nd then Ret None else
      find_in (λ c, findParent f heap c target) heap n target 0 (bp_children nd)
  end.

(** ** Splitting *)

(** [newRoot] with the children [left] and [right]. *)
Definition grow_root (left : nat) (key : gostring) (right : nat) (s : BPTreeStore) : BPTreeStore :=
  let a := bt_alloc s in
  mkBPTree a (bt_hashes s) (<[a := mkBP [key] [left; right] (bp_values newInternal) None]> (bt_heap s)) (a + 1).

(** [parent.keys = insertAt(...); parent.children = insertAt(...)]; a nil
    parent panics.  The parent and the number of its keys now. *)
Definition insert_child (parent : option (nat * nat)) (key : gostring) (right : nat) (s : BPTreeStore) : go (nat * nat * BPTreeStore) :=
  match parent with
  | None => Panic
  | Some (p, childIdx) =>
      nd ← at_heap (bt_heap s) p;
      ks ← insertAt (bp_keys nd) childIdx key;
      cs ← insertAt (bp_children nd) (childIdx + 1) right;
      Ret (p, length ks, mkBPTree (bt_root s) (bt_hashes s) (<[p := mkBP ks cs (bp_values nd) (bp_next nd)]> (bt_heap s)) (bt_alloc s))
  end.

(** The first half of [splitInternal]: the promoted key, the new node. *)
Definition split_node (n : nat) (s : BPTreeStore) : go (gostring * nat * BPTreeStore) :=
  let mid := bpOrder / 2 in
  nd ← at_heap (bt_heap s) n;
  promoteKey ← index (bp_keys nd) mid;
  rk ← slice_from (bp_keys nd) (mid + 1);
  rc ← slice_from (bp_children nd) (mid + 1);
  lk ← slice_to (bp_keys nd) mid;
  lc ← slice_to (bp_children nd) (mid + 1);
  let a := bt_alloc s in
  let heap := <[n := mkBP lk lc (bp_values nd) (bp_next nd)]> (<[a := mkBP rk rc (bp_values newInternal) None]> (bt_heap s)) in
  Ret (promoteKey, a, mkBPTree (bt_root s) (bt_hashes s) heap (a + 1)).

Fixpoint splitInternal (fuel : nat) (n : nat) (s : BPTreeStore) : go BPTreeStore :=
  match fuel with
  | O => NoFuel
  | S f =>
      '(promoteKey, newNode, s1) ← split_node n s;
      if decide (bt_root s1 = n) then Ret (grow_root n promoteKey newNode s1) else
      parent ← findParent (S (size (bt_heap s1))) (bt_heap s1) (bt_root s1) n;
      '(p, len, s2) ← insert_child parent promoteKey newNode s1;
      if decide (bpOrder ≤ len) then splitInternal f p s2 else Ret s2
  end.

Definition insertIntoParent (left : nat) (key : gostring) (right : nat) (s : BPTreeStore) : go BPTreeStore :=
  if decide (bt_root s = left) then Ret (grow_root left key right s) else
  parent ← findParent (S (size (bt_heap s))) (bt_heap s) (bt_root s) left;
  '(p, len, s1) ← insert_child parent key right s;
  if decide (len < bpOrder) then Ret s1 else splitInternal (S (size (bt_heap s1))) p s1.

Definition split (leaf : nat) (s : BPTreeStore) : go BPTreeStore :=
  let mid := bpOrder / 2 in
  nd ← at_heap (bt_heap s) leaf;
  rk ← slice_from (bp_keys nd) mid;
  rv ← slice_from (default [] (bp_values nd)) mid;
  lk ← slice_to (bp_keys nd) mid;
  lv ← slice_to (default [] (bp_values nd)) mid;
  let a := bt_alloc s in
  let heap := <[leaf := mkBP lk (bp_children nd) (Some lv) (Some a)]> (<[a := mkBP rk [] (Some rv) (bp_next nd)]> (bt_heap s)) in
  promoteKey ← index rk 0;
  insertIntoParent leaf promoteKey a (mkBPTree (bt_root s) (bt_hashes s) heap (a + 1)).

(** ** The methods *)
Definition put_node (n : nat) (nd : bpNode) (s : BPTreeStore) : BPTreeStore :=
  mkBPTree (bt_root s) (bt_hashes s) (<[n := nd]> (bt_heap s)) (bt_alloc s).

Definition BPTreeStore_Set (key value : gostring) (s : BPTreeStore) : go BPTreeStore :=
  leaf ← searchLeaf key s;
  nd ← at_heap (bt_heap s) leaf;
  idx ← search_ge (bp_keys nd) key;
  if found (bp_keys nd) idx key then
    vs ← assignAt (default [] (bp_values nd)) idx value;
    Ret (put_node leaf (mkBP (bp_keys nd) (bp_children nd) (Some vs) (bp_next nd)) s)
  else
  ks ← insertAt (bp_keys nd) idx key;
  vs ← insertAt (default [] (bp_values nd)) idx value;
  let s1 := put_node leaf (mkBP ks (bp_children nd) (Some vs) (bp_next nd)) s in
  if decide (length ks < bpOrder) then Ret s1 else split leaf s1.

Definition BPTreeStore_Del (key : gostring) (s : BPTreeStore) : go BPTreeStore :=
  leaf ← searchLeaf key s;
  nd ← at_heap (bt_heap s) leaf;
  idx ← search_ge (bp_keys nd) key;
  s1 ← (if found (bp_keys nd) idx key then
          ks ← removeAt (bp_keys nd) idx;
          vs ← removeAt (default [] (bp_values nd)) idx;
          Ret (put_node leaf (mkBP ks (bp_children nd) (Some vs) (bp_next nd)) s)
        else Ret s);
  Ret (mkBPTree (bt_root s1) (delete key (bt_hashes s1)) (bt_heap s1) (bt_alloc s1)).

Definition BPTreeStore_Get (key : gostring) (s : BPTreeStore) : go (option gostring) :=
  leaf ← searchLeaf key s;
  nd ← at_heap (bt_heap s) leaf;
  idx ← search_ge (bp_keys nd) key;
  if found (bp_keys nd) idx key then v ← index (default [] (bp_values nd)) idx; Ret (Some v) else Ret None.

Definition BPTreeStore_HSet (h k v : gostring) (s : BPTreeStore) : go BPTreeStore :=
  Ret (mkBPTree (bt_root s) (hash_put h k v (bt_hashes s)) (bt_heap s) (bt_alloc s)).
Definition BPTreeStore_HGet (h k : gostring) (s : BPTreeStore) : go (option gostring) := Ret (hash_get h k (bt_hashes s)).
Definition BPTreeStore_HGetAll (h : gostring) (s : BPTreeStore) : go (option (gmap gostring gostring)) := Ret (bt_hashes s !! h).
Definition BPTreeStore_Close (s : BPTreeStore) : go BPTreeStore := Ret s.

(** The loop over [leaf.keys]: [if emit(k) { append } else if stop(k) { return }];
    the keys and whether the method returned. *)
Fixpoint scan_leaf (emit stop : gostring → bool) (ks : list gostring) : list gostring * bool :=
  match ks with
  | [] => ([], false)
  | k :: ks' =>
      if emit k then let '(out, b) := scan_leaf emit stop ks' in (k :: out, b)
      else if stop k then ([], true) else scan_leaf emit stop ks'
  end.
Fixpoint scan_leaves (fuel : nat) (heap : gmap nat bpNode) (emit stop : gostring → bool) (leaf : option nat) : go (list gostring) :=
  match fuel with
  | O => NoFuel
  | S f =>
      match leaf with
      | None => Ret []
      | Some n =>
          nd ← at_heap heap n;
          let '(out, returned) := scan_leaf emit stop (bp_keys nd) in
          if (returned : bool) then Ret out else rest ← scan_leaves f heap emit stop (bp_next nd); Ret (out ++ rest)
      end
  end.

Definition BPTreeStore_PrefixKeys (prefix : gostring) (s : BPTreeStore) : go (list gostring) :=
  leaf ← searchLeaf prefix s;
  scan_leaves (S (size (bt_heap s))) (bt_heap s) (λ k, HasPrefix k prefix)
    (λ k, str_ltb prefix k && negb (HasPrefix k prefix)) (Some leaf).

Definition BPTreeStore_RangeKeys (start end_ : gostring) (s : BPTreeStore) : go (list gostring) :=
  leaf ← searchLeaf start s;
  scan_leaves (S (size (bt_heap s))) (bt_heap s) (λ k, negb (str_ltb k start) && negb (str_ltb end_ k))
    (λ k, str_ltb end_ k) (Some leaf).

#[global] Instance BPTreeStore_ops : StoreOps BPTreeStore := {
  st_Set := BPTreeStore_Set;
  st_Get := BPTreeStore_Get;
  st_Del := BPTreeStore_Del;
  st_HSet := BPTreeStore_HSet;
  st_HGet := BPTreeStore_HGet;
  st_HGetAll := BPTreeStore_HGetAll;
  st_Close := BPTreeStore_Close
}.
