(* ===== verification/BPTreeProofs.v ===== *)
(** * BPTreeProofs: the B+ tree of src/store/bptree.go is a map

    The tree is described level by level: [layer] relates the nodes of a level
    and the separators between them to the nodes below, [tower] stacks the
    layers up to the root.  A search goes to the leaf whose index is the rank
    of the key among the separators; a split inserts one node and one
    separator at each level it reaches. *)

From stdpp Require Import base list gmap strings sorting relations.
From Stdlib Require Import ZArith Lia Ascii.
From S2P Require Import Prelude GoLib StoreSpec KeyOrder OrderedSpec BPTreeStore.

(** ** Binary search *)
Lemma search_loop_spec (f : nat → go bool) n a fuel i j :
  (∀ h, h < n → f h = Ret (bool_decide (a ≤ h))) → i ≤ a ≤ j → j ≤ n → j - i < fuel → search_loop fuel f i j = Ret a.
Proof.
  intros Hf. revert i j; induction fuel as [|fl IH]; intros i j Ha Hj Hfl; [lia|]. cbn [search_loop].
  case_decide; [|f_equal; lia]. pose proof (Nat.div_mod_eq (i + j) 2). pose proof (Nat.mod_upper_bound (i + j) 2).
  rewrite Hf by lia. cbn [mbind go_bind]. case_bool_decide; apply IH; lia.
Qed.

Lemma Search_cut (p : gostring → bool) (a b : list gostring) :
  (∀ k, k ∈ a → p k = false) → (∀ k, k ∈ b → p k = true) →
  Search (length (a ++ b)) (λ i, k ← index (a ++ b) i; Ret (p k)) = Ret (length a).
Proof.
  intros Ha Hb. apply (search_loop_spec _ (length (a ++ b))); [|rewrite length_app; lia|done|lia].
  intros h Hh. unfold index. destruct (lookup_lt_is_Some_2 _ _ Hh) as [k Hk]. rewrite Hk. cbn [mbind go_bind]. f_equal.
  apply lookup_app_Some in Hk as [Hk|[Hl Hk]].
  - rewrite Ha by by eapply list_elem_of_lookup_2. apply lookup_lt_Some in Hk. by rewrite bool_decide_eq_false_2 by lia.
  - rewrite Hb by by eapply list_elem_of_lookup_2. by rewrite bool_decide_eq_true_2.
Qed.

(** A sorted list cut where a predicate that is downward closed ends. *)
Lemma sorted_cut (p : gostring → bool) (l : list gostring) :
  (∀ x y, str_lt x y → p y = false → p x = false) → sorted_keys l →
  ∃ a b, l = a ++ b ∧ (∀ k, k ∈ a → p k = false) ∧ (∀ k, k ∈ b → p k = true).
Proof.
  intros Hp. induction 1 as [|x l Hs IH Hx]; [exists [], []; split_and!; set_solver|].
  destruct (p x) eqn:E.
  - exists [], (x :: l). split_and!; [done|set_solver|]. intros k [->|Hk]%elem_of_cons; [done|].
    destruct (p k) eqn:Ek; [done|]. rewrite Forall_forall in Hx. rewrite (Hp x k (Hx k Hk) Ek) in E. done.
  - destruct IH as (a & b & -> & Ha & Hb). exists (x :: a), b. split_and!; [done| |done].
    intros k [->|Hk]%elem_of_cons; [done|by apply Ha].
Qed.

(** The number of keys that are not larger. *)
Definition rank (key : gostring) (l : list gostring) : nat := length (filter (λ k, str_ltb key k = false) l).

Lemma rank_app key a b : rank key (a ++ b) = rank key a + rank key b.
Proof. unfold rank. by rewrite filter_app, length_app. Qed.

Lemma rank_cons key k l : rank key (k :: l) = (if str_ltb key k then 0 else 1) + rank key l.
Proof. unfold rank. rewrite filter_cons. case_decide as H; [by rewrite H|]. by destruct (str_ltb key k). Qed.

Lemma rank_le key l : rank key l ≤ length l.
Proof. apply length_filter. Qed.

Lemma rank_all key l : (∀ k, k ∈ l → str_ltb key k = false) → rank key l = length l.
Proof.
  induction l as [|x l IH]; intros H; [done|]. rewrite rank_cons, H by by left. simpl. f_equal. apply IH.
  intros k Hk. apply H. by right.
Qed.

Lemma rank_none key l : (∀ k, k ∈ l → str_ltb key k = true) → rank key l = 0.
Proof.
  induction l as [|x l IH]; intros H; [done|]. rewrite rank_cons, H by by left. simpl. apply IH.
  intros k Hk. apply H. by right.
Qed.

Lemma rank_mono key key' l : str_ltb key' key = false → rank key l ≤ rank key' l.
Proof.
  intros Hle. induction l as [|x l IH]; [done|]. rewrite !rank_cons.
  destruct (str_ltb key x) eqn:E1, (str_ltb key' x) eqn:E2; try lia.
  apply str_ltb_false in Hle as [->|Hle]; [congruence|].
  by rewrite (str_ltb_trans _ _ _ Hle E2) in E1.
Qed.

(** A larger rank comes from a larger key. *)
Lemma rank_lt key key' l : rank key l < rank key' l → str_lt key key'.
Proof.
  intros H. unfold str_lt. destruct (str_ltb key key') eqn:E; [done|]. pose proof (rank_mono key' key l E). lia.
Qed.

Lemma search_gt_spec keys key : sorted_keys keys → search_gt keys key = Ret (rank key keys).
Proof.
  intros Hs. destruct (sorted_cut (λ k, str_ltb key k) keys) as (a & b & -> & Ha & Hb); [|done|].
  { intros x y Hxy Hy. apply not_true_iff_false. intros Hx. by rewrite (str_ltb_trans _ _ _ Hx Hxy) in Hy. }
  unfold search_gt. rewrite (Search_cut _ a b Ha Hb). rewrite rank_app, rank_all, rank_none by done. f_equal; lia.
Qed.

Lemma search_ge_spec keys key :
  sorted_keys keys →
  ∃ a b, keys = a ++ b ∧ search_ge keys key = Ret (length a) ∧ (∀ k, k ∈ a → str_lt k key) ∧
    (∀ k, k ∈ b → str_ltb k key = false).
Proof.
  intros Hs. destruct (sorted_cut (λ k, negb (str_ltb k key)) keys) as (a & b & -> & Ha & Hb); [|done|].
  { intros x y Hxy Hy. rewrite negb_false_iff in *. by eapply str_ltb_trans. }
  exists a, b. split_and!; [done|by apply (Search_cut (λ k, negb (str_ltb k key)))| |].
  - intros k Hk. unfold str_lt. by rewrite <-negb_false_iff, Ha.
  - intros k Hk. by rewrite <-negb_true_iff, Hb.
Qed.

(** [found] after the search. *)
Lemma found_spec a b key :
  sorted_keys (a ++ b) → (∀ k, k ∈ a → str_lt k key) → (∀ k, k ∈ b → str_ltb k key = false) →
  (∃ b', b = key :: b' ∧ found (a ++ b) (length a) key = true) ∨
  (found (a ++ b) (length a) key = false ∧ ∀ k, k ∈ b → str_lt key k).
Proof.
  intros (_ & _ & Hs)%StronglySorted_app Ha Hb. unfold found. rewrite lookup_app_r, Nat.sub_diag by done.
  destruct b as [|x b]; [right; simpl; split; [done|set_solver]|]. simpl.
  destruct (decide (x = key)) as [->|Hne]; [left; exists b; split; [done|by apply bool_decide_eq_true_2]|].
  right. split; [by rewrite bool_decide_eq_false_2 by congruence|].
  assert (str_lt key x) as Hx. { destruct (proj1 (str_ltb_false x key)) as [|]; [apply Hb; by left|done|done]. }
  apply StronglySorted_cons in Hs as [Hs _]. rewrite Forall_forall in Hs.
  intros k [->|Hk]%elem_of_cons; [done|]. etrans; [exact Hx|by apply Hs].
Qed.

(** ** Heights *)
Fixpoint good (heap : gmap nat bpNode) (k n : nat) : Prop :=
  match k with
  | O => ∃ nd vs, heap !! n = Some nd ∧ bp_values nd = Some vs
  | S k' => ∃ nd, heap !! n = Some nd ∧ bp_values nd = None ∧ bp_children nd ≠ [] ∧ ∀ c, c ∈ bp_children nd → good heap k' c
  end.

Lemma good_unique heap k k' n : good heap k n → good heap k' n → k = k'.
Proof.
  revert k' n; induction k as [|k IH]; intros [|k'] n; simpl; [done| | |].
  - intros (nd & vs & H1 & H2) (nd' & H1' & H2' & _). congruence.
  - intros (nd & H1 & H2 & _) (nd' & vs & H1' & H2'). congruence.
  - intros (nd & H1 & H2 & H3 & H4) (nd' & H1' & H2' & H3' & H4'). assert (nd' = nd) as -> by congruence.
    destruct (bp_children nd) as [|c cs] eqn:E; [done|]. f_equal. apply (IH k' c); [apply H4|apply H4']; by left.
Qed.

(** Heights up to [k] only depend on the nodes of those heights. *)
Lemma good_frame heap heap' k i n :
  (∀ m i, i ≤ k → good heap i m → heap' !! m = heap !! m) → i ≤ k → good heap i n → good heap' i n.
Proof.
  intros Hf. revert n; induction i as [|i IH]; intros n Hi Hg; pose proof (Hf n _ Hi Hg) as Hn; simpl in *.
  - destruct Hg as (nd & vs & ? & ?). exists nd, vs. by rewrite Hn.
  - destruct Hg as (nd & ? & ? & ? & Hc). exists nd. rewrite Hn. split_and!; [done..|].
    intros c Hc'. apply IH; [lia|by apply Hc].
Qed.

Lemma good_dom heap k n : good heap k n → n ∈ dom heap.
Proof. destruct k; simpl; [intros (nd & vs & ? & _)|intros (nd & ? & _)]; apply elem_of_dom; eauto. Qed.

(** A path down has nodes of different heights. *)
Lemma good_size heap k n : good heap k n → k < size heap.
Proof.
  intros Hg. assert (∃ path, length path = S k ∧ NoDup path ∧ ∀ m, m ∈ path → ∃ i, i ≤ k ∧ good heap i m) as (path & Hl & Hnd & Hp).
  { revert n Hg; induction k as [|k IH]; intros n Hg.
    - exists [n]. split_and!; [done|apply NoDup_singleton|]. intros m ->%list_elem_of_singleton. by exists 0.
    - pose proof Hg as (nd & _ & _ & Hne & Hc). destruct (bp_children nd) as [|c cs]; [done|].
      destruct (IH c) as (path & Hl & Hnd & Hp); [apply Hc; by left|]. exists (n :: path). split_and!; [simpl; lia| |].
      + constructor; [|done]. intros (i & Hi & Hgi)%Hp. pose proof (good_unique _ _ _ _ Hg Hgi). lia.
      + intros m [->|(i & Hi & Hgi)%Hp]%elem_of_cons; [by exists (S k)|]. exists i. split; [lia|done]. }
  rewrite <-size_dom. cut (length path ≤ size (dom heap)); [lia|].
  rewrite <-(size_list_to_set (C:=gset nat) path) by done. apply subseteq_size.
  intros m (i & _ & Hgi)%elem_of_list_to_set%Hp. by eapply good_dom.
Qed.

(** ** Layers *)
Definition wf_internal (nd : bpNode) : Prop :=
  bp_values nd = None ∧ length (bp_children nd) = S (length (bp_keys nd)) ∧ length (bp_keys nd) < bpOrder.

(** [layer heap u us l seps]: the nodes [u], with the separators [us] between
    them, have together the children [l], with the separators [seps]. *)
Inductive layer (heap : gmap nat bpNode) : list nat → list gostring → list nat → list gostring → Prop :=
| layer_one n nd : heap !! n = Some nd → wf_internal nd → layer heap [n] [] (bp_children nd) (bp_keys nd)
| layer_cons n nd s u us l seps : heap !! n = Some nd → wf_internal nd → layer heap u us l seps →
    layer heap (n :: u) (s :: us) (bp_children nd ++ l) (bp_keys nd ++ s :: seps).

Fixpoint tower (heap : gmap nat bpNode) (root : nat) (l : list nat) (seps : list gostring) (ups : list (list nat)) : Prop :=
  match ups with
  | [] => l = [root] ∧ seps = []
  | u :: ups' => ∃ us, layer heap u us l seps ∧ tower heap root u us ups'
  end.

Lemma layer_frame heap heap' u us l seps :
  (∀ n, n ∈ u → heap' !! n = heap !! n) → layer heap u us l seps → layer heap' u us l seps.
Proof.
  intros Hf. induction 1 as [n nd Hn Hw|n nd s u us l seps Hn Hw _ IH].
  - constructor; [|done]. by rewrite Hf by by left.
  - constructor; [by rewrite Hf by by left|done|]. apply IH. intros m Hm. apply Hf. by right.
Qed.

Lemma layer_length heap u us l seps : layer heap u us l seps → length u = S (length us) ∧ length l = S (length seps).
Proof.
  induction 1 as [n nd Hn (_ & Hc & _)|n nd s u us l seps Hn (_ & Hc & _) _ [IH1 IH2]]; simpl; [done|].
  rewrite !length_app. simpl. lia.
Qed.

Lemma layer_children heap u us l seps n nd :
  layer heap u us l seps → n ∈ u → heap !! n = Some nd → wf_internal nd ∧ ∀ c, c ∈ bp_children nd → c ∈ l.
Proof.
  induction 1 as [n' nd' Hn Hw|n' nd' s u us l seps Hn Hw _ IH]; intros Hin Hnd.
  - apply list_elem_of_singleton in Hin as ->. assert (nd' = nd) as -> by congruence. done.
  - apply elem_of_cons in Hin as [->|Hin].
    + assert (nd' = nd) as -> by congruence. split; [done|set_solver].
    + destruct (IH Hin Hnd). split; [done|set_solver].
Qed.

Lemma layer_heap heap u us l seps n : layer heap u us l seps → n ∈ u → ∃ nd, heap !! n = Some nd.
Proof. induction 1 as [n' nd' Hn Hw|n' nd' s u us l seps Hn Hw _ IH]; [set_solver|]. intros [->|?]%elem_of_cons; eauto. Qed.

Lemma layer_parent heap u us l seps c :
  layer heap u us l seps → c ∈ l → ∃ n nd, n ∈ u ∧ heap !! n = Some nd ∧ c ∈ bp_children nd.
Proof.
  induction 1 as [n nd Hn Hw|n nd s u us l seps Hn Hw _ IH]; intros Hc.
  - exists n, nd. split_and!; [by left|done|done].
  - apply elem_of_app in Hc as [Hc|Hc]; [exists n, nd; split_and!; [by left|done|done]|].
    destruct (IH Hc) as (m & md & ? & ? & ?). exists m, md. split_and!; [by right|done|done].
Qed.

Lemma layer_nodup heap u us l seps : layer heap u us l seps → NoDup l → NoDup u.
Proof.
  induction 1 as [n nd Hn Hw|n nd s u us l seps Hn Hw Hl IH]; intros Hnd; [apply NoDup_singleton|].
  apply NoDup_app in Hnd as (H1 & H2 & H3). constructor; [|by apply IH]. intros Hin.
  destruct (layer_children _ _ _ _ _ _ _ Hl Hin Hn) as [_ Hc]. destruct Hw as (_ & Hlen & _).
  destruct (bp_children nd) as [|c cs]; [done|]. apply (H2 c); [by left|apply Hc; by left].
Qed.

Lemma layer_good heap u us l seps k :
  layer heap u us l seps → (∀ n, n ∈ l → good heap k n) → ∀ n, n ∈ u → good heap (S k) n.
Proof.
  intros Hl Hg n Hn. destruct (layer_heap _ _ _ _ _ _ Hl Hn) as [nd Hnd].
  destruct (layer_children _ _ _ _ _ _ _ Hl Hn Hnd) as [(Hv & Hlen & _) Hc]. exists nd. split_and!; [done|done| |eauto].
  intros E. by rewrite E in Hlen.
Qed.

Lemma tower_good heap root l seps ups k :
  tower heap root l seps ups → (∀ n, n ∈ l → good heap k n) → good heap (k + length ups) root.
Proof.
  revert l seps k; induction ups as [|u ups IH]; intros l seps k; simpl.
  - intros [-> _] Hg. rewrite Nat.add_0_r. apply Hg. by left.
  - intros (us & Hl & Ht) Hg. rewrite <-Nat.add_succ_comm. apply (IH u us); [done|]. by eapply layer_good.
Qed.

(** ** Searching *)
Lemma layer_seps_sub heap u us l seps k : layer heap u us l seps → k ∈ us → k ∈ seps.
Proof. induction 1 as [n nd Hn Hw|n nd s u us l seps Hn Hw _ IH]; set_solver. Qed.

Lemma layer_seps_sorted heap u us l seps : layer heap u us l seps → sorted_keys seps → sorted_keys us.
Proof.
  induction 1 as [n nd Hn Hw|n nd s u us l seps Hn Hw Hl IH]; intros Hs; [constructor|].
  apply StronglySorted_app in Hs as (_ & _ & Hs). apply StronglySorted_cons in Hs as [Hs1 Hs2].
  constructor; [by apply IH|]. rewrite Forall_forall in *. intros k Hk. apply Hs1. by eapply layer_seps_sub.
Qed.

(** The child a node search goes to is the one of the rank below. *)
Lemma layer_step heap u us l seps key :
  layer heap u us l seps → sorted_keys seps →
  ∃ n nd c, u !! rank key us = Some n ∧ heap !! n = Some nd ∧ wf_internal nd ∧ sorted_keys (bp_keys nd) ∧
    bp_children nd !! rank key (bp_keys nd) = Some c ∧ l !! rank key seps = Some c.
Proof.
  induction 1 as [n nd Hn Hw|n nd s u us l seps Hn Hw Hl IH]; intros Hs.
  - pose proof Hw as (_ & Hlen & _). destruct (lookup_lt_is_Some_2 (bp_children nd) (rank key (bp_keys nd))) as [c Hc];
      [pose proof (rank_le key (bp_keys nd)); lia|]. by exists n, nd, c.
  - pose proof Hs as (Hlt & Hs1 & [Hs2 Hs3]%StronglySorted_cons)%StronglySorted_app. pose proof Hw as (_ & Hlen & _).
    rewrite rank_cons, rank_app, rank_cons. destruct (str_ltb key s) eqn:E.
    + rewrite Forall_forall in Hs2. assert (∀ k, k ∈ seps → str_ltb key k = true) as Hgt.
      { intros k Hk. eapply str_ltb_trans; [exact E|]. by apply Hs2. }
      assert (rank key us = 0) as ->.
      { apply rank_none. intros k Hk. apply Hgt. by eapply layer_seps_sub. }
      rewrite (rank_none key seps) by done.
      destruct (lookup_lt_is_Some_2 (bp_children nd) (rank key (bp_keys nd))) as [c Hc];
        [pose proof (rank_le key (bp_keys nd)); lia|].
      exists n, nd, c. split_and!; [done..|]. rewrite !Nat.add_0_r. by apply lookup_app_l_Some.
    + destruct (IH Hs3) as (m & md & c & Hm & Hmd & Hw' & Hsm & Hc & Hlc). exists m, md, c. split_and!; [done..|].
      rewrite (rank_all key (bp_keys nd)). 
      * rewrite lookup_app_r by lia. rewrite <-Hlc. f_equal. lia.
      * intros k Hk. apply str_ltb_asym. apply str_ltb_false in E as [->|E]; [apply Hlt; [done|by left]|].
        eapply str_ltb_trans; [apply Hlt; [done|by left]|done].
Qed.

(** From the root, a search reaches the node of level [l] whose index is the
    rank of the key. *)
Lemma tower_search heap root key l seps ups :
  tower heap root l seps ups → sorted_keys seps →
  ∃ n, l !! rank key seps = Some n ∧
    ∀ f, searchLeaf_loop (length ups + f) heap key root = searchLeaf_loop f heap key n.
Proof.
  revert l seps; induction ups as [|u ups IH]; intros l seps.
  - intros [-> ->] _. by exists root.
  - intros (us & Hl & Ht) Hs. destruct (IH u us Ht) as (m & Hm & Hsearch); [by eapply layer_seps_sorted|].
    destruct (layer_step _ _ _ _ _ key Hl Hs) as (n & nd & c & Hn & Hnd & Hw & Hsk & Hc & Hlc).
    assert (m = n) as -> by congruence. exists c. split; [done|]. intros f. cbn [length].
    rewrite Nat.add_succ_comm, Hsearch. cbn [searchLeaf_loop]. unfold at_heap. rewrite Hnd. cbn [mbind go_bind].
    destruct Hw as (Hv & _). unfold isLeaf. rewrite Hv, search_gt_spec by done. cbn [mbind go_bind].
    unfold index. by rewrite Hc.
Qed.

Lemma searchLeaf_spec s key l seps ups :
  tower (bt_heap s) (bt_root s) l seps ups → (∀ n, n ∈ l → good (bt_heap s) 0 n) → sorted_keys seps →
  ∃ n, l !! rank key seps = Some n ∧ searchLeaf key s = Ret n.
Proof.
  intros Ht Hg Hs. destruct (tower_search _ _ key _ _ _ Ht Hs) as (n & Hn & Hsearch). exists n. split; [done|].
  pose proof (good_size _ _ _ (tower_good _ _ _ _ _ 0 Ht Hg)) as Hsz. unfold searchLeaf.
  replace (S (size (bt_heap s))) with (length ups + S (size (bt_heap s) - length ups)) by lia. rewrite Hsearch.
  destruct (Hg n) as (nd & vs & Hnd & Hv); [by eapply list_elem_of_lookup_2|]. cbn [searchLeaf_loop]. unfold at_heap. rewrite Hnd.
  cbn [mbind go_bind]. unfold isLeaf. by rewrite Hv.
Qed.

(** ** The parent of a node *)
Definition child_of (heap : gmap nat bpNode) (n c : nat) : Prop := ∃ nd, heap !! n = Some nd ∧ c ∈ bp_children nd ∧ bp_values nd = None.

Lemma tower_reach heap root u us ups l seps c :
  layer heap u us l seps → tower heap root u us ups → c ∈ l → tc (child_of heap) root c.
Proof.
  revert u us l seps c; induction ups as [|u' ups IH]; intros u us l seps c Hl Ht Hc;
    destruct (layer_parent _ _ _ _ _ _ Hl Hc) as (n & nd & Hn & Hnd & Hcn);
    destruct (layer_children _ _ _ _ _ _ _ Hl Hn Hnd) as [(Hv & _) _]; simpl in Ht.
  - destruct Ht as [-> _]. apply list_elem_of_singleton in Hn as ->. apply tc_once. by exists nd.
  - destruct Ht as (us' & Hl' & Ht'). eapply tc_r; [by apply (IH u' us' u us)|]. by exists nd.
Qed.

(** What [findParent] returns below a node of height [k]. *)
Definition parent_result (heap : gmap nat bpNode) (n target : nat) (r : option (nat * nat)) : Prop :=
  match r with
  | Some (p, i) => rtc (child_of heap) n p ∧ ∃ nd, heap !! p = Some nd ∧ bp_values nd = None ∧ bp_children nd !! i = Some target
  | None => ¬ tc (child_of heap) n target
  end.

Lemma tc_leaf heap n c nd vs : heap !! n = Some nd → bp_values nd = Some vs → ¬ tc (child_of heap) n c.
Proof.
  intros Hn Hv Htc. assert (∃ m, child_of heap n m) as (m & nd' & Hn' & _ & Hv'); [|congruence].
  destruct Htc as [x y H|x y z H _]; by eexists.
Qed.

Lemma find_in_spec heap rec n nd target k pre cs :
  heap !! n = Some nd → bp_values nd = None → bp_children nd = pre ++ cs → (∀ c, c ∈ cs → good heap k c) →
  (∀ c, good heap k c → ∃ r, rec c = Ret r ∧ parent_result heap c target r) →
  ∃ r, find_in rec heap n target (length pre) cs = Ret r ∧
    match r with
    | Some _ => parent_result heap n target r
    | None => ∀ c, c ∈ cs → c ≠ target ∧ ¬ tc (child_of heap) c target
    end.
Proof.
  intros Hn Hv. revert pre; induction cs as [|c cs IH]; intros pre Hch Hg Hrec; cbn [find_in].
  { exists None. split; [done|set_solver]. }
  destruct (decide (c = target)) as [->|Hne].
  { exists (Some (n, length pre)). split; [done|]. split; [done|]. exists nd. split_and!; [done..|].
    rewrite Hch. by apply list_lookup_middle. }
  destruct (IH (pre ++ [c])) as (r & Er & Hr); [by rewrite <-app_assoc|intros; apply Hg; by right|done|].
  rewrite length_app in Er. simpl in Er.
  assert (child_of heap n c) as Hnc by (exists nd; split_and!; [done|rewrite Hch; set_solver|done]).
  pose proof (Hg c (list_elem_of_here _ _)) as Hgc.
  destruct (proj1 (elem_of_dom _ _) (good_dom _ _ _ Hgc)) as [ndc Hndc]. unfold at_heap. rewrite Hndc. cbn [mbind go_bind].
  assert (¬ tc (child_of heap) c target → ∃ r, find_in rec heap n target (length pre + 1) cs = Ret r ∧
    match r with Some _ => parent_result heap n target r | None => ∀ c', c' ∈ c :: cs → c' ≠ target ∧ ¬ tc (child_of heap) c' target end) as Hnext.
  { intros Hnt. exists r. split; [done|]. destruct r; [done|]. intros c' [->|Hc']%elem_of_cons; [done|by apply Hr]. }
  unfold isLeaf. destruct (bp_values ndc) as [vs|] eqn:Ev; [apply Hnext; by eapply tc_leaf|].
  destruct (Hrec c Hgc) as (rc & -> & Hrc). cbn [mbind go_bind]. destruct rc as [[p j]|]; [|by apply Hnext].
  exists (Some (p, j)). split; [done|]. destruct Hrc as [Hreach Hp]. split; [by eapply rtc_l|done].
Qed.

Lemma findParent_spec heap target k fuel n :
  good heap k n → k < fuel → ∃ r, findParent fuel heap n target = Ret r ∧ parent_result heap n target r.
Proof.
  revert fuel n; induction k as [|k IH]; intros [|fuel] n Hg Hf; try lia; cbn [findParent].
  - destruct Hg as (nd & vs & Hn & Hv). unfold at_heap. rewrite Hn. cbn [mbind go_bind]. unfold isLeaf. rewrite Hv.
    exists None. split; [done|]. by eapply tc_leaf.
  - destruct Hg as (nd & Hn & Hv & Hne & Hc). unfold at_heap. rewrite Hn. cbn [mbind go_bind]. unfold isLeaf at 1. rewrite Hv.
    destruct (find_in_spec heap (λ c, findParent fuel heap c target) n nd target k [] (bp_children nd)) as (r & Er & Hr);
      [done|done|done|done|intros c Hgc; apply IH; [done|lia]|].
    exists r. split; [done|]. destruct r as [[p i]|]; [done|]. intros Htc.
    assert (∃ c, child_of heap n c ∧ (c = target ∨ tc (child_of heap) c target)) as (c & (nd' & Hn' & Hcc & _) & Hct).
    { destruct Htc as [x y H|x y z H Htc]; [by exists y; eauto|by exists y; eauto]. }
    assert (nd' = nd) as -> by congruence. destruct (Hr c Hcc). naive_solver.
Qed.

(** Descendants are lower. *)
Lemma rtc_good heap k n p : good heap k n → rtc (child_of heap) n p → ∃ i, i ≤ k ∧ good heap i p.
Proof.
  intros Hg Hr. revert k Hg; induction Hr as [x|x y z Hxy _ IH]; intros k Hg; [by exists k|].
  destruct Hxy as (nd & Hx & Hy & Hv). destruct k as [|k].
  - destruct Hg as (nd' & vs & Hx' & Hv'). congruence.
  - destruct Hg as (nd' & Hx' & _ & _ & Hc). assert (nd' = nd) as -> by congruence.
    destruct (IH k (Hc y Hy)) as (i & Hi & Hgi). exists i. split; [lia|done].
Qed.

Lemma tower_closed heap root l seps ups p c :
  tower heap root l seps ups → p ∈ concat ups → child_of heap p c → c ∈ l ∨ c ∈ concat ups.
Proof.
  revert l seps; induction ups as [|u ups IH]; intros l seps Ht Hp Hc; simpl in *; [set_solver|].
  destruct Ht as (us & Hl & Ht). apply elem_of_app in Hp as [Hp|Hp].
  - left. destruct Hc as (nd & Hn & Hc & _). by apply (layer_children _ _ _ _ _ _ _ Hl Hp Hn).
  - right. apply elem_of_app. by apply (IH u us).
Qed.

Lemma tower_heights heap root l seps ups k p :
  tower heap root l seps ups → (∀ n, n ∈ l → good heap k n) → p ∈ concat ups → ∃ j, good heap (k + S j) p.
Proof.
  revert l seps k; induction ups as [|u ups IH]; intros l seps k Ht Hg Hp; simpl in *; [set_solver|].
  destruct Ht as (us & Hl & Ht). pose proof (layer_good _ _ _ _ _ _ Hl Hg) as Hgu. apply elem_of_app in Hp as [Hp|Hp].
  - exists 0. rewrite Nat.add_1_r. by apply Hgu.
  - destruct (IH u us (S k) Ht Hgu Hp) as [j Hj]. exists (S j). by rewrite <-Nat.add_succ_comm.
Qed.

Lemma tower_root heap root l seps ups : tower heap root l seps ups → root ∈ l ++ concat ups.
Proof.
  revert l seps; induction ups as [|u ups IH]; intros l seps; simpl; [intros [-> _]; set_solver|].
  intros (us & _ & Ht). specialize (IH u us Ht). set_solver.
Qed.

(** A node reached from the root that is one higher than [l] is in the level
    above [l]. *)
Lemma tower_parent_level heap root l seps u ups k p :
  tower heap root l seps (u :: ups) → (∀ n, n ∈ l → good heap k n) →
  rtc (child_of heap) root p → good heap (S k) p → p ∈ u.
Proof.
  intros Ht Hg Hr Hp. assert ((∃ i, i ≤ k ∧ good heap i p) ∨ p ∈ concat (u :: ups)) as [(i & Hi & Hgi)|Hin].
  { clear Hp. revert p Hr. apply (rtc_ind_r (λ p, (∃ i, i ≤ k ∧ good heap i p) ∨ p ∈ concat (u :: ups)) root).
    - pose proof (tower_root _ _ _ _ _ Ht) as [H|H]%elem_of_app; [left; exists k; auto|by right].
    - intros x y _ Hxy [(i & Hi & Hx)|Hx].
      + left. destruct (rtc_good heap i x y Hx) as (i' & ? & ?); [by apply rtc_once|]. exists i'. split; [lia|done].
      + destruct (tower_closed _ _ _ _ _ _ _ Ht Hx Hxy) as [H|H]; [left; exists k; auto|by right]. }
  - pose proof (good_unique _ _ _ _ Hgi Hp). lia.
  - destruct Ht as (us & Hl & Ht). simpl in Hin. apply elem_of_app in Hin as [Hin|Hin]; [done|].
    destruct (tower_heights _ _ _ _ _ (S k) _ Ht (layer_good _ _ _ _ _ _ Hl Hg) Hin) as [j Hj].
    pose proof (good_unique _ _ _ _ Hj Hp). lia.
Qed.

(** [findParent] from the root finds the parent of a node of level [l]. *)
Lemma findParent_tower heap root l seps u ups k target :
  tower heap root l seps (u :: ups) → (∀ n, n ∈ l → good heap k n) → target ∈ l →
  ∃ p i nd, findParent (S (size heap)) heap root target = Ret (Some (p, i)) ∧ p ∈ u ∧ heap !! p = Some nd ∧
    bp_children nd !! i = Some target.
Proof.
  intros Ht Hg Hin. pose proof (tower_good _ _ _ _ _ k Ht Hg) as Hgr. pose proof (good_size _ _ _ Hgr) as Hsz.
  destruct (findParent_spec heap target (k + length (u :: ups)) (S (size heap)) root Hgr) as (r & -> & Hr); [lia|].
  destruct r as [[p i]|].
  - destruct Hr as (Hreach & nd & Hp & Hv & Hi). exists p, i, nd. split_and!; [done| |done|done].
    eapply tower_parent_level; [done|done|done|]. destruct (rtc_good _ _ _ _ Hgr Hreach) as (h & _ & Hh).
    destruct h as [|h]; [destruct Hh as (nd' & vs & ? & ?); congruence|].
    pose proof Hh as (nd' & Hp' & _ & _ & Hc). assert (nd' = nd) as -> by congruence.
    assert (h = k) as ->; [|done]. eapply good_unique; [apply Hc; by eapply list_elem_of_lookup_2|by apply Hg].
  - destruct Hr. destruct Ht as (us & Hl & Ht). by eapply tower_reach.
Qed.

(** ** Replacing a node of a layer *)
Definition agree_on (heap heap' : gmap nat bpNode) (l : list nat) : Prop := ∀ n, n ∈ l → heap' !! n = heap !! n.

(** A layer seen from one of its nodes [n]: the children and keys before and
    after those of [n], and what the layer becomes when [n] changes or is
    split in two. *)
Lemma layer_focus heap u us l seps n nd :
  layer heap u us l seps → n ∈ u → heap !! n = Some nd →
  ∃ u1 u2 us1 us2 l1 l2 s1 s2,
    u = u1 ++ n :: u2 ∧ us = us1 ++ us2 ∧ length u1 = length us1 ∧
    l = l1 ++ bp_children nd ++ l2 ∧ seps = s1 ++ bp_keys nd ++ s2 ∧ length l1 = length s1 ∧
    (∀ heap' nd', agree_on heap heap' (u1 ++ u2) → heap' !! n = Some nd' → wf_internal nd' →
       layer heap' u us (l1 ++ bp_children nd' ++ l2) (s1 ++ bp_keys nd' ++ s2)) ∧
    (∀ heap' nd' m md pk, agree_on heap heap' (u1 ++ u2) → heap' !! n = Some nd' → wf_internal nd' →
       heap' !! m = Some md → wf_internal md →
       layer heap' (u1 ++ n :: m :: u2) (us1 ++ pk :: us2) (l1 ++ bp_children nd' ++ bp_children md ++ l2)
         (s1 ++ bp_keys nd' ++ pk :: bp_keys md ++ s2)).
Proof.
  intros Hl Hin Hn. induction Hl as [n' nd' Hn' Hw|n' nd' s u us l seps Hn' Hw Hl IH].
  - apply list_elem_of_singleton in Hin as ->. assert (nd' = nd) as -> by congruence.
    exists [], [], [], [], [], [], [], []. split_and!; try done; try by rewrite ?app_nil_r.
    + intros heap' nd' _ H1 H2. rewrite !app_nil_r. by constructor.
    + intros heap' nd' m md pk _ H1 H2 H3 H4. simpl. rewrite !app_nil_r. apply layer_cons; [done|done|]. by apply layer_one.
  - apply elem_of_cons in Hin as [->|Hin].
    + assert (nd' = nd) as -> by congruence.
      exists [], u, [], (s :: us), [], l, [], (s :: seps). split_and!; try done.
      * intros heap' nd' Ha H1 H2. simpl. constructor; [done|done|]. by eapply layer_frame.
      * intros heap' nd' m md pk Ha H1 H2 H3 H4. simpl. constructor; [done|done|]. constructor; [done|done|]. by eapply layer_frame.
    + destruct (IH Hin) as (u1 & u2 & us1 & us2 & l1 & l2 & s1 & s2 & -> & -> & Hlu & -> & -> & Hls & H1 & H2).
      exists (n' :: u1), u2, (s :: us1), us2, (bp_children nd' ++ l1), l2, (bp_keys nd' ++ s :: s1), s2.
      destruct Hw as (Hv & Hlen & Ho).
      split_and!; try done; [simpl; lia|by rewrite <-app_assoc|by rewrite <-app_assoc|rewrite !length_app; simpl; lia| |].
      * intros heap' ndx Ha Hx Hwx. rewrite <-!app_assoc. simpl. apply layer_cons; [by rewrite Ha by (by left)|done|].
        apply H1; [|done|done]. intros y Hy. apply Ha. by right.
      * intros heap' ndx m md pk Ha Hx Hwx Hm Hwm. rewrite <-!app_assoc. simpl. apply layer_cons; [by rewrite Ha by (by left)|done|].
        apply H2; try done. intros y Hy. apply Ha. by right.
Qed.

(** ** Splitting upwards *)
Definition ins {A} (i : nat) (x : A) (l : list A) : list A := take i l ++ x :: drop i l.

Lemma insertAt_ins {A} (l : list A) i x : i ≤ length l → insertAt l i x = Ret (ins i x l).
Proof. intros. unfold insertAt. by rewrite decide_True. Qed.

Lemma ins_mid {A} (a b c : list A) i x : i ≤ length b → ins (length a + i) x (a ++ b ++ c) = a ++ ins i x b ++ c.
Proof.
  intros Hi. unfold ins. rewrite take_app_add, drop_app_add. rewrite take_app_le, drop_app_le by done.
  by rewrite <-!app_assoc.
Qed.

Lemma ins_at {A} (a b : list A) x : ins (length a) x (a ++ b) = a ++ x :: b.
Proof. unfold ins. by rewrite take_app_length, drop_app_length. Qed.

Lemma ins_after {A} (a b : list A) x y : ins (S (length a)) x (a ++ y :: b) = a ++ y :: x :: b.
Proof. rewrite <-Nat.add_1_r. unfold ins. rewrite take_app_add, drop_app_add. simpl. by rewrite <-app_assoc. Qed.

Lemma ins_length {A} i (x : A) l : length (ins i x l) = S (length l).
Proof. unfold ins. rewrite length_app. simpl. rewrite length_take, length_drop. lia. Qed.

Lemma ins_perm {A} i (x : A) l : ins i x l ≡ₚ x :: l.
Proof. unfold ins. by rewrite <-Permutation_middle, take_drop. Qed.

Lemma ins_elem {A} i (x y : A) l : y ∈ ins i x l ↔ y = x ∨ y ∈ l.
Proof. unfold ins. rewrite elem_of_app, elem_of_cons. rewrite <-(take_drop i l) at 3. rewrite elem_of_app. tauto. Qed.

Lemma tower_frame heap heap' root l seps ups :
  agree_on heap heap' (concat ups) → tower heap root l seps ups → tower heap' root l seps ups.
Proof.
  revert l seps; induction ups as [|u ups IH]; intros l seps Ha; simpl; [done|]. intros (us & Hl & Ht). exists us. split.
  - eapply layer_frame; [|done]. intros n Hn. apply Ha. simpl. set_solver.
  - apply IH; [|done]. intros n Hn. apply Ha. simpl. set_solver.
Qed.

(** The heights up to [k] do not see a change of a node that is higher. *)
Lemma update_lower heap k p nd' n i : good heap (S k) p → i ≤ k → good heap i n → <[p := nd']> heap !! n = heap !! n.
Proof.
  intros Hp Hi Hn. apply lookup_insert_ne. intros ->. pose proof (good_unique _ _ _ _ Hp Hn). lia.
Qed.

Lemma fresh_lower (heap : gmap nat bpNode) a nd' n i : heap !! a = None → good heap i n → <[a := nd']> heap !! n = heap !! n.
Proof. intros Ha Hn%good_dom. apply lookup_insert_ne. intros ->. apply elem_of_dom in Hn as [? ?]. congruence. Qed.

(** The common part of [insertIntoParent] and [splitInternal]. *)
Definition insert_up (f left : nat) (key : gostring) (right : nat) (s : BPTreeStore) : go BPTreeStore :=
  if decide (bt_root s = left) then Ret (grow_root left key right s) else
  parent ← findParent (S (size (bt_heap s))) (bt_heap s) (bt_root s) left;
  '(p, len, s2) ← insert_child parent key right s;
  if decide (bpOrder ≤ len) then splitInternal f p s2 else Ret s2.

Lemma splitInternal_S f n s : splitInternal (S f) n s = ('(pk, q, s1) ← split_node n s; insert_up f n pk q s1).
Proof. done. Qed.

Definition alloc_ok (s : BPTreeStore) : Prop := ∀ p, is_Some (bt_heap s !! p) → p < bt_alloc s.

Lemma alloc_fresh s : alloc_ok s → bt_heap s !! bt_alloc s = None.
Proof. intros Ha. apply eq_None_not_Some. intros H%Ha. lia. Qed.

(** Inserting [key] and [right] into the parent [p] of [left]. *)
Lemma insert_child_spec s l seps u ups j left right key k :
  tower (bt_heap s) (bt_root s) l seps (u :: ups) → NoDup l → (∀ n, n ∈ l → good (bt_heap s) k n) → l !! j = Some left →
  ∃ p i nd, findParent (S (size (bt_heap s))) (bt_heap s) (bt_root s) left = Ret (Some (p, i)) ∧
    p ∈ u ∧ bt_heap s !! p = Some nd ∧ wf_internal nd ∧ good (bt_heap s) (S k) p ∧ i < length (bp_children nd) ∧
    insert_child (Some (p, i)) key right s =
      Ret (p, S (length (bp_keys nd)), put_node p (mkBP (ins i key (bp_keys nd)) (ins (S i) right (bp_children nd)) None (bp_next nd)) s) ∧
    ∀ l1 l2, l = l1 ++ bp_children nd ++ l2 → j = length l1 + i.
Proof.
  intros Ht Hnd Hg Hj. destruct (findParent_tower _ _ _ _ _ _ k left Ht Hg) as (p & i & nd & Hf & Hp & Hpd & Hi);
    [by eapply list_elem_of_lookup_2|]. exists p, i, nd. destruct Ht as (us & Hl & Ht).
  destruct (layer_children _ _ _ _ _ _ _ Hl Hp Hpd) as [Hw _]. pose proof Hw as (Hv & Hlen & _).
  pose proof (lookup_lt_Some _ _ _ Hi) as Hlt.
  split_and!; [done|done|done|done|by eapply layer_good|done| |].
  - unfold insert_child, at_heap. rewrite Hpd. cbn [mbind go_bind]. rewrite insertAt_ins by lia. cbn [mbind go_bind].
    rewrite insertAt_ins by lia. cbn [mbind go_bind]. rewrite ins_length, Hv, Nat.add_1_r. done.
  - intros l1 l2 ->. eapply NoDup_lookup; [exact Hnd|exact Hj|]. rewrite lookup_app_r by lia.
    replace (length l1 + i - length l1) with i by lia. by apply lookup_app_l_Some.
Qed.

Lemma split_node_spec p s nd :
  bt_heap s !! p = Some nd → bp_values nd = None → length (bp_keys nd) = bpOrder → length (bp_children nd) = S bpOrder →
  ∃ pk ka kb ca cb, bp_keys nd = ka ++ pk :: kb ∧ bp_children nd = ca ++ cb ∧
    wf_internal (mkBP ka ca None (bp_next nd)) ∧ wf_internal (mkBP kb cb None None) ∧
    split_node p s = Ret (pk, bt_alloc s, mkBPTree (bt_root s) (bt_hashes s)
      (<[p := mkBP ka ca None (bp_next nd)]> (<[bt_alloc s := mkBP kb cb None None]> (bt_heap s))) (bt_alloc s + 1)).
Proof.
  intros Hp Hv Hk Hc. destruct (lookup_lt_is_Some_2 (bp_keys nd) 16) as [pk Hpk]; [rewrite Hk; unfold bpOrder; lia|].
  exists pk, (take 16 (bp_keys nd)), (drop 17 (bp_keys nd)), (take 17 (bp_children nd)), (drop 17 (bp_children nd)).
  assert (bpOrder = 32) as Ho by done. split_and!.
  - by rewrite (take_drop_middle _ _ _ Hpk).
  - by rewrite take_drop.
  - split_and!; [done| |]; simpl; rewrite !length_take; lia.
  - split_and!; [done| |]; simpl; rewrite !length_drop; lia.
  - unfold split_node, at_heap. rewrite Hp. cbn [mbind go_bind]. change (bpOrder / 2) with 16. unfold index. rewrite Hpk.
    cbn [mbind go_bind]. unfold slice_from, slice_to. change (16 + 1) with 17. rewrite !decide_True by lia. cbn [mbind go_bind].
    by rewrite Hv.
Qed.

(** The heap after [p] was split into [A] at [p] and [B] at the fresh [a]. *)
Lemma split_goods heap k p a A B :
  good heap (S k) p → heap !! a = None → bp_values A = None → bp_values B = None → bp_children A ≠ [] → bp_children B ≠ [] →
  (∀ c, c ∈ bp_children A ++ bp_children B → good heap k c) →
  (∀ n i, i ≤ k → good heap i n → <[p := A]> (<[a := B]> heap) !! n = heap !! n) ∧
  good (<[p := A]> (<[a := B]> heap)) (S k) a ∧
  ∀ n, good heap (S k) n → good (<[p := A]> (<[a := B]> heap)) (S k) n.
Proof.
  intros Hp Ha HA HB HnA HnB Hc. pose proof (good_dom _ _ _ Hp) as Hpd.
  assert (p ≠ a) as Hpa by (intros ->; by apply elem_of_dom in Hpd as [? ?]; congruence).
  set (heap2 := <[p:=A]> _).
  assert (∀ n i, i ≤ k → good heap i n → heap2 !! n = heap !! n) as Hfr.
  { intros n i Hi Hn. unfold heap2. rewrite lookup_insert_ne; [by eapply fresh_lower|].
    intros ->. pose proof (good_unique _ _ _ _ Hp Hn). lia. }
  assert (∀ c, good heap k c → good heap2 k c) as Hk by (intros c; by apply good_frame with (k := k)).
  split_and!; [done| |].
  - exists B. split_and!; [unfold heap2; by rewrite lookup_insert_ne, lookup_insert_eq|done|done|].
    intros c Hcb. apply Hk, Hc. set_solver.
  - intros n Hn. destruct (decide (n = p)) as [->|Hne].
    + exists A. split_and!; [apply lookup_insert_eq|done|done|]. intros c Hca. apply Hk, Hc. set_solver.
    + pose proof Hn as (nd & Hnd & Hv & Hne' & Hch). exists nd. split_and!; [|done|done|intros c Hcc; by apply Hk, Hch].
      unfold heap2. rewrite lookup_insert_ne by done. rewrite (fresh_lower _ _ _ _ _ Ha Hn). done.
Qed.

(** What inserting [right] after the [j]th node of level [l] and [key] as the
    [j]th separator promises, for nodes of height [k]. *)
Definition inserted (s : BPTreeStore) (l : list nat) (seps : list gostring) (j right : nat) (key : gostring) (k : nat)
    (r : go BPTreeStore) : Prop :=
  ∃ s' ups', r = Ret s' ∧ bt_hashes s' = bt_hashes s ∧ alloc_ok s' ∧
    tower (bt_heap s') (bt_root s') (ins (S j) right l) (ins j key seps) ups' ∧
    (∀ n i, i ≤ k → good (bt_heap s) i n → bt_heap s' !! n = bt_heap s !! n).

Lemma grow_root_spec s right key k :
  alloc_ok s → inserted s [bt_root s] [] 0 right key k (Ret (grow_root (bt_root s) key right s)).
Proof.
  intros Hal. pose proof (alloc_fresh s Hal) as Hfr. eexists _, [[bt_alloc s]]. split; [done|]. unfold grow_root.
  cbn [bt_hashes bt_heap bt_root bt_alloc]. split_and!; [done| | |].
  - intros p. cbn [bt_heap bt_alloc]. rewrite lookup_insert. case_decide; [lia|]. intros Hp%Hal. lia.
  - exists []. split; [|done]. apply (layer_one _ _ (mkBP [key] [bt_root s; right] None None)); [apply lookup_insert_eq|].
    split_and!; [done|done|]. unfold bpOrder. simpl. lia.
  - intros n i _ Hn. by eapply fresh_lower.
Qed.

(** A level [u] over [l], seen from the node [p] of [u] that is the parent of
    the [j]th node of [l], before [key] and [right] go into it. *)
Section into_parent.
Context (s : BPTreeStore) (l : list nat) (seps : list gostring) (u1 u2 : list nat) (us : list gostring) (ups : list (list nat)).
Context (p i : nat) (nd : bpNode) (right : nat) (key : gostring) (k : nat).
Context (Hl : layer (bt_heap s) (u1 ++ (p :: u2)) us l seps) (Ht : tower (bt_heap s) (bt_root s) (u1 ++ (p :: u2)) us ups).
Context (Hnd : NoDup l) (Hg : ∀ n, n ∈ l → good (bt_heap s) k n) (Hgr : good (bt_heap s) k right) (Hal : alloc_ok s).
Context (Hpd : bt_heap s !! p = Some nd) (Hi : i < length (bp_children nd)).

Definition with_child : bpNode := mkBP (ins i key (bp_keys nd)) (ins (S i) right (bp_children nd)) None (bp_next nd).

Lemma parent_alone : (p ∉ u1 ++ u2) ∧ (p ∉ concat ups) ∧ good (bt_heap s) (S k) p ∧ wf_internal nd.
Proof using Hal Hg Hgr Hi Hl Hnd Hpd Ht.
  pose proof (layer_nodup _ _ _ _ _ Hl Hnd) as Hndu. rewrite <-Permutation_middle in Hndu. apply NoDup_cons in Hndu as [Hpu _].
  pose proof (layer_good _ _ _ _ _ _ Hl Hg) as Hgu. assert (good (bt_heap s) (S k) p) as Hgp by (apply Hgu; set_solver).
  split_and!; [done| |done|]; [|eapply (layer_children _ _ _ _ _ p nd Hl); [set_solver|done]].
  intros Hin. destruct (tower_heights _ _ _ _ _ (S k) _ Ht Hgu Hin) as [h Hh]. pose proof (good_unique _ _ _ _ Hh Hgp). lia.
Qed.

Context (l1 l2 : list nat) (s1 s2 us1 us2 : list gostring).
Context (Hle : l = l1 ++ bp_children nd ++ l2) (Hse : seps = s1 ++ bp_keys nd ++ s2) (Hls : length l1 = length s1).

Lemma with_child_at : length (bp_children nd) = S (length (bp_keys nd)) →
  ins (S (length l1 + i)) right l = l1 ++ bp_children with_child ++ l2 ∧
  ins (length l1 + i) key seps = s1 ++ bp_keys with_child ++ s2.
Proof using Hi Hle Hse Hls.
  intros Hlen. rewrite Hle, Hse. split; [rewrite <-Nat.add_succ_r; by apply ins_mid|]. rewrite Hls. apply ins_mid. lia.
Qed.

Context (Hone : ∀ heap' nd', agree_on (bt_heap s) heap' (u1 ++ u2) → heap' !! p = Some nd' → wf_internal nd' →
  layer heap' (u1 ++ p :: u2) us (l1 ++ bp_children nd' ++ l2) (s1 ++ bp_keys nd' ++ s2)).

Lemma insert_room :
  S (length (bp_keys nd)) < bpOrder → inserted s l seps (length l1 + i) right key k (Ret (put_node p with_child s)).
Proof using All.
  intros Hroom. destruct parent_alone as (Hpu & Hpup & Hgp & (Hv & Hlen & _)). destruct (with_child_at Hlen) as [E1 E2].
  eexists _, ((u1 ++ p :: u2) :: ups). split; [done|]. rewrite E1, E2. cbn [put_node bt_hashes bt_heap bt_root bt_alloc].
  split_and!; [done| | |].
  - intros q. cbn [put_node bt_heap bt_alloc]. rewrite lookup_insert. case_decide; [subst; intros _; apply Hal; by exists nd|apply Hal].
  - exists us. split.
    + apply (Hone _ with_child); [|apply lookup_insert_eq|]. { intros n Hn. apply lookup_insert_ne. set_solver. }
      split_and!; [done|simpl; rewrite !ins_length; lia|simpl; rewrite ins_length; lia].
    + eapply tower_frame; [|done]. intros n Hn. apply lookup_insert_ne. set_solver.
  - intros n h Hh Hn. by eapply update_lower.
Qed.

Context (Hue : us = us1 ++ us2) (Hlu : length u1 = length us1).
Context (Htwo : ∀ heap' nd' m md pk, agree_on (bt_heap s) heap' (u1 ++ u2) → heap' !! p = Some nd' → wf_internal nd' →
  heap' !! m = Some md → wf_internal md →
  layer heap' (u1 ++ p :: m :: u2) (us1 ++ pk :: us2) (l1 ++ bp_children nd' ++ bp_children md ++ l2)
    (s1 ++ bp_keys nd' ++ pk :: bp_keys md ++ s2)).

Lemma insert_split f :
  (∀ s' l' seps' j' left' right' key' k', tower (bt_heap s') (bt_root s') l' seps' ups → NoDup l' →
     (∀ n, n ∈ l' → good (bt_heap s') k' n) → good (bt_heap s') k' right' → l' !! j' = Some left' → alloc_ok s' →
     inserted s' l' seps' j' right' key' k' (insert_up f left' key' right' s')) →
  S (length (bp_keys nd)) = bpOrder →
  inserted s l seps (length l1 + i) right key k (splitInternal (S f) p (put_node p with_child s)).
Proof using All.
  intros IH Hfull. destruct parent_alone as (Hpu & Hpup & Hgp & (Hv & Hlen & _)). destruct (with_child_at Hlen) as [E1 E2].
  destruct (split_node_spec p (put_node p with_child s) with_child) as (pk & ka & kb & ca & cb & Hk & Hc & HA & HB & Esp);
    [apply lookup_insert_eq|done|simpl; rewrite ins_length; lia|simpl; rewrite ins_length; lia|].
  rewrite splitInternal_S, Esp. cbn [mbind go_bind]. clear Esp. cbn [bt_heap bt_root bt_hashes bt_alloc put_node].
  pose proof (alloc_fresh s Hal) as Hfr. assert (p ≠ bt_alloc s) as Hpa by congruence.
  rewrite (insert_insert_ne (bt_heap s) (bt_alloc s) p), insert_insert_eq by done.
  set (A := mkBP ka ca None (bp_next with_child)) in *. set (B := mkBP kb cb None None) in *.
  destruct (split_goods (bt_heap s) k p (bt_alloc s) A B Hgp Hfr) as (Hlow & Hga & Hgs); try done.
  { destruct HA as (_ & HA & _). intros E. by rewrite E in HA. } { destruct HB as (_ & HB & _). intros E. by rewrite E in HB. }
  { intros c. change (c ∈ ca ++ cb → good (bt_heap s) k c). rewrite <-Hc. simpl. rewrite ins_elem. intros [->|Hcc]; [done|].
    apply Hg. rewrite Hle. set_solver. }
  set (heap2 := <[p:=A]> _) in *.
  assert (∀ n, n ≠ p → n ≠ bt_alloc s → heap2 !! n = bt_heap s !! n) as Hoth by (intros; unfold heap2; by rewrite !lookup_insert_ne).
  assert (∀ n h, good (bt_heap s) h n → n ≠ bt_alloc s) as Hna.
  { intros n h Hn ->. apply good_dom, elem_of_dom in Hn as [? ?]. congruence. }
  pose proof (layer_good _ _ _ _ _ _ Hl Hg) as Hgu.
  destruct (IH (mkBPTree (bt_root s) (bt_hashes s) heap2 (bt_alloc s + 1)) (u1 ++ p :: u2) us (length u1) p (bt_alloc s) pk (S k))
    as (s3 & ups3 & E3 & Hhs & Hal3 & Ht3 & Hfr3); cbn [bt_heap bt_root bt_alloc bt_hashes].
  - eapply tower_frame; [|done]. intros n Hn. destruct (tower_heights _ _ _ _ _ (S k) _ Ht Hgu Hn) as [h Hh].
    apply Hoth; [set_solver|by eapply Hna].
  - by eapply layer_nodup.
  - intros n Hn. apply Hgs. by apply Hgu.
  - done.
  - by apply list_lookup_middle.
  - intros q. cbn [bt_heap bt_alloc]. unfold heap2. rewrite !lookup_insert. repeat case_decide; [|lia|];
      intros Hq; [assert (p < bt_alloc s) by (apply Hal; by exists nd); lia|apply Hal in Hq; lia].
  - exists s3, ((u1 ++ p :: bt_alloc s :: u2) :: ups3). split_and!; [done|done|done| |].
    + rewrite E1, E2, Hc, Hk, <-!app_assoc. exists (us1 ++ pk :: us2). split.
      * apply (Htwo (bt_heap s3) A (bt_alloc s) B pk); [|rewrite (Hfr3 p (S k)) by auto; apply lookup_insert_eq|done| |done].
        -- intros n Hn. assert (good (bt_heap s) (S k) n) as Hgn by (apply Hgu; set_solver).
           rewrite (Hfr3 n (S k)) by auto. apply Hoth; [set_solver|by eapply Hna].
        -- rewrite (Hfr3 (bt_alloc s) (S k)) by auto. cbn [bt_heap]. unfold heap2. by rewrite lookup_insert_ne, lookup_insert_eq by done.
      * rewrite Hue, ins_after in Ht3. rewrite Hlu, ins_at in Ht3. done.
    + intros n h Hh Hn. rewrite (Hfr3 n h); [by apply Hlow with (i := h)|lia|]. cbn [bt_heap].
      eapply good_frame with (k := k); [exact Hlow|done|done].
Qed.
End into_parent.

(** One node and one separator more at level [l], and the levels above
    adjusted. *)
Lemma insert_up_spec ups s l seps j left right key k f :
  tower (bt_heap s) (bt_root s) l seps ups → NoDup l → (∀ n, n ∈ l → good (bt_heap s) k n) → good (bt_heap s) k right →
  l !! j = Some left → alloc_ok s → length ups ≤ f → inserted s l seps j right key k (insert_up f left key right s).
Proof.
  revert s l seps j left right key k f; induction ups as [|u ups IH]; intros s l seps j left right key k f Ht Hnd Hg Hgr Hj Hal Hf.
  - destruct Ht as [-> ->]. apply list_lookup_singleton_Some in Hj as [-> <-]. unfold insert_up. rewrite decide_True by done.
    by apply grow_root_spec.
  - destruct (insert_child_spec s l seps u ups j left right key k Ht Hnd Hg Hj)
      as (p & i & nd & Hfp & Hp & Hpd & (Hv & Hlen & Ho) & Hgp & Hi & Hins & Hij).
    unfold insert_up. rewrite decide_False.
    2:{ intros Hroot. pose proof (tower_good _ _ _ _ _ k Ht Hg) as Hgroot. rewrite Hroot in Hgroot.
        pose proof (good_unique _ _ _ _ Hgroot (Hg left (list_elem_of_lookup_2 _ _ _ Hj))). simpl in *. lia. }
    rewrite Hfp. cbn [mbind go_bind]. rewrite Hins. cbn [mbind go_bind]. destruct Ht as (us & Hl & Ht).
    destruct (layer_focus _ _ _ _ _ _ _ Hl Hp Hpd)
      as (u1 & u2 & us1 & us2 & l1 & l2 & s1 & s2 & -> & Hue & Hlu & Hle & Hse & Hls & Hone & Htwo).
    rewrite (Hij l1 l2 Hle). destruct f as [|f]; [simpl in Hf; lia|].
    destruct (decide (bpOrder ≤ S (length (bp_keys nd)))) as [Hfull|Hroom].
    + eapply insert_split; eauto; [|lia]. intros. eapply IH; eauto. simpl in Hf. lia.
    + eapply insert_room; eauto. lia.
Qed.

Lemma insertIntoParent_spec ups s l seps j left right key k :
  tower (bt_heap s) (bt_root s) l seps ups → NoDup l → (∀ n, n ∈ l → good (bt_heap s) k n) → good (bt_heap s) k right →
  l !! j = Some left → alloc_ok s → inserted s l seps j right key k (insertIntoParent left key right s).
Proof.
  intros Ht Hnd Hg Hgr Hj Hal. pose proof (good_size _ _ _ (tower_good _ _ _ _ _ k Ht Hg)) as Hsz.
  assert (insertIntoParent left key right s = insert_up (S (size (bt_heap s))) left key right s) as ->.
  { unfold insertIntoParent, insert_up. destruct (decide (bt_root s = left)) as [|Hne]; [done|].
    destruct ups as [|u ups]; [destruct Ht as [-> _]; by apply list_lookup_singleton_Some in Hj as [_ <-]|].
    destruct (insert_child_spec s l seps u ups j left right key k Ht Hnd Hg Hj) as (p & i & nd & -> & _ & Hpd & _ & _ & _ & Hins & _).
    cbn [mbind go_bind]. rewrite Hins. cbn [mbind go_bind put_node bt_heap]. rewrite map_size_insert_Some by (by exists nd).
    destruct (decide (S (length (bp_keys nd)) < bpOrder)); [by rewrite decide_False by lia|by rewrite decide_True by lia]. }
  eapply insert_up_spec; eauto. lia.
Qed.

(** ** The leaves *)
Definition leaf_at (heap : gmap nat bpNode) (l : list nat) (seps : list gostring) (j n : nat) : Prop :=
  ∃ ks vs, heap !! n = Some (mkBP ks [] (Some vs) (l !! S j)) ∧ length vs = length ks ∧ sorted_keys ks ∧
    ∀ k, k ∈ ks → rank k seps = j.

Record bp_rep (s : BPTreeStore) (l : list nat) (seps : list gostring) (ups : list (list nat)) : Prop := mk_bp_rep {
  bp_tower : tower (bt_heap s) (bt_root s) l seps ups;
  bp_nodup : NoDup l;
  bp_seps : sorted_keys seps;
  bp_alloc : alloc_ok s;
  bp_leaves j n : l !! j = Some n → leaf_at (bt_heap s) l seps j n
}.

(** No leaf is full. *)
Definition small (heap : gmap nat bpNode) (l : list nat) : Prop :=
  ∀ n nd, n ∈ l → heap !! n = Some nd → length (bp_keys nd) < bpOrder.

Lemma rep_good s l seps ups n : bp_rep s l seps ups → n ∈ l → good (bt_heap s) 0 n.
Proof.
  intros Hr [j Hj]%list_elem_of_lookup. destruct (bp_leaves _ _ _ _ Hr j n Hj) as (ks & vs & Hn & _). by eexists _, vs.
Qed.

(** ** The content *)
Fixpoint gather (fuel : nat) (heap : gmap nat bpNode) (n : nat) : list (gostring * gostring) :=
  match fuel with
  | O => []
  | S f =>
      match heap !! n with
      | Some nd => match bp_values nd with
                   | Some vs => zip (bp_keys nd) vs
                   | None => concat (gather f heap <$> bp_children nd)
                   end
      | None => []
      end
  end.
Definition BPTreeStore_abs (s : BPTreeStore) : kv :=
  mkKV (list_to_map (gather (size (bt_heap s)) (bt_heap s) (bt_root s))) (bt_hashes s).

Definition entries (heap : gmap nat bpNode) (n : nat) : list (gostring * gostring) := gather 1 heap n.
Definition content (heap : gmap nat bpNode) (l : list nat) : list (gostring * gostring) := concat (entries heap <$> l).

Lemma gather_layer heap u us l seps f :
  layer heap u us l seps → concat (gather (S f) heap <$> u) = concat (gather f heap <$> l).
Proof.
  induction 1 as [n nd Hn (Hv & _)|n nd s u us l seps Hn (Hv & _) _ IH].
  - rewrite list_fmap_singleton. cbn [gather concat]. rewrite Hn, Hv. by rewrite app_nil_r.
  - rewrite fmap_cons, fmap_app, concat_app. cbn [concat]. rewrite IH. f_equal. cbn [gather]. by rewrite Hn, Hv.
Qed.

Lemma gather_tower heap root l seps ups f :
  tower heap root l seps ups → gather (length ups + f) heap root = concat (gather f heap <$> l).
Proof.
  revert l seps f; induction ups as [|u ups IH]; intros l seps f.
  - intros [-> _]. simpl. by rewrite app_nil_r.
  - intros (us & Hl & Ht). cbn [length]. rewrite Nat.add_succ_comm, (IH u us) by done. by eapply gather_layer.
Qed.

Lemma bp_rep_abs s l seps ups :
  bp_rep s l seps ups → BPTreeStore_abs s = mkKV (list_to_map (content (bt_heap s) l)) (bt_hashes s).
Proof.
  intros Hr. unfold BPTreeStore_abs. f_equal. f_equal. pose proof (bp_tower _ _ _ _ Hr) as Ht.
  pose proof (good_size _ _ _ (tower_good _ _ _ _ _ 0 Ht (λ n, rep_good s l seps ups n Hr))) as Hsz.
  replace (size (bt_heap s)) with (length ups + S (size (bt_heap s) - length ups - 1)) by lia.
  rewrite (gather_tower _ _ _ _ _ _ Ht). unfold content. f_equal. apply list_fmap_ext. intros i n Hn.
  destruct (bp_leaves _ _ _ _ Hr i n Hn) as (ks & vs & Hnd & _). unfold entries. cbn [gather]. by rewrite Hnd.
Qed.

Lemma entries_leaf heap n ks cs vs nx : heap !! n = Some (mkBP ks cs (Some vs) nx) → entries heap n = zip ks vs.
Proof. intros Hn. unfold entries. cbn [gather]. by rewrite Hn. Qed.

Lemma content_app heap l1 l2 : content heap (l1 ++ l2) = content heap l1 ++ content heap l2.
Proof. unfold content. by rewrite fmap_app, concat_app. Qed.

Lemma content_cons heap n l : content heap (n :: l) = entries heap n ++ content heap l.
Proof. done. Qed.

Lemma content_ext heap heap' l : agree_on heap heap' l → content heap' l = content heap l.
Proof.
  intros Ha. unfold content. f_equal. apply list_fmap_ext. intros i n Hn. unfold entries. cbn [gather].
  by rewrite Ha by by eapply list_elem_of_lookup_2.
Qed.

(** Where a key of the content comes from. *)
Lemma content_key s l seps ups l1 l2 l3 k :
  bp_rep s l seps ups → l = l1 ++ l2 ++ l3 → k ∈ (content (bt_heap s) l2).*1 →
  length l1 ≤ rank k seps < length l1 + length l2.
Proof.
  intros Hr Hl (e & -> & He)%list_elem_of_fmap. unfold content in He. apply list_elem_of_In, in_concat in He as (es & Hes & He).
  apply list_elem_of_In, list_elem_of_fmap in Hes as (n & -> & [i Hi]%list_elem_of_lookup). apply list_elem_of_In in He.
  pose proof (lookup_lt_Some _ _ _ Hi) as Hlt.
  assert (l !! (length l1 + i) = Some n) as Hn.
  { rewrite Hl, lookup_app_r by lia. replace (length l1 + i - length l1) with i by lia. by apply lookup_app_l_Some. }
  destruct (bp_leaves _ _ _ _ Hr _ _ Hn) as (ks & vs & Hnd & Hlen & _ & Hrk). rewrite (entries_leaf _ _ _ _ _ _ Hnd) in He.
  rewrite Hrk; [lia|]. destruct e as [k v]. by apply elem_of_zip_l in He.
Qed.

(** ** The leaf of a key *)
Record leaf_of (s : BPTreeStore) (l : list nat) (seps : list gostring) (key : gostring) (l1 : list nat) (n : nat) (l2 : list nat)
    (a b va vb : list gostring) (nx : option nat) : Prop := {
  lo_split : l = l1 ++ n :: l2;
  lo_rank : length l1 = rank key seps;
  lo_search : searchLeaf key s = Ret n;
  lo_node : bt_heap s !! n = Some (mkBP (a ++ b) [] (Some (va ++ vb)) nx);
  lo_next : nx = l !! S (length l1);
  lo_va : length va = length a;
  lo_vb : length vb = length b;
  lo_sorted : sorted_keys (a ++ b);
  lo_ranks k : k ∈ a ++ b → rank k seps = length l1;
  lo_idx : search_ge (a ++ b) key = Ret (length a);
  lo_lt k : k ∈ a → str_lt k key;
  lo_found : (∃ b', b = key :: b' ∧ found (a ++ b) (length a) key = true) ∨
             (found (a ++ b) (length a) key = false ∧ ∀ k, k ∈ b → str_lt key k);
  lo_before : key ∉ (content (bt_heap s) l1).*1;
  lo_after : key ∉ (content (bt_heap s) l2).*1
}.

Arguments lo_split {_ _ _ _ _ _ _ _ _ _ _ _} _.
Arguments lo_rank {_ _ _ _ _ _ _ _ _ _ _ _} _.
Arguments lo_search {_ _ _ _ _ _ _ _ _ _ _ _} _.
Arguments lo_node {_ _ _ _ _ _ _ _ _ _ _ _} _.
Arguments lo_next {_ _ _ _ _ _ _ _ _ _ _ _} _.
Arguments lo_va {_ _ _ _ _ _ _ _ _ _ _ _} _.
Arguments lo_vb {_ _ _ _ _ _ _ _ _ _ _ _} _.
Arguments lo_sorted {_ _ _ _ _ _ _ _ _ _ _ _} _.
Arguments lo_ranks {_ _ _ _ _ _ _ _ _ _ _ _} _.
Arguments lo_idx {_ _ _ _ _ _ _ _ _ _ _ _} _.
Arguments lo_lt {_ _ _ _ _ _ _ _ _ _ _ _} _.
Arguments lo_found {_ _ _ _ _ _ _ _ _ _ _ _} _.
Arguments lo_before {_ _ _ _ _ _ _ _ _ _ _ _} _.
Arguments lo_after {_ _ _ _ _ _ _ _ _ _ _ _} _.

Lemma bp_locate s l seps ups key :
  bp_rep s l seps ups → ∃ l1 n l2 a b va vb nx, leaf_of s l seps key l1 n l2 a b va vb nx.
Proof.
  intros Hr. destruct (searchLeaf_spec s key l seps ups) as (n & Hn & Hs); [apply Hr|intros m Hm; by eapply rep_good|apply Hr|].
  destruct (bp_leaves _ _ _ _ Hr _ _ Hn) as (ks & vs & Hnd & Hlen & Hsk & Hrk).
  destruct (search_ge_spec ks key Hsk) as (a & b & -> & Hidx & Ha & Hb).
  apply list_elem_of_split_length in Hn as (l1 & l2 & Hl & Hl1).
  exists l1, n, l2, a, b, (take (length a) vs), (drop (length a) vs), (l !! S (length l1)). rewrite length_app in Hlen. rewrite Hl1 in Hnd, Hrk.
  split; try done.
  - by rewrite take_drop.
  - rewrite length_take. lia.
  - rewrite length_drop. lia.
  - by apply found_spec.
  - intros Hk. apply (content_key s l seps ups [] l1 (n :: l2)) in Hk; [simpl in Hk; lia|done|done].
  - intros Hk. apply (content_key s l seps ups (l1 ++ [n]) l2 []) in Hk; [|done|by rewrite <-app_assoc, app_nil_r].
    rewrite length_app in Hk. simpl in Hk. lia.
Qed.

Lemma zip_app' {A B} (a1 a2 : list A) (b1 b2 : list B) : length a1 = length b1 → zip (a1 ++ a2) (b1 ++ b2) = zip a1 b1 ++ zip a2 b2.
Proof. revert b1; induction a1 as [|x a1 IH]; intros [|y b1]; simpl; try done. intros [= H]. by rewrite IH. Qed.

Lemma leaf_content s l seps key l1 n l2 a b va vb nx :
  leaf_of s l seps key l1 n l2 a b va vb nx →
  content (bt_heap s) l = (content (bt_heap s) l1 ++ zip a va) ++ zip b vb ++ content (bt_heap s) l2.
Proof.
  intros [-> _ _ Hn _ Hva _ _ _ _ _ _ _ _]. rewrite content_app, content_cons, (entries_leaf _ _ _ _ _ _ Hn), zip_app' by done.
  by rewrite <-!app_assoc.
Qed.

(** Writing a leaf in place. *)
Lemma put_leaf s l seps ups l1 n l2 ks vs :
  bp_rep s l seps ups → l = l1 ++ n :: l2 → length vs = length ks → sorted_keys ks → (∀ k, k ∈ ks → rank k seps = length l1) →
  let s' := put_node n (mkBP ks [] (Some vs) (l !! S (length l1))) s in
  bp_rep s' l seps ups ∧ content (bt_heap s') l = content (bt_heap s) l1 ++ zip ks vs ++ content (bt_heap s) l2.
Proof.
  intros Hr Hl Hlen Hs Hrk s'. pose proof (bp_nodup _ _ _ _ Hr) as Hnd.
  assert (n ∈ l) as Hin by (rewrite Hl; set_solver). pose proof (rep_good _ _ _ _ _ Hr Hin) as Hg.
  assert ((n ∉ l1) ∧ (n ∉ l2)) as [Hn1 Hn2] by (rewrite Hl, <-Permutation_middle in Hnd; apply NoDup_cons in Hnd; set_solver).
  split; [split|].
  - eapply tower_frame; [|apply Hr]. intros m Hm. apply lookup_insert_ne. intros <-.
    destruct (tower_heights _ _ _ _ _ 0 _ (bp_tower _ _ _ _ Hr) (λ m, rep_good _ _ _ _ m Hr) Hm) as [h Hh].
    pose proof (good_unique _ _ _ _ Hg Hh). lia.
  - done.
  - apply Hr.
  - intros p. cbn [s' put_node bt_heap bt_alloc]. rewrite lookup_insert. case_decide as E; [intros _|apply Hr].
    apply Hr. apply elem_of_dom. rewrite <-E. by eapply good_dom.
  - intros j m Hm. cbn [s' put_node bt_heap]. destruct (decide (m = n)) as [->|Hne].
    + assert (j = length l1) as ->. { eapply NoDup_lookup; [exact Hnd|done|]. rewrite Hl. by apply list_lookup_middle. }
      exists ks, vs. by rewrite lookup_insert_eq.
    + destruct (bp_leaves _ _ _ _ Hr j m Hm) as (ks' & vs' & ? & ?). exists ks', vs'. by rewrite lookup_insert_ne.
  - rewrite Hl at 1. rewrite content_app, content_cons. cbn [s' put_node bt_heap].
    rewrite (entries_leaf _ n ks [] vs (l !! S (length l1))) by apply lookup_insert_eq.
    assert (∀ l', n ∉ l' → content (bt_heap s') l' = content (bt_heap s) l') as Hext.
    { intros l' Hn. apply content_ext. intros m Hm. apply lookup_insert_ne. congruence. }
    cbn [s' put_node bt_heap] in Hext. by rewrite !Hext.
Qed.

(** ** Splitting a leaf *)
Lemma ins_lookup {A} i (x : A) l m :
  i ≤ length l → ins i x l !! m = if decide (m < i) then l !! m else if decide (m = i) then Some x else l !! (m - 1).
Proof.
  intros Hi. unfold ins. destruct (decide (m < i)) as [Hm|Hm].
  - rewrite lookup_app_l by (rewrite length_take; lia). by rewrite lookup_take_lt.
  - rewrite lookup_app_r, length_take, Nat.min_l by (rewrite ?length_take; lia). destruct (decide (m = i)) as [->|].
    + by rewrite Nat.sub_diag.
    + destruct (m - i) as [|d] eqn:E; [lia|]. simpl. rewrite lookup_drop. f_equal. lia.
Qed.

Lemma rank_ins key i pk seps : rank key (ins i pk seps) = rank key seps + (if str_ltb key pk then 0 else 1).
Proof. unfold ins. rewrite <-(take_drop i seps) at 3. rewrite !rank_app, rank_cons. lia. Qed.

Lemma rank_cut key seps :
  sorted_keys seps →
  (∀ x, x ∈ take (rank key seps) seps → str_ltb key x = false) ∧ (∀ x, x ∈ drop (rank key seps) seps → str_lt key x).
Proof.
  intros Hs. destruct (sorted_cut (λ k, str_ltb key k) seps) as (a & b & -> & Ha & Hb); [|done|].
  { intros x y Hxy Hy. apply not_true_iff_false. intros Hx. by rewrite (str_ltb_trans _ _ _ Hx Hxy) in Hy. }
  rewrite rank_app, rank_all, rank_none, Nat.add_0_r by done. rewrite take_app_length, drop_app_length. done.
Qed.

(** A new separator [pk] between two keys of the [j]th leaf. *)
Lemma seps_insert seps k0 pk :
  sorted_keys seps → rank k0 seps = rank pk seps → str_lt k0 pk → sorted_keys (ins (rank pk seps) pk seps).
Proof.
  intros Hs Hr Hlt. destruct (rank_cut k0 seps Hs) as [H1 _]. destruct (rank_cut pk seps Hs) as [_ H2]. rewrite Hr in H1.
  apply sorted_insert; [by rewrite take_drop| |done].
  intros x Hx. apply H1, str_ltb_false in Hx as [<-|Hx]; [done|]. etrans; [exact Hx|done].
Qed.

(** The two halves of a full leaf. *)
Lemma leaf_halves (ks vs : list gostring) :
  length ks = bpOrder → length vs = length ks → sorted_keys ks →
  ∃ lk k0 lk' pk rk rk' lv rv, ks = lk ++ rk ∧ vs = lv ++ rv ∧ lk = k0 :: lk' ∧ rk = pk :: rk' ∧ length lv = length lk ∧
    length rv = length rk ∧ length lk < bpOrder ∧ length rk < bpOrder ∧ lk = take 16 ks ∧ rk = drop 16 ks ∧ lv = take 16 vs ∧ rv = drop 16 vs ∧
    sorted_keys lk ∧ sorted_keys rk ∧ (∀ k, k ∈ lk → str_lt k pk) ∧ (∀ k, k ∈ rk → str_ltb k pk = false).
Proof.
  intros Hk Hv Hs. assert (bpOrder = 32) as Ho by done.
  rewrite <-(take_drop 16 ks) in Hs. pose proof Hs as (Hlt & Hs1 & Hs2)%StronglySorted_app.
  destruct (take 16 ks) as [|k0 lk'] eqn:E1; [apply (f_equal length) in E1; rewrite length_take in E1; change (length []) with 0 in E1; lia|].
  destruct (drop 16 ks) as [|pk rk'] eqn:E2; [apply (f_equal length) in E2; rewrite length_drop in E2; change (length []) with 0 in E2; lia|].
  exists (take 16 ks), k0, lk', pk, (drop 16 ks), rk', (take 16 vs), (drop 16 vs).
  rewrite !take_drop, !length_take, !length_drop. split_and!; try done; try lia; try (by rewrite E1); try by rewrite E2.
  - rewrite E1. intros k Hkin. apply Hlt; [done|by left].
  - rewrite E2. apply StronglySorted_cons in Hs2 as [Hs2 _]. rewrite Forall_forall in Hs2.
    intros k [->|Hkin]%elem_of_cons; [apply str_ltb_irrefl|]. apply str_ltb_asym. by apply Hs2.
Qed.

(** The leaves after the [j]th was cut in two at the key [pk]. *)
Lemma split_leaves heap heap3 l1 n l2 a seps pk ks vs lk rk lv rv :
  let l := l1 ++ n :: l2 in
  (∀ j m, l !! j = Some m → leaf_at heap l seps j m) → NoDup l → a ∉ l →
  heap !! n = Some (mkBP ks [] (Some vs) (l !! S (length l1))) → ks = lk ++ rk →
  heap3 !! n = Some (mkBP lk [] (Some lv) (Some a)) → heap3 !! a = Some (mkBP rk [] (Some rv) (l !! S (length l1))) →
  agree_on heap heap3 (l1 ++ l2) → pk ∈ rk → length lv = length lk → length rv = length rk → sorted_keys lk → sorted_keys rk →
  (∀ k, k ∈ lk → str_lt k pk) → (∀ k, k ∈ rk → str_ltb k pk = false) →
  ∀ j m, ins (S (length l1)) a l !! j = Some m → leaf_at heap3 (ins (S (length l1)) a l) (ins (length l1) pk seps) j m.
Proof.
  intros l Hlv Hnd Ha Hn Hks Hn3 Ha3 Hag Hpk Hv1 Hv2 Hs1 Hs2 Hlt Hge j m Hm.
  assert (l !! length l1 = Some n) as Hln by by apply list_lookup_middle.
  assert (length l = length l1 + S (length l2)) as Hll by (unfold l; rewrite length_app; done).
  destruct (Hlv _ _ Hln) as (ks' & vs' & Hn' & _ & _ & Hrk). assert (ks' = ks) as -> by congruence. subst ks.
  assert (rank pk seps = length l1) as Hrpk by (apply Hrk; set_solver).
  rewrite ins_lookup in Hm by lia. unfold leaf_at. rewrite ins_lookup by lia.
  destruct (decide (j < S (length l1))) as [Hj|Hj]; [|destruct (decide (j = S (length l1))) as [->|Hj']].
  - destruct (decide (j = length l1)) as [->|Hne].
    + assert (m = n) as -> by congruence. exists lk, lv. rewrite decide_False, decide_True by lia. split_and!; [done..|].
      intros k Hk. rewrite rank_ins, (Hlt k Hk), Hrk; [lia|set_solver].
    + destruct (Hlv j m Hm) as (kj & vj & Hmj & Hlj & Hsj & Hrj). exists kj, vj. rewrite decide_True by lia. split_and!; [|done|done|].
      * rewrite Hag; [done|]. apply elem_of_app. left. unfold l in Hm. rewrite lookup_app_l in Hm by lia. by eapply list_elem_of_lookup_2.
      * intros k Hk. rewrite rank_ins, (Hrj k Hk). unfold str_lt in *. rewrite (rank_lt k pk seps); [lia|]. rewrite (Hrj k Hk). lia.
  - injection Hm as <-. exists rk, rv. rewrite decide_False, decide_False by lia. split_and!; [by rewrite Nat.sub_1_r|done|done|].
    intros k Hk. rewrite rank_ins, (Hge k Hk), Hrk; [lia|set_solver].
  - destruct (Hlv (j - 1) m Hm) as (kj & vj & Hmj & Hlj & Hsj & Hrj). exists kj, vj. rewrite decide_False, decide_False by lia.
    split_and!; [|done|done|].
    + replace (S j - 1) with (S (j - 1)) by lia. rewrite Hag; [done|]. apply elem_of_app. right. unfold l in Hm.
      rewrite lookup_app_r in Hm by lia. destruct (j - 1 - length l1) as [|d] eqn:E; [lia|]. by eapply list_elem_of_lookup_2.
    + intros k Hk. rewrite rank_ins, (Hrj k Hk). rewrite str_ltb_asym; [lia|]. apply (rank_lt pk k seps). rewrite (Hrj k Hk). lia.
Qed.

(** Changing leaves and adding fresh nodes keeps the levels above. *)
Lemma tower_leaf_frame s l seps ups heap' :
  bp_rep s l seps ups → (∀ m, m ∉ l → is_Some (bt_heap s !! m) → heap' !! m = bt_heap s !! m) →
  tower heap' (bt_root s) l seps ups.
Proof.
  intros Hr Hf. pose proof (bp_tower _ _ _ _ Hr) as Ht. eapply tower_frame; [|done]. intros m Hm.
  destruct (tower_heights _ _ _ _ _ 0 _ Ht (λ m, rep_good _ _ _ _ m Hr) Hm) as [h Hh]. apply Hf.
  - intros Hin. pose proof (good_unique _ _ _ _ Hh (rep_good _ _ _ _ _ Hr Hin)). lia.
  - apply elem_of_dom. by eapply good_dom.
Qed.

(** The representation once the levels above know the new leaf [a]. *)
Lemma split_rep s s3 l seps ups ups3 l1 n l2 a ks vs lk k0 rk pk lv rv :
  bp_rep s l seps ups → l = l1 ++ n :: l2 → bt_heap s !! n = Some (mkBP ks [] (Some vs) (l !! S (length l1))) → a ∉ l →
  ks = lk ++ rk → vs = lv ++ rv → k0 ∈ lk → pk ∈ rk → length lv = length lk → length rv = length rk →
  length lk < bpOrder → length rk < bpOrder → sorted_keys lk → sorted_keys rk →
  (∀ k, k ∈ lk → str_lt k pk) → (∀ k, k ∈ rk → str_ltb k pk = false) → small (bt_heap s) (l1 ++ l2) →
  tower (bt_heap s3) (bt_root s3) (ins (S (length l1)) a l) (ins (length l1) pk seps) ups3 → alloc_ok s3 →
  bt_heap s3 !! n = Some (mkBP lk [] (Some lv) (Some a)) → bt_heap s3 !! a = Some (mkBP rk [] (Some rv) (l !! S (length l1))) →
  agree_on (bt_heap s) (bt_heap s3) (l1 ++ l2) →
  bp_rep s3 (ins (S (length l1)) a l) (ins (length l1) pk seps) ups3 ∧ small (bt_heap s3) (ins (S (length l1)) a l) ∧
  content (bt_heap s3) (ins (S (length l1)) a l) = content (bt_heap s) l.
Proof.
  intros Hr Hl Hn Ha Eks Evs Hk0 Hpk Hlv Hrv Hbl Hbr Hsl Hsr Hlt Hge Hsm Ht3 Hal3 Hn3 Ha3 Hag.
  pose proof (bp_nodup _ _ _ _ Hr) as Hnd. pose proof (bp_leaves _ _ _ _ Hr) as Hleaf.
  destruct (Hleaf (length l1) n) as (ks' & vs' & Hn' & _ & _ & Hrk); [rewrite Hl; by apply list_lookup_middle|].
  assert (ks' = ks) as -> by congruence.
  assert (rank k0 seps = length l1 ∧ rank pk seps = length l1) as [Hr0 Hrp] by (split; apply Hrk; set_solver).
  assert (ins (S (length l1)) a l = l1 ++ n :: a :: l2) as El by (rewrite Hl; apply ins_after).
  split_and!; [split| |].
  - done.
  - rewrite ins_perm. by constructor.
  - rewrite <-Hrp. apply (seps_insert seps k0); [apply Hr|congruence|by apply Hlt].
  - done.
  - rewrite Hl in *. by apply (split_leaves (bt_heap s) (bt_heap s3) l1 n l2 a seps pk ks vs lk rk lv rv).
  - intros m nd Hm Hnd'. rewrite El in Hm. destruct (decide (m = n)) as [->|]; [by assert (nd = mkBP lk [] (Some lv) (Some a)) as -> by congruence|].
    destruct (decide (m = a)) as [->|]; [by assert (nd = mkBP rk [] (Some rv) (l !! S (length l1))) as -> by congruence|].
    apply (Hsm m); [set_solver|]. rewrite <-Hag by set_solver. done.
  - rewrite El, Hl, !content_app, !content_cons. rewrite (entries_leaf _ _ _ _ _ _ Hn3), (entries_leaf _ _ _ _ _ _ Ha3), (entries_leaf _ _ _ _ _ _ Hn).
    rewrite Eks, Evs, zip_app', <-app_assoc by done. 
    rewrite !(content_ext (bt_heap s) (bt_heap s3)); [done| |]; intros m Hm; apply Hag; set_solver.
Qed.

Lemma split_spec s l seps ups l1 n l2 ks vs :
  bp_rep s l seps ups → l = l1 ++ n :: l2 → bt_heap s !! n = Some (mkBP ks [] (Some vs) (l !! S (length l1))) →
  length ks = bpOrder → length vs = length ks → sorted_keys ks → small (bt_heap s) (l1 ++ l2) →
  ∃ s' l' seps' ups', split n s = Ret s' ∧ bp_rep s' l' seps' ups' ∧ small (bt_heap s') l' ∧ bt_hashes s' = bt_hashes s ∧
    content (bt_heap s') l' = content (bt_heap s) l.
Proof.
  intros Hr Hl Hn Hk Hv Hs Hsm.
  destruct (leaf_halves ks vs Hk Hv Hs) as (lk & k0 & lk' & pk & rk & rk' & lv & rv & Eks & Evs & Elk & Erk & Hlv & Hrv & Hbl & Hbr &
    T1 & T2 & T3 & T4 & Hsl & Hsr & Hlt & Hge).
  pose proof (bp_nodup _ _ _ _ Hr) as Hnd. pose proof (alloc_fresh s (bp_alloc _ _ _ _ Hr)) as Hfr. set (a := bt_alloc s) in *.
  assert (n ∈ l) as Hin by (rewrite Hl; set_solver).
  assert (∀ m, m ∈ l → m ≠ a) as Hna.
  { intros m Hm ->. apply (rep_good _ _ _ _ _ Hr), good_dom, elem_of_dom in Hm as [? ?]. congruence. }
  assert (n ∉ l1 ++ l2) as Hn12 by (rewrite Hl, <-Permutation_middle in Hnd; by apply NoDup_cons in Hnd as [? _]).
  unfold split, at_heap. rewrite Hn. cbn [mbind go_bind bp_keys bp_values bp_next bp_children]. change (default [] (Some vs)) with vs.
  change (bpOrder / 2) with 16. assert (bpOrder = 32) as Ho by done. unfold slice_from, slice_to. rewrite !decide_True by lia.
  cbn [mbind go_bind]. rewrite <-T1, <-T2, <-T3, <-T4. assert (rk !! 0 = Some pk) as H0 by (by rewrite Erk). unfold index. rewrite H0. cbn [mbind go_bind]. fold a.
  set (heap2 := <[n := _]> (<[a := _]> (bt_heap s))).
  assert (heap2 !! n = Some (mkBP lk [] (Some lv) (Some a))) as H2n by apply lookup_insert_eq.
  assert (heap2 !! a = Some (mkBP rk [] (Some rv) (l !! S (length l1)))) as H2a.
  { unfold heap2. rewrite lookup_insert_ne by (apply Hna; done). apply lookup_insert_eq. }
  assert (∀ m, m ≠ n → m ≠ a → heap2 !! m = bt_heap s !! m) as H2o by (intros; unfold heap2; by rewrite !lookup_insert_ne).
  assert (∀ m, m ∈ l → good heap2 0 m) as Hg2.
  { intros m Hm. destruct (decide (m = n)) as [->|]; [by eexists _, lv|]. destruct (rep_good _ _ _ _ _ Hr Hm) as (nd & w & ? & ?).
    exists nd, w. by rewrite H2o by auto. }
  destruct (insertIntoParent_spec ups (mkBPTree (bt_root s) (bt_hashes s) heap2 (a + 1)) l seps (length l1) n a pk 0)
    as (s3 & ups3 & E3 & Hhs & Hal3 & Ht3 & Hfr3); cbn [bt_heap bt_root bt_alloc bt_hashes] in *.
  - apply (tower_leaf_frame _ _ _ _ _ Hr). intros m Hm [? Hm']. apply H2o; congruence.
  - done.
  - done.
  - by eexists _, rv.
  - rewrite Hl. by apply list_lookup_middle.
  - intros q. cbn [bt_heap bt_alloc]. unfold heap2. rewrite !lookup_insert. repeat case_decide; [|lia|];
      intros Hq; [assert (n < a) by (apply Hr; by eexists); lia|apply Hr in Hq; fold a in Hq; lia].
  - exists s3, (ins (S (length l1)) a l), (ins (length l1) pk seps), ups3. split; [done|].
    destruct (split_rep s s3 l seps ups ups3 l1 n l2 a ks vs lk k0 rk pk lv rv) as (Hr3 & Hsm3 & Hc3); try done.
    + intros Ha. by apply (Hna a).
    + rewrite Elk. by left.
    + rewrite Erk. by left.
    + rewrite (Hfr3 n 0); auto.
    + rewrite (Hfr3 a 0); [done|done|by eexists _, rv].
    + intros m Hm. assert (m ∈ l) by (rewrite Hl; set_solver). rewrite (Hfr3 m 0) by auto. apply H2o; [congruence|auto].
Qed.

(** ** The operations *)
Definition bp_inv (s : BPTreeStore) : Prop := ∃ l seps ups, bp_rep s l seps ups ∧ small (bt_heap s) l.

Lemma small_put heap l n nd : small heap l → length (bp_keys nd) < bpOrder → small (<[n := nd]> heap) l.
Proof. intros Hs Hn m md Hm. rewrite lookup_insert. case_decide; [by intros [= <-]|by apply Hs]. Qed.

Lemma zip_keys {A B} (a : list A) (b : list B) : length b = length a → (zip a b).*1 = a.
Proof. intros H. apply fst_zip. lia. Qed.

Lemma removeAt_mid {A} (a b : list A) x i : i = length a → removeAt (a ++ x :: b) i = Ret (a ++ b).
Proof.
  intros ->. unfold removeAt. rewrite decide_True by (rewrite length_app; simpl; lia).
  by rewrite take_app_length, drop_app_add.
Qed.

Section methods.
Context (s : BPTreeStore) (l : list nat) (seps : list gostring) (ups : list (list nat)) (key : gostring).
Context (Hr : bp_rep s l seps ups) (Hsm : small (bt_heap s) l).
Context (l1 : list nat) (n : nat) (l2 : list nat) (a b va vb : list gostring) (nx : option nat).
Context (Hlo : leaf_of s l seps key l1 n l2 a b va vb nx).

(** Where the key is, or would be, in the content. *)
Lemma key_before : key ∉ (content (bt_heap s) l1 ++ zip a va).*1.
Proof using All.
  rewrite fmap_app, zip_keys by apply Hlo. apply not_elem_of_app. split; [apply Hlo|].
  intros Hk%(lo_lt Hlo). by apply irreflexivity in Hk; [|apply _].
Qed.

Lemma leaf_size : length a + length b < bpOrder.
Proof using All.
  assert (n ∈ l) as Hin by (rewrite (lo_split Hlo); set_solver). pose proof (Hsm n _ Hin (lo_node Hlo)) as H. simpl in H.
  by rewrite length_app in H.
Qed.

Lemma key_absent :
  (∀ k, k ∈ b → str_lt key k) →
  (list_to_map ((content (bt_heap s) l1 ++ zip a va) ++ zip b vb ++ content (bt_heap s) l2) : gmap gostring gostring) !! key = None.
Proof using All.
  intros Hgt. pose proof key_before as Hkb. apply not_elem_of_list_to_map. rewrite fmap_app. apply not_elem_of_app. split; [done|].
  rewrite fmap_app, zip_keys by apply Hlo. apply not_elem_of_app. split; [|apply Hlo].
  intros Hk%Hgt. by apply irreflexivity in Hk; [|apply _].
Qed.

Lemma bp_Get_spec : BPTreeStore_Get key s = Ret (kv_get key (BPTreeStore_abs s)).
Proof using All.
  unfold BPTreeStore_Get. rewrite (lo_search Hlo). cbn [mbind go_bind].
  unfold at_heap. rewrite (lo_node Hlo). cbn [mbind go_bind bp_keys bp_values].
  rewrite (lo_idx Hlo). cbn [mbind go_bind]. change (default [] (Some (va ++ vb))) with (va ++ vb).
  rewrite (bp_rep_abs _ _ _ _ Hr), (leaf_content _ _ _ _ _ _ _ _ _ _ _ _ Hlo). unfold kv_get. cbn [kv_strings].
  pose proof key_before as Hkb. pose proof (lo_va Hlo) as Hva. pose proof (lo_vb Hlo) as Hvb. destruct (lo_found Hlo) as [(b' & Eb & ->)|[-> Hgt]].
  - assert (∃ v vb', vb = v :: vb') as (v & vb' & Evb) by (rewrite Eb in Hvb; destruct vb; by eauto). rewrite Evb.
    unfold index. rewrite lookup_app_r, Hva, Nat.sub_diag by lia. cbn [lookup list_lookup mbind go_bind].
    f_equal. symmetry. rewrite Eb. by apply assoc_lookup.
  - f_equal. symmetry. by apply key_absent.
Qed.

(** The leaf with other keys and values, the levels as they are. *)
Lemma rewrite_leaf a' b' va' vb' :
  length va' = length a' → length vb' = length b' → sorted_keys (a' ++ b') → (∀ k, k ∈ a' ++ b' → rank k seps = length l1) →
  let s' := put_node n (mkBP (a' ++ b') [] (Some (va' ++ vb')) nx) s in
  bp_rep s' l seps ups ∧
  content (bt_heap s') l = (content (bt_heap s) l1 ++ zip a' va') ++ zip b' vb' ++ content (bt_heap s) l2.
Proof using All.
  intros Ha Hb Hs Hk s'. unfold s'. rewrite (lo_next Hlo).
  destruct (put_leaf s l seps ups l1 n l2 (a' ++ b') (va' ++ vb') Hr (lo_split Hlo)) as [H1 H2]; [rewrite !length_app; lia|done|done|].
  split; [done|]. rewrite H2, zip_app' by done. by rewrite <-!app_assoc.
Qed.

(** [Set] of a new key: the leaf with the key, split when it is full. *)
Lemma insert_leaf value :
  let s1 := put_node n (mkBP (a ++ key :: b) [] (Some (va ++ value :: vb)) nx) s in
  (∀ k, k ∈ b → str_lt key k) → bp_rep s1 l seps ups →
  content (bt_heap s1) l = (content (bt_heap s) l1 ++ zip a va) ++ (key, value) :: zip b vb ++ content (bt_heap s) l2 →
  ∃ s', (if decide (length (a ++ key :: b) < bpOrder) then Ret s1 else split n s1) = Ret s' ∧ bp_inv s' ∧
    BPTreeStore_abs s' = mkKV (<[key := value]> (list_to_map
      ((content (bt_heap s) l1 ++ zip a va) ++ zip b vb ++ content (bt_heap s) l2))) (bt_hashes s).
Proof using All.
  intros s1 Hgt Hr' Hc. pose proof key_before as Hkb. pose proof leaf_size as Hsz. pose proof (lo_va Hlo) as Hva. pose proof (lo_vb Hlo) as Hvb.
  assert (list_to_map (content (bt_heap s1) l) =@{gmap gostring gostring} <[key:=value]> (list_to_map
    ((content (bt_heap s) l1 ++ zip a va) ++ zip b vb ++ content (bt_heap s) l2))) as Habs by (rewrite Hc; by apply assoc_insert).
  assert (length (a ++ key :: b) = S (length a + length b)) as Hlen by (rewrite length_app; simpl; lia).
  destruct (decide (length (a ++ key :: b) < bpOrder)) as [Hroom|Hfull].
  - exists s1. split; [done|]. split; [exists l, seps, ups; split; [done|]; by apply small_put|].
    rewrite (bp_rep_abs _ _ _ _ Hr'), Habs. done.
  - destruct (split_spec s1 l seps ups l1 n l2 (a ++ key :: b) (va ++ value :: vb) Hr' (lo_split Hlo))
      as (s' & l' & seps' & ups' & E & Hr2 & Hsm2 & Hh & Hc2).
    + rewrite <-(lo_next Hlo). apply lookup_insert_eq.
    + lia.
    + rewrite !length_app. simpl. lia.
    + apply sorted_insert; [apply Hlo|apply Hlo|done].
    + intros m md Hm. pose proof (bp_nodup _ _ _ _ Hr) as Hnd. rewrite (lo_split Hlo), <-Permutation_middle in Hnd.
      apply NoDup_cons in Hnd as [Hnd _]. unfold s1. cbn [put_node bt_heap]. rewrite lookup_insert_ne by congruence.
      apply Hsm. rewrite (lo_split Hlo). set_solver.
    + exists s'. split; [done|]. split; [by exists l', seps', ups'|]. rewrite (bp_rep_abs _ _ _ _ Hr2), Hh, Hc2, Habs. done.
Qed.

Lemma bp_Set_spec value :
  ∃ s', BPTreeStore_Set key value s = Ret s' ∧ bp_inv s' ∧ BPTreeStore_abs s' = kv_set key value (BPTreeStore_abs s).
Proof using All.
  unfold BPTreeStore_Set. rewrite (lo_search Hlo). cbn [mbind go_bind]. unfold at_heap. rewrite (lo_node Hlo).
  cbn [mbind go_bind bp_keys bp_values bp_children bp_next]. rewrite (lo_idx Hlo). cbn [mbind go_bind].
  change (default [] (Some (va ++ vb))) with (va ++ vb).
  rewrite (bp_rep_abs _ _ _ _ Hr), (leaf_content _ _ _ _ _ _ _ _ _ _ _ _ Hlo). unfold kv_set. cbn [kv_strings kv_hashes].
  pose proof key_before as Hkb. pose proof leaf_size as Hsz. pose proof (lo_va Hlo) as Hva. pose proof (lo_vb Hlo) as Hvb.
  destruct (lo_found Hlo) as [(b' & Eb & ->)|[-> Hgt]].
  - assert (∃ v vb', vb = v :: vb') as (v & vb' & Evb) by (rewrite Eb in Hvb; destruct vb; by eauto).
    unfold assignAt. rewrite decide_True by (rewrite length_app, Evb; simpl; lia).
    cbn [mbind go_bind]. rewrite insert_app_r_alt, Hva, Nat.sub_diag, Evb by lia. cbn [insert list_insert].
    destruct (rewrite_leaf a b va (value :: vb')) as [Hr' Hc]; [done|rewrite Evb in Hvb; done|apply Hlo|apply Hlo|].
    eexists. split; [done|]. split; [exists l, seps, ups; split; [done|]; apply small_put; [done|simpl; rewrite length_app; lia]|].
    rewrite (bp_rep_abs _ _ _ _ Hr'), Hc. rewrite Eb. cbn [zip zip_with app]. f_equal. by apply assoc_update.
  - rewrite !insertAt_ins by (rewrite length_app; lia). cbn [mbind go_bind]. 
    assert (ins (length a) value (va ++ vb) = va ++ value :: vb) as -> by (rewrite <-Hva; apply ins_at). rewrite !ins_at.
    destruct (rewrite_leaf a (key :: b) va (value :: vb)) as [Hr' Hc]; [done|simpl; lia| | |].
    { apply sorted_insert; [apply Hlo|apply Hlo|done]. }
    { intros k. rewrite elem_of_app, elem_of_cons. intros [?|[->|?]]; [apply (lo_ranks Hlo); set_solver|symmetry; apply Hlo|apply (lo_ranks Hlo); set_solver]. }
    apply (insert_leaf value); done.
Qed.

Lemma bp_Del_spec :
  ∃ s', BPTreeStore_Del key s = Ret s' ∧ bp_inv s' ∧ BPTreeStore_abs s' = kv_del key (BPTreeStore_abs s).
Proof using All.
  unfold BPTreeStore_Del. rewrite (lo_search Hlo). cbn [mbind go_bind]. unfold at_heap. rewrite (lo_node Hlo).
  cbn [mbind go_bind bp_keys bp_values bp_children bp_next]. rewrite (lo_idx Hlo). cbn [mbind go_bind].
  change (default [] (Some (va ++ vb))) with (va ++ vb).
  rewrite (bp_rep_abs _ _ _ _ Hr), (leaf_content _ _ _ _ _ _ _ _ _ _ _ _ Hlo). unfold kv_del. cbn [kv_strings kv_hashes].
  pose proof key_before as Hkb. pose proof leaf_size as Hsz. pose proof (lo_va Hlo) as Hva. pose proof (lo_vb Hlo) as Hvb.
  assert (∀ s1, bp_rep s1 l seps ups → small (bt_heap s1) l → bt_hashes s1 = bt_hashes s →
    ∃ s', Ret (mkBPTree (bt_root s1) (delete key (bt_hashes s1)) (bt_heap s1) (bt_alloc s1)) = Ret s' ∧ bp_inv s' ∧
      BPTreeStore_abs s' = mkKV (list_to_map (content (bt_heap s1) l)) (delete key (bt_hashes s))) as Hfin.
  { intros s1 H1 H2 <-. eexists. split; [done|].
    assert (bp_rep (mkBPTree (bt_root s1) (delete key (bt_hashes s1)) (bt_heap s1) (bt_alloc s1)) l seps ups) as H3 by by destruct H1.
    split; [by exists l, seps, ups|]. by rewrite (bp_rep_abs _ _ _ _ H3). }
  destruct (lo_found Hlo) as [(b' & Eb & ->)|[-> Hgt]].
  - assert (∃ v vb', vb = v :: vb') as (v & vb' & Evb) by (rewrite Eb in Hvb; destruct vb; by eauto).
    assert (length vb' = length b') as Hvb' by (rewrite Eb, Evb in Hvb; by injection Hvb).
    rewrite Eb, Evb. rewrite !removeAt_mid by done. cbn [mbind go_bind].
    pose proof (lo_sorted Hlo) as Hs. rewrite Eb in Hs.
    destruct (rewrite_leaf a b' va vb') as [Hr' Hc]; [done|done|by eapply sorted_remove|intros k Hk; apply (lo_ranks Hlo); rewrite Eb; set_solver|].
    destruct (Hfin _ Hr') as (s' & E & Hi & Ha); [apply small_put; [done|]; simpl; rewrite length_app; rewrite Eb in Hsz; simpl in Hsz; lia|done|].
    exists s'. split_and!; [done|done|]. rewrite Ha, Hc. f_equal. apply (assoc_delete _ _ v); [done|].
    change (key ∉ (zip b' vb' ++ content (bt_heap s) l2).*1). rewrite fmap_app, zip_keys by done. apply not_elem_of_app. split; [by apply sorted_mid in Hs as [_ ?]|apply Hlo].
  - cbn [mbind go_bind]. destruct (Hfin s Hr Hsm eq_refl) as (s' & E & Hi & Ha). exists s'. split_and!; [done|done|].
    rewrite Ha, (leaf_content _ _ _ _ _ _ _ _ _ _ _ _ Hlo). f_equal. symmetry. apply delete_id. by apply key_absent.
Qed.
End methods.

#[global] Program Instance BPTreeStore_laws : StoreLaws BPTreeStore := {
  st_inv := bp_inv;
  st_abs := BPTreeStore_abs
}.
Next Obligation.
  intros k v s (l & seps & ups & Hr & Hsm). destruct (bp_locate s l seps ups k Hr) as (l1 & n & l2 & a & b & va & vb & nx & Hlo).
  by eapply bp_Set_spec.
Qed.
Next Obligation.
  intros k s (l & seps & ups & Hr & Hsm). destruct (bp_locate s l seps ups k Hr) as (l1 & n & l2 & a & b & va & vb & nx & Hlo).
  by eapply bp_Del_spec.
Qed.
Next Obligation.
  intros h k v s (l & seps & ups & Hr & Hsm). eexists. split; [done|].
  split; [exists l, seps, ups; split; [by destruct Hr|done]|]. unfold BPTreeStore_abs, kv_hset. simpl. by rewrite hash_put_spec.
Qed.
Next Obligation.
  intros k s (l & seps & ups & Hr & Hsm). destruct (bp_locate s l seps ups k Hr) as (l1 & n & l2 & a & b & va & vb & nx & Hlo).
  by eapply bp_Get_spec.
Qed.
Next Obligation. done. Qed.
Next Obligation. done. Qed.

Lemma NewBPTreeStore_rep : bp_rep NewBPTreeStore [0] [] [].
Proof.
  split; simpl; [done|apply NoDup_singleton|constructor| |].
  - intros p [nd Hp]. simpl in *. apply lookup_singleton_Some in Hp as [<- _]. lia.
  - intros j n [-> <-]%list_lookup_singleton_Some. exists [], []. split_and!; [by rewrite lookup_singleton_eq|done|constructor|set_solver].
Qed.

Lemma NewBPTreeStore_small : small (bt_heap NewBPTreeStore) [0].
Proof.
  intros n nd ->%list_elem_of_singleton. simpl. rewrite lookup_singleton_eq. intros [= <-]. unfold bpOrder. simpl. lia.
Qed.

(** ** Ordered scans *)
Lemma content_sorted s l seps ups l1 l2 :
  bp_rep s l seps ups → l = l1 ++ l2 → sorted_keys (content (bt_heap s) l2).*1.
Proof.
  intros Hr. revert l1; induction l2 as [|n l2 IH]; intros l1 Hl; [constructor|].
  destruct (bp_leaves _ _ _ _ Hr (length l1) n) as (ks & vs & Hn & Hlen & Hs & Hrk); [rewrite Hl; by apply list_lookup_middle|].
  rewrite content_cons, fmap_app, (entries_leaf _ _ _ _ _ _ Hn), zip_keys by done. apply StronglySorted_app_2; [|done|].
  - intros k k' Hk Hk'. apply (content_key s l seps ups (l1 ++ [n]) l2 []) in Hk'; [|done|by rewrite <-app_assoc, app_nil_r].
    apply (rank_lt k k' seps). rewrite (Hrk k Hk). rewrite length_app in Hk'. simpl in Hk'. lia.
  - apply (IH (l1 ++ [n])). by rewrite <-app_assoc.
Qed.

Lemma leaves_size s l seps ups : bp_rep s l seps ups → length l ≤ size (bt_heap s).
Proof.
  intros Hr. rewrite <-size_dom, <-(size_list_to_set (C:=gset nat) l) by apply Hr. apply subseteq_size.
  intros n Hn%elem_of_list_to_set. eapply good_dom, rep_good; [exact Hr|done].
Qed.

Section scan.
Context (emit stop : gostring → bool).
(** Past a key that stops the scan nothing is emitted. *)
Context (Hstop : ∀ k k', stop k = true → str_lt k k' → emit k' = false).

Lemma scan_leaf_spec ks rest :
  sorted_keys (ks ++ rest) →
  ∃ b, scan_leaf emit stop ks = (filter (λ k, emit k) ks, b) ∧ (b = true → ∀ k, k ∈ rest → emit k = false).
Proof.
  induction ks as [|k ks IH]; [by exists false|]. rewrite <-app_comm_cons, StronglySorted_cons. intros [Hk Hs].
  destruct (IH Hs) as (b & E & Hb). rewrite Forall_forall in Hk. cbn [scan_leaf]. rewrite E, filter_cons.
  destruct (emit k) eqn:Ek; [by exists b|]. destruct (stop k) eqn:Es; [|by exists b].
  assert (∀ k', k' ∈ ks ++ rest → emit k' = false) as Hno by (intros k' Hk'; by apply (Hstop k), Hk).
  exists true. split; [|intros _ k' Hk'; apply Hno; set_solver]. simpl. f_equal. symmetry. apply filter_none.
  intros k' Hk'. rewrite Hno by set_solver. by intros [].
Qed.

Lemma scan_leaves_spec s l seps ups l1 l2 fuel :
  bp_rep s l seps ups → l = l1 ++ l2 → length l2 < fuel →
  scan_leaves fuel (bt_heap s) emit stop (head l2) = Ret (filter (λ k, emit k) (content (bt_heap s) l2).*1).
Proof.
  intros Hr. revert l1 fuel; induction l2 as [|n l2 IH]; intros l1 [|f] Hl Hf; try (simpl in Hf; lia); [done|].
  pose proof (content_sorted _ _ _ _ l1 (n :: l2) Hr Hl) as Hs.
  destruct (bp_leaves _ _ _ _ Hr (length l1) n) as (ks & vs & Hn & Hlen & _ & _); [rewrite Hl; by apply list_lookup_middle|].
  rewrite content_cons, fmap_app, (entries_leaf _ _ _ _ _ _ Hn), zip_keys in * by done.
  cbn [scan_leaves head]. unfold at_heap. rewrite Hn. cbn [mbind go_bind bp_keys bp_next].
  destruct (scan_leaf_spec ks (content (bt_heap s) l2).*1 Hs) as (b & -> & Hb). rewrite filter_app. destruct b.
  - rewrite (filter_none _ (content (bt_heap s) l2).*1), app_nil_r; [done|].
    intros k Hk. rewrite (Hb eq_refl k Hk). by intros [].
  - assert (l !! S (length l1) = head l2) as ->.
    { rewrite Hl, lookup_app_r by lia. replace (S (length l1) - length l1) with 1 by lia. by destruct l2. }
    rewrite (IH (l1 ++ [n])); [done|by rewrite <-app_assoc|simpl in Hf; lia].
Qed.

(** A scan from the leaf of [start]. *)
Lemma bp_scan s start :
  bp_inv s → (∀ k, emit k = true → str_ltb k start = false) →
  ∃ ks, (leaf ← searchLeaf start s; scan_leaves (S (size (bt_heap s))) (bt_heap s) emit stop (Some leaf)) = Ret ks ∧
    keys_where (BPTreeStore_abs s) emit ks.
Proof.
  intros (l & seps & ups & Hr & _) Hlow. destruct (bp_locate s l seps ups start Hr) as (l1 & n & l2 & a & b & va & vb & nx & Hlo).
  rewrite (lo_search Hlo). cbn [mbind go_bind]. eexists.
  pose proof (scan_leaves_spec s l seps ups l1 (n :: l2) (S (size (bt_heap s))) Hr (lo_split Hlo)) as Hsc. cbn [head] in Hsc.
  rewrite Hsc by (pose proof (leaves_size _ _ _ _ Hr) as Hsz; rewrite (lo_split Hlo), length_app in Hsz; lia).
  split; [done|]. split; [apply (sorted_filter emit); by eapply content_sorted, Hlo|].
  intros k. rewrite list_elem_of_filter, (bp_rep_abs _ _ _ _ Hr). unfold kv_get. cbn [kv_strings]. rewrite assoc_is_Some.
  rewrite (lo_split Hlo), content_app, fmap_app, elem_of_app. split; [intros [? ?]; split; [by right|by destruct (emit k)]|].
  intros [[Hk|Hk] He]; [|by rewrite He]. exfalso. apply Hlow in He.
  apply (content_key s l seps ups [] l1 (n :: l2)) in Hk; [|done|apply Hlo]. simpl in Hk. rewrite (lo_rank Hlo) in Hk.
  pose proof (rank_lt k start seps ltac:(lia)) as Hlt. unfold str_lt in Hlt. congruence.
Qed.
End scan.

#[global] Instance BPTreeStore_ordered : OrderedOps BPTreeStore := {
  st_PrefixKeys := BPTreeStore_PrefixKeys;
  st_RangeKeys := BPTreeStore_RangeKeys
}.

#[global] Program Instance BPTreeStore_ordered_laws : OrderedLaws BPTreeStore.
Next Obligation.
  intros prefix s Hi. apply (bp_scan (λ k, HasPrefix k prefix)); [|done|intros k; apply HasPrefix_not_lt].
  intros k k' [Hgt Hnp]%andb_prop Hlt. apply not_true_iff_false. intros Hp. rewrite negb_true_iff in Hnp.
  rewrite (HasPrefix_convex prefix k k' (str_ltb_asym _ _ Hgt) Hlt Hp) in Hnp. done.
Qed.
Next Obligation.
  intros start end_ s Hi. apply (bp_scan (in_range start end_)); [|done|].
  - intros k k' Hk Hlt. unfold in_range. rewrite (str_ltb_trans _ _ _ Hk Hlt). apply andb_false_r.
  - intros k [H _]%andb_prop. by rewrite <-negb_true_iff.
Qed.

Lemma NewBPTreeStore_inv : bp_inv NewBPTreeStore.
Proof. exists [0], [], []. split; [apply NewBPTreeStore_rep|apply NewBPTreeStore_small]. Qed.

Lemma NewBPTreeStore_abs : BPTreeStore_abs NewBPTreeStore = kv_empty.
Proof. by rewrite (bp_rep_abs _ _ _ _ NewBPTreeStore_rep). Qed.

(** ** Theorems *)

(** C31: Every sequence of calls on a new BPTreeStore returns (the search for
    a parent always finds it, no loop runs on and no index is out of range)
    and answers what one pair of maps would answer; the heap stays a B+ tree:
    all leaves at one depth, in a chain, with fewer than 32 keys per node and
    every key in the leaf its separators say. *)
Theorem bptree_refines (os : list store_op) :
  ∃ s' l seps ups, store_run os NewBPTreeStore = Ret (s', (kv_run os kv_empty).2) ∧
    bp_rep s' l seps ups ∧ small (bt_heap s') l ∧ BPTreeStore_abs s' = (kv_run os kv_empty).1.
Proof.
  destruct (store_refines os NewBPTreeStore) as (s' & E & (l & seps & ups & Hr & Hsm) & Ha); [exact NewBPTreeStore_inv|].
  simpl in E, Ha. rewrite NewBPTreeStore_abs in E, Ha. by exists s', l, seps, ups.
Qed.

(** C32: After any calls, PrefixKeys returns the keys present that start with
    the prefix and RangeKeys those between the bounds, both included, each
    key once and in increasing order, although the scans start in the middle
    of the chain of leaves and stop at the first key past the answer. *)
Theorem bptree_ordered (os : list store_op) (prefix start end_ : gostring) :
  ∃ s ps rs, store_run os NewBPTreeStore = Ret (s, (kv_run os kv_empty).2) ∧ bp_inv s ∧
    BPTreeStore_PrefixKeys prefix s = Ret ps ∧ keys_where (kv_run os kv_empty).1 (λ k, HasPrefix k prefix) ps ∧
    BPTreeStore_RangeKeys start end_ s = Ret rs ∧ keys_where (kv_run os kv_empty).1 (in_range start end_) rs.
Proof.
  destruct (store_refines os NewBPTreeStore) as (s & E & Hi & Ha); [exact NewBPTreeStore_inv|]. simpl in E, Ha.
  rewrite NewBPTreeStore_abs in E, Ha. destruct (law_PrefixKeys prefix s Hi) as (ps & Ep & Hp).
  destruct (law_RangeKeys start end_ s Hi) as (rs & Er & Hr). simpl in *. rewrite Ha in Hp, Hr. by exists s, ps, rs.
Qed.
