(* ===== verification/ARTStore.v ===== *)
(** * ARTStore: src/store/art.go

    The adaptive radix tree.  Every node has one parent and is changed in
    place, so a tree value stands for the nodes; a method returns the changed
    tree.  The slices of a node of type 4 and 16 are made with that capacity,
    and the node grows as soon as they are full: [cap(n.keys)] is the type.
    Descents are bounded by the height of the tree. *)

From stdpp Require Import base list gmap strings sorting.
From Stdlib Require Import ZArith Lia Ascii.
From S2P Require Import Prelude GoLib StoreSpec KeyOrder.

(** [artLeaf] is a key and its value; [index] is a fixed array of 256. *)
Inductive artNode := mkArt {
  a_prefix : option (list ascii);
  a_leaf : option (gostring * gostring);
  a_nodeType : nat;
  a_keys : list ascii;
  a_children : list (option artNode);
  a_index : ascii → Z
}.

Definition artNode4 : nat := 4.
Definition artNode16 : nat := 16.
Definition artNode48 : nat := 48.
Definition artNode256 : nat := 256.
Definition artEmptyIndex : Z := -1.

Definition NUL : ascii := "000"%char.

(** The bytes in order: [for i := range n.index]. *)
Definition all_bytes : list ascii := (λ i, Zbyte (Z.of_nat i)) <$> seq 0 256.

Record ARTStore := mkART {
  art_root : option artNode;
  art_hashes : gmap gostring (gmap gostring gostring)
}.

Definition NewARTStore : ARTStore := mkART None ∅.

(** [&artNode{leaf: &artLeaf{key, value}}] *)
Definition leafNode (key value : gostring) : artNode := mkArt None (Some (key, value)) 0 [] [] (λ _, 0%Z).

(** The number of nodes on the longest way down. *)
Fixpoint height (n : artNode) : nat :=
  match n with
  | mkArt _ _ _ _ cs _ => S (foldr (λ o m, max (match o with Some c => height c | None => 0 end) m) 0 cs)
  end.

Definition with_children (n : artNode) (nodeType : nat) (keys : list ascii) (children : list (option artNode)) (index : ascii → Z) : artNode :=
  mkArt (a_prefix n) (a_leaf n) nodeType keys children index.

(** The position of a byte in [n.keys]. *)
Fixpoint pos_of (b : ascii) (keys : list ascii) : option nat :=
  match keys with
  | [] => None
  | k :: keys' => if decide (k = b) then Some 0 else S <$> pos_of b keys'
  end.

Definition slot_at (children : list (option artNode)) (i : nat) : go (option artNode) :=
  match children !! i with Some c => Ret c | None => Panic end.

(** An index of type [int16]: a negative one is out of range. *)
Definition slot_atZ (children : list (option artNode)) (i : Z) : go (option artNode) :=
  if decide (0 ≤ i)%Z then slot_at children (Z.to_nat i) else Panic.

Definition byte_at (b : ascii) : nat := Z.to_nat (byteZ b).

Definition findChild (n : artNode) (b : ascii) : go (option artNode) :=
  if decide (a_nodeType n = artNode4 ∨ a_nodeType n = artNode16) then
    match pos_of b (a_keys n) with Some i => slot_at (a_children n) i | None => Ret None end
  else if decide (a_nodeType n = artNode48) then
    if decide (a_index n b ≠ artEmptyIndex) then slot_atZ (a_children n) (a_index n b) else Ret None
  else if decide (a_nodeType n = artNode256) then slot_at (a_children n) (byte_at b)
  else Ret None.

(** The child found under [b] was changed in place. *)
Definition set_child (n : artNode) (b : ascii) (c : artNode) : artNode :=
  let i := if decide (a_nodeType n = artNode4 ∨ a_nodeType n = artNode16) then default 0 (pos_of b (a_keys n))
           else if decide (a_nodeType n = artNode48) then Z.to_nat (a_index n b) else byte_at b in
  with_children n (a_nodeType n) (a_keys n) (<[i := Some c]> (a_children n)) (a_index n).

Definition upd_index (b : ascii) (v : Z) (index : ascii → Z) : ascii → Z := λ b', if decide (b' = b) then v else index b'.

Definition grow4to16 (n : artNode) : artNode := with_children n artNode16 (a_keys n) (a_children n) (a_index n).

(** [for i, k := range n.keys { n.index[k] = int16(i) }] *)
Fixpoint index_keys (keys : list ascii) (i : nat) (index : ascii → Z) : ascii → Z :=
  match keys with
  | [] => index
  | k :: keys' => index_keys keys' (S i) (upd_index k (Z.of_nat i) index)
  end.

Definition grow16to48 (n : artNode) : artNode :=
  with_children n artNode48 [] (a_children n) (index_keys (a_keys n) 0 (λ _, artEmptyIndex)).

(** The inner loop of [grow48to256]: the first byte whose index is [i]. *)
Definition byte_of_slot (index : ascii → Z) (i : nat) : option ascii := List.find (λ b, Z.eqb (index b) (Z.of_nat i)) all_bytes.

Fixpoint place_children (index : ascii → Z) (i : nat) (cs : list (option artNode)) (out : list (option artNode)) : list (option artNode) :=
  match cs with
  | [] => out
  | c :: cs' =>
      place_children index (S i) cs' (match byte_of_slot index i with Some b => <[byte_at b := c]> out | None => out end)
  end.

Definition grow48to256 (n : artNode) : artNode :=
  with_children n artNode256 (a_keys n) (place_children (a_index n) 0 (a_children n) (replicate 256 None)) (λ _, 0%Z).

(** [for pos < len(n.keys) && n.keys[pos] < b { pos++ }] *)
Fixpoint insert_pos (b : ascii) (keys : list ascii) : nat :=
  match keys with
  | [] => 0
  | k :: keys' => if (byteZ k <? byteZ b)%Z then S (insert_pos b keys') else 0
  end.

Definition addChild (n : artNode) (b : ascii) (child : artNode) : go artNode :=
  if decide (a_nodeType n = artNode4 ∨ a_nodeType n = artNode16) then
    let pos := insert_pos b (a_keys n) in
    if decide (pos ≤ length (a_children n)) then
      let keys := take pos (a_keys n) ++ b :: drop pos (a_keys n) in
      let children := take pos (a_children n) ++ Some child :: drop pos (a_children n) in
      let n1 := with_children n (a_nodeType n) keys children (a_index n) in
      if decide (a_nodeType n ≤ length keys ∧ a_nodeType n = artNode4) then Ret (grow4to16 n1)
      else if decide (a_nodeType n ≤ length keys ∧ a_nodeType n = artNode16) then Ret (grow16to48 n1) else Ret n1
    else Panic
  else if decide (a_nodeType n = artNode48) then
    let slot := length (a_children n) in
    let n1 := with_children n artNode48 (a_keys n) (a_children n ++ [Some child]) (upd_index b (Z.of_nat slot) (a_index n)) in
    if decide (length (a_children n1) = 48) then Ret (grow48to256 n1) else Ret n1
  else if decide (a_nodeType n = artNode256) then
    if decide (byte_at b < length (a_children n)) then
      Ret (with_children n artNode256 (a_keys n) (<[byte_at b := Some child]> (a_children n)) (a_index n))
    else Panic
  else Ret n.

Definition removeChild (n : artNode) (b : ascii) : go artNode :=
  if decide (a_nodeType n = artNode4 ∨ a_nodeType n = artNode16) then
    match pos_of b (a_keys n) with
    | Some i =>
        if decide (i < length (a_children n)) then
          Ret (with_children n (a_nodeType n) (take i (a_keys n) ++ drop (i + 1) (a_keys n))
                 (take i (a_children n) ++ drop (i + 1) (a_children n)) (a_index n))
        else Panic
    | None => Ret n
    end
  else if decide (a_nodeType n = artNode48) then
    if decide (a_index n b ≠ artEmptyIndex) then
      Ret (with_children n artNode48 (a_keys n) (a_children n) (upd_index b artEmptyIndex (a_index n)))
    else Ret n
  else if decide (a_nodeType n = artNode256) then
    if decide (byte_at b < length (a_children n)) then
      Ret (with_children n artNode256 (a_keys n) (<[byte_at b := None]> (a_children n)) (a_index n))
    else Panic
  else Ret n.

(** ** Searching *)

(** [if n.prefix != nil { if depth+pxLen > len(key) || key[depth:depth+pxLen] != string(n.prefix) { ... }; depth += pxLen }]:
    the depth past the prefix, or [None] when the key does not follow it. *)
Definition skip_prefix (n : artNode) (key : gostring) (depth : nat) : option nat :=
  match a_prefix n with
  | None => Some depth
  | Some px =>
      if decide (length key < depth + length px ∨ take (length px) (drop depth key) ≠ px) then None else Some (depth + length px)
  end.

Fixpoint Get_loop (fuel : nat) (n : artNode) (key : gostring) (depth : nat) : go (option gostring) :=
  match fuel with
  | O => NoFuel
  | S f =>
      match a_leaf n with
      | Some (k, v) => Ret (if decide (k = key) then Some v else None)
      | None =>
          match skip_prefix n key depth with
          | None => Ret None
          | Some depth1 =>
              match key !! depth1 with
              | None => c ← findChild n NUL; match c with Some c => Get_loop f c key depth1 | None => Ret None end
              | Some b => c ← findChild n b; match c with Some c => Get_loop f c key (depth1 + 1) | None => Ret None end
              end
          end
      end
  end.

Definition ARTStore_Get (key : gostring) (s : ARTStore) : go (option gostring) :=
  match art_root s with
  | None => Ret None
  | Some n => Get_loop (height n) n key 0
  end.

(** ** Inserting *)

(** The number of leading bytes two strings share: the loop of [lcp] and of
    the mismatch in [Set]. *)
Fixpoint common (a b : list ascii) : nat :=
  match a, b with
  | x :: a', y :: b' => if decide (x = y) then S (common a' b') else 0
  | _, _ => 0
  end.
Definition lcp (key1 key2 : gostring) (start : nat) : nat := common (drop start key1) (drop start key2).

(** What [Set] holds while it runs: [s.mu.Lock(); defer s.mu.Unlock()]. *)
Definition held : RWMutex := mkRWMutex 0 true.

(** [splitPrefix] moves the node one level down and calls [s.Set], whose first
    statement is [s.mu.Lock()], with the lock in the state its caller [Set]
    left it in. *)
Definition splitPrefix (mu : RWMutex) (n : artNode) (key value : gostring) : go artNode :=
  match a_prefix n with
  | Some (b :: px) =>
      let newNode := mkArt (Some (b :: px)) (a_leaf n) (a_nodeType n) (a_keys n) (a_children n) (a_index n) in
      n1 ← addChild (mkArt None None artNode4 [] [] (a_index n)) b newNode;
      _ ← rw_Lock mu;
      Ret (mkArt (Some []) (a_leaf n1) (a_nodeType n1) (a_keys n1) (a_children n1) (a_index n1))
  | _ => Panic
  end.

Definition splitPrefixAt (n : artNode) (oldPrefix : list ascii) (depth mismatch : nat) (key value : gostring) : go artNode :=
  let newNode := mkArt (if decide (mismatch + 1 < length oldPrefix) then Some (drop (mismatch + 1) oldPrefix) else None)
                   (a_leaf n) (a_nodeType n) (a_keys n) (a_children n) (a_index n) in
  match oldPrefix !! mismatch with
  | None => Panic
  | Some childByte =>
      let newByte := default NUL (key !! (depth + mismatch)) in
      let n1 := mkArt (if decide (0 < mismatch) then Some (take mismatch oldPrefix) else None) None artNode4 [] [] (a_index n) in
      n2 ← addChild n1 childByte newNode;
      addChild n2 newByte (leafNode key value)
  end.

(** The end of [Set], at a leaf with another key. *)
Definition splitLeaf (n : artNode) (oldKey oldValue : gostring) (depth : nat) (key value : gostring) : go artNode :=
  let prefixLen := lcp oldKey key depth in
  let childByte := default NUL (oldKey !! (depth + prefixLen)) in
  let newByte := default NUL (key !! (depth + prefixLen)) in
  let n1 := mkArt (if decide (0 < prefixLen) then Some (take prefixLen (drop depth oldKey)) else a_prefix n) None artNode4 [] [] (a_index n) in
  n2 ← addChild n1 childByte (leafNode oldKey oldValue);
  addChild n2 newByte (leafNode key value).

(** [n.leaf.value = value] *)
Definition set_value (n : artNode) (key value : gostring) : artNode :=
  mkArt (a_prefix n) (Some (key, value)) (a_nodeType n) (a_keys n) (a_children n) (a_index n).

(** The body of the loop past the prefix; [rec] goes on with the child. *)
Definition Set_child (rec : artNode → nat → go artNode) (n : artNode) (depth : nat) (key value : gostring) : go artNode :=
  match key !! depth with
  | None =>
      child ← findChild n NUL;
      match child with
      | Some c =>
          match a_leaf c with
          | None => Panic
          | Some (k, _) => if decide (k = key) then Ret (set_child n NUL (set_value c k value)) else addChild n NUL (leafNode key value)
          end
      | None => addChild n NUL (leafNode key value)
      end
  | Some b =>
      child ← findChild n b;
      match child with
      | None => addChild n b (leafNode key value)
      | Some c => c' ← rec c (depth + 1); Ret (set_child n b c')
      end
  end.

Fixpoint Set_loop (fuel : nat) (n : artNode) (key value : gostring) (depth : nat) : go artNode :=
  match fuel with
  | O => NoFuel
  | S f =>
      match a_leaf n with
      | Some (k, v) => if decide (k = key) then Ret (set_value n k value) else splitLeaf n k v depth key value
      | None =>
          match a_prefix n with
          | Some px =>
              if decide (length key < depth + length px) then splitPrefix held n key value else
              let mismatch := common px (drop depth key) in
              if decide (mismatch < length px) then splitPrefixAt n px depth mismatch key value
              else Set_child (λ c d, Set_loop f c key value d) n (depth + length px) key value
          | None => Set_child (λ c d, Set_loop f c key value d) n depth key value
          end
      end
  end.

Definition ARTStore_Set (key value : gostring) (s : ARTStore) : go ARTStore :=
  match art_root s with
  | None => Ret (mkART (Some (leafNode key value)) (art_hashes s))
  | Some n => n' ← Set_loop (height n) n key value 0; Ret (mkART (Some n') (art_hashes s))
  end.

(** ** Deleting *)

(** [delNode]: the node, changed in place, and whether nil was returned. *)
Fixpoint delNode (fuel : nat) (n : artNode) (key : gostring) (depth : nat) : go (artNode * bool) :=
  match fuel with
  | O => NoFuel
  | S f =>
      match a_leaf n with
      | Some (k, _) => Ret (n, bool_decide (k = key))
      | None =>
          match skip_prefix n key depth with
          | None => Ret (n, false)
          | Some depth1 =>
              let b := default NUL (key !! depth1) in
              c1 ← findChild n b;
              '(slot, child) ← (match c1 with
                                | Some c => Ret (b, Some c)
                                | None => c ← findChild n NUL; Ret (NUL, c)
                                end);
              match child with
              | None => Ret (n, false)
              | Some c =>
                  '(c', gone) ← delNode f c key (if decide (depth1 < length key) then depth1 + 1 else depth1);
                  let n1 := set_child n slot c' in
                  n2 ← (if (gone : bool) then removeChild n1 b else Ret n1);
                  Ret (n2, bool_decide (length (a_children n2) = 0))
              end
          end
      end
  end.

Definition ARTStore_Del (key : gostring) (s : ARTStore) : go ARTStore :=
  let hashes := delete key (art_hashes s) in
  match art_root s with
  | None => Ret (mkART None hashes)
  | Some n => '(n', gone) ← delNode (height n) n key 0; Ret (mkART (if (gone : bool) then None else Some n') hashes)
  end.

Definition ARTStore_HSet (h k v : gostring) (s : ARTStore) : go ARTStore := Ret (mkART (art_root s) (hash_put h k v (art_hashes s))).
Definition ARTStore_HGet (h k : gostring) (s : ARTStore) : go (option gostring) := Ret (hash_get h k (art_hashes s)).
Definition ARTStore_HGetAll (h : gostring) (s : ARTStore) : go (option (gmap gostring gostring)) := Ret (art_hashes s !! h).
Definition ARTStore_Close (s : ARTStore) : go ARTStore := Ret s.

#[global] Instance ARTStore_ops : StoreOps ARTStore := {
  st_Set := ARTStore_Set;
  st_Get := ARTStore_Get;
  st_Del := ARTStore_Del;
  st_HSet := ARTStore_HSet;
  st_HGet := ARTStore_HGet;
  st_HGetAll := ARTStore_HGetAll;
  st_Close := ARTStore_Close
}.

(** ** Scans *)

(** The children in the order the scans visit them. *)
Definition child_slots (n : artNode) : go (list (option artNode)) :=
  if decide (a_nodeType n = artNode48) then
    go_foldl (λ b out, if decide (a_index n b ≠ artEmptyIndex) then c ← slot_atZ (a_children n) (a_index n b); Ret (out ++ [c]) else Ret out)
      all_bytes []
  else if decide (a_nodeType n = artNode4 ∨ a_nodeType n = artNode16 ∨ a_nodeType n = artNode256) then Ret (a_children n)
  else Ret [].

(** [collectKeys] and [collectRange]: the keys of the leaves below that satisfy [keep]. *)
Fixpoint collect (fuel : nat) (keep : gostring → bool) (o : option artNode) : go (list gostring) :=
  match o with
  | None => Ret []
  | Some n =>
      match fuel with
      | O => NoFuel
      | S f =>
          match a_leaf n with
          | Some (k, _) => Ret (if keep k then [k] else [])
          | None => cs ← child_slots n; go_foldl (λ c out, ks ← collect f keep c; Ret (out ++ ks)) cs []
          end
      end
  end.
Definition collectKeys (n : artNode) : go (list gostring) := collect (height n) (λ _, true) (Some n).
Definition collectRange (root : option artNode) (start end_ : gostring) : go (list gostring) :=
  collect (match root with Some n => height n | None => 0 end) (λ k, negb (str_ltb k start) && negb (str_ltb end_ k)) root.

Fixpoint PrefixKeys_loop (fuel : nat) (n : artNode) (prefix : gostring) (depth : nat) : go (list gostring) :=
  match fuel with
  | O => NoFuel
  | S f =>
      match a_leaf n with
      | Some (k, _) => Ret (if HasPrefix k prefix then [k] else [])
      | None =>
          let px := default [] (a_prefix n) in
          if decide (a_prefix n ≠ None ∧ length prefix < depth + length px) then
            if decide (take (length prefix - depth) px = drop depth prefix) then collectKeys n else Ret []
          else if decide (a_prefix n ≠ None ∧ take (length px) (drop depth prefix) ≠ px) then Ret []
          else
          match prefix !! (depth + length px) with
          | None => collectKeys n
          | Some b =>
              c ← findChild n b;
              match c with None => Ret [] | Some c => PrefixKeys_loop f c prefix (depth + length px + 1) end
          end
      end
  end.

Definition ARTStore_PrefixKeys (prefix : gostring) (s : ARTStore) : go (list gostring) :=
  match art_root s with
  | None => Ret []
  | Some n => PrefixKeys_loop (height n) n prefix 0
  end.

(** [sort.Strings] *)
Definition str_le (a b : gostring) : Prop := str_ltb b a = false.
#[global] Instance str_le_dec a b : Decision (str_le a b).
Proof. unfold str_le. apply _. Defined.

Definition ARTStore_RangeKeys (start end_ : gostring) (s : ARTStore) : go (list gostring) :=
  out ← collectRange (art_root s) start end_;
  Ret (merge_sort str_le out).
