(* ===== verification/ARTProofs.v ===== *)
(** * ARTProofs: when the radix tree of src/store/art.go is a map

    The four node layouts are shown to implement one finite map from bytes to
    children ([kids]); the tree is then described by [art_tree].  The store
    answers like a map for keys without NUL bytes none of which is shorter
    than a prefix two others share; [Set] of such a shorter key blocks for
    ever. *)

From stdpp Require Import base list gmap strings sorting.
From Stdlib Require Import ZArith Lia Ascii.
From S2P Require Import Prelude GoLib StoreSpec KeyOrder OrderedSpec ARTStore.

(** ** Bytes *)
Definition byte_lt (x y : ascii) : Prop := (byteZ x < byteZ y)%Z.

#[global] Instance byte_lt_dec x y : Decision (byte_lt x y).
Proof. unfold byte_lt. apply _. Defined.

Lemma byte_at_inj x y : byte_at x = byte_at y → x = y.
Proof. unfold byte_at. intros H. apply byteZ_inj. pose proof (byteZ_range x). pose proof (byteZ_range y). lia. Qed.

Lemma byte_at_lt x : byte_at x < 256.
Proof. unfold byte_at. pose proof (byteZ_range x). lia. Qed.

Lemma all_bytes_elem b : b ∈ all_bytes.
Proof.
  unfold all_bytes. apply list_elem_of_fmap. exists (byte_at b). split.
  - unfold byte_at. rewrite Z2Nat.id by (pose proof (byteZ_range b); lia). by rewrite Zbyte_byteZ.
  - apply elem_of_seq. pose proof (byte_at_lt b). lia.
Qed.

Lemma bytes_sorted_from m a : a + m ≤ 256 → StronglySorted byte_lt ((λ i, Zbyte (Z.of_nat i)) <$> seq a m).
Proof.
  revert a; induction m as [|m IH]; intros a Ha; simpl; [constructor|]. constructor; [apply IH; lia|].
  apply Forall_forall. intros x (i & -> & [Hi1 Hi2]%elem_of_seq)%list_elem_of_fmap. unfold byte_lt.
  rewrite !byteZ_Zbyte, !Z.mod_small by lia. lia.
Qed.

Lemma all_bytes_sorted : StronglySorted byte_lt all_bytes.
Proof. apply bytes_sorted_from. lia. Qed.

Lemma sorted_bytes_NoDup l : StronglySorted byte_lt l → NoDup l.
Proof.
  induction 1 as [|k l Hs IH Hk]; constructor; [|done]. intros Hin. rewrite Forall_forall in Hk.
  specialize (Hk k Hin). unfold byte_lt in Hk. lia.
Qed.

(** ** The children of a node as a map *)
Definition kids (n : artNode) (b : ascii) : option artNode := match findChild n b with Ret o => o | _ => None end.

Fixpoint alookup (b : ascii) (ks : list ascii) (cs : list (option artNode)) : option artNode :=
  match ks, cs with
  | k :: ks', c :: cs' => if decide (k = b) then c else alookup b ks' cs'
  | _, _ => None
  end.

Definition slots_wf (n : artNode) : Prop :=
  length (a_keys n) = length (a_children n) ∧ StronglySorted byte_lt (a_keys n) ∧ Forall is_Some (a_children n).

Definition index_wf (index : ascii → Z) (cs : list (option artNode)) : Prop :=
  (∀ b, index b = artEmptyIndex ∨ (0 ≤ index b)%Z ∧ ∃ c, cs !! Z.to_nat (index b) = Some (Some c)) ∧
  (∀ b b', index b = index b' → index b ≠ artEmptyIndex → b = b').

(** The layout of an inner node. *)
Inductive node_wf (n : artNode) : Prop :=
| wf_slots : a_nodeType n = artNode4 ∨ a_nodeType n = artNode16 → slots_wf n → length (a_keys n) < a_nodeType n → node_wf n
| wf_index : a_nodeType n = artNode48 → index_wf (a_index n) (a_children n) → length (a_children n) < 48 → node_wf n
| wf_direct : a_nodeType n = artNode256 → length (a_children n) = 256 → node_wf n.

Lemma pos_of_None b ks : pos_of b ks = None ↔ b ∉ ks.
Proof.
  induction ks as [|k ks IH]; simpl; [set_solver|]. case_decide as E; [subst; set_solver|].
  rewrite fmap_None, IH. set_solver.
Qed.

Lemma pos_of_Some b ks i : pos_of b ks = Some i → ∃ k1 k2, ks = k1 ++ b :: k2 ∧ length k1 = i ∧ b ∉ k1.
Proof.
  revert i; induction ks as [|k ks IH]; simpl; intros i; [done|]. case_decide as E; [intros [= <-]; subst; exists [], ks; split_and!; [done|done|set_solver]|].
  intros (j & Hj & ->)%fmap_Some_1. destruct (IH j Hj) as (k1 & k2 & -> & <- & Hn). exists (k :: k1), k2. split_and!; [done|done|set_solver].
Qed.

Lemma pos_of_mid b k1 k2 : b ∉ k1 → pos_of b (k1 ++ b :: k2) = Some (length k1).
Proof.
  induction k1 as [|k k1 IH]; simpl; intros Hn; [by rewrite decide_True|]. rewrite decide_False by set_solver.
  rewrite IH by set_solver. done.
Qed.

Lemma alookup_pos b ks cs :
  length ks = length cs → alookup b ks cs = match pos_of b ks with Some i => mjoin (cs !! i) | None => None end.
Proof.
  revert cs; induction ks as [|k ks IH]; intros [|c cs]; simpl; try done. intros [= H]. case_decide; [done|].
  rewrite IH by done. by destruct (pos_of b ks).
Qed.

Lemma alookup_app b k1 k2 c1 c2 :
  length k1 = length c1 → alookup b (k1 ++ k2) (c1 ++ c2) = if decide (b ∈ k1) then alookup b k1 c1 else alookup b k2 c2.
Proof.
  revert c1; induction k1 as [|k k1 IH]; intros [|c c1]; cbn [app alookup length]; try done.
  intros [= H]. destruct (decide (k = b)) as [->|Hne]; [by rewrite decide_True by by left|].
  rewrite IH by done. destruct (decide (b ∈ k1)); [by rewrite decide_True by (by right)|by rewrite decide_False by set_solver].
Qed.

Lemma alookup_None b ks cs : b ∉ ks → alookup b ks cs = None.
Proof. revert cs; induction ks as [|k ks IH]; intros [|c cs] Hn; simpl; try done. rewrite decide_False by set_solver. apply IH. set_solver. Qed.

(** [findChild] on each layout. *)
Lemma findChild_slots n b :
  a_nodeType n = artNode4 ∨ a_nodeType n = artNode16 → length (a_keys n) = length (a_children n) →
  findChild n b = Ret (alookup b (a_keys n) (a_children n)).
Proof.
  intros Ht Hl. unfold findChild. rewrite decide_True by done. rewrite alookup_pos by done.
  destruct (pos_of b (a_keys n)) as [i|] eqn:E; [|done]. apply pos_of_Some in E as (k1 & k2 & Hk & <- & _). unfold slot_at.
  destruct (lookup_lt_is_Some_2 (a_children n) (length k1)) as [c Hc]; [rewrite <-Hl, Hk, length_app; simpl; lia|]. by rewrite Hc.
Qed.

Lemma findChild_index n b :
  a_nodeType n = artNode48 → index_wf (a_index n) (a_children n) →
  findChild n b = Ret (if decide (a_index n b = artEmptyIndex) then None else mjoin (a_children n !! Z.to_nat (a_index n b))).
Proof.
  intros Ht [Hi _]. unfold findChild. rewrite Ht, decide_False by (intros [|]; done). rewrite decide_True by done.
  destruct (Hi b) as [->|[H0 [c Hc]]]; [by rewrite decide_False by tauto|].
  rewrite decide_True by (unfold artEmptyIndex; lia). rewrite decide_False by (unfold artEmptyIndex; lia).
  unfold slot_atZ, slot_at. rewrite decide_True by done. by rewrite Hc.
Qed.

Lemma findChild_direct n b :
  a_nodeType n = artNode256 → length (a_children n) = 256 → findChild n b = Ret (mjoin (a_children n !! byte_at b)).
Proof.
  intros Ht Hl. unfold findChild. rewrite Ht, decide_False by (intros [|]; done). rewrite decide_False by done. rewrite decide_True by done.
  unfold slot_at. destruct (lookup_lt_is_Some_2 (a_children n) (byte_at b)) as [c Hc]; [rewrite Hl; apply byte_at_lt|]. by rewrite Hc.
Qed.

Lemma findChild_kids n b : node_wf n → findChild n b = Ret (kids n b).
Proof.
  unfold kids. destruct 1 as [Ht (Hl & _) _|Ht Hi _|Ht Hl].
  - by rewrite findChild_slots.
  - by rewrite findChild_index.
  - by rewrite findChild_direct.
Qed.

Definition kids_upd (b : ascii) (o : option artNode) (f : ascii → option artNode) : ascii → option artNode :=
  λ b', if decide (b' = b) then o else f b'.

(** ** Adding a child *)
Lemma insert_pos_spec b keys :
  StronglySorted byte_lt keys → b ∉ keys →
  ∃ k1 k2, keys = k1 ++ k2 ∧ insert_pos b keys = length k1 ∧ (∀ k, k ∈ k1 → byte_lt k b) ∧ (∀ k, k ∈ k2 → byte_lt b k).
Proof.
  induction 1 as [|x l Hs IH Hx]; intros Hb; [by exists [], []; split_and!; set_solver|].
  apply not_elem_of_cons in Hb as [Hne Hb]. simpl. destruct (Z.ltb_spec (byteZ x) (byteZ b)) as [Hlt|Hge].
  - destruct (IH Hb) as (k1 & k2 & -> & -> & H1 & H2). exists (x :: k1), k2. split_and!; [done|done| |done].
    intros k [->|Hk]%elem_of_cons; [done|by apply H1].
  - assert (byte_lt b x) as Hbx. { unfold byte_lt. assert (byteZ x ≠ byteZ b) by (intros ?%byteZ_inj; congruence). lia. }
    exists [], (x :: l). split_and!; [done|done|set_solver|]. rewrite Forall_forall in Hx.
    intros k [->|Hk]%elem_of_cons; [done|]. specialize (Hx k Hk). unfold byte_lt in *. lia.
Qed.

Lemma index_keys_spec keys i index b :
  NoDup keys → index_keys keys i index b = match pos_of b keys with Some j => Z.of_nat (i + j) | None => index b end.
Proof.
  revert i index; induction keys as [|k keys IH]; intros i index Hnd; simpl; [done|]. apply NoDup_cons in Hnd as [Hk Hnd].
  rewrite IH by done. destruct (decide (k = b)) as [->|Hne].
  - rewrite (proj2 (pos_of_None b keys) Hk). unfold upd_index. rewrite decide_True by done. f_equal. lia.
  - destruct (pos_of b keys) as [j|]; simpl; [f_equal; lia|]. unfold upd_index. by rewrite decide_False by congruence.
Qed.

Lemma grow16to48_spec n :
  slots_wf n → a_nodeType n = artNode16 → length (a_keys n) = 16 → node_wf (grow16to48 n) ∧ ∀ b, kids (grow16to48 n) b = kids n b.
Proof.
  intros (Hl & Hs & Hc) Ht H16. pose proof (sorted_bytes_NoDup _ Hs) as Hnd.
  assert (index_wf (a_index (grow16to48 n)) (a_children (grow16to48 n))) as Hi.
  { split; unfold grow16to48; cbn [a_index a_children with_children].
    - intros b. rewrite index_keys_spec by done. destruct (pos_of b (a_keys n)) as [j|] eqn:E; [|by left]. right.
      split; [lia|]. apply pos_of_Some in E as (k1 & k2 & Hk & <- & _). rewrite Nat2Z.id.
      destruct (lookup_lt_is_Some_2 (a_children n) (length k1)) as [o Ho]; [rewrite <-Hl, Hk, length_app; simpl; lia|].
      rewrite Forall_forall in Hc. destruct (Hc o (list_elem_of_lookup_2 _ _ _ Ho)) as [c ->]. by exists c.
    - intros b b'. rewrite !index_keys_spec by done.
      destruct (pos_of b (a_keys n)) as [j|] eqn:E; [|done]. destruct (pos_of b' (a_keys n)) as [j'|] eqn:E'; [|intros H; unfold artEmptyIndex in H; lia].
      intros H _. apply pos_of_Some in E as (k1 & k2 & Hk & <- & _). apply pos_of_Some in E' as (k1' & k2' & Hk' & <- & _).
      assert (length k1 = length k1') as Hlen by lia.
      assert (a_keys n !! length k1 = Some b) as H1 by (rewrite Hk; by apply list_lookup_middle).
      assert (a_keys n !! length k1' = Some b') as H2 by (rewrite Hk'; by apply list_lookup_middle). congruence. }
  split; [apply wf_index; [done|done|]; unfold grow16to48; simpl; lia|].
  intros b. unfold kids. rewrite findChild_index by done. rewrite findChild_slots by (done || by right).
  rewrite alookup_pos by done. unfold grow16to48. cbn [a_index a_children with_children]. rewrite index_keys_spec by done.
  destruct (pos_of b (a_keys n)) as [j|]; [|by rewrite decide_True].
  rewrite decide_False by (unfold artEmptyIndex; lia). by rewrite Nat2Z.id.
Qed.

Lemma byte_of_slot_spec index i b :
  (∀ b b', index b = index b' → index b ≠ artEmptyIndex → b = b') → index b = Z.of_nat i → byte_of_slot index i = Some b.
Proof.
  intros Hinj Hb. unfold byte_of_slot. destruct (List.find _ all_bytes) as [b'|] eqn:E.
  - apply List.find_some in E as [_ E%Z.eqb_eq]. f_equal. symmetry. apply Hinj; [congruence|rewrite Hb; unfold artEmptyIndex; lia].
  - pose proof (List.find_none _ _ E b) as Hn. rewrite <-list_elem_of_In in Hn. specialize (Hn (all_bytes_elem b)).
    apply Z.eqb_neq in Hn. congruence.
Qed.

Lemma byte_of_slot_index index i b : byte_of_slot index i = Some b → index b = Z.of_nat i.
Proof. intros H. unfold byte_of_slot in H. by apply List.find_some in H as [_ ?%Z.eqb_eq]. Qed.

Lemma place_children_spec index i cs out b :
  (∀ b b', index b = index b' → index b ≠ artEmptyIndex → b = b') → length out = 256 →
  length (place_children index i cs out) = 256 ∧
  place_children index i cs out !! byte_at b =
    if decide (Z.of_nat i ≤ index b < Z.of_nat (i + length cs))%Z then cs !! (Z.to_nat (index b) - i) else out !! byte_at b.
Proof.
  intros Hinj. revert i out; induction cs as [|c cs IH]; intros i out Hl; cbn [place_children length]; [by rewrite decide_False by lia|].
  destruct (IH (S i) (match byte_of_slot index i with Some b => <[byte_at b := c]> out | None => out end)) as [H1 H2].
  { destruct (byte_of_slot index i); [by rewrite length_insert|done]. }
  split; [done|]. rewrite H2. clear H1 H2 IH. destruct (decide (index b = Z.of_nat i)) as [Hb|Hb].
  - rewrite decide_False, decide_True by lia. rewrite (byte_of_slot_spec index i b Hinj Hb).
    rewrite list_lookup_insert_eq by (rewrite Hl; apply byte_at_lt). by replace (Z.to_nat (index b) - i) with 0 by lia.
  - destruct (decide (Z.of_nat (S i) ≤ index b < Z.of_nat (S i + length cs))%Z).
    + rewrite decide_True by lia. by replace (Z.to_nat (index b) - i) with (S (Z.to_nat (index b) - S i)) by lia.
    + rewrite decide_False by lia. destruct (byte_of_slot index i) as [b'|] eqn:E; [|done].
      apply byte_of_slot_index in E. rewrite list_lookup_insert_ne; [done|]. intros ->%byte_at_inj. congruence.
Qed.

Lemma grow48to256_spec n :
  a_nodeType n = artNode48 → index_wf (a_index n) (a_children n) → node_wf (grow48to256 n) ∧ ∀ b, kids (grow48to256 n) b = kids n b.
Proof.
  intros Ht Hi. pose proof Hi as [Hv Hinj].
  assert (∀ b, length (a_children (grow48to256 n)) = 256 ∧ a_children (grow48to256 n) !! byte_at b =
    if decide (0 ≤ a_index n b < Z.of_nat (length (a_children n)))%Z then a_children n !! Z.to_nat (a_index n b) else Some None) as Hp.
  { intros b. unfold grow48to256. cbn [a_children with_children].
    destruct (place_children_spec (a_index n) 0 (a_children n) (replicate 256 None) b Hinj) as [H1 H2]; [apply length_replicate|].
    split; [done|]. rewrite H2, Nat.sub_0_r. change (Z.of_nat 0) with 0%Z. rewrite Nat.add_0_l.
    repeat case_decide; [done|lia|lia|]. apply lookup_replicate_2, byte_at_lt. }
  split; [apply wf_direct; [done|apply (Hp NUL)]|]. intros b. destruct (Hp b) as [Hl Hb]. unfold kids.
  rewrite findChild_direct by done. rewrite findChild_index by done. rewrite Hb. destruct (Hv b) as [->|[H0 [c Hc]]].
  - rewrite decide_False by (unfold artEmptyIndex; lia). by rewrite decide_True.
  - apply lookup_lt_Some in Hc as Hlt. rewrite decide_True by lia. by rewrite decide_False by (unfold artEmptyIndex; lia).
Qed.

(** The slots with one more child. *)
Lemma add_slots n b c :
  a_nodeType n = artNode4 ∨ a_nodeType n = artNode16 → slots_wf n → b ∉ a_keys n →
  let pos := insert_pos b (a_keys n) in
  let n1 := with_children n (a_nodeType n) (take pos (a_keys n) ++ b :: drop pos (a_keys n))
              (take pos (a_children n) ++ Some c :: drop pos (a_children n)) (a_index n) in
  pos ≤ length (a_children n) ∧ slots_wf n1 ∧ length (a_keys n1) = S (length (a_keys n)) ∧
  ∀ b', alookup b' (a_keys n1) (a_children n1) = kids_upd b (Some c) (kids n) b'.
Proof.
  intros Ht (Hl & Hs & Hc) Hb pos n1. destruct (insert_pos_spec b (a_keys n) Hs Hb) as (k1 & k2 & Hk & Hpos & H1 & H2).
  assert (pos = length k1) as Hp by done. clearbody pos. subst pos. assert (length k1 ≤ length (a_children n)) as Hle by (rewrite <-Hl, Hk, length_app; lia).
  assert (a_keys n1 = k1 ++ b :: k2) as Hk1 by (simpl; rewrite Hk, take_app_length, drop_app_length; done).
  split_and!; [done|split_and!| |].
  - rewrite Hk1. cbn [n1 a_children with_children]. rewrite !length_app. simpl. rewrite length_take, length_drop, <-Hl, Hk, length_app. lia.
  - rewrite Hk1. rewrite Hk in Hs. apply StronglySorted_app in Hs as (Hs1 & Hs2 & Hs3). apply StronglySorted_app. split_and!; [|done|].
    + intros x y Hx [->|Hy]%elem_of_cons; [by apply H1|by apply Hs1].
    + apply StronglySorted_cons. split; [|done]. by apply Forall_forall.
  - cbn [n1 a_children with_children]. rewrite <-(take_drop (length k1) (a_children n)) in Hc.
    apply Forall_app in Hc as [Hc1 Hc2]. apply Forall_app. split; [done|]. constructor; [done|done].
  - rewrite Hk1, Hk, !length_app. simpl. lia.
  - intros b'. rewrite Hk1. cbn [n1 a_children with_children]. unfold kids_upd, kids. rewrite findChild_slots by done.
    assert (alookup b' (a_keys n) (a_children n) = alookup b' (k1 ++ k2) (take (length k1) (a_children n) ++ drop (length k1) (a_children n)))
      as -> by (by rewrite take_drop, Hk).
    assert (length k1 = length (take (length k1) (a_children n))) as Hlt by (rewrite length_take; lia).
    rewrite !alookup_app by done. simpl. destruct (decide (b' = b)) as [->|Hne]; [|by rewrite (decide_False (P := b = b')) by congruence].
    rewrite decide_False, decide_True by first [done|rewrite Hk in Hb; set_solver]. done.
Qed.

Lemma slots_key n b : slots_wf n → alookup b (a_keys n) (a_children n) = None ↔ b ∉ a_keys n.
Proof.
  intros (Hl & _ & Hc). split; [|apply alookup_None]. rewrite alookup_pos by done. intros Hn Hb.
  destruct (pos_of b (a_keys n)) as [i|] eqn:E; [|by apply pos_of_None in E].
  apply pos_of_Some in E as (k1 & k2 & Hk & <- & _).
  destruct (lookup_lt_is_Some_2 (a_children n) (length k1)) as [o Ho]; [rewrite <-Hl, Hk, length_app; simpl; lia|].
  rewrite Forall_forall in Hc. destruct (Hc o (list_elem_of_lookup_2 _ _ _ Ho)) as [c ->]. by rewrite Ho in Hn.
Qed.

(** The array with one more child. *)
Lemma add_index n b c :
  index_wf (a_index n) (a_children n) → a_nodeType n = artNode48 → kids n b = None →
  let n1 := with_children n artNode48 (a_keys n) (a_children n ++ [Some c])
              (upd_index b (Z.of_nat (length (a_children n))) (a_index n)) in
  index_wf (a_index n1) (a_children n1) ∧ ∀ b', kids n1 b' = kids_upd b (Some c) (kids n) b'.
Proof.
  intros Hi Ht Hb n1. pose proof Hi as [Hv Hinj].
  assert (∀ b', a_index n b' ≠ Z.of_nat (length (a_children n))) as Hfresh.
  { intros b'. destruct (Hv b') as [->|[H0 [x Hx]]]; [unfold artEmptyIndex; lia|]. apply lookup_lt_Some in Hx. lia. }
  assert (index_wf (a_index n1) (a_children n1)) as Hi1.
  { split; cbn [n1 a_index a_children with_children]; unfold upd_index.
    - intros b'. case_decide; [right; split; [lia|]; exists c; rewrite Nat2Z.id; by apply list_lookup_middle|].
      destruct (Hv b') as [->|[H0 [x Hx]]]; [by left|right]. split; [done|]. exists x. by apply lookup_app_l_Some.
    - intros b1 b2. destruct (decide (b1 = b)) as [->|], (decide (b2 = b)) as [->|]; [done|intros E; by destruct (Hfresh b2)|intros E; by destruct (Hfresh b1)|apply Hinj]. }
  split; [done|]. intros b'. unfold kids_upd, kids. rewrite findChild_index by done. rewrite findChild_index by done.
  cbn [n1 a_index a_children with_children]. unfold upd_index. destruct (decide (b' = b)) as [->|Hne].
  - rewrite decide_False by (unfold artEmptyIndex; lia). rewrite Nat2Z.id. rewrite lookup_app_r, Nat.sub_diag by done. done.
  - destruct (Hv b') as [->|[H0 [x Hx]]]; [by rewrite !decide_True by done|].
    rewrite !decide_False by (unfold artEmptyIndex; lia). rewrite lookup_app_l by by eapply lookup_lt_Some. done.
Qed.

Lemma addChild_spec n b c :
  node_wf n → kids n b = None →
  ∃ n', addChild n b c = Ret n' ∧ node_wf n' ∧ a_prefix n' = a_prefix n ∧ a_leaf n' = a_leaf n ∧
    ∀ b', kids n' b' = kids_upd b (Some c) (kids n) b'.
Proof.
  intros Hw Hb. unfold addChild. destruct Hw as [Ht Hsl Hlt|Ht Hi Hlt|Ht Hl].
  - rewrite decide_True by done. pose proof Hsl as (Hl & Hs & Hc).
    assert (b ∉ a_keys n) as Hnb by (unfold kids in Hb; rewrite findChild_slots in Hb by done; by apply slots_key in Hb).
    destruct (add_slots n b c Ht Hsl Hnb) as (Hpos & Hsl1 & Hlen1 & Hlk). rewrite decide_True by done. cbv zeta.
    set (n1 := with_children _ _ _ _ _) in *. change (length (take _ _ ++ b :: drop _ _)) with (length (a_keys n1)). rewrite Hlen1.
    pose proof Hsl1 as (Hl1 & _ & _).
    assert (∀ b', kids n1 b' = kids_upd b (Some c) (kids n) b') as Hk1 by (intros b'; unfold kids at 1; by rewrite findChild_slots).
    destruct Ht as [Ht|Ht]; rewrite !Ht in *.
    + rewrite (decide_False (P := 4 ≤ _ ∧ artNode4 = artNode16)) by (intros [_ ?]; done).
      case_decide as Hg; eexists; split_and!; try done.
      * apply wf_slots; [by right|done|]. cbn [grow4to16 with_children a_keys a_nodeType]. fold (a_keys n1). rewrite Hlen1. unfold artNode4, artNode16 in *. lia.
      * intros b'. rewrite <-Hk1. unfold kids. rewrite !findChild_slots; [done|by left|done|by right|done].
      * apply wf_slots; [by left|done|]. rewrite Hlen1. cbn [n1 with_children a_nodeType]. rewrite Ht in *. unfold artNode4 in *. lia.
    + rewrite decide_False by (intros [_ ?]; done). case_decide as Hg.
      * destruct (grow16to48_spec n1 Hsl1 Ht) as [Hw Hk]; [rewrite Hlen1; unfold artNode16 in *; lia|].
        eexists. split_and!; try done. intros b'. by rewrite Hk.
      * eexists. split_and!; try done. apply wf_slots; [by right|done|]. rewrite Hlen1. cbn [n1 with_children a_nodeType]. rewrite Ht.
        unfold artNode16 in *. lia.
  - rewrite decide_False by (rewrite Ht; by intros [|]). rewrite decide_True by done. cbv zeta.
    destruct (add_index n b c Hi Ht Hb) as [Hi1 Hk1]. set (n1 := with_children _ _ _ _ _) in *. case_decide as Hg.
    + destruct (grow48to256_spec n1 eq_refl Hi1) as [Hw Hk]. eexists. split_and!; try done. intros b'. by rewrite Hk.
    + eexists. split_and!; try done. apply wf_index; [done|done|]. cbn [n1 with_children a_children] in *. rewrite length_app in *. simpl in *. lia.
  - rewrite decide_False by (rewrite Ht; by intros [|]). rewrite decide_False by (rewrite Ht; done). rewrite decide_True by done.
    pose proof (byte_at_lt b). rewrite decide_True by lia. eexists. split_and!; try done.
    + apply wf_direct; [done|]. cbn [with_children a_children]. by rewrite length_insert.
    + intros b'. unfold kids_upd, kids. rewrite !findChild_direct by (first [done|cbn [with_children a_children]; by rewrite length_insert]).
      cbn [with_children a_children]. case_decide as E; [subst; by rewrite list_lookup_insert_eq by lia|].
      rewrite list_lookup_insert_ne; [done|]. intros ?%byte_at_inj. congruence.
Qed.

(** ** Changing and removing a child *)
Lemma slots_split n b c :
  slots_wf n → alookup b (a_keys n) (a_children n) = Some c →
  ∃ k1 k2 c1 c2, a_keys n = k1 ++ b :: k2 ∧ a_children n = c1 ++ Some c :: c2 ∧ length k1 = length c1 ∧ (b ∉ k1) ∧ (b ∉ k2) ∧
    pos_of b (a_keys n) = Some (length c1).
Proof.
  intros (Hl & Hs & _) Hb. rewrite alookup_pos in Hb by done. destruct (pos_of b (a_keys n)) as [i|] eqn:E; [|done].
  destruct (a_children n !! i) as [o|] eqn:Eo; [|done]. simpl in Hb. subst o. apply pos_of_Some in E as (k1 & k2 & Hk & Hi & Hn).
  apply list_elem_of_split_length in Eo as (c1 & c2 & Hc & Hc1). exists k1, k2, c1, c2.
  split_and!; [done|done|congruence|done| |congruence]. rewrite Hk in Hs. apply StronglySorted_app in Hs as (_ & _ & Hs).
  apply StronglySorted_cons in Hs as [Hs _]. rewrite Forall_forall in Hs. intros Hin. specialize (Hs b Hin). unfold byte_lt in Hs. lia.
Qed.

Lemma alookup_mid b b' k1 k2 c1 c2 o :
  length k1 = length c1 → b ∉ k1 →
  alookup b' (k1 ++ b :: k2) (c1 ++ o :: c2) = if decide (b' = b) then o else alookup b' (k1 ++ k2) (c1 ++ c2).
Proof.
  intros Hl Hn. rewrite !alookup_app by done. cbn [alookup]. destruct (decide (b' = b)) as [->|Hne].
  - by rewrite decide_False, decide_True by done.
  - by rewrite (decide_False (P := b = b')) by congruence.
Qed.

Lemma set_child_slots n b c c' :
  a_nodeType n = artNode4 ∨ a_nodeType n = artNode16 → slots_wf n → alookup b (a_keys n) (a_children n) = Some c →
  let n' := with_children n (a_nodeType n) (a_keys n) (<[default 0 (pos_of b (a_keys n)) := Some c']> (a_children n)) (a_index n) in
  slots_wf n' ∧ (∀ b', kids n' b' = kids_upd b (Some c') (kids n) b') ∧ a_children n' ≠ [].
Proof.
  intros Ht Hsl Hb n'. destruct (slots_split n b c Hsl Hb) as (k1 & k2 & c1 & c2 & Hk & Hc & Hl & Hn1 & Hn2 & Hpos).
  pose proof Hsl as (Hlen & Hs & Hsome).
  assert (a_children n' = c1 ++ Some c' :: c2) as Hc'.
  { cbn [n' with_children a_children]. rewrite Hpos, Hc. simpl. by rewrite insert_app_r_alt, Nat.sub_diag by done. }
  assert (slots_wf n') as Hsl'.
  { split_and!; [|done|].
    - rewrite Hc'. cbn [n' with_children a_keys]. rewrite Hlen, Hc, !length_app. done.
    - rewrite Hc'. rewrite Hc in Hsome. apply Forall_app in Hsome as [H1 H2]. apply Forall_cons in H2 as [_ H2].
      apply Forall_app. split; [done|]. by constructor. }
  split_and!; [done| |rewrite Hc'; by destruct c1]. intros b'. unfold kids_upd, kids. rewrite !findChild_slots by first [done|apply Hsl'].
  rewrite Hc'. cbn [n' with_children a_keys]. rewrite Hk, Hc, !alookup_mid by done. by case_decide.
Qed.

Lemma set_child_index n b c c' :
  a_nodeType n = artNode48 → index_wf (a_index n) (a_children n) → kids n b = Some c →
  let n' := with_children n (a_nodeType n) (a_keys n) (<[Z.to_nat (a_index n b) := Some c']> (a_children n)) (a_index n) in
  index_wf (a_index n') (a_children n') ∧ (∀ b', kids n' b' = kids_upd b (Some c') (kids n) b') ∧ a_children n' ≠ [].
Proof.
  intros Ht Hi Hb n'. pose proof Hi as [Hv Hinj]. unfold kids in Hb. rewrite findChild_index in Hb by done.
  destruct (decide (a_index n b = artEmptyIndex)) as [|Hne]; [done|]. destruct (Hv b) as [|[Hb0 [x Hx]]]; [done|].
  pose proof (lookup_lt_Some _ _ _ Hx) as Hlt.
  assert (index_wf (a_index n') (a_children n')) as Hi'.
  { split; [|done]. cbn [n' with_children a_index a_children]. intros b'. destruct (Hv b') as [|[H0 [y Hy]]]; [by left|right].
    split; [done|]. rewrite list_lookup_insert. case_decide; [by exists c'|by exists y]. }
  split_and!; [done| |]; [|intros E; apply (f_equal length) in E; cbn [n' with_children a_children] in E; rewrite length_insert in E; simpl in E; lia].
  intros b'. unfold kids_upd, kids. rewrite !findChild_index by done. cbn [n' with_children a_index a_children].
  destruct (decide (b' = b)) as [->|Hne'].
  - rewrite decide_False by done. by rewrite list_lookup_insert_eq by done.
  - destruct (decide (a_index n b' = artEmptyIndex)) as [|Hne2]; [done|]. rewrite list_lookup_insert_ne; [done|].
    intros E. apply Hne'. symmetry. apply Hinj; [|done]. destruct (Hv b') as [|[H0 _]]; [done|]. lia.
Qed.

Lemma set_child_spec n b c c' :
  node_wf n → kids n b = Some c →
  node_wf (set_child n b c') ∧ a_prefix (set_child n b c') = a_prefix n ∧ a_leaf (set_child n b c') = a_leaf n ∧
  (∀ b', kids (set_child n b c') b' = kids_upd b (Some c') (kids n) b') ∧ a_children (set_child n b c') ≠ [].
Proof.
  intros Hw Hb. unfold set_child. destruct Hw as [Ht Hsl Hlt|Ht Hi Hlt|Ht Hl].
  - rewrite decide_True by done. unfold kids in Hb. rewrite findChild_slots in Hb by first [done|apply Hsl].
    destruct (set_child_slots n b c c' Ht Hsl Hb) as (H1 & H2 & H3). split_and!; try done. by apply wf_slots.
  - rewrite decide_False by (rewrite Ht; by intros [|]). rewrite decide_True by done.
    destruct (set_child_index n b c c' Ht Hi Hb) as (H1 & H2 & H3). split_and!; try done. apply wf_index; [done|done|].
    cbn [with_children a_children]. by rewrite length_insert.
  - rewrite decide_False by (rewrite Ht; by intros [|]). rewrite decide_False by (rewrite Ht; done). pose proof (byte_at_lt b).
    split_and!; try done.
    + apply wf_direct; [done|]. cbn [with_children a_children]. by rewrite length_insert.
    + intros b'. unfold kids_upd, kids. rewrite !findChild_direct by (first [done|cbn [with_children a_children]; by rewrite length_insert]).
      cbn [with_children a_children]. case_decide as E; [subst; by rewrite list_lookup_insert_eq by lia|].
      rewrite list_lookup_insert_ne; [done|]. intros ?%byte_at_inj. congruence.
    + intros E. apply (f_equal length) in E. cbn [with_children a_children] in E. rewrite length_insert, Hl in E. done.
Qed.

(** The slots without [b]. *)
Lemma remove_slots n b c :
  a_nodeType n = artNode4 ∨ a_nodeType n = artNode16 → slots_wf n → alookup b (a_keys n) (a_children n) = Some c →
  ∃ i, pos_of b (a_keys n) = Some i ∧ i < length (a_children n) ∧
    let n' := with_children n (a_nodeType n) (take i (a_keys n) ++ drop (i + 1) (a_keys n))
                (take i (a_children n) ++ drop (i + 1) (a_children n)) (a_index n) in
    slots_wf n' ∧ length (a_keys n') < length (a_keys n) ∧ ∀ b', kids n' b' = kids_upd b None (kids n) b'.
Proof.
  intros Ht Hsl Hb. destruct (slots_split n b c Hsl Hb) as (k1 & k2 & c1 & c2 & Hk & Hc & Hl & Hn1 & Hn2 & Hpos).
  pose proof Hsl as (Hlen & Hs & Hsome). exists (length c1). split; [done|]. split; [rewrite Hc, length_app; simpl; lia|]. intros n'.
  assert (a_keys n' = k1 ++ k2) as Ek by (cbn [n' with_children a_keys]; by rewrite Hk, <-Hl, drop_app_add, take_app_length).
  assert (a_children n' = c1 ++ c2) as Ec by (cbn [n' with_children a_children]; by rewrite Hc, drop_app_add, take_app_length).
  assert (slots_wf n') as Hsl'.
  { split_and!; [rewrite Ek, Ec, !length_app| |].
    - rewrite Hk, Hc, !length_app in Hlen. simpl in Hlen. lia.
    - rewrite Ek. rewrite Hk in Hs. apply StronglySorted_app in Hs as (H1 & H2 & [_ H3]%StronglySorted_cons).
      apply StronglySorted_app. split_and!; [|done|done]. intros x y Hx Hy. apply H1; [done|by right].
    - rewrite Ec. rewrite Hc in Hsome. apply Forall_app in Hsome as [H1 [_ H2]%Forall_cons]. by apply Forall_app. }
  split_and!; [done|rewrite Ek, Hk, !length_app; simpl; lia|].
  intros b'. unfold kids_upd, kids. rewrite !findChild_slots by first [done|apply Hsl']. rewrite Ek, Ec, Hk, Hc, alookup_mid by done.
  case_decide as E; [|done]. subst b'. apply alookup_None. set_solver.
Qed.

Lemma removeChild_spec n b c :
  node_wf n → kids n b = Some c →
  ∃ n', removeChild n b = Ret n' ∧ node_wf n' ∧ a_prefix n' = a_prefix n ∧ a_leaf n' = a_leaf n ∧
    ∀ b', kids n' b' = kids_upd b None (kids n) b'.
Proof.
  intros Hw Hb. unfold removeChild. destruct Hw as [Ht Hsl Hlt|Ht Hi Hlt|Ht Hl].
  - rewrite decide_True by done. unfold kids in Hb. rewrite findChild_slots in Hb by first [done|apply Hsl].
    destruct (remove_slots n b c Ht Hsl Hb) as (i & -> & Hi & Hsl' & Hlen & Hk). rewrite decide_True by done.
    eexists. split_and!; try done. apply wf_slots; [done|done|]. cbn [with_children a_nodeType] in *. lia.
  - rewrite decide_False by (rewrite Ht; by intros [|]). rewrite decide_True by done. unfold kids in Hb.
    rewrite findChild_index in Hb by done. destruct (decide (a_index n b = artEmptyIndex)) as [|Hne]; [done|].
    rewrite decide_True by done. pose proof Hi as [Hv Hinj].
    assert (index_wf (upd_index b artEmptyIndex (a_index n)) (a_children n)) as Hi'.
    { unfold upd_index. split.
      - intros b'. case_decide; [by left|apply Hv].
      - intros b1 b2. destruct (decide (b1 = b)) as [->|], (decide (b2 = b)) as [->|]; [done| | |apply Hinj]; intros E HE; congruence. }
    eexists. split_and!; try done; [by apply wf_index|].
    intros b'. unfold kids_upd, kids. rewrite !findChild_index by done. cbn [with_children a_index a_children]. unfold upd_index.
    by repeat case_decide.
  - rewrite decide_False by (rewrite Ht; by intros [|]). rewrite decide_False by (rewrite Ht; done). rewrite decide_True by done.
    pose proof (byte_at_lt b). rewrite decide_True by lia. eexists. split_and!; try done.
    + apply wf_direct; [done|]. cbn [with_children a_children]. by rewrite length_insert.
    + intros b'. unfold kids_upd, kids. rewrite !findChild_direct by (first [done|cbn [with_children a_children]; by rewrite length_insert]).
      cbn [with_children a_children]. case_decide as E; [subst; by rewrite list_lookup_insert_eq by lia|].
      rewrite list_lookup_insert_ne; [done|]. intros ?%byte_at_inj. congruence.
Qed.

(** A node without children has no [kids]. *)
Lemma kids_nil n b : node_wf n → a_children n = [] → kids n b = None.
Proof.
  intros Hw Hn. unfold kids. destruct Hw as [Ht (Hl & _) _|Ht Hi _|Ht Hl].
  - rewrite findChild_slots by done. rewrite Hn. by destruct (a_keys n).
  - rewrite findChild_index by done. rewrite Hn. by case_decide.
  - by rewrite Hn in Hl.
Qed.

Lemma height_child n o c : o ∈ a_children n → o = Some c → height c < height n.
Proof.
  destruct n as [px lf ty ks cs ix]. simpl. intros Hin ->. induction cs as [|x cs IH]; [set_solver|].
  apply elem_of_cons in Hin as [<-|Hin]; simpl; [lia|]. specialize (IH Hin). lia.
Qed.

Lemma kids_height n b c : kids n b = Some c → height c < height n.
Proof.
  unfold kids, findChild, slot_atZ, slot_at. intros H. assert (Some c ∈ a_children n) as Hin; [|by eapply height_child].
  repeat (case_decide || case_match); simplify_eq; by eapply list_elem_of_lookup_2.
Qed.

(** ** The tree *)
Section tree.
(** The keys the tree may hold: without NUL bytes, and none shorter than a
    prefix that two different ones share. *)
Context (U : gostring → Prop).
Context (HU0 : ∀ k, U k → NUL ∉ k).
Context (HUc : ∀ Q k1 k2 k3, U k1 → U k2 → U k3 → k1 ≠ k2 → Q `prefix_of` k1 → Q `prefix_of` k2 → length Q ≤ length k3).

Definition path (P : list ascii) (n : artNode) : list ascii := P ++ default [] (a_prefix n).

(** The child under NUL is the key that ends at the node. *)
Definition end_leaf (Q : list ascii) (c : artNode) : Prop := U Q ∧ a_prefix c = None ∧ ∃ v, a_leaf c = Some (Q, v).

(** [n] is a tree below the path [P]. *)
Inductive art_tree : list ascii → artNode → Prop :=
| tree_leaf P n k v : a_leaf n = Some (k, v) → a_prefix n = None → U k → P `prefix_of` k → art_tree P n
| tree_inner P n k1 k2 :
    a_leaf n = None → node_wf n → U k1 → U k2 → k1 ≠ k2 → path P n `prefix_of` k1 → path P n `prefix_of` k2 →
    (∀ c, kids n NUL = Some c → end_leaf (path P n) c) →
    (∀ b c, b ≠ NUL → kids n b = Some c → art_tree (path P n ++ [b]) c) →
    art_tree P n.

(** The pairs stored below a node. *)
Inductive holds : artNode → gostring → gostring → Prop :=
| holds_leaf n k v : a_leaf n = Some (k, v) → holds n k v
| holds_kid n b c k v : a_leaf n = None → kids n b = Some c → holds c k v → holds n k v.

Lemma holds_leaf_inv n k v k' v' : a_leaf n = Some (k', v') → holds n k v ↔ k = k' ∧ v = v'.
Proof. intros Hn. split; [inversion 1; simplify_eq; done|]. intros [-> ->]. by apply holds_leaf. Qed.

Lemma holds_inner n k v : a_leaf n = None → holds n k v ↔ ∃ b c, kids n b = Some c ∧ holds c k v.
Proof. intros Hn. split; [inversion 1; simplify_eq; eauto|]. intros (b & c & ? & ?). by eapply holds_kid. Qed.

Lemma path_prefix P n : P `prefix_of` path P n.
Proof. by apply prefix_app_r. Qed.

Lemma holds_path P n k v : art_tree P n → holds n k v → U k ∧ P `prefix_of` k ∧ (a_leaf n = None → path P n `prefix_of` k).
Proof.
  intros Ht. revert k v; induction Ht as [P n k' v' Hl Hp HU HP|P n k1 k2 Hl Hw HU1 HU2 Hne HP1 HP2 Hnul Hkids IH]; intros k v.
  - rewrite (holds_leaf_inv _ _ _ _ _ Hl). intros [-> ->]. split_and!; [done|done|congruence].
  - rewrite holds_inner by done. intros (b & c & Hb & Hc).
    assert (U k ∧ path P n `prefix_of` k) as [HU Hp].
    { destruct (decide (b = NUL)) as [->|Hb0].
      - destruct (Hnul c Hb) as (HQ & _ & v' & Hv'). apply (holds_leaf_inv _ _ _ _ _ Hv') in Hc as [-> ->]. done.
      - destruct (IH b c Hb0 Hb k v Hc) as (HU & Hp & _). split; [done|]. by eapply prefix_app_l. }
    split_and!; [done| |done]. etrans; [apply path_prefix|done].
Qed.

(** The byte a key takes at a node with the path [Q]. *)
Definition byte_for (Q : list ascii) (k : gostring) : ascii := default NUL (k !! length Q).

Lemma snoc_prefix (Q : list ascii) b k : Q ++ [b] `prefix_of` k ↔ Q `prefix_of` k ∧ k !! length Q = Some b.
Proof.
  split.
  - intros [k' ->]. split; [rewrite <-app_assoc; by apply prefix_app_r|]. rewrite <-app_assoc. by apply list_lookup_middle.
  - intros [[k' ->] Hk]. rewrite lookup_app_r, Nat.sub_diag in Hk by done. destruct k' as [|x k']; simplify_eq/=.
    exists k'. by rewrite <-app_assoc.
Qed.

Lemma prefix_end (Q k : list ascii) : Q `prefix_of` k → k !! length Q = None → k = Q.
Proof. intros [k' ->] Hk. rewrite lookup_app_r, Nat.sub_diag in Hk by done. destruct k'; [by rewrite app_nil_r|done]. Qed.

(** A stored key is below the child its byte names. *)
Lemma kid_byte P n b c k v :
  art_tree P n → a_leaf n = None → kids n b = Some c → holds c k v → b = byte_for (path P n) k.
Proof.
  intros Ht Hl Hb Hc. destruct Ht as [P n k' v' Hl' _ _ _|P n k1 k2 _ Hw HU1 HU2 Hne HP1 HP2 Hnul Hkids]; [congruence|].
  unfold byte_for. destruct (decide (b = NUL)) as [->|Hb0].
  - destruct (Hnul c Hb) as (_ & _ & v' & Hv'). apply (holds_leaf_inv _ _ _ _ _ Hv') in Hc. destruct Hc as [Hc _].
    rewrite Hc. by rewrite lookup_ge_None_2 by done.
  - by destruct (holds_path _ _ _ _ (Hkids b c Hb0 Hb) Hc) as (_ & [_ ->]%snoc_prefix & _).
Qed.

Lemma holds_byte P n k v :
  art_tree P n → a_leaf n = None → holds n k v ↔ ∃ c, kids n (byte_for (path P n) k) = Some c ∧ holds c k v.
Proof.
  intros Ht Hl. rewrite holds_inner by done. split; [|intros (c & ? & ?); eauto]. intros (b & c & Hb & Hc).
  exists c. by rewrite <-(kid_byte P n b c k v).
Qed.

Lemma prefix_take (px r : list ascii) : px `prefix_of` r ↔ take (length px) r = px.
Proof.
  split; [intros [r' ->]; apply take_app_length|]. intros H. exists (drop (length px) r). rewrite <-(take_drop (length px) r) at 1. by rewrite H.
Qed.

Lemma skip_prefix_spec P n key :
  P `prefix_of` key → skip_prefix n key (length P) = if decide (path P n `prefix_of` key) then Some (length (path P n)) else None.
Proof.
  intros [r ->]. unfold skip_prefix, path. destruct (a_prefix n) as [px|]; simpl.
  - rewrite drop_app_length, !length_app. destruct (decide (P ++ px `prefix_of` P ++ r)) as [Hp|Hp].
    + apply prefix_app_inv in Hp. rewrite decide_False; [done|]. rewrite (proj1 (prefix_take px r) Hp).
      apply prefix_length in Hp. intros [|]; [lia|done].
    + rewrite decide_True; [done|]. right. intros Hx%prefix_take. apply Hp. by apply prefix_app.
  - rewrite app_nil_r. rewrite decide_True by (by apply prefix_app_r). done.
Qed.

(** ** Get *)
Lemma Get_loop_spec P n key fuel :
  art_tree P n → P `prefix_of` key → height n ≤ fuel →
  ∃ r, Get_loop fuel n key (length P) = Ret r ∧ ∀ v, r = Some v ↔ holds n key v.
Proof.
  intros Ht. revert fuel; induction Ht as [P n k' v' Hl Hp HU HP|P n k1 k2 Hl Hw HU1 HU2 Hne HP1 HP2 Hnul Hkids IH];
    intros [|f] HPk Hf; try (destruct n; simpl in Hf; lia); cbn [Get_loop]; rewrite Hl.
  - eexists. split; [done|]. intros v. rewrite (holds_leaf_inv _ _ _ _ _ Hl). case_decide; naive_solver.
  - assert (art_tree P n) as Ht by by apply (tree_inner P n k1 k2). rewrite skip_prefix_spec by done.
    destruct (decide (path P n `prefix_of` key)) as [HQ|HQ].
    2:{ exists None. split; [done|]. intros v. split; [done|]. intros Hh. destruct HQ. by apply (holds_path _ _ _ _ Ht Hh). }
    assert (∀ b c, kids n b = Some c → height c ≤ f) as Hh by (intros b c Hb%kids_height; lia).
    setoid_rewrite (holds_byte P n key _ Ht Hl). unfold byte_for. destruct (key !! length (path P n)) as [b|] eqn:Ek; simpl.
    + rewrite findChild_kids by done. cbn [mbind go_bind]. destruct (kids n b) as [c|] eqn:Eb; [|exists None; naive_solver].
      destruct (decide (b = NUL)) as [->|Hb0].
      * destruct (Hnul c Eb) as (HUQ & _ & v0 & Hc). pose proof (Hh _ _ Eb). destruct f as [|f]; [destruct c; simpl in *; lia|].
        cbn [Get_loop]. rewrite Hc. eexists. split; [done|]. intros v. rewrite decide_False.
        { split; [done|]. intros (? & [= <-] & [-> _]%(holds_leaf_inv _ _ _ _ _ Hc)). by rewrite lookup_ge_None_2 in Ek by done. }
        intros <-. by rewrite lookup_ge_None_2 in Ek by done.
      * destruct (IH b c Hb0 Eb f) as (r & Er & Hr); [by apply snoc_prefix|by eapply Hh|].
        rewrite length_app in Er. simpl in Er. exists r. split; [done|]. intros v. rewrite Hr. naive_solver.
    + rewrite findChild_kids by done. cbn [mbind go_bind]. destruct (kids n NUL) as [c|] eqn:Eb; [|exists None; naive_solver].
      destruct (Hnul c eq_refl) as (HUQ & _ & v0 & Hc). pose proof (Hh _ _ Eb). destruct f as [|f]; [destruct c; simpl in *; lia|].
      cbn [Get_loop]. rewrite Hc. eexists. split; [done|]. intros v. rewrite decide_True by (symmetry; by apply prefix_end).
      split; [intros [= <-]; exists c; split; [done|]; rewrite (prefix_end _ _ HQ Ek); by apply holds_leaf|].
      intros (? & [= <-] & [_ ->]%(holds_leaf_inv _ _ _ _ _ Hc)). done.
Qed.

Lemma holds_fun P n k v v' : art_tree P n → P `prefix_of` k → holds n k v → holds n k v' → v = v'.
Proof.
  intros Ht HP H1 H2. destruct (Get_loop_spec P n k (height n) Ht HP) as (r & _ & Hr); [done|].
  apply Hr in H1, H2. congruence.
Qed.

(** ** Replacing a child of a tree *)
Definition child_ok (Q : list ascii) (b : ascii) (c : artNode) : Prop := if decide (b = NUL) then end_leaf Q c else art_tree (Q ++ [b]) c.

Lemma tree_update P n n' b o :
  art_tree P n → a_leaf n = None → node_wf n' → a_prefix n' = a_prefix n → a_leaf n' = None →
  (∀ b', kids n' b' = kids_upd b o (kids n) b') → (∀ c', o = Some c' → child_ok (path P n) b c') → art_tree P n'.
Proof.
  intros Ht Hl Hw Hp Hl' Hk Hc. destruct Ht as [P n k' v' Hl'' _ _ _|P n k1 k2 _ Hw0 HU1 HU2 Hne HP1 HP2 Hnul Hkids]; [congruence|].
  assert (path P n' = path P n) as Ep by (unfold path; by rewrite Hp).
  apply (tree_inner P n' k1 k2); rewrite ?Ep; try done.
  - intros c. rewrite Hk. unfold kids_upd. case_decide as E; [|apply Hnul]. intros ->. specialize (Hc c eq_refl). unfold child_ok in Hc.
    by rewrite decide_True in Hc.
  - intros b' c Hb'. rewrite Hk. unfold kids_upd. case_decide as E; [|by apply Hkids]. intros ->. specialize (Hc c eq_refl).
    unfold child_ok in Hc. subst b'. by rewrite decide_False in Hc.
Qed.

(** What changes when only the child of [key]'s byte does; [R] is what the new
    tree holds for [key]. *)
Lemma holds_update P n n' key o (R : gostring → Prop) :
  art_tree P n → a_leaf n = None → a_leaf n' = None →
  (∀ b', kids n' b' = kids_upd (byte_for (path P n) key) o (kids n) b') →
  (∀ k v, (∃ c', o = Some c' ∧ holds c' k v) ↔
     if decide (k = key) then R v else ∃ c, kids n (byte_for (path P n) key) = Some c ∧ holds c k v) →
  ∀ k v, holds n' k v ↔ if decide (k = key) then R v else holds n k v.
Proof.
  intros Ht Hl Hl' Hk Ho k v. rewrite (holds_inner n') by done. specialize (Ho k v). split.
  - intros (b & c & Hb & Hc). rewrite Hk in Hb. unfold kids_upd in Hb. destruct (decide (b = byte_for (path P n) key)) as [->|Hne].
    + assert (∃ c', o = Some c' ∧ holds c' k v) as H by eauto. apply Ho in H. case_decide; [done|].
      destruct H as (c0 & ? & ?). apply holds_inner; eauto.
    + case_decide as E; [subst k; by rewrite (kid_byte P n b c key v) in Hne by done|]. apply holds_inner; eauto.
  - intros H. destruct (decide (k = key)) as [->|Hne].
    + apply Ho in H as (c' & -> & Hc'). exists (byte_for (path P n) key), c'. rewrite Hk. unfold kids_upd. by rewrite decide_True.
    + apply holds_inner in H as (b & c & Hb & Hc); [|done]. destruct (decide (b = byte_for (path P n) key)) as [->|Hb'].
      * destruct (proj2 Ho) as (c' & -> & Hc'); [by exists c|]. exists (byte_for (path P n) key), c'. rewrite Hk. unfold kids_upd. by rewrite decide_True.
      * exists b, c. rewrite Hk. unfold kids_upd. by rewrite decide_False.
Qed.

(** A fresh node with two children. *)
Lemma two_children n1 b1 b2 c1 c2 :
  a_nodeType n1 = artNode4 → a_keys n1 = [] → a_children n1 = [] → b1 ≠ b2 →
  ∃ n3, (n2 ← addChild n1 b1 c1; addChild n2 b2 c2) = Ret n3 ∧ node_wf n3 ∧ a_prefix n3 = a_prefix n1 ∧ a_leaf n3 = a_leaf n1 ∧
    ∀ b, kids n3 b = if decide (b = b2) then Some c2 else if decide (b = b1) then Some c1 else None.
Proof.
  intros Ht Hk Hc Hne. assert (node_wf n1) as Hw.
  { apply wf_slots; [by left| |rewrite Hk, Ht; unfold artNode4; simpl; lia]. split_and!; rewrite ?Hk, ?Hc; [done|constructor|constructor]. }
  assert (∀ b, kids n1 b = None) as Hn by (intros b; by apply kids_nil).
  destruct (addChild_spec n1 b1 c1 Hw (Hn b1)) as (n2 & -> & Hw2 & Hp2 & Hl2 & Hk2). cbn [mbind go_bind].
  destruct (addChild_spec n2 b2 c2 Hw2) as (n3 & -> & Hw3 & Hp3 & Hl3 & Hk3).
  { rewrite Hk2. unfold kids_upd. by rewrite decide_False by done. }
  exists n3. split_and!; [done|done|congruence|congruence|]. intros b. rewrite Hk3. unfold kids_upd. rewrite Hk2. unfold kids_upd.
  rewrite Hn. done.
Qed.

Lemma leafNode_tree P key value : U key → P `prefix_of` key → art_tree P (leafNode key value).
Proof. intros. by apply (tree_leaf P _ key value). Qed.

(** The tree of a new leaf, below the byte of its key. *)
Lemma leafNode_child Q key value : U key → Q `prefix_of` key → child_ok Q (byte_for Q key) (leafNode key value).
Proof.
  intros HU HQ. unfold child_ok. destruct (decide (byte_for Q key = NUL)) as [Hb|Hb]; unfold byte_for in Hb;
    destruct (key !! length Q) as [b|] eqn:E; simpl in Hb.
  - apply list_elem_of_lookup_2 in E. subst b. by apply (HU0 key) in E.
  - rewrite <-(prefix_end Q key HQ E). split_and!; [done|done|by exists value].
  - unfold byte_for. rewrite E. apply leafNode_tree; [done|]. by apply snoc_prefix.
  - done.
Qed.

Lemma tree_inner_ok P n k1 k2 :
  a_leaf n = None → node_wf n → U k1 → U k2 → k1 ≠ k2 → path P n `prefix_of` k1 → path P n `prefix_of` k2 →
  (∀ b c, kids n b = Some c → child_ok (path P n) b c) → art_tree P n.
Proof.
  intros Hl Hw HU1 HU2 Hne HP1 HP2 Hc. apply (tree_inner P n k1 k2); try done.
  - intros c Hk. specialize (Hc _ _ Hk). unfold child_ok in Hc. by rewrite decide_True in Hc.
  - intros b c Hb Hk. specialize (Hc _ _ Hk). unfold child_ok in Hc. by rewrite decide_False in Hc.
Qed.

(** ** Set *)
Definition set_in (n n' : artNode) (key value : gostring) : Prop :=
  ∀ k v, holds n' k v ↔ if decide (k = key) then v = value else holds n k v.

Lemma common_spec (a b : list ascii) :
  ∃ p ra rb, a = p ++ ra ∧ b = p ++ rb ∧ common a b = length p ∧ (ra ≠ [] ∨ rb ≠ [] → ra !! 0 ≠ rb !! 0).
Proof.
  revert b; induction a as [|x a IH]; intros [|y b]; cbn [common].
  - exists [], [], []. split_and!; [done..|]. intros [|]; done.
  - exists [], [], (y :: b). done.
  - exists [], (x :: a), []. done.
  - case_decide as E; [|exists [], (x :: a), (y :: b); split_and!; [done..|]; intros _ [=]; done].
    subst y. destruct (IH b) as (p & ra & rb & -> & -> & -> & H). by exists (x :: p), ra, rb.
Qed.

Lemma byte_for_ne Q k k' : U k → U k' → k !! length Q ≠ k' !! length Q → byte_for Q k ≠ byte_for Q k'.
Proof.
  intros HU HU' Hne. unfold byte_for. destruct (k !! length Q) as [b|] eqn:E, (k' !! length Q) as [b'|] eqn:E'; simpl; [congruence| |  |done].
  - intros ->. apply list_elem_of_lookup_2 in E. by apply (HU0 k).
  - intros <-. apply list_elem_of_lookup_2 in E'. by apply (HU0 k').
Qed.

Lemma splitLeaf_spec P n k0 v0 key value :
  a_leaf n = Some (k0, v0) → a_prefix n = None → U k0 → U key → k0 ≠ key → P `prefix_of` k0 → P `prefix_of` key →
  ∃ n', splitLeaf n k0 v0 (length P) key value = Ret n' ∧ art_tree P n' ∧ set_in n n' key value.
Proof.
  intros Hl Hpx HU0' HUk Hne [a Ha] [b Hb]. unfold splitLeaf, lcp.
  destruct (common_spec a b) as (p & ra & rb & Ea & Eb & Ec & Hd).
  assert (common (drop (length P) k0) (drop (length P) key) = length p) as -> by (rewrite Ha, Hb, !drop_app_length; done).
  set (Q := P ++ p). assert (length P + length p = length Q) as -> by (unfold Q; by rewrite length_app).
  assert (k0 = Q ++ ra) as Hk0 by (unfold Q; rewrite <-app_assoc, <-Ea; done).
  assert (key = Q ++ rb) as Hkey by (unfold Q; rewrite <-app_assoc, <-Eb; done).
  assert (byte_for Q k0 ≠ byte_for Q key) as Hby.
  { apply byte_for_ne; [done|done|]. rewrite Hk0, Hkey, !lookup_app_r, Nat.sub_diag by done. apply Hd.
    destruct ra; [right|by left]. intros ->. congruence. }
  set (n1 := mkArt _ None _ [] [] _). cbv zeta. fold (byte_for Q k0) (byte_for Q key).
  destruct (two_children n1 (byte_for Q k0) (byte_for Q key) (leafNode k0 v0) (leafNode key value)) as (n3 & -> & Hw & Hp & Hl3 & Hk); [done..|].
  assert (path P n3 = Q) as HQ.
  { unfold path. rewrite Hp. cbn [n1 a_prefix]. rewrite Hpx. unfold Q. f_equal. destruct p as [|x p]; [done|].
    rewrite decide_True by (simpl; lia). cbn [from_option id]. rewrite Ha at 1. rewrite drop_app_length, Ea. apply (take_app_length (x :: p)). }
  exists n3. split_and!; [done| |].
  - apply (tree_inner_ok P n3 k0 key); rewrite ?HQ; try done; [rewrite Hk0; by apply prefix_app_r|rewrite Hkey; by apply prefix_app_r|].
    intros b' c. rewrite Hk. repeat case_decide; [intros [= <-]; subst b'|intros [= <-]; subst b'|done].
    + apply leafNode_child; [done|rewrite Hkey; by apply prefix_app_r].
    + apply leafNode_child; [done|rewrite Hk0; by apply prefix_app_r].
  - intros k v. rewrite (holds_inner n3) by done. pose proof (holds_leaf_inv n k v _ _ Hl) as Hlv. split.
    + intros (b' & c & Hc & Hh). rewrite Hk in Hc. destruct (decide (b' = byte_for Q key)); [|destruct (decide (b' = byte_for Q k0)); [|done]];
        injection Hc as <-; inversion Hh; simplify_eq/=; [by rewrite decide_True|]. rewrite decide_False by done. by apply Hlv.
    + case_decide as E; [intros ->; subst k; exists (byte_for Q key), (leafNode key value); rewrite Hk; rewrite decide_True by done; split; [done|by apply holds_leaf]|].
      intros [-> ->]%Hlv. exists (byte_for Q k0), (leafNode k0 v0). rewrite Hk, decide_False, decide_True by done. split; [done|by apply holds_leaf].
Qed.

Lemma kids_same n n' :
  a_nodeType n' = a_nodeType n → a_keys n' = a_keys n → a_children n' = a_children n → a_index n' = a_index n →
  (∀ b, kids n' b = kids n b) ∧ (node_wf n → node_wf n').
Proof.
  intros Ht Hk Hc Hi. split; [intros b; unfold kids, findChild; by rewrite Ht, Hk, Hc, Hi|].
  destruct 1 as [? ? ?|? ? ?|? ?]; [apply wf_slots|apply wf_index|apply wf_direct]; unfold slots_wf in *; by rewrite ?Ht, ?Hk, ?Hc, ?Hi.
Qed.

Lemma holds_same n n' k v : a_leaf n = None → a_leaf n' = None → (∀ b, kids n' b = kids n b) → holds n' k v ↔ holds n k v.
Proof. intros Hl Hl' Hk. rewrite !holds_inner by done. by setoid_rewrite Hk. Qed.

(** The node moved below the byte [cb] of its prefix [p ++ cb :: ra]. *)
Lemma shorten_prefix P n p cb ra :
  art_tree P n → a_leaf n = None → a_prefix n = Some (p ++ cb :: ra) →
  let m := mkArt (if decide (length p + 1 < length (p ++ cb :: ra)) then Some (drop (length p + 1) (p ++ cb :: ra)) else None)
             (a_leaf n) (a_nodeType n) (a_keys n) (a_children n) (a_index n) in
  art_tree ((P ++ p) ++ [cb]) m ∧ (∀ k v, holds m k v ↔ holds n k v) ∧ cb ≠ NUL ∧ ∃ k1, U k1 ∧ P ++ p ++ cb :: ra `prefix_of` k1.
Proof.
  intros Ht Hl Hpx m. destruct (kids_same n m) as [Hk Hwm]; [done..|].
  destruct Ht as [P n k' v' Hl'' _ _ _|P n k1 k2 _ Hw HU1 HU2 Hne HP1 HP2 Hnul Hkids]; [congruence|].
  assert (path P n = P ++ p ++ cb :: ra) as HQ by (unfold path; by rewrite Hpx).
  assert (path ((P ++ p) ++ [cb]) m = path P n) as HQm.
  { unfold path at 1. assert (default [] (a_prefix m) = ra) as ->.
    { cbn [m a_prefix]. rewrite drop_app_add, length_app. cbn [drop]. rewrite drop_0. case_decide as E; [done|].
      destruct ra; [done|simpl in E; lia]. }
    rewrite HQ, <-!app_assoc. done. }
  split_and!.
  - apply (tree_inner _ m k1 k2); rewrite ?HQm; try done. by apply Hwm.
  - intros k v. by apply holds_same.
  - intros ->. apply (HU0 k1 HU1). destruct HP1 as [r ->]. rewrite HQ. set_solver.
  - exists k1. by rewrite <-HQ.
Qed.

Lemma splitPrefixAt_spec P n px key value :
  art_tree P n → a_leaf n = None → a_prefix n = Some px → U key → P `prefix_of` key → length P + length px ≤ length key →
  let mismatch := common px (drop (length P) key) in mismatch < length px →
  ∃ n', splitPrefixAt n px (length P) mismatch key value = Ret n' ∧ art_tree P n' ∧ set_in n n' key value.
Proof.
  intros Ht Hl Hpx HUk [r Hr] Hlen. destruct (common_spec px r) as (p & ra & rb & Ea & Eb & Ec & Hd).
  rewrite Hr, drop_app_length, <-Hr. rewrite Ec. intros mis Hm. subst mis. rewrite Ea, length_app in Hm. rewrite Hr, Ea, Eb, !length_app in Hlen.
  destruct ra as [|cb ra]; [simpl in Hm; lia|]. destruct rb as [|nb rb]; [simpl in Hlen; lia|].
  assert (cb ≠ nb) as Hne by (intros ->; by apply Hd; [left|]). subst px. clear Hd Ec Hm Hlen.
  destruct (shorten_prefix P n p cb ra Ht Hl Hpx) as (Htm & Hhm & Hcb & k1 & HU1 & HP1).
  unfold splitPrefixAt. rewrite list_lookup_middle by done. cbv zeta. set (m := mkArt _ (a_leaf n) _ _ _ _) in *.
  set (Q := P ++ p) in *. assert (key = Q ++ nb :: rb) as Hkey by (unfold Q; rewrite <-app_assoc, <-Eb; done).
  assert (length P + length p = length Q) as -> by (unfold Q; by rewrite length_app). fold (byte_for Q key).
  assert (byte_for Q key = nb) as Hnb by (unfold byte_for; rewrite Hkey; by rewrite list_lookup_middle).
  set (n1 := mkArt _ None _ [] [] _). rewrite Hnb.
  destruct (two_children n1 cb nb m (leafNode key value)) as (n3 & -> & Hw & Hp & Hl3 & Hk); [done..|].
  assert (path P n3 = Q) as HQ.
  { unfold path. rewrite Hp. cbn [n1 a_prefix]. unfold Q. f_equal. rewrite take_app_length. by destruct p. }
  assert (Q `prefix_of` key) as HQk by (rewrite Hkey; by apply prefix_app_r).
  assert (∀ v, ¬ holds n key v) as Hno.
  { intros v Hh. destruct (holds_path _ _ _ _ Ht Hh) as (_ & _ & Hx). specialize (Hx Hl). unfold path in Hx. rewrite Hpx in Hx.
    cbn [from_option id] in Hx. rewrite app_assoc in Hx. fold Q in Hx. rewrite Hkey in Hx. apply prefix_app_inv in Hx.
    apply prefix_cons_inv_1 in Hx. done. }
  exists n3. split_and!; [done| |].
  - apply (tree_inner_ok P n3 k1 key); rewrite ?HQ; try done.
    + intros ->. rewrite app_assoc in HP1. fold Q in HP1. rewrite Hkey in HP1. apply prefix_app_inv, prefix_cons_inv_1 in HP1. done.
    + etrans; [|exact HP1]. rewrite app_assoc. by apply prefix_app_r.
    + intros b c. rewrite Hk. repeat case_decide; [intros [= <-]; subst b|intros [= <-]; subst b|done].
      * rewrite <-Hnb. by apply leafNode_child.
      * unfold child_ok. by rewrite decide_False.
  - intros k v. rewrite (holds_inner n3) by done. split.
    + intros (b & c & Hc & Hh). rewrite Hk in Hc. destruct (decide (b = nb)); [|destruct (decide (b = cb)); [|done]]; injection Hc as <-.
      * inversion Hh; simplify_eq/=; by rewrite decide_True.
      * apply Hhm in Hh. case_decide as E; [subst k; by apply Hno in Hh|done].
    + case_decide as E; [intros ->; subst k; exists nb, (leafNode key value); rewrite Hk, decide_True by done; split; [done|by apply holds_leaf]|].
      intros Hh. exists cb, m. rewrite Hk, decide_False, decide_True by done. split; [done|]. by apply Hhm.
Qed.

Lemma tree_wf P n : art_tree P n → a_leaf n = None → node_wf n.
Proof. intros Ht Hl. destruct Ht; [congruence|done]. Qed.

(** Putting a new leaf, or a changed child, below the byte of [key]. *)
Lemma add_leaf_spec P n key value :
  art_tree P n → a_leaf n = None → U key → path P n `prefix_of` key → kids n (byte_for (path P n) key) = None →
  ∃ n', addChild n (byte_for (path P n) key) (leafNode key value) = Ret n' ∧ art_tree P n' ∧ set_in n n' key value.
Proof.
  intros Ht Hl HU HQ Hb. destruct (addChild_spec n _ (leafNode key value) (tree_wf P n Ht Hl) Hb) as (n' & -> & Hw & Hp & Hl' & Hk).
  exists n'. rewrite Hl in Hl'. split_and!; [done| |].
  - eapply tree_update; [exact Ht|done|done|done|done|exact Hk|]. intros c' [= <-]. by apply leafNode_child.
  - intros k v. rewrite (holds_update P n n' key _ (λ v, v = value) Ht Hl Hl' Hk); [done|]. intros k' v'. rewrite Hb. split.
    + intros (c' & [= <-] & Hh). inversion Hh; simplify_eq/=. by rewrite decide_True.
    + case_decide; [|by intros (? & ? & _)]. intros ->. subst k'. exists (leafNode key value). split; [done|by apply holds_leaf].
Qed.

Lemma change_child_spec P n key value c c' :
  art_tree P n → a_leaf n = None → kids n (byte_for (path P n) key) = Some c →
  child_ok (path P n) (byte_for (path P n) key) c' → set_in c c' key value →
  art_tree P (set_child n (byte_for (path P n) key) c') ∧ set_in n (set_child n (byte_for (path P n) key) c') key value.
Proof.
  intros Ht Hl Hb Hc Hs. destruct (set_child_spec n _ c c' (tree_wf P n Ht Hl) Hb) as (Hw & Hp & Hl' & Hk & _). rewrite Hl in Hl'. split.
  - eapply tree_update; [exact Ht|done|done|done|done|exact Hk|]. by intros ? [= <-].
  - intros k v. rewrite (holds_update P n _ key _ (λ v, v = value) Ht Hl Hl' Hk); [done|]. intros k' v'. rewrite Hb. split.
    + intros (? & [= <-] & Hh). apply Hs in Hh. case_decide; [done|by exists c].
    + intros H. exists c'. split; [done|]. apply Hs. case_decide; [done|]. by destruct H as (? & [= <-] & ?).
Qed.

Lemma Set_child_spec P n key value rec :
  art_tree P n → a_leaf n = None → U key → path P n `prefix_of` key →
  (∀ b c, b ≠ NUL → kids n b = Some c → path P n ++ [b] `prefix_of` key →
     ∃ c', rec c (length (path P n) + 1) = Ret c' ∧ art_tree (path P n ++ [b]) c' ∧ set_in c c' key value) →
  ∃ n', Set_child rec n (length (path P n)) key value = Ret n' ∧ art_tree P n' ∧ set_in n n' key value.
Proof.
  intros Ht Hl HU HQ Hrec. pose proof (add_leaf_spec P n key value Ht Hl HU HQ) as Hadd.
  pose proof (change_child_spec P n key value) as Hchg. unfold Set_child. unfold byte_for in Hadd, Hchg.
  destruct (key !! length (path P n)) as [b|] eqn:Ek; cbn [from_option id] in Hadd, Hchg;
    rewrite (findChild_kids _ _ (tree_wf P n Ht Hl)); cbn [mbind go_bind].
  - assert (b ≠ NUL) as Hb0 by (intros ->; apply list_elem_of_lookup_2 in Ek; by apply (HU0 key)).
    destruct (kids n b) as [c|] eqn:Eb; [|by apply Hadd].
    destruct (Hrec b c Hb0 Eb) as (c' & -> & Htc & Hs); [by apply snoc_prefix|]. cbn [mbind go_bind]. eexists. split; [done|].
    apply (Hchg c); [done|done|done| |done]. unfold child_ok. by rewrite decide_False.
  - destruct (kids n NUL) as [c|] eqn:Eb; [|by apply Hadd]. pose proof (prefix_end _ _ HQ Ek) as Hkey.
    assert (end_leaf (path P n) c) as (HUQ & Hpc & v0 & Hlc) by (destruct Ht as [|P n k1 k2 ? ? ? ? ? ? ? Hnul ?]; [congruence|by apply Hnul]).
    rewrite Hlc, decide_True by done. eexists. split; [done|]. apply (Hchg c); [done|done|done| |].
    + unfold child_ok. rewrite decide_True by done. split_and!; [done|done|by exists value].
    + intros k v. rewrite (holds_leaf_inv _ _ _ _ _ (eq_refl : a_leaf (set_value c (path P n) value) = Some (path P n, value))).
      pose proof (holds_leaf_inv c k v _ _ Hlc). case_decide; naive_solver.
Qed.

Lemma Set_loop_spec P n key value fuel :
  art_tree P n → U key → P `prefix_of` key → height n ≤ fuel →
  ∃ n', Set_loop fuel n key value (length P) = Ret n' ∧ art_tree P n' ∧ set_in n n' key value.
Proof.
  intros Ht HUk. revert fuel; induction Ht as [P n k' v' Hl Hp HU HP|P n k1 k2 Hl Hw HU1 HU2 Hne HP1 HP2 Hnul Hkids IH];
    intros [|f] HPk Hf; try (destruct n; simpl in Hf; lia); cbn [Set_loop]; rewrite Hl.
  - destruct (decide (k' = key)) as [->|Hne]; [|by apply splitLeaf_spec]. eexists. split; [done|]. split; [by apply (tree_leaf P _ key value)|].
    intros k v. rewrite (holds_leaf_inv _ _ _ _ _ (eq_refl : a_leaf (set_value n key value) = Some (key, value))).
    pose proof (holds_leaf_inv n k v _ _ Hl). case_decide; naive_solver.
  - assert (art_tree P n) as Ht by by apply (tree_inner P n k1 k2).
    assert (path P n `prefix_of` key →
      ∃ n', Set_child (λ c d, Set_loop f c key value d) n (length (path P n)) key value = Ret n' ∧ art_tree P n' ∧ set_in n n' key value) as Hch.
    { intros HQ. apply Set_child_spec; [done..|]. intros b c Hb0 Eb HQb. destruct (IH b c Hb0 Eb f HQb) as (c' & E & ? & ?).
      - apply kids_height in Eb. lia.
      - rewrite length_app in E. by exists c'. }
    pose proof (HUc (path P n) k1 k2 key HU1 HU2 HUk Hne HP1 HP2) as Hlen. unfold path in Hch, Hlen.
    destruct (a_prefix n) as [px|] eqn:Epx; cbn [from_option id] in Hch, Hlen; rewrite ?app_nil_r in Hch; [|by apply Hch].
    rewrite length_app in Hch, Hlen. rewrite decide_False by lia. cbv zeta. case_decide as Hm.
    + by apply splitPrefixAt_spec.
    + apply Hch. destruct HPk as [r ->]. rewrite drop_app_length in Hm. apply prefix_app.
      destruct (common_spec px r) as (p & ra & rb & -> & -> & Ec & _). rewrite Ec, length_app in Hm.
      destruct ra; [rewrite app_nil_r; by apply prefix_app_r|simpl in Hm; lia].
Qed.

(** ** Del *)
Lemma delNode_leaf fuel n k v key depth : a_leaf n = Some (k, v) → height n ≤ fuel → delNode fuel n key depth = Ret (n, bool_decide (k = key)).
Proof. intros Hl Hf. destruct fuel as [|f]; [destruct n; simpl in Hf; lia|]. cbn [delNode]. by rewrite Hl. Qed.

(** [n'] is [n] without [key]; when the node is given up nothing else was there. *)
Definition del_in (P : list ascii) (n n' : artNode) (gone : bool) (key : gostring) : Prop :=
  if gone then ∀ k v, holds n k v → k = key
  else art_tree P n' ∧ ∀ k v, holds n' k v ↔ if decide (k = key) then False else holds n k v.

(** The node once the child [c] of the byte of [key] became [c']. *)
Lemma del_child_spec P n key c c' gone Pc :
  art_tree P n → a_leaf n = None → kids n (byte_for (path P n) key) = Some c → del_in Pc c c' gone key →
  (gone = false → child_ok (path P n) (byte_for (path P n) key) c') →
  ∃ n2, (if gone then removeChild (set_child n (byte_for (path P n) key) c') (byte_for (path P n) key)
         else Ret (set_child n (byte_for (path P n) key) c')) = Ret n2 ∧
    del_in P n n2 (bool_decide (length (a_children n2) = 0)) key.
Proof.
  intros Ht Hl Hb Hdel Hok. destruct (set_child_spec n _ c c' (tree_wf P n Ht Hl) Hb) as (Hw & Hp & Hl' & Hk & Hne). rewrite Hl in Hl'.
  destruct gone.
  - destruct (removeChild_spec (set_child n (byte_for (path P n) key) c') (byte_for (path P n) key) c' Hw) as (n2 & E & Hw2 & Hp2 & Hl2 & Hk2).
    { rewrite Hk. unfold kids_upd. by rewrite decide_True. }
    exists n2. split; [done|]. rewrite Hl' in Hl2. rewrite Hp in Hp2.
    assert (∀ b', kids n2 b' = kids_upd (byte_for (path P n) key) None (kids n) b') as Hk3.
    { intros b'. rewrite Hk2. unfold kids_upd. case_decide; [done|]. rewrite Hk. unfold kids_upd. by rewrite decide_False. }
    assert (∀ k v, holds n2 k v ↔ if decide (k = key) then False else holds n k v) as Hh.
    { apply (holds_update P n n2 key None (λ _, False)); [done..|]. intros k v. rewrite Hb. split; [by intros (? & ? & _)|].
      case_decide; [done|]. intros (? & [= <-] & Hc). by apply Hdel in Hc. }
    unfold del_in. case_bool_decide as Hz.
    + intros k v Hn. destruct (decide (k = key)); [done|]. assert (holds n2 k v) as Hn2 by (apply Hh; by rewrite decide_False).
      apply holds_inner in Hn2 as (b & x & Hx & _); [|done]. apply nil_length_inv in Hz. by rewrite (kids_nil n2 b Hw2 Hz) in Hx.
    + split; [|done]. by eapply tree_update with (o := None).
  - exists (set_child n (byte_for (path P n) key) c'). split; [done|]. unfold del_in.
    rewrite bool_decide_eq_false_2 by (intros Hz; by apply nil_length_inv in Hz). destruct Hdel as [_ Hdel]. split.
    + eapply tree_update; [exact Ht|done|done|done|done|exact Hk|]. intros ? [= <-]. by apply Hok.
    + apply (holds_update P n _ key (Some c') (λ _, False)); [done..|]. intros k v. rewrite Hb. split.
      * intros (? & [= <-] & Hc). apply Hdel in Hc. case_decide; [done|by exists c].
      * intros H. exists c'. split; [done|]. apply Hdel. case_decide; [done|]. by destruct H as (? & [= <-] & ?).
Qed.

(** A child under NUL is a leaf whose key ends at the node. *)
Lemma tree_nul P n c : art_tree P n → a_leaf n = None → kids n NUL = Some c → end_leaf (path P n) c.
Proof. intros Ht Hl. destruct Ht as [|P n k1 k2 ? ? ? ? ? ? ? Hnul ?]; [congruence|apply Hnul]. Qed.

Lemma end_leaf_del Q c key fuel depth :
  end_leaf Q c → height c ≤ fuel →
  delNode fuel c key depth = Ret (c, bool_decide (Q = key)) ∧ del_in Q c c (bool_decide (Q = key)) key.
Proof.
  intros (HU & Hp & v & Hl) Hf. split; [by eapply delNode_leaf|]. unfold del_in. case_bool_decide as E.
  - intros k v'. rewrite (holds_leaf_inv _ _ _ _ _ Hl). naive_solver.
  - split; [by apply (tree_leaf Q c Q v)|]. intros k v'. case_decide as Ek; [|done]. rewrite (holds_leaf_inv _ _ _ _ _ Hl). split; [intros [-> _]; by destruct E|done].
Qed.

(** Nothing to delete: the key is not there and the tree stays as it is. *)
Lemma del_absent P n key : art_tree P n → (∀ v, ¬ holds n key v) → del_in P n n false key.
Proof. intros Ht Hn. split; [done|]. intros k v. case_decide as E; [subst k; split; [apply Hn|done]|done]. Qed.

Lemma del_fallback P n key c :
  art_tree P n → a_leaf n = None → kids n (byte_for (path P n) key) = None → kids n NUL = Some c →
  del_in P n (set_child n NUL c) (bool_decide (length (a_children (set_child n NUL c)) = 0)) key.
Proof.
  intros Ht Hl Hb Hc. destruct (set_child_spec n NUL c c (tree_wf P n Ht Hl) Hc) as (Hw & Hp & Hl' & Hk & Hne). rewrite Hl in Hl'.
  rewrite bool_decide_eq_false_2 by (intros Hz; by apply nil_length_inv in Hz).
  assert (∀ b, kids (set_child n NUL c) b = kids n b) as Hsame by (intros b; rewrite Hk; unfold kids_upd; case_decide; congruence).
  split.
  - eapply (tree_update P n); [done|done|done|done|done|exact Hk|]. intros ? [= <-]. unfold child_ok. rewrite decide_True by done.
    by apply tree_nul.
  - intros k v. rewrite (holds_same n _ k v Hl Hl' Hsame). case_decide as E; [|done]. subst k. split; [|done].
    rewrite (holds_byte P n key v Ht Hl), Hb. by intros (? & ? & _).
Qed.

Lemma delNode_spec P n key fuel :
  art_tree P n → P `prefix_of` key → height n ≤ fuel →
  ∃ n' gone, delNode fuel n key (length P) = Ret (n', gone) ∧ del_in P n n' gone key.
Proof.
  intros Ht. revert fuel; induction Ht as [P n k' v' Hl Hp HU HP|P n k1 k2 Hl Hw HU1 HU2 Hne HP1 HP2 Hnul Hkids IH]; intros fuel HPk Hf.
  { exists n, (bool_decide (k' = key)). split; [by eapply delNode_leaf|]. unfold del_in. case_bool_decide as E.
    - intros k v. rewrite (holds_leaf_inv _ _ _ _ _ Hl). naive_solver.
    - split; [by apply (tree_leaf P n k' v')|]. intros k v. case_decide as Ek; [|done]. rewrite (holds_leaf_inv _ _ _ _ _ Hl).
      split; [intros [-> _]; by destruct E|done]. }
  destruct fuel as [|f]; [destruct n; simpl in Hf; lia|]. cbn [delNode]. rewrite Hl.
  assert (art_tree P n) as Ht by by apply (tree_inner P n k1 k2). rewrite skip_prefix_spec by done.
  destruct (decide (path P n `prefix_of` key)) as [HQ|HQ].
  2:{ exists n, false. split; [done|]. apply del_absent; [done|]. intros v Hh. destruct HQ. by apply (holds_path _ _ _ _ Ht Hh). }
  assert (∀ b c, kids n b = Some c → height c ≤ f) as Hh by (intros b c Hb%kids_height; lia).
  cbv zeta. change (default NUL (key !! length (path P n))) with (byte_for (path P n) key).
  pose proof (del_child_spec P n key) as Hdc. pose proof (del_fallback P n key) as Hfb.
  rewrite !findChild_kids by done. cbn [mbind go_bind]. destruct (kids n (byte_for (path P n) key)) as [c|] eqn:Eb; cbn [mbind go_bind].
  - assert (∃ c' gone Pc, delNode f c key (if decide (length (path P n) < length key) then length (path P n) + 1 else length (path P n)) =
      Ret (c', gone) ∧ del_in Pc c c' gone key ∧ (gone = false → child_ok (path P n) (byte_for (path P n) key) c')) as (c' & gone & Pc & -> & Hdel & Hok).
    { unfold child_ok. destruct (decide (byte_for (path P n) key = NUL)) as [Hb0|Hb0].
      - rewrite Hb0 in Eb. pose proof (Hnul c Eb) as He. destruct (end_leaf_del (path P n) c key f
          (if decide (length (path P n) < length key) then length (path P n) + 1 else length (path P n)) He (Hh _ _ Eb)) as [-> Hd].
        by eexists _, _, _.
      - unfold byte_for in *. destruct (key !! length (path P n)) as [b|] eqn:Ek; cbn [from_option id] in *; [|done].
        destruct (IH b c Hb0 Eb f) as (c' & gone & E & Hd); [by apply snoc_prefix|by eapply Hh|].
        rewrite length_app in E. simpl in E. rewrite decide_True by (by eapply lookup_lt_Some). exists c', gone, (path P n ++ [b]).
        split_and!; [done|done|]. intros ->. apply Hd. }
    cbn [mbind go_bind]. destruct (Hdc c c' gone Pc Ht Hl eq_refl Hdel Hok) as (n2 & -> & Hd). cbn [mbind go_bind]. by eexists _, _.
  - destruct (kids n NUL) as [c|] eqn:Ec.
    + destruct (end_leaf_del (path P n) c key f
        (if decide (length (path P n) < length key) then length (path P n) + 1 else length (path P n)) (Hnul c eq_refl) (Hh _ _ Ec)) as [-> _].
      rewrite bool_decide_eq_false_2.
      * cbn [mbind go_bind]. eexists _, _. split; [done|]. by apply Hfb.
      * intros Hk. rewrite <-Hk in Eb. unfold byte_for in Eb. rewrite lookup_ge_None_2 in Eb by done. simpl in Eb. congruence.
    + exists n, false. split; [done|]. apply del_absent; [done|]. intros v. rewrite (holds_byte P n key v Ht Hl), Eb. by intros (? & ? & _).
Qed.
End tree.
