(* ===== verification/ARTScan.v ===== *)
(** * ARTScan: the ordered scans of the radix tree

    Every node layout gives its children in the order of their bytes, so
    [collectKeys] and [collectRange] meet the keys in order; [PrefixKeys]
    descends to the node all of whose keys have the prefix. *)

From stdpp Require Import base list gmap strings sorting.
From Stdlib Require Import ZArith Lia Ascii.
From S2P Require Import Prelude GoLib KeyOrder ARTStore ARTProofs.

(** The children a scan visits are the [kids], in the order of their bytes. *)
Lemma omap_alookup bs ks cs :
  StronglySorted byte_lt bs → StronglySorted byte_lt ks → (∀ k, k ∈ ks → k ∈ bs) → length ks = length cs →
  omap (λ b, alookup b ks cs) bs = omap id cs.
Proof.
  intros Hb. revert ks cs; induction Hb as [|b bs Hb IH Hlt]; intros ks cs Hs Hin Hl.
  - destruct ks as [|k ks]; [by destruct cs|]. by specialize (Hin k (list_elem_of_here _ _)); apply not_elem_of_nil in Hin.
  - rewrite Forall_forall in Hlt. destruct ks as [|k ks], cs as [|c cs]; try done.
    { rewrite <-(IH [] []); [done|constructor|set_solver|done]. }
    apply StronglySorted_cons in Hs as [Hk Hs]. rewrite Forall_forall in Hk.
    assert (∀ x y : ascii, byte_lt x y → x ≠ y) as Hne by (unfold byte_lt; intros x y ? ->; lia).
    destruct (decide (k = b)) as [->|Hkb].
    + assert (omap (λ b', alookup b' (b :: ks) (c :: cs)) bs = omap id cs) as Ho.
      { rewrite <-(IH ks cs); [|done| |by simplify_eq/=].
        - apply list_omap_ext, Forall2_same_length_lookup. split; [done|]. intros i x y Hx Hy. simplify_eq. cbn [alookup].
          rewrite decide_False; [done|]. by apply Hne, Hlt, list_elem_of_lookup_2 with i.
        - intros k Hk'. specialize (Hin k (list_elem_of_further _ _ _ Hk')). apply elem_of_cons in Hin as [->|]; [|done].
          by destruct (Hne b b (Hk _ Hk')). }
      cbn [omap list_omap]. rewrite Ho. cbn [alookup]. by rewrite decide_True.
    + assert (∀ x, x ∈ k :: ks → x ∈ bs) as Hin'.
      { intros x Hx. destruct (decide (x = b)) as [->|Hxb]; [|specialize (Hin x Hx); set_solver].
        exfalso. assert (byte_lt b k) by (apply Hlt; specialize (Hin k (list_elem_of_here _ _)); set_solver).
        apply elem_of_cons in Hx as [?|Hx]; [done|]. specialize (Hk b Hx). unfold byte_lt in *. lia. }
      rewrite <-(IH (k :: ks) (c :: cs)); [|by apply StronglySorted_cons; rewrite Forall_forall|done|done].
      cbn [omap list_omap]. rewrite (alookup_None b); [done|]. intros Hb'. apply Hin', Hlt in Hb'. by destruct (Hne b b Hb').
Qed.

Lemma child_slots_index n bs out :
  a_nodeType n = artNode48 → index_wf (a_index n) (a_children n) →
  go_foldl (λ b out, if decide (a_index n b ≠ artEmptyIndex) then c ← slot_atZ (a_children n) (a_index n b); Ret (out ++ [c]) else Ret out) bs out =
  Ret (out ++ (Some <$> omap (kids n) bs)).
Proof.
  intros Ht Hi. revert out; induction bs as [|b bs IH]; intros out; cbn [go_foldl omap list_omap]; [by rewrite app_nil_r|].
  unfold kids at 1. rewrite findChild_index by done. destruct (proj1 Hi b) as [->|[H0 [c Hc]]].
  - rewrite decide_False, decide_True by tauto. apply IH.
  - rewrite decide_True, decide_False by (unfold artEmptyIndex; lia). unfold slot_atZ, slot_at. rewrite decide_True, Hc by done.
    cbn [mbind go_bind mjoin option_join]. rewrite IH, <-app_assoc. done.
Qed.

Lemma child_slots_direct n :
  a_nodeType n = artNode256 → length (a_children n) = 256 → a_children n = kids n <$> all_bytes.
Proof.
  intros Ht Hl. apply list_eq. intros i. unfold all_bytes. rewrite <-list_fmap_compose, list_lookup_fmap.
  destruct (decide (i < 256)) as [Hi|Hi].
  - rewrite lookup_seq_lt by done. simpl. unfold kids. rewrite findChild_direct by done. unfold byte_at.
    rewrite byteZ_Zbyte, Z.mod_small, Nat2Z.id by lia. by destruct (lookup_lt_is_Some_2 (a_children n) i) as [[c|] ->]; [lia| |].
  - rewrite lookup_seq_ge by lia. by rewrite lookup_ge_None_2 by lia.
Qed.

Lemma omap_id_fmap {A B} (f : A → option B) (l : list A) : omap id (f <$> l) = omap f l.
Proof. induction l as [|x l IH]; [done|]. cbn [fmap list_fmap omap list_omap]. simpl. by rewrite IH. Qed.

Lemma omap_id_Some {B} (l : list B) : omap id (Some <$> l) = l.
Proof. rewrite omap_id_fmap. induction l as [|x l IH]; [done|]. cbn [omap list_omap]. by f_equal. Qed.

Lemma child_slots_spec n : node_wf n → ∃ cs, child_slots n = Ret cs ∧ omap id cs = omap (kids n) all_bytes.
Proof.
  intros Hw. unfold child_slots. destruct Hw as [Ht (Hl & Hs & _) _|Ht Hi _|Ht Hl].
  - rewrite decide_False by (destruct Ht as [-> | ->]; done). rewrite decide_True by tauto. eexists. split; [done|].
    rewrite <-(omap_alookup all_bytes (a_keys n)) by (auto using all_bytes_sorted, all_bytes_elem).
    apply list_omap_ext, Forall2_same_length_lookup. split; [done|]. intros i x y Hx Hy. simplify_eq. unfold kids.
    by rewrite findChild_slots.
  - rewrite decide_True, child_slots_index by done. eexists. split; [done|]. apply omap_id_Some.
  - rewrite decide_False by (rewrite Ht; done). rewrite decide_True by tauto. eexists. split; [done|].
    rewrite child_slots_direct by done. apply omap_id_fmap.
Qed.

(** The children with their bytes. *)
Definition kid_list (n : artNode) (bs : list ascii) : list (ascii * artNode) := omap (λ b, (b,.) <$> kids n b) bs.

Lemma kid_list_nodes n bs : (kid_list n bs).*2 = omap (kids n) bs.
Proof. induction bs as [|b bs IH]; [done|]. unfold kid_list in *. cbn [omap list_omap]. destruct (kids n b); simpl; by rewrite <-IH. Qed.

Lemma elem_of_kid_list n bs b c : (b, c) ∈ kid_list n bs ↔ b ∈ bs ∧ kids n b = Some c.
Proof.
  unfold kid_list. rewrite list_elem_of_omap. split.
  - intros (b' & Hb & (c' & Hc & [= -> ->])%fmap_Some). done.
  - intros [Hb Hc]. exists b. by rewrite Hc.
Qed.

Lemma kid_list_sorted n bs : StronglySorted byte_lt bs → StronglySorted byte_lt (kid_list n bs).*1.
Proof.
  induction 1 as [|b bs Hs IH Hb]; [constructor|]. rewrite Forall_forall in Hb. unfold kid_list in *. cbn [omap list_omap].
  destruct (kids n b) as [c|]; [|done]. simpl. constructor; [done|]. apply Forall_forall.
  intros x ([b' c'] & -> & [? _]%elem_of_kid_list)%list_elem_of_fmap. by apply Hb.
Qed.

(** Keys below a smaller byte are smaller. *)
Lemma byte_order Q k k' : Q `prefix_of` k → Q `prefix_of` k' → byte_lt (byte_for Q k) (byte_for Q k') → str_lt k k'.
Proof.
  intros [r ->] [r' ->]. unfold byte_for, str_lt, byte_lt. rewrite !lookup_app_r, Nat.sub_diag by done. induction Q as [|x Q IH].
  - destruct r as [|x r], r' as [|x' r']; simpl; try lia; try done.
    + pose proof (byteZ_range x). change (byteZ NUL) with 0%Z. lia.
    + intros H. by rewrite (proj2 (Z.ltb_lt _ _) H).
  - simpl. by rewrite Z.ltb_irrefl.
Qed.

Definition stored (n : artNode) (k : gostring) : Prop := ∃ v, holds n k v.

(** [ks] lists the stored keys that satisfy [keep], in order. *)
Definition lists (keep : gostring → bool) (n : artNode) (ks : list gostring) : Prop :=
  sorted_keys ks ∧ ∀ k, k ∈ ks ↔ keep k = true ∧ stored n k.

Lemma collect_None f keep : collect f keep None = Ret [].
Proof. by destruct f. Qed.

Lemma collect_fold f keep Q cs l out :
  omap id cs = l.*2 → StronglySorted byte_lt l.*1 →
  (∀ b c, (b, c) ∈ l → ∃ ks, collect f keep (Some c) = Ret ks ∧ lists keep c ks) →
  (∀ b c k, (b, c) ∈ l → stored c k → Q `prefix_of` k ∧ byte_for Q k = b) →
  ∃ ks, go_foldl (λ c out, ks ← collect f keep c; Ret (out ++ ks)) cs out = Ret (out ++ ks) ∧ sorted_keys ks ∧
    ∀ k, k ∈ ks ↔ keep k = true ∧ ∃ b c, (b, c) ∈ l ∧ stored c k.
Proof.
  revert l out; induction cs as [|[c|] cs IH]; intros l out Hl Hs Hc Hb; cbn [go_foldl].
  - destruct l; [|done]. exists []. rewrite app_nil_r. split_and!; [done|constructor|]. set_solver.
  - destruct l as [|[b c'] l]; [done|]. cbn [omap list_omap id fmap list_fmap] in Hl. simplify_eq/=.
    apply StronglySorted_cons in Hs as [Hlt Hs]. destruct (Hc b c' (list_elem_of_here _ _)) as (ks & -> & Hks & Hin). cbn [mbind go_bind].
    destruct (IH l (out ++ ks)) as (ks' & -> & Hks' & Hin'); [done|done|intros; apply (Hc b0); by right|intros; apply (Hb b0 c); [by right|done]|].
    exists (ks ++ ks'). rewrite app_assoc. split_and!; [done| |].
    + apply StronglySorted_app_2; [|done|done]. intros k k' [_ Hk]%Hin [_ (b1 & c1 & Hbc & Hk')]%Hin'.
      destruct (Hb b c' k) as [HQ Eb]; [by left|done|]. destruct (Hb b1 c1 k') as [HQ' Eb']; [by right|done|].
      apply (byte_order Q); [done|done|]. rewrite Eb, Eb'. rewrite Forall_forall in Hlt. apply Hlt.
      apply list_elem_of_fmap. by exists (b1, c1).
    + intros k. rewrite elem_of_app, Hin, Hin'. setoid_rewrite elem_of_cons. naive_solver.
  - rewrite collect_None. cbn [mbind go_bind]. rewrite app_nil_r. by apply IH.
Qed.

Section scans.
Context (U : gostring → Prop).

Lemma tree_kid P n b c : art_tree U P n → a_leaf n = None → kids n b = Some c → ∃ Pc, art_tree U Pc c.
Proof.
  intros Ht Hl Hb. destruct Ht as [|P n k1 k2 _ Hw HU1 HU2 Hne HP1 HP2 Hnul Hkids]; [congruence|]. destruct (decide (b = NUL)) as [->|Hb0].
  - destruct (Hnul c Hb) as (HU & Hp & v & Hc). exists (path P n). by apply (tree_leaf U _ c (path P n) v).
  - exists (path P n ++ [b]). by apply Hkids.
Qed.

Lemma lists_leaf keep n k v : a_leaf n = Some (k, v) → lists keep n (if keep k then [k] else []).
Proof.
  intros Hl. split; [destruct (keep k); [by repeat constructor|constructor]|]. intros k'. unfold stored.
  setoid_rewrite (holds_leaf_inv _ _ _ _ _ Hl). destruct (keep k) eqn:E.
  - rewrite list_elem_of_singleton. split; [intros ->; by eauto|by intros (_ & ? & -> & _)].
  - split; [by intros ?%not_elem_of_nil|]. intros (Hk & ? & -> & _). congruence.
Qed.

Lemma collect_spec fuel keep P n : art_tree U P n → height n ≤ fuel → ∃ ks, collect fuel keep (Some n) = Ret ks ∧ lists keep n ks.
Proof.
  revert P n; induction fuel as [|f IH]; intros P n Ht Hf; [destruct n; simpl in Hf; lia|]. cbn [collect].
  destruct (a_leaf n) as [[k v]|] eqn:Hl; [eexists; split; [done|by eapply lists_leaf]|].
  destruct (child_slots_spec n (tree_wf U P n Ht Hl)) as (cs & -> & Hcs). cbn [mbind go_bind]. rewrite <-kid_list_nodes in Hcs.
  destruct (collect_fold f keep (path P n) cs (kid_list n all_bytes) [] Hcs) as (ks & E & Hs & Hin).
  - apply kid_list_sorted, all_bytes_sorted.
  - intros b c [_ Hb]%elem_of_kid_list. destruct (tree_kid P n b c Ht Hl Hb) as [Pc Hc]. apply (IH Pc); [done|].
    apply kids_height in Hb. lia.
  - intros b c k [_ Hb]%elem_of_kid_list [v Hk]. split; [|symmetry; by apply (kid_byte U P n b c k v)].
    apply (holds_path U P n k v Ht); [by eapply holds_kid|done].
  - exists ks. split; [done|]. split; [done|]. intros k. rewrite Hin. apply and_iff_compat_l. split.
    + intros (b & c & [_ Hb]%elem_of_kid_list & v & Hk). exists v. by eapply holds_kid.
    + intros [v (b & c & Hb & Hk)%holds_inner]; [|done]. exists b, c. split; [|by exists v].
      apply elem_of_kid_list. split; [apply all_bytes_elem|done].
Qed.
End scans.

(** ** PrefixKeys *)
Lemma HasPrefix_spec k p : HasPrefix k p = true ↔ p `prefix_of` k.
Proof.
  revert k; induction p as [|x p IH]; intros [|y k]; simpl.
  - split; [intros _; apply prefix_nil|done].
  - split; [intros _; apply prefix_nil|done].
  - split; [done|by intros ?%prefix_nil_inv].
  - rewrite andb_true_iff, bool_decide_eq_true, IH. split; [intros [-> ?]; by apply prefix_cons|].
    intros H. split; [by eapply prefix_cons_inv_1|by eapply prefix_cons_inv_2].
Qed.

(** Of two prefixes of one string the shorter is a prefix of the other. *)
Lemma prefix_weak (a b k : list ascii) : a `prefix_of` k → b `prefix_of` k → length a ≤ length b → a `prefix_of` b.
Proof.
  intros [ra ->] [rb E] Hl. exists (drop (length a) b). rewrite <-(take_drop (length a) b) at 1. f_equal.
  apply (f_equal (take (length a))) in E. rewrite take_app_length, take_app_le in E by done. done.
Qed.

Section prefix.
Context (U : gostring → Prop) (prefix : gostring).

Lemma lists_none keep n : (∀ k, keep k = true → stored n k → False) → lists keep n [].
Proof. intros H. split; [constructor|]. intros k. split; [by intros ?%not_elem_of_nil|]. intros [? ?]. by destruct (H k). Qed.

(** Every key below the node has the prefix. *)
Lemma collectKeys_prefix P n :
  art_tree U P n → a_leaf n = None → prefix `prefix_of` path P n → ∃ ks, collectKeys n = Ret ks ∧ lists (λ k, HasPrefix k prefix) n ks.
Proof.
  intros Ht Hl Hp. destruct (collect_spec U (height n) (λ _, true) P n Ht) as (ks & E & Hs & Hin); [done|].
  exists ks. split; [done|]. split; [done|]. intros k. rewrite Hin. split; [|by intros [_ ?]]. intros [_ [v Hk]]. split; [|by exists v].
  apply HasPrefix_spec. etrans; [exact Hp|]. by apply (holds_path U P n k v).
Qed.

Lemma lists_kid P n b c ks :
  art_tree U P n → a_leaf n = None → path P n ++ [b] `prefix_of` prefix → kids n b = Some c →
  lists (λ k, HasPrefix k prefix) c ks → lists (λ k, HasPrefix k prefix) n ks.
Proof.
  intros Ht Hl [_ Hb]%snoc_prefix Hc [Hs Hin]. split; [done|]. intros k. rewrite Hin. split; intros [Hk [v Hv]]; (split; [done|]); exists v.
  - by eapply holds_kid.
  - apply (holds_byte U P n k v Ht Hl) in Hv as (c' & Hc' & Hv). apply HasPrefix_spec in Hk as [r ->]. unfold byte_for in Hc'.
    rewrite (lookup_app_l_Some _ _ _ _ Hb) in Hc'. simpl in Hc'. congruence.
Qed.

(** The two comparisons of the node's prefix with what is left of [prefix]. *)
Lemma short_match P px : P `prefix_of` prefix → take (length prefix - length P) px = drop (length P) prefix ↔ prefix `prefix_of` P ++ px.
Proof.
  intros [r ->]. rewrite drop_app_length, length_app. replace (length P + length r - length P) with (length r) by lia.
  rewrite <-prefix_take. split; [apply prefix_app|apply prefix_app_inv].
Qed.

Lemma long_match P px : P `prefix_of` prefix → take (length px) (drop (length P) prefix) = px ↔ P ++ px `prefix_of` prefix.
Proof. intros [r ->]. rewrite drop_app_length, <-prefix_take. split; [apply prefix_app|apply prefix_app_inv]. Qed.

Lemma PrefixKeys_loop_spec P n fuel :
  art_tree U P n → P `prefix_of` prefix → height n ≤ fuel →
  ∃ ks, PrefixKeys_loop fuel n prefix (length P) = Ret ks ∧ lists (λ k, HasPrefix k prefix) n ks.
Proof.
  intros Ht. revert fuel; induction Ht as [P n k' v' Hl Hp HU HP|P n k1 k2 Hl Hw HU1 HU2 Hne HP1 HP2 Hnul Hkids IH];
    intros [|f] HPk Hf; try (destruct n; simpl in Hf; lia); cbn [PrefixKeys_loop]; rewrite Hl.
  { eexists. split; [done|]. by apply (lists_leaf (λ k, HasPrefix k prefix) n k' v'). }
  assert (art_tree U P n) as Ht by by apply (tree_inner U P n k1 k2). cbv zeta.
  assert (length P + length (default [] (a_prefix n)) = length (path P n)) as Elen by (unfold path; by rewrite length_app).
  rewrite !Elen. pose proof (prefix_length _ _ HPk).
  assert (∀ k, HasPrefix k prefix = true → stored n k → prefix `prefix_of` k ∧ path P n `prefix_of` k) as Hk.
  { intros k Hk%HasPrefix_spec [v Hv]. split; [done|]. by apply (holds_path U P n k v). }
  case_decide as Hshort; [|case_decide as Hother].
  - destruct Hshort as [_ Hshort]. case_decide as Htk; rewrite short_match in Htk by done; [by apply (collectKeys_prefix P n)|].
    exists []. split; [done|]. apply lists_none. intros k Hp (Hk1 & Hk2)%Hk; [|done]. apply Htk. apply (prefix_weak _ _ k); [done|done|].
    fold (path P n). lia.
  - exists []. split; [done|]. apply lists_none. intros k Hp (Hk1 & Hk2)%Hk; [|done]. destruct Hother as [Hpx Hother].
    rewrite long_match in Hother by done. apply Hother. apply (prefix_weak _ _ k); [done|done|].
    fold (path P n). destruct (decide (length prefix < length (path P n))); [tauto|lia].
  - assert (path P n `prefix_of` prefix) as HQ.
    { unfold path. destruct (a_prefix n) as [px|]; cbn [from_option id] in *; [|by rewrite app_nil_r].
      rewrite <-long_match by done. destruct (decide (take (length px) (drop (length P) prefix) = px)); [done|]. by destruct Hother. }
    destruct (prefix !! length (path P n)) as [b|] eqn:Eb.
    + rewrite findChild_kids by done. cbn [mbind go_bind]. destruct (kids n b) as [c|] eqn:Ec.
      * assert (∃ ks, PrefixKeys_loop f c prefix (length (path P n) + 1) = Ret ks ∧ lists (λ k, HasPrefix k prefix) c ks) as (ks & -> & Hks).
        { pose proof (kids_height _ _ _ Ec). destruct (decide (b = NUL)) as [->|Hb0].
          - destruct (Hnul c Ec) as (_ & _ & v & Hv). destruct f as [|f]; [destruct c; simpl in *; lia|]. cbn [PrefixKeys_loop]. rewrite Hv.
            eexists. split; [done|]. by apply (lists_leaf (λ k, HasPrefix k prefix) c _ v).
          - destruct (IH b c Hb0 Ec f) as (ks & E & Hks); [by apply snoc_prefix|lia|]. rewrite length_app in E. by exists ks. }
        exists ks. split; [done|]. eapply (lists_kid P n b c); [done|done|by apply snoc_prefix|done|done].
      * exists []. split; [done|]. apply lists_none. intros k Hp%HasPrefix_spec [v Hv].
        apply (holds_byte U P n k v Ht Hl) in Hv as (c' & Hc' & _). destruct Hp as [r ->]. unfold byte_for in Hc'.
        rewrite (lookup_app_l_Some _ _ _ _ Eb) in Hc'. simpl in Hc'. congruence.
    + apply (collectKeys_prefix P n); [done|done|]. by rewrite (prefix_end _ _ HQ Eb).
Qed.
End prefix.

(** ** RangeKeys *)
#[global] Instance str_le_trans : Transitive str_le.
Proof.
  intros a b c. unfold str_le. rewrite !str_ltb_false. intros [->|H1] [->|H2]; auto. right. by eapply str_ltb_trans.
Qed.

#[global] Instance str_le_total : Total str_le.
Proof. intros a b. unfold str_le. destruct (str_ltb b a) eqn:E; [right; by apply str_ltb_asym|by left]. Qed.

(** The collected keys are in order already. *)
Lemma sort_sorted l : sorted_keys l → merge_sort str_le l = l.
Proof.
  intros Hs. apply (StronglySorted_unique_strong str_le); [|apply StronglySorted_merge_sort; apply _| |apply merge_sort_Permutation].
  - intros x y _ _ Hxy Hyx. by apply str_ltb_total.
  - induction Hs as [|k l Hs IH Hk]; constructor; [done|]. eapply Forall_impl; [exact Hk|]. intros k' Hk'. by apply str_ltb_asym.
Qed.
