(* ===== verification/ARTRefine.v ===== *)
(** * ARTRefine: the radix tree store against the abstract store

    The keys a program sets decide what the tree does.  [art_keys_ok] is the
    condition, as a boolean, under which [ARTStore] answers like a map
    ([art_refines]) and its scans are those of an ordered store
    ([art_ordered]); [art_short_key_deadlocks] shows what happens without it. *)

From stdpp Require Import base list gmap strings sorting.
From Stdlib Require Import ZArith Lia Ascii.
From S2P Require Import Prelude GoLib StoreSpec KeyOrder OrderedSpec ARTStore ARTProofs ARTScan.

(** ** The keys *)

(** No key has a NUL byte, and no key is shorter than what two others share. *)
Definition art_keys_ok (ks : list gostring) : bool :=
  forallb (λ k, bool_decide (NUL ∉ k)) ks &&
  forallb (λ k1, forallb (λ k2, bool_decide (k1 = k2) || forallb (λ k3, common k1 k2 <=? length k3) ks) ks) ks.

Definition set_keys (os : list store_op) : list gostring := omap (λ o, match o with OpSet k _ => Some k | _ => None end) os.

Lemma forallb_elem {A} (f : A → bool) l x : forallb f l = true → x ∈ l → f x = true.
Proof. intros Hf Hx%list_elem_of_In. by apply forallb_forall with (x := x) in Hf. Qed.

Lemma keys_ok_nul ks k : art_keys_ok ks = true → k ∈ ks → NUL ∉ k.
Proof. intros [H _]%andb_prop Hk. apply (forallb_elem _ _ _ H) in Hk. by apply bool_decide_eq_true in Hk. Qed.

Lemma common_prefix (Q k1 k2 : list ascii) : Q `prefix_of` k1 → Q `prefix_of` k2 → length Q ≤ common k1 k2.
Proof.
  intros [r1 ->] [r2 ->]. induction Q as [|x Q IH]; [simpl; lia|]. cbn [app common length]. rewrite decide_True by done. lia.
Qed.

Lemma keys_ok_common ks Q k1 k2 k3 :
  art_keys_ok ks = true → k1 ∈ ks → k2 ∈ ks → k3 ∈ ks → k1 ≠ k2 → Q `prefix_of` k1 → Q `prefix_of` k2 → length Q ≤ length k3.
Proof.
  intros [_ H]%andb_prop H1 H2 H3 Hne HQ1 HQ2. apply (forallb_elem _ _ k1 H), (forallb_elem _ _ k2) in H1; [|done].
  cbv beta in H1. rewrite bool_decide_eq_false_2 in H1 by done. simpl in H1. apply (forallb_elem _ _ k3 H1), Nat.leb_le in H3.
  pose proof (common_prefix Q k1 k2 HQ1 HQ2). lia.
Qed.

(** ** The calls *)
Section refine.
Context (U : gostring → Prop).
Context (HU0 : ∀ k, U k → NUL ∉ k).
Context (HUc : ∀ Q k1 k2 k3, U k1 → U k2 → U k3 → k1 ≠ k2 → Q `prefix_of` k1 → Q `prefix_of` k2 → length Q ≤ length k3).

(** The store represents the abstract content [m]. *)
Definition art_rep (s : ARTStore) (m : kv) : Prop :=
  art_hashes s = kv_hashes m ∧
  match art_root s with
  | None => kv_strings m = ∅
  | Some n => art_tree U [] n ∧ ∀ k v, kv_strings m !! k = Some v ↔ holds n k v
  end.

Definition op_ok (o : store_op) : Prop := match o with OpSet k _ => U k | _ => True end.

Lemma art_Get_rep s m key : art_rep s m → ARTStore_Get key s = Ret (kv_get key m).
Proof.
  intros [_ Hr]. unfold ARTStore_Get, kv_get. destruct (art_root s) as [n|]; [|by rewrite Hr, lookup_empty].
  destruct Hr as [Ht Hm]. destruct (Get_loop_spec U [] n key (height n) Ht (prefix_nil key)) as (r & E & Hr); [done|].
  simpl in E. rewrite E. f_equal. apply option_eq. intros v. by rewrite Hr, Hm.
Qed.

Lemma art_Set_rep s m key value :
  art_rep s m → U key → ∃ s', ARTStore_Set key value s = Ret s' ∧ art_rep s' (kv_set key value m).
Proof using All.
  intros [Hh Hr] HU. unfold ARTStore_Set. destruct (art_root s) as [n|].
  - destruct Hr as [Ht Hm]. destruct (Set_loop_spec U HU0 HUc [] n key value (height n) Ht HU (prefix_nil key)) as (n' & E & Ht' & Hs); [done|].
    simpl in E. rewrite E. cbn [mbind go_bind]. eexists. split; [done|]. split; [done|]. split; [done|]. intros k v. simpl.
    rewrite lookup_insert_Some. specialize (Hs k v). case_decide; rewrite Hs, ?Hm; naive_solver.
  - eexists. split; [done|]. split; [done|]. split; [by apply leafNode_tree; [|apply prefix_nil]|]. intros k v. simpl. rewrite Hr.
    rewrite (holds_leaf_inv (leafNode key value) k v key value) by done. rewrite lookup_insert_Some, lookup_empty. naive_solver.
Qed.

Lemma art_Del_rep s m key : art_rep s m → ∃ s', ARTStore_Del key s = Ret s' ∧ art_rep s' (kv_del key m).
Proof using All.
  intros [Hh Hr]. unfold ARTStore_Del. rewrite Hh. destruct (art_root s) as [n|].
  - destruct Hr as [Ht Hm]. destruct (delNode_spec U [] n key (height n) Ht (prefix_nil key)) as (n' & gone & E & Hd); [done|].
    simpl in E. rewrite E. cbn [mbind go_bind]. eexists. split; [done|]. split; [done|]. destruct gone; simpl in *.
    + apply map_empty. intros k. apply eq_None_not_Some. intros [v [Hne Hv]%lookup_delete_Some]. by apply Hm, Hd in Hv.
    + destruct Hd as [Ht' Hd]. split; [done|]. intros k v. rewrite lookup_delete_Some, Hm. specialize (Hd k v). case_decide; naive_solver.
  - eexists. split; [done|]. split; [done|]. simpl. by rewrite Hr, delete_empty.
Qed.

Lemma art_step o s m :
  art_rep s m → op_ok o → ∃ s', store_step o s = Ret (s', (kv_step o m).2) ∧ art_rep s' (kv_step o m).1.
Proof using All.
  intros Hr Ho. destruct o as [k v|k|h k v|k|h k|h]; cbn [store_step kv_step st_Set st_Get st_Del st_HSet st_HGet st_HGetAll ARTStore_ops fst snd].
  - destruct (art_Set_rep s m k v Hr Ho) as (s' & -> & ?). by exists s'.
  - destruct (art_Del_rep s m k Hr) as (s' & -> & ?). by exists s'.
  - eexists. split; [done|]. destruct Hr as [Hh Hr]. split; [|done]. simpl. by rewrite hash_put_spec, Hh.
  - rewrite (art_Get_rep s m) by done. by exists s.
  - exists s. split; [|done]. unfold ARTStore_HGet. by rewrite (proj1 Hr).
  - exists s. split; [|done]. unfold ARTStore_HGetAll. by rewrite (proj1 Hr).
Qed.

Lemma art_run os s m :
  art_rep s m → Forall op_ok os → ∃ s', store_run os s = Ret (s', (kv_run os m).2) ∧ art_rep s' (kv_run os m).1.
Proof using All.
  intros Hr Ho. revert s m Hr; induction Ho as [|o os Ho _ IH]; intros s m Hr; simpl; [by exists s|].
  destruct (art_step o s m Hr Ho) as (s1 & -> & Hr1). cbn [mbind go_bind].
  destruct (kv_step o m) as [m1 r]. simpl in Hr1. destruct (IH s1 m1 Hr1) as (s2 & E & Hr2). rewrite E.
  destruct (kv_run os m1) as [m2 rs]. by exists s2.
Qed.

Lemma lists_where n m p ks :
  (∀ k v, kv_strings m !! k = Some v ↔ holds n k v) → lists p n ks → keys_where m p ks.
Proof.
  intros Hm [Hs Hin]. split; [done|]. intros k. rewrite Hin. unfold stored, kv_get, is_Some. setoid_rewrite Hm. tauto.
Qed.

Lemma keys_where_empty m p : kv_strings m = ∅ → keys_where m p [].
Proof.
  intros Hm. split; [constructor|]. intros k. unfold kv_get. rewrite Hm, lookup_empty. split; [by intros ?%not_elem_of_nil|].
  by intros [[? ?] _].
Qed.

Lemma art_PrefixKeys_rep s m prefix :
  art_rep s m → ∃ ks, ARTStore_PrefixKeys prefix s = Ret ks ∧ keys_where m (λ k, HasPrefix k prefix) ks.
Proof.
  intros [_ Hr]. unfold ARTStore_PrefixKeys. destruct (art_root s) as [n|]; [|exists []; split; [done|by apply keys_where_empty]].
  destruct Hr as [Ht Hm]. destruct (PrefixKeys_loop_spec U prefix [] n (height n) Ht (prefix_nil _)) as (ks & E & Hks); [done|].
  exists ks. split; [done|]. by eapply lists_where.
Qed.

Lemma art_RangeKeys_rep s m start end_ :
  art_rep s m → ∃ ks, ARTStore_RangeKeys start end_ s = Ret ks ∧ keys_where m (in_range start end_) ks.
Proof.
  intros [_ Hr]. unfold ARTStore_RangeKeys, collectRange. destruct (art_root s) as [n|].
  - destruct Hr as [Ht Hm]. destruct (collect_spec U (height n) (in_range start end_) [] n Ht) as (ks & E & Hs & Hin); [done|].
    unfold in_range in E. rewrite E. cbn [mbind go_bind]. rewrite sort_sorted by done. exists ks. split; [done|].
    by apply (lists_where n).
  - exists []. split; [done|]. by apply keys_where_empty.
Qed.
End refine.

(** The empty store, and the calls of a sequence with good keys. *)
Lemma New_rep U : art_rep U NewARTStore kv_empty.
Proof. done. Qed.

Lemma set_keys_ok os : Forall (op_ok (λ k, k ∈ set_keys os)) os.
Proof.
  apply Forall_forall. intros o Ho. destruct o as [k v| | | | |]; try done. apply list_elem_of_omap. by exists (OpSet k v).
Qed.

Lemma keys_ok_run os :
  art_keys_ok (set_keys os) = true →
  ∃ s, store_run os NewARTStore = Ret (s, (kv_run os kv_empty).2) ∧ art_rep (λ k, k ∈ set_keys os) s (kv_run os kv_empty).1.
Proof.
  intros Hk. apply art_run; [intros k; by apply keys_ok_nul|intros Q k1 k2 k3 H1 H2 H3; by apply (keys_ok_common _ Q k1 k2 k3 Hk)|done|].
  apply set_keys_ok.
Qed.

(** A root whose prefix is longer than the key. *)
Lemma Set_short s n px key value :
  art_root s = Some n → a_leaf n = None → a_prefix n = Some px → length key < length px → ARTStore_Set key value s = Deadlock.
Proof.
  intros Hr Hl Hp Hlt. unfold ARTStore_Set. rewrite Hr. destruct (height n) as [|f] eqn:Eh; [destruct n; simpl in Eh; lia|].
  cbn [Set_loop]. rewrite Hl, Hp. rewrite decide_True by (simpl; lia). unfold splitPrefix. rewrite Hp.
  destruct px as [|b px]; [simpl in Hlt; lia|]. unfold addChild. simpl. done.
Qed.

Lemma common_app (p a b : list ascii) : common (p ++ a) (p ++ b) = length p + common a b.
Proof. induction p as [|x p IH]; [done|]. cbn [app common length]. rewrite decide_True, IH by done. done. Qed.

(** Two keys that part after [p]. *)
Lemma Set_second p c1 c2 r1 r2 v1 v2 hs :
  c1 ≠ c2 → p ≠ [] →
  ∃ n, ARTStore_Set (p ++ c2 :: r2) v2 (mkART (Some (leafNode (p ++ c1 :: r1) v1)) hs) = Ret (mkART (Some n) hs) ∧
    a_leaf n = None ∧ a_prefix n = Some p.
Proof.
  intros Hne Hp. unfold ARTStore_Set. cbn [art_root height leafNode foldr art_hashes Set_loop a_leaf].
  rewrite decide_False by (intros E%(inj (app p)); by simplify_eq). unfold splitLeaf, lcp. rewrite !drop_0, common_app.
  cbn [common]. rewrite (decide_False (P := c1 = c2)) by done. rewrite Nat.add_0_r, Nat.add_0_l, !list_lookup_middle by done. cbn [from_option id].
  destruct (two_children (mkArt (if decide (0 < length p) then Some (take (length p) (p ++ c1 :: r1)) else None) None artNode4 [] [] (λ _, 0%Z))
    c1 c2 (leafNode (p ++ c1 :: r1) v1) (leafNode (p ++ c2 :: r2) v2)) as (n & E & _ & Hpx & Hl & _); [done..|].
  cbv zeta. unfold leafNode in *. cbn [a_prefix a_index]. exists n. rewrite E. split_and!; [done|done|].
  rewrite Hpx. cbn [a_prefix]. rewrite decide_True by (destruct p; [done|simpl; lia]). by rewrite take_app_length.
Qed.

(** ** Theorems *)

(** C33: A sequence of calls on a new ARTStore returns and answers what one
    pair of maps would answer, and the tree it leaves holds exactly the
    abstract content, whenever no key it sets has a NUL byte or is shorter
    than a prefix that two other set keys share; the keys read, deleted or
    used for hashes are arbitrary. *)
Theorem art_refines (os : list store_op) :
  art_keys_ok (set_keys os) = true →
  ∃ s, store_run os NewARTStore = Ret (s, (kv_run os kv_empty).2) ∧ art_rep (λ k, k ∈ set_keys os) s (kv_run os kv_empty).1.
Proof. intros Hk. by apply keys_ok_run. Qed.

(** C34: After such calls PrefixKeys returns the keys present that start with
    the prefix and RangeKeys those between the bounds, both included, each
    once and in increasing order, for every node layout. *)
Theorem art_ordered (os : list store_op) (prefix start end_ : gostring) :
  art_keys_ok (set_keys os) = true →
  ∃ s ps rs, store_run os NewARTStore = Ret (s, (kv_run os kv_empty).2) ∧
    ARTStore_PrefixKeys prefix s = Ret ps ∧ keys_where (kv_run os kv_empty).1 (λ k, HasPrefix k prefix) ps ∧
    ARTStore_RangeKeys start end_ s = Ret rs ∧ keys_where (kv_run os kv_empty).1 (in_range start end_) rs.
Proof.
  intros Hk. destruct (keys_ok_run os Hk) as (s & E & Hr). destruct (art_PrefixKeys_rep _ s _ prefix Hr) as (ps & ? & ?).
  destruct (art_RangeKeys_rep _ s _ start end_ Hr) as (rs & ? & ?). by exists s, ps, rs.
Qed.

(** Without that condition the store hangs: once two keys share a prefix,
    setting any key shorter than it waits for ever for the lock that the same
    call holds. *)
Theorem art_short_key_deadlocks (p r1 r2 k3 v1 v2 v3 : gostring) (c1 c2 : ascii) :
  c1 ≠ c2 → length k3 < length p →
  art_keys_ok [p ++ c1 :: r1; p ++ c2 :: r2; k3] = false ∧
  store_run [OpSet (p ++ c1 :: r1) v1; OpSet (p ++ c2 :: r2) v2; OpSet k3 v3] NewARTStore = Deadlock.
Proof.
  intros Hne Hlt. assert (p ≠ []) as Hp by (destruct p; [simpl in Hlt; lia|done]). split.
  - apply not_true_iff_false. intros Hk.
    assert (length p ≤ length k3) as Hle; [|lia]. apply (keys_ok_common _ p (p ++ c1 :: r1) (p ++ c2 :: r2) k3 Hk); [set_solver..| | |].
    + intros E%(inj (app p)). by simplify_eq.
    + by apply prefix_app_r.
    + by apply prefix_app_r.
  - cbn [store_run store_step st_Set ARTStore_ops].
    change (ARTStore_Set (p ++ c1 :: r1) v1 NewARTStore) with (Ret (mkART (Some (leafNode (p ++ c1 :: r1) v1)) ∅)). cbn [mbind go_bind].
    destruct (Set_second p c1 c2 r1 r2 v1 v2 ∅ Hne Hp) as (n & -> & Hl & Hpx). cbn [mbind go_bind].
    by rewrite (Set_short _ n p) by done.
Qed.

(** A key and the key with a NUL byte appended meet under the same byte: the
    second hides the first, which is lost. *)
Theorem art_nul_key_hides (k v1 v2 : gostring) :
  ∃ s, store_run [OpSet k v1; OpSet (k ++ [NUL]) v2; OpGet k] NewARTStore = Ret (s, [OutUnit; OutUnit; OutVal None]) ∧
    (kv_run [OpSet k v1; OpSet (k ++ [NUL]) v2; OpGet k] kv_empty).2 = [OutUnit; OutUnit; OutVal (Some v1)].
Proof.
  assert (k ≠ k ++ [NUL]) as Hne by (intros E%(f_equal length); rewrite length_app in E; simpl in E; lia).
  assert (common k (k ++ [NUL]) = length k) as Ec.
  { rewrite <-(app_nil_r k) at 1. rewrite common_app. simpl. lia. }
  cbn [store_run store_step st_Set st_Get ARTStore_ops].
  change (ARTStore_Set k v1 NewARTStore) with (Ret (mkART (Some (leafNode k v1)) ∅)). cbn [mbind go_bind].
  unfold ARTStore_Set. cbn [art_root height leafNode foldr art_hashes Set_loop a_leaf]. rewrite decide_False by done.
  unfold splitLeaf, lcp. rewrite !drop_0, Ec, Nat.add_0_l, list_lookup_middle, lookup_ge_None_2 by done. cbn [from_option id a_prefix leafNode].
  set (px := if decide (0 < length k) then _ else _).
  assert (px = None ∧ k = [] ∨ px = Some k) as Hpx.
  { subst px. destruct k as [|x k]; [by left|]. right. simpl. f_equal. f_equal. by rewrite firstn_all. }
  clearbody px.
  set (n := mkArt px None artNode4 [NUL; NUL] [Some (leafNode (k ++ [NUL]) v2); Some (leafNode k v1)] (λ _, 0%Z)).
  change (n2 ← addChild (mkArt px None artNode4 [] [] _) NUL (leafNode k v1); addChild n2 NUL (leafNode (k ++ [NUL]) v2)) with (Ret n).
  cbn [mbind go_bind]. unfold ARTStore_Get. cbn [art_root]. change (height n) with 2. cbn [Get_loop]. change (a_leaf n) with (@None (gostring * gostring)).
  assert (skip_prefix n k 0 = Some (length k)) as ->.
  { unfold skip_prefix, n. cbn [a_prefix]. destruct Hpx as [[-> ->]| ->]; [done|]. rewrite drop_0, firstn_all, decide_False; [done|]. intros [|]; [lia|done]. }
  rewrite lookup_ge_None_2 by done. change (findChild n NUL) with (Ret (Some (leafNode (k ++ [NUL]) v2))). cbn [mbind go_bind a_leaf leafNode].
  exists (mkART (Some n) ∅). rewrite decide_False by done. split; [done|].
  cbn. unfold kv_get, kv_set. cbn [kv_strings]. by rewrite lookup_insert_ne, lookup_insert_eq by done.
Qed.

(** ** Witnesses *)
Definition art_ops : list store_op :=
  [OpSet (str "user:1") (str "a"); OpSet (str "user:2") (str "b"); OpSet (str "user:10") (str "c"); OpSet (str "user:3") (str "d");
   OpSet (str "user:4") (str "e"); OpDel (str "user:2"); OpGet (str "user:10"); OpGet (str "user")].

Lemma art_refines_witness :
  ∃ s, store_run art_ops NewARTStore = Ret (s, [OutUnit; OutUnit; OutUnit; OutUnit; OutUnit; OutUnit; OutVal (Some (str "c")); OutVal None]) ∧
    art_rep (λ k, k ∈ set_keys art_ops) s (kv_run art_ops kv_empty).1.
Proof. apply (art_refines art_ops). vm_compute. reflexivity. Defined.

Lemma art_ordered_witness :
  ∃ s ps rs, store_run art_ops NewARTStore = Ret (s, (kv_run art_ops kv_empty).2) ∧
    ARTStore_PrefixKeys (str "user:1") s = Ret ps ∧ keys_where (kv_run art_ops kv_empty).1 (λ k, HasPrefix k (str "user:1")) ps ∧
    ARTStore_RangeKeys (str "user:10") (str "user:3") s = Ret rs ∧
    keys_where (kv_run art_ops kv_empty).1 (in_range (str "user:10") (str "user:3")) rs.
Proof. apply (art_ordered art_ops (str "user:1") (str "user:10") (str "user:3")). vm_compute. reflexivity. Defined.

Lemma art_short_key_deadlocks_witness :
  art_keys_ok [str "user:1"; str "user:2"; str "x"] = false ∧
  store_run [OpSet (str "user:1") (str "a"); OpSet (str "user:2") (str "b"); OpSet (str "x") (str "c")] NewARTStore = Deadlock.
Proof.
  apply (art_short_key_deadlocks (str "user:") [] [] (str "x") (str "a") (str "b") (str "c") "1"%char "2"%char); [done|simpl; lia].
Defined.
