(* ===== verification/TTLStore.v ===== *)
(** * TTLStore: src/store/ttl.go

    The wrapper every server uses: deadlines per key, a set of tracked keys
    and an eviction policy over an inner store, which is any type with
    [StoreOps].  What a call reads from its surroundings is an [Env]: the
    clock readings, the random index and the order in which Go iterates over
    a map.  One call is one step (the background [sweep] is an operation of
    its own). *)

From stdpp Require Import base list gmap strings.
From Stdlib Require Import ZArith Lia.
From S2P Require Import Prelude GoLib StoreSpec MapStore Evict.
Local Open Scope Z_scope.

(** ** What a call reads from outside *)
Record Env := mkEnv {
  e_now : Z;                                   (* time.Now() of the TTL code *)
  e_rec : Z;                                   (* time.Now() in policy.Record *)
  e_evict : Z;                                 (* time.Now() in policy.Evict *)
  e_rnd : nat → nat;                           (* rand.IntN *)
  e_order : gset gostring → list gostring      (* order of a range over a map *)
}.

(** [range] visits each key once; [IntN(n)] is below [n]. *)
Definition env_ok (e : Env) : Prop :=
  (∀ X, e_order e X ≡ₚ elements X) ∧ (∀ n, (0 < n)%nat → (e_rnd e n < n)%nat).

Record TTLStore (S : Type) := mkTTLStore {
  t_inner : S;
  t_expireAt : gmap gostring Z;
  t_allKeys : gset gostring;
  t_policy : Policy;
  t_maxKeys : Z;
  t_done : bool
}.
Arguments mkTTLStore {S}.
Arguments t_inner {S}.
Arguments t_expireAt {S}.
Arguments t_allKeys {S}.
Arguments t_policy {S}.
Arguments t_maxKeys {S}.
Arguments t_done {S}.

Section ops.
Context {S : Type} `{!StoreOps S}.
Implicit Types (t : TTLStore S) (key value : gostring).

Definition NewTTLStore (inner : S) : TTLStore S := mkTTLStore inner ∅ ∅ NoEviction 0 false.

Definition SetEvictionPolicy (p : Policy) (maxKeys : Z) t : TTLStore S :=
  mkTTLStore (t_inner t) (t_expireAt t) (t_allKeys t) p maxKeys (t_done t).

Definition with_inner (s : S) t : TTLStore S :=
  mkTTLStore s (t_expireAt t) (t_allKeys t) (t_policy t) (t_maxKeys t) (t_done t).
Definition with_policy (p : Policy) t : TTLStore S :=
  mkTTLStore (t_inner t) (t_expireAt t) (t_allKeys t) p (t_maxKeys t) (t_done t).

Definition track (e : Env) key t : TTLStore S :=
  mkTTLStore (t_inner t) (t_expireAt t) ({[key]} ∪ t_allKeys t)
    (Policy_Record (e_rec e) key (t_policy t)) (t_maxKeys t) (t_done t).

Definition untrack key t : TTLStore S :=
  mkTTLStore (t_inner t) (delete key (t_expireAt t)) (t_allKeys t ∖ {[key]})
    (Policy_Delete key (t_policy t)) (t_maxKeys t) (t_done t).

(** [len(name) > 8 && name[:8] == "volatile"] *)
Definition isVolatile (p : Policy) : bool :=
  let name := Policy_Name p in
  bool_decide (8 < length name)%nat && bool_decide (take 8 name = str "volatile").

Definition candidates (e : Env) t : list gostring :=
  if isVolatile (t_policy t) then e_order e (dom (t_expireAt t)) else e_order e (t_allKeys t).

Definition shouldEvict t : bool :=
  (0 <? t_maxKeys t) && (t_maxKeys t <? Z.of_nat (size (t_allKeys t))).

Definition delExpired key t : go (TTLStore S) :=
  let t1 := untrack key t in
  s ← st_Del key (t_inner t1); Ret (with_inner s t1).

Definition evictIfNeeded (e : Env) t : go (TTLStore S) :=
  if negb (shouldEvict t) then Ret t else
  let cands := candidates e t in
  match cands with
  | [] => Ret t
  | _ =>
      key ← Policy_Evict (e_evict e) (e_rnd e (length cands)) cands (t_expireAt t) (t_policy t);
      if bool_decide (key = []) then Ret t else delExpired key t
  end.

Definition isExpired (now : Z) key t : bool :=
  match t_expireAt t !! key with Some exp => exp <? now | None => false end.

(** The two loops of [sweep]. *)
Definition sweep_keys (e : Env) t : list gostring :=
  filter (λ k, isExpired (e_now e) k t = true) (e_order e (dom (t_expireAt t))).

Definition sweep_one key t : go (TTLStore S) :=
  let t' := with_policy (Policy_Delete key (t_policy t)) t in
  s ← st_Del key (t_inner t'); Ret (with_inner s t').

Definition sweep (e : Env) t : go (TTLStore S) :=
  let expired := sweep_keys e t in
  let t1 := mkTTLStore (t_inner t)
              (foldl (λ m k, delete k m) (t_expireAt t) expired)
              (foldl (λ X k, X ∖ {[k]}) (t_allKeys t) expired)
              (t_policy t) (t_maxKeys t) (t_done t) in
  go_foldl sweep_one expired t1.

Definition TTLStore_Set (e : Env) key value t : go (TTLStore S) :=
  s ← st_Set key value (t_inner t);
  evictIfNeeded e (track e key (with_inner s t)).

Definition set_deadline key (exp : Z) t : TTLStore S :=
  mkTTLStore (t_inner t) (<[key := exp]> (t_expireAt t)) (t_allKeys t) (t_policy t) (t_maxKeys t) (t_done t).

Definition SetWithTTL (e : Env) key value (ttl : Z) t : go (TTLStore S) :=
  TTLStore_Set e key value (set_deadline key (e_now e + ttl) t).

Definition TTLStore_Get (e : Env) key t : go (TTLStore S * option gostring) :=
  if isExpired (e_now e) key t then t' ← delExpired key t; Ret (t', None) else
  let t' := with_policy (Policy_Record (e_rec e) key (t_policy t)) t in
  v ← st_Get key (t_inner t'); Ret (t', v).

Definition TTLStore_Del key t : go (TTLStore S) :=
  let t1 := untrack key t in
  s ← st_Del key (t_inner t1); Ret (with_inner s t1).

Definition Expire (e : Env) key (ttl : Z) t : go (TTLStore S * bool) :=
  v ← st_Get key (t_inner t);
  match v with
  | None => Ret (t, false)
  | Some _ => Ret (set_deadline key (e_now e + ttl) t, true)
  end.

(** [TTL]: a Duration, that is, a number of nanoseconds. *)
Definition TTL (e : Env) key t : Z :=
  match t_expireAt t !! key with
  | None => -2
  | Some exp => let d := time_Sub exp (e_now e) in if d <=? 0 then -2 else d
  end.

Definition TTLStore_HSet (e : Env) (hash key value : gostring) t : go (TTLStore S) :=
  s ← st_HSet hash key value (t_inner t);
  evictIfNeeded e (track e hash (with_inner s t)).

Definition TTLStore_HGet (e : Env) (hash key : gostring) t : go (TTLStore S * option gostring) :=
  if isExpired (e_now e) hash t then t' ← delExpired hash t; Ret (t', None) else
  let t' := with_policy (Policy_Record (e_rec e) hash (t_policy t)) t in
  v ← st_HGet hash key (t_inner t'); Ret (t', v).

Definition TTLStore_HGetAll (e : Env) (hash : gostring) t :
    go (TTLStore S * option (gmap gostring gostring)) :=
  if isExpired (e_now e) hash t then t' ← delExpired hash t; Ret (t', None) else
  let t' := with_policy (Policy_Record (e_rec e) hash (t_policy t)) t in
  m ← st_HGetAll hash (t_inner t'); Ret (t', m).

(** [close] of a closed channel panics. *)
Definition TTLStore_Close t : go (TTLStore S) :=
  if t_done t then Panic else
  s ← st_Close (t_inner t);
  Ret (mkTTLStore s (t_expireAt t) (t_allKeys t) (t_policy t) (t_maxKeys t) true).

Definition KeyCount t : nat := size (t_allKeys t).
End ops.

(** A concrete environment, for evaluation: ascending key order, index 0. *)
Definition env_at (now : Z) : Env := mkEnv now now now (λ _, 0%nat) elements.

Lemma env_at_ok now : env_ok (env_at now).
Proof. split; simpl; [done|lia]. Qed.

(** ** Traces of calls *)
Inductive ttl_op :=
| TSet (k v : gostring)
| TSetWithTTL (k v : gostring) (ttl : Z)
| TGet (k : gostring)
| TDel (k : gostring)
| TExpire (k : gostring) (ttl : Z)
| THSet (h k v : gostring)
| THGet (h k : gostring)
| THGetAll (h : gostring)
| TSweep
| TPolicy (p : Policy) (maxKeys : Z).

Definition ttl_step {S} `{!StoreOps S} (e : Env) (o : ttl_op) (t : TTLStore S) : go (TTLStore S) :=
  match o with
  | TSet k v => TTLStore_Set e k v t
  | TSetWithTTL k v ttl => SetWithTTL e k v ttl t
  | TGet k => fst <$> TTLStore_Get e k t
  | TDel k => TTLStore_Del k t
  | TExpire k ttl => fst <$> Expire e k ttl t
  | THSet h k v => TTLStore_HSet e h k v t
  | THGet h k => fst <$> TTLStore_HGet e h k t
  | THGetAll h => fst <$> TTLStore_HGetAll e h t
  | TSweep => sweep e t
  | TPolicy p n => Ret (SetEvictionPolicy p n t)
  end.

Definition ttl_run {S} `{!StoreOps S} (os : list (Env * ttl_op)) (t : TTLStore S) : go (TTLStore S) :=
  go_foldl (λ eo, ttl_step eo.1 eo.2) os t.

(** ** Invariant and lemmas *)
Definition kv_del_all (ks : list gostring) (s : kv) : kv := foldl (λ s k, kv_del k s) s ks.

Lemma kv_del_all_strings ks s k :
  kv_strings (kv_del_all ks s) !! k = if decide (k ∈ ks) then None else kv_strings s !! k.
Proof.
  revert s; induction ks as [|k' ks IH]; intros s.
  - by rewrite decide_False by set_solver.
  - change (kv_del_all (k' :: ks) s) with (kv_del_all ks (kv_del k' s)). rewrite IH. simpl. rewrite lookup_delete.
    repeat case_decide; set_solver.
Qed.

Lemma kv_del_all_hashes ks s k :
  kv_hashes (kv_del_all ks s) !! k = if decide (k ∈ ks) then None else kv_hashes s !! k.
Proof.
  revert s; induction ks as [|k' ks IH]; intros s.
  - by rewrite decide_False by set_solver.
  - change (kv_del_all (k' :: ks) s) with (kv_del_all ks (kv_del k' s)). rewrite IH. simpl. rewrite lookup_delete.
    repeat case_decide; set_solver.
Qed.

Lemma kv_del_all_dom ks s : kv_dom (kv_del_all ks s) = kv_dom s ∖ list_to_set ks.
Proof.
  revert s; induction ks as [|k ks IH]; intros s; simpl; [set_solver|].
  change (kv_del_all (k :: ks) s) with (kv_del_all ks (kv_del k s)).
  rewrite IH, kv_dom_del. set_solver.
Qed.

Lemma foldl_delete_lookup (ks : list gostring) (m : gmap gostring Z) k :
  foldl (λ m k, delete k m) m ks !! k = if decide (k ∈ ks) then None else m !! k.
Proof.
  revert m; induction ks as [|k' ks IH]; intros m.
  - by rewrite decide_False by set_solver.
  - simpl. rewrite IH, lookup_delete. repeat case_decide; set_solver.
Qed.

Lemma foldl_difference (ks : list gostring) (X : gset gostring) :
  foldl (λ X k, X ∖ {[k]}) X ks = X ∖ list_to_set ks.
Proof. revert X; induction ks as [|k ks IH]; intros X; simpl; [set_solver|]. rewrite IH. set_solver. Qed.

Section proofs.
Context {S : Type} `{!StoreOps S} `{!StoreLaws S}.
Implicit Types (t : TTLStore S) (key value : gostring) (e : Env).

(** The bookkeeping agrees with the content: the tracked keys are the keys of
    the inner store and only tracked keys have a deadline. *)
Definition ttl_inv t : Prop :=
  st_inv (t_inner t) ∧ t_allKeys t = kv_dom (st_abs (t_inner t)) ∧ dom (t_expireAt t) ⊆ t_allKeys t.

(** [t'] is [t] after the key was untracked and deleted. *)
Record removed key t t' : Prop := mk_removed {
  rm_inv : st_inv (t_inner t');
  rm_abs : st_abs (t_inner t') = kv_del key (st_abs (t_inner t));
  rm_exp : t_expireAt t' = delete key (t_expireAt t);
  rm_all : t_allKeys t' = t_allKeys t ∖ {[key]};
  rm_pol : t_policy t' = Policy_Delete key (t_policy t);
  rm_max : t_maxKeys t' = t_maxKeys t
}.

Lemma delExpired_removed key t :
  st_inv (t_inner t) → ∃ t', delExpired key t = Ret t' ∧ removed key t t'.
Proof.
  intros Hi. unfold delExpired. destruct (law_Del key (t_inner t)) as (s & Hs & Hi' & Ha); [exact Hi|].
  simpl. go_step Hs. eexists. split; [done|]. by constructor.
Qed.

Lemma removed_inv key t t' : ttl_inv t → removed key t t' → ttl_inv t'.
Proof.
  intros (Hi & Ha & He) [? R1 R2 R3 _ _]. unfold ttl_inv.
  rewrite R1, R2, R3, kv_dom_del, dom_delete_L, Ha. split_and!; [done|done|set_solver].
Qed.

Lemma candidates_elem e t k :
  env_ok e → k ∈ candidates e t → k ∈ t_allKeys t ∨ k ∈ dom (t_expireAt t).
Proof.
  intros [Ho _]. unfold candidates. case_match; rewrite Ho, elem_of_elements; auto.
Qed.

Lemma evictIfNeeded_spec e t :
  env_ok e → st_inv (t_inner t) →
  ∃ t', evictIfNeeded e t = Ret t' ∧
    (t' = t ∨ ∃ key, key ∈ candidates e t ∧ key ≠ [] ∧ shouldEvict t = true ∧ removed key t t').
Proof.
  intros He Hi. unfold evictIfNeeded. destruct (shouldEvict t) eqn:Hs; simpl; [|by eauto].
  destruct (candidates e t) as [|c cs] eqn:Hc; [by eauto|].
  destruct (Policy_Evict_candidate (e_evict e) (e_rnd e (length (c :: cs))) (c :: cs)
    (t_expireAt t) (t_policy t)) as (k & Hk & Hin).
  { apply He. simpl. lia. }
  go_step Hk. case_bool_decide as Hnil; [by eauto|].
  destruct (delExpired_removed k t Hi) as (t' & -> & Hr). exists t'. split; [done|]. right.
  exists k. by destruct Hin.
Qed.

(** What [Set] and [HSet] do after the write: the key is tracked, then at
    most one key is evicted. *)
Lemma evict_inv e t t' :
  env_ok e → ttl_inv t → evictIfNeeded e t = Ret t' → ttl_inv t'.
Proof.
  intros He Hi Hev. destruct (evictIfNeeded_spec e t He) as (t'' & E & Hor); [apply Hi|].
  rewrite E in Hev. simplify_eq. destruct Hor as [->|(k & _ & _ & _ & Hr)]; [done|].
  by eapply removed_inv.
Qed.

Lemma evict_returns e t : env_ok e → st_inv (t_inner t) → returns (evictIfNeeded e t).
Proof. intros He Hi. destruct (evictIfNeeded_spec e t He Hi) as (t' & -> & _). by eexists. Qed.

(** The state between the write and the eviction of [Set]. *)
Lemma Set_unfold e key value t :
  st_inv (t_inner t) →
  ∃ s, TTLStore_Set e key value t = evictIfNeeded e (track e key (with_inner s t)) ∧
       st_inv s ∧ st_abs s = kv_set key value (st_abs (t_inner t)).
Proof.
  intros Hi. unfold TTLStore_Set. destruct (law_Set key value (t_inner t)) as (s & Hs & ? & ?); [exact Hi|].
  exists s. by rewrite Hs.
Qed.

Lemma HSet_unfold e hash key value t :
  st_inv (t_inner t) →
  ∃ s, TTLStore_HSet e hash key value t = evictIfNeeded e (track e hash (with_inner s t)) ∧
       st_inv s ∧ st_abs s = kv_hset hash key value (st_abs (t_inner t)).
Proof.
  intros Hi. unfold TTLStore_HSet.
  destruct (law_HSet hash key value (t_inner t)) as (s & Hs & ? & ?); [exact Hi|].
  exists s. by rewrite Hs.
Qed.

Lemma sweep_keys_elem e t k :
  env_ok e → k ∈ sweep_keys e t ↔ isExpired (e_now e) k t = true.
Proof.
  intros [Ho _]. unfold sweep_keys. rewrite list_elem_of_filter, Ho, elem_of_elements, elem_of_dom.
  unfold isExpired. destruct (t_expireAt t !! k) eqn:E; naive_solver.
Qed.

Lemma sweep_loop_spec ks t :
  st_inv (t_inner t) →
  ∃ t', go_foldl sweep_one ks t = Ret t' ∧
    st_inv (t_inner t') ∧ st_abs (t_inner t') = kv_del_all ks (st_abs (t_inner t)) ∧
    t_expireAt t' = t_expireAt t ∧ t_allKeys t' = t_allKeys t ∧ t_maxKeys t' = t_maxKeys t.
Proof.
  revert t; induction ks as [|k ks IH]; intros t Hi; simpl; [by eauto 10|].
  destruct (law_Del k (t_inner t)) as (s & Hs & Hi' & Ha); [exact Hi|]. 
  assert (sweep_one k t = Ret (with_inner s (with_policy (Policy_Delete k (t_policy t)) t))) as ->
    by (unfold sweep_one; simpl; by rewrite Hs). simpl.
  destruct (IH (with_inner s (with_policy (Policy_Delete k (t_policy t)) t))) as (t' & E & ? & Ha' & ? & ? & ?);
    [done|].
  exists t'. split_and!; [exact E|done| |done..]. rewrite Ha'. simpl. by rewrite Ha.
Qed.

Lemma sweep_spec e t :
  st_inv (t_inner t) →
  ∃ t', sweep e t = Ret t' ∧ st_inv (t_inner t') ∧
    st_abs (t_inner t') = kv_del_all (sweep_keys e t) (st_abs (t_inner t)) ∧
    t_expireAt t' = foldl (λ m k, delete k m) (t_expireAt t) (sweep_keys e t) ∧
    t_allKeys t' = t_allKeys t ∖ list_to_set (sweep_keys e t) ∧ t_maxKeys t' = t_maxKeys t.
Proof.
  intros Hi. unfold sweep. rewrite foldl_difference.
  set (t1 := mkTTLStore _ _ _ _ _ _). destruct (sweep_loop_spec (sweep_keys e t) t1) as (t' & E & ?); [exact Hi|].
  exists t'. done.
Qed.

(** Reads: the expired key is removed, otherwise the content is untouched. *)
Definition read_effect e key t t' : Prop :=
  if isExpired (e_now e) key t then removed key t t'
  else t' = with_policy (Policy_Record (e_rec e) key (t_policy t)) t.

Lemma Get_spec e key t :
  st_inv (t_inner t) →
  ∃ t', TTLStore_Get e key t =
          Ret (t', if isExpired (e_now e) key t then None else kv_get key (st_abs (t_inner t))) ∧
        read_effect e key t t'.
Proof.
  intros Hi. unfold TTLStore_Get, read_effect. destruct (isExpired _ _ _).
  - destruct (delExpired_removed key t Hi) as (t' & -> & ?). by exists t'.
  - simpl. rewrite law_Get by exact Hi. by eexists.
Qed.

Lemma HGet_spec e hash key t :
  st_inv (t_inner t) →
  ∃ t', TTLStore_HGet e hash key t =
          Ret (t', if isExpired (e_now e) hash t then None else kv_hget hash key (st_abs (t_inner t))) ∧
        read_effect e hash t t'.
Proof.
  intros Hi. unfold TTLStore_HGet, read_effect. destruct (isExpired _ _ _).
  - destruct (delExpired_removed hash t Hi) as (t' & -> & ?). by exists t'.
  - simpl. rewrite law_HGet by exact Hi. by eexists.
Qed.

Lemma HGetAll_spec e hash t :
  st_inv (t_inner t) →
  ∃ t', TTLStore_HGetAll e hash t =
          Ret (t', if isExpired (e_now e) hash t then None else kv_hgetall hash (st_abs (t_inner t))) ∧
        read_effect e hash t t'.
Proof.
  intros Hi. unfold TTLStore_HGetAll, read_effect. destruct (isExpired _ _ _).
  - destruct (delExpired_removed hash t Hi) as (t' & -> & ?). by exists t'.
  - simpl. rewrite law_HGetAll by exact Hi. by eexists.
Qed.

Lemma Expire_spec e key ttl t :
  st_inv (t_inner t) →
  Expire e key ttl t =
    Ret (match kv_get key (st_abs (t_inner t)) with
         | Some _ => (set_deadline key (e_now e + ttl) t, true)
         | None => (t, false)
         end).
Proof. intros Hi. unfold Expire. rewrite law_Get by exact Hi. simpl. by case_match. Qed.

Lemma read_effect_inv e key t t' : ttl_inv t → read_effect e key t t' → ttl_inv t'.
Proof. intros Hi. unfold read_effect. case_match; [by apply removed_inv|by intros ->]. Qed.

(** The state [Set] leaves between its write and the eviction. *)
Lemma tracked_inv e key t (s : S) (w : kv → kv) :
  t_allKeys t = kv_dom (st_abs (t_inner t)) → dom (t_expireAt t) ⊆ {[key]} ∪ t_allKeys t →
  st_inv s → st_abs s = w (st_abs (t_inner t)) →
  (∀ a, kv_dom (w a) = {[key]} ∪ kv_dom a) → ttl_inv (track e key (with_inner s t)).
Proof.
  intros Ha Hd Hi Hs Hw. unfold ttl_inv; simpl. rewrite Hs, Hw, <-Ha. done.
Qed.

Lemma ttl_step_inv e o t :
  env_ok e → ttl_inv t → ∃ t', ttl_step e o t = Ret t' ∧ ttl_inv t'.
Proof.
  intros He Hi. pose proof Hi as (Hs & Ha & Hd).
  assert (∀ u, ttl_inv u → ∃ t', evictIfNeeded e u = Ret t' ∧ ttl_inv t') as Hev.
  { intros u Hu. destruct (evict_returns e u He) as [t' E]; [apply Hu|]. exists t'.
    split; [done|]. by eapply evict_inv. }
  destruct o as [k v|k v ttl|k|k|k ttl|h k v|h k|h| |p n]; simpl.
  - destruct (Set_unfold e k v t Hs) as (s & -> & ? & ?). apply Hev.
    eapply (tracked_inv e k t s (kv_set k v)); [done|set_solver|done..|]. intros; apply kv_dom_set.
  - unfold SetWithTTL. destruct (Set_unfold e k v (set_deadline k (e_now e + ttl) t)) as (s & -> & ? & ?); [done|].
    apply Hev. eapply (tracked_inv e k _ s (kv_set k v)); [done| |done..|intros; apply kv_dom_set].
    simpl. rewrite dom_insert_L. set_solver.
  - destruct (Get_spec e k t Hs) as (t' & -> & ?). exists t'. split; [done|]. by eapply read_effect_inv.
  - destruct (delExpired_removed k t Hs) as (t' & E & ?). exists t'. split; [exact E|]. by eapply removed_inv.
  - rewrite Expire_spec by done. destruct (kv_get _ _) eqn:E; simpl; [|by exists t]. eexists. split; [done|].
    unfold ttl_inv; simpl. split_and!; [done..|]. rewrite dom_insert_L, Ha.
    apply kv_get_Some_in in E. set_solver.
  - destruct (HSet_unfold e h k v t Hs) as (s & -> & ? & ?). apply Hev.
    eapply (tracked_inv e h t s (kv_hset h k v)); [done|set_solver|done..|]. intros; apply kv_dom_hset.
  - destruct (HGet_spec e h k t Hs) as (t' & -> & ?). exists t'. split; [done|]. by eapply read_effect_inv.
  - destruct (HGetAll_spec e h t Hs) as (t' & -> & ?). exists t'. split; [done|]. by eapply read_effect_inv.
  - destruct (sweep_spec e t Hs) as (t' & -> & ? & E1 & E2 & E3 & _). exists t'. split; [done|].
    unfold ttl_inv. rewrite E1, E2, E3, kv_del_all_dom, Ha. split_and!; [done|done|].
    intros k. rewrite elem_of_dom, foldl_delete_lookup. case_decide; [by intros [? ?]|].
    intros Hk%elem_of_dom. set_solver.
  - by eexists.
Qed.

Lemma ttl_run_inv os t :
  Forall (λ eo, env_ok eo.1) os → ttl_inv t → ∃ t', ttl_run os t = Ret t' ∧ ttl_inv t'.
Proof.
  intros Hos. revert t; induction Hos as [|[e o] os He Hos IH]; intros t Hi; [by exists t|].
  destruct (ttl_step_inv e o t He Hi) as (t1 & E & Hi1). unfold ttl_run; simpl. rewrite E. simpl. by apply IH.
Qed.

Lemma NewTTLStore_inv s : st_inv s → st_abs s = kv_empty → ttl_inv (NewTTLStore s).
Proof. intros Hi Ha. unfold ttl_inv; simpl. rewrite Ha. split_and!; [done|set_solver|set_solver]. Qed.

(** ** The content a client sees at an instant *)
Definition ttl_view (now : Z) t : kv :=
  let a := st_abs (t_inner t) in
  mkKV (filter (λ kx, isExpired now kx.1 t = false) (kv_strings a))
       (filter (λ kx, isExpired now kx.1 t = false) (kv_hashes a)).

Lemma view_strings now t k :
  kv_strings (ttl_view now t) !! k =
    if isExpired now k t then None else kv_strings (st_abs (t_inner t)) !! k.
Proof.
  unfold ttl_view; simpl. destruct (isExpired now k t) eqn:E.
  - apply map_lookup_filter_None. right. intros ?. simpl. congruence.
  - rewrite map_lookup_filter. simpl. destruct (kv_strings _ !! k); simpl; [|done].
    by rewrite option_guard_True.
Qed.

Lemma view_hashes now t k :
  kv_hashes (ttl_view now t) !! k =
    if isExpired now k t then None else kv_hashes (st_abs (t_inner t)) !! k.
Proof.
  unfold ttl_view; simpl. destruct (isExpired now k t) eqn:E.
  - apply map_lookup_filter_None. right. intros ?. simpl. congruence.
  - rewrite map_lookup_filter. simpl. destruct (kv_hashes _ !! k); simpl; [|done].
    by rewrite option_guard_True.
Qed.

Lemma view_ext now t t' :
  (∀ k, (if isExpired now k t then None else kv_strings (st_abs (t_inner t)) !! k) =
        (if isExpired now k t' then None else kv_strings (st_abs (t_inner t')) !! k)) →
  (∀ k, (if isExpired now k t then None else kv_hashes (st_abs (t_inner t)) !! k) =
        (if isExpired now k t' then None else kv_hashes (st_abs (t_inner t')) !! k)) →
  ttl_view now t = ttl_view now t'.
Proof.
  intros H1 H2.
  assert (kv_strings (ttl_view now t) = kv_strings (ttl_view now t')) as E1.
  { apply map_eq; intros k. by rewrite !view_strings. }
  assert (kv_hashes (ttl_view now t) = kv_hashes (ttl_view now t')) as E2.
  { apply map_eq; intros k. by rewrite !view_hashes. }
  destruct (ttl_view now t), (ttl_view now t'). simpl in *. by subst.
Qed.

Lemma isExpired_mono now now' k t :
  isExpired now k t = true → now ≤ now' → isExpired now' k t = true.
Proof. unfold isExpired. case_match; [|done]. lia. Qed.

(** Removing a key that has expired is not visible at that or a later instant. *)
Lemma removed_view now now' key t t' :
  removed key t t' → isExpired now key t = true → now ≤ now' → ttl_view now' t' = ttl_view now' t.
Proof.
  intros R Hx Hle. pose proof (isExpired_mono _ _ _ _ Hx Hle) as Hx'.
  assert (∀ k, k ≠ key → isExpired now' k t' = isExpired now' k t) as Hne.
  { intros k Hk. unfold isExpired. rewrite (rm_exp _ _ _ R). by rewrite lookup_delete_ne. }
  apply view_ext; intros k; rewrite (rm_abs _ _ _ R); simpl;
    (destruct (decide (k = key)) as [->|Hk];
      [rewrite Hx', lookup_delete_eq; by case_match
      |rewrite Hne by done; by rewrite lookup_delete_ne]).
Qed.

Lemma sweep_view e now' t t' :
  env_ok e → st_inv (t_inner t) → sweep e t = Ret t' → e_now e ≤ now' →
  ttl_view now' t' = ttl_view now' t.
Proof.
  intros He Hi Hsw Hle. destruct (sweep_spec e t Hi) as (t'' & E & _ & Ha & Hx & _). rewrite E in Hsw. simplify_eq.
  assert (∀ k, isExpired now' k t' = if decide (k ∈ sweep_keys e t) then false else isExpired now' k t) as Hexp.
  { intros k. unfold isExpired. rewrite Hx, foldl_delete_lookup. by case_decide. }
  apply view_ext; intros k; rewrite Hexp, Ha, ?kv_del_all_strings, ?kv_del_all_hashes;
    (case_decide as Hk; [|done]); apply sweep_keys_elem in Hk; [|done| |done];
    by rewrite (isExpired_mono _ _ _ _ Hk Hle).
Qed.

Lemma read_effect_view e key t t' now' :
  read_effect e key t t' → e_now e ≤ now' → ttl_view now' t' = ttl_view now' t.
Proof.
  unfold read_effect. destruct (isExpired _ _ _) eqn:Hx; [|by intros ->].
  intros R Hle. by eapply removed_view.
Qed.
End proofs.

(** ** One key across a trace *)
Definition touches (key : gostring) (o : ttl_op) : bool :=
  match o with
  | TSet k _ | TSetWithTTL k _ _ | TDel k | TExpire k _ | THSet k _ _ => bool_decide (k = key)
  | _ => false
  end.

Section frame.
Context {S : Type} `{!StoreOps S} `{!StoreLaws S}.
Implicit Types (t : TTLStore S) (key value : gostring) (e : Env).

Definition same key t t' : Prop :=
  t_expireAt t' !! key = t_expireAt t !! key ∧
  kv_get key (st_abs (t_inner t')) = kv_get key (st_abs (t_inner t)).

Definition gone key t : Prop :=
  t_expireAt t !! key = None ∧ kv_get key (st_abs (t_inner t)) = None.

Definition frame e key t t' : Prop :=
  same key t t' ∨ (gone key t' ∧ (isExpired (e_now e) key t = true ∨ 0 < t_maxKeys t)).

Lemma removed_gone key t t' : removed key t t' → gone key t'.
Proof. intros [? R1 R2 _ _ _]. unfold gone. rewrite R1, R2. unfold kv_get; simpl. by rewrite !lookup_delete_eq. Qed.

Lemma removed_same key k t t' : k ≠ key → removed k t t' → same key t t'.
Proof.
  intros Hk [? R1 R2 _ _ _]. unfold same. rewrite R1, R2. unfold kv_get; simpl. by rewrite !lookup_delete_ne.
Qed.

Lemma read_effect_frame e k key t t' :
  st_inv (t_inner t) → read_effect e k t t' →
  st_inv (t_inner t') ∧ frame e key t t' ∧ t_maxKeys t' = t_maxKeys t.
Proof.
  intros Hi. unfold read_effect, frame. destruct (isExpired _ k _) eqn:Hx; [|intros ->; split_and!; [done|by left|done]].
  intros R. split_and!; [apply R| |apply R]. destruct (decide (k = key)) as [->|Hk].
  - right. split; [by eapply removed_gone|by left].
  - left. by eapply removed_same.
Qed.

Lemma evict_frame e key t0 t :
  env_ok e → st_inv (t_inner t) → same key t0 t → t_maxKeys t = t_maxKeys t0 →
  ∃ t', evictIfNeeded e t = Ret t' ∧ st_inv (t_inner t') ∧ frame e key t0 t' ∧ t_maxKeys t' = t_maxKeys t0.
Proof.
  intros He Hi Hs Hm. destruct (evictIfNeeded_spec e t He Hi) as (t' & E & Hor).
  exists t'. split; [done|]. destruct Hor as [->|(k & _ & _ & Hev & R)].
  - split_and!; [done|by left|done].
  - split_and!; [apply R| |by rewrite (rm_max _ _ _ R)]. destruct (decide (k = key)) as [->|Hk].
    + right. split; [by eapply removed_gone|]. right. unfold shouldEvict in Hev. lia.
    + left. destruct (removed_same key k t t' Hk R), Hs. split; congruence.
Qed.

Lemma step_frame e o key t :
  env_ok e → st_inv (t_inner t) → touches key o = false →
  ∃ t', ttl_step e o t = Ret t' ∧ st_inv (t_inner t') ∧ frame e key t t' ∧
        t_maxKeys t' = match o with TPolicy _ n => n | _ => t_maxKeys t end.
Proof.
  intros He Hi Ht. destruct o as [k v|k v ttl|k|k|k ttl|h k v|h k|h| |p n]; simpl in *;
    try apply bool_decide_eq_false in Ht.
  - destruct (Set_unfold e k v t Hi) as (s & -> & ? & Ha). apply evict_frame; [done..| |done].
    split; simpl; [done|]. rewrite Ha. unfold kv_get; simpl. by rewrite lookup_insert_ne.
  - unfold SetWithTTL. destruct (Set_unfold e k v (set_deadline k (e_now e + ttl) t)) as (s & -> & ? & Ha); [done|].
    apply evict_frame; [done..| |done]. split; simpl; [by rewrite lookup_insert_ne|].
    rewrite Ha. unfold kv_get; simpl. by rewrite lookup_insert_ne.
  - destruct (Get_spec e k t Hi) as (t' & -> & ?). exists t'. split; [done|]. by eapply read_effect_frame.
  - destruct (delExpired_removed k t Hi) as (t' & E & R). exists t'. split; [exact E|].
    split_and!; [apply R| |apply R]. left. by eapply removed_same.
  - rewrite Expire_spec by done. destruct (kv_get k _); simpl; eexists; (split_and!; [done|done| |done]); left;
      [|done]. split; simpl; [by rewrite lookup_insert_ne|done].
  - destruct (HSet_unfold e h k v t Hi) as (s & -> & ? & Ha). apply evict_frame; [done..| |done].
    split; simpl; [done|]. by rewrite Ha.
  - destruct (HGet_spec e h k t Hi) as (t' & -> & ?). exists t'. split; [done|]. by eapply read_effect_frame.
  - destruct (HGetAll_spec e h t Hi) as (t' & -> & ?). exists t'. split; [done|]. by eapply read_effect_frame.
  - destruct (sweep_spec e t Hi) as (t' & -> & ? & E1 & E2 & _ & ?). exists t'. split_and!; [done..| |done].
    destruct (decide (key ∈ sweep_keys e t)) as [Hk|Hk].
    + right. split; [|left; by apply sweep_keys_elem]. unfold gone, kv_get.
      rewrite E1, E2, foldl_delete_lookup, kv_del_all_strings. by rewrite !decide_True by done.
    + left. unfold same, kv_get. rewrite E1, E2, foldl_delete_lookup, kv_del_all_strings.
      by rewrite !decide_False by done.
  - eexists. split_and!; [done..| |done]. by left.
Qed.

(** A trace that leaves the key alone and never sets a key limit. *)
Definition unlimited (o : ttl_op) : bool := match o with TPolicy _ n => n <=? 0 | _ => true end.

Lemma run_alive os key t exp v :
  st_inv (t_inner t) → t_maxKeys t ≤ 0 →
  t_expireAt t !! key = Some exp → kv_get key (st_abs (t_inner t)) = Some v →
  Forall (λ eo, env_ok eo.1 ∧ e_now eo.1 ≤ exp ∧ touches key eo.2 = false ∧ unlimited eo.2 = true) os →
  ∃ t', ttl_run os t = Ret t' ∧ st_inv (t_inner t') ∧ t_maxKeys t' ≤ 0 ∧
    t_expireAt t' !! key = Some exp ∧ kv_get key (st_abs (t_inner t')) = Some v.
Proof.
  intros Hi Hm He Hg Hos. revert t Hi Hm He Hg.
  induction Hos as [|[e o] os (Heo & Hn & Ht & Hu) Hos IH]; intros t Hi Hm He Hg; [by exists t|].
  destruct (step_frame e o key t Heo Hi Ht) as (t1 & E & Hi1 & Hf & Hm1).
  unfold ttl_run; simpl in *. rewrite E. simpl. apply IH; [done| | |].
  - rewrite Hm1. destruct o; simpl in *; lia.
  - destruct Hf as [[-> _]|[_ [Hx|?]]]; [done| |lia]. unfold isExpired in Hx. rewrite He in Hx. lia.
  - destruct Hf as [[_ ->]|[_ [Hx|?]]]; [done| |lia]. unfold isExpired in Hx. rewrite He in Hx. lia.
Qed.

Lemma run_expiring os key t exp :
  st_inv (t_inner t) → t_expireAt t !! key = Some exp ∨ gone key t →
  Forall (λ eo, env_ok eo.1 ∧ touches key eo.2 = false) os →
  ∃ t', ttl_run os t = Ret t' ∧ st_inv (t_inner t') ∧ (t_expireAt t' !! key = Some exp ∨ gone key t').
Proof.
  intros Hi Hd Hos. revert t Hi Hd. induction Hos as [|[e o] os (Heo & Ht) Hos IH]; intros t Hi Hd; [by exists t|].
  destruct (step_frame e o key t Heo Hi Ht) as (t1 & E & Hi1 & Hf & _).
  unfold ttl_run; simpl in *. rewrite E. simpl. apply IH; [done|].
  destruct Hf as [[H1 H2]|[? _]]; [|by right]. destruct Hd as [Hd|[Hd1 Hd2]].
  - left. congruence.
  - right. split; congruence.
Qed.

Lemma Get_past_deadline e key t exp :
  st_inv (t_inner t) → t_expireAt t !! key = Some exp ∨ gone key t → exp < e_now e →
  ∃ t', TTLStore_Get e key t = Ret (t', None).
Proof.
  intros Hi Hd Hlt. destruct (Get_spec e key t Hi) as (t' & E & _). exists t'. rewrite E.
  destruct Hd as [Hx|[Hx Hg]]; unfold isExpired; rewrite Hx.
  - by rewrite (proj2 (Z.ltb_lt _ _) Hlt).
  - by rewrite Hg.
Qed.

(** [Set] when no key limit is configured. *)
Lemma Set_unlimited e key value t :
  st_inv (t_inner t) → t_maxKeys t ≤ 0 →
  ∃ t', TTLStore_Set e key value t = Ret t' ∧ st_inv (t_inner t') ∧
    st_abs (t_inner t') = kv_set key value (st_abs (t_inner t)) ∧
    t_expireAt t' = t_expireAt t ∧ t_maxKeys t' = t_maxKeys t.
Proof.
  intros Hi Hm. destruct (Set_unfold e key value t Hi) as (s & -> & ? & ?).
  unfold evictIfNeeded. replace (shouldEvict _) with false; [by eauto 10|].
  symmetry. unfold shouldEvict; simpl. lia.
Qed.
End frame.

(** ** Capacity *)
Definition fixed_policy (o : ttl_op) : bool := match o with TPolicy _ _ => false | _ => true end.

(** The key an operation may add. *)
Definition op_writes (o : ttl_op) : option gostring :=
  match o with TSet k _ | TSetWithTTL k _ _ | THSet k _ _ => Some k | _ => None end.

Definition allkeys (p : Policy) : bool := match p with LRU _ | LFU _ | RandomP => true | _ => false end.

Section capacity.
Context {S : Type} `{!StoreOps S} `{!StoreLaws S}.
Implicit Types (t : TTLStore S) (key value : gostring) (e : Env).

(** [sweep] ends where deleting the expired keys one by one ends. *)
Lemma sweep_as_removals e t : sweep e t = go_foldl delExpired (sweep_keys e t) t.
Proof.
  assert (∀ k s x a p m d, delExpired k (mkTTLStore s x a p m d) =
    s' ← st_Del k s; Ret (mkTTLStore s' (delete k x) (a ∖ {[k]}) (Policy_Delete k p) m d)) as Hdel by done.
  assert (∀ k s x a p m d, sweep_one k (mkTTLStore s x a p m d) =
    s' ← st_Del k s; Ret (mkTTLStore s' x a (Policy_Delete k p) m d)) as Hone by done.
  unfold sweep. generalize (sweep_keys e t) as ks. destruct t as [s x a p m d]. intros ks.
  cbn [t_inner t_expireAt t_allKeys t_policy t_maxKeys t_done].
  revert s x a p. induction ks as [|k ks IH]; intros s x a p; [done|].
  cbn [go_foldl foldl]. rewrite Hdel, Hone. destruct (st_Del k s) as [s'| | |]; [|done..]. exact (IH _ _ _ _).
Qed.

Lemma removals_pres (P : TTLStore S → Prop) ks t t' :
  (∀ u, P u → st_inv (t_inner u)) → (∀ k u u', P u → removed k u u' → P u') →
  P t → go_foldl delExpired ks t = Ret t' → P t'.
Proof.
  intros Hi Hr. revert t; induction ks as [|k ks IH]; intros t HP E; [by simplify_eq/=|].
  destruct (delExpired_removed k t (Hi t HP)) as (t1 & E1 & R). simpl in E. rewrite E1 in E. simpl in E. eauto.
Qed.

(** A property kept by deletions, by [Record], by new deadlines and by a
    write followed by its eviction is kept by every operation. *)
Lemma ttl_step_pres (P : TTLStore S → Prop) e o t t' :
  (∀ u, P u → st_inv (t_inner u)) →
  (∀ k u u', P u → removed k u u' → P u') →
  (∀ k n u, P u → P (with_policy (Policy_Record n k (t_policy u)) u)) →
  (∀ k x u, P u → P (set_deadline k x u)) →
  (∀ k s u u', op_writes o = Some k → P u → st_inv s →
     evictIfNeeded e (track e k (with_inner s u)) = Ret u' → P u') →
  fixed_policy o = true → P t → ttl_step e o t = Ret t' → P t'.
Proof.
  intros Hi Hr Hrec Hdl Hw Hf HP E.
  assert (∀ k u u', P u → read_effect e k u u' → P u') as Hread.
  { intros k u u' Hu. unfold read_effect. case_match; [by apply Hr|intros ->; by apply Hrec]. }
  destruct o as [k v|k v ttl|k|k|k ttl|h k v|h k|h| |p n]; simpl in *; [..|done].
  - destruct (Set_unfold e k v t (Hi _ HP)) as (s & Eq & ? & _). rewrite Eq in E. by eapply Hw.
  - pose proof (Hdl k (e_now e + ttl) t HP) as HP'. unfold SetWithTTL in E.
    destruct (Set_unfold e k v _ (Hi _ HP')) as (s & Eq & Hs & _). rewrite Eq in E. exact (Hw k s _ t' eq_refl HP' Hs E).
  - destruct (Get_spec e k t (Hi _ HP)) as (u & Eq & ?). rewrite Eq in E. simplify_eq/=. by eapply Hread.
  - destruct (delExpired_removed k t (Hi _ HP)) as (u & Eq & ?). change (delExpired k t = Ret t') in E. rewrite Eq in E. simplify_eq/=. by eapply Hr.
  - rewrite Expire_spec in E by by apply Hi. destruct (kv_get _ _); simplify_eq/=; auto.
  - destruct (HSet_unfold e h k v t (Hi _ HP)) as (s & Eq & ? & _). rewrite Eq in E. by eapply Hw.
  - destruct (HGet_spec e h k t (Hi _ HP)) as (u & Eq & ?). rewrite Eq in E. simplify_eq/=. by eapply Hread.
  - destruct (HGetAll_spec e h t (Hi _ HP)) as (u & Eq & ?). rewrite Eq in E. simplify_eq/=. by eapply Hread.
  - rewrite sweep_as_removals in E. by eapply removals_pres.
Qed.

Lemma Policy_Record_allkeys n k p : allkeys (Policy_Record n k p) = allkeys p.
Proof. by destruct p. Qed.
Lemma Policy_Delete_allkeys k p : allkeys (Policy_Delete k p) = allkeys p.
Proof. by destruct p. Qed.

(** With an all-keys policy and no empty key a needed eviction takes place. *)
Lemma evict_happens e t :
  env_ok e → st_inv (t_inner t) → allkeys (t_policy t) = true → [] ∉ t_allKeys t → shouldEvict t = true →
  ∃ t' k, evictIfNeeded e t = Ret t' ∧ k ∈ t_allKeys t ∧ removed k t t' ∧
    Policy_Evict (e_evict e) (e_rnd e (length (candidates e t))) (candidates e t) (t_expireAt t) (t_policy t) = Ret k.
Proof.
  intros He Hi Hp Hn Hs.
  assert (candidates e t = e_order e (t_allKeys t)) as Hc by (unfold candidates; by destruct (t_policy t)).
  assert (∀ k, k ∈ candidates e t ↔ k ∈ t_allKeys t) as Hce.
  { intros k. rewrite Hc, (proj1 He), elem_of_elements. done. }
  assert (candidates e t ≠ []) as Hne.
  { intros H0. assert (t_allKeys t = ∅) as H1 by (apply elem_of_equiv_empty_L; intros k; rewrite <-Hce, H0; apply not_elem_of_nil).
    unfold shouldEvict in Hs. rewrite H1, size_empty in Hs. apply andb_true_iff in Hs as [?%Z.ltb_lt ?%Z.ltb_lt]. lia. }
  unfold evictIfNeeded. rewrite Hs. simpl negb. cbv iota zeta. clear Hc.
  destruct (Policy_Evict_candidate (e_evict e) (e_rnd e (length (candidates e t))) (candidates e t)
    (t_expireAt t) (t_policy t)) as (k & Hk & Hin).
  { apply He. destruct (candidates e t); [done|simpl; lia]. }
  assert (k ∈ t_allKeys t) as Hkin.
  { apply Hce. destruct Hin as [->|?]; [|done]. destruct (candidates e t) as [|c cs] eqn:Ec; [done|].
    destruct (t_policy t); simpl in Hp, Hk; try done.
    - injection Hk as Hk. rewrite <-Hk. apply scan_cons_elem.
    - injection Hk as Hk. rewrite <-Hk. apply scan_cons_elem.
    - unfold RandomPolicy_Evict in Hk. case_match eqn:El; [|done]. simplify_eq. by eapply list_elem_of_lookup_2. }
  destruct (candidates e t) as [|c cs]; [done|]. rewrite Hk. simpl.
  rewrite bool_decide_eq_false_2 by (intros ->; done).
  destruct (delExpired_removed k t Hi) as (t' & -> & R). by exists t', k.
Qed.

Definition cap_inv (m : Z) t : Prop :=
  st_inv (t_inner t) ∧ ¬ ([] ∈ t_allKeys t) ∧ allkeys (t_policy t) = true ∧ t_maxKeys t = m ∧
  Z.of_nat (size (t_allKeys t)) ≤ m.

Lemma cap_removed m k t t' : cap_inv m t → removed k t t' → cap_inv m t'.
Proof.
  intros (Hi & Hn & Hp & Hm & Hs) R. unfold cap_inv.
  rewrite (rm_all _ _ _ R), (rm_pol _ _ _ R), Policy_Delete_allkeys, (rm_max _ _ _ R).
  split_and!; [apply R|set_solver|done|done|]. pose proof (subseteq_size (t_allKeys t ∖ {[k]}) (t_allKeys t)). set_solver by lia.
Qed.

Lemma cap_write m e k s t t' :
  env_ok e → 0 < m → k ≠ [] → cap_inv m t → st_inv s →
  evictIfNeeded e (track e k (with_inner s t)) = Ret t' → cap_inv m t'.
Proof.
  intros He Hm0 Hk (Hi & Hn & Hp & Hm & Hs) Hs' E.
  set (u := track e k (with_inner s t)) in *.
  assert (allkeys (t_policy u) = true) by (unfold u; simpl; by rewrite Policy_Record_allkeys).
  assert ([] ∉ t_allKeys u) by (unfold u; simpl; set_solver).
  assert (size (t_allKeys u) ≤ size (t_allKeys t) + 1)%nat as Hsz.
  { unfold u; simpl. pose proof (size_union_alt {[k]} (t_allKeys t)) as H1.
    rewrite size_singleton in H1. pose proof (subseteq_size (t_allKeys t ∖ {[k]}) (t_allKeys t)) as H2. set_solver by lia. }
  destruct (shouldEvict u) eqn:Hse.
  - destruct (evict_happens e u) as (t1 & v & E1 & Hv & R & _); [done..|]. rewrite E1 in E. simplify_eq.
    unfold cap_inv. rewrite (rm_all _ _ _ R), (rm_pol _ _ _ R), Policy_Delete_allkeys, (rm_max _ _ _ R).
    split_and!; [apply R|set_solver|done|done|].
    rewrite size_difference by set_solver. rewrite size_singleton.
    assert (size (t_allKeys u) ≠ 0)%nat by (apply size_non_empty_iff; set_solver). lia.
  - unfold evictIfNeeded in E. rewrite Hse in E. simpl in E. injection E as <-. unfold cap_inv. split_and!; try done.
    unfold shouldEvict in Hse. change (t_maxKeys u) with (t_maxKeys t) in Hse. lia.
Qed.
End capacity.

(** ** Theorems *)
Section theorems.
Context {S : Type} `{!StoreOps S} `{!StoreLaws S}.
Implicit Types (t : TTLStore S) (key value : gostring) (e : Env).

(** The LRU state knows every tracked key. *)
Definition lru_ok t : Prop :=
  st_inv (t_inner t) ∧ ∃ q, t_policy t = LRU q ∧ t_allKeys t ⊆ dom (lru_access q).

Lemma lru_removed k t t' : lru_ok t → removed k t t' → lru_ok t'.
Proof.
  intros (Hi & q & Hq & Hd) R. split; [apply R|]. rewrite (rm_pol _ _ _ R), (rm_all _ _ _ R), Hq.
  eexists. split; [done|]. simpl. rewrite dom_delete_L. set_solver.
Qed.

Lemma lru_track e k s t : lru_ok t → st_inv s → lru_ok (track e k (with_inner s t)).
Proof.
  intros (Hi & q & Hq & Hd) Hs. split; [exact Hs|]. simpl. rewrite Hq. eexists. split; [done|].
  simpl. rewrite dom_insert_L. set_solver.
Qed.

Lemma lru_run os t t' :
  Forall (λ eo, env_ok eo.1 ∧ fixed_policy eo.2 = true) os → lru_ok t → ttl_run os t = Ret t' → lru_ok t'.
Proof.
  intros Hos. revert t; induction Hos as [|[e o] os [He Hf] Hos IH]; intros t Hl E; [by injection E as <-|].
  unfold ttl_run in E; simpl in E. go_inv. eapply IH; [|done]. eapply ttl_step_pres; [..|exact Ego]; try done.
  - by intros u [? _].
  - intros k u u'. apply lru_removed.
  - intros k n u (Hi & q & Hq & Hd). split; [exact Hi|]. simpl. rewrite Hq. eexists. split; [done|].
    simpl. rewrite dom_insert_L. set_solver.
  - intros k s u u' _ Hu Hs Ev. pose proof (lru_track e k s u Hu Hs) as Hl'.
    destruct (evictIfNeeded_spec e _ He (proj1 Hl')) as (u'' & Eq & Hor). rewrite Eq in Ev. simplify_eq.
    destruct Hor as [->|(k' & _ & _ & _ & R)]; [done|]. by eapply lru_removed.
Qed.

Lemma cap_run m os t t' :
  0 < m → Forall (λ eo, env_ok eo.1 ∧ fixed_policy eo.2 = true ∧ op_writes eo.2 ≠ Some []) os →
  cap_inv m t → ttl_run os t = Ret t' → cap_inv m t'.
Proof.
  intros Hm Hos. revert t; induction Hos as [|[e o] os (He & Hf & Hk) Hos IH]; intros t Hc E; [by injection E as <-|].
  unfold ttl_run in E; simpl in E. go_inv. eapply IH; [|done].
  eapply (ttl_step_pres (cap_inv m)); [..|exact Ego]; try done.
  - by intros u [? _].
  - intros k u u'. apply cap_removed.
  - intros k n u (? & ? & Hp & ? & ?). unfold cap_inv; simpl. by rewrite Policy_Record_allkeys.
  - intros k s u u' Hw Hu Hs Ev. eapply cap_write; [done..| |exact Hu|exact Hs|exact Ev]. intros ->. by apply Hk.
Qed.

Lemma fresh_cap (p : Policy) m (s : S) :
  st_inv s → 0 < m → allkeys p = true → cap_inv m (SetEvictionPolicy p m (NewTTLStore s)).
Proof.
  intros Hi Hm Hp. split_and!; [done|apply not_elem_of_empty|done|done|].
  change (Z.of_nat (size (∅ : gset gostring)) ≤ m). rewrite size_empty. lia.
Qed.

(** C22: Whatever is called, in whatever order and whatever the clock, the map
    order and the random index are, every call on a TTL store over a fresh
    inner store returns, and afterwards the tracked keys are exactly the keys
    of the inner store and only tracked keys have a deadline. *)
Theorem ttl_bookkeeping (os : list (Env * ttl_op)) (s : S) :
  st_inv s → st_abs s = kv_empty → Forall (λ eo, env_ok eo.1) os →
  ∃ t', ttl_run os (NewTTLStore s) = Ret t' ∧ KeyCount t' = size (kv_dom (st_abs (t_inner t'))) ∧
        t_allKeys t' = kv_dom (st_abs (t_inner t')) ∧ dom (t_expireAt t') ⊆ t_allKeys t'.
Proof.
  intros Hi Ha Hos. destruct (ttl_run_inv os (NewTTLStore s) Hos) as (t' & E & _ & Hk & Hd); [by apply NewTTLStore_inv|].
  exists t'. unfold KeyCount. split_and!; [done| |done..]. by rewrite Hk.
Qed.

(** C8: A read answers what the inner store holds restricted to the keys
    whose deadline has not passed, and neither a read (which may delete an
    expired key) nor a background sweep changes what is visible from that
    instant on. *)
Theorem ttl_reads_view e t :
  env_ok e → st_inv (t_inner t) →
  (∀ key, ∃ t', TTLStore_Get e key t = Ret (t', kv_get key (ttl_view (e_now e) t)) ∧
     ∀ now', e_now e ≤ now' → ttl_view now' t' = ttl_view now' t) ∧
  (∀ hash key, ∃ t', TTLStore_HGet e hash key t = Ret (t', kv_hget hash key (ttl_view (e_now e) t)) ∧
     ∀ now', e_now e ≤ now' → ttl_view now' t' = ttl_view now' t) ∧
  (∀ hash, ∃ t', TTLStore_HGetAll e hash t = Ret (t', kv_hgetall hash (ttl_view (e_now e) t)) ∧
     ∀ now', e_now e ≤ now' → ttl_view now' t' = ttl_view now' t) ∧
  (∃ t', sweep e t = Ret t' ∧ ∀ now', e_now e ≤ now' → ttl_view now' t' = ttl_view now' t).
Proof.
  intros He Hi. split_and!.
  - intros key. destruct (Get_spec e key t Hi) as (t' & E & R). exists t'. split.
    + rewrite E. unfold kv_get at 2. by rewrite view_strings.
    + intros now' Hle. by eapply read_effect_view.
  - intros hash key. destruct (HGet_spec e hash key t Hi) as (t' & E & R). exists t'. split.
    + rewrite E. unfold kv_hget at 2. rewrite view_hashes. by destruct (isExpired _ _ _).
    + intros now' Hle. by eapply read_effect_view.
  - intros hash. destruct (HGetAll_spec e hash t Hi) as (t' & E & R). exists t'. split.
    + rewrite E. unfold kv_hgetall at 2. by rewrite view_hashes.
    + intros now' Hle. by eapply read_effect_view.
  - destruct (sweep_spec e t Hi) as (t' & E & _). exists t'. split; [done|]. intros. by eapply sweep_view.
Qed.

(** C17: A value set with a TTL is served up to its deadline and not after it:
    when no key limit is set, any calls on other keys, reads, sweeps and
    policy changes may come in between. *)
Theorem ttl_served_until_deadline e key value ttl t os e' :
  env_ok e → st_inv (t_inner t) → t_maxKeys t ≤ 0 →
  Forall (λ eo, env_ok eo.1 ∧ e_now eo.1 ≤ e_now e' ∧ touches key eo.2 = false ∧ unlimited eo.2 = true) os →
  ∃ t1 t2 t3, SetWithTTL e key value ttl t = Ret t1 ∧ ttl_run os t1 = Ret t2 ∧
    TTLStore_Get e' key t2 = Ret (t3, if e_now e' <=? e_now e + ttl then Some value else None).
Proof.
  intros He Hi Hm Hos. unfold SetWithTTL.
  destruct (Set_unlimited e key value (set_deadline key (e_now e + ttl) t) Hi Hm) as (t1 & E1 & Hi1 & Ha1 & Hx1 & Hm1).
  assert (t_expireAt t1 !! key = Some (e_now e + ttl)) as Hdl by (rewrite Hx1; apply lookup_insert_eq).
  destruct (Z.leb_spec (e_now e') (e_now e + ttl)) as [Hle|Hlt].
  - destruct (run_alive os key t1 (e_now e + ttl) value) as (t2 & E2 & Hi2 & _ & Hx2 & Hg2);
      [done|by rewrite Hm1|done|rewrite Ha1; apply lookup_insert_eq| |].
    { eapply Forall_impl; [exact Hos|]. intros eo (? & ? & ? & ?). split_and!; [done|lia|done|done]. }
    destruct (Get_spec e' key t2 Hi2) as (t3 & E3 & _). exists t1, t2, t3. split_and!; [done..|].
    rewrite E3, Hg2. unfold isExpired. rewrite Hx2. by rewrite (proj2 (Z.ltb_ge _ _) Hle).
  - destruct (run_expiring os key t1 (e_now e + ttl) Hi1) as (t2 & E2 & Hi2 & Hd2); [by left| |].
    { eapply Forall_impl; [exact Hos|]. by intros eo (? & ? & ? & ?). }
    destruct (Get_past_deadline e' key t2 _ Hi2 Hd2 Hlt) as (t3 & E3). by exists t1, t2, t3.
Qed.

(** The deadline of a key holds under a key limit too: once it has
    passed, no sequence of calls on other keys, reads, sweeps and evictions
    makes the value visible again. *)
Theorem ttl_never_served_late e key value ttl t os e' :
  env_ok e → st_inv (t_inner t) → e_now e + ttl < e_now e' →
  Forall (λ eo, env_ok eo.1 ∧ touches key eo.2 = false) os →
  ∃ t1 t2 t3, SetWithTTL e key value ttl t = Ret t1 ∧ ttl_run os t1 = Ret t2 ∧
    TTLStore_Get e' key t2 = Ret (t3, None).
Proof.
  intros He Hi Hlt Hos. unfold SetWithTTL.
  destruct (Set_unfold e key value (set_deadline key (e_now e + ttl) t) Hi) as (s & Es & Hs & _).
  set (u := track e key (with_inner s (set_deadline key (e_now e + ttl) t))) in *.
  destruct (evict_frame e key u u He Hs) as (t1 & E1 & Hi1 & Hf & _); [by split|done|].
  destruct (run_expiring os key t1 (e_now e + ttl) Hi1) as (t2 & E2 & Hi2 & Hd2); [|done|].
  { destruct Hf as [[Hx _]|[? _]]; [|by right]. left. rewrite Hx. simpl. apply lookup_insert_eq. }
  destruct (Get_past_deadline e' key t2 _ Hi2 Hd2 Hlt) as (t3 & E3). exists t1, t2, t3.
  rewrite Es. done.
Qed.

(** C18: With an LRU, LFU or random policy and a limit of [m > 0] keys, set on a
    TTL store over an empty store and not changed later, the store never holds
    more than [m] keys, provided no empty key is written. *)
Theorem ttl_capacity (p : Policy) (m : Z) (os : list (Env * ttl_op)) (s : S) :
  st_inv s → st_abs s = kv_empty → 0 < m → allkeys p = true →
  Forall (λ eo, env_ok eo.1 ∧ fixed_policy eo.2 = true ∧ op_writes eo.2 ≠ Some []) os →
  ∃ t', ttl_run os (SetEvictionPolicy p m (NewTTLStore s)) = Ret t' ∧
        Z.of_nat (size (kv_dom (st_abs (t_inner t')))) ≤ m.
Proof.
  intros Hi Ha Hm Hp Hos. destruct (ttl_run_inv os (SetEvictionPolicy p m (NewTTLStore s))) as (t' & E & _ & Hk & _).
  { eapply Forall_impl; [exact Hos|]. by intros ? [? _]. }
  { by apply (NewTTLStore_inv s). }
  exists t'. split; [done|]. rewrite <-Hk. eapply (cap_run m os _ t'); [done..| |exact E].
  by apply fresh_cap.
Qed.

End theorems.

(** ** Witnesses, on the map store *)
Definition ttl0 : TTLStore MapStore := NewTTLStore NewMapStore.

(** The calls of a trace, with the clock of each. *)
Definition trace (os : list (Z * ttl_op)) : list (Env * ttl_op) := prod_map env_at id <$> os.

Lemma trace_ok os : Forall (λ eo, env_ok eo.1) (trace os).
Proof. apply Forall_fmap, Forall_true. intros [n o]. apply env_at_ok. Qed.

(** Discharge the side conditions on the calls of a concrete trace. *)
Ltac solve_trace :=
  repeat first [apply Forall_nil_2 | apply Forall_cons_2]; simpl;
  repeat match goal with |- _ ∧ _ => split end;
  first [apply env_at_ok | reflexivity | lia | discriminate | vm_compute; reflexivity].

Lemma ttl_bookkeeping_witness :
  let os := trace [(0, TSet (str "a") (str "1")); (1, TSetWithTTL (str "b") (str "2") 5);
                   (3, THSet (str "h") (str "f") (str "v")); (9, TSweep); (10, TDel (str "a"))] in
  ∃ t', ttl_run os ttl0 = Ret t' ∧ KeyCount t' = size (kv_dom (st_abs (t_inner t'))) ∧
        t_allKeys t' = kv_dom (st_abs (t_inner t')) ∧ dom (t_expireAt t') ⊆ t_allKeys t'.
Proof. intros os. apply ttl_bookkeeping; [done|reflexivity|apply trace_ok]. Defined.

Lemma ttl_reads_view_witness :
  ∃ t', TTLStore_Get (env_at 9) (str "b") (set_deadline (str "b") 5 ttl0)
        = Ret (t', kv_get (str "b") (ttl_view 9 (set_deadline (str "b") 5 ttl0))) ∧
        ∀ now', 9 ≤ now' → ttl_view now' t' = ttl_view now' (set_deadline (str "b") 5 ttl0).
Proof.
  destruct (ttl_reads_view (env_at 9) (set_deadline (str "b") 5 ttl0) (env_at_ok 9)) as [H _]; [exact I|]. apply H.
Defined.

Lemma ttl_served_until_deadline_witness :
  ∃ t1 t2 t3, SetWithTTL (env_at 100) (str "k") (str "v") 50 ttl0 = Ret t1 ∧
    ttl_run (trace [(110, TSet (str "x") (str "y")); (120, TSweep); (130, TGet (str "k"))]) t1 = Ret t2 ∧
    TTLStore_Get (env_at 140) (str "k") t2 = Ret (t3, Some (str "v")).
Proof.
  apply (ttl_served_until_deadline (env_at 100) (str "k") (str "v") 50 ttl0 _ (env_at 140)).
  - apply env_at_ok.
  - done.
  - simpl. lia.
  - solve_trace.
Defined.

Lemma ttl_never_served_late_witness :
  ∃ t1 t2 t3, SetWithTTL (env_at 100) (str "k") (str "v") 50 ttl0 = Ret t1 ∧
    ttl_run (trace [(110, TSet (str "x") (str "y")); (120, TSweep); (130, TGet (str "k"))]) t1 = Ret t2 ∧
    TTLStore_Get (env_at 151) (str "k") t2 = Ret (t3, None).
Proof.
  apply (ttl_never_served_late (env_at 100) (str "k") (str "v") 50 ttl0 _ (env_at 151)).
  - apply env_at_ok.
  - done.
  - simpl. lia.
  - solve_trace.
Defined.

Lemma ttl_capacity_witness :
  ∃ t', ttl_run (trace [(1, TSet (str "a") (str "1")); (2, TSet (str "b") (str "2"));
                        (3, TGet (str "a")); (4, THSet (str "c") (str "f") (str "3"))])
          (SetEvictionPolicy (LRU NewLRUPolicy) 2 ttl0) = Ret t' ∧
        Z.of_nat (size (kv_dom (st_abs (t_inner t')))) ≤ 2.
Proof.
  apply ttl_capacity; [done|reflexivity|lia|reflexivity|].
  solve_trace.
Defined.


(** A plain [Set] keeps the deadline its key already has: the new value
    is dropped when that deadline passes, even when the [Set] came after it. *)
Theorem ttl_set_keeps_deadline {S} `{!StoreOps S} `{!StoreLaws S} (e e' : Env) key value (t : TTLStore S) exp :
  st_inv (t_inner t) → t_maxKeys t ≤ 0 → t_expireAt t !! key = Some exp → exp < e_now e' →
  ∃ t1 t2, TTLStore_Set e key value t = Ret t1 ∧ TTLStore_Get e' key t1 = Ret (t2, None).
Proof.
  intros Hi Hm Hx Hlt. destruct (Set_unlimited e key value t Hi Hm) as (t1 & E1 & Hi1 & _ & Hx1 & _).
  destruct (Get_past_deadline e' key t1 exp Hi1) as (t2 & E2); [left; by rewrite Hx1|done|]. by exists t1, t2.
Qed.

Lemma ttl_set_keeps_deadline_witness :
  ∃ t1 t2, TTLStore_Set (env_at 200) (str "k") (str "new") (set_deadline (str "k") 150 ttl0) = Ret t1 ∧
    TTLStore_Get (env_at 201) (str "k") t1 = Ret (t2, None).
Proof.
  apply (ttl_set_keeps_deadline (env_at 200) (env_at 201) (str "k") (str "new") (set_deadline (str "k") 150 ttl0) 150).
  - done.
  - simpl. lia.
  - reflexivity.
  - simpl. lia.
Defined.

(** The empty key defeats the limit: once it is the policy's victim,
    [evictIfNeeded] takes it for "no victim" and the store grows. *)
Theorem ttl_empty_key_defeats_limit :
  ∃ t, ttl_run (trace [(1, TSet [] (str "x")); (2, TSet (str "a") (str "1")); (3, TSet (str "b") (str "2"));
                       (4, TSet (str "c") (str "3"))])
         (SetEvictionPolicy (LRU NewLRUPolicy) 1 ttl0) = Ret t ∧ KeyCount t = 4%nat ∧ t_maxKeys t = 1.
Proof. eexists. split; [vm_compute; reflexivity|]. vm_compute. done. Qed.

(** Reads grow the policy: [Get] records its key before it looks it up, so
    every key ever asked for stays in the access map of the LRU policy, also
    keys that never existed, which no deletion or eviction removes. *)
Theorem ttl_misses_grow_policy {S} `{!StoreOps S} `{!StoreLaws S} (os : list (Env * gostring)) (t : TTLStore S) p :
  st_inv (t_inner t) → t_expireAt t = ∅ → t_policy t = LRU p →
  ∃ t' p', ttl_run ((λ ek, (ek.1, TGet ek.2)) <$> os) t = Ret t' ∧ t_inner t' = t_inner t ∧ t_allKeys t' = t_allKeys t ∧
    t_policy t' = LRU p' ∧ dom (lru_access p') = dom (lru_access p) ∪ list_to_set os.*2.
Proof.
  intros Hi Hx. revert t p Hi Hx. induction os as [|[e k] os IH]; intros t p Hi Hx Hp.
  - exists t, p. split; [done|]. split_and!; [done..|]. set_solver.
  - rewrite fmap_cons. unfold ttl_run. cbn [go_foldl ttl_step fst snd]. unfold TTLStore_Get, isExpired. rewrite Hx, lookup_empty.
    cbn [t_inner with_policy]. rewrite law_Get by done. cbn [mbind go_bind fmap go_fmap fst].
    destruct (IH (with_policy (Policy_Record (e_rec e) k (t_policy t)) t) (LRUPolicy_Record (e_rec e) k p))
      as (t' & p' & E & H1 & H2 & H3 & H4); [exact Hi|exact Hx|simpl; by rewrite Hp|].
    exists t', p'. split; [exact E|]. split_and!; [done..|]. rewrite H4. unfold LRUPolicy_Record. cbn [lru_access].
    rewrite dom_insert_L. cbn [fmap list_fmap list_to_set snd]. set_solver.
Qed.

Lemma ttl_misses_grow_policy_witness :
  ∃ t' p', ttl_run ((λ ek, (ek.1, TGet ek.2)) <$> [(env_at 1, str "x"); (env_at 2, str "y")])
      (SetEvictionPolicy (LRU NewLRUPolicy) 1 ttl0) = Ret t' ∧ KeyCount t' = 0%nat ∧
    t_policy t' = LRU p' ∧ dom (lru_access p') = dom (lru_access NewLRUPolicy) ∪ list_to_set [str "x"; str "y"].
Proof.
  destruct (ttl_misses_grow_policy [(env_at 1, str "x"); (env_at 2, str "y")] (SetEvictionPolicy (LRU NewLRUPolicy) 1 ttl0) NewLRUPolicy)
    as (t' & p' & E & _ & Hk & Hp & Hd); [done|done|done|].
  exists t', p'. split; [exact E|]. split; [unfold KeyCount; by rewrite Hk|]. split; [exact Hp|exact Hd].
Defined.
