(* ===== verification/TTLConc.v ===== *)
(** * TTLConc: goroutines inside the TTL store, src/store/ttl.go

    The methods of [TTLStore] take the mutex several times: between two lock
    regions, and between them and the calls of the inner store, other
    goroutines run.  Here a method is the list of its atomic steps, a
    schedule names the goroutine that runs next, and the shared state is the
    content of the inner store (whose calls are atomic), the deadlines and
    the tracked keys.  The policy is reduced to its choice of a victim. *)

From stdpp Require Import base list gmap strings.
From Stdlib Require Import ZArith Lia.
From S2P Require Import Prelude GoLib StoreSpec Evict TTLStore.

Record shared := mkShared {
  cs_kv : kv;
  cs_exp : gmap gostring Z;
  cs_keys : gset gostring;
  cs_max : Z
}.

(** The atomic steps. *)
Inductive instr :=
| ISet (k v : gostring)                 (* t.inner.Set *)
| IHSet (h k v : gostring)              (* t.inner.HSet *)
| IDel (k : gostring)                   (* t.inner.Del *)
| IRead                                 (* t.inner.Get, HGet, HGetAll *)
| ITrack (k : gostring)                 (* the lock region of track *)
| IUntrack (k : gostring)               (* the lock region of untrack *)
| IDeadline (k : gostring) (exp : Z)    (* t.expireAt[key] = ... *)
| ICheck (now : Z) (k : gostring)       (* isExpired, and the two ways on *)
| IExpire (k : gostring) (exp : Z)      (* the lookup of Expire *)
| IOver                                 (* the size test of evictIfNeeded *)
| ICandidates (volatile : bool)         (* candidates *)
| IVictim (ks : list gostring)          (* policy.Evict *)
| ISweep (now : Z).                     (* the lock region of sweep *)

(** ** The methods *)
Definition conc_evict : list instr := [IOver].
Definition conc_Set (k v : gostring) : list instr := ISet k v :: ITrack k :: conc_evict.
Definition conc_SetWithTTL (k v : gostring) (exp : Z) : list instr := IDeadline k exp :: conc_Set k v.
Definition conc_HSet (h k v : gostring) : list instr := IHSet h k v :: ITrack h :: conc_evict.
Definition conc_delExpired (k : gostring) : list instr := [IUntrack k; IDel k].
Definition conc_Get (now : Z) (k : gostring) : list instr := [ICheck now k].
Definition conc_Del (k : gostring) : list instr := [IUntrack k; IDel k].
Definition conc_Expire (k : gostring) (exp : Z) : list instr := [IExpire k exp].
Definition conc_sweep (now : Z) : list instr := [ISweep now].

(** ** The steps *)
Definition overdue (now : Z) (k : gostring) (s : shared) : bool :=
  match cs_exp s !! k with Some exp => (exp <? now)%Z | None => false end.

(** What a step leaves open: the goroutine that runs, the victim the policy
    chooses, the order in which Go ranges over a map. *)
Record choice := mkChoice {
  c_run : nat;
  c_pick : gostring;
  c_order : gset gostring → list gostring
}.

Definition overdue_keys (c : choice) (now : Z) (s : shared) : list gostring :=
  filter (λ k, overdue now k s = true) (c_order c (dom (cs_exp s))).

Definition with_kv (a : kv) (s : shared) : shared := mkShared a (cs_exp s) (cs_keys s) (cs_max s).

(** A step, and the steps it puts before the rest of the goroutine. *)
Definition iexec (volatile : bool) (c : choice) (i : instr) (s : shared) : shared * list instr :=
  match i with
  | ISet k v => (with_kv (kv_set k v (cs_kv s)) s, [])
  | IHSet h k v => (with_kv (kv_hset h k v (cs_kv s)) s, [])
  | IDel k => (with_kv (kv_del k (cs_kv s)) s, [])
  | IRead => (s, [])
  | ITrack k => (mkShared (cs_kv s) (cs_exp s) ({[k]} ∪ cs_keys s) (cs_max s), [])
  | IUntrack k => (mkShared (cs_kv s) (delete k (cs_exp s)) (cs_keys s ∖ {[k]}) (cs_max s), [])
  | IDeadline k exp => (mkShared (cs_kv s) (<[k := exp]> (cs_exp s)) (cs_keys s) (cs_max s), [])
  | ICheck now k => (s, if overdue now k s then conc_delExpired k else [IRead])
  | IExpire k exp => (s, match kv_get k (cs_kv s) with Some _ => [IDeadline k exp] | None => [] end)
  | IOver => (s, if (0 <? cs_max s)%Z && (cs_max s <? Z.of_nat (size (cs_keys s)))%Z then [ICandidates volatile] else [])
  | ICandidates vol =>
      (s, match c_order c (if vol then dom (cs_exp s) else cs_keys s) with [] => [] | ks => [IVictim ks] end)
  | IVictim ks =>
      (s, if bool_decide (c_pick c ∈ ks) && negb (bool_decide (c_pick c = [])) then conc_delExpired (c_pick c) else [])
  | ISweep now =>
      let ks := overdue_keys c now s in
      (mkShared (cs_kv s) (foldl (λ m k, delete k m) (cs_exp s) ks) (cs_keys s ∖ list_to_set ks) (cs_max s), IDel <$> ks)
  end.

(** The goroutines and the shared state. *)
Definition conf : Type := list (list instr) * shared.

Definition cexec (volatile : bool) (c : choice) (x : conf) : option conf :=
  match x.1 !! c_run c with
  | Some (i :: p) => let '(s', q) := iexec volatile c i x.2 in Some (<[c_run c := q ++ p]> x.1, s')
  | _ => None
  end.

Fixpoint crun (volatile : bool) (cs : list choice) (x : conf) : option conf :=
  match cs with
  | [] => Some x
  | c :: cs' => match cexec volatile c x with Some x' => crun volatile cs' x' | None => None end
  end.

(** A goroutine that runs one of the methods. *)
Inductive method : list instr → Prop :=
| m_Set k v : method (conc_Set k v)
| m_SetWithTTL k v exp : method (conc_SetWithTTL k v exp)
| m_HSet h k v : method (conc_HSet h k v)
| m_Get now k : method (conc_Get now k)
| m_Del k : method (conc_Del k)
| m_Expire k exp : method (conc_Expire k exp)
| m_sweep now : method (conc_sweep now).

Definition finished (x : conf) : Prop := Forall (λ p, p = []) x.1.

(** ** Lemmas *)

(** What a program still owes: a write is followed by the tracking of its
    key, the removal from the tracked keys by the removal from the store. *)
Fixpoint wfp (p : list instr) : Prop :=
  match p with
  | [] => True
  | i :: p' =>
      match i with
      | ISet k _ | IHSet k _ _ => ITrack k ∈ p'
      | IUntrack k => IDel k ∈ p'
      | _ => True
      end ∧ wfp p'
  end.

Definition pending (k : gostring) (p : list instr) : Prop := ITrack k ∈ p ∨ IDel k ∈ p.

Lemma wfp_app p q : wfp p → wfp q → wfp (p ++ q).
Proof. induction p as [|i p IH]; simpl; [done|]. intros [Hi Hp] Hq. split; [destruct i; set_solver|auto]. Qed.

Lemma wfp_dels ks : wfp (fmap IDel ks).
Proof. induction ks; simpl; auto. Qed.

Lemma method_wfp p : method p → wfp p.
Proof. destruct 1; simpl; set_solver. Qed.

Lemma iexec_wfp vol c i s : wfp (iexec vol c i s).2.
Proof. destruct i; simpl; repeat case_match; simpl; try set_solver; apply wfp_dels. Qed.

(** The keys the store holds and the wrapper does not track are those some
    goroutine has yet to track or to delete. *)
Definition conc_inv (x : conf) : Prop :=
  Forall wfp x.1 ∧
  ∀ k, k ∈ kv_dom (cs_kv x.2) → k ∉ cs_keys x.2 → Exists (pending k) x.1.

(** One step of a goroutine [i :: p]: a key that is present and untracked
    after it is owed by what remains of this goroutine, or was present and
    untracked before and [i] was not what it was owed. *)
Lemma iexec_owed vol c i p s s' q k :
  wfp (i :: p) → iexec vol c i s = (s', q) →
  k ∈ kv_dom (cs_kv s') → k ∉ cs_keys s' →
  pending k (q ++ p) ∨
  (k ∈ kv_dom (cs_kv s) ∧ k ∉ cs_keys s ∧ i ≠ ITrack k ∧ i ≠ IDel k).
Proof.
  intros [Hi _] E Hk Hn. unfold pending. destruct i; simpl in *; simplify_eq/=;
    try (right; split_and!; [done..|naive_solver|naive_solver]).
  - rewrite kv_dom_set in Hk. destruct (decide (k = k0)) as [->|]; [set_solver|right; set_solver].
  - rewrite kv_dom_hset in Hk. destruct (decide (k = h)) as [->|]; [set_solver|right; set_solver].
  - rewrite kv_dom_del in Hk. right. set_solver.
  - right. set_solver.
  - destruct (decide (k = k0)) as [->|]; [set_solver|right; set_solver].
  - destruct (decide (k ∈ overdue_keys c now s)) as [Hin|Hin].
    + left. right. apply elem_of_app. left. by apply list_elem_of_fmap_2.
    + right. set_solver.
Qed.

Lemma pending_cons k i p : pending k (i :: p) → i ≠ ITrack k → i ≠ IDel k → pending k p.
Proof. unfold pending. set_solver. Qed.

Lemma cexec_inv vol c x x' : conc_inv x → cexec vol c x = Some x' → conc_inv x'.
Proof.
  destruct x as [ps s]. set (n := c_run c). unfold cexec, conc_inv. fold n. simpl. intros [Hw Hp] E.
  destruct (ps !! n) as [[|i p]|] eqn:En; try done.
  destruct (iexec vol c i s) as [s' q] eqn:Ei. simplify_eq/=.
  pose proof (Forall_lookup_1 _ _ _ _ Hw En) as Hwi. split.
  - apply Forall_insert; [done|]. apply wfp_app; [|apply Hwi].
    pose proof (iexec_wfp vol c i s) as H. by rewrite Ei in H.
  - intros k Hk Hn. destruct (iexec_owed _ _ _ _ _ _ _ k Hwi Ei Hk Hn) as [Ho|(Hk0 & Hn0 & H1 & H2)].
    { apply Exists_exists. exists (q ++ p). split; [|done].
      apply list_elem_of_insert. by eapply lookup_lt_Some. }
    destruct (proj1 (Exists_exists _ _) (Hp k Hk0 Hn0)) as (p0 & Hp0 & Hpend).
    apply list_elem_of_lookup in Hp0 as [m Hm]. apply Exists_exists.
    destruct (decide (m = n)) as [->|Hne].
    + rewrite En in Hm. simplify_eq. exists (q ++ p). split; [apply list_elem_of_insert; by eapply lookup_lt_Some|].
      apply pending_cons in Hpend; [|done..]. unfold pending in *. set_solver.
    + exists p0. split; [|done]. apply (list_elem_of_lookup_2 _ m). by rewrite list_lookup_insert_ne.
Qed.

(** Invariants of [cexec] are invariants of schedules. *)
Lemma crun_ind (P : conf → Prop) vol :
  (∀ c x x', P x → cexec vol c x = Some x' → P x') →
  ∀ cs x x', P x → crun vol cs x = Some x' → P x'.
Proof.
  intros HP cs. induction cs as [|c cs IH]; intros x x' Hx E; simpl in E; [by simplify_eq|].
  destruct (cexec vol c x) as [y|] eqn:Ey; [|done]. eauto.
Qed.

(** *** One key that only one goroutine writes *)

(** Steps that leave the string key [k] and its (absent) deadline alone. *)
Definition spares (k : gostring) (i : instr) : Prop :=
  match i with
  | ISet k' _ | IDel k' | IDeadline k' _ | IExpire k' _ => k' ≠ k
  | ICandidates _ | IVictim _ => False
  | _ => True
  end.

(** Methods with other keys, and reads of and sweeps over all keys. *)
Definition other_method (k : gostring) (p : list instr) : Prop :=
  method p ∧ Forall (spares k) p.

(** No deadline for [k], and no limit on the number of keys. *)
Definition calm (k : gostring) (s : shared) : Prop := cs_exp s !! k = None ∧ (cs_max s ≤ 0)%Z.

Lemma overdue_no_deadline c now k s : cs_exp s !! k = None → k ∉ overdue_keys c now s.
Proof.
  intros E Hin. unfold overdue_keys in Hin. apply list_elem_of_filter in Hin as [Ho _].
  unfold overdue in Ho. by rewrite E in Ho.
Qed.

Lemma iexec_spares vol c i s s' q k :
  spares k i → calm k s → iexec vol c i s = (s', q) →
  calm k s' ∧ Forall (spares k) q ∧ kv_get k (cs_kv s') = kv_get k (cs_kv s).
Proof.
  intros Hi [Hd Hm] E. unfold kv_get, calm. destruct i; simpl in *; simplify_eq/=; split_and!; try done;
    rewrite ?lookup_insert_ne, ?lookup_delete_ne by done; try done.
  - rewrite lookup_delete. by case_decide.
  - destruct (decide (k0 = k)) as [->|]; [by unfold overdue; rewrite Hd; repeat constructor|].
    case_match; repeat constructor; done.
  - case_match; repeat constructor; done.
  - rewrite (proj2 (Z.ltb_ge _ _) Hm). constructor.
  - rewrite foldl_delete_lookup. by case_decide.
  - apply Forall_fmap, Forall_forall. intros k' Hk' ->. by eapply (overdue_no_deadline c now k s).
Qed.

(** Goroutine [n] is before its write of [k], or the write is in place; the
    others never touch it. *)
Definition write_inv (k v : gostring) (n : nat) (x : conf) : Prop :=
  calm k x.2 ∧ (∀ m p, m ≠ n → x.1 !! m = Some p → Forall (spares k) p) ∧
  (x.1 !! n = Some (conc_Set k v) ∨
   ∃ p, x.1 !! n = Some p ∧ Forall (spares k) p ∧ kv_get k (cs_kv x.2) = Some v).

Lemma cexec_write_inv vol k v n c x x' :
  write_inv k v n x → cexec vol c x = Some x' → write_inv k v n x'.
Proof.
  destruct x as [ps s]. set (m := c_run c). unfold cexec, write_inv. fold m. simpl. intros (Hc & Ho & Hn) E.
  destruct (ps !! m) as [[|i p]|] eqn:Em; try done.
  destruct (iexec vol c i s) as [s' q] eqn:Ei. simplify_eq/=.
  pose proof (lookup_lt_Some _ _ _ Em) as Hlt.
  assert (Hstep : spares k i → Forall (spares k) p →
    calm k s' ∧ Forall (spares k) (q ++ p) ∧ kv_get k (cs_kv s') = kv_get k (cs_kv s)).
  { intros Hi Hp. destruct (iexec_spares _ _ _ _ _ _ _ Hi Hc Ei) as (? & ? & ?).
    refine (conj _ (conj _ _)); [done|by apply Forall_app|done]. }
  destruct (decide (m = n)) as [->|Hne].
  - destruct Hn as [Hn|(p0 & Hn & Hp0 & Hg)]; rewrite Em in Hn.
    + unfold conc_Set, conc_evict in Hn. simplify_eq/=. refine (conj Hc (conj _ (or_intror (ex_intro _ [ITrack k; IOver] (conj _ (conj _ _)))))).
      * intros m' p' Hm'. rewrite list_lookup_insert_ne by done. by apply Ho.
      * by rewrite list_lookup_insert_eq.
      * by repeat constructor.
      * unfold kv_get. simpl. by rewrite lookup_insert_eq.
    + simplify_eq. inversion Hp0 as [|?? Hi Hp]; subst. destruct (Hstep Hi Hp) as (H1 & H2 & H3). refine (conj H1 (conj _ _)).
      * intros m' p' Hm'. rewrite list_lookup_insert_ne by done. by apply Ho.
      * right. exists (q ++ p). split_and!; [by rewrite list_lookup_insert_eq|done|by rewrite H3].
  - pose proof (Ho m _ Hne Em) as Hf. inversion Hf as [|?? Hi Hp]; subst.
    destruct (Hstep Hi Hp) as (H1 & H2 & H3). refine (conj H1 (conj _ _)).
    + intros m' p' Hm'. destruct (decide (m' = m)) as [->|].
      * rewrite list_lookup_insert_eq by done. intros. by simplify_eq.
      * rewrite list_lookup_insert_ne by done. by apply Ho.
    + rewrite H3. rewrite list_lookup_insert_ne by done. done.
Qed.

(** ** Properties *)

(** C23: at every quiescent moment the key count covers the content.  Let
    any number of goroutines run [Set], [SetWithTTL], [HSet], [Get], [Del],
    [Expire] and sweeps, interleaved in any way, evictions included: once all
    have returned, every key the inner store holds is tracked, so that it is
    counted by [KeyCount] and can be evicted.  (The converse fails, see
    [conc_sweep_loses_set].) *)
Theorem conc_present_tracked vol cs ps s ps' s' :
  Forall method ps → kv_dom (cs_kv s) ⊆ cs_keys s →
  crun vol cs (ps, s) = Some (ps', s') → finished (ps', s') →
  kv_dom (cs_kv s') ⊆ cs_keys s'.
Proof.
  intros Hm Hs E Hf. assert (conc_inv (ps', s')) as [_ Hi].
  { apply (crun_ind conc_inv vol (cexec_inv vol) cs (ps, s)); [|done]. split; simpl.
    - eapply Forall_impl; [exact Hm|apply method_wfp].
    - intros k ? ?. set_solver. }
  intros k Hk. destruct (decide (k ∈ cs_keys s')) as [|Hn]; [done|]. exfalso.
  destruct (proj1 (Exists_exists _ _) (Hi k Hk Hn)) as (p & Hp & Hpend).
  unfold finished in Hf. rewrite Forall_forall in Hf. rewrite (Hf p Hp) in Hpend. unfold pending in Hpend. set_solver.
Qed.

(** C24: an acknowledged write is kept.  One goroutine runs [Set] of a key
    that has no deadline while others run methods that do not write, delete
    or expire this key - reads of it, sweeps and anything on other keys are
    allowed - and no key limit is set.  However they interleave, the value is
    there when all have returned. *)
Theorem conc_set_survives vol cs k v n ps s ps' s' :
  ps !! n = Some (conc_Set k v) →
  (∀ m p, m ≠ n → ps !! m = Some p → other_method k p) →
  calm k s →
  crun vol cs (ps, s) = Some (ps', s') → finished (ps', s') →
  kv_get k (cs_kv s') = Some v.
Proof.
  intros Hn Ho Hc E Hf. assert (write_inv k v n (ps', s')) as (_ & _ & [Hw|(p & _ & _ & Hg)]); [|simpl in *|done].
  { apply (crun_ind (write_inv k v n) vol (cexec_write_inv vol k v n) cs (ps, s)); [|done].
    refine (conj Hc (conj _ (or_introl Hn))). intros m p Hm Hp. by apply (Ho m p Hm Hp). }
  unfold finished in Hf. rewrite Forall_forall in Hf.
  pose proof (Hf (conc_Set k v)) as H. specialize (H (list_elem_of_lookup_2 _ _ _ Hw)). done.
Qed.

(** the sweep can delete a value written after the key expired.  It
    collects the overdue keys under the mutex but deletes them from the inner
    store after it released the mutex: a [Set] of an overdue key that runs in
    between is acknowledged and lost, and the key stays counted although
    the store has no value for it. *)
Theorem conc_sweep_loses_set vol k v exp now s :
  cs_exp s = {[k := exp]} → (exp < now)%Z → (cs_max s ≤ 0)%Z →
  ∃ cs ps' s', crun vol cs ([conc_sweep now; conc_Set k v], s) = Some (ps', s') ∧
    finished (ps', s') ∧ kv_get k (cs_kv s') = None ∧ k ∈ cs_keys s'.
Proof.
  intros He Hlt Hm. set (c := λ n, mkChoice n [] elements).
  assert (∀ n, overdue_keys (c n) now s = [k]) as Hks.
  { intros n. unfold overdue_keys. cbn [c_order c]. rewrite He, dom_singleton_L, elements_singleton. cbn [filter list_filter].
    rewrite decide_True; [done|]. unfold overdue. rewrite He, lookup_singleton_eq. by apply Z.ltb_lt. }
  exists (c <$> [0; 1; 1; 1; 0]). unfold conc_sweep, conc_Set, conc_evict.
  cbn -[overdue_keys]. rewrite Hks. cbn. rewrite (proj2 (Z.ltb_ge _ _) Hm). cbn.
  eexists _, _. split; [done|]. split; [by repeat constructor|]. unfold kv_get. cbn.
  rewrite lookup_delete_eq. set_solver.
Qed.

(** ** Witnesses *)
Definition sched (n : nat) : choice := mkChoice n [] elements.

(** Two goroutines write and delete one key at the same time. *)
Definition race_progs : list (list instr) :=
  [conc_Set (str "a") (str "1"); conc_Del (str "a")].
Definition race_sched : list choice :=
  sched <$> [0; 1; 0; 1; 0].

Lemma conc_present_tracked_witness :
  ∃ ps' s', crun false race_sched (race_progs, mkShared kv_empty ∅ ∅ 0) = Some (ps', s') ∧
    finished (ps', s') ∧ kv_dom (cs_kv s') ⊆ cs_keys s'.
Proof.
  eexists _, _. split; [vm_compute; reflexivity|]. split; [by repeat constructor|].
  eapply (conc_present_tracked false race_sched race_progs (mkShared kv_empty ∅ ∅ 0)).
  - repeat constructor.
  - by apply (bool_decide_unpack _).
  - vm_compute. reflexivity.
  - by repeat constructor.
Defined.

(** A [Set] while a sweep removes another key. *)
Definition calm_state : shared :=
  mkShared (kv_set (str "b") (str "0") kv_empty) {[str "b" := 1%Z]} {[str "b"]} 0.

Lemma conc_set_survives_witness :
  ∃ ps' s', crun false (sched <$> [1; 0; 0; 1; 0])
      ([conc_Set (str "a") (str "1"); conc_sweep 5], calm_state) = Some (ps', s') ∧
    kv_get (str "a") (cs_kv s') = Some (str "1").
Proof.
  eexists _, _. split; [vm_compute; reflexivity|].
  eapply (conc_set_survives false (sched <$> [1; 0; 0; 1; 0]) (str "a") (str "1") 0
    [conc_Set (str "a") (str "1"); conc_sweep 5] calm_state).
  - reflexivity.
  - intros [|[|m]] p Hm Hp; simplify_eq/=. split; [constructor|by repeat constructor].
  - split; [by vm_compute|done].
  - vm_compute. reflexivity.
  - by repeat constructor.
Defined.

Lemma conc_sweep_loses_set_witness :
  ∃ cs ps' s', crun false cs ([conc_sweep 5; conc_Set (str "b") (str "1")], calm_state) = Some (ps', s') ∧
    finished (ps', s') ∧ kv_get (str "b") (cs_kv s') = None ∧ str "b" ∈ cs_keys s'.
Proof. apply (conc_sweep_loses_set false (str "b") (str "1") 1 5 calm_state); [reflexivity|lia|done]. Defined.
