(* ===== verification/Handler.v ===== *)
(** * Handler: the commands, src/handler/handler.go

    A handler takes the arguments of a command and the TTL store and returns
    the reply; the [n]-th store call it makes runs in the environment
    [envs n].  [kv_command] is the abstract meaning of a command on the
    content of the store. *)

From stdpp Require Import base list gmap strings.
From Stdlib Require Import ZArith Lia.
From S2P Require Import Prelude GoLib StoreSpec MapStore GoIO Resp Evict TTLStore.
Local Open Scope Z_scope.

Definition Envs := nat → Env.
Definition envs_ok (envs : Envs) : Prop := ∀ n, env_ok (envs n).

Section handlers.
Context {S : Type} `{!StoreOps S}.

(** [network.HandlerFunc], closed over the store. *)
Definition HandlerFunc : Type := Envs → list Value → TTLStore S → go (TTLStore S * Value).

Definition wrong_args (cmd : gostring) : Value :=
  VError (str "ERR wrong number of arguments for '" ++ cmd ++ str "' command").

Definition bulk_at (args : list Value) (i : nat) : gostring := from_option v_Bulk [] (args !! i).

Definition ping : HandlerFunc := λ _ args t,
  match args with
  | [] => Ret (t, VString (str "PONG"))
  | a :: _ => Ret (t, VString (v_Bulk a))
  end.

(** [len(args) >= 4], the flag and the number of seconds: the TTL of a [SET]. *)
Definition set_ttl (args : list Value) : option Z :=
  if bool_decide (4 ≤ length args)%nat then
    let flag := bulk_at args 2 in
    if bool_decide (flag = str "EX") || bool_decide (flag = str "ex")
    then (λ sec, wrap64 (sec * Second)) <$> ParseInt (bulk_at args 3)
    else None
  else None.

Definition setHandler : HandlerFunc := λ envs args t,
  if bool_decide (length args < 2)%nat then Ret (t, wrong_args (str "set")) else
  let key := bulk_at args 0 in
  let val := bulk_at args 1 in
  t' ← match set_ttl args with
       | Some ttl => SetWithTTL (envs 0%nat) key val ttl t
       | None => TTLStore_Set (envs 0%nat) key val t
       end;
  Ret (t', VString (str "OK")).

Definition getHandler : HandlerFunc := λ envs args t,
  match args with
  | [k] =>
      '(t', v) ← TTLStore_Get (envs 0%nat) (v_Bulk k) t;
      Ret (t', match v with None => VNull | Some val => VBulk val end)
  | _ => Ret (t, wrong_args (str "get"))
  end.

Definition hsetHandler : HandlerFunc := λ envs args t,
  match args with
  | [h; k; v] =>
      t' ← TTLStore_HSet (envs 0%nat) (v_Bulk h) (v_Bulk k) (v_Bulk v) t;
      Ret (t', VString (str "OK"))
  | _ => Ret (t, wrong_args (str "hset"))
  end.

Definition hgetHandler : HandlerFunc := λ envs args t,
  match args with
  | [h; k] =>
      '(t', v) ← TTLStore_HGet (envs 0%nat) (v_Bulk h) (v_Bulk k) t;
      Ret (t', match v with None => VNull | Some val => VBulk val end)
  | _ => Ret (t, wrong_args (str "hget"))
  end.

(** [for k, v := range h]: the fields in the order of the iteration. *)
Definition hgetall_reply (order : gset gostring → list gostring) (m : option (gmap gostring gostring)) : Value :=
  match m with
  | None => VArray []
  | Some h => VArray (flat_map (λ k, [VBulk k; VBulk (default [] (h !! k))]) (order (dom h)))
  end.

Definition hgetallHandler : HandlerFunc := λ envs args t,
  match args with
  | [h] =>
      '(t', m) ← TTLStore_HGetAll (envs 0%nat) (v_Bulk h) t;
      Ret (t', hgetall_reply (e_order (envs 0%nat)) m)
  | _ => Ret (t, wrong_args (str "hgetall"))
  end.

Definition expireHandler : HandlerFunc := λ envs args t,
  match args with
  | [k; n] =>
      match ParseInt (v_Bulk n) with
      | None => Ret (t, VError (str "ERR value is not an integer or out of range"))
      | Some sec =>
          '(t', ok) ← Expire (envs 0%nat) (v_Bulk k) (wrap64 (sec * Second)) t;
          Ret (t', VInteger (if ok : bool then 1 else 0))
      end
  | _ => Ret (t, wrong_args (str "expire"))
  end.

Definition ttlHandler : HandlerFunc := λ envs args t,
  match args with
  | [k] => Ret (t, VInteger (int_of_float (Seconds (TTL (envs 0%nat) (v_Bulk k) t))))
  | _ => Ret (t, wrong_args (str "ttl"))
  end.

(** The loop of [DEL]; the [i]-th argument is looked up in [envs i]. *)
Fixpoint del_loop (envs : Envs) (i : nat) (args : list Value) (count : Z) (t : TTLStore S) :
    go (TTLStore S * Z) :=
  match args with
  | [] => Ret (t, count)
  | arg :: args' =>
      '(t1, v) ← TTLStore_Get (envs i) (v_Bulk arg) t;
      match v with
      | Some _ => t2 ← TTLStore_Del (v_Bulk arg) t1; del_loop envs (i + 1) args' (count + 1) t2
      | None => del_loop envs (i + 1) args' count t1
      end
  end.

Definition delHandler : HandlerFunc := λ envs args t,
  match args with
  | [] => Ret (t, wrong_args (str "del"))
  | _ => '(t', count) ← del_loop envs 0 args 0 t; Ret (t', VInteger count)
  end.

Definition NewHandlers : gmap gostring HandlerFunc := list_to_map
  [(str "PING", ping); (str "SET", setHandler); (str "GET", getHandler); (str "HSET", hsetHandler);
   (str "HGET", hgetHandler); (str "HGETALL", hgetallHandler); (str "EXPIRE", expireHandler);
   (str "TTL", ttlHandler); (str "DEL", delHandler)].

(** A sequence of commands.  The entry of a name without a handler is [None]:
    the connection loop writes nothing for it. *)
Fixpoint run_commands (cs : list (Envs * gostring * list Value)) (t : TTLStore S) :
    go (TTLStore S * list (option Value)) :=
  match cs with
  | [] => Ret (t, [])
  | (envs, name, args) :: cs' =>
      '(t1, r) ← match NewHandlers !! name with
                 | None => Ret (t, None)
                 | Some h => '(t', v) ← h envs args t; Ret (t', Some v)
                 end;
      '(t2, rs) ← run_commands cs' t1;
      Ret (t2, r :: rs)
  end.
End handlers.

(** ** The abstract meaning of the commands *)
Fixpoint kv_del_count (args : list Value) (a : kv) : kv * Z :=
  match args with
  | [] => (a, 0)
  | arg :: args' =>
      match kv_get (v_Bulk arg) a with
      | Some _ => let '(a', n) := kv_del_count args' (kv_del (v_Bulk arg) a) in (a', n + 1)
      | None => kv_del_count args' a
      end
  end.

Inductive command := CPing | CSet | CGet | CHSet | CHGet | CHGetAll | CExpire | CTTL | CDel.

Definition command_name (c : command) : gostring :=
  match c with
  | CPing => str "PING" | CSet => str "SET" | CGet => str "GET" | CHSet => str "HSET" | CHGet => str "HGET"
  | CHGetAll => str "HGETALL" | CExpire => str "EXPIRE" | CTTL => str "TTL" | CDel => str "DEL"
  end.

(** The effect and the reply of a command when no key has a deadline. *)
Definition kv_command (order : gset gostring → list gostring) (c : command) (args : list Value) (a : kv) :
    kv * Value :=
  match c, args with
  | CPing, [] => (a, VString (str "PONG"))
  | CPing, x :: _ => (a, VString (v_Bulk x))
  | CSet, k :: v :: _ => (kv_set (v_Bulk k) (v_Bulk v) a, VString (str "OK"))
  | CSet, _ => (a, wrong_args (str "set"))
  | CGet, [k] => (a, from_option VBulk VNull (kv_get (v_Bulk k) a))
  | CGet, _ => (a, wrong_args (str "get"))
  | CHSet, [h; k; v] => (kv_hset (v_Bulk h) (v_Bulk k) (v_Bulk v) a, VString (str "OK"))
  | CHSet, _ => (a, wrong_args (str "hset"))
  | CHGet, [h; k] => (a, from_option VBulk VNull (kv_hget (v_Bulk h) (v_Bulk k) a))
  | CHGet, _ => (a, wrong_args (str "hget"))
  | CHGetAll, [h] => (a, hgetall_reply order (kv_hgetall (v_Bulk h) a))
  | CHGetAll, _ => (a, wrong_args (str "hgetall"))
  | CExpire, [k; n] =>
      (a, match ParseInt (v_Bulk n) with
          | None => VError (str "ERR value is not an integer or out of range")
          | Some _ => VInteger (match kv_get (v_Bulk k) a with Some _ => 1 | None => 0 end)
          end)
  | CExpire, _ => (a, wrong_args (str "expire"))
  | CTTL, [k] => (a, VInteger 0)
  | CTTL, _ => (a, wrong_args (str "ttl"))
  | CDel, [] => (a, wrong_args (str "del"))
  | CDel, _ => let '(a', n) := kv_del_count args a in (a', VInteger n)
  end.

(** The command creates no deadline. *)
Definition sets_no_deadline (c : command) (args : list Value) : bool :=
  match c, args with
  | CExpire, [_; n] => bool_decide (ParseInt (v_Bulk n) = None)
  | CSet, _ => bool_decide (set_ttl args = None)
  | _, _ => true
  end.

Fixpoint kv_commands (cs : list (Envs * command * list Value)) (a : kv) : kv * list (option Value) :=
  match cs with
  | [] => (a, [])
  | (envs, c, args) :: cs' =>
      let '(a1, r) := kv_command (e_order (envs 0%nat)) c args a in
      let '(a2, rs) := kv_commands cs' a1 in
      (a2, Some r :: rs)
  end.

(** ** Lemmas *)
Section proofs.
Context {S : Type} `{!StoreOps S} `{!StoreLaws S}.
Implicit Types (t : TTLStore S).

Definition handler_of (c : command) : @HandlerFunc S :=
  match c with
  | CPing => ping | CSet => setHandler | CGet => getHandler | CHSet => hsetHandler | CHGet => hgetHandler
  | CHGetAll => hgetallHandler | CExpire => expireHandler | CTTL => ttlHandler | CDel => delHandler
  end.

Lemma NewHandlers_command c : NewHandlers !! command_name c = Some (handler_of c).
Proof. by destruct c. Qed.

Lemma NewHandlers_dom name (h : @HandlerFunc S) :
  NewHandlers !! name = Some h → ∃ c, name = command_name c ∧ h = handler_of c.
Proof.
  intros H%elem_of_list_to_map_2.
  apply elem_of_cons in H as [[= -> ->]|H]; [by exists CPing|].
  apply elem_of_cons in H as [[= -> ->]|H]; [by exists CSet|].
  apply elem_of_cons in H as [[= -> ->]|H]; [by exists CGet|].
  apply elem_of_cons in H as [[= -> ->]|H]; [by exists CHSet|].
  apply elem_of_cons in H as [[= -> ->]|H]; [by exists CHGet|].
  apply elem_of_cons in H as [[= -> ->]|H]; [by exists CHGetAll|].
  apply elem_of_cons in H as [[= -> ->]|H]; [by exists CExpire|].
  apply elem_of_cons in H as [[= -> ->]|H]; [by exists CTTL|].
  apply elem_of_cons in H as [[= -> ->]|H]; [by exists CDel|].
  by apply not_elem_of_nil in H.
Qed.

(** A call through [fst <$> _] that keeps an invariant. *)
Lemma fst_fmap_inv {A} (m : go (TTLStore S * A)) (P : TTLStore S → Prop) :
  (∃ t', fst <$> m = Ret t' ∧ P t') → ∃ t' a, m = Ret (t', a) ∧ P t'.
Proof. intros (t' & E & HP). destruct m as [[t1 a]| | |]; simplify_eq/=. eauto. Qed.

Lemma del_loop_inv envs i args n t :
  envs_ok envs → ttl_inv t → ∃ t' m, del_loop envs i args n t = Ret (t', m) ∧ ttl_inv t'.
Proof.
  intros He. revert i n t; induction args as [|arg args IH]; intros i n t Hi; simpl; [by eauto|].
  destruct (fst_fmap_inv _ _ (ttl_step_inv (envs i) (TGet (v_Bulk arg)) t (He i) Hi)) as (t1 & v & -> & Hi1).
  simpl. destruct v as [v|]; [|by apply IH].
  destruct (ttl_step_inv (envs i) (TDel (v_Bulk arg)) t1 (He i) Hi1) as (t2 & E & Hi2). simpl in E. rewrite E. simpl. by apply IH.
Qed.

(** Every handler returns on every argument list and keeps the bookkeeping
    of the store. *)
Lemma handler_inv c envs args t :
  envs_ok envs → ttl_inv t → ∃ t' v, handler_of c envs args t = Ret (t', v) ∧ ttl_inv t'.
Proof.
  intros He Hi. pose proof (λ o, ttl_step_inv (envs 0%nat) o t (He 0%nat) Hi) as Hstep.
  destruct c; simpl.
  - unfold ping. case_match; eauto.
  - unfold setHandler. case_bool_decide; [by eauto|]. destruct (set_ttl args) as [ttl|].
    + destruct (Hstep (TSetWithTTL (bulk_at args 0) (bulk_at args 1) ttl)) as (t' & E & ?). simpl in E. rewrite E. simpl. eauto.
    + destruct (Hstep (TSet (bulk_at args 0) (bulk_at args 1))) as (t' & E & ?). simpl in E. rewrite E. simpl. eauto.
  - unfold getHandler. destruct args as [|k [|]]; [by eauto| |by eauto].
    destruct (fst_fmap_inv _ _ (Hstep (TGet (v_Bulk k)))) as (t' & v & -> & ?). simpl. eauto.
  - unfold hsetHandler. destruct args as [|h [|k [|v [|]]]]; try by eauto.
    destruct (Hstep (THSet (v_Bulk h) (v_Bulk k) (v_Bulk v))) as (t' & E & ?). simpl in E. rewrite E. simpl. eauto.
  - unfold hgetHandler. destruct args as [|h [|k [|]]]; try by eauto.
    destruct (fst_fmap_inv _ _ (Hstep (THGet (v_Bulk h) (v_Bulk k)))) as (t' & v & -> & ?). simpl. eauto.
  - unfold hgetallHandler. destruct args as [|h [|]]; try by eauto.
    destruct (fst_fmap_inv _ _ (Hstep (THGetAll (v_Bulk h)))) as (t' & v & -> & ?). simpl. eauto.
  - unfold expireHandler. destruct args as [|k [|n [|]]]; try by eauto.
    destruct (ParseInt (v_Bulk n)) as [sec|]; [|by eauto].
    destruct (fst_fmap_inv _ _ (Hstep (TExpire (v_Bulk k) (wrap64 (sec * Second))))) as (t' & v & -> & ?). simpl. eauto.
  - unfold ttlHandler. destruct args as [|k [|]]; eauto.
  - unfold delHandler. destruct args as [|a args]; [by eauto|].
    destruct (del_loop_inv envs 0 (a :: args) 0 t He Hi) as (t' & m & -> & ?). simpl. eauto.
Qed.

Lemma run_commands_inv cs t :
  Forall (λ c, envs_ok c.1.1) cs → ttl_inv t →
  ∃ t' rs, run_commands cs t = Ret (t', rs) ∧ ttl_inv t' ∧ Forall2 (λ c r, is_Some r ↔ ∃ cmd, c.1.2 = command_name cmd) cs rs.
Proof.
  intros Hcs. revert t; induction Hcs as [|[[envs name] args] cs He Hcs IH]; intros t Hi; simpl; [by eauto|].
  assert (∃ t1 r, match NewHandlers !! name with
                 | None => Ret (t, None)
                 | Some h => '(t', v) ← h envs args t; Ret (t', Some v)
                 end = Ret (t1, r) ∧ ttl_inv t1 ∧ (is_Some r ↔ ∃ cmd, name = command_name cmd)) as (t1 & r & -> & Hi1 & Hr).
  { destruct (NewHandlers !! name) as [h|] eqn:Eh.
    - apply NewHandlers_dom in Eh as (c & -> & ->).
      destruct (handler_inv c envs args t He Hi) as (t' & v & -> & ?). simpl. eexists _, _. split_and!; [done..|]. split; [by exists c|done].
    - eexists _, _. split_and!; [done..|]. split; [by intros [? ?]|]. intros [c ->]. by rewrite NewHandlers_command in Eh. }
  simpl. destruct (IH t1 Hi1) as (t2 & rs & -> & Hi2 & Hl). simpl. eexists _, _. split_and!; [done..|]. by constructor.
Qed.

(** *** Stores without deadlines and without a key limit *)
Record plain (a : kv) t : Prop := mk_plain {
  pl_inv : st_inv (t_inner t);
  pl_abs : st_abs (t_inner t) = a;
  pl_exp : t_expireAt t = ∅;
  pl_max : t_maxKeys t ≤ 0
}.

Lemma plain_Set e k v a t :
  plain a t → ∃ t', TTLStore_Set e k v t = Ret t' ∧ plain (kv_set k v a) t'.
Proof.
  intros [Hi Ha Hx Hm]. destruct (Set_unlimited e k v t Hi Hm) as (t' & E & ? & Ha' & Hx' & Hm').
  exists t'. split; [done|]. constructor; [done|congruence..|lia].
Qed.

Lemma plain_HSet e h k v a t :
  plain a t → ∃ t', TTLStore_HSet e h k v t = Ret t' ∧ plain (kv_hset h k v a) t'.
Proof.
  intros [Hi Ha Hx Hm]. destruct (HSet_unfold e h k v t Hi) as (s & -> & ? & Ha').
  unfold evictIfNeeded. replace (shouldEvict _) with false.
  - eexists. split; [done|]. constructor; simpl; [done|congruence|done|done].
  - symmetry. unfold shouldEvict; simpl. lia.
Qed.

Lemma plain_Del k a t : plain a t → ∃ t', TTLStore_Del k t = Ret t' ∧ plain (kv_del k a) t'.
Proof.
  intros [Hi Ha Hx Hm]. destruct (delExpired_removed k t Hi) as (t' & E & [? R1 R2 _ _ R3]).
  exists t'. split; [exact E|]. constructor; [done|congruence| |lia]. rewrite R2, Hx. apply delete_empty.
Qed.

Lemma plain_isExpired n k a t : plain a t → isExpired n k t = false.
Proof. intros P. unfold isExpired. by rewrite (pl_exp _ _ P), lookup_empty. Qed.

Lemma plain_read e k a t t' : plain a t → read_effect e k t t' → plain a t'.
Proof. intros P. unfold read_effect. rewrite (plain_isExpired _ _ _ _ P). intros ->. by destruct P. Qed.

Lemma plain_Get e k a t :
  plain a t → ∃ t', TTLStore_Get e k t = Ret (t', kv_get k a) ∧ plain a t'.
Proof.
  intros P. destruct (Get_spec e k t (pl_inv _ _ P)) as (t' & E & R). exists t'.
  rewrite E, (plain_isExpired _ _ _ _ P), (pl_abs _ _ P). split; [done|]. by eapply plain_read.
Qed.

Lemma plain_HGet e h k a t :
  plain a t → ∃ t', TTLStore_HGet e h k t = Ret (t', kv_hget h k a) ∧ plain a t'.
Proof.
  intros P. destruct (HGet_spec e h k t (pl_inv _ _ P)) as (t' & E & R). exists t'.
  rewrite E, (plain_isExpired _ _ _ _ P), (pl_abs _ _ P). split; [done|]. by eapply plain_read.
Qed.

Lemma plain_HGetAll e h a t :
  plain a t → ∃ t', TTLStore_HGetAll e h t = Ret (t', kv_hgetall h a) ∧ plain a t'.
Proof.
  intros P. destruct (HGetAll_spec e h t (pl_inv _ _ P)) as (t' & E & R). exists t'.
  rewrite E, (plain_isExpired _ _ _ _ P), (pl_abs _ _ P). split; [done|]. by eapply plain_read.
Qed.

Lemma plain_del_loop envs i args n a t :
  plain a t →
  ∃ t', del_loop envs i args n t = Ret (t', n + (kv_del_count args a).2) ∧ plain (kv_del_count args a).1 t'.
Proof.
  revert i n a t; induction args as [|arg args IH]; intros i n a t P; simpl.
  - exists t. by rewrite Z.add_0_r.
  - destruct (plain_Get (envs i) (v_Bulk arg) a t P) as (t1 & -> & P1). simpl.
    destruct (kv_get (v_Bulk arg) a) as [v|]; [|by apply IH].
    destruct (plain_Del (v_Bulk arg) a t1 P1) as (t2 & -> & P2). simpl.
    destruct (IH (i + 1)%nat (n + 1) _ _ P2) as (t3 & -> & P3). exists t3.
    destruct (kv_del_count args (kv_del (v_Bulk arg) a)) as [a' m]. simpl in *. split; [|done]. do 2 f_equal. lia.
Qed.

Lemma handler_refines c envs args a t :
  plain a t → sets_no_deadline c args = true →
  ∃ t', handler_of c envs args t = Ret (t', (kv_command (e_order (envs 0%nat)) c args a).2) ∧
        plain (kv_command (e_order (envs 0%nat)) c args a).1 t'.
Proof.
  intros P Hd. destruct c; simpl in *.
  - unfold ping. case_match; by exists t.
  - apply bool_decide_eq_true in Hd. destruct args as [|k [|v args]]; [by exists t..|].
    unfold setHandler. rewrite Hd, bool_decide_eq_false_2 by (simpl; lia).
    destruct (plain_Set (envs 0%nat) (v_Bulk k) (v_Bulk v) a t P) as (t' & E & ?). unfold bulk_at; simpl. rewrite E. by exists t'.
  - unfold getHandler. destruct args as [|k [|]]; [by exists t| |by exists t].
    destruct (plain_Get (envs 0%nat) (v_Bulk k) a t P) as (t' & -> & ?). exists t'. split; [|done]. by destruct (kv_get _ _).
  - unfold hsetHandler. destruct args as [|h [|k [|v [|]]]]; try by exists t.
    destruct (plain_HSet (envs 0%nat) (v_Bulk h) (v_Bulk k) (v_Bulk v) a t P) as (t' & -> & ?). by exists t'.
  - unfold hgetHandler. destruct args as [|h [|k [|]]]; try by exists t.
    destruct (plain_HGet (envs 0%nat) (v_Bulk h) (v_Bulk k) a t P) as (t' & -> & ?). exists t'. split; [|done]. by destruct (kv_hget _ _ _).
  - unfold hgetallHandler. destruct args as [|h [|]]; try by exists t.
    destruct (plain_HGetAll (envs 0%nat) (v_Bulk h) a t P) as (t' & -> & ?). by exists t'.
  - unfold expireHandler. destruct args as [|k [|n [|]]]; try by exists t.
    apply bool_decide_eq_true in Hd. rewrite Hd. by exists t.
  - unfold ttlHandler. destruct args as [|k [|]]; try by exists t. exists t.
    unfold TTL. rewrite (pl_exp _ _ P), lookup_empty. split; [reflexivity|done].
  - unfold delHandler. destruct args as [|k args]; [by exists t|].
    destruct (plain_del_loop envs 0 (k :: args) 0 a t P) as (t' & -> & P'). exists t'.
    destruct (kv_del_count (k :: args) a) as [a' n]. simpl in *. split; [|done]. done.
Qed.
End proofs.

(** ** Theorems *)
Section theorems.
Context {S : Type} `{!StoreOps S} `{!StoreLaws S}.
Implicit Types (t : TTLStore S).



(** [SET key value EX sec] keeps the value for exactly [sec] seconds when
    the product fits a Duration, that is for [0 <= sec <= 9223372036]. *)
Theorem set_ex_deadline envs envs' key value sec t :
  envs_ok envs → st_inv (t_inner t) → t_maxKeys t ≤ 0 → 0 ≤ sec ≤ 9223372036 →
  ∃ t1 t2, setHandler envs [VBulk key; VBulk value; VBulk (str "EX"); VBulk (Itoa sec)] t = Ret (t1, VString (str "OK")) ∧
    getHandler envs' [VBulk key] t1 =
      Ret (t2, if e_now (envs' 0%nat) <=? e_now (envs 0%nat) + sec * Second then VBulk value else VNull).
Proof.
  intros He Hi Hm Hsec.
  destruct (Set_unlimited (envs 0%nat) key value (set_deadline key (e_now (envs 0%nat) + sec * Second) t) Hi Hm)
    as (t1 & E1 & Hi1 & Ha1 & Hx1 & _).
  destruct (Get_spec (envs' 0%nat) key t1 Hi1) as (t2 & E2 & _). exists t1, t2. split.
  - unfold setHandler, set_ttl, bulk_at; simpl. rewrite ParseInt_Itoa by (unfold in_int64, min_int64, max_int64; lia). simpl.
    rewrite wrap64_id by (unfold in_int64, min_int64, max_int64, Second; lia). unfold SetWithTTL. by rewrite E1.
  - unfold getHandler; simpl. rewrite E2. simpl. unfold isExpired. rewrite Hx1, Ha1. simpl. rewrite lookup_insert_eq.
    unfold kv_get; simpl. rewrite lookup_insert_eq. rewrite Z.leb_antisym. by destruct (_ <? _).
Qed.

(** From 9223372037 seconds (292 years) on, up to 18446744073, the number
    of nanoseconds wraps to a negative one and the key is gone at once. *)
Theorem set_ex_overflow envs envs' key value sec t :
  envs_ok envs → st_inv (t_inner t) → t_maxKeys t ≤ 0 → 9223372037 ≤ sec ≤ 18446744073 →
  e_now (envs 0%nat) ≤ e_now (envs' 0%nat) →
  ∃ t1 t2, setHandler envs [VBulk key; VBulk value; VBulk (str "EX"); VBulk (Itoa sec)] t = Ret (t1, VString (str "OK")) ∧
    getHandler envs' [VBulk key] t1 = Ret (t2, VNull).
Proof.
  intros He Hi Hm Hsec Hle. set (d := wrap64 (sec * Second)).
  assert (d < 0) as Hd.
  { unfold d, wrap64, Second. replace ((sec * 1000000000 + 2 ^ 63) mod 2 ^ 64) with (sec * 1000000000 + 2 ^ 63 - 2 ^ 64); [lia|].
    apply (Z.mod_unique _ _ 1); lia. }
  destruct (Set_unlimited (envs 0%nat) key value (set_deadline key (e_now (envs 0%nat) + d) t) Hi Hm)
    as (t1 & E1 & Hi1 & Ha1 & Hx1 & _).
  destruct (Get_past_deadline (envs' 0%nat) key t1 (e_now (envs 0%nat) + d) Hi1) as (t2 & E2);
    [left; rewrite Hx1; apply lookup_insert_eq|lia|].
  exists t1, t2. split.
  - unfold setHandler, set_ttl, bulk_at; simpl. rewrite ParseInt_Itoa by (unfold in_int64, min_int64, max_int64; lia). simpl.
    fold d. unfold SetWithTTL. by rewrite E1.
  - unfold getHandler; simpl. by rewrite E2.
Qed.

(** The [TTL] command answers 0 for a key without deadline: the -2 that
    the store documents for it is a number of nanoseconds, and the handler
    converts it to seconds. *)
Theorem ttl_reply_without_deadline envs key t :
  t_expireAt t !! key = None → ttlHandler envs [VBulk key] t = Ret (t, VInteger 0).
Proof. intros Hx. unfold ttlHandler, TTL; simpl. by rewrite Hx. Qed.

(** [DEL] does not delete a hash: a key that only names a hash is
    answered 0 and its fields stay. *)
Theorem del_ignores_hashes envs hash t :
  envs_ok envs → st_inv (t_inner t) → t_expireAt t !! hash = None → kv_get hash (st_abs (t_inner t)) = None →
  ∃ t', delHandler envs [VBulk hash] t = Ret (t', VInteger 0) ∧ st_abs (t_inner t') = st_abs (t_inner t).
Proof.
  intros He Hi Hx Hg. destruct (Get_spec (envs 0%nat) hash t Hi) as (t' & E & R).
  unfold isExpired in E. rewrite Hx, Hg in E. exists t'. unfold delHandler; simpl. rewrite E. split; [done|].
  unfold read_effect, isExpired in R. rewrite Hx in R. by rewrite R.
Qed.
End theorems.

(** ** Witnesses *)
Definition at_ (now : Z) : Envs := λ _, env_at now.
Lemma at_ok now : envs_ok (at_ now).
Proof. intros n. apply env_at_ok. Qed.

Definition bulks (l : list string) : list Value := (λ s, VBulk (str s)) <$> l.



Lemma set_ex_deadline_witness :
  ∃ t1 t2, setHandler (at_ 100) [VBulk (str "k"); VBulk (str "v"); VBulk (str "EX"); VBulk (Itoa 60)] ttl0 =
             Ret (t1, VString (str "OK")) ∧
    getHandler (at_ (100 + 60 * Second)) [VBulk (str "k")] t1 = Ret (t2, VBulk (str "v")).
Proof.
  apply (set_ex_deadline (at_ 100) (at_ (100 + 60 * Second)) (str "k") (str "v") 60 ttl0);
    [apply at_ok|done|simpl; lia|lia].
Defined.

Lemma set_ex_overflow_witness :
  ∃ t1 t2, setHandler (at_ 100) [VBulk (str "k"); VBulk (str "v"); VBulk (str "EX"); VBulk (Itoa 10000000000)] ttl0 =
             Ret (t1, VString (str "OK")) ∧
    getHandler (at_ 101) [VBulk (str "k")] t1 = Ret (t2, VNull).
Proof.
  apply (set_ex_overflow (at_ 100) (at_ 101) (str "k") (str "v") 10000000000 ttl0);
    [apply at_ok|done|simpl; lia|lia|simpl; lia].
Defined.

Lemma ttl_reply_without_deadline_witness : ttlHandler (at_ 5) [VBulk (str "k")] ttl0 = Ret (ttl0, VInteger 0).
Proof. apply ttl_reply_without_deadline. reflexivity. Defined.

Definition ttl_hash : TTLStore MapStore :=
  NewTTLStore (mkMapStore ∅ {[str "h" := {[str "f" := str "v"]}]}).

Lemma del_ignores_hashes_witness :
  ∃ t', delHandler (at_ 5) [VBulk (str "h")] ttl_hash = Ret (t', VInteger 0) ∧
        kv_hget (str "h") (str "f") (st_abs (t_inner t')) = Some (str "v").
Proof.
  destruct (del_ignores_hashes (at_ 5) (str "h") ttl_hash) as (t' & E & Ha);
    [apply at_ok|done|reflexivity|reflexivity|].
  exists t'. split; [exact E|]. rewrite Ha. reflexivity.
Defined.
