(* ===== verification/Replies.v ===== *)
(** * Replies: the handlers answer in the wire format

    Every command has its types of reply, and a reply is a value the wire
    format can carry ([wf_value]), so that the client reads back what the
    handler returned.  This needs an invariant of the store: no string in it
    is longer than a bulk may be.  [PING] echoes its argument as a simple
    string and can break out of the format. *)

From stdpp Require Import base list gmap strings.
From Stdlib Require Import ZArith Lia Ascii.
From S2P Require Import Prelude GoLib StoreSpec MapStore GoIO Resp Evict TTLStore Handler.
Local Open Scope Z_scope.

(** ** Types of replies *)
Definition reply_types (c : command) : list vtype :=
  match c with
  | CPing => [TypeString]
  | CSet | CHSet => [TypeString; TypeError]
  | CGet | CHGet => [TypeBulk; TypeNull; TypeError]
  | CHGetAll => [TypeArray; TypeError]
  | CExpire | CTTL | CDel => [TypeInteger; TypeError]
  end.

(** Replies whose content is not under the control of the handler: the echo
    of [PING], and the float that [TTL] converts. *)
Definition controlled (c : command) (args : list Value) : bool :=
  match c, args with
  | CPing, a :: _ => forallb (λ x, negb (bool_decide (x = CR))) (v_Bulk a)
  | CTTL, [_] => false
  | _, _ => true
  end.

Definition reply_ok (c : command) (args : list Value) (v : Value) : Prop :=
  v_Type v ∈ reply_types c ∧ (controlled c args = true → wf_value v = true).

(** ** Sizes *)
Definition small (s : gostring) : Prop := Z.of_nat (length s) ≤ maxAlloc.

Definition args_small (args : list Value) : Prop := in_int64 (Z.of_nat (length args)) = true ∧ Forall (λ v, small (v_Bulk v)) args.

(** Every string is small, and a hash has at most [n] fields. *)
Record small_content (n : nat) (a : kv) : Prop := mk_small {
  sm_string k v : kv_strings a !! k = Some v → small v;
  sm_hash h m : kv_hashes a !! h = Some m → (size m ≤ n)%nat;
  sm_field h m k v : kv_hashes a !! h = Some m → m !! k = Some v → small k ∧ small v
}.

Lemma small_empty n : small_content n kv_empty.
Proof. split; simpl; intros *; by rewrite lookup_empty. Qed.

Lemma small_mono n n' a : (n ≤ n')%nat → small_content n a → small_content n' a.
Proof. intros Hn [H1 H2 H3]. split; [done| |done]. intros h m Hm. specialize (H2 h m Hm). lia. Qed.

Lemma small_del n k a : small_content n a → small_content n (kv_del k a).
Proof.
  intros [H1 H2 H3]. split; simpl; intros *; rewrite lookup_delete_Some.
  - intros [_ ?]. eauto.
  - intros [_ ?]. eauto.
  - intros [_ ?]. eauto.
Qed.

Lemma small_set n k v a : small v → small_content n a → small_content n (kv_set k v a).
Proof. intros Hv [H1 H2 H3]. split; [|done|done]. intros k' v'. simpl. rewrite lookup_insert_Some. intros [[_ <-]|[_ ?]]; eauto. Qed.

Lemma small_hset n h k v a : small k → small v → small_content n a → small_content (S n) (kv_hset h k v a).
Proof.
  intros Hk Hv [H1 H2 H3]. split; [done|..]; simpl; intros h' m.
  - rewrite lookup_insert_Some. intros [[_ <-]|[_ Hm]]; [|specialize (H2 _ _ Hm); lia].
    rewrite map_size_insert. destruct (kv_hashes a !! h) as [m|] eqn:E; simpl; [specialize (H2 _ _ E)|rewrite lookup_empty, map_size_empty; lia].
    case_match; simpl; lia.
  - intros k' v'. rewrite lookup_insert_Some. intros [[_ <-]|[_ Hm]]; [|by eapply H3].
    rewrite lookup_insert_Some. intros [[<- <-]|[_ Hl]]; [done|]. destruct (kv_hashes a !! h) as [m|] eqn:E; simpl in Hl; [by eapply H3|by rewrite lookup_empty in Hl].
Qed.

(** ** The store keeps its strings small *)
Section store.
Context {S : Type} `{!StoreOps S} `{!StoreLaws S}.
Implicit Types (t u : TTLStore S) (e : Env).

Definition tsmall (n : nat) (t : TTLStore S) : Prop := small_content n (st_abs (t_inner t)).

Lemma removed_small n k t t' : removed k t t' → tsmall n t → tsmall n t'.
Proof. intros [_ R _ _ _ _]. unfold tsmall. rewrite R. apply small_del. Qed.

Lemma read_small n e k t t' : read_effect e k t t' → tsmall n t → tsmall n t'.
Proof. unfold read_effect. case_match; [apply removed_small|by intros ->]. Qed.

Lemma evict_small n e u u' : env_ok e → st_inv (t_inner u) → evictIfNeeded e u = Ret u' → tsmall n u → tsmall n u'.
Proof.
  intros He Hi E Hs. destruct (evictIfNeeded_spec e u He Hi) as (u2 & E2 & Hor). rewrite E in E2. simplify_eq.
  destruct Hor as [->|(k & _ & _ & _ & Hr)]; [done|]. by eapply removed_small.
Qed.

Lemma Set_small n e k v t t' :
  env_ok e → st_inv (t_inner t) → small v → tsmall n t → TTLStore_Set e k v t = Ret t' → tsmall n t'.
Proof.
  intros He Hi Hv Hs E. destruct (Set_unfold e k v t Hi) as (s & E1 & Hi1 & Ha). rewrite E in E1. symmetry in E1.
  eapply evict_small; [done| |exact E1|]; [done|]. unfold tsmall. simpl. rewrite Ha. by apply small_set.
Qed.

Lemma HSet_small n e h k v t t' :
  env_ok e → st_inv (t_inner t) → small k → small v → tsmall n t → TTLStore_HSet e h k v t = Ret t' → tsmall (Datatypes.S n) t'.
Proof.
  intros He Hi Hk Hv Hs E. destruct (HSet_unfold e h k v t Hi) as (s & E1 & Hi1 & Ha). rewrite E in E1. symmetry in E1.
  eapply evict_small; [done| |exact E1|]; [done|]. unfold tsmall. simpl. rewrite Ha. by apply small_hset.
Qed.

Lemma del_loop_small n envs i args count t t' m :
  envs_ok envs → st_inv (t_inner t) → tsmall n t → 0 ≤ count → del_loop envs i args count t = Ret (t', m) →
  tsmall n t' ∧ count ≤ m ≤ count + Z.of_nat (length args).
Proof.
  intros He. revert i count t; induction args as [|a args IH]; intros i count t Hi Hs Hc E; simplify_eq/=; [split; [done|lia]|].
  destruct (Get_spec (envs i) (v_Bulk a) t Hi) as (t1 & E1 & Hr). rewrite E1 in E. cbn [mbind go_bind] in E.
  assert (st_inv (t_inner t1)) as Hi1 by (unfold read_effect in Hr; case_match; [apply Hr|by subst t1]).
  pose proof (read_small n _ _ _ _ Hr Hs) as Hs1. revert E. clear E1. destruct (if isExpired _ _ _ then _ else _); intros E.
  - destruct (delExpired_removed (v_Bulk a) t1 Hi1) as (t2 & E2 & R2). change (TTLStore_Del (v_Bulk a) t1) with (delExpired (v_Bulk a) t1) in E.
    rewrite E2 in E. simpl in E. destruct (IH (i + 1)%nat (count + 1) t2) as [? ?]; [apply R2|by eapply removed_small|lia|done|]. split; [done|lia].
  - destruct (IH (i + 1)%nat count t1) as [? ?]; [done..|]. split; [done|lia].
Qed.

(** ** The replies *)
Lemma wf_bulk b : small b → wf_value (VBulk b) = true.
Proof. intros Hb. unfold small in Hb. simpl. lia. Qed.

Lemma wf_integer z : in_int64 z = true → wf_value (VInteger z) = true.
Proof. intros Hz. simpl. by rewrite Hz. Qed.

Lemma wf_hgetall (order : gset gostring → list gostring) n m :
  (∀ X, order X ≡ₚ elements X) → Z.of_nat n < 2 ^ 61 →
  (∀ h, m = Some h → (size h ≤ n)%nat ∧ ∀ k v, h !! k = Some v → small k ∧ small v) → wf_value (hgetall_reply order m) = true.
Proof.
  intros Ho Hn Hm. destruct m as [h|]; [|done]. destruct (Hm h eq_refl) as [Hsz Hf]. cbn [hgetall_reply].
  assert (∀ ks, (∀ k, k ∈ ks → is_Some (h !! k)) →
    length (flat_map (λ k, [VBulk k; VBulk (default [] (h !! k))]) ks) = (2 * length ks)%nat ∧
    forallb wf_value (flat_map (λ k, [VBulk k; VBulk (default [] (h !! k))]) ks) = true) as Hks.
  { induction ks as [|k ks IH]; intros Hin; [done|]. destruct IH as [IH1 IH2]; [intros; apply Hin; by right|].
    destruct (Hin k (list_elem_of_here _ _)) as [v Hv]. destruct (Hf k v Hv) as [Hk Hv']. cbn [flat_map app length forallb].
    rewrite Hv. cbn [from_option id]. rewrite (wf_bulk k Hk), (wf_bulk v Hv'), IH1, IH2. split; [lia|done]. }
  destruct (Hks (order (dom h))) as [Hl Hw].
  { intros k Hk. rewrite Ho, elem_of_elements, elem_of_dom in Hk. done. }
  assert (length (order (dom h)) = size h) as Hlen by (rewrite Ho; apply size_dom).
  cbn [wf_value VArray]. rewrite Hw, Hl, Hlen. rewrite !bool_decide_eq_true_2 by done.
  assert (in_int64 (Z.of_nat (2 * size h)) = true) as -> by (unfold in_int64, min_int64, max_int64; rewrite andb_true_iff, !Z.leb_le; lia). done.
Qed.

Lemma wrong_args_ok c args cmd :
  TypeError ∈ reply_types c → forallb (λ x, negb (bool_decide (x = CR))) cmd = true → reply_ok c args (wrong_args cmd).
Proof.
  intros Ht Hc. split; [done|]. intros _. unfold wrong_args. cbn [wf_value VError]. rewrite !forallb_app, Hc. reflexivity.
Qed.

Lemma reply_intro c args v : v_Type v ∈ reply_types c → wf_value v = true → reply_ok c args v.
Proof. by split. Qed.

Lemma get_reply_ok c args (o : option gostring) :
  c = CGet ∨ c = CHGet → (∀ v, o = Some v → small v) → reply_ok c args (match o with None => VNull | Some v => VBulk v end).
Proof.
  intros Hc Hs. destruct o as [v|]; apply reply_intro; [destruct Hc as [-> | ->]; set_solver|by apply wf_bulk, Hs|destruct Hc as [-> | ->]; set_solver|done].
Qed.

(** Each handler, on small arguments and a store of small strings. *)
Section replies.
Context (envs : Envs) (He : envs_ok envs) (t : TTLStore S) (n : nat).
Context (Hin : st_inv (t_inner t)) (Hs : tsmall n t) (Hn : Z.of_nat n < 2 ^ 61).

Lemma tsmall_up u : tsmall n u → tsmall (Datatypes.S n) u.
Proof. apply small_mono. lia. Qed.

Ltac wrong := try (split; [by apply tsmall_up|by apply wrong_args_ok; [set_solver|]]).

Lemma ping_reply args t' v : args_small args → ping envs args t = Ret (t', v) → tsmall (Datatypes.S n) t' ∧ reply_ok CPing args v.
Proof using All.
  intros _ E. unfold ping in E. destruct args as [|a args]; simplify_eq; (split; [by apply tsmall_up|]); (split; [set_solver|]); [done|].
  simpl. intros ->. done.
Qed.

Lemma setHandler_reply args t' v : args_small args → setHandler envs args t = Ret (t', v) → tsmall (Datatypes.S n) t' ∧ reply_ok CSet args v.
Proof using All.
  intros [_ Hargs] E. unfold setHandler in E. case_bool_decide; simplify_eq; [split; [by apply tsmall_up|by apply wrong_args_ok; [set_solver|]]|].
  assert (small (bulk_at args 1)) as Hb.
  { unfold bulk_at. destruct (args !! 1%nat) as [b|] eqn:Eb; simpl; [by eapply Forall_lookup_1 in Hargs|unfold small, maxAlloc; simpl; lia]. }
  destruct (set_ttl args) as [ttl|].
  + destruct (SetWithTTL _ _ _ _ _) as [t1| | |] eqn:E1; simplify_eq/=. split; [|by apply reply_intro; [set_solver|]].
    apply tsmall_up. unfold SetWithTTL in E1. by eapply (Set_small n (envs 0%nat) _ _ (set_deadline _ _ t)); [..|exact E1].
  + destruct (TTLStore_Set _ _ _ _) as [t1| | |] eqn:E1; simplify_eq/=. split; [|by apply reply_intro; [set_solver|]].
    apply tsmall_up. by eapply Set_small.
Qed.

Lemma getHandler_reply args t' v : args_small args → getHandler envs args t = Ret (t', v) → tsmall (Datatypes.S n) t' ∧ reply_ok CGet args v.
Proof using All.
  intros _ E. unfold getHandler in E. destruct args as [|k [|]]; simplify_eq; wrong.
  destruct (Get_spec (envs 0%nat) (v_Bulk k) t Hin) as (t1 & E1 & Hr). rewrite E1 in E. simplify_eq/=.
  split; [apply tsmall_up; by eapply read_small|]. apply get_reply_ok; [by left|]. intros v. case_match; [done|]. apply Hs.
Qed.

Lemma hsetHandler_reply args t' v : args_small args → hsetHandler envs args t = Ret (t', v) → tsmall (Datatypes.S n) t' ∧ reply_ok CHSet args v.
Proof using All.
  intros [_ Hargs] E. unfold hsetHandler in E. destruct args as [|h [|k [|v0 [|]]]]; simplify_eq; wrong.
  destruct (TTLStore_HSet _ _ _ _ _) as [t1| | |] eqn:E1; simplify_eq/=. split; [|by apply reply_intro; [set_solver|]].
  rewrite !Forall_cons in Hargs. destruct Hargs as (_ & ? & ? & _). by apply (HSet_small n (envs 0%nat) (v_Bulk h) (v_Bulk k) (v_Bulk v0) t t'); [apply He|..].
Qed.

Lemma hgetHandler_reply args t' v : args_small args → hgetHandler envs args t = Ret (t', v) → tsmall (Datatypes.S n) t' ∧ reply_ok CHGet args v.
Proof using All.
  intros _ E. unfold hgetHandler in E. destruct args as [|h [|k [|]]]; simplify_eq; wrong.
  destruct (HGet_spec (envs 0%nat) (v_Bulk h) (v_Bulk k) t Hin) as (t1 & E1 & Hr). rewrite E1 in E. simplify_eq/=.
  split; [apply tsmall_up; by eapply read_small|]. apply get_reply_ok; [by right|]. intros v. case_match; [done|].
  unfold kv_hget. intros (m & Hm & Hv)%bind_Some. by apply (sm_field _ _ Hs (v_Bulk h) m (v_Bulk k) v).
Qed.

Lemma hgetallHandler_reply args t' v : args_small args → hgetallHandler envs args t = Ret (t', v) → tsmall (Datatypes.S n) t' ∧ reply_ok CHGetAll args v.
Proof using All.
  intros _ E. unfold hgetallHandler in E. destruct args as [|h [|]]; simplify_eq; wrong.
  destruct (HGetAll_spec (envs 0%nat) (v_Bulk h) t Hin) as (t1 & E1 & Hr). rewrite E1 in E. simplify_eq/=.
  split; [apply tsmall_up; by eapply read_small|]. apply reply_intro; [by destruct (if isExpired _ _ _ then _ else _); set_solver|].
  apply (wf_hgetall _ n); [apply He|done|]. intros m. case_match; [done|]. unfold kv_hgetall. intros Hm.
  split; [by apply (sm_hash _ _ Hs (v_Bulk h))|]. intros k v Hv. by apply (sm_field _ _ Hs (v_Bulk h) m).
Qed.

Lemma expireHandler_reply args t' v : args_small args → expireHandler envs args t = Ret (t', v) → tsmall (Datatypes.S n) t' ∧ reply_ok CExpire args v.
Proof using All.
  intros _ E. unfold expireHandler in E. destruct args as [|k [|x [|]]]; simplify_eq; wrong.
  destruct (ParseInt (v_Bulk x)) as [sec|]; simplify_eq; [|split; [by apply tsmall_up|by apply reply_intro; [set_solver|]]].
  rewrite Expire_spec in E by done. destruct (kv_get _ _); simplify_eq/=; (split; [by apply tsmall_up|by apply reply_intro; [set_solver|]]).
Qed.

Lemma ttlHandler_reply args t' v : args_small args → ttlHandler envs args t = Ret (t', v) → tsmall (Datatypes.S n) t' ∧ reply_ok CTTL args v.
Proof using All.
  intros _ E. unfold ttlHandler in E. destruct args as [|k [|]]; simplify_eq; wrong.
  split; [by apply tsmall_up|]. split; [set_solver|done].
Qed.

Lemma delHandler_reply args t' v : args_small args → delHandler envs args t = Ret (t', v) → tsmall (Datatypes.S n) t' ∧ reply_ok CDel args v.
Proof using All.
  intros Hlen E. unfold delHandler in E. destruct args as [|a args]; simplify_eq; [split; [by apply tsmall_up|by apply wrong_args_ok; [set_solver|]]|].
  destruct (del_loop envs 0 (a :: args) 0 t) as [[t1 m]| | |] eqn:E1; simplify_eq/=.
  destruct (del_loop_small n envs 0 (a :: args) 0 t t' m He Hin Hs ltac:(lia) E1) as [Hs' Hm]. split; [by apply tsmall_up|].
  apply reply_intro; [set_solver|]. apply wf_integer. destruct Hlen as [Hlen _]. unfold in_int64, min_int64, max_int64 in *.
  rewrite andb_true_iff, !Z.leb_le in Hlen |- *. lia.
Qed.

End replies.

Lemma handler_reply c envs args t n :
  envs_ok envs → ttl_inv t → tsmall n t → args_small args → Z.of_nat n < 2 ^ 61 →
  ∃ t' v, handler_of c envs args t = Ret (t', v) ∧ ttl_inv t' ∧ tsmall (Datatypes.S n) t' ∧ reply_ok c args v.
Proof.
  intros He Hi Hs Ha Hn. destruct (handler_inv c envs args t He Hi) as (t' & v & E & Hi'). exists t', v. split; [done|]. split; [done|].
  pose proof (proj1 Hi) as Hin. destruct c; simpl in E;
    eauto using ping_reply, setHandler_reply, getHandler_reply, hsetHandler_reply, hgetHandler_reply, hgetallHandler_reply,
      expireHandler_reply, ttlHandler_reply, delHandler_reply.
Qed.
End store.

(** ** Theorems *)
Section theorems.
Context {S : Type} `{!StoreOps S} `{!StoreLaws S}.
Implicit Types (t : TTLStore S).

(** The answer to one command. *)
Definition answered (c : Envs * gostring * list Value) (r : option Value) : Prop :=
  match r with
  | None => NewHandlers (S:=S) !! c.1.2 = None
  | Some v => ∃ cmd, c.1.2 = command_name cmd ∧ reply_ok cmd c.2 v ∧
      (controlled cmd c.2 = true → ∀ rest src, Resp_Read (mkReader (Marshal v ++ rest) src) = Ret (mkReader rest src, inr v))
  end.

Lemma run_commands_answered cs t n :
  Forall (λ c, envs_ok c.1.1 ∧ args_small c.2) cs → ttl_inv t → tsmall n t → Z.of_nat (n + length cs) < 2 ^ 61 →
  ∃ t' rs, run_commands cs t = Ret (t', rs) ∧ Forall2 answered cs rs.
Proof.
  intros Hcs. revert t n; induction Hcs as [|[[envs name] args] cs [He Ha] _ IH]; intros t n Hi Hs Hn; [by eexists _, []|].
  cbn [run_commands]. destruct (NewHandlers !! name) as [h|] eqn:Eh.
  - destruct (NewHandlers_dom name h Eh) as (c & -> & ->).
    destruct (handler_reply c envs args t n He Hi Hs Ha) as (t1 & v & -> & Hi1 & Hs1 & Hr); [simpl in Hn; lia|]. cbn [mbind go_bind].
    destruct (IH t1 (Datatypes.S n) Hi1 Hs1) as (t2 & rs & -> & Hrs); [simpl in Hn; lia|]. cbn [mbind go_bind]. eexists _, _. split; [done|].
    constructor; [|done]. exists c. split_and!; [done|done|]. intros Hc rest src. apply Resp_Read_buffered. by apply Hr.
  - cbn [mbind go_bind]. destruct (IH t n Hi Hs) as (t2 & rs & -> & Hrs); [simpl in Hn; lia|]. cbn [mbind go_bind]. eexists _, _. split; [done|].
    by constructor.
Qed.

(** C25: The replies are well typed: for every sequence of commands with
    strings of admissible length on a new store, under any policy and key
    limit, exactly the known commands are answered and each reply has one of
    the types of its command.  Except for a PING echo that holds a CR and for
    the number of TTL, which comes from a float, it is a value of the wire
    format, and a client whose buffer holds it reads back exactly what the
    handler returned. *)
Theorem handlers_reply_typed (p : Policy) (m : Z) (cs : list (Envs * gostring * list Value)) (s : S) :
  st_inv s → st_abs s = kv_empty → Forall (λ c, envs_ok c.1.1 ∧ args_small c.2) cs → Z.of_nat (length cs) < 2 ^ 61 →
  ∃ t' rs, run_commands cs (SetEvictionPolicy p m (NewTTLStore s)) = Ret (t', rs) ∧ Forall2 answered cs rs.
Proof.
  intros Hi Ha Hcs Hn. apply (run_commands_answered cs _ 0); [done|by apply (NewTTLStore_inv s)| |lia].
  unfold tsmall. simpl. rewrite Ha. apply small_empty.
Qed.

(** PING echoes its argument as a simple string: an argument with a line
    break makes the reply two values, the second one chosen by the client. *)
Theorem ping_injects (envs : Envs) (x z : gostring) (t : TTLStore S) (src : stream) :
  CR ∉ x → CR ∉ z →
  ∃ v, ping envs [VBulk (x ++ CRLF ++ [STRING] ++ z)] t = Ret (t, v) ∧
    Resp_Read (mkReader (Marshal v) src) = Ret (mkReader (Marshal (VString z)) src, inr (VString x)) ∧
    Resp_Read (mkReader (Marshal (VString z)) src) = Ret (mkReader [] src, inr (VString z)).
Proof.
  intros Hx Hz. assert (∀ y, CR ∉ y → wf_value (VString y) = true) as Hwf.
  { intros y Hy. simpl. rewrite !andb_true_r. apply forallb_Forall_iff, Forall_forall. intros c Hc. apply negb_true_iff, bool_decide_eq_false.
    by intros ->. }
  eexists. split; [reflexivity|]. split.
  - rewrite <-(Resp_Read_buffered (VString x) (Marshal (VString z)) src (Hwf x Hx)). do 2 f_equal. simpl.
    unfold marshalString. simpl. by rewrite <-!app_assoc.
  - rewrite <-(app_nil_r (Marshal (VString z))) at 1. by apply Resp_Read_buffered, Hwf.
Qed.
End theorems.

(** ** Witnesses *)
Lemma handlers_reply_typed_witness :
  ∃ t' rs, run_commands [(at_ 0, str "SET", bulks ["k"; "v"]%string); (at_ 1, str "GET", bulks ["k"]%string); (at_ 2, str "FOO", [])]
      (SetEvictionPolicy NoEviction 0 (NewTTLStore NewMapStore)) = Ret (t', rs) ∧
    Forall2 (answered (S:=MapStore)) [(at_ 0, str "SET", bulks ["k"; "v"]%string); (at_ 1, str "GET", bulks ["k"]%string); (at_ 2, str "FOO", [])] rs.
Proof.
  apply (handlers_reply_typed NoEviction 0); [done|reflexivity| |simpl; lia].
  repeat (apply Forall_cons_2; [split; [apply at_ok|split; [reflexivity|repeat (apply Forall_cons_2; [vm_compute; discriminate|]); apply Forall_nil_2]]|]). apply Forall_nil_2.
Defined.

Lemma ping_injects_witness :
  ∃ v, ping (at_ 0) [VBulk (str "a" ++ CRLF ++ [STRING] ++ str "b")] (NewTTLStore NewMapStore) = Ret (NewTTLStore NewMapStore, v) ∧
    Resp_Read (mkReader (Marshal v) []) = Ret (mkReader (Marshal (VString (str "b"))) [], inr (VString (str "a"))).
Proof.
  destruct (ping_injects (at_ 0) (str "a") (str "b") (NewTTLStore NewMapStore) []) as (v & H1 & H2 & _); [set_solver|set_solver|].
  by exists v.
Defined.
