(* ===== verification/DelConc.v ===== *)
(** * DelConc: DEL commands at the same time, src/handler/handler.go

    [delHandler] asks the store for each key and deletes the ones it finds, in
    two calls with no lock around them: a DEL on another connection can run in
    between.  A step here is one call of the store; a schedule names the
    goroutine that makes the next one, and the environment of the call. *)

From stdpp Require Import base list gmap strings.
From Stdlib Require Import ZArith Lia.
From S2P Require Import Prelude GoLib StoreSpec MapStore GoIO Resp Evict TTLStore Handler.
Local Open Scope Z_scope.

(** ** The goroutines *)

(** A handler in its loop: the key it has found and has still to delete, the
    arguments to come, the count. *)
Record deleter := mkDeleter { d_found : option gostring; d_args : list Value; d_count : Z }.

Section steps.
Context {S : Type} `{!StoreOps S}.

Definition del_step (ev : nat * Env) (x : list deleter * TTLStore S) : go (list deleter * TTLStore S) :=
  let '(gs, t) := x in
  match gs !! ev.1 with
  | Some (mkDeleter (Some k) args n) =>
      t' ← TTLStore_Del k t; Ret (<[ev.1 := mkDeleter None args (n + 1)]> gs, t')
  | Some (mkDeleter None (arg :: args) n) =>
      '(t', v) ← TTLStore_Get ev.2 (v_Bulk arg) t;
      Ret (<[ev.1 := mkDeleter (match v with Some _ => Some (v_Bulk arg) | None => None end) args n]> gs, t')
  | _ => Ret x
  end.

Definition del_run : list (nat * Env) → list deleter * TTLStore S → go (list deleter * TTLStore S) := go_foldl del_step.
End steps.

Definition del_start (progs : list (list Value)) : list deleter := (λ args, mkDeleter None args 0) <$> progs.

(** The goroutine has answered. *)
Definition answered (g : deleter) : Prop := d_found g = None ∧ d_args g = [].

(** The sum of the replies. *)
Definition replies (gs : list deleter) : Z := foldr (λ g, Z.add (d_count g)) 0 gs.

(** How many of the arguments name a string that is there. *)
Definition present (a : kv) (args : list Value) : Z := Z.of_nat (length (filter (λ v, is_Some (kv_get (v_Bulk v) a)) args)).

(** ** Lemmas *)

(** The content [a] without the keys [X]. *)
Definition without (X : gset gostring) (a b : kv) : Prop :=
  ∀ k, kv_strings b !! k = (if decide (k ∈ X) then None else kv_strings a !! k) ∧
       kv_hashes b !! k = (if decide (k ∈ X) then None else kv_hashes a !! k).

Lemma without_none a : without ∅ a a.
Proof. intros k. by rewrite !decide_False by set_solver. Qed.

Lemma without_del X a b k : without X a b → without ({[k]} ∪ X) a (kv_del k b).
Proof.
  intros H k'. destruct (H k') as [H1 H2]. unfold kv_del. cbn [kv_strings kv_hashes]. rewrite !lookup_delete, H1, H2.
  destruct (decide (k = k')) as [->|]; [by rewrite !decide_True by set_solver|].
  destruct (decide (k' ∈ X)); [by rewrite !decide_True by set_solver|by rewrite !decide_False by set_solver].
Qed.

Lemma without_get X a b k : without X a b → kv_get k b = if decide (k ∈ X) then None else kv_get k a.
Proof. intros H. apply H. Qed.

Lemma replies_insert gs i g g' : gs !! i = Some g → replies (<[i := g']> gs) = replies gs - d_count g + d_count g'.
Proof.
  revert i; induction gs as [|h gs IH]; intros [|i] E; simplify_eq/=; [lia|]. rewrite (IH i E). lia.
Qed.

(** A goroutine started on [args]: its arguments are done up to some point;
    each one that was there is deleted or found, and counted at most once. *)
Definition del_inv (a : kv) (X : gset gostring) (args : list Value) (g : deleter) : Prop :=
  ∃ done, args = done ++ d_args g ∧
    d_count g + (match d_found g with Some _ => 1 | None => 0 end) ≤ present a done ∧
    (∀ k, d_found g = Some k → is_Some (kv_get k a) ∧ k ∈ v_Bulk <$> done) ∧
    (∀ k, k ∈ v_Bulk <$> done → is_Some (kv_get k a) → k ∈ X ∨ d_found g = Some k).

Lemma present_snoc a l v : present a (l ++ [v]) = present a l + if decide (is_Some (kv_get (v_Bulk v) a)) then 1 else 0.
Proof.
  unfold present. rewrite filter_app, length_app, filter_cons, filter_nil. destruct (decide (is_Some _)); simpl; lia.
Qed.

Lemma del_inv_grow a X Y args g : X ⊆ Y → del_inv a X args g → del_inv a Y args g.
Proof.
  intros HXY (done & E & Hn & Hf & Hd). exists done. split_and!; [done..|]. intros k Hk Ha. destruct (Hd k Hk Ha); [left; set_solver|by right].
Qed.

(** The goroutine after its Get. *)
Lemma del_inv_get a X b args arg rest n :
  without X a b → del_inv a X args (mkDeleter None (arg :: rest) n) →
  del_inv a X args (mkDeleter (match kv_get (v_Bulk arg) b with Some _ => Some (v_Bulk arg) | None => None end) rest n).
Proof.
  intros Hw (done & E & Hn & Hf & Hd). cbn [d_args d_count d_found] in *. exists (done ++ [arg]).
  pose proof (without_get X a b (v_Bulk arg) Hw) as Hg. cbn [d_args d_count d_found]. rewrite present_snoc, fmap_app.
  split_and!; [by rewrite <-app_assoc| | |].
  - rewrite Hg. case_decide; destruct (kv_get (v_Bulk arg) a); simpl; repeat case_decide; try lia; exfalso; naive_solver.
  - intros k Hk. rewrite Hg in Hk. case_decide; [done|]. destruct (kv_get (v_Bulk arg) a) eqn:Ea; [|done]. simplify_eq.
    rewrite Ea. split; [done|]. set_solver.
  - intros k Hk Ha. apply elem_of_app in Hk as [Hk|Hk].
    + destruct (Hd k Hk Ha) as [?|?]; [by left|done].
    + apply list_elem_of_singleton in Hk as ->. rewrite Hg. case_decide; [by left|]. right. by destruct Ha as [v ->].
Qed.

(** The goroutine after its Del. *)
Lemma del_inv_del a X args k rest n :
  del_inv a X args (mkDeleter (Some k) rest n) → del_inv a ({[k]} ∪ X) args (mkDeleter None rest (n + 1)).
Proof.
  intros (done & E & Hn & Hf & Hd). exists done. cbn [d_args d_count d_found] in *. split_and!; [done|lia|done|].
  intros k' Hk Ha. left. destruct (Hd k' Hk Ha) as [|[= ->]]; set_solver.
Qed.

Section proofs.
Context {S : Type} `{!StoreOps S} `{!StoreLaws S}.

(** The whole run: [X] is what was deleted so far. *)
Definition dels_inv (a : kv) (progs : list (list Value)) (x : list deleter * TTLStore S) : Prop :=
  ∃ X b, plain b x.2 ∧ without X a b ∧ Z.of_nat (size X) ≤ replies x.1 ∧
    (∀ k, k ∈ X → is_Some (kv_get k a) ∧ k ∈ v_Bulk <$> concat progs) ∧ Forall2 (del_inv a X) progs x.1.

Lemma dels_start a progs t : plain a t → dels_inv a progs (del_start progs, t).
Proof.
  intros Hp. exists ∅, a. split_and!; [done|apply without_none| |set_solver|].
  - rewrite size_empty. cbn [fst]. assert (replies (del_start progs) = 0) as ->; [|done].
    clear. induction progs as [|p progs IH]; [done|]. exact IH.
  - apply Forall2_fmap_r, Forall_Forall2_diag, Forall_true. intros args. exists []. split; [done|]. split; [done|]. split; [done|]. intros k Hk. by apply not_elem_of_nil in Hk.
Qed.

Lemma del_step_inv a progs ev x : dels_inv a progs x → ∃ x', del_step ev x = Ret x' ∧ dels_inv a progs x'.
Proof.
  destruct x as [gs t], ev as [i e]. intros (X & b & Hp & Hw & Hs & HX & HF). cbn [fst snd] in *. unfold del_step. cbn [fst snd].
  destruct (gs !! i) as [[[k|] rest n]|] eqn:Hi; [| |by eexists; split; [done|]; exists X, b].
  - destruct (plain_Del k b t Hp) as (t' & -> & Hp'). eexists. split; [done|]. exists ({[k]} ∪ X), (kv_del k b). cbn [fst snd].
    destruct (Forall2_lookup_r _ _ _ _ _ HF Hi) as (args & Ha & Hg). split_and!; [done|by apply without_del| | |].
    + rewrite (replies_insert _ _ _ _ Hi). cbn [d_count]. pose proof (size_union_alt {[k]} X) as Hu. rewrite size_singleton in Hu.
      pose proof (subseteq_size (X ∖ {[k]}) X ltac:(set_solver)). lia.
    + intros k' [->%elem_of_singleton|Hk]%elem_of_union; [|by apply HX]. destruct Hg as (done & E & _ & Hf & _).
      destruct (Hf k eq_refl) as [H1 H2]. split; [done|]. apply list_elem_of_fmap in H2 as (v & -> & Hv). apply list_elem_of_fmap_2.
      apply list_elem_of_In, in_concat. exists args. split; apply list_elem_of_In; [by eapply list_elem_of_lookup_2|rewrite E; set_solver].
    + rewrite <-(list_insert_id progs i args Ha). apply Forall2_insert; [|by apply del_inv_del].
      eapply Forall2_impl; [exact HF|]. intros ? ?. apply del_inv_grow. set_solver.
  - destruct rest as [|arg rest]; [by eexists; split; [done|]; exists X, b|].
    destruct (plain_Get e (v_Bulk arg) b t Hp) as (t' & -> & Hp'). eexists. split; [reflexivity|]. exists X, b. cbn [fst snd].
    destruct (Forall2_lookup_r _ _ _ _ _ HF Hi) as (args & Ha & Hg). split_and!; [done|done| |done|].
    + rewrite (replies_insert _ _ _ _ Hi). cbn [d_count]. lia.
    + rewrite <-(list_insert_id progs i args Ha). apply Forall2_insert; [done|]. by apply del_inv_get.
Qed.

Lemma del_run_inv a progs evs x : dels_inv a progs x → ∃ x', del_run evs x = Ret x' ∧ dels_inv a progs x'.
Proof.
  revert x; induction evs as [|ev evs IH]; intros x Hx; [by exists x|]. destruct (del_step_inv a progs ev x Hx) as (x1 & E & H1).
  destruct (IH x1 H1) as (x2 & E2 & H2). exists x2. split; [|done]. unfold del_run in *. cbn [go_foldl]. by rewrite E.
Qed.
End proofs.

(** A goroutine that runs alone does what [delHandler] does. *)
Lemma del_alone {S} `{!StoreOps S} (envs : Envs) i args n (t t' : TTLStore S) m :
  del_loop envs i args n t = Ret (t', m) →
  ∃ evs, del_run evs ([mkDeleter None args n], t) = Ret ([mkDeleter None [] m], t').
Proof.
  revert i n t; induction args as [|arg args IH]; intros i n t E; cbn [del_loop] in E.
  - injection E as <- <-. by exists [].
  - destruct (TTLStore_Get (envs i) (v_Bulk arg) t) as [[t1 v]| | |] eqn:E1; [|done..]. cbn [mbind go_bind] in E. destruct v as [v|].
    + destruct (TTLStore_Del (v_Bulk arg) t1) as [t2| | |] eqn:E2; [|done..]. destruct (IH _ _ _ E) as [evs Hevs].
      exists ((0%nat, envs i) :: (0%nat, envs i) :: evs). unfold del_run in *. cbn [go_foldl del_step fst snd lookup list_lookup]. rewrite E1.
      cbn. rewrite E2. exact Hevs.
    + destruct (IH _ _ _ E) as [evs Hevs]. exists ((0%nat, envs i) :: evs).
      unfold del_run in *. cbn [go_foldl del_step fst snd lookup list_lookup]. rewrite E1. exact Hevs.
Qed.

(** ** Theorems *)

(** C10: DEL commands that run at the same time, their store calls interleaved in
    any way, on a store without deadlines and without a key limit: no step
    fails, and once all have answered, the named keys that held a string are
    gone (with the hash of that name, if any), everything else is as it was,
    the replies add up to at least the number of keys that were removed, and
    each is at most the number of its arguments that held a string at the
    start. *)
Theorem del_concurrent {S} `{!StoreOps S} `{!StoreLaws S} (a : kv) (t : TTLStore S) (progs : list (list Value)) (evs : list (nat * Env)) :
  plain a t →
  ∃ gs t', del_run evs (del_start progs, t) = Ret (gs, t') ∧
    (Forall answered gs →
     ∃ X b, plain b t' ∧ without X a b ∧ (∀ k, k ∈ X ↔ is_Some (kv_get k a) ∧ k ∈ v_Bulk <$> concat progs) ∧
       Z.of_nat (size X) ≤ replies gs ∧ Forall2 (λ args g, d_count g ≤ present a args) progs gs).
Proof.
  intros Hp. destruct (del_run_inv a progs evs _ (dels_start a progs t Hp)) as ([gs t'] & E & X & b & Hb & Hw & Hs & HX & HF).
  exists gs, t'. split; [done|]. intros Hans. cbn [fst snd] in *. exists X, b. split_and!; [done..| |done|].
  - intros k. split; [apply HX|]. intros [Ha Hk]. apply list_elem_of_fmap in Hk as (v & -> & Hv).
    apply list_elem_of_In, in_concat in Hv as (args & Hargs & Hv). apply list_elem_of_In, list_elem_of_lookup in Hargs as [i Hi].
    destruct (Forall2_lookup_l _ _ _ _ _ HF Hi) as (g & Hg & done & Ed & _ & _ & Hd).
    destruct (Forall_lookup_1 _ _ _ _ Hans Hg) as [Hf Hr]. rewrite Hr, app_nil_r in Ed. subst done.
    destruct (Hd (v_Bulk v)) as [|Hx]; [by apply list_elem_of_fmap_2, list_elem_of_In|done|done|congruence].
  - apply Forall2_same_length_lookup. split; [by eapply Forall2_length|]. intros i args g Hi Hg.
    destruct (proj2 (proj1 (Forall2_same_length_lookup _ _ _) HF) i args g Hi Hg) as (done & Ed & Hn & _).
    destruct (Forall_lookup_1 _ _ _ _ Hans Hg) as [Hf Hr]. rewrite Hf in Hn. rewrite Hr, app_nil_r in Ed. subst done. lia.
Qed.

(** One key, two answers: two connections that delete the same key can both be
    told that they removed it. *)
Theorem del_counted_twice {S} `{!StoreOps S} `{!StoreLaws S} (a : kv) (t : TTLStore S) (k : gostring) (e : Env) :
  plain a t → is_Some (kv_get k a) →
  ∃ gs t', del_run [(0%nat, e); (1%nat, e); (0%nat, e); (1%nat, e)] (del_start [[VBulk k]; [VBulk k]], t) = Ret (gs, t') ∧
    Forall answered gs ∧ d_count <$> gs = [1; 1].
Proof.
  intros Hp [v Hk]. destruct (plain_Get e k a t Hp) as (t1 & E1 & Hp1). destruct (plain_Get e k a t1 Hp1) as (t2 & E2 & Hp2).
  destruct (plain_Del k a t2 Hp2) as (t3 & E3 & Hp3). destruct (plain_Del k _ t3 Hp3) as (t4 & E4 & _).
  rewrite Hk in E1, E2. eexists _, t4. split; [|split].
  - unfold del_run, del_start, del_step. cbn [go_foldl fmap list_fmap lookup list_lookup fst snd v_Bulk VBulk]. rewrite E1.
    cbn. rewrite E2. cbn. rewrite E3. cbn. rewrite E4. reflexivity.
  - by repeat constructor.
  - done.
Qed.

(** ** Witnesses *)
Definition one_key : TTLStore MapStore := mkTTLStore (mkMapStore {[str "k" := str "v"]} ∅) ∅ {[str "k"]} NoEviction 0 false.
Definition one_key_content : kv := mkKV {[str "k" := str "v"]} ∅.

Lemma one_key_plain : plain one_key_content one_key.
Proof. by constructor. Qed.

Lemma del_concurrent_witness :
  ∃ gs t', del_run [(0%nat, at_ 0 0%nat); (1%nat, at_ 0 0%nat); (0%nat, at_ 0 0%nat); (1%nat, at_ 0 0%nat)]
      (del_start [[VBulk (str "k")]; [VBulk (str "k")]], one_key) = Ret (gs, t') ∧
    (Forall answered gs →
     ∃ X b, plain b t' ∧ without X one_key_content b ∧
       (∀ k, k ∈ X ↔ is_Some (kv_get k one_key_content) ∧ k ∈ v_Bulk <$> concat [[VBulk (str "k")]; [VBulk (str "k")]]) ∧
       Z.of_nat (size X) ≤ replies gs ∧
       Forall2 (λ args g, d_count g ≤ present one_key_content args) [[VBulk (str "k")]; [VBulk (str "k")]] gs).
Proof. apply (del_concurrent one_key_content one_key). apply one_key_plain. Defined.

Lemma del_counted_twice_witness :
  ∃ gs t', del_run [(0%nat, at_ 0 0%nat); (1%nat, at_ 0 0%nat); (0%nat, at_ 0 0%nat); (1%nat, at_ 0 0%nat)]
      (del_start [[VBulk (str "k")]; [VBulk (str "k")]], one_key) = Ret (gs, t') ∧
    Forall answered gs ∧ d_count <$> gs = [1; 1].
Proof. apply (del_counted_twice one_key_content one_key (str "k") (at_ 0 0%nat)); [apply one_key_plain|by eexists]. Defined.
