(* ===== verification/Persist.v ===== *)
(** * Persist: the contract of [persistence.Persistence]

    The interface (src/persistence/persistence.go), its two backends without
    a file of their own (null.go, dual.go), and what a log promises to the
    server: [PersistenceLaws].  [Replay] is modelled by the list of commands
    it hands to its callback, in order; an error result is [true]. *)

From stdpp Require Import base list gmap strings.
From Stdlib Require Import ZArith Lia.
From S2P Require Import Prelude GoLib StoreSpec.

Record Command := mkCommand { cmd_Name : gostring; cmd_Args : list gostring }.

#[global] Instance Command_eq_dec : EqDecision Command.
Proof. solve_decision. Defined.

Class PersistenceOps (P : Type) := {
  p_Write : Command → P → go (P * bool);
  p_Replay : P → go (P * list Command * bool);
  p_Close : P → go (P * bool)
}.

(** The content the replayed commands rebuild, with the callback main.go
    installs (src/main.go). *)
Definition apply_command (c : Command) (a : kv) : kv :=
  if bool_decide (cmd_Name c = str "SET") then
    match cmd_Args c with k :: v :: _ => kv_set k v a | _ => a end
  else if bool_decide (cmd_Name c = str "HSET") then
    match cmd_Args c with h :: k :: v :: _ => kv_hset h k v a | _ => a end
  else a.

Definition apply_commands (cs : list Command) (a : kv) : kv := foldl (λ a c, apply_command c a) a cs.

Lemma apply_commands_app cs1 cs2 a :
  apply_commands (cs1 ++ cs2) a = apply_commands cs2 (apply_commands cs1 a).
Proof. apply foldl_app. Qed.

(** What a log promises: [p_log cs p] says that [p] is open and holds the
    commands [cs]; a write extends the log, and after a shutdown and a
    restart ([p_reopen], what the constructor builds on the same file) the
    replay hands back the log and leaves it ready for more. *)
Class PersistenceLaws (P : Type) `{!PersistenceOps P} := {
  p_log : list Command → P → Prop;
  p_admits : list Command → Prop;
  p_reopen : P → P;
  law_Write cs c p : p_log cs p → ∃ p', p_Write c p = Ret (p', false) ∧ p_log (cs ++ [c]) p';
  law_restart cs p : p_log cs p → p_admits cs →
    ∃ p1 p2, p_Close p = Ret (p1, false) ∧ p_Replay (p_reopen p1) = Ret (p2, cs, false) ∧ p_log cs p2
}.

(** ** src/persistence/null.go *)
Inductive NullPersistence := NewNullPersistence.

#[global] Instance NullPersistence_ops : PersistenceOps NullPersistence := {
  p_Write := λ _ n, Ret (n, false);
  p_Replay := λ n, Ret (n, [], false);
  p_Close := λ n, Ret (n, false)
}.

(** ** src/persistence/dual.go *)
Record DualPersistence (P Q : Type) := NewDualPersistence { primary : P; secondary : Q }.
Arguments NewDualPersistence {P Q}.
Arguments primary {P Q}.
Arguments secondary {P Q}.

Section dual.
Context {P Q : Type} `{!PersistenceOps P} `{!PersistenceOps Q}.

Definition Dual_Write (c : Command) (d : DualPersistence P Q) : go (DualPersistence P Q * bool) :=
  '(p, err1) ← p_Write c (primary d);
  '(q, err2) ← p_Write c (secondary d);
  Ret (NewDualPersistence p q, if err1 : bool then err1 else err2).

Definition Dual_Replay (d : DualPersistence P Q) : go (DualPersistence P Q * list Command * bool) :=
  '(p, cs, err) ← p_Replay (primary d); Ret (NewDualPersistence p (secondary d), cs, err).

Definition Dual_Close (d : DualPersistence P Q) : go (DualPersistence P Q * bool) :=
  '(p, err1) ← p_Close (primary d);
  '(q, err2) ← p_Close (secondary d);
  Ret (NewDualPersistence p q, if err1 : bool then err1 else err2).
End dual.

#[global] Instance Dual_ops {P Q} `{!PersistenceOps P} `{!PersistenceOps Q} : PersistenceOps (DualPersistence P Q) := {
  p_Write := Dual_Write;
  p_Replay := Dual_Replay;
  p_Close := Dual_Close
}.
