(* ===== verification/AOF.v ===== *)
(** * AOF: the append-only file, src/persistence/aof.go

    Commands are appended in the wire format and read back with the RESP
    parser of [Resp].  The goroutine that calls [Sync] changes nothing the
    program can read and is not part of the state. *)

From stdpp Require Import base list gmap strings.
From Stdlib Require Import ZArith Lia Ascii.
From S2P Require Import Prelude GoLib StoreSpec GoIO Resp Persist.

Record AOF := mkAOF { aof_file : file }.

(** [NewAOF]: the file opened at offset 0, without truncation. *)
Definition NewAOF (data : list byte) (room : option nat) : AOF := mkAOF (file_Open data room).

Definition aof_value (c : Command) : Value :=
  VArray (VBulk (cmd_Name c) :: (VBulk <$> cmd_Args c)).

Definition AOF_Write (c : Command) (a : AOF) : go (AOF * bool) :=
  let '(f, err) := file_Write (Marshal (aof_value c)) (aof_file a) in Ret (mkAOF f, err).

Section replay.
Context `{!UnicodeUpper}.

(** One iteration's [fn(cmd)], when the value is a command. *)
Definition value_command (v : Value) : option Command :=
  match v_Type v, v_Array v with
  | TypeArray, x :: xs => Some (mkCommand (ToUpper (v_Bulk x)) (v_Bulk <$> xs))
  | _, _ => None
  end.

(** The loop of [Replay]: the commands and whether it stopped on an error
    other than EOF. *)
Fixpoint replay_loop (fuel : nat) (r : Reader) (acc : list Command) : go (Reader * list Command * bool) :=
  match fuel with
  | O => NoFuel
  | S f =>
      '(r', v) ← Resp_Read r;
      match v with
      | inl EOF => Ret (r', acc, false)
      | inl NumError => Ret (r', acc, true)
      | inr v => replay_loop f r' (acc ++ option_list (value_command v))
      end
  end.

(** A read of a closed file fails at once. After an error the offset stays
    where the buffered reads left it. *)
Definition AOF_Replay (a : AOF) : go (AOF * list Command * bool) :=
  let f := file_SeekStart (aof_file a) in
  if f_closed f then Ret (mkAOF f, [], true) else
  let r := NewReader [f_data f] in
  '(r', cs, err) ← replay_loop (rd_size r + 1) r [];
  if err : bool then
    Ret (mkAOF (mkFile (f_data f) (length (f_data f) - stream_size (rsrc r')) (f_room f) false), cs, true)
  else Ret (mkAOF (file_SeekEnd f), cs, false).
End replay.

(** [Close] of a closed file is an error. *)
Definition AOF_Close (a : AOF) : go (AOF * bool) :=
  Ret (mkAOF (file_Close (aof_file a)), f_closed (aof_file a)).

#[global] Instance AOF_ops `{!UnicodeUpper} : PersistenceOps AOF := {
  p_Write := AOF_Write;
  p_Replay := AOF_Replay;
  p_Close := AOF_Close
}.

(** ** Lemmas *)
Section proofs.
Context `{!UnicodeUpper}.

(** Replay always comes back or panics in the parser. *)
Lemma replay_loop_total fuel r acc :
  rd_size r < fuel →
  replay_loop fuel r acc = Panic ∨ ∃ r' cs err, replay_loop fuel r acc = Ret (r', cs, err).
Proof.
  revert r acc; induction fuel as [|f IH]; intros r acc Hf; [lia|]. cbn [replay_loop].
  destruct (proj1 (Read_fuel_total (2 * rd_size r + 1)) r) as [E|(r' & v & E & ? & Hp)]; [lia| |];
    fold (Resp_Read r) in E; rewrite E; simpl; [by left|].
  destruct v as [[]|v]; [by eauto..|]. apply IH. lia.
Qed.

Lemma marshal_arg_length x l : x ∈ l → length (v_Bulk x) ≤ length (concat (map Marshal l)) ∨ v_Type x ≠ TypeBulk.
Proof.
  intros Hx. destruct (decide (v_Type x = TypeBulk)) as [Ht|]; [|by right]. left.
  induction l as [|y l IH]; [by apply not_elem_of_nil in Hx|]. cbn [map concat]. rewrite length_app.
  apply elem_of_cons in Hx as [->|Hx]; [|etransitivity; [exact (IH Hx)|apply Nat.le_add_l]].
  destruct y as [[] ? ? b ?]; simplify_eq/=. unfold marshalBulk. rewrite !length_app. simpl. repeat (rewrite !length_app; simpl). lia.
Qed.

Lemma map_marshal_count l : Forall (λ v, v_Type v = TypeBulk) l → length l ≤ length (concat (map Marshal l)).
Proof.
  induction 1 as [|[[] ? ? b ?] l Ht _ IH]; simplify_eq/=; [lia|].
  repeat (rewrite length_app; simpl). lia.
Qed.

Lemma wf_aof_value c : length (Marshal (aof_value c)) ≤ bufSize → wf_value (aof_value c) = true.
Proof.
  unfold aof_value. set (l := VBulk (cmd_Name c) :: (VBulk <$> cmd_Args c)). intros Hl.
  assert (Forall (λ v, ∃ b, v = VBulk b) l) as Hb.
  { unfold l. constructor; [by eexists|]. apply Forall_fmap, Forall_true. intros x. by eexists. }
  clearbody l.
  assert (length (concat (map Marshal l)) ≤ bufSize) as Hc by (simpl in Hl; rewrite !length_app in Hl; simpl in Hl; lia).
  assert (length l ≤ bufSize) as Hn.
  { etransitivity; [|exact Hc]. apply map_marshal_count. eapply Forall_impl; [exact Hb|]. by intros ? [? ->]. }
  change (wf_value (VArray l)) with (in_int64 (Z.of_nat (length l)) && forallb wf_value l).
  apply andb_true_iff. split.
  - apply in_int64_length. unfold max_int64, bufSize in *. lia.
  - apply forallb_forall. intros v Hv%list_elem_of_In. rewrite Forall_forall in Hb.
    destruct (Hb v Hv) as [b ->]. destruct (marshal_arg_length (VBulk b) l Hv) as [Hlen|]; [|done].
    simpl in *. apply Z.leb_le. unfold maxAlloc, bufSize in *. lia.
Qed.

Definition aof_bytes (cs : list Command) : list byte := concat ((λ c, Marshal (aof_value c)) <$> cs).

Lemma aof_bytes_cons c cs : aof_bytes (c :: cs) = Marshal (aof_value c) ++ aof_bytes cs.
Proof. reflexivity. Qed.

Lemma aof_bytes_snoc cs c : aof_bytes (cs ++ [c]) = aof_bytes cs ++ Marshal (aof_value c).
Proof. unfold aof_bytes. rewrite fmap_app, concat_app. simpl. by rewrite app_nil_r. Qed.

(** The logs that fit the read buffer, with upper-case names. *)
Definition aof_admits (cs : list Command) : Prop :=
  Forall (λ c, is_upper (cmd_Name c) = true) cs ∧ length (aof_bytes cs) ≤ bufSize.

Lemma value_command_aof c : is_upper (cmd_Name c) = true → value_command (aof_value c) = Some c.
Proof.
  intros Hu. unfold value_command, aof_value; simpl. rewrite ToUpper_is_upper by done.
  rewrite <-list_fmap_compose, (list_fmap_ext _ id) by done. rewrite list_fmap_id. by destruct c.
Qed.

Lemma Resp_Read_end : Resp_Read (mkReader [] [[]]) = Ret (mkReader [] [[]], inl EOF).
Proof. reflexivity. Qed.

Lemma replay_buffered fuel cs acc :
  aof_admits cs → length cs < fuel →
  replay_loop fuel (mkReader (aof_bytes cs) [[]]) acc = Ret (mkReader [] [[]], acc ++ cs, false).
Proof.
  revert cs acc; induction fuel as [|f IH]; intros cs acc [Hu Hl] Hf; [lia|]. cbn [replay_loop].
  destruct cs as [|c cs]; [change (aof_bytes []) with (@nil byte); rewrite Resp_Read_end; simpl; by rewrite app_nil_r|].
  apply Forall_cons in Hu as [Hc Hu]. rewrite aof_bytes_cons, length_app in Hl. rewrite aof_bytes_cons.
  rewrite Resp_Read_buffered by (apply wf_aof_value; lia). cbn [mbind go_bind].
  rewrite value_command_aof by done. cbn [option_list]. rewrite IH; [|split; [done|lia]|simpl in Hf; lia].
  by rewrite <-app_assoc.
Qed.

Lemma aof_bytes_length cs : aof_admits cs → length cs ≤ length (aof_bytes cs).
Proof.
  intros [_ Hl]. induction cs as [|c cs IH]; [done|]. rewrite aof_bytes_cons, length_app in *.
  assert (1 ≤ length (Marshal (aof_value c))) by (apply Marshal_pos, wf_aof_value; lia).
  simpl length. specialize (IH ltac:(lia)). lia.
Qed.

Lemma AOF_Replay_spec cs f :
  aof_admits cs → f_data f = aof_bytes cs → f_closed f = false →
  AOF_Replay (mkAOF f) = Ret (mkAOF (file_SeekEnd (file_SeekStart f)), cs, false).
Proof.
  intros Ha Hd Hc. unfold AOF_Replay. simpl. rewrite Hc, Hd.
  replace (replay_loop _ (NewReader [aof_bytes cs]) []) with
    (@Ret (Reader * list Command * bool) (mkReader [] [[]], cs, false)); [done|].
  pose proof (aof_bytes_length cs Ha) as Hlen.
  assert (rd_size (NewReader [aof_bytes cs]) + 1 = S (length (aof_bytes cs))) as -> by (unfold rd_size; simpl; lia).
  destruct cs as [|c cs]; [done|].
  change (Ret (mkReader [] [[]], c :: cs, false)) with (@Ret (Reader * list Command * bool) (mkReader [] [[]], [] ++ c :: cs, false)).
  rewrite <-(replay_buffered (S (length (aof_bytes (c :: cs)))) (c :: cs) []) by (done || lia).
  cbn [replay_loop]. rewrite Resp_Read_fresh; [done| |apply Ha].
  intros E. rewrite E in Hlen. simpl in Hlen. lia.
Qed.

Definition aof_log (cs : list Command) (a : AOF) : Prop :=
  f_data (aof_file a) = aof_bytes cs ∧ f_pos (aof_file a) = length (f_data (aof_file a)) ∧
  f_room (aof_file a) = None ∧ f_closed (aof_file a) = false.

Lemma AOF_Write_log cs c a : aof_log cs a → ∃ a', AOF_Write c a = Ret (a', false) ∧ aof_log (cs ++ [c]) a'.
Proof.
  intros (Hd & Hp & Hr & Hc). unfold AOF_Write. rewrite file_Write_end by done. eexists. split; [done|].
  unfold aof_log; simpl. by rewrite aof_bytes_snoc, Hd.
Qed.
End proofs.

#[global] Program Instance AOF_laws `{!UnicodeUpper} : PersistenceLaws AOF := {
  p_log := aof_log;
  p_admits := aof_admits;
  p_reopen := λ a, NewAOF (f_data (aof_file a)) None
}.
Next Obligation. intros. by apply AOF_Write_log. Qed.
Next Obligation.
  intros ? cs [f] (Hd & Hp & Hr & Hc) Ha. simpl in *. unfold AOF_Close, NewAOF. simpl. rewrite Hc.
  eexists _, _. split; [done|]. simpl. rewrite (AOF_Replay_spec cs) by done. split; [done|]. by repeat split.
Qed.

(** ** Theorems *)

(** Replaying an append-only file ends on every file content: it returns
    or panics in the parser, and never loops. *)
Theorem aof_replay_total `{!UnicodeUpper} (a : AOF) :
  AOF_Replay a = Panic ∨ ∃ a' cs err, AOF_Replay a = Ret (a', cs, err).
Proof.
  unfold AOF_Replay. case_match; [by eauto|].
  destruct (replay_loop_total (rd_size (NewReader [f_data (file_SeekStart (aof_file a))]) + 1)
    (NewReader [f_data (file_SeekStart (aof_file a))]) []) as [->|(r & cs & [] & ->)];
    [lia|by left|right; simpl; by eauto..].
Qed.

(** Round trip of the append-only file: commands with upper-case names,
    written, closed and reopened, are replayed exactly and in order, with
    arbitrary bytes in the arguments, as long as the file fits the 4096-byte
    read buffer. *)
Theorem aof_roundtrip `{!UnicodeUpper} (cs : list Command) :
  aof_admits cs →
  ∃ a a' a'', go_foldl (λ c a, fst <$> AOF_Write c a) cs (NewAOF [] None) = Ret a ∧
    AOF_Close a = Ret (a', false) ∧
    AOF_Replay (NewAOF (f_data (aof_file a')) None) = Ret (a'', cs, false).
Proof.
  intros Ha.
  assert (∃ a, go_foldl (λ c a, fst <$> AOF_Write c a) cs (NewAOF [] None) = Ret a ∧ aof_log cs a) as (a & E & Hl).
  { clear Ha. induction cs as [|c cs IH] using rev_ind; [by eexists|]. destruct IH as (a & E & Hl).
    rewrite go_foldl_app, E. simpl. destruct (AOF_Write_log cs c a Hl) as (a' & -> & ?). by eexists. }
  destruct (law_restart cs a) as (a1 & a2 & E1 & E2 & _); [exact Hl|exact Ha|]. by exists a, a1, a2.
Qed.

(** [strings.ToUpper] outside ASCII, for the witnesses. *)
#[local] Instance upper_id : UnicodeUpper := λ s, s.

Definition aof_demo : list Command :=
  [mkCommand (str "SET") [str "k"; CRLF]; mkCommand (str "HSET") [str "h"; str "f"; []]].

Lemma aof_roundtrip_witness :
  aof_admits aof_demo ∧
  ∃ a a' a'', go_foldl (λ c a, fst <$> AOF_Write c a) aof_demo (NewAOF [] None) = Ret a ∧
    AOF_Close a = Ret (a', false) ∧
    AOF_Replay (NewAOF (f_data (aof_file a')) None) = Ret (a'', aof_demo, false).
Proof.
  assert (aof_admits aof_demo) as H.
  { split; [repeat (apply Forall_cons_2; [reflexivity|]); apply Forall_nil_2|].
    apply Nat.leb_le. vm_compute. reflexivity. }
  split; [exact H|]. by apply aof_roundtrip.
Defined.

(** Past the read buffer the round trip fails: a single [SET] of a value
    of 5000 bytes is replayed without error as 4069 bytes of it followed by
    NUL bytes. *)
Theorem aof_large_value_corrupted :
  let v := replicate 5000 "x"%char in
  ∃ a a', AOF_Write (mkCommand (str "SET") [str "k"; v]) (NewAOF [] None) = Ret (a, false) ∧
    AOF_Replay (NewAOF (f_data (aof_file a)) None) =
      Ret (a', [mkCommand (str "SET") [str "k"; replicate 4069 "x"%char ++ replicate 931 NUL]], false).
Proof.
  intros v. set (c := mkCommand (str "SET") [str "k"; v]). set (b := Marshal (aof_value c)).
  exists (mkAOF (mkFile b (length b) None false)), (mkAOF (mkFile b (length b) None false)).
  split; vm_compute; reflexivity.
Qed.

(** The secondary of a dual log is overwritten after a restart: it is
    opened at offset 0 and never replayed, so the first write replaces the
    beginning of what it held. *)
Theorem dual_secondary_overwritten {P} `{!PersistenceOps P} (p p1 p2 : P) cs (err err' : bool) (c : Command) (data : list byte) :
  p_Replay p = Ret (p1, cs, err) → p_Write c p1 = Ret (p2, err') →
  ∃ d, p_Replay (NewDualPersistence p (NewAOF data None)) = Ret (d, cs, err) ∧
    ∃ d', p_Write c d = Ret (d', err') ∧
      f_data (aof_file (secondary d')) = Marshal (aof_value c) ++ drop (length (Marshal (aof_value c))) data.
Proof.
  intros E1 E2. eexists. split; [simpl; unfold Dual_Replay; simpl; by rewrite E1|].
  eexists. split.
  - simpl. unfold Dual_Write. simpl. rewrite E2. simpl. unfold file_Write. simpl.
    rewrite bool_decide_eq_false_2 by lia. by destruct err'.
  - simpl. unfold write_at. rewrite firstn_all. reflexivity.
Qed.

Lemma dual_secondary_overwritten_witness :
  let c1 := mkCommand (str "SET") [str "a"; str "1"] in
  let c2 := mkCommand (str "SET") [str "b"; str "2"] in
  ∃ d, p_Replay (NewDualPersistence NewNullPersistence (NewAOF (aof_bytes [c1]) None)) = Ret (d, [], false) ∧
    ∃ d', p_Write c2 d = Ret (d', false) ∧ f_data (aof_file (secondary d')) = aof_bytes [c2].
Proof.
  intros c1 c2. destruct (dual_secondary_overwritten NewNullPersistence NewNullPersistence NewNullPersistence
    [] false false c2 (aof_bytes [c1])) as (d & E & d' & E' & H); [reflexivity..|].
  exists d. split; [exact E|]. exists d'. split; [exact E'|]. rewrite H. vm_compute. reflexivity.
Defined.
