(* ===== verification/AOFTorn.v ===== *)
(** * AOFTorn: an append-only file whose last record was cut, src/persistence/aof.go

    A full disk or a kill in the middle of a write leaves a first part of a
    record at the end of the file.  [Replay] parses it with the RESP parser,
    which fills up a bulk string that ends too early. *)

From stdpp Require Import base list gmap strings.
From Stdlib Require Import ZArith Lia Ascii.
From S2P Require Import Prelude GoLib StoreSpec GoIO Resp Persist AOF.

(** ** Readers at their end *)

(** The buffer holds [s], and nothing follows. *)
Definition last_bytes (s : list byte) : Reader := mkReader s [[]].

Definition exhausted (r : Reader) : Prop := ReadByte r = None.

Lemma exhausted_nil : exhausted (last_bytes []).
Proof. reflexivity. Qed.

Lemma exhausted_Read fuel r : exhausted r → Read_fuel (S fuel) r = Ret (r, inl EOF).
Proof. intros E. cbn [Read_fuel]. by rewrite E. Qed.

(** A line that is not complete. *)
Lemma readLine_loop_cut fuel line s :
  CR ∉ line → (CR ∉ s ∨ ∃ s', s = s' ++ [CR] ∧ CR ∉ s') → length s < fuel →
  readLine_loop fuel line (last_bytes s) = Ret (last_bytes [], inl EOF).
Proof.
  unfold last_bytes. revert line s; induction fuel as [|f IH]; intros line s Hl Hs Hf; [lia|].
  destruct s as [|b s]; [done|]. cbn [readLine_loop]. rewrite ReadByte_buffered, line_complete_no_CR by done.
  destruct (decide (b = CR)) as [->|Hb].
  - assert (s = []) as ->.
    { destruct Hs as [Hs|(s' & E & Hs)]; [exfalso; set_solver|]. destruct s' as [|x s']; [by injection E|]. injection E as <- _. set_solver. }
    destruct f as [|f]; [simpl in Hf; lia|]. done.
  - apply IH; [set_solver| |simpl in Hf; lia]. destruct Hs as [Hs|(s' & E & Hs)]; [left; set_solver|].
    destruct s' as [|x s']; [by injection E|]. injection E as -> ->. right. exists s'. split; [done|set_solver].
Qed.

Lemma readLine_cut s : (CR ∉ s ∨ ∃ s', s = s' ++ [CR] ∧ CR ∉ s') → readLine (last_bytes s) = Ret (last_bytes [], inl EOF).
Proof. intros Hs. unfold readLine. apply readLine_loop_cut; [set_solver|done|]. unfold rd_size. simpl. lia. Qed.

(** A first part of a line of digits. *)
Lemma readInteger_cut n i :
  i < length (Itoa n ++ CRLF) → readInteger (last_bytes (take i (Itoa n ++ CRLF))) = Ret (last_bytes [], inl EOF).
Proof.
  intros Hi. unfold readInteger. rewrite readLine_cut; [done|]. pose proof (Itoa_CR n) as Hn.
  rewrite length_app in Hi. simpl in Hi. rewrite take_app. destruct (decide (i ≤ length (Itoa n))).
  - left. replace (i - length (Itoa n)) with 0 by lia. rewrite app_nil_r. intros H. apply Hn. by eapply elem_of_take in H as (? & ? & ?); eapply list_elem_of_lookup_2.
  - right. exists (Itoa n). split; [|done]. rewrite take_ge by lia. by replace (i - length (Itoa n)) with 1 by lia.
Qed.

(** ** A bulk string that was cut *)

Lemma bufio_Read_last n s :
  bufio_Read n (last_bytes s) = (take n s, last_bytes (drop n s)).
Proof.
  unfold bufio_Read, last_bytes. destruct n as [|n]; [done|]. destruct s as [|b s]; [|done]. simpl. by case_decide.
Qed.

Lemma Read_bulk_cut fuel b i :
  (Z.of_nat (length b) ≤ maxAlloc)%Z → i < length (Marshal (VBulk b)) →
  ∃ v, Read_fuel (S fuel) (last_bytes (take i (Marshal (VBulk b)))) = Ret (last_bytes [], v) ∧
    (v = inl EOF ∨ ∃ b', v = inr (VBulk b') ∧ length b' = length b).
Proof.
  intros Hb Hi. cbn [Marshal VBulk] in *. unfold marshalBulk in *. destruct i as [|i].
  { exists (inl EOF). split; [reflexivity|by left]. }
  cbn [app take] in *. cbn [length] in Hi. apply Nat.succ_lt_mono in Hi. unfold last_bytes at 1. cbn [Read_fuel]. rewrite ReadByte_buffered. fold (last_bytes (take i (Itoa (Z.of_nat (length b)) ++ CRLF ++ b ++ CRLF))).
  unfold read_switch. simpl bool_decide. cbn match. unfold readBulk.
  set (n := Z.of_nat (length b)) in *. rewrite app_assoc in *. rewrite length_app in Hi. rewrite take_app.
  destruct (decide (i < length (Itoa n ++ CRLF))) as [H|H].
  { replace (i - length (Itoa n ++ CRLF)) with 0 by lia. cbn [take]. rewrite app_nil_r, readInteger_cut by done.
    exists (inl EOF). split; [reflexivity|by left]. }
  rewrite (take_ge (Itoa n ++ CRLF)) by lia. rewrite <-app_assoc. unfold last_bytes at 1.
  rewrite readInteger_buffered by (apply in_int64_length; unfold maxAlloc, max_int64 in *; lia). cbn [mbind go_bind].
  destruct (Z.eqb_spec n (-1)); [lia|]. destruct (Z.ltb_spec n 0); [lia|]. destruct (Z.ltb_spec maxAlloc n); [lia|]. simpl orb. cbn match.
  subst n. rewrite Nat2Z.id. set (j := i - _) in *. fold (last_bytes (take j (b ++ CRLF))). rewrite bufio_Read_last.
  rewrite (length_app b) in Hi. change (length CRLF) with 2 in Hi. rewrite readLine_cut.
  - cbn [mbind go_bind]. eexists. split; [reflexivity|]. right. eexists. split; [reflexivity|]. rewrite length_app, length_replicate.
    pose proof (firstn_le_length (length b) (take j (b ++ CRLF))). lia.
  - rewrite skipn_firstn_comm, drop_app_length. destruct (j - length b) as [|[|k]] eqn:Ek; [left; set_solver|right; exists []; by split; [|set_solver]|lia].
Qed.

(** ** A record that was cut *)

Abbreviation bulk_values := (fmap (M:=list) VBulk).

Lemma wf_bulk_arg b : (Z.of_nat (length b) ≤ maxAlloc)%Z → wf_value (VBulk b) = true.
Proof. intros Hb. simpl. by apply Z.leb_le. Qed.

(** What a cut list of bulk strings reads as: an end of input, or, when only
    the last one is damaged, the list with another string of its length. *)
Definition cut_read (bs : list gostring) (acc : list Value) (v : rerr + Value) : Prop :=
  v = inl EOF ∨ ∃ bs0 b b', bs = bs0 ++ [b] ∧ length b' = length b ∧ v = inr (VArray (acc ++ bulk_values (bs0 ++ [b']))).

Lemma readArray_cut fuel bs acc i :
  Forall (λ b, Z.of_nat (length b) ≤ maxAlloc)%Z bs → i < length (concat (map Marshal (bulk_values bs))) → 2 * i + 4 ≤ fuel →
  ∃ v, readArray_loop fuel (Z.of_nat (length bs)) acc (last_bytes (take i (concat (map Marshal (bulk_values bs))))) = Ret (last_bytes [], v) ∧
    cut_read bs acc v.
Proof.
  intros Hbs. revert fuel acc i; induction Hbs as [|b bs Hb Hbs IH]; intros fuel acc i Hi Hf; [simpl in Hi; lia|].
  rewrite fmap_cons in *. cbn [map concat] in *. rewrite length_app in Hi.
  destruct fuel as [|[|[|f]]]; [lia..|]. cbn [length]. set (x := Marshal (VBulk b)) in *.
  assert (1 ≤ length x) as Hx1 by (apply Marshal_pos, wf_bulk_arg, Hb).
  rewrite take_app. remember (S f) as f1. cbn [readArray_loop]. destruct (Z.leb_spec (Z.of_nat (S (length bs))) 0); [lia|].
  replace (Z.of_nat (S (length bs)) - 1)%Z with (Z.of_nat (length bs)) by lia. destruct (decide (i < length x)) as [Hc|Hc].
  - replace (i - length x) with 0 by lia. cbn [take]. rewrite app_nil_r.
    destruct (Read_bulk_cut f1 b i Hb Hc) as (v & E & [->|(b' & -> & Hl)]); fold x in E; rewrite E; cbn [mbind go_bind].
    { exists (inl EOF). split; [done|by left]. }
    destruct bs as [|b1 bs].
    + exists (inr (VArray (acc ++ [VBulk b']))). split; [done|]. right. exists [], b, b'. by split_and!.
    + cbn [readArray_loop length]. destruct (Z.leb_spec (Z.of_nat (S (length bs))) 0); [lia|]. subst f1.
      exists (inl EOF). split; [done|by left].
  - rewrite (take_ge x) by lia. unfold last_bytes at 1. subst x.
    rewrite Marshal_reads_back by (by apply wf_bulk_arg || lia). cbn [mbind go_bind].
    destruct (IH (S f1) (acc ++ [VBulk b]) (i - length (Marshal (VBulk b)))) as (v & E & Hv); [lia|lia|]. exists v. split; [exact E|].
    destruct Hv as [->|(bs0 & b0 & b' & -> & Hl & ->)]; [by left|]. right. exists (b :: bs0), b0, b'. split_and!; [done|done|].
    by rewrite <-app_assoc.
Qed.

Lemma Read_record_cut bs i :
  Forall (λ b, Z.of_nat (length b) ≤ maxAlloc)%Z bs → in_int64 (Z.of_nat (length bs)) = true → i < length (Marshal (VArray (bulk_values bs))) →
  ∃ v, Resp_Read (last_bytes (take i (Marshal (VArray (bulk_values bs))))) = Ret (last_bytes [], v) ∧ cut_read bs [] v.
Proof.
  intros Hbs Hn Hi. unfold Resp_Read. assert (rd_size (last_bytes (take i (Marshal (VArray (bulk_values bs))))) = i) as ->.
  { unfold rd_size. cbn [rbuf rsrc last_bytes stream_size length]. rewrite length_take. lia. }
  rewrite Nat.add_1_r. cbn [Marshal VArray] in *. unfold marshalArray in *. rewrite length_fmap in *. destruct i as [|i].
  { exists (inl EOF). split; [reflexivity|by left]. }
  cbn [app take] in *. cbn [length] in Hi. apply Nat.succ_lt_mono in Hi. unfold last_bytes at 1. cbn [Read_fuel]. rewrite ReadByte_buffered.
  unfold read_switch. rewrite bool_decide_eq_true_2 by done. fold (last_bytes (take i (Itoa (Z.of_nat (length bs)) ++ CRLF ++ concat (map Marshal (bulk_values bs))))).
  rewrite app_assoc in *. set (h := Itoa (Z.of_nat (length bs)) ++ CRLF) in *. rewrite length_app in Hi. rewrite take_app.
  destruct (decide (i < length h)) as [H|H].
  { replace (i - length h) with 0 by lia. cbn [take]. rewrite app_nil_r. subst h. rewrite readInteger_cut by done.
    exists (inl EOF). split; [reflexivity|by left]. }
  rewrite (take_ge h) by lia. subst h. rewrite <-app_assoc. unfold last_bytes at 1. rewrite readInteger_buffered by done. cbn [mbind go_bind].
  apply readArray_cut; [done|lia|]. rewrite length_app in H |- *. simpl in H |- *. lia.
Qed.

(** ** Replay *)
Section replay.
Context `{!UnicodeUpper}.

Lemma replay_whole fuel cs t acc :
  aof_admits cs → length cs ≤ fuel →
  replay_loop fuel (last_bytes (aof_bytes cs ++ t)) acc = replay_loop (fuel - length cs) (last_bytes t) (acc ++ cs).
Proof.
  unfold last_bytes. revert fuel acc; induction cs as [|c cs IH]; intros fuel acc [Hu Hl] Hf; [by rewrite Nat.sub_0_r, app_nil_r|].
  apply Forall_cons in Hu as [Hc Hu]. rewrite aof_bytes_cons in *. rewrite length_app in Hl. destruct fuel as [|f]; [simpl in Hf; lia|].
  cbn [replay_loop]. rewrite <-app_assoc, Resp_Read_buffered by (apply wf_aof_value; lia). cbn [mbind go_bind].
  rewrite value_command_aof by done. cbn [option_list]. rewrite IH; [|split; [done|lia]|simpl in Hf; lia]. by rewrite <-app_assoc.
Qed.

(** The commands a record of [c] that was cut may replay as. *)
Definition torn_command (c : Command) (torn : list Command) : Prop :=
  torn = [] ∨
  (∃ args a a', cmd_Args c = args ++ [a] ∧ length a' = length a ∧ torn = [mkCommand (cmd_Name c) (args ++ [a'])]) ∨
  (cmd_Args c = [] ∧ ∃ name, torn = [mkCommand name []]).

Lemma cut_read_command c v :
  is_upper (cmd_Name c) = true → cut_read (cmd_Name c :: cmd_Args c) [] (inr v) → torn_command c (option_list (value_command v)).
Proof.
  intros Hu [?|(bs0 & b & b' & E & Hl & [= ->])]; [done|]. right. destruct bs0 as [|n bs0]; injection E as En Ea.
  - right. split; [done|]. by eexists.
  - left. exists bs0, b, b'. split_and!; [done|done|]. unfold value_command. simpl. subst n. rewrite ToUpper_is_upper by done.
    rewrite fmap_app. do 2 f_equal. cbn [fmap list_fmap]. rewrite fmap_app. f_equal. rewrite <-list_fmap_compose. by rewrite (list_fmap_ext _ id), list_fmap_id.
Qed.

Lemma replay_torn fuel c i acc :
  aof_admits [c] → i < length (Marshal (aof_value c)) → (i = 0 → 1 ≤ fuel) → (i ≠ 0 → 2 ≤ fuel) →
  ∃ torn, replay_loop fuel (last_bytes (take i (Marshal (aof_value c)))) acc = Ret (last_bytes [], acc ++ torn, false) ∧ torn_command c torn.
Proof.
  intros [[Hu _]%Forall_cons Hl] Hi H1 H2. change (aof_bytes [c]) with (Marshal (aof_value c) ++ []) in Hl. rewrite app_nil_r in Hl.
  destruct (decide (i = 0)) as [->|H0].
  { specialize (H1 eq_refl). destruct fuel as [|f]; [lia|]. exists []. rewrite app_nil_r. split; [done|by left]. }
  specialize (H2 H0). destruct fuel as [|[|f]]; [lia..|]. pose proof (wf_aof_value c Hl) as Hwf.
  destruct (Read_record_cut (cmd_Name c :: cmd_Args c) i) as (v & E & Hv).
  - change (wf_value (aof_value c)) with (in_int64 (Z.of_nat (length (VBulk (cmd_Name c) :: bulk_values (cmd_Args c)))) && forallb wf_value (bulk_values (cmd_Name c :: cmd_Args c))) in Hwf.
    apply andb_prop in Hwf as [_ Hwf]. apply Forall_forall. intros b Hb. rewrite forallb_forall in Hwf.
    specialize (Hwf (VBulk b) ltac:(apply list_elem_of_In, list_elem_of_fmap_2, Hb)). simpl in Hwf. by apply Z.leb_le in Hwf.
  - change (wf_value (aof_value c)) with (in_int64 (Z.of_nat (length (VBulk (cmd_Name c) :: bulk_values (cmd_Args c)))) && forallb wf_value (bulk_values (cmd_Name c :: cmd_Args c))) in Hwf.
    apply andb_prop in Hwf as [Hwf _]. cbn [length] in Hwf. by rewrite length_fmap in Hwf.
  - exact Hi.
  - change (VArray (bulk_values (cmd_Name c :: cmd_Args c))) with (aof_value c) in E. remember (S f) as f1. cbn [replay_loop]. rewrite E. cbn [mbind go_bind].
    destruct v as [[]|v]; [exists []; rewrite app_nil_r; split; [done|by left]|by destruct Hv as [|(? & ? & ? & ? & ? & ?)]|].
    exists (option_list (value_command v)). split; [by subst f1|]. by apply cut_read_command.
Qed.
Lemma aof_torn_replay (cs : list Command) (c : Command) (i : nat) :
  aof_admits (cs ++ [c]) → i < length (Marshal (aof_value c)) →
  ∃ a torn, AOF_Replay (NewAOF (aof_bytes cs ++ take i (Marshal (aof_value c))) None) = Ret (a, cs ++ torn, false) ∧ torn_command c torn.
Proof.
  intros [Hu Hl] Hi. apply Forall_app in Hu as [Hu Huc]. rewrite aof_bytes_snoc, length_app in Hl.
  assert (aof_admits cs) as Hcs by (split; [done|lia]).
  assert (aof_admits [c]) as Hc by (split; [done|]; change (aof_bytes [c]) with (Marshal (aof_value c) ++ []); rewrite app_nil_r; lia).
  set (t := take i (Marshal (aof_value c))). assert (length t = i) as Ht by (subst t; rewrite length_take; lia).
  pose proof (aof_bytes_length cs Hcs) as Hlen. unfold AOF_Replay. cbn [NewAOF aof_file file_Open file_SeekStart f_data f_closed].
  assert (rd_size (NewReader [aof_bytes cs ++ t]) + 1 = S (length (aof_bytes cs) + i)) as ->.
  { unfold rd_size. cbn [rbuf rsrc NewReader stream_size length]. rewrite length_app. lia. }
  destruct (replay_torn (S (length (aof_bytes cs) + i) - length cs) c i cs Hc Hi) as (torn & E & Htorn); [lia|lia|].
  exists (mkAOF (file_SeekEnd (file_SeekStart (file_Open (aof_bytes cs ++ t) None)))), torn. split; [|exact Htorn].
  destruct (decide (aof_bytes cs ++ t = [])) as [Hnil|Hne].
  - apply app_eq_nil in Hnil as [Hb Htn]. assert (cs = []) as -> by (destruct cs; [done|rewrite Hb in Hlen; simpl in Hlen; lia]).
    assert (i = 0) as -> by (rewrite <-Ht, Htn; done). rewrite Htn. fold t in E. rewrite Htn in E. assert (torn = []) as -> by (by injection E). reflexivity.
  - assert (∀ acc f, replay_loop (S f) (NewReader [aof_bytes cs ++ t]) acc = replay_loop (S f) (last_bytes (aof_bytes cs ++ t)) acc) as ->.
    { intros acc f. cbn [replay_loop]. rewrite Resp_Read_fresh; [done|done|]. rewrite length_app. lia. }
    rewrite (replay_whole _ cs t []) by (done || lia). fold t in E. cbn [app]. rewrite E. reflexivity.
Qed.
End replay.

(** ** Theorems *)

(** C7: An append-only file whose last record was cut by a kill or a full disk,
    at whatever byte: replaying returns all commands before it unchanged and
    in order, then nothing or one command more, the cut one with other bytes
    of the same length in its last string, and reports no error.  The file,
    with the missing bytes, fits the 4096-byte read buffer; names are upper
    case. *)
Theorem aof_torn_record `{!UnicodeUpper} (cs : list Command) (c : Command) (i : nat) :
  aof_admits (cs ++ [c]) → i < length (Marshal (aof_value c)) →
  ∃ a torn, AOF_Replay (NewAOF (aof_bytes cs ++ take i (Marshal (aof_value c))) None) = Ret (a, cs ++ torn, false) ∧ torn_command c torn.
Proof. apply aof_torn_replay. Qed.

(** The server starts on such a file and appends behind the cut record, which
    then swallows the next one: a command written after the restart is not in
    the log any more. *)
Theorem aof_append_after_torn `{!UnicodeUpper} :
  let c1 := mkCommand (str "SET") [str "a"; str "1"] in
  let c2 := mkCommand (str "SET") [str "b"; replicate 40 "2"%char] in
  let c3 := mkCommand (str "SET") [str "c"; str "3"] in
  let torn := aof_bytes [c1] ++ take 30 (Marshal (aof_value c2)) in
  ∃ a a' a'', AOF_Replay (NewAOF torn None) =
      Ret (a, [c1; mkCommand (str "SET") [str "b"; replicate 5 "2"%char ++ replicate 35 NUL]], false) ∧
    AOF_Write c3 a = Ret (a', false) ∧
    AOF_Replay (NewAOF (f_data (aof_file a')) None) =
      Ret (a'', [c1; mkCommand (str "SET") [str "b"; replicate 5 "2"%char ++ Marshal (aof_value c3) ++ replicate 8 NUL]], false).
Proof.
  intros c1 c2 c3 torn. set (data := torn ++ Marshal (aof_value c3)).
  exists (mkAOF (mkFile torn (length torn) None false)), (mkAOF (mkFile data (length data) None false)), (mkAOF (mkFile data (length data) None false)).
  split; [vm_compute; reflexivity|]. split; [vm_compute; reflexivity|]. cbn [aof_file f_data]. vm_compute. reflexivity.
Qed.

(** ** Witness *)
#[local] Instance upper_id : UnicodeUpper := λ s, s.

Lemma aof_torn_record_witness :
  let c := mkCommand (str "SET") [str "b"; str "value"] in
  ∃ a torn, AOF_Replay (NewAOF (aof_bytes aof_demo ++ take 25 (Marshal (aof_value c))) None) = Ret (a, aof_demo ++ torn, false) ∧ torn_command c torn.
Proof.
  intros c. apply (aof_torn_record aof_demo c 25).
  - split; [repeat (apply Forall_cons_2; [reflexivity|]); apply Forall_nil_2|]. apply Nat.leb_le. vm_compute. reflexivity.
  - apply Nat.ltb_lt. vm_compute. reflexivity.
Defined.
