(* ===== verification/WAL.v ===== *)
(** * WAL: the write-ahead log, src/persistence/wal.go

    Commands in a binary format, gathered in a buffer that [Write] flushes
    past 1000 bytes and the background goroutine flushes every second: a
    flush is an operation of its own that may come between any two writes. *)

From stdpp Require Import base list gmap strings.
From Stdlib Require Import ZArith Lia Ascii.
From S2P Require Import Prelude GoLib StoreSpec GoIO Persist.

Record WAL := mkWAL {
  wal_file : file;
  wal_buf : list byte;
  wal_batchSize : nat;
  wal_done : bool
}.

Definition NewWAL (data : list byte) (room : option nat) : WAL := mkWAL (file_Open data room) [] 1000 false.

Definition marshal_arg (arg : gostring) : list byte := PutUint32 (Z.of_nat (length arg)) ++ arg.

Definition marshalCommand (c : Command) : list byte :=
  PutUint16 (Z.of_nat (length (cmd_Name c))) ++ cmd_Name c ++
  PutUint16 (Z.of_nat (length (cmd_Args c))) ++ concat (marshal_arg <$> cmd_Args c).

(** The argument loop of [unmarshalCommand], on the bytes from [off] on;
    [None] is one of the early returns. *)
Fixpoint unmarshal_args (argCount : nat) (data : list byte) : option (list gostring * list byte) :=
  match argCount with
  | O => Some ([], data)
  | S n =>
      if bool_decide (length data < 4) then None else
      let argLen := Z.to_nat (be_get (take 4 data)) in
      let data := drop 4 data in
      if bool_decide (length data < argLen) then None else
      '(args, rest) ← unmarshal_args n (drop argLen data);
      Some (take argLen data :: args, rest)
  end.

Section wal.
Context `{!UnicodeUpper}.

Definition unmarshal_record (data : list byte) : option (Command * list byte) :=
  if bool_decide (length data < 4) then None else
  let nameLen := Z.to_nat (be_get (take 2 data)) in
  let data := drop 2 data in
  if bool_decide (length data < nameLen) then None else
  let name := take nameLen data in
  let data := drop nameLen data in
  if bool_decide (length data < 2) then None else
  let argCount := Z.to_nat (be_get (take 2 data)) in
  '(args, rest) ← unmarshal_args argCount (drop 2 data);
  Some (mkCommand (ToUpper name) args, rest).

(** On an early return the data come back unchanged. *)
Definition unmarshalCommand (data : list byte) : Command * list byte :=
  default (mkCommand [] [], data) (unmarshal_record data).

Definition Flush (w : WAL) : WAL * bool :=
  if bool_decide (length (wal_buf w) = 0) then (w, false) else
  let '(f, err) := file_Write (wal_buf w) (wal_file w) in
  (mkWAL f [] (wal_batchSize w) (wal_done w), err).

Definition WAL_Write (c : Command) (w : WAL) : go (WAL * bool) :=
  let w1 := mkWAL (wal_file w) (wal_buf w ++ marshalCommand c) (wal_batchSize w) (wal_done w) in
  if bool_decide (wal_batchSize w1 ≤ length (wal_buf w1)) then Ret (Flush w1) else Ret (w1, false).

(** [for len(data) > 0 { ... }] *)
Fixpoint wal_loop (fuel : nat) (data : list byte) (acc : list Command) : go (list Command) :=
  match data with
  | [] => Ret acc
  | _ =>
      match fuel with
      | O => NoFuel
      | S f =>
          let '(cmd, data') := unmarshalCommand data in
          wal_loop f data' (if bool_decide (cmd_Name cmd = []) then acc else acc ++ [cmd])
      end
  end.

Definition WAL_Replay (w : WAL) : go (WAL * list Command * bool) :=
  let '(f, err) := if bool_decide (0 < length (wal_buf w)) then file_Write (wal_buf w) (wal_file w)
                   else (wal_file w, false) in
  if err : bool then Ret (mkWAL f (wal_buf w) (wal_batchSize w) (wal_done w), [], true) else
  let f := file_SeekStart f in
  if f_closed f then Ret (mkWAL f [] (wal_batchSize w) (wal_done w), [], true) else
  cs ← wal_loop (length (f_data f)) (f_data f) [];
  Ret (mkWAL (file_SeekEnd f) [] (wal_batchSize w) (wal_done w), cs, false).

Definition WAL_Close (w : WAL) : go (WAL * bool) :=
  if wal_done w then Panic else
  let f := if bool_decide (0 < length (wal_buf w)) then (file_Write (wal_buf w) (wal_file w)).1 else wal_file w in
  Ret (mkWAL (file_Close f) [] (wal_batchSize w) true, f_closed f).

#[global] Instance WAL_ops : PersistenceOps WAL := {
  p_Write := WAL_Write;
  p_Replay := WAL_Replay;
  p_Close := WAL_Close
}.

(** ** The binary format *)

(** Commands whose lengths fit their fields and whose name is kept by
    [strings.ToUpper] and by the test for the empty name. *)
Definition cmd_ok (c : Command) : Prop :=
  cmd_Name c ≠ [] ∧ is_upper (cmd_Name c) = true ∧ (Z.of_nat (length (cmd_Name c)) < 2 ^ 16)%Z ∧
  (Z.of_nat (length (cmd_Args c)) < 2 ^ 16)%Z ∧ Forall (λ a, Z.of_nat (length a) < 2 ^ 32)%Z (cmd_Args c).

Lemma unmarshal_args_marshal args rest :
  Forall (λ a, Z.of_nat (length a) < 2 ^ 32)%Z args →
  unmarshal_args (length args) (concat (marshal_arg <$> args) ++ rest) = Some (args, rest).
Proof.
  induction 1 as [|a args Ha _ IH]; [done|]. cbn [length unmarshal_args fmap list_fmap concat].
  assert (take 4 ((marshal_arg a ++ concat (marshal_arg <$> args)) ++ rest) = PutUint32 (Z.of_nat (length a)) ∧
          drop 4 ((marshal_arg a ++ concat (marshal_arg <$> args)) ++ rest) = a ++ concat (marshal_arg <$> args) ++ rest) as [E1 E2].
  { unfold marshal_arg at 1 3. rewrite <-!app_assoc. apply take_drop_app_split, length_PutUint32. }
  rewrite bool_decide_eq_false_2.
  2: { unfold marshal_arg at 1. rewrite !length_app, length_PutUint32. lia. }
  change (list_fmap _ _ marshal_arg args) with (marshal_arg <$> args) in *.
  rewrite E1, E2, be_get_PutUint32, Nat2Z.id by lia.
  rewrite bool_decide_eq_false_2 by (rewrite length_app; lia).
  rewrite take_app_length, drop_app_length, IH. done.
Qed.

Lemma length_marshalCommand c :
  length (marshalCommand c) = 4 + length (cmd_Name c) + length (concat (marshal_arg <$> cmd_Args c)).
Proof. unfold marshalCommand. rewrite !length_app, !length_PutUint16. lia. Qed.

Lemma unmarshal_marshal c rest :
  cmd_ok c → unmarshal_record (marshalCommand c ++ rest) = Some (c, rest).
Proof.
  intros (Hn & Hu & Hl & Ha & Hall). unfold unmarshal_record.
  rewrite bool_decide_eq_false_2 by (rewrite length_app, length_marshalCommand; lia).
  unfold marshalCommand. rewrite <-!app_assoc.
  destruct (take_drop_app_split (PutUint16 (Z.of_nat (length (cmd_Name c))))
    (cmd_Name c ++ PutUint16 (Z.of_nat (length (cmd_Args c))) ++ concat (marshal_arg <$> cmd_Args c) ++ rest) 2)
    as [-> ->]; [apply length_PutUint16|].
  rewrite be_get_PutUint16, Nat2Z.id by lia.
  rewrite bool_decide_eq_false_2 by (rewrite length_app; lia).
  rewrite take_app_length, drop_app_length.
  rewrite bool_decide_eq_false_2 by (rewrite length_app, length_PutUint16; lia).
  destruct (take_drop_app_split (PutUint16 (Z.of_nat (length (cmd_Args c))))
    (concat (marshal_arg <$> cmd_Args c) ++ rest) 2) as [-> ->]; [apply length_PutUint16|].
  rewrite be_get_PutUint16, Nat2Z.id by lia. rewrite unmarshal_args_marshal by done. simpl.
  rewrite ToUpper_is_upper by done. by destruct c.
Qed.

(** More bytes at the end change nothing but the rest. *)
Lemma unmarshal_args_app n data suf args rest :
  unmarshal_args n data = Some (args, rest) → unmarshal_args n (data ++ suf) = Some (args, rest ++ suf).
Proof.
  revert data args; induction n as [|n IH]; intros data args Hr; simpl in *; [by simplify_eq|].
  case_bool_decide as H4; [done|]. rewrite bool_decide_eq_false_2 by (rewrite length_app; lia).
  rewrite take_app_le, drop_app_le by lia.
  case_bool_decide as Hl; [done|]. rewrite bool_decide_eq_false_2 by (rewrite length_app; lia).
  rewrite take_app_le, drop_app_le by lia.
  destruct (unmarshal_args n (drop _ (drop 4 data))) as [[args' rest']|] eqn:E; simplify_eq/=.
  by rewrite (IH _ _ E).
Qed.

Lemma unmarshal_record_app data suf c rest :
  unmarshal_record data = Some (c, rest) → unmarshal_record (data ++ suf) = Some (c, rest ++ suf).
Proof.
  unfold unmarshal_record. intros Hr.
  case_bool_decide; [done|]. rewrite bool_decide_eq_false_2 by (rewrite length_app; lia).
  rewrite take_app_le, drop_app_le by lia.
  case_bool_decide; [done|]. rewrite bool_decide_eq_false_2 by (rewrite length_app; lia).
  rewrite take_app_le, drop_app_le by lia.
  case_bool_decide; [done|]. rewrite bool_decide_eq_false_2 by (rewrite length_app; lia).
  rewrite take_app_le, drop_app_le by lia.
  destruct (unmarshal_args _ _) as [[args' rest']|] eqn:E; simplify_eq/=.
  by rewrite (unmarshal_args_app _ _ _ _ _ E).
Qed.

(** A strict prefix of a record is never taken for a record. *)
Lemma unmarshal_torn c n :
  cmd_ok c → n < length (marshalCommand c) → unmarshal_record (take n (marshalCommand c)) = None.
Proof.
  intros Hc Hn. destruct (unmarshal_record (take n (marshalCommand c))) as [[c' rest]|] eqn:E; [|done].
  apply (unmarshal_record_app _ (drop n (marshalCommand c))) in E. rewrite take_drop in E.
  pose proof (unmarshal_marshal c [] Hc) as E'. rewrite app_nil_r in E'. rewrite E' in E. injection E as _ E.
  symmetry in E. apply app_eq_nil in E as [_ E]. apply (f_equal length) in E. rewrite length_drop in E. cbn [length] in E. lia.
Qed.

Lemma unmarshal_args_length n data args rest :
  unmarshal_args n data = Some (args, rest) → length rest ≤ length data.
Proof.
  revert data args; induction n as [|n IH]; intros data args Hr; simpl in *; [by simplify_eq|].
  do 2 (case_bool_decide; [done|]). destruct (unmarshal_args n _) as [[args' rest']|] eqn:E; simplify_eq/=.
  apply IH in E. rewrite !length_drop in E. lia.
Qed.

Lemma unmarshal_record_length data c rest :
  unmarshal_record data = Some (c, rest) → length rest < length data.
Proof.
  unfold unmarshal_record. intros Hr. do 3 (case_bool_decide; [done|]).
  destruct (unmarshal_args _ _) as [[args' rest']|] eqn:E; simplify_eq/=.
  apply unmarshal_args_length in E. rewrite !length_drop in E. lia.
Qed.

(** The fuel [WAL_Replay] supplies, one unit per byte, is enough: when it
    runs out the Go loop does not end either. *)
Lemma wal_loop_fuel fuel data acc :
  length data ≤ fuel → wal_loop fuel data acc = NoFuel → ∀ f, wal_loop f data acc = NoFuel.
Proof.
  revert data acc; induction fuel as [|n IH]; intros data acc Hl Hn f;
    (destruct data as [|b data]; [done|]); [simpl in Hl; lia|].
  cbn [wal_loop] in Hn. unfold unmarshalCommand in Hn.
  destruct (unmarshal_record (b :: data)) as [[c rest]|] eqn:E; simpl in Hn.
  - pose proof (unmarshal_record_length _ _ _ E). destruct f as [|f]; [done|]. cbn [wal_loop].
    unfold unmarshalCommand. rewrite E. simpl. apply IH; [lia|done].
  - clear IH Hn. revert acc; induction f as [|f IHf]; intros acc; [done|]. cbn [wal_loop].
    unfold unmarshalCommand. rewrite E. simpl. apply IHf.
Qed.

Definition wal_bytes (cs : list Command) : list byte := concat (marshalCommand <$> cs).

Lemma wal_bytes_snoc cs c : wal_bytes (cs ++ [c]) = wal_bytes cs ++ marshalCommand c.
Proof. unfold wal_bytes. rewrite fmap_app, concat_app. simpl. by rewrite app_nil_r. Qed.

Lemma wal_bytes_app cs1 cs2 : wal_bytes (cs1 ++ cs2) = wal_bytes cs1 ++ wal_bytes cs2.
Proof. unfold wal_bytes. by rewrite fmap_app, concat_app. Qed.

Lemma wal_loop_step fuel c rest acc :
  cmd_ok c → wal_loop (S fuel) (marshalCommand c ++ rest) acc = wal_loop fuel rest (acc ++ [c]).
Proof.
  intros Hc. cbn [wal_loop]. destruct (marshalCommand c ++ rest) eqn:E.
  - apply (f_equal length) in E. rewrite length_app, length_marshalCommand in E. simpl in E. lia.
  - rewrite <-E. unfold unmarshalCommand. rewrite unmarshal_marshal by done. simpl.
    rewrite bool_decide_eq_false_2; [done|apply Hc].
Qed.

Lemma wal_loop_log fuel cs rest acc :
  Forall cmd_ok cs → length cs ≤ fuel →
  wal_loop fuel (wal_bytes cs ++ rest) acc = wal_loop (fuel - length cs) rest (acc ++ cs).
Proof.
  intros Hcs. revert fuel acc; induction Hcs as [|c cs Hc Hcs IH]; intros fuel acc Hf.
  - simpl. by rewrite Nat.sub_0_r, app_nil_r.
  - destruct fuel as [|f]; [simpl in Hf; lia|]. change (wal_bytes (c :: cs)) with (marshalCommand c ++ wal_bytes cs).
    rewrite <-app_assoc, wal_loop_step by done. rewrite IH by (simpl in Hf; lia). by rewrite <-app_assoc.
Qed.

Lemma wal_bytes_length cs : length cs ≤ length (wal_bytes cs).
Proof.
  induction cs as [|c cs IH]; [done|]. change (wal_bytes (c :: cs)) with (marshalCommand c ++ wal_bytes cs).
  rewrite length_app, length_marshalCommand. simpl. lia.
Qed.

(** A first part of the records' bytes is whole records, followed at most by a
    strict part of the next one. *)
Lemma wal_bytes_cut cs i :
  ∃ whole rest, cs = whole ++ rest ∧
    (take i (wal_bytes cs) = wal_bytes whole ∨
     ∃ c rest' n, rest = c :: rest' ∧ 0 < n < length (marshalCommand c) ∧
       take i (wal_bytes cs) = wal_bytes whole ++ take n (marshalCommand c)).
Proof.
  revert i; induction cs as [|c cs IH]; intros i; [exists [], []; split; [done|left; by destruct i]|].
  change (wal_bytes (c :: cs)) with (marshalCommand c ++ wal_bytes cs). rewrite take_app.
  destruct (decide (i = 0)) as [->|Hi]; [by exists [], (c :: cs); split; [done|left]|].
  destruct (decide (i < length (marshalCommand c))) as [Hlt|Hge].
  - exists [], (c :: cs). split; [done|]. right. exists c, cs, i. split_and!; [done|lia|done|].
    replace (i - length (marshalCommand c)) with 0 by lia. simpl. by rewrite take_0, app_nil_r.
  - rewrite take_ge by lia. destruct (IH (i - length (marshalCommand c))) as (whole & rest & -> & Hr0).
    exists (c :: whole), rest. split; [done|]. change (wal_bytes (c :: whole)) with (marshalCommand c ++ wal_bytes whole).
    destruct Hr0 as [->|(d & rest' & n & Hr & Hn & ->)]; [by left|]. right. exists d, rest', n. by rewrite <-app_assoc.
Qed.

(** ** The log *)
Definition wal_log (cs : list Command) (w : WAL) : Prop :=
  f_data (wal_file w) ++ wal_buf w = wal_bytes cs ∧ f_pos (wal_file w) = length (f_data (wal_file w)) ∧
  f_room (wal_file w) = None ∧ f_closed (wal_file w) = false ∧ wal_done w = false.

Lemma Flush_log cs w : wal_log cs w → (Flush w).2 = false ∧ wal_log cs (Flush w).1 ∧ wal_buf (Flush w).1 = [].
Proof.
  intros Hl. pose proof Hl as (Hd & Hp & Hr & Hc & Ho). unfold Flush. case_bool_decide as Hb.
  - split_and!; [done|done|]. by apply nil_length_inv.
  - rewrite file_Write_end by done. simpl. split_and!; [done| |done].
    unfold wal_log; simpl. by rewrite app_nil_r.
Qed.

Lemma WAL_Write_log cs c w : wal_log cs w → ∃ w', WAL_Write c w = Ret (w', false) ∧ wal_log (cs ++ [c]) w'.
Proof.
  intros (Hd & Hp & Hr & Hc & Ho). unfold WAL_Write. simpl.
  set (w1 := mkWAL _ _ _ _). assert (wal_log (cs ++ [c]) w1) as Hl.
  { split_and!; try done. simpl. by rewrite app_assoc, Hd, wal_bytes_snoc. }
  case_bool_decide; [|by eexists]. destruct (Flush_log _ _ Hl) as (E & Hl' & _).
  exists (Flush w1).1. split; [|done]. destruct (Flush w1); simpl in *. by subst.
Qed.

Lemma WAL_Replay_new d :
  WAL_Replay (NewWAL d None) =
    cs ← wal_loop (length d) d []; Ret (mkWAL (file_SeekEnd (file_Open d None)) [] 1000 false, cs, false).
Proof. done. Qed.

Lemma WAL_Replay_log cs f n d :
  Forall cmd_ok cs → f_data f = wal_bytes cs → f_closed f = false →
  WAL_Replay (mkWAL f [] n d) = Ret (mkWAL (file_SeekEnd (file_SeekStart f)) [] n d, cs, false).
Proof.
  intros Hcs Hd Hc. unfold WAL_Replay; simpl. rewrite Hc, Hd. pose proof (wal_bytes_length cs) as Hlen.
  pose proof (wal_loop_log (length (wal_bytes cs)) cs [] [] Hcs Hlen) as E. rewrite app_nil_r in E. rewrite E.
  by destruct (_ - _).
Qed.
End wal.

#[global] Program Instance WAL_laws `{!UnicodeUpper} : PersistenceLaws WAL := {
  p_log := wal_log;
  p_admits := Forall cmd_ok;
  p_reopen := λ w, NewWAL (f_data (wal_file w)) None
}.
Next Obligation. intros. by apply WAL_Write_log. Qed.
Next Obligation.
  intros ? cs w (Hd & Hp & Hr & Hc & Ho) Ha. simpl in *. unfold WAL_Close. rewrite Ho.
  case_bool_decide as Hb.
  - rewrite file_Write_end by done. simpl. eexists _, _. split; [done|]. unfold NewWAL. simpl.
    rewrite (WAL_Replay_log cs) by done. split; [done|]. unfold wal_log; simpl. by rewrite app_nil_r.
  - destruct (wal_buf w); [|simpl in Hb; lia]. rewrite app_nil_r in Hd. rewrite Hc.
    eexists _, _. split; [done|]. unfold NewWAL. simpl.
    rewrite (WAL_Replay_log cs) by done. split; [done|]. unfold wal_log; simpl. by rewrite app_nil_r.
Qed.

(** ** Theorems *)

(** A trace of the log: [Some c] writes, [None] is a tick of the flush loop. *)
Definition wal_step (o : option Command) (w : WAL) : go WAL :=
  match o with Some c => fst <$> WAL_Write c w | None => Ret (Flush w).1 end.

Section theorems.
Context `{!UnicodeUpper}.

Lemma wal_trace_log os cs w :
  wal_log cs w → ∃ w', go_foldl wal_step os w = Ret w' ∧ wal_log (cs ++ omap id os) w'.
Proof.
  revert cs w; induction os as [|[c|] os IH]; intros cs w Hl; simpl.
  - exists w. by rewrite app_nil_r.
  - destruct (WAL_Write_log cs c w Hl) as (w' & -> & Hl'). simpl.
    destruct (IH _ _ Hl') as (w'' & E & Hl''). exists w''. by rewrite <-app_assoc in Hl''.
  - apply IH, Flush_log, Hl.
Qed.

(** Round trip of the binary format: a command is decoded from its
    encoding and the decoder stops exactly at its end, whatever follows, for
    names below 64 KiB, fewer than 65536 arguments and arguments below 4 GiB. *)
Theorem wal_record_roundtrip (c : Command) (rest : list byte) :
  cmd_ok c → unmarshalCommand (marshalCommand c ++ rest) = (c, rest).
Proof. intros Hc. unfold unmarshalCommand. by rewrite unmarshal_marshal. Qed.

(** C15: Durability of the write-ahead log: whatever the batching and however
    the background flushes fall between the writes, closing a log that was new
    and reopening the file replays exactly the written commands, in order, if
    their names are upper case, not empty and below 64 KiB, and they have
    fewer than 65536 arguments, each below 4 GiB. *)
Theorem wal_roundtrip (os : list (option Command)) :
  Forall cmd_ok (omap id os) →
  ∃ w w' w'', go_foldl wal_step os (NewWAL [] None) = Ret w ∧ WAL_Close w = Ret (w', false) ∧
    WAL_Replay (NewWAL (f_data (wal_file w')) None) = Ret (w'', omap id os, false).
Proof.
  intros Hcs. destruct (wal_trace_log os [] (NewWAL [] None)) as (w & E & Hl); [done|].
  destruct (law_restart (omap id os) w) as (w1 & w2 & E1 & E2 & _); [exact Hl|exact Hcs|]. by exists w, w1, w2.
Qed.

(** A torn last record (a crash in the middle of a write) makes [Replay]
    loop for ever with the lock held: no number of iterations ends it. *)
Theorem wal_torn_record_loops (cs : list Command) (c : Command) (n : nat) :
  Forall cmd_ok cs → cmd_ok c → 0 < n < length (marshalCommand c) →
  ∀ fuel, wal_loop fuel (wal_bytes cs ++ take n (marshalCommand c)) [] = NoFuel.
Proof.
  intros Hcs Hc Hn. eapply wal_loop_fuel; [done|].
  assert (length cs ≤ length (wal_bytes cs ++ take n (marshalCommand c))) as Hf.
  { rewrite length_app. pose proof (wal_bytes_length cs). lia. }
  revert Hf. generalize (length (wal_bytes cs ++ take n (marshalCommand c))) as fuel. intros fuel Hf. rewrite wal_loop_log by done. simpl. generalize (fuel - length cs) as f.
  assert (take n (marshalCommand c) ≠ []) as Hne.
  { intros E. apply (f_equal length) in E. rewrite length_take in E. cbn [length] in E. lia. }
  generalize cs as acc. intros acc f. revert acc. induction f as [|f IH]; intros acc; simpl.
  - by destruct (take n (marshalCommand c)).
  - destruct (take n (marshalCommand c)) eqn:E; [done|]. rewrite <-E. unfold unmarshalCommand.
    rewrite unmarshal_torn by (done || lia). simpl. rewrite E. apply IH.
Qed.

(** The number of arguments is written as 16 bits: a command with 65536
    arguments is decoded without any, and what follows is read as records. *)
Theorem wal_arg_count_wraps (c : Command) (rest : list byte) :
  (Z.of_nat (length (cmd_Name c)) < 2 ^ 16)%Z → is_upper (cmd_Name c) = true → Z.of_nat (length (cmd_Args c)) = (2 ^ 16)%Z →
  unmarshalCommand (marshalCommand c ++ rest) = (mkCommand (cmd_Name c) [], concat (marshal_arg <$> cmd_Args c) ++ rest).
Proof.
  intros Hl Hu Hn. unfold unmarshalCommand, unmarshal_record.
  rewrite bool_decide_eq_false_2 by (rewrite length_app, length_marshalCommand; lia).
  unfold marshalCommand. rewrite <-!app_assoc, Hn.
  destruct (take_drop_app_split (PutUint16 (Z.of_nat (length (cmd_Name c))))
    (cmd_Name c ++ PutUint16 (2 ^ 16) ++ concat (marshal_arg <$> cmd_Args c) ++ rest) 2) as [-> ->]; [apply length_PutUint16|].
  rewrite be_get_PutUint16, Nat2Z.id by lia. rewrite bool_decide_eq_false_2 by (rewrite length_app; lia).
  rewrite take_app_length, drop_app_length. change (PutUint16 (2 ^ 16)) with (PutUint16 0).
  rewrite bool_decide_eq_false_2 by (rewrite length_app, length_PutUint16; lia).
  destruct (take_drop_app_split (PutUint16 0) (concat (marshal_arg <$> cmd_Args c) ++ rest) 2) as [-> ->]; [apply length_PutUint16|].
  rewrite be_get_PutUint16 by lia. simpl. by rewrite ToUpper_is_upper.
Qed.

(** A flush that fails loses what it could not write: the buffer is
    emptied although the file did not take it. *)
Theorem wal_flush_error_drops (w : WAL) (room : nat) :
  f_closed (wal_file w) = false → f_room (wal_file w) = Some room → room < length (wal_buf w) →
  f_pos (wal_file w) = length (f_data (wal_file w)) →
  (Flush w).2 = true ∧ wal_buf (Flush w).1 = [] ∧
  f_data (wal_file (Flush w).1) = f_data (wal_file w) ++ take room (wal_buf w).
Proof.
  intros Hc Hr Hlt Hp. unfold Flush. rewrite bool_decide_eq_false_2 by lia. unfold file_Write. rewrite Hc, Hr.
  rewrite Nat.min_l by lia. simpl. split_and!; [|done|].
  - by apply bool_decide_eq_true_2.
  - by rewrite Hp, write_at_end.
Qed.
End theorems.

(** ** Witnesses *)
#[local] Instance upper_id : UnicodeUpper := λ s, s.

Definition wal_cmd : Command := mkCommand (str "SET") [str "k"; CR :: str "v"].

Lemma wal_cmd_ok : cmd_ok wal_cmd.
Proof. split_and!; [discriminate|reflexivity|simpl; lia|simpl; lia|repeat constructor; simpl; lia]. Qed.

Lemma wal_record_roundtrip_witness :
  unmarshalCommand (marshalCommand wal_cmd ++ str "more") = (wal_cmd, str "more").
Proof. apply wal_record_roundtrip. apply wal_cmd_ok. Defined.

Lemma wal_roundtrip_witness :
  ∃ w w' w'', go_foldl wal_step [Some wal_cmd; None; Some wal_cmd] (NewWAL [] None) = Ret w ∧
    WAL_Close w = Ret (w', false) ∧
    WAL_Replay (NewWAL (f_data (wal_file w')) None) = Ret (w'', [wal_cmd; wal_cmd], false).
Proof.
  apply (wal_roundtrip [Some wal_cmd; None; Some wal_cmd]).
  repeat (apply Forall_cons_2; [apply wal_cmd_ok|]). apply Forall_nil_2.
Defined.

Lemma wal_torn_record_loops_witness :
  wal_loop 1000 (wal_bytes [wal_cmd] ++ take 9 (marshalCommand wal_cmd)) [] = NoFuel.
Proof.
  apply (wal_torn_record_loops [wal_cmd] wal_cmd 9).
  - apply Forall_cons_2; [apply wal_cmd_ok|apply Forall_nil_2].
  - apply wal_cmd_ok.
  - vm_compute. lia.
Defined.

Lemma wal_flush_error_drops_witness :
  let w := mkWAL (mkFile [] 0 (Some 2) false) (str "abc") 1000 false in
  (Flush w).2 = true ∧ wal_buf (Flush w).1 = [] ∧ f_data (wal_file (Flush w).1) = str "ab".
Proof. intros w. apply (wal_flush_error_drops w 2); [reflexivity..|simpl; lia|reflexivity]. Defined.

Lemma wal_arg_count_wraps_witness :
  let c := mkCommand (str "SET") (replicate (Z.to_nat 65536) []) in
  unmarshalCommand (marshalCommand c ++ []) = (mkCommand (str "SET") [], concat (marshal_arg <$> cmd_Args c) ++ []).
Proof.
  intros c. apply (wal_arg_count_wraps c []); [reflexivity|reflexivity|].
  cbn [cmd_Args c]. rewrite length_replicate, Z2Nat.id; [reflexivity|discriminate].
Defined.
