(* ===== verification/RDB.v ===== *)
(** * RDB: periodic snapshots, src/persistence/rdb.go

    The in-memory maps the writes build up, and the snapshot file they are
    written to.  Go iterates over a map in any order: the writer takes the
    order of the string keys, of the hash keys and of the fields as inputs.
    [Snapshot] here writes the whole file; RDBFile makes the calls one by one. *)

From stdpp Require Import base list gmap strings.
From Stdlib Require Import ZArith Lia Ascii.
From S2P Require Import Prelude GoLib StoreSpec GoIO Persist.

Record RDB := mkRDB {
  rdb_disk : option (list byte);                             (* the file at [path], if it exists *)
  rdb_strings : gmap gostring gostring;
  rdb_hashes : gmap gostring (gmap gostring gostring);
  rdb_done : bool
}.

Definition rdbMagic : gostring := str "FLXCRDB".
Definition rdbVersion : Z := 1.

(** [NewRDB] does not look at the file. *)
Definition NewRDB (disk : option (list byte)) : RDB := mkRDB disk ∅ ∅ false.

Definition RDB_Write (c : Command) (r : RDB) : go (RDB * bool) :=
  Ret (if bool_decide (cmd_Name c = str "SET") then
         match cmd_Args c with
         | k :: v :: _ => mkRDB (rdb_disk r) (<[k := v]> (rdb_strings r)) (rdb_hashes r) (rdb_done r)
         | _ => r
         end
       else if bool_decide (cmd_Name c = str "HSET") then
         match cmd_Args c with
         | h :: k :: v :: _ => mkRDB (rdb_disk r) (rdb_strings r) (hash_put h k v (rdb_hashes r)) (rdb_done r)
         | _ => r
         end
       else r, false).

Definition writeString (s : gostring) : list byte := PutUint32 (Z.of_nat (length s)) ++ s.

Definition write_pair (m : gmap gostring gostring) (k : gostring) : list byte :=
  writeString k ++ writeString (default [] (m !! k)).

Definition write_hash (order : gset gostring → list gostring) (hs : gmap gostring (gmap gostring gostring))
    (hk : gostring) : list byte :=
  let fields := default ∅ (hs !! hk) in
  writeString hk ++ PutUint32 (Z.of_nat (size fields)) ++ concat (write_pair fields <$> order (dom fields)).

(** [writeSnapshot]: the bytes of the new file ([os.Create] truncates). *)
Definition snapshot_bytes (order : gset gostring → list gostring) (strings : gmap gostring gostring)
    (hashes : gmap gostring (gmap gostring gostring)) : list byte :=
  rdbMagic ++ PutUint32 rdbVersion ++
  PutUint32 (Z.of_nat (size strings)) ++ concat (write_pair strings <$> order (dom strings)) ++
  PutUint32 (Z.of_nat (size hashes)) ++ concat (write_hash order hashes <$> order (dom hashes)).

Definition Snapshot (order : gset gostring → list gostring) (r : RDB) : RDB :=
  mkRDB (Some (snapshot_bytes order (rdb_strings r) (rdb_hashes r))) (rdb_strings r) (rdb_hashes r) (rdb_done r).

(** [f.Read(buf)] with [len(buf) = n > 0], on the bytes from the offset on:
    [None] is an error (end of file); a short read leaves zeros in [buf]. *)
Definition read_buf (n : nat) (data : list byte) : option (list byte * list byte) :=
  match data with
  | [] => None
  | _ => Some (take n data ++ replicate (n - length data) NUL, drop n data)
  end.

Definition readString (data : list byte) : gostring * list byte :=
  match read_buf 4 data with
  | None => ([], data)
  | Some (lenBuf, data) =>
      let strLen := Z.to_nat (be_get lenBuf) in
      if bool_decide (strLen = 0) then ([], data) else
      match read_buf strLen data with
      | None => ([], data)
      | Some (buf, data) => (buf, data)
      end
  end.

Fixpoint read_strings (strCount : nat) (data : list byte) : list Command * list byte :=
  match strCount with
  | O => ([], data)
  | S n =>
      let '(k, data) := readString data in
      let '(v, data) := readString data in
      let '(cs, data) := read_strings n data in
      (if bool_decide (k = []) && bool_decide (v = []) then cs else mkCommand (str "SET") [k; v] :: cs, data)
  end.

Fixpoint read_fields (hk : gostring) (fieldCount : nat) (data : list byte) : list Command * list byte :=
  match fieldCount with
  | O => ([], data)
  | S n =>
      let '(fk, data) := readString data in
      let '(fv, data) := readString data in
      let '(cs, data) := read_fields hk n data in
      (mkCommand (str "HSET") [hk; fk; fv] :: cs, data)
  end.

(** The flag says whether the loop stopped on a read error. *)
Fixpoint read_hashes (hashCount : nat) (data : list byte) : list Command * bool :=
  match hashCount with
  | O => ([], false)
  | S n =>
      let '(hk, data) := readString data in
      match read_buf 4 data with
      | None => ([], true)
      | Some (fieldCountBuf, data) =>
          let '(cs1, data) := read_fields hk (Z.to_nat (be_get fieldCountBuf)) data in
          let '(cs2, err) := read_hashes n data in
          (cs1 ++ cs2, err)
      end
  end.

(** [Replay] of the bytes of the file: neither magic nor version is checked. *)
Definition replay_bytes (data : list byte) : list Command * bool :=
  match data with
  | [] => ([], false)
  | _ =>
      match read_buf (length rdbMagic) data with
      | None => ([], true)
      | Some (_, data) =>
          match read_buf 4 data with
          | None => ([], true)
          | Some (_, data) =>
              match read_buf 4 data with
              | None => ([], true)
              | Some (strCountBuf, data) =>
                  let '(cs1, data) := read_strings (Z.to_nat (be_get strCountBuf)) data in
                  match read_buf 4 data with
                  | None => (cs1, true)
                  | Some (hashCountBuf, data) =>
                      let '(cs2, err) := read_hashes (Z.to_nat (be_get hashCountBuf)) data in
                      (cs1 ++ cs2, err)
                  end
              end
          end
      end
  end.

Definition RDB_Replay (r : RDB) : go (RDB * list Command * bool) :=
  match rdb_disk r with
  | None => Ret (r, [], false)
  | Some data => let '(cs, err) := replay_bytes data in Ret (r, cs, err)
  end.

(** [Close] closes the channel; the snapshot goroutine then takes a last
    [Snapshot], after [Close] has returned. *)
Definition RDB_Close (r : RDB) : go (RDB * bool) :=
  if rdb_done r then Panic else Ret (mkRDB (rdb_disk r) (rdb_strings r) (rdb_hashes r) true, false).

#[global] Instance RDB_ops : PersistenceOps RDB := {
  p_Write := RDB_Write;
  p_Replay := RDB_Replay;
  p_Close := RDB_Close
}.

(** ** Lemmas *)
Definition short (s : gostring) : Prop := (Z.of_nat (length s) < 2 ^ 32)%Z.

Lemma read_buf_app n p rest :
  length p = n → n ≠ 0 → read_buf n (p ++ rest) = Some (p, rest).
Proof.
  intros <- Hn. unfold read_buf. destruct (p ++ rest) eqn:E.
  - apply app_eq_nil in E as [-> _]. done.
  - rewrite <-E, take_app_length, drop_app_length.
    replace (length p - length (p ++ rest)) with 0 by (rewrite length_app; lia). simpl. by rewrite app_nil_r.
Qed.

Lemma readString_writeString s rest : short s → readString (writeString s ++ rest) = (s, rest).
Proof.
  intros Hs. unfold readString, writeString. rewrite <-app_assoc.
  rewrite read_buf_app by (rewrite ?length_PutUint32; done).
  unfold short in Hs. rewrite be_get_PutUint32, Nat2Z.id by lia.
  case_bool_decide as H0; [apply nil_length_inv in H0 as ->; done|]. by rewrite read_buf_app.
Qed.

Definition short_map (m : gmap gostring gostring) : Prop := map_Forall (λ k v, short k ∧ short v) m.

(** The commands a list of keys of the string map is read back as. *)
Definition set_commands (m : gmap gostring gostring) (ks : list gostring) : list Command :=
  omap (λ k, let v := default [] (m !! k) in
             if bool_decide (k = []) && bool_decide (v = []) then None else Some (mkCommand (str "SET") [k; v])) ks.

Lemma read_strings_written m ks rest :
  short_map m → Forall (λ k, is_Some (m !! k)) ks →
  read_strings (length ks) (concat (write_pair m <$> ks) ++ rest) = (set_commands m ks, rest).
Proof.
  intros Hm. induction 1 as [|k ks [v Hk] _ IH]; [done|].
  change (concat (write_pair m <$> (k :: ks))) with (write_pair m k ++ concat (write_pair m <$> ks)).
  cbn [length read_strings]. unfold write_pair at 1. rewrite Hk. simpl default. rewrite <-!app_assoc.
  destruct (Hm k v Hk) as [Hsk Hsv].
  rewrite readString_writeString by done. rewrite readString_writeString by done. rewrite IH.
  unfold set_commands at 2. simpl. rewrite Hk. simpl. by destruct (_ && _).
Qed.

Lemma read_fields_written hk m ks rest :
  short_map m → Forall (λ k, is_Some (m !! k)) ks →
  read_fields hk (length ks) (concat (write_pair m <$> ks) ++ rest) =
    ((λ k, mkCommand (str "HSET") [hk; k; default [] (m !! k)]) <$> ks, rest).
Proof.
  intros Hm. induction 1 as [|k ks [v Hk] _ IH]; [done|].
  change (concat (write_pair m <$> (k :: ks))) with (write_pair m k ++ concat (write_pair m <$> ks)).
  cbn [length read_fields]. unfold write_pair at 1. rewrite Hk. simpl default. rewrite <-!app_assoc.
  destruct (Hm k v Hk) as [Hsk Hsv].
  rewrite readString_writeString by done. rewrite readString_writeString by done. rewrite IH.
  rewrite fmap_cons, Hk. done.
Qed.

(** What the snapshot needs of the maps: sizes fit 32 bits, no hash is empty. *)
Definition snap_ok (strings : gmap gostring gostring) (hashes : gmap gostring (gmap gostring gostring)) : Prop :=
  short_map strings ∧ (Z.of_nat (size strings) < 2 ^ 32)%Z ∧ (Z.of_nat (size hashes) < 2 ^ 32)%Z ∧
  map_Forall (λ hk m, short hk ∧ short_map m ∧ (Z.of_nat (size m) < 2 ^ 32)%Z ∧ m ≠ ∅) hashes.

Section order.
Context (order : gset gostring → list gostring).
Context (order_ok : ∀ X, order X ≡ₚ elements X).

Lemma order_length {A} (m : gmap gostring A) : length (order (dom m)) = size m.
Proof. rewrite order_ok. by rewrite <-size_dom. Qed.

Lemma order_elem {A} (m : gmap gostring A) k : k ∈ order (dom m) ↔ is_Some (m !! k).
Proof. by rewrite order_ok, elem_of_elements, elem_of_dom. Qed.

Lemma order_lookups {A} (m : gmap gostring A) : Forall (λ k, is_Some (m !! k)) (order (dom m)).
Proof. apply Forall_forall. intros k. apply order_elem. Qed.

Definition hset_commands (hashes : gmap gostring (gmap gostring gostring)) (hk : gostring) : list Command :=
  let m := default ∅ (hashes !! hk) in
  (λ k, mkCommand (str "HSET") [hk; k; default [] (m !! k)]) <$> order (dom m).

Lemma hset_commands_Some hashes hk m :
  hashes !! hk = Some m →
  hset_commands hashes hk = (λ k, mkCommand (str "HSET") [hk; k; default [] (m !! k)]) <$> order (dom m).
Proof. intros Hk. unfold hset_commands. by rewrite Hk. Qed.

Lemma read_hashes_written strings hashes hks :
  snap_ok strings hashes → Forall (λ k, is_Some (hashes !! k)) hks →
  read_hashes (length hks) (concat (write_hash order hashes <$> hks)) =
    (concat (hset_commands hashes <$> hks), false).
Proof.
  intros (_ & _ & _ & Hh). induction 1 as [|hk hks [m Hk] _ IH]; [done|].
  change (concat (write_hash order hashes <$> (hk :: hks))) with
    (write_hash order hashes hk ++ concat (write_hash order hashes <$> hks)).
  change (concat (hset_commands hashes <$> (hk :: hks))) with
    (hset_commands hashes hk ++ concat (hset_commands hashes <$> hks)).
  destruct (Hh hk m Hk) as (Hs & Hm & Hz & _).
  cbn [length read_hashes]. unfold write_hash at 1. rewrite Hk. simpl default. rewrite <-!app_assoc.
  rewrite readString_writeString by done. rewrite read_buf_app by (rewrite ?length_PutUint32; done).
  rewrite be_get_PutUint32, Nat2Z.id by lia. rewrite <-(order_length m).
  rewrite read_fields_written by (done || apply order_lookups). rewrite IH.
  by rewrite (hset_commands_Some _ _ _ Hk).
Qed.

Lemma replay_written strings hashes :
  snap_ok strings hashes →
  replay_bytes (snapshot_bytes order strings hashes) =
    (set_commands strings (order (dom strings)) ++ concat (hset_commands hashes <$> order (dom hashes)), false).
Proof.
  intros Hok. pose proof Hok as (Hs & Hn & Hm & _). unfold snapshot_bytes, replay_bytes.
  rewrite read_buf_app by done.
  rewrite read_buf_app by (rewrite ?length_PutUint32; done).
  rewrite read_buf_app by (rewrite ?length_PutUint32; done).
  rewrite be_get_PutUint32, Nat2Z.id by lia. rewrite <-(order_length strings).
  rewrite read_strings_written by (done || apply order_lookups).
  rewrite read_buf_app by (rewrite ?length_PutUint32; done).
  rewrite be_get_PutUint32, Nat2Z.id by lia. rewrite <-(order_length hashes).
  by rewrite (read_hashes_written strings) by (done || apply order_lookups).
Qed.

(** Inserting the entries of [m] at the listed keys. *)
Lemma foldl_insert_lookup {A} (f : gostring → A) (ks : list gostring) (m0 : gmap gostring A) k :
  foldl (λ acc k, <[k := f k]> acc) m0 ks !! k = if decide (k ∈ ks) then Some (f k) else m0 !! k.
Proof.
  revert m0; induction ks as [|k' ks IH]; intros m0; [by rewrite decide_False by apply not_elem_of_nil|].
  simpl. rewrite IH. destruct (decide (k ∈ ks)); [by rewrite decide_True by by right|].
  destruct (decide (k = k')) as [->|Hk].
  - rewrite decide_True by by left. by rewrite lookup_insert_eq.
  - rewrite decide_False; [by rewrite lookup_insert_ne|]. by intros [->|?]%elem_of_cons.
Qed.

Lemma foldl_insert_order {A} (d : A) (m : gmap gostring A) :
  foldl (λ acc k, <[k := default d (m !! k)]> acc) ∅ (order (dom m)) = m.
Proof.
  apply map_eq; intros k. rewrite foldl_insert_lookup. case_decide as Hk.
  - apply order_elem in Hk as [v Hv]. by rewrite Hv.
  - rewrite lookup_empty. symmetry. apply eq_None_not_Some. by rewrite <-order_elem.
Qed.

Lemma apply_set_commands m ks a :
  m !! [] ≠ Some [] → Forall (λ k, is_Some (m !! k)) ks →
  apply_commands (set_commands m ks) a =
    mkKV (foldl (λ acc k, <[k := default [] (m !! k)]> acc) (kv_strings a) ks) (kv_hashes a).
Proof.
  intros Hne Hks. revert a; induction Hks as [|k ks [v Hk] Hks IH]; intros a; [by destruct a|].
  unfold set_commands. cbn [omap list_omap foldl]. rewrite Hk. cbn [default from_option id].
  replace (bool_decide (k = []) && bool_decide (v = [])) with false.
  - exact (IH (kv_set k v a)).
  - symmetry. apply andb_false_iff. destruct (decide (k = [])) as [->|]; [|left; by apply bool_decide_eq_false_2].
    right. apply bool_decide_eq_false_2. intros ->. done.
Qed.

Lemma apply_fields (hk : gostring) (m : gmap gostring gostring) (ks : list gostring) (a : kv) :
  apply_commands ((λ k, mkCommand (str "HSET") [hk; k; default [] (m !! k)]) <$> ks) a =
    match ks with
    | [] => a
    | _ => mkKV (kv_strings a)
             (<[hk := foldl (λ acc k, <[k := default [] (m !! k)]> acc) (default ∅ (kv_hashes a !! hk)) ks]> (kv_hashes a))
    end.
Proof.
  revert a; induction ks as [|k ks IH]; intros a; [done|]. rewrite fmap_cons.
  change (apply_commands (?c :: ?cs) a) with (apply_commands cs (apply_command c a)). rewrite IH.
  destruct ks as [|k' ks]; [done|]. simpl. rewrite lookup_insert_eq, insert_insert_eq. done.
Qed.

Lemma apply_hset_commands hashes hks a :
  map_Forall (λ _ m, m ≠ ∅) hashes → Forall (λ k, is_Some (hashes !! k)) hks → NoDup hks →
  (∀ hk, hk ∈ hks → kv_hashes a !! hk = None) →
  apply_commands (concat (hset_commands hashes <$> hks)) a =
    mkKV (kv_strings a) (foldl (λ acc k, <[k := default ∅ (hashes !! k)]> acc) (kv_hashes a) hks).
Proof.
  intros Hne Hks. revert a; induction Hks as [|hk hks [m Hk] _ IH]; intros a Hnd Ha; [by destruct a|].
  apply NoDup_cons in Hnd as [Hnin Hnd].
  change (concat (hset_commands hashes <$> (hk :: hks))) with
    (hset_commands hashes hk ++ concat (hset_commands hashes <$> hks)).
  rewrite apply_commands_app. rewrite (hset_commands_Some _ _ _ Hk), apply_fields.
  destruct (order (dom m)) as [|k ks] eqn:Eo.
  { exfalso. apply (Hne hk m Hk). apply map_empty. intros k. apply eq_None_not_Some.
    rewrite <-order_elem, Eo. apply not_elem_of_nil. }
  rewrite <-Eo. rewrite (Ha hk) by by left. simpl default. rewrite foldl_insert_order.
  rewrite IH; [|done|].
  - simpl. by rewrite Hk.
  - intros hk' Hin. simpl. rewrite lookup_insert_ne by (intros ->; done). apply Ha. by right.
Qed.

Lemma snapshot_apply strings hashes :
  snap_ok strings hashes → strings !! [] ≠ Some [] →
  apply_commands (replay_bytes (snapshot_bytes order strings hashes)).1 kv_empty = mkKV strings hashes.
Proof.
  intros Hok Hne. rewrite replay_written by done. simpl. rewrite apply_commands_app.
  rewrite apply_set_commands by (done || apply order_lookups). simpl.
  rewrite apply_hset_commands.
  - simpl. by rewrite !foldl_insert_order.
  - destruct Hok as (_ & _ & _ & Hh). intros hk m Hk. apply (Hh hk m Hk).
  - apply order_lookups.
  - rewrite order_ok. apply NoDup_elements.
  - intros. apply lookup_empty.
Qed.

(** The maps after a sequence of writes. *)
Definition rdb_kv (r : RDB) : kv := mkKV (rdb_strings r) (rdb_hashes r).

Lemma RDB_Write_kv c r : ∃ r', RDB_Write c r = Ret (r', false) ∧ rdb_kv r' = apply_command c (rdb_kv r) ∧
  rdb_disk r' = rdb_disk r.
Proof.
  unfold RDB_Write, apply_command. eexists. split; [done|]. split.
  - repeat case_match; try done. unfold rdb_kv, kv_hset; simpl. by rewrite hash_put_spec.
  - by repeat case_match.
Qed.

Lemma RDB_writes_kv cs r :
  ∃ r', go_foldl (λ c r, fst <$> RDB_Write c r) cs r = Ret r' ∧ rdb_kv r' = apply_commands cs (rdb_kv r).
Proof.
  revert r; induction cs as [|c cs IH]; intros r; [by exists r|]. cbn [go_foldl].
  destruct (RDB_Write_kv c r) as (r1 & -> & E & _). simpl.
  destruct (IH r1) as (r2 & E2 & H2). exists r2. split; [done|]. by rewrite H2, E.
Qed.
End order.

(** ** Theorems *)

(** Round trip of a snapshot: after any writes, the commands replayed
    from the snapshot rebuild exactly the content the written commands
    describe, in whatever order the maps are iterated, unless the empty key
    holds the empty string; lengths must fit 32 bits. *)
Theorem rdb_snapshot_roundtrip (order : gset gostring → list gostring) (cs : list Command) :
  (∀ X, order X ≡ₚ elements X) →
  let a := apply_commands cs kv_empty in
  snap_ok (kv_strings a) (kv_hashes a) → kv_get [] a ≠ Some [] →
  ∃ r r' cs', go_foldl (λ c r, fst <$> RDB_Write c r) cs (NewRDB None) = Ret r ∧
    RDB_Replay (NewRDB (rdb_disk (Snapshot order r))) = Ret (r', cs', false) ∧
    apply_commands cs' kv_empty = a.
Proof.
  intros Ho a Hok Hne. destruct (RDB_writes_kv cs (NewRDB None)) as (r & E & Hr).
  assert (rdb_kv r = a) as Hra by exact Hr. clearbody a. clear Hr. subst a.
  pose proof (snapshot_apply order Ho _ _ Hok Hne) as Ha. pose proof (replay_written order Ho _ _ Hok) as Hw.
  exists r. eexists _, _. split; [done|]. split; [|exact Ha].
  unfold RDB_Replay. cbn [rdb_disk NewRDB Snapshot].
  change (rdb_strings r) with (kv_strings (rdb_kv r)). change (rdb_hashes r) with (kv_hashes (rdb_kv r)).
  rewrite Hw. reflexivity.
Qed.

(** The snapshot forgets after a restart: [NewRDB] starts from empty maps
    and [Replay] does not fill them, so the first snapshot after a restart
    replaces the file by one without the keys it held before. *)
Theorem rdb_restart_forgets (order : gset gostring → list gostring) (disk : list byte) (r : RDB) cs :
  (∀ X, order X ≡ₚ elements X) → RDB_Replay (NewRDB (Some disk)) = Ret (r, cs, false) →
  ∃ r' , RDB_Replay (NewRDB (rdb_disk (Snapshot order r))) = Ret (r', [], false).
Proof.
  intros Ho E. unfold RDB_Replay in E. cbn [rdb_disk NewRDB] in E. destruct (replay_bytes disk) as [cs' err]. simplify_eq.
  eexists. unfold RDB_Replay. cbn [rdb_disk NewRDB Snapshot rdb_strings rdb_hashes].
  rewrite (replay_written order Ho ∅ ∅), !dom_empty_L.
  - replace (order ∅) with (@nil gostring) by (symmetry; apply Permutation_nil_r; by rewrite Ho, elements_empty).
    reflexivity.
  - split_and!; [apply map_Forall_empty|by rewrite map_size_empty..|apply map_Forall_empty].
Qed.

(** The header is not checked: [Replay] reads a file with any seven bytes in
    the place of the magic and any version as a snapshot. *)
Theorem rdb_header_ignored (magic version rest : list byte) :
  length magic = length rdbMagic → length version = 4 →
  replay_bytes (magic ++ version ++ rest) = replay_bytes (rdbMagic ++ PutUint32 rdbVersion ++ rest).
Proof.
  intros Hm Hv. assert (∀ m v : list byte, length m = length rdbMagic → length v = 4 →
    replay_bytes (m ++ v ++ rest) = match read_buf 4 rest with
      | None => ([], true)
      | Some (strCountBuf, data) =>
          let '(cs1, data) := read_strings (Z.to_nat (be_get strCountBuf)) data in
          match read_buf 4 data with
          | None => (cs1, true)
          | Some (hashCountBuf, data) => let '(cs2, err) := read_hashes (Z.to_nat (be_get hashCountBuf)) data in (cs1 ++ cs2, err)
          end
      end) as H; [|rewrite !H; done].
  intros m v Lm Lv. unfold replay_bytes. rewrite read_buf_app by done. rewrite (read_buf_app 4 v rest) by done.
  by destruct m.
Qed.

(** ** Witnesses *)
Definition rdb_cmds : list Command :=
  [mkCommand (str "SET") [str "k"; str "v"]; mkCommand (str "HSET") [str "h"; str "f"; str "1"];
   mkCommand (str "SET") [str "k"; str "w"]].

Lemma rdb_cmds_ok : let a := apply_commands rdb_cmds kv_empty in snap_ok (kv_strings a) (kv_hashes a).
Proof.
  intros a. subst a. assert (kv_strings (apply_commands rdb_cmds kv_empty) = {[str "k" := str "w"]}) as -> by (vm_compute; reflexivity).
  assert (kv_hashes (apply_commands rdb_cmds kv_empty) = {[str "h" := {[str "f" := str "1"]}]}) as -> by (vm_compute; reflexivity).
  assert (∀ k v : gostring, length k ≤ 5 → length v ≤ 5 → short_map {[k := v]}) as Hs.
  { intros k v ? ?. apply map_Forall_singleton. unfold short. lia. }
  split_and!; [apply Hs; simpl; lia|rewrite map_size_singleton; lia|rewrite map_size_singleton; lia|].
  apply map_Forall_singleton. split_and!; [unfold short; simpl; lia|apply Hs; simpl; lia|rewrite map_size_singleton; lia|].
  apply map_non_empty_singleton.
Qed.

Lemma rdb_snapshot_roundtrip_witness :
  let a := apply_commands rdb_cmds kv_empty in
  ∃ r r' cs', go_foldl (λ c r, fst <$> RDB_Write c r) rdb_cmds (NewRDB None) = Ret r ∧
    RDB_Replay (NewRDB (rdb_disk (Snapshot elements r))) = Ret (r', cs', false) ∧
    apply_commands cs' kv_empty = a.
Proof.
  apply (rdb_snapshot_roundtrip elements rdb_cmds); [done|apply rdb_cmds_ok|vm_compute; discriminate].
Defined.

Lemma rdb_restart_forgets_witness :
  let disk := snapshot_bytes elements {[str "k" := str "v"]} ∅ in
  ∃ r cs r', RDB_Replay (NewRDB (Some disk)) = Ret (r, cs, false) ∧ cs = [mkCommand (str "SET") [str "k"; str "v"]] ∧
    RDB_Replay (NewRDB (rdb_disk (Snapshot elements r))) = Ret (r', [], false).
Proof.
  intros disk. exists (NewRDB (Some disk)), [mkCommand (str "SET") [str "k"; str "v"]].
  destruct (rdb_restart_forgets elements disk (NewRDB (Some disk)) [mkCommand (str "SET") [str "k"; str "v"]])
    as (r' & E); [done|vm_compute; reflexivity|].
  exists r'. split; [vm_compute; reflexivity|]. split; [reflexivity|exact E].
Defined.
