(* ===== verification/RDBFile.v ===== *)
(** * RDBFile: the snapshot file call by call, src/persistence/rdb.go

    [writeSnapshot] truncates the file with [os.Create] and then makes many
    small [Write] calls whose errors it drops.  Here the calls run on a file
    with a bounded disk, and may be cut at any point by a kill of the process;
    what [Replay] makes of a cut snapshot is worked out for every cut. *)

From stdpp Require Import base list gmap strings.
From Stdlib Require Import ZArith Lia Ascii.
From S2P Require Import Prelude GoLib StoreSpec GoIO Persist RDB.

(** ** The calls *)

(** [writeString]: a [Write] of the length and a [WriteString]. *)
Definition writeString_calls (s : gostring) : list (list byte) := [PutUint32 (Z.of_nat (length s)); s].

Definition pair_calls (m : gmap gostring gostring) (k : gostring) : list (list byte) :=
  writeString_calls k ++ writeString_calls (default [] (m !! k)).

Definition hash_calls (order : gset gostring → list gostring) (hs : gmap gostring (gmap gostring gostring))
    (hk : gostring) : list (list byte) :=
  let fields := default ∅ (hs !! hk) in
  writeString_calls hk ++ [PutUint32 (Z.of_nat (size fields))] ++ concat (pair_calls fields <$> order (dom fields)).

Definition snapshot_calls (order : gset gostring → list gostring) (strings : gmap gostring gostring)
    (hashes : gmap gostring (gmap gostring gostring)) : list (list byte) :=
  [rdbMagic; PutUint32 rdbVersion; PutUint32 (Z.of_nat (size strings))] ++ concat (pair_calls strings <$> order (dom strings)) ++
  [PutUint32 (Z.of_nat (size hashes))] ++ concat (hash_calls order hashes <$> order (dom hashes)).

(** [f.Write(b)] as a statement: its results are dropped. *)
Definition write_call (f : file) (b : list byte) : file := (file_Write b f).1.

(** [os.Create]: an empty file; [room] is what the disk has left then. *)
Definition os_Create (room : option nat) : file := mkFile [] 0 room false.

(** [writeSnapshot]; [creates] says whether [os.Create] succeeds. *)
Definition writeSnapshot (creates : bool) (room : option nat) (order : gset gostring → list gostring) (r : RDB) : RDB * bool :=
  if negb creates then (r, true) else
  let f := foldl write_call (os_Create room) (snapshot_calls order (rdb_strings r) (rdb_hashes r)) in
  (mkRDB (Some (f_data f)) (rdb_strings r) (rdb_hashes r) (rdb_done r), false).

(** The file when the process is killed after [k] of the calls. *)
Definition killed_snapshot (k : nat) (room : option nat) (order : gset gostring → list gostring) (r : RDB) : list byte :=
  f_data (foldl write_call (os_Create room) (take k (snapshot_calls order (rdb_strings r) (rdb_hashes r)))).

(** ** Writing *)
Definition fits (room : option nat) (b : list byte) : list byte := match room with None => b | Some n => take n b end.

Lemma write_call_fits room data b :
  (∀ n, room = Some n → length data ≤ n) →
  write_call (mkFile data (length data) ((λ n, n - length data) <$> room) false) b =
    let data' := fits room (data ++ b) in mkFile data' (length data') ((λ n, n - length data') <$> room) false.
Proof.
  intros Hn. unfold write_call, file_Write. cbn [f_closed f_room f_data f_pos].
  destruct room as [n|]; cbn [fmap option_fmap option_map fits fst].
  - specialize (Hn n eq_refl). rewrite write_at_end, take_app, (take_ge data n) by lia.
    replace (take (Nat.min (n - length data) (length b)) b) with (take (n - length data) b).
    + f_equal; [|f_equal]; rewrite length_app, length_take; lia.
    + destruct (decide (n - length data ≤ length b)); [f_equal; lia|]. by rewrite !take_ge by lia.
  - by rewrite firstn_all, write_at_end, length_app.
Qed.

Lemma fits_app room a b : fits room (fits room a ++ b) = fits room (a ++ b).
Proof.
  destruct room as [n|]; [|done]. simpl. rewrite !take_app, length_take, take_take, Nat.min_id.
  f_equal. destruct (decide (n ≤ length a)).
  - replace (n - length a) with 0 by lia. by replace (n - Nat.min n (length a)) with 0 by lia.
  - f_equal. lia.
Qed.

Lemma write_calls_fits room calls data :
  (∀ n, room = Some n → length data ≤ n) →
  f_data (foldl write_call (mkFile data (length data) ((λ n, n - length data) <$> room) false) calls) =
    fits room (data ++ concat calls).
Proof.
  revert data; induction calls as [|b calls IH]; intros data Hn; cbn [foldl concat].
  - rewrite app_nil_r. destruct room as [n|]; [|done]. simpl. rewrite take_ge; [done|]. by apply Hn.
  - rewrite write_call_fits by done. cbv zeta. rewrite IH, app_assoc; [apply fits_app|].
    intros n ->. simpl. rewrite length_take. lia.
Qed.

Lemma Create_writes room calls : f_data (foldl write_call (os_Create room) calls) = fits room (concat calls).
Proof.
  rewrite <-(app_nil_l (concat calls)), <-(write_calls_fits room calls []) by (simpl; lia). unfold os_Create. simpl.
  do 3 f_equal. destruct room as [n|]; [|done]. simpl. f_equal. lia.
Qed.

Lemma concat_calls {A} (f : A → list (list byte)) (g : A → list byte) (l : list A) :
  (∀ x, concat (f x) = g x) → concat (concat (f <$> l)) = concat (g <$> l).
Proof. intros H. induction l as [|x l IH]; [done|]. rewrite !fmap_cons. cbn [concat]. by rewrite concat_app, H, IH. Qed.

Lemma pair_calls_bytes m k : concat (pair_calls m k) = write_pair m k.
Proof. unfold pair_calls, writeString_calls, write_pair, writeString. cbn [concat app]. by rewrite app_nil_r, <-!app_assoc. Qed.

Lemma snapshot_calls_bytes order strings hashes :
  concat (snapshot_calls order strings hashes) = snapshot_bytes order strings hashes.
Proof.
  unfold snapshot_calls, snapshot_bytes. rewrite !concat_app, (concat_calls _ _ _ (pair_calls_bytes strings)).
  rewrite (concat_calls (hash_calls order hashes) (write_hash order hashes)).
  - cbn [concat]. by rewrite !app_nil_r, <-!app_assoc.
  - intros hk. unfold hash_calls, writeString_calls, write_hash. rewrite !concat_app, (concat_calls _ _ _ (pair_calls_bytes _)).
    unfold writeString. cbn [concat]. by rewrite !app_nil_r, <-!app_assoc.
Qed.

Lemma writeSnapshot_fits room order r :
  writeSnapshot true room order r =
    (mkRDB (Some (fits room (snapshot_bytes order (rdb_strings r) (rdb_hashes r)))) (rdb_strings r) (rdb_hashes r) (rdb_done r), false).
Proof. unfold writeSnapshot. cbn [negb]. by rewrite Create_writes, snapshot_calls_bytes. Qed.

(** A kill leaves a first part of the bytes. *)
Lemma killed_prefix k room order r :
  ∃ n, killed_snapshot k room order r = take n (snapshot_bytes order (rdb_strings r) (rdb_hashes r)).
Proof.
  unfold killed_snapshot. rewrite Create_writes, <-snapshot_calls_bytes. set (calls := snapshot_calls _ _ _).
  assert (concat calls = concat (take k calls) ++ concat (drop k calls)) as -> by (by rewrite <-concat_app, take_drop).
  generalize (concat (take k calls)) as b, (concat (drop k calls)) as rest. intros b rest. destruct room as [n|]; cbn [fits].
  - exists (Nat.min n (length b)). rewrite take_app_le by lia.
    destruct (decide (n ≤ length b)); [f_equal; lia|]. by rewrite !take_ge by lia.
  - exists (length b). by rewrite take_app_length.
Qed.

(** ** Reading a cut snapshot *)

Lemma read_buf_cut n p i :
  length p = n → 0 < i < n → read_buf n (take i p) = Some (take i p ++ replicate (n - i) NUL, []).
Proof.
  intros Hp Hi. unfold read_buf. rewrite (take_ge (take i p)), (drop_ge (take i p)), length_take by (rewrite length_take; lia).
  replace (Nat.min i (length p)) with i by lia. destruct (take i p) as [|b l] eqn:E; [|done].
  apply (f_equal length) in E. rewrite length_take in E. simpl in E. lia.
Qed.

(** A count whose last bytes are missing reads as a smaller one. *)
Lemma be_get_cut p i : length p = 4 → (be_get (take i p ++ replicate (4 - i) NUL) ≤ be_get p)%Z.
Proof.
  intros Hp. destruct p as [|a [|b [|c [|d [|? ?]]]]]; try done.
  pose proof (byteZ_range a). pose proof (byteZ_range b). pose proof (byteZ_range c). pose proof (byteZ_range d).
  assert (byteZ NUL = 0%Z) as Hz by reflexivity.
  destruct (decide (4 ≤ i)) as [Hi|Hi].
  - rewrite take_ge by done. replace (4 - i) with 0 by lia. simpl replicate. by rewrite app_nil_r.
  - destruct i as [|[|[|[|i]]]]; [..|lia]; unfold be_get; cbn [take replicate Nat.sub app foldl]; rewrite ?Hz; lia.
Qed.

Lemma readString_nil : readString [] = ([], []).
Proof. reflexivity. Qed.

(** A cut string reads as some string and nothing is left. *)
Lemma readString_cut s i :
  short s → i < length (writeString s) → ∃ t, readString (take i (writeString s)) = (t, []).
Proof.
  intros Hs Hi. unfold writeString in *. rewrite length_app, length_PutUint32 in Hi. rewrite take_app, length_PutUint32.
  destruct (decide (i < 4)) as [H4|H4].
  - replace (i - 4) with 0 by lia. cbn [take]. rewrite app_nil_r.
    destruct (decide (i = 0)) as [->|H0]; [by exists []|].
    unfold readString. rewrite read_buf_cut by (rewrite ?length_PutUint32; lia). case_bool_decide; by eexists.
  - rewrite (take_ge (PutUint32 _)) by (rewrite length_PutUint32; lia). unfold readString.
    rewrite read_buf_app by (rewrite ?length_PutUint32; done).
    unfold short in Hs. rewrite be_get_PutUint32, Nat2Z.id by lia. case_bool_decide; [lia|].
    destruct (decide (i = 4)) as [->|H5]; [by exists []|]. rewrite read_buf_cut by (done || lia). by eexists.
Qed.

Lemma read_strings_nil n : read_strings n [] = ([], []).
Proof. induction n as [|n IH]; [done|]. cbn [read_strings]. rewrite !readString_nil, IH. reflexivity. Qed.

Lemma read_fields_nil hk n : read_fields hk n [] = (replicate n (mkCommand (str "HSET") [hk; []; []]), []).
Proof. induction n as [|n IH]; [done|]. cbn [read_fields]. by rewrite !readString_nil, IH. Qed.

Lemma read_hashes_nil n : (read_hashes n []).1 = [].
Proof. by destruct n. Qed.

(** A cut pair: two strings, nothing left. *)
Lemma read_pair_cut m k v i :
  m !! k = Some v → short k → short v → i < length (write_pair m k) →
  ∃ t t' rest, readString (take i (write_pair m k)) = (t, rest) ∧ readString rest = (t', []).
Proof.
  intros Hm Hk Hv Hi. unfold write_pair in *. rewrite Hm in *. cbn [default from_option id] in *.
  rewrite length_app in Hi. rewrite take_app. destruct (decide (i < length (writeString k))) as [H|H].
  - replace (i - length (writeString k)) with 0 by lia. cbn [take]. rewrite app_nil_r.
    destruct (readString_cut k i Hk H) as [t ->]. by exists t, [], [].
  - rewrite take_ge, readString_writeString by (done || lia).
    destruct (readString_cut v (i - length (writeString k)) Hv) as [t E]; [lia|]. by exists k, t, (take (i - length (writeString k)) (writeString v)).
Qed.

Lemma take_concat_cut {A} (f : A → list byte) x l i :
  take i (concat (f <$> (x :: l))) =
    if decide (i < length (f x)) then take i (f x) else f x ++ take (i - length (f x)) (concat (f <$> l)).
Proof.
  rewrite fmap_cons. cbn [concat]. rewrite take_app. case_decide.
  - replace (i - length (f x)) with 0 by lia. cbn [take]. by rewrite app_nil_r.
  - by rewrite take_ge by lia.
Qed.

Lemma read_strings_cut m ks i :
  short_map m → Forall (λ k, is_Some (m !! k)) ks → i < length (concat (write_pair m <$> ks)) →
  ∃ j torn, read_strings (length ks) (take i (concat (write_pair m <$> ks))) = (set_commands m (take j ks) ++ torn, []) ∧
    (torn = [] ∨ ∃ k v, torn = [mkCommand (str "SET") [k; v]]).
Proof.
  intros Hm Hks. revert i; induction Hks as [|k ks [v Hk] Hks IH]; intros i Hi; [simpl in Hi; lia|].
  destruct (Hm k v Hk) as [Hsk Hsv]. rewrite take_concat_cut. case_decide as Hc; cbn [length read_strings].
  - destruct (read_pair_cut m k v i Hk Hsk Hsv Hc) as (t & t' & rest & -> & ->). rewrite read_strings_nil. exists 0.
    destruct (_ && _); eexists; (split; [reflexivity|]); [by left|right; by eexists _, _].
  - destruct (IH (i - length (write_pair m k))) as (j & torn & E & Ht).
    { rewrite fmap_cons in Hi. cbn [concat] in Hi. rewrite length_app in Hi. lia. }
    unfold write_pair at 1. rewrite Hk. cbn [default from_option id]. rewrite <-!app_assoc.
    rewrite readString_writeString by done. rewrite readString_writeString by done. rewrite E.
    exists (S j), torn. split; [|done]. unfold set_commands. cbn [take omap list_omap]. rewrite Hk. cbn [default from_option id].
    by destruct (_ && _).
Qed.

(** The damage a cut in the hashes does: fields of one hash. *)
Definition hset_on (hk : gostring) (c : Command) : Prop := ∃ f v, c = mkCommand (str "HSET") [hk; f; v].

Lemma read_fields_cut hk m ks i :
  short_map m → Forall (λ k, is_Some (m !! k)) ks → i < length (concat (write_pair m <$> ks)) →
  ∃ j torn, read_fields hk (length ks) (take i (concat (write_pair m <$> ks))) =
      (((λ k, mkCommand (str "HSET") [hk; k; default [] (m !! k)]) <$> take j ks) ++ torn, []) ∧
    Forall (hset_on hk) torn ∧ length torn ≤ length ks.
Proof.
  intros Hm Hks. revert i; induction Hks as [|k ks [v Hk] Hks IH]; intros i Hi; [simpl in Hi; lia|].
  destruct (Hm k v Hk) as [Hsk Hsv]. rewrite take_concat_cut. case_decide as Hc; cbn [length read_fields].
  - destruct (read_pair_cut m k v i Hk Hsk Hsv Hc) as (t & t' & rest & -> & ->). rewrite read_fields_nil. exists 0.
    eexists. split; [reflexivity|]. split; [|simpl; by rewrite length_replicate].
    constructor; [by eexists _, _|]. apply Forall_replicate. by eexists _, _.
  - destruct (IH (i - length (write_pair m k))) as (j & torn & E & Ht & Hl).
    { rewrite fmap_cons in Hi. cbn [concat] in Hi. rewrite length_app in Hi. lia. }
    unfold write_pair at 1. rewrite Hk. cbn [default from_option id]. rewrite <-!app_assoc.
    rewrite readString_writeString by done. rewrite readString_writeString by done. rewrite E.
    exists (S j), torn. split; [|split; [done|lia]]. cbn [take]. rewrite fmap_cons, Hk. done.
Qed.

(** What may follow the part of a cut snapshot that reads back unchanged. *)
Definition damage (hashes : gmap gostring (gmap gostring gostring)) (torn : list Command) : Prop :=
  torn = [] ∨ (∃ k v, torn = [mkCommand (str "SET") [k; v]]) ∨
  ∃ hk m, hashes !! hk = Some m ∧ Forall (hset_on hk) torn ∧ length torn ≤ size m.

Section cut.
Context (order : gset gostring → list gostring) (order_ok : ∀ X, order X ≡ₚ elements X).

(** One hash cut in its key, its count or its fields. *)
Lemma read_hash_cut hashes hk m n i :
  hashes !! hk = Some m → short hk → short_map m → (Z.of_nat (size m) < 2 ^ 32)%Z → i < length (write_hash order hashes hk) →
  ∃ pre torn err, read_hashes (S n) (take i (write_hash order hashes hk)) = (pre ++ torn, err) ∧
    pre `prefix_of` hset_commands order hashes hk ∧ Forall (hset_on hk) torn ∧ length torn ≤ size m.
Proof.
  intros Hk Hs Hm Hz Hi. rewrite (hset_commands_Some order _ _ _ Hk). unfold write_hash in *. rewrite Hk in *. cbn [default from_option id] in *.
  rewrite length_app in Hi. rewrite take_app. cbn [read_hashes]. destruct (decide (i < length (writeString hk))) as [H|H].
  { replace (i - length (writeString hk)) with 0 by lia. cbn [take]. rewrite app_nil_r.
    destruct (readString_cut hk i Hs H) as [t ->]. exists [], [], true. cbn [read_buf]. split_and!; [done|apply prefix_nil|done|simpl; lia]. }
  rewrite take_ge, readString_writeString by (done || lia). set (i' := i - length (writeString hk)).
  rewrite length_app, length_PutUint32 in Hi. rewrite take_app, length_PutUint32. destruct (decide (i' < 4)) as [H4|H4].
  - replace (i' - 4) with 0 by lia. cbn [take]. rewrite app_nil_r. destruct (decide (i' = 0)) as [->|H0].
    { exists [], [], true. split_and!; [done|apply prefix_nil|done|simpl; lia]. }
    rewrite read_buf_cut by (rewrite ?length_PutUint32; lia). rewrite read_fields_nil. set (c := Z.to_nat _).
    destruct (read_hashes n []) as [cs err] eqn:E. pose proof (read_hashes_nil n) as En. rewrite E in En. simpl in En. subst cs.
    exists [], (replicate c (mkCommand (str "HSET") [hk; []; []])), err. rewrite app_nil_r, length_replicate. split_and!; [done|apply prefix_nil| |].
    + apply Forall_replicate. by eexists _, _.
    + pose proof (be_get_cut (PutUint32 (Z.of_nat (size m))) i' (length_PutUint32 _)) as Hc. rewrite be_get_PutUint32 in Hc by lia. subst c. lia.
  - rewrite (take_ge (PutUint32 _)) by (rewrite length_PutUint32; lia). rewrite read_buf_app by (rewrite ?length_PutUint32; done).
    rewrite be_get_PutUint32, Nat2Z.id by lia. rewrite <-(order_length order order_ok m).
    destruct (read_fields_cut hk m (order (dom m)) (i' - 4)) as (j & torn & -> & Ht & Hl); [done|by apply order_lookups|lia|].
    destruct (read_hashes n []) as [cs err] eqn:E. pose proof (read_hashes_nil n) as En. rewrite E in En. simpl in En. subst cs.
    eexists _, torn, err. rewrite app_nil_r. split_and!; [done| |done|by rewrite (order_length order order_ok m) in Hl |- *].
    eexists. by rewrite <-fmap_app, take_drop.
Qed.

Lemma read_hashes_cut strings hashes hks i :
  snap_ok strings hashes → Forall (λ k, is_Some (hashes !! k)) hks → i < length (concat (write_hash order hashes <$> hks)) →
  ∃ pre torn err, read_hashes (length hks) (take i (concat (write_hash order hashes <$> hks))) = (pre ++ torn, err) ∧
    pre `prefix_of` concat (hset_commands order hashes <$> hks) ∧ damage hashes torn.
Proof.
  intros (_ & _ & _ & Hh) Hks. revert i; induction Hks as [|hk hks [m Hk] Hks IH]; intros i Hi; [simpl in Hi; lia|].
  destruct (Hh hk m Hk) as (Hs & Hm & Hz & _). rewrite take_concat_cut, fmap_cons. cbn [length concat]. case_decide as Hc.
  - destruct (read_hash_cut hashes hk m (length hks) i Hk Hs Hm Hz Hc) as (pre & torn & err & -> & Hp & Ht & Hl).
    exists pre, torn, err. split_and!; [done|by apply prefix_app_r|]. right; right. by exists hk, m.
  - destruct (IH (i - length (write_hash order hashes hk))) as (pre & torn & err & E & Hp & Hd).
    { rewrite fmap_cons in Hi. cbn [concat] in Hi. rewrite length_app in Hi. lia. }
    cbn [read_hashes]. unfold write_hash at 1. rewrite Hk. cbn [default from_option id]. rewrite <-!app_assoc.
    rewrite readString_writeString by done. rewrite read_buf_app by (rewrite ?length_PutUint32; done).
    rewrite be_get_PutUint32, Nat2Z.id by lia. rewrite <-(order_length order order_ok m).
    rewrite read_fields_written by (done || by apply order_lookups). rewrite E, <-(hset_commands_Some order _ _ _ Hk).
    eexists (_ ++ pre), torn, err. split_and!; [by rewrite app_assoc|by apply prefix_app|done].
Qed.

(** The header: magic, version and the number of strings. *)
Definition header (strings : gmap gostring gostring) : list byte :=
  rdbMagic ++ PutUint32 rdbVersion ++ PutUint32 (Z.of_nat (size strings)).

Lemma length_header strings : length (header strings) = 15.
Proof. unfold header. by rewrite !length_app, !length_PutUint32. Qed.

(** Nothing is read from a cut header, and only an empty file reports no error. *)
Lemma replay_cut_header strings i :
  i < 15 → replay_bytes (take i (header strings)) = ([], bool_decide (0 < i)).
Proof.
  intros Hi. destruct (decide (i = 0)) as [->|H0]; [done|]. rewrite bool_decide_eq_true_2 by lia. unfold header, replay_bytes.
  rewrite take_app. change (length rdbMagic) with 7. destruct (decide (i < 7)) as [H|H].
  { replace (i - 7) with 0 by lia. cbn [take]. rewrite app_nil_r. rewrite read_buf_cut by (done || lia).
    destruct (take i rdbMagic) eqn:E; [|done]. apply (f_equal length) in E. rewrite length_take in E. change (length rdbMagic) with 7 in E. simpl in E. lia. }
  rewrite (take_ge rdbMagic) by (change (length rdbMagic) with 7; lia). rewrite read_buf_app by done.
  rewrite take_app, length_PutUint32. destruct (decide (i - 7 < 4)) as [H4|H4].
  { replace (i - 7 - 4) with 0 by lia. cbn [take]. rewrite app_nil_r. destruct (decide (i - 7 = 0)) as [->|]; [done|].
    rewrite read_buf_cut by (rewrite ?length_PutUint32; lia). done. }
  rewrite (take_ge (PutUint32 rdbVersion)) by (rewrite length_PutUint32; lia). rewrite read_buf_app by (rewrite ?length_PutUint32; done).
  destruct (decide (i - 7 - 4 = 0)) as [->|]; [done|]. rewrite read_buf_cut by (rewrite ?length_PutUint32; lia). by rewrite read_strings_nil.
Qed.

(** The rest of [replay_bytes] once the header is whole. *)
Definition replay_body (strCount : nat) (data : list byte) : list Command * bool :=
  let '(cs1, data) := read_strings strCount data in
  match read_buf 4 data with
  | None => (cs1, true)
  | Some (hashCountBuf, data) =>
      let '(cs2, err) := read_hashes (Z.to_nat (be_get hashCountBuf)) data in (cs1 ++ cs2, err)
  end.

Lemma replay_header strings data :
  (Z.of_nat (size strings) < 2 ^ 32)%Z → replay_bytes (header strings ++ data) = replay_body (size strings) data.
Proof.
  intros Hn. unfold header, replay_bytes. rewrite <-!app_assoc. rewrite read_buf_app by done.
  rewrite read_buf_app by (rewrite ?length_PutUint32; done). rewrite read_buf_app by (rewrite ?length_PutUint32; done).
  by rewrite be_get_PutUint32, Nat2Z.id by lia.
Qed.

Definition body (strings : gmap gostring gostring) (hashes : gmap gostring (gmap gostring gostring)) : list byte :=
  concat (write_pair strings <$> order (dom strings)) ++
  PutUint32 (Z.of_nat (size hashes)) ++ concat (write_hash order hashes <$> order (dom hashes)).

Lemma snapshot_header_body strings hashes : snapshot_bytes order strings hashes = header strings ++ body strings hashes.
Proof. unfold snapshot_bytes, header, body. by rewrite <-!app_assoc. Qed.

Lemma replay_cut_body strings hashes i :
  snap_ok strings hashes → i < length (body strings hashes) →
  ∃ pre torn err, replay_body (size strings) (take i (body strings hashes)) = (pre ++ torn, err) ∧
    pre `prefix_of` set_commands strings (order (dom strings)) ++ concat (hset_commands order hashes <$> order (dom hashes)) ∧
    damage hashes torn.
Proof.
  intros Hok Hi. pose proof Hok as (Hs & Hn & Hm & _). unfold replay_body, body in *. rewrite length_app in Hi. rewrite take_app.
  set (ss := concat (write_pair strings <$> _)) in *. rewrite <-(order_length order order_ok strings).
  destruct (decide (i < length ss)) as [H|H].
  - replace (i - length ss) with 0 by lia. cbn [take]. rewrite app_nil_r.
    destruct (read_strings_cut strings (order (dom strings)) i Hs) as (j & torn & E & Ht); [by apply order_lookups|done|].
    fold ss in E. rewrite E.
    eexists _, torn, true. split_and!; [reflexivity| |destruct Ht as [->|?]; [by left|by right; left]].
    apply prefix_app_r. exists (set_commands strings (drop j (order (dom strings)))). unfold set_commands. by rewrite <-omap_app, take_drop.
  - rewrite (take_ge ss) by lia. subst ss. rewrite read_strings_written by (done || by apply order_lookups).
    set (i' := i - _) in *. rewrite length_app, length_PutUint32 in Hi. rewrite take_app, length_PutUint32. destruct (decide (i' < 4)) as [H4|H4].
    + replace (i' - 4) with 0 by lia. cbn [take]. rewrite app_nil_r.
      assert (set_commands strings (order (dom strings)) `prefix_of`
        set_commands strings (order (dom strings)) ++ concat (hset_commands order hashes <$> order (dom hashes))) as Hp by by eexists.
      destruct (decide (i' = 0)) as [->|H0]; [exists (set_commands strings (order (dom strings))), [], true; rewrite app_nil_r; split_and!; [done|done|by left]|].
      rewrite read_buf_cut by (rewrite ?length_PutUint32; lia). set (n := Z.to_nat _).
      destruct (read_hashes n []) as [cs err] eqn:E. pose proof (read_hashes_nil n) as En. rewrite E in En. simpl in En. subst cs.
      exists (set_commands strings (order (dom strings))), [], err. split_and!; [done|done|by left].
    + rewrite (take_ge (PutUint32 _)) by (rewrite length_PutUint32; lia). rewrite read_buf_app by (rewrite ?length_PutUint32; done).
      rewrite be_get_PutUint32, Nat2Z.id by lia. rewrite <-(order_length order order_ok hashes).
      destruct (read_hashes_cut strings hashes (order (dom hashes)) (i' - 4) Hok) as (pre & torn & err & -> & Hp & Hd); [by apply order_lookups|lia|].
      exists (set_commands strings (order (dom strings)) ++ pre), torn, err. split_and!; [by rewrite app_assoc|by apply prefix_app|done].
Qed.

Lemma replay_cut strings hashes n :
  snap_ok strings hashes →
  ∃ pre torn err, replay_bytes (take n (snapshot_bytes order strings hashes)) = (pre ++ torn, err) ∧
    pre `prefix_of` (replay_bytes (snapshot_bytes order strings hashes)).1 ∧ damage hashes torn.
Proof.
  intros Hok. pose proof Hok as (_ & Hn & _). rewrite (replay_written order order_ok _ _ Hok).
  destruct (decide (length (snapshot_bytes order strings hashes) ≤ n)) as [Hge|Hlt].
  { rewrite take_ge, (replay_written order order_ok _ _ Hok) by done. eexists _, [], false. rewrite app_nil_r. split_and!; [done|done|by left]. }
  rewrite snapshot_header_body, length_app, length_header in Hlt. rewrite snapshot_header_body, take_app, length_header.
  destruct (decide (n < 15)) as [H|H].
  - replace (n - 15) with 0 by lia. cbn [take]. rewrite app_nil_r, replay_cut_header by done.
    exists [], [], (bool_decide (0 < n)). split_and!; [done|apply prefix_nil|by left].
  - rewrite (take_ge (header strings)), replay_header by (rewrite ?length_header; done || lia).
    apply replay_cut_body; [done|lia].
Qed.
End cut.

(** ** Theorems *)

(** C6: A snapshot that is cut short.  Whatever room the disk has,
    [writeSnapshot] reports success; and what a start reads from the file it
    leaves, or from the file of a process killed after any of its calls, is a
    first part of what the whole snapshot holds, followed by damage that is
    confined: nothing, one string pair, or fields of one hash that the
    snapshot has, no more than it has fields.  With room for all its bytes
    the file is the one of [Snapshot]. *)
Theorem rdb_cut_snapshot (order : gset gostring → list gostring) (room : option nat) (k : nat) (r : RDB) :
  (∀ X, order X ≡ₚ elements X) → snap_ok (rdb_strings r) (rdb_hashes r) →
  ∃ r1 left_ full, writeSnapshot true room order r = (r1, false) ∧ rdb_disk r1 = Some left_ ∧
    RDB_Replay (NewRDB (rdb_disk (Snapshot order r))) = Ret (NewRDB (rdb_disk (Snapshot order r)), full, false) ∧
    (∀ data, data ∈ [left_; killed_snapshot k room order r] →
      ∃ pre torn err, RDB_Replay (NewRDB (Some data)) = Ret (NewRDB (Some data), pre ++ torn, err) ∧
        pre `prefix_of` full ∧ damage (rdb_hashes r) torn) ∧
    (∀ n, room = Some n → length (snapshot_bytes order (rdb_strings r) (rdb_hashes r)) ≤ n → r1 = Snapshot order r).
Proof.
  intros Ho Hok. eexists _, _, _. split; [apply writeSnapshot_fits|]. split; [done|].
  split; [|split].
  - unfold RDB_Replay. cbn [rdb_disk NewRDB Snapshot]. rewrite (replay_written order Ho _ _ Hok). done.
  - intros data Hd. assert (∃ n, data = take n (snapshot_bytes order (rdb_strings r) (rdb_hashes r))) as [n ->].
    { rewrite !elem_of_cons, elem_of_nil in Hd. destruct Hd as [->|[->|[]]]; [|apply killed_prefix].
      destruct room as [n|]; [by exists n|]. eexists. symmetry. by apply take_ge. }
    destruct (replay_cut order Ho (rdb_strings r) (rdb_hashes r) n Hok) as (pre & torn & err & E & Hp & Hd').
    exists pre, torn, err. unfold RDB_Replay. cbn [rdb_disk NewRDB]. rewrite E. split; [done|].
    rewrite (replay_written order Ho _ _ Hok) in Hp. by split.
  - intros n -> Hn. cbn [fits]. rewrite take_ge by done. by destruct r.
Qed.

(** The old snapshot is gone as soon as [os.Create] returns: a process killed
    then, or a full disk, leaves an empty file, which a start reads without an
    error as no data at all, while the interrupted call reported success. *)
Theorem rdb_snapshot_destroys_previous (order : gset gostring → list gostring) (room : option nat) (r : RDB) :
  killed_snapshot 0 room order r = [] ∧
  (∃ r1, writeSnapshot true (Some 0) order r = (r1, false) ∧ rdb_disk r1 = Some []) ∧
  RDB_Replay (NewRDB (Some [])) = Ret (NewRDB (Some []), [], false) ∧
  (∀ r1, writeSnapshot false room order r = (r1, true) → r1 = r).
Proof.
  split; [done|]. split; [|split; [done|by intros ? [= <-]]].
  eexists. split; [apply writeSnapshot_fits|]. done.
Qed.

(** Damage that no error reports: a last value that lost its last byte is
    read with a NUL byte in its place, and a hash cut before its second field
    gets a field with the empty name. *)
Theorem rdb_cut_unreported :
  let one := snapshot_bytes elements ∅ {[str "h" := {[str "f" := str "abc"]}]} in
  let two := snapshot_bytes elements ∅ {[str "h" := {[str "f" := str "1"; str "g" := str "2"]}]} in
  replay_bytes (take (length one - 1) one) = ([mkCommand (str "HSET") [str "h"; str "f"; str "ab" ++ [NUL]]], false) ∧
  ∃ c, replay_bytes (take (length two - 10) two) = ([c; mkCommand (str "HSET") [str "h"; []; []]], false).
Proof. split; [vm_compute; reflexivity|]. eexists. vm_compute. reflexivity. Qed.

(** ** Witnesses *)
Lemma rdb_cut_snapshot_witness :
  let r := mkRDB None {[str "k" := str "v"]} ∅ false in
  ∃ r1 left_ full, writeSnapshot true (Some 20) elements r = (r1, false) ∧ rdb_disk r1 = Some left_ ∧
    RDB_Replay (NewRDB (rdb_disk (Snapshot elements r))) = Ret (NewRDB (rdb_disk (Snapshot elements r)), full, false) ∧
    (∀ data, data ∈ [left_; killed_snapshot 4 (Some 20) elements r] →
      ∃ pre torn err, RDB_Replay (NewRDB (Some data)) = Ret (NewRDB (Some data), pre ++ torn, err) ∧
        pre `prefix_of` full ∧ damage ∅ torn) ∧
    (∀ n, Some 20 = Some n → length (snapshot_bytes elements {[str "k" := str "v"]} ∅) ≤ n → r1 = Snapshot elements r).
Proof.
  intros r. apply (rdb_cut_snapshot elements (Some 20) 4 r); [done|]. unfold r. cbn [rdb_strings rdb_hashes].
  split_and!; [apply map_Forall_singleton; unfold short; simpl; lia|rewrite map_size_singleton; lia|rewrite map_size_empty; lia|apply map_Forall_empty].
Defined.
