(* ===== verification/WALConc.v ===== *)
(** * WALConc: writers of the write-ahead log at the same time, src/persistence/wal.go

    [Write] takes the mutex twice: once to append the record to the buffer and
    to look at its length, and once more in [Flush] when the batch is full.
    Between the two other writers append and flush, and the flush loop ticks.
    Here every lock region is a step of its own.  A flush may start at any
    moment, since the loop ticks; the process may be killed between any two
    steps and inside the [file.Write] of a flush, after any number of its
    bytes. *)

From stdpp Require Import base list gmap strings.
From Stdlib Require Import ZArith Lia Ascii.
From S2P Require Import Prelude GoLib StoreSpec GoIO Persist WAL.

(** ** The writers *)

(** A goroutine that writes commands one after the other; [wr_flush] is the
    command whose [Write] has appended it and has still to call [Flush]. *)
Record writer := mkWriter { wr_flush : option Command; wr_todo : list Command }.

(** The writers, the log, and the commands in the order they were appended
    with the numbers of their writers. *)
Record writers := mkWriters { ws_writers : list writer; ws_wal : WAL; ws_order : list (nat * Command) }.

(** The first lock region of [Write]: the log and [shouldFlush]. *)
Definition Write_append (c : Command) (w : WAL) : WAL * bool :=
  let buf := wal_buf w ++ marshalCommand c in
  (mkWAL (wal_file w) buf (wal_batchSize w) (wal_done w), bool_decide (wal_batchSize w ≤ length buf)).

(** [Some i] is the next lock region of writer [i], [None] a tick. *)
Definition ws_step (x : writers) (ev : option nat) : writers :=
  match ev with
  | None => mkWriters (ws_writers x) (Flush (ws_wal x)).1 (ws_order x)
  | Some i =>
      match ws_writers x !! i with
      | Some (mkWriter (Some c) todo) =>
          mkWriters (<[i := mkWriter None todo]> (ws_writers x)) (Flush (ws_wal x)).1 (ws_order x)
      | Some (mkWriter None (c :: todo)) =>
          let '(w, shouldFlush) := Write_append c (ws_wal x) in
          mkWriters (<[i := mkWriter (if shouldFlush : bool then Some c else None) todo]> (ws_writers x)) w (ws_order x ++ [(i, c)])
      | _ => x
      end
  end.

Definition ws_run (evs : list (option nat)) (x : writers) : writers := foldl ws_step x evs.

Definition ws_start (progs : list (list Command)) (w : WAL) : writers := mkWriters (mkWriter None <$> progs) w [].

(** The command is one whose [Write] has not returned. *)
Definition in_flight (ts : list writer) (e : nat * Command) : Prop := ∃ todo, ts !! e.1 = Some (mkWriter (Some e.2) todo).

(** ** Invariants *)

(** Both regions in a row are [WAL_Write]. *)
Lemma Write_regions c w :
  WAL_Write c w = Ret (let '(w1, shouldFlush) := Write_append c w in if shouldFlush : bool then Flush w1 else (w1, false)).
Proof. unfold WAL_Write, Write_append. cbn [wal_batchSize wal_buf]. by case_bool_decide. Qed.

(** The file of a process killed when the [file.Write] of a flush had written
    [i] bytes of the buffer; [i = 0] is a kill outside of a flush. *)
Definition killed_wal (i : nat) (w : WAL) : list byte := f_data (wal_file w) ++ take i (wal_buf w).

(** Of the commands appended in [order] a first part is in the file; the
    buffer holds less than a batch, and after it only commands with [P]. *)
Definition wal_regions (P : nat * Command → Prop) (order : list (nat * Command)) (w : WAL) : Prop :=
  wal_log order.*2 w ∧ wal_batchSize w = 1000 ∧
  ∃ kept lost late, order = kept ++ lost ++ late ∧ f_data (wal_file w) = wal_bytes kept.*2 ∧
    wal_buf w = wal_bytes (lost ++ late).*2 ∧ length (wal_bytes lost.*2) < 1000 ∧ Forall P late.

Lemma NewWAL_regions P : wal_regions P [] (NewWAL [] None).
Proof. split; [done|]. split; [done|]. exists [], [], []. split_and!; [done..|simpl; lia|done]. Qed.

Lemma Flush_batch w : wal_batchSize (Flush w).1 = wal_batchSize w.
Proof. unfold Flush. case_bool_decide; [done|]. by destruct (file_Write _ _). Qed.

Lemma wal_regions_flush P Q order w : wal_regions P order w → wal_regions Q order (Flush w).1.
Proof.
  intros (Hl & Hb & _). destruct (Flush_log _ _ Hl) as (_ & Hl' & He).
  split; [exact Hl'|]. split; [by rewrite Flush_batch|]. exists order, [], [].
  split_and!; [by rewrite !app_nil_r| |by rewrite He|simpl; lia|done].
  destruct Hl' as (Hd' & _). by rewrite He, app_nil_r in Hd'.
Qed.

Lemma wal_regions_impl (P Q : nat * Command → Prop) order w : (∀ e, P e → Q e) → wal_regions P order w → wal_regions Q order w.
Proof.
  intros HPQ (Hl & Hb & kept & lost & late & Ho & Hd & Hbuf & Hlen & Hf). split; [done|]. split; [done|].
  exists kept, lost, late. split_and!; [done..|]. by eapply Forall_impl.
Qed.

Lemma append_log cs c w : wal_log cs w → wal_log (cs ++ [c]) (Write_append c w).1.
Proof.
  intros (Hd & Hp & Hr & Hc & Ho). split_and!; [|done..]. cbn. by rewrite app_assoc, Hd, wal_bytes_snoc.
Qed.

(** An append leaves the buffer below a batch, or its command has [Q]. *)
Lemma wal_regions_append (P Q : nat * Command → Prop) order w i c :
  wal_regions P order w → (∀ e, P e → Q e) → ((Write_append c w).2 = true → Q (i, c)) →
  wal_regions Q (order ++ [(i, c)]) (Write_append c w).1.
Proof.
  intros (Hl & Hb & kept & lost & late & Ho & Hd & Hbuf & Hlen & Hf) HPQ Hc.
  assert (wal_buf w ++ marshalCommand c = wal_bytes (lost ++ late ++ [(i, c)]).*2) as Hbuf'.
  { rewrite app_assoc, fmap_app, Hbuf. symmetry. apply (wal_bytes_snoc _ c). }
  split; [rewrite fmap_app; exact (append_log _ c _ Hl)|]. split; [done|].
  cbn [Write_append fst snd wal_file wal_buf] in *. rewrite Hb in Hc. case_bool_decide as Hcmp.
  - exists kept, lost, (late ++ [(i, c)]). split_and!; [by rewrite Ho, <-!app_assoc|done|exact Hbuf'|done|].
    apply Forall_app_2; [by eapply Forall_impl|]. by repeat constructor; apply Hc.
  - exists kept, (lost ++ late ++ [(i, c)]), []. rewrite app_nil_r. split_and!; [by rewrite Ho, <-!app_assoc|done|exact Hbuf'| |done].
    rewrite <-Hbuf'. lia.
Qed.

(** What a start finds after a kill: a first part of the commands, or a torn
    record on which the loop of [Replay] never ends. *)
Lemma wal_regions_killed `{!UnicodeUpper} P order w i :
  wal_regions P order w → Forall cmd_ok order.*2 →
  (∃ kept lost late w', order = kept ++ lost ++ late ∧ WAL_Replay (NewWAL (killed_wal i w) None) = Ret (w', kept.*2, false) ∧
    length (wal_bytes lost.*2) < 1000 ∧ Forall P late ∧ wal_log kept.*2 w') ∨
  (0 < i ∧ ∃ kept e rest n, order = kept ++ e :: rest ∧ 0 < n < length (marshalCommand e.2) ∧
    killed_wal i w = wal_bytes kept.*2 ++ take n (marshalCommand e.2) ∧ ∀ fuel, wal_loop fuel (killed_wal i w) [] = NoFuel).
Proof.
  intros (Hl & Hb & kept & lost & late & -> & Hd & Hbuf & Hlen & Hf) Hok. unfold killed_wal. rewrite Hd, Hbuf.
  destruct (wal_bytes_cut (lost ++ late).*2 i) as (whole & rest & Hcut & Hi).
  apply fmap_app_inv in Hcut as (k1 & k2 & -> & -> & Hcut). destruct Hi as [Hi|(c & rest' & n & Hr & Hn & Hi)].
  - left. assert (∃ lost' late', k2 = lost' ++ late' ∧ length (wal_bytes lost'.*2) < 1000 ∧ Forall P late') as (lost' & late' & -> & Hl2 & Hf2).
    { apply app_eq_inv in Hcut as [(k & -> & ->)|(k & -> & ->)].
      - exists k, late. split_and!; [done| |done]. rewrite fmap_app, wal_bytes_app, length_app in Hlen. lia.
      - exists [], k2. split_and!; [done|simpl; lia|]. by apply Forall_app in Hf as [_ ?]. }
    assert (wal_bytes kept.*2 ++ take i (wal_bytes (lost ++ late).*2) = wal_bytes (kept ++ k1).*2) as ->
      by (by rewrite Hi, <-wal_bytes_app, <-fmap_app). exists (kept ++ k1), lost', late'. eexists. split_and!; [by rewrite Hcut, <-!app_assoc| |done..|].
    + unfold NewWAL. apply WAL_Replay_log; [|done|done]. rewrite Hcut, app_assoc, fmap_app in Hok. by apply Forall_app in Hok as [? _].
    + unfold wal_log. cbn. by rewrite app_nil_r.
  - right. destruct k2 as [|e k2]; [done|]. rewrite fmap_cons in Hr. injection Hr as <- <-.
    assert (wal_bytes kept.*2 ++ take i (wal_bytes (lost ++ late).*2) = wal_bytes (kept ++ k1).*2 ++ take n (marshalCommand e.2)) as ->
      by (by rewrite Hi, app_assoc, <-wal_bytes_app, <-fmap_app).
    rewrite Hcut, app_assoc, fmap_app in Hok. apply Forall_app in Hok as [Hok1 [He _]%Forall_cons].
    split; [destruct i; [|lia]; apply (f_equal length) in Hi; rewrite take_0, length_app, length_take in Hi; cbn [length] in Hi; lia|].
    exists (kept ++ k1), e, k2, n. split_and!; [by rewrite Hcut, <-!app_assoc|lia|lia|done|]. by apply wal_torn_record_loops.
Qed.

(** The invariant of the writers: after less than a batch the buffer holds
    only commands in flight. *)
Definition ws_inv (x : writers) : Prop := wal_regions (in_flight (ws_writers x)) (ws_order x) (ws_wal x).

Lemma in_flight_other ts i t e :
  (∃ todo, ts !! i = Some (mkWriter None todo)) → in_flight ts e → in_flight (<[i := t]> ts) e.
Proof.
  intros [todo Hi] [todo' He]. exists todo'. rewrite list_lookup_insert_ne; [done|]. intros ->. rewrite Hi in He. done.
Qed.

Lemma append_inv x i c todo :
  ws_inv x → ws_writers x !! i = Some (mkWriter None (c :: todo)) → ws_inv (ws_step x (Some i)).
Proof.
  intros Hx Hi. cbn [ws_step]. rewrite Hi. destruct (Write_append c (ws_wal x)) as [w b] eqn:E.
  pose proof (wal_regions_append (in_flight (ws_writers x))
    (in_flight (<[i := mkWriter (if b then Some c else None) todo]> (ws_writers x))) (ws_order x) (ws_wal x) i c Hx) as H.
  rewrite E in H. apply H; cbn [fst snd].
  - intros e. apply in_flight_other. by eexists.
  - intros ->. exists todo. apply list_lookup_insert_eq. by eapply lookup_lt_Some.
Qed.

Lemma ws_step_inv ev x : ws_inv x → ws_inv (ws_step x ev).
Proof.
  intros Hx. destruct ev as [i|]; [|exact (wal_regions_flush _ _ _ _ Hx)].
  cbn [ws_step]. destruct (ws_writers x !! i) as [[[c|] todo]|] eqn:Hi; [exact (wal_regions_flush _ _ _ _ Hx)| |done].
  destruct todo as [|c todo]; [done|]. pose proof (append_inv x i c todo Hx Hi) as H. cbn [ws_step] in H. by rewrite Hi in H.
Qed.

Lemma ws_run_inv evs x : ws_inv x → ws_inv (ws_run evs x).
Proof. revert x; induction evs as [|ev evs IH]; intros x Hx; [done|]. apply IH. by apply ws_step_inv. Qed.

Lemma ws_start_inv progs : ws_inv (ws_start progs (NewWAL [] None)).
Proof. apply NewWAL_regions. Qed.

(** Each writer's commands are appended in its order, none twice. *)
Definition ws_by_writer (progs : list (list Command)) (x : writers) : Prop :=
  ∀ i p, progs !! i = Some p → ∃ t, ws_writers x !! i = Some t ∧ p = by_thread i (ws_order x) ++ wr_todo t.

Lemma ws_step_by_writer progs ev x : ws_by_writer progs x → ws_by_writer progs (ws_step x ev).
Proof.
  intros Hx i p Hp. destruct (Hx i p Hp) as (t & Ht & E). destruct ev as [j|]; [|by exists t].
  cbn [ws_step]. destruct (ws_writers x !! j) as [[[c|] todo]|] eqn:Hj; [| |by exists t].
  - cbn [ws_writers ws_order]. destruct (decide (j = i)) as [->|Hne].
    + rewrite Hj in Ht. injection Ht as <-. eexists. split; [apply list_lookup_insert_eq; by eapply lookup_lt_Some|done].
    + exists t. by rewrite list_lookup_insert_ne.
  - destruct todo as [|c todo]; [by exists t|]. cbn [Write_append ws_writers ws_order].
    rewrite by_thread_app, by_thread_one. case_decide as Hij; subst.
    + rewrite Hj in Ht. injection Ht as <-. eexists. split; [apply list_lookup_insert_eq; by eapply lookup_lt_Some|].
      cbn [wr_todo]. by rewrite <-app_assoc.
    + exists t. by rewrite list_lookup_insert_ne, app_nil_r.
Qed.

Lemma ws_run_by_writer progs evs x : ws_by_writer progs x → ws_by_writer progs (ws_run evs x).
Proof. revert x; induction evs as [|ev evs IH]; intros x Hx; [done|]. apply IH. by apply ws_step_by_writer. Qed.

Lemma ws_start_by_writer progs w : ws_by_writer progs (ws_start progs w).
Proof. intros i p Hp. exists (mkWriter None p). split; [|done]. cbn. by rewrite list_lookup_fmap, Hp. Qed.

(** Only commands of the writers are appended. *)
Lemma ws_order_ok (P : Command → Prop) progs evs w :
  Forall (Forall P) progs → Forall P (ws_order (ws_run evs (ws_start progs w))).*2.
Proof.
  intros Hp. set (I := λ x, Forall (λ t, Forall P (wr_todo t)) (ws_writers x) ∧ Forall P (ws_order x).*2).
  assert (∀ ev x, I x → I (ws_step x ev)) as Hstep.
  { intros [i|] x [Ht Ho]; [|done]. cbn [ws_step]. destruct (ws_writers x !! i) as [[[c|] todo]|] eqn:Hi; [| |done].
    - split; [|done]. apply Forall_insert; [done|]. exact (proj1 (Forall_lookup _ _) Ht _ _ Hi).
    - destruct todo as [|c todo]; [done|]. pose proof (proj1 (Forall_lookup _ _) Ht _ _ Hi) as [Hc Htd]%Forall_cons. split; cbn.
      + by apply Forall_insert.
      + rewrite fmap_app. apply Forall_app_2; [done|]. by repeat constructor. }
  assert (∀ evs x, I x → I (ws_run evs x)) as Hrun.
  { intros evs'. induction evs' as [|ev evs' IH]; intros x Hx; [done|]. apply IH. by apply Hstep. }
  apply Hrun. split; [|done]. cbn. by apply Forall_fmap.
Qed.

(** ** After Close *)

(** A log that is closed: nothing changes the file any more. *)
Lemma Flush_closed w : f_closed (wal_file w) = true → wal_file (Flush w).1 = wal_file w.
Proof. intros Hc. unfold Flush, file_Write. rewrite Hc. by case_bool_decide. Qed.

Lemma ws_step_closed ev x : f_closed (wal_file (ws_wal x)) = true → wal_file (ws_wal (ws_step x ev)) = wal_file (ws_wal x).
Proof.
  intros Hc. destruct ev as [i|]; [|by apply Flush_closed]. cbn [ws_step].
  destruct (ws_writers x !! i) as [[[c|] [|c' todo]]|]; try done; by apply Flush_closed.
Qed.

Lemma ws_run_closed evs x : f_closed (wal_file (ws_wal x)) = true → wal_file (ws_wal (ws_run evs x)) = wal_file (ws_wal x).
Proof.
  revert x; induction evs as [|ev evs IH]; intros x Hc; [done|]. pose proof (ws_step_closed ev x Hc) as E.
  unfold ws_run in *. cbn [foldl]. by rewrite IH, E by by rewrite E.
Qed.

(** ** Theorems *)

(** C4: Concurrent writers of a new write-ahead log.  However the lock regions of
    the writers and the ticks of the flush loop interleave, at every moment:
    the commands were appended in the order of their writers, none twice; the
    process may be killed now, or when [i] bytes of the buffer have been
    written by a flush: then either a start replays a first part of the
    commands, and what is missing is less than 1000 bytes of records followed
    only by commands whose Write has not returned, or the kill has cut a record
    in the middle of a write and the loop of Replay never ends; and closing the
    log now keeps all commands.  The commands have a non-empty upper-case name
    below 64 KiB, fewer than 65536 arguments and arguments below 4 GiB; the
    disk has room. *)
Theorem wal_concurrent_writers `{!UnicodeUpper} (progs : list (list Command)) (evs : list (option nat)) :
  Forall (Forall cmd_ok) progs →
  let x := ws_run evs (ws_start progs (NewWAL [] None)) in
  (∀ i p, progs !! i = Some p → ∃ t, ws_writers x !! i = Some t ∧ p = by_thread i (ws_order x) ++ wr_todo t) ∧
  (∀ i, let file := killed_wal i (ws_wal x) in
    (∃ kept lost late w', ws_order x = kept ++ lost ++ late ∧ WAL_Replay (NewWAL file None) = Ret (w', kept.*2, false) ∧
      length (wal_bytes lost.*2) < 1000 ∧ Forall (in_flight (ws_writers x)) late) ∨
    (0 < i ∧ ∃ kept e rest n, ws_order x = kept ++ e :: rest ∧ 0 < n < length (marshalCommand e.2) ∧
      file = wal_bytes kept.*2 ++ take n (marshalCommand e.2) ∧ ∀ fuel, wal_loop fuel file [] = NoFuel)) ∧
  (∃ w1 w2, WAL_Close (ws_wal x) = Ret (w1, false) ∧
    WAL_Replay (NewWAL (f_data (wal_file w1)) None) = Ret (w2, (ws_order x).*2, false)).
Proof.
  intros Hp x. split; [apply ws_run_by_writer, ws_start_by_writer|].
  pose proof (ws_run_inv evs _ (ws_start_inv progs)) as Hx. pose proof Hx as [Hl _].
  pose proof (ws_order_ok cmd_ok progs evs (NewWAL [] None) Hp) as Hok. fold x in Hx, Hl, Hok. split.
  - intros i file. destruct (wal_regions_killed _ _ _ i Hx Hok) as [(kept & lost & late & w' & H1 & H2 & H3 & H4 & _)|Hr]; [left|by right].
    by exists kept, lost, late, w'.
  - destruct (law_restart (ws_order x).*2 (ws_wal x)) as (w1 & w2 & E1 & E2 & _); [exact Hl|exact Hok|]. by exists w1, w2.
Qed.

(** A Write after Close reports success and is lost: the record is put into
    the buffer, and whatever writers and ticks do later, the file does not
    change. *)
Theorem wal_write_after_close (w : WAL) (c : Command) (progs : list (list Command)) (evs : list (option nat)) :
  f_closed (wal_file w) = true → wal_buf w = [] → length (marshalCommand c) < wal_batchSize w →
  ∃ w', WAL_Write c w = Ret (w', false) ∧
    wal_file (ws_wal (ws_run evs (ws_start progs w'))) = wal_file w.
Proof.
  intros Hc Hb Hlen. rewrite Write_regions. unfold Write_append. rewrite Hb. cbn [app]. rewrite bool_decide_eq_false_2 by lia.
  eexists. split; [reflexivity|]. by rewrite ws_run_closed.
Qed.

(** ** Witnesses *)
#[local] Instance upper_same : UnicodeUpper := λ s, s.

(** Two writers of one command each; a record of 1000 bytes makes the second
    one flush, and the process is killed before it does. *)
Definition big_cmd : Command := mkCommand (str "SET") [str "k"; replicate 1000 "v"%char].

Lemma big_cmd_ok : cmd_ok big_cmd.
Proof.
  split; [discriminate|]. split; [reflexivity|]. split; [simpl; lia|]. split; [simpl; lia|].
  apply Forall_cons_2; [simpl; lia|]. apply Forall_cons_2; [rewrite length_replicate; lia|apply Forall_nil_2].
Qed.

Lemma wal_concurrent_writers_witness :
  let x := ws_run [Some 0; Some 1] (ws_start [[wal_cmd]; [big_cmd]] (NewWAL [] None)) in
  wr_flush <$> ws_writers x = [None; Some big_cmd] ∧
  let file := killed_wal 100 (ws_wal x) in
  (∃ kept lost late w', ws_order x = kept ++ lost ++ late ∧ WAL_Replay (NewWAL file None) = Ret (w', kept.*2, false) ∧
    length (wal_bytes lost.*2) < 1000 ∧ Forall (in_flight (ws_writers x)) late) ∨
  (0 < 100 ∧ ∃ kept e rest n, ws_order x = kept ++ e :: rest ∧ 0 < n < length (marshalCommand e.2) ∧
    file = wal_bytes kept.*2 ++ take n (marshalCommand e.2) ∧ ∀ fuel, wal_loop fuel file [] = NoFuel).
Proof.
  intros x. split; [vm_compute; reflexivity|].
  destruct (wal_concurrent_writers [[wal_cmd]; [big_cmd]] [Some 0; Some 1]) as (_ & H & _).
  - apply Forall_cons_2; [apply Forall_cons_2; [apply wal_cmd_ok|apply Forall_nil_2]|].
    apply Forall_cons_2; [apply Forall_cons_2; [apply big_cmd_ok|apply Forall_nil_2]|apply Forall_nil_2].
  - exact (H 100).
Defined.

Lemma wal_write_after_close_witness :
  let w := mkWAL (mkFile [] 0 None true) [] 1000 true in
  ∃ w', WAL_Write wal_cmd w = Ret (w', false) ∧
    wal_file (ws_wal (ws_run [Some 0; None] (ws_start [[wal_cmd]] w'))) = wal_file w.
Proof.
  intros w. apply (wal_write_after_close w wal_cmd [[wal_cmd]] [Some 0; None]); [reflexivity|reflexivity|].
  apply Nat.ltb_lt. vm_compute. reflexivity.
Defined.
