(* ===== verification/Network.v ===== *)
(** * Network: the transports, src/network/*.go

    The servers are parametric in what they serve: [W] is the state behind
    the handlers (store and log), [handlers] the table the transport is given
    and [onWrite] the callback.  A connection is the stream of its incoming
    segments; what the transport writes to it is the list of bytes [out].
    TCP, TLS and Unix sockets run the same connection loop. *)

From stdpp Require Import base list gmap strings.
From Stdlib Require Import ZArith Lia Ascii.
From S2P Require Import Prelude GoLib StoreSpec GoIO Resp.

Section network.
Context `{!UnicodeUpper}.
Context {W : Type}.
Context (handlers : gmap gostring (list Value → W → go (W * Value))).
Context (onWrite : option (gostring → list Value → W → go W)).

(** [if onWrite != nil { onWrite(command, args) }; result := handler(args)] *)
Definition dispatch (h : list Value → W → go (W * Value)) (command : gostring) (args : list Value) (w : W) :
    go (W * Value) :=
  w1 ← match onWrite with Some f => f command args w | None => Ret w end;
  h args w1.

(** ** The connection loop: tcp.go, tls.go, unix.go *)

(** What one value read from the connection does: the authentication state,
    the replies and the state of the server after it. *)
Definition serve_value (password : gostring) (authenticated : bool) (value : Value) (w : W) :
    go (bool * list Value * W) :=
  match v_Type value, v_Array value with
  | TypeArray, x :: args =>
      let command := ToUpper (v_Bulk x) in
      if negb authenticated then
        if bool_decide (command = str "AUTH") then
          match args with
          | a :: _ =>
              if bool_decide (v_Bulk a = password) then Ret (true, [VString (str "OK")], w)
              else Ret (false, [VError (str "ERR invalid password")], w)
          | [] => Ret (false, [VError (str "ERR invalid password")], w)
          end
        else Ret (false, [VError (str "NOAUTH Authentication required.")], w)
      else
        match handlers !! command with
        | None => Ret (true, [], w)
        | Some h => '(w', result) ← dispatch h command args w; Ret (true, [result], w')
        end
  | _, _ => Ret (authenticated, [], w)
  end.

(** [for { rd := resp.NewResp(conn); ... }]: a new buffered reader per
    iteration; what an earlier one had buffered is lost with it. *)
Fixpoint conn_loop (fuel : nat) (password : gostring) (authenticated : bool) (conn : stream) (out : list byte) (w : W) :
    go (W * list byte) :=
  match fuel with
  | O => NoFuel
  | S f =>
      '(rd, v) ← Resp_Read (NewReader conn);
      match v with
      | inl _ => Ret (w, out)
      | inr value =>
          '(auth', rs, w') ← serve_value password authenticated value w;
          conn_loop f password auth' (rsrc rd) (foldl (λ o r, Writer_Write r o) out rs) w'
      end
  end.

Definition handleConn (password : gostring) (conn : stream) (w : W) : go (W * list byte) :=
  conn_loop (stream_size conn + 1) password (bool_decide (password = [])) conn [] w.

(** ** HTTP: src/network/http.go *)
Inductive json :=
| JNull
| JBool (b : bool)
| JString (s : gostring)
| JNumber (n : Z)
| JArray (l : list json)
| JObject (fields : list (gostring * json)).

Definition json_ok (v : json) : json := JObject [(str "ok", JBool true); (str "value", v)].
Definition json_error (s : gostring) : json := JObject [(str "ok", JBool false); (str "error", JString s)].

Fixpoint respToJSON (v : Value) : json :=
  match v with
  | mkValue t s n b a =>
      match t with
      | TypeString => json_ok (JString s)
      | TypeBulk => json_ok (JString b)
      | TypeNull => json_ok JNull
      | TypeError => json_error s
      | TypeInteger => json_ok (JNumber n)
      | TypeArray => json_ok (JArray (map respToJSON a))
      | TypeZero => json_ok JNull
      end
  end.

(** A request: its method and what [json.Decoder] makes of its body as a list
    of strings ([None] is a decoding error). *)
Record request := mkRequest { rq_method : gostring; rq_body : option (list gostring) }.

(** The status and the body of the response. *)
Definition handleCommand (r : request) (w : W) : go (W * (Z * json)) :=
  if negb (bool_decide (rq_method r = str "POST")) then Ret (w, (405%Z, json_error (str "method not allowed"))) else
  match rq_body r with
  | None => Ret (w, (400%Z, json_error (str "invalid json")))
  | Some [] => Ret (w, (400%Z, json_error (str "empty command")))
  | Some (name :: args) =>
      let command := ToUpper name in
      match handlers !! command with
      | None => Ret (w, (404%Z, json_error (str "unknown command: " ++ command)))
      | Some h => '(w', result) ← dispatch h command (VBulk <$> args) w; Ret (w', (200%Z, respToJSON result))
      end
  end.

(** ** gRPC: src/network/grpc.go *)
Inductive ResponseValue := mkResponse (pb_Type : vtype) (pb_Str : gostring) (pb_Num : Z) (pb_Bulk : gostring)
  (pb_Array : list ResponseValue).

Fixpoint respValueToProto (v : Value) : ResponseValue :=
  match v with
  | mkValue t s n b a =>
      match t with
      | TypeString => mkResponse t s 0 [] []
      | TypeBulk => mkResponse t [] 0 b []
      | TypeError => mkResponse t s 0 [] []
      | TypeInteger => mkResponse t [] n [] []
      | TypeArray => mkResponse t [] 0 [] (map respValueToProto a)
      | TypeNull | TypeZero => mkResponse t [] 0 [] []
      end
  end.

Definition Exec (name : gostring) (cargs : list gostring) (w : W) : go (W * ResponseValue) :=
  let name := ToUpper name in
  match handlers !! name with
  | None => Ret (w, mkResponse TypeError (str "unknown command: " ++ name) 0 [] [])
  | Some h => '(w', result) ← dispatch h name (VBulk <$> cargs) w; Ret (w', respValueToProto result)
  end.

(** ** Lemmas *)

(** The commands a connection executes, one at a time. *)
Fixpoint exec_commands (cs : list (gostring * list Value)) (w : W) : go (W * list byte) :=
  match cs with
  | [] => Ret (w, [])
  | (name, args) :: cs' =>
      match handlers !! name with
      | None => exec_commands cs' w
      | Some h =>
          '(w1, r) ← dispatch h name args w;
          '(w2, out) ← exec_commands cs' w1;
          Ret (w2, Marshal r ++ out)
      end
  end.

Definition request_value (c : gostring * list Value) : Value := VArray (VBulk c.1 :: c.2).

(** A request that fits the read buffer, with an upper-case name. *)
Definition request_ok (c : gostring * list Value) : Prop :=
  is_upper c.1 = true ∧ wf_value (request_value c) = true ∧ length (Marshal (request_value c)) ≤ bufSize.

Lemma Marshal_nonempty v : wf_value v = true → Marshal v ≠ [].
Proof. intros Hv E. apply Marshal_pos in Hv. rewrite E in Hv. simpl in Hv. lia. Qed.

Lemma Resp_Read_segment v rest conn :
  wf_value v = true → length (Marshal v ++ rest) ≤ bufSize →
  Resp_Read (NewReader ((Marshal v ++ rest) :: conn)) = Ret (mkReader rest ([] :: conn), inr v).
Proof.
  intros Hv Hl. rewrite Resp_Read_fresh; [by apply Resp_Read_buffered| |done].
  intros E. apply app_eq_nil in E as [E _]. by apply (Marshal_nonempty v).
Qed.

(** Empty segments deliver nothing. *)
Lemma Resp_Read_skip conn :
  Resp_Read (NewReader ([] :: conn)) = Resp_Read (NewReader conn) ∨
  (Resp_Read (NewReader ([] :: conn)) = Ret (NewReader ([] :: conn), inl EOF) ∧
   Resp_Read (NewReader conn) = Ret (NewReader conn, inl EOF)).
Proof.
  unfold Resp_Read. change (rd_size (NewReader ([] :: conn))) with (rd_size (NewReader conn)).
  assert (∃ n, 2 * rd_size (NewReader conn) + 1 = S n) as [n ->] by (eexists; apply Nat.add_1_r).
  cbn [Read_fuel]. unfold ReadByte. cbn [rbuf rsrc NewReader stream_Read].
  destruct (stream_Read bufSize conn) as [[[|b bs] src]|]; [by right|by left|by right].
Qed.

Lemma conn_loop_skip fuel pw auth conn out w : conn_loop fuel pw auth ([] :: conn) out w = conn_loop fuel pw auth conn out w.
Proof. destruct fuel; [done|]. cbn [conn_loop]. by destruct (Resp_Read_skip conn) as [->|[-> ->]]. Qed.

Lemma serve_request pw name args w :
  is_upper name = true →
  serve_value pw true (request_value (name, args)) w =
    match handlers !! name with
    | None => Ret (true, [], w)
    | Some h => '(w', result) ← dispatch h name args w; Ret (true, [result], w')
    end.
Proof. intros Hu. unfold serve_value. simpl. by rewrite ToUpper_is_upper. Qed.

(** An authenticated connection, one request per segment. *)
Lemma conn_loop_requests fuel pw cs out w :
  Forall request_ok cs → length cs < fuel →
  conn_loop fuel pw true ((λ c, Marshal (request_value c)) <$> cs) out w =
    '(w', o) ← exec_commands cs w; Ret (w', out ++ o).
Proof.
  intros Hcs. revert fuel out w. induction Hcs as [|[name args] cs (Hu & Hwf & Hl) _ IH]; intros fuel out w Hf;
    (destruct fuel as [|f]; [simpl in Hf; lia|]).
  - simpl. by rewrite app_nil_r.
  - rewrite fmap_cons. cbn [conn_loop]. cbv beta.
    rewrite <-(app_nil_r (Marshal (request_value (name, args)))).
    rewrite Resp_Read_segment by (rewrite ?app_nil_r; done). cbn [mbind go_bind rsrc].
    rewrite serve_request by done. cbn [exec_commands]. destruct (handlers !! name) as [h|].
    + destruct (dispatch h name args w) as [[w1 r]| | |]; cbn [mbind go_bind]; [|done..].
      rewrite conn_loop_skip. cbn [foldl]. unfold Writer_Write. rewrite IH by (simpl in Hf; lia).
      destruct (exec_commands cs w1) as [[w2 o]| | |]; cbn [mbind go_bind]; [|done..]. by rewrite app_assoc.
    + cbn [mbind go_bind foldl]. rewrite conn_loop_skip. apply IH. simpl in Hf. lia.
Qed.

(** The values the loop reads from a connection, whatever it does with them. *)
Fixpoint conn_values (fuel : nat) (conn : stream) : list Value :=
  match fuel with
  | O => []
  | S f =>
      match Resp_Read (NewReader conn) with
      | Ret (rd, inr v) => v :: conn_values f (rsrc rd)
      | _ => []
      end
  end.

(** The value is an [AUTH] with the right password. *)
Definition authenticates (password : gostring) (v : Value) : bool :=
  match v_Type v, v_Array v with
  | TypeArray, x :: a :: _ => bool_decide (ToUpper (v_Bulk x) = str "AUTH") && bool_decide (v_Bulk a = password)
  | _, _ => false
  end.

Lemma serve_unauthenticated pw v w :
  authenticates pw v = false → ∃ rs, serve_value pw false v w = Ret (false, rs, w) ∧ Forall (λ r, v_Type r = TypeError) rs.
Proof.
  intros Ha. unfold serve_value, authenticates in *.
  destruct (v_Type v); try by (eexists; split; [done|constructor]).
  destruct (v_Array v) as [|x args]; [by (eexists; split; [done|constructor])|]. cbn [negb].
  destruct (bool_decide (ToUpper (v_Bulk x) = str "AUTH")); [|eexists; split; [done|by repeat constructor]].
  destruct args as [|a args]; [eexists; split; [done|by repeat constructor]|]. cbn [andb] in Ha.
  rewrite Ha. eexists; split; [done|by repeat constructor].
Qed.

Lemma conn_loop_unauthenticated fuel pw conn out w w' out' :
  Forall (λ v, authenticates pw v = false) (conn_values fuel conn) →
  conn_loop fuel pw false conn out w = Ret (w', out') → w' = w.
Proof.
  revert conn out; induction fuel as [|f IH]; intros conn out Hv E; [done|]. cbn [conn_loop conn_values] in *.
  destruct (Resp_Read (NewReader conn)) as [[rd [e|v]]| | |]; simplify_eq/=; [done|].
  apply Forall_cons in Hv as [Hv Hvs]. destruct (serve_unauthenticated pw v w Hv) as (rs & E' & _).
  rewrite E' in E. simpl in E. eauto.
Qed.
End network.

(** The three transports that share the loop. *)
Record TCP := mkTCP { tcp_addr : gostring; tcp_maxConns : Z; tcp_password : gostring }.
Record TLS := mkTLS { tls_addr : gostring; tls_cert : gostring; tls_key : gostring; tls_maxConns : Z; tls_password : gostring }.
Record Unix := mkUnix { unix_path : gostring; unix_maxConns : Z; unix_password : gostring }.

Definition NewTCP (addr : gostring) (maxConns : Z) (password : gostring) : TCP := mkTCP addr maxConns password.
Definition NewTLS (addr certFile keyFile : gostring) (maxConns : Z) (password : gostring) : TLS := mkTLS addr certFile keyFile maxConns password.
Definition NewUnix (path : gostring) (maxConns : Z) (password : gostring) : Unix := mkUnix path maxConns password.

(** The two that serve requests: only the address, no password. *)
Record HTTP := mkHTTP { http_addr : gostring }.
Record GRPC := mkGRPC { grpc_addr : gostring }.
Definition NewHTTP (addr : gostring) : HTTP := mkHTTP addr.
Definition NewGRPC (addr : gostring) : GRPC := mkGRPC addr.

Definition TCP_handleConn `{!UnicodeUpper} {W} h (o : option (gostring → list Value → W → go W)) (t : TCP) :=
  handleConn h o (tcp_password t).
Definition TLS_handleConn `{!UnicodeUpper} {W} h (o : option (gostring → list Value → W → go W)) (t : TLS) :=
  handleConn h o (tls_password t).
Definition Unix_handleConn `{!UnicodeUpper} {W} h (o : option (gostring → list Value → W → go W)) (u : Unix) :=
  handleConn h o (unix_password u).

(** ** The accept loop and its semaphore

    [sem] is the buffered channel: its capacity and the tokens in it. *)
Record Listener := mkListener { ls_sem : option (nat * nat); ls_active : nat }.

Definition Listen_start (maxConns : Z) : Listener :=
  mkListener (if (0 <? maxConns)%Z then Some (Z.to_nat maxConns, 0) else None) 0.

(** [Accept] returned a connection: is it served (a goroutine is started)? *)
Definition on_accept (l : Listener) : Listener * bool :=
  match ls_sem l with
  | None => (mkListener None (ls_active l + 1), true)
  | Some (cap, used) =>
      if bool_decide (used < cap) then (mkListener (Some (cap, used + 1)) (ls_active l + 1), true) else (l, false)
  end.

(** [handleConn] of a served connection returned: its deferred calls. *)
Definition on_return (l : Listener) : Listener :=
  mkListener (match ls_sem l with Some (cap, used) => Some (cap, used - 1) | None => None end) (ls_active l - 1).

Inductive listen_step : Listener → Listener → Prop :=
| step_accept l : listen_step l (on_accept l).1
| step_return l : 0 < ls_active l → listen_step l (on_return l).

Inductive listening (maxConns : Z) : Listener → Prop :=
| listening_start : listening maxConns (Listen_start maxConns)
| listening_step l l' : listening maxConns l → listen_step l l' → listening maxConns l'.

Lemma listening_sem maxConns l :
  (0 < maxConns)%Z → listening maxConns l →
  ls_sem l = Some (Z.to_nat maxConns, ls_active l) ∧ ls_active l ≤ Z.to_nat maxConns.
Proof.
  intros Hm. induction 1 as [|l l' _ [IH1 IH2] Hs].
  - unfold Listen_start. rewrite (proj2 (Z.ltb_lt _ _) Hm). simpl. split; [done|lia].
  - destruct Hs as [l|l Ha]; unfold on_accept, on_return; rewrite IH1; simpl; [|split; [done|lia]].
    case_bool_decide; simpl; [split; [done|lia]|done].
Qed.

(** ** Theorems *)
Section theorems.
Context `{!UnicodeUpper} {W : Type}.
Context (handlers : gmap gostring (list Value → W → go (W * Value))).
Context (onWrite : option (gostring → list Value → W → go W)).

Lemma requests_size (cs : list (gostring * list Value)) :
  Forall request_ok cs → length cs ≤ stream_size ((λ c, Marshal (request_value c)) <$> cs).
Proof.
  induction 1 as [|c cs (_ & Hwf & _) _ IH]; [done|]. rewrite fmap_cons. cbn [stream_size length].
  pose proof (Marshal_pos _ Hwf). lia.
Qed.

Lemma handleConn_requests (cs : list (gostring * list Value)) (w : W) :
  Forall request_ok cs →
  handleConn handlers onWrite [] ((λ c, Marshal (request_value c)) <$> cs) w = exec_commands handlers onWrite cs w.
Proof.
  intros Hcs. unfold handleConn. pose proof (requests_size cs Hcs).
  change (bool_decide ([] = [])) with true. rewrite conn_loop_requests by (done || lia).
  destruct (exec_commands handlers onWrite cs w) as [[w' o]| | |]; done.
Qed.

(** C20: On an open server a client that sends one request per segment, each a
    well-formed array of at most 4096 bytes with an upper-case name, gets
    exactly one reply per known command, in order, and the state changes as
    if the commands had been executed one after the other (log callback
    first, then handler); unknown commands get no reply. *)
Theorem conn_serves_requests (cs : list (gostring * list Value)) (w : W) :
  Forall request_ok cs →
  handleConn handlers onWrite [] ((λ c, Marshal (request_value c)) <$> cs) w = exec_commands handlers onWrite cs w.
Proof. apply handleConn_requests. Qed.

(** With a password set, a client that authenticates first is answered
    "OK" and then served like on an open server. *)
Theorem conn_auth_then_requests (password : gostring) (cs : list (gostring * list Value)) (w : W) :
  password ≠ [] → request_ok (str "AUTH", [VBulk password]) → Forall request_ok cs →
  handleConn handlers onWrite password
    (Marshal (request_value (str "AUTH", [VBulk password])) :: ((λ c, Marshal (request_value c)) <$> cs)) w =
  '(w', o) ← exec_commands handlers onWrite cs w; Ret (w', Marshal (VString (str "OK")) ++ o).
Proof.
  intros Hp (Hu & Hwf & Hl) Hcs. pose proof (requests_size cs Hcs) as Hsz.
  unfold handleConn. rewrite bool_decide_eq_false_2 by done.
  set (v := request_value (str "AUTH", [VBulk password])) in *.
  cbn [stream_size]. pose proof (Marshal_pos v Hwf) as Hpos. rewrite Nat.add_1_r. cbn [conn_loop].
  rewrite <-(app_nil_r (Marshal v)). rewrite Resp_Read_segment by (rewrite ?app_nil_r; done). cbn [mbind go_bind rsrc].
  assert (serve_value handlers onWrite password false v w = Ret (true, [VString (str "OK")], w)) as ->.
  { unfold serve_value, v, request_value, VArray. cbn [v_Type v_Array negb fst snd v_Bulk VBulk]. rewrite ToUpper_is_upper by done. rewrite !bool_decide_eq_true_2 by done. done. }
  cbn [mbind go_bind foldl]. rewrite conn_loop_skip. apply conn_loop_requests; [done|rewrite ?app_nil_r; lia].
Qed.

(** C21: With a password set, nothing is executed before authentication: as
    long as the client sends no [AUTH] with the right password, neither a
    handler nor the log callback runs, whatever bytes it sends and however
    they are cut into segments. *)
Theorem conn_auth_required (password : gostring) (conn : stream) (w w' : W) (out : list byte) :
  password ≠ [] →
  Forall (λ v, authenticates password v = false) (conn_values (stream_size conn + 1) conn) →
  handleConn handlers onWrite password conn w = Ret (w', out) → w' = w.
Proof.
  intros Hp Hv E. unfold handleConn in E. rewrite bool_decide_eq_false_2 in E by done.
  by eapply conn_loop_unauthenticated.
Qed.

(** A request that arrives in the same segment as an earlier one is
    dropped: the loop throws the buffered reader, and the bytes it holds,
    away after every value. *)
Theorem conn_pipelined_lost (c : gostring * list Value) (rest : list byte) (w : W) :
  request_ok c → length (Marshal (request_value c) ++ rest) ≤ bufSize →
  handleConn handlers onWrite [] [Marshal (request_value c) ++ rest] w = exec_commands handlers onWrite [c] w.
Proof.
  intros (Hu & Hwf & _) Hl. unfold handleConn. change (bool_decide ([] = [])) with true.
  rewrite Nat.add_1_r. cbn [stream_size conn_loop]. rewrite Resp_Read_segment by done. cbn [mbind go_bind rsrc].
  destruct c as [name args]. rewrite serve_request by done. cbn [exec_commands].
  pose proof (Marshal_pos _ Hwf) as Hpos. rewrite length_app.
  assert (∃ n, length (Marshal (request_value (name, args))) + length rest + 0 = S n) as [n ->].
  { exists (length (Marshal (request_value (name, args))) + length rest - 1). lia. }
  destruct (handlers !! name) as [h|]; [|done].
  destruct (dispatch onWrite h name args w) as [[w1 r]| | |]; cbn [mbind go_bind]; [|done..].
  rewrite app_nil_r. done.
Qed.

(** A connection loop ends with its input: on any bytes, if the handlers
    and the log callback come back, [handleConn] returns or panics in the
    parser. *)
Theorem conn_terminates (password : gostring) (conn : stream) (w : W) :
  (∀ name h args w0, handlers !! name = Some h → returns (dispatch onWrite h name args w0)) →
  handleConn handlers onWrite password conn w = Panic ∨ returns (handleConn handlers onWrite password conn w).
Proof.
  intros Hret. unfold handleConn. generalize (bool_decide (password = [])) as auth. intros auth.
  generalize (@nil byte) as out. intros out. assert (stream_size conn < stream_size conn + 1) as Hf by lia. revert Hf.
  generalize (stream_size conn + 1) as fuel. intros fuel. revert conn auth out w.
  induction fuel as [|f IH]; intros conn auth out w Hf; [lia|]. cbn [conn_loop].
  destruct (proj1 (Read_fuel_total (2 * rd_size (NewReader conn) + 1)) (NewReader conn)) as [E|(rd & v & E & Hle & Hp)];
    [lia| |]; fold (Resp_Read (NewReader conn)) in E; rewrite E; cbn [mbind go_bind]; [by left|].
  destruct v as [e|v]; [right; by eexists|].
  assert (∃ r, serve_value handlers onWrite password auth v w = Ret r) as [[[auth' rs] w1] ->].
  { unfold serve_value. repeat case_match; try by eexists.
    match goal with Hh : handlers !! _ = Some _, a : list Value |- _ => destruct (Hret _ _ a w Hh) as [[w' r] ->] end.
    by eexists. }
  cbn [mbind go_bind]. apply IH. unfold rd_size in *. simpl in Hp. lia.
Qed.

(** The same command has the same effect over HTTP and over gRPC, and
    both transports answer with the reply of the handler. *)
Theorem http_grpc_agree (name : gostring) (args : list gostring) (w w' : W) (pb : ResponseValue) :
  is_Some (handlers !! ToUpper name) →
  Exec handlers onWrite name args w = Ret (w', pb) →
  ∃ v, pb = respValueToProto v ∧
    handleCommand handlers onWrite (mkRequest (str "POST") (Some (name :: args))) w = Ret (w', (200%Z, respToJSON v)).
Proof.
  intros [h Hh] E. unfold Exec, handleCommand in *. rewrite Hh in *. rewrite bool_decide_eq_true_2 by done. simpl.
  rewrite Hh. destruct (dispatch onWrite h (ToUpper name) _ w) as [[w1 r]| | |]; simplify_eq/=. by exists r.
Qed.
End theorems.

(** The connection limit: with [maxConns > 0] never more than [maxConns]
    connections are served at a time, and a connection is refused only when
    that many are. *)
Theorem conn_limit (maxConns : Z) (l : Listener) :
  (0 < maxConns)%Z → listening maxConns l →
  (Z.of_nat (ls_active l) ≤ maxConns)%Z ∧
  ((on_accept l).2 = false ↔ Z.of_nat (ls_active l) = maxConns).
Proof.
  intros Hm Hl. destruct (listening_sem maxConns l Hm Hl) as [Hs Ha]. split; [lia|].
  unfold on_accept. rewrite Hs. case_bool_decide; simpl; split; (done || lia).
Qed.

(** ** Witnesses: a server that counts the commands it has served *)
#[local] Instance upper_id : UnicodeUpper := λ s, s.

Definition count_handlers : gmap gostring (list Value → nat → go (nat * Value)) :=
  {[ str "PING" := λ args n, Ret (S n, VString (str "PONG")) ]}.
Definition count_write : option (gostring → list Value → nat → go nat) := Some (λ _ _ n, Ret (n + 10)).

Definition ping_req : gostring * list Value := (str "PING", []).
Definition nope_req : gostring * list Value := (str "NOPE", [VBulk (str "x")]).
Definition auth_req : gostring * list Value := (str "AUTH", [VBulk (str "secret")]).

Lemma ping_req_ok : request_ok ping_req.
Proof. split_and!; [reflexivity..|]. apply Nat.leb_le. vm_compute. reflexivity. Qed.
Lemma nope_req_ok : request_ok nope_req.
Proof. split_and!; [reflexivity..|]. apply Nat.leb_le. vm_compute. reflexivity. Qed.
Lemma auth_req_ok : request_ok auth_req.
Proof. split_and!; [reflexivity..|]. apply Nat.leb_le. vm_compute. reflexivity. Qed.

Lemma conn_serves_requests_witness :
  handleConn count_handlers count_write [] ((λ c, Marshal (request_value c)) <$> [ping_req; nope_req; ping_req]) 0
    = Ret (22, str "+PONG" ++ CRLF ++ str "+PONG" ++ CRLF).
Proof.
  rewrite conn_serves_requests; [vm_compute; reflexivity|].
  apply Forall_cons_2; [apply ping_req_ok|]. apply Forall_cons_2; [apply nope_req_ok|].
  apply Forall_cons_2; [apply ping_req_ok|]. apply Forall_nil_2.
Defined.

Lemma conn_auth_then_requests_witness :
  handleConn count_handlers count_write (str "secret")
    (Marshal (request_value auth_req) :: ((λ c, Marshal (request_value c)) <$> [ping_req])) 0
    = Ret (11, str "+OK" ++ CRLF ++ str "+PONG" ++ CRLF).
Proof.
  unfold auth_req. rewrite conn_auth_then_requests; [vm_compute; reflexivity|discriminate|apply auth_req_ok|].
  apply Forall_cons_2; [apply ping_req_ok|apply Forall_nil_2].
Defined.

Lemma conn_auth_required_witness :
  ∃ w' out, handleConn count_handlers count_write (str "secret") [Marshal (request_value ping_req)] 7 = Ret (w', out) ∧ w' = 7.
Proof.
  destruct (handleConn count_handlers count_write (str "secret") [Marshal (request_value ping_req)] 7)
    as [[w' out]| | |] eqn:E; [|vm_compute in E; discriminate E..].
  exists w', out. split; [reflexivity|].
  apply (conn_auth_required count_handlers count_write (str "secret") [Marshal (request_value ping_req)] 7 w' out).
  - discriminate.
  - vm_compute. repeat constructor.
  - exact E.
Defined.

Lemma conn_pipelined_lost_witness :
  handleConn count_handlers count_write [] [Marshal (request_value ping_req) ++ Marshal (request_value ping_req)] 0
    = Ret (11, str "+PONG" ++ CRLF).
Proof.
  rewrite conn_pipelined_lost; [vm_compute; reflexivity|apply ping_req_ok|]. apply Nat.leb_le. vm_compute. reflexivity.
Defined.

Lemma conn_terminates_witness :
  let conn := [str "*1"; CRLF ++ str "$-5" ++ CRLF; str "junk"] in
  handleConn count_handlers count_write [] conn 0 = Panic ∨ returns (handleConn count_handlers count_write [] conn 0).
Proof.
  intros conn. apply conn_terminates. intros name h args w Hh. unfold count_handlers in Hh.
  apply lookup_singleton_Some in Hh as [_ <-]. by eexists.
Defined.

Lemma http_grpc_agree_witness :
  ∃ v, mkResponse TypeString (str "PONG") 0 [] [] = respValueToProto v ∧
    handleCommand count_handlers count_write (mkRequest (str "POST") (Some [str "ping"])) 0 = Ret (11, (200%Z, respToJSON v)).
Proof.
  apply (http_grpc_agree count_handlers count_write (str "ping") []).
  - eexists. vm_compute. reflexivity.
  - vm_compute. reflexivity.
Defined.

Lemma conn_limit_witness :
  let l := (on_accept (on_accept (Listen_start 2)).1).1 in
  (Z.of_nat (ls_active l) ≤ 2)%Z ∧ ((on_accept l).2 = false ↔ Z.of_nat (ls_active l) = 2%Z).
Proof.
  apply conn_limit; [lia|]. eapply listening_step; [|apply step_accept].
  eapply listening_step; [|apply step_accept]. apply listening_start.
Defined.
