(* ===== verification/Lifecycle.v ===== *)
(** * Lifecycle: starting and stopping the server, src/network/*.go and src/main.go

    [n.Listen] runs in a goroutine of its own while [main] waits for a signal
    or for its error and then closes the parts.  A [Listen] method is the list
    of its statements; [act] names who runs next and what the environment
    answers, and [exec] is the step of the whole program.  The theorems are
    about all reachable worlds, so about all interleavings. *)

From stdpp Require Import base list gmap strings.
From Stdlib Require Import ZArith Lia Ascii.
From S2P Require Import Prelude GoLib StoreSpec GoIO Resp Network.

Inductive transport := KTCP | KTLS | KUnix | KHTTP | KGRPC.

#[global] Instance transport_eq_dec : EqDecision transport.
Proof. solve_decision. Defined.

(** ** The Listen methods *)
Inductive stmt :=
| SLoadCert (msg : gostring)      (* tls.LoadX509KeyPair *)
| SRemove                         (* os.Remove(u.path), its error ignored *)
| SBind (msg : gostring)          (* ln, err := net.Listen(...) *)
| SSetLn                          (* t.ln = ln *)
| SSem                            (* if t.maxConns > 0 { t.sem = make(...) } *)
| SSetSrv                         (* h.srv = ... *)
| SAccept (msg : gostring)        (* for { conn, err := ln.Accept(); ... } *)
| SServe.                         (* return h.srv.Serve(ln) *)

#[global] Instance stmt_eq_dec : EqDecision stmt.
Proof. solve_decision. Defined.

Definition TCP_Listen : list stmt := [SBind (str "tcp: listen: "); SSetLn; SSem; SAccept (str "tcp: accept: ")].
Definition TLS_Listen : list stmt :=
  [SLoadCert (str "tls: load cert: "); SBind (str "tls: listen: "); SSetLn; SSem; SAccept (str "tls: accept: ")].
Definition Unix_Listen : list stmt := [SRemove; SBind (str "unix: listen: "); SSetLn; SSem; SAccept (str "unix: accept: ")].
Definition HTTP_Listen : list stmt := [SBind (str "http: listen: "); SSetLn; SSetSrv; SServe].
Definition GRPC_Listen : list stmt := [SBind (str "grpc: listen: "); SSetLn; SSetSrv; SServe].

Definition Listen (t : transport) : list stmt :=
  match t with KTCP => TCP_Listen | KTLS => TLS_Listen | KUnix => Unix_Listen | KHTTP => HTTP_Listen | KGRPC => GRPC_Listen end.

(** ** The program *)

(** The goroutine of [n.Listen]: what is left of it, its error, or the error
    is in the channel. *)
Inductive lstate := LRunning (rest : list stmt) | LReturned (err : option gostring) | LSent.

(** [main] from its select statement on. *)
Inductive mstate := MSelect | MClose | MGraceful | MWait | MLog | MStore | MExit.

#[global] Instance mstate_eq_dec : EqDecision mstate.
Proof. solve_decision. Defined.

Inductive event := EvCommand | EvLogClosed | EvStoreClosed.

#[global] Instance event_eq_dec : EqDecision event.
Proof. solve_decision. Defined.

Record world := mkWorld {
  w_listen : lstate;
  w_sock : option bool;            (* the listening socket: is it open? *)
  w_ln : bool;                     (* t.ln != nil *)
  w_srv : option bool;             (* h.srv: is it running? *)
  w_conns : Listener;              (* the semaphore and the served connections *)
  w_errCh : option (option gostring); (* errCh, of capacity 1 *)
  w_signal : bool;                 (* ctx.Done() is closed *)
  w_main : mstate;
  w_byErr : bool;                  (* the select took the error *)
  w_events : list event
}.

Definition start (t : transport) : world :=
  mkWorld (LRunning (Listen t)) None false None (mkListener None 0) None false MSelect false [].

Definition set_listen (l : lstate) (w : world) : world :=
  mkWorld l (w_sock w) (w_ln w) (w_srv w) (w_conns w) (w_errCh w) (w_signal w) (w_main w) (w_byErr w) (w_events w).
Definition set_main (m : mstate) (w : world) : world :=
  mkWorld (w_listen w) (w_sock w) (w_ln w) (w_srv w) (w_conns w) (w_errCh w) (w_signal w) m (w_byErr w) (w_events w).
Definition set_conns (c : Listener) (w : world) : world :=
  mkWorld (w_listen w) (w_sock w) (w_ln w) (w_srv w) c (w_errCh w) (w_signal w) (w_main w) (w_byErr w) (w_events w).
Definition set_sock (s : option bool) (w : world) : world :=
  mkWorld (w_listen w) s (w_ln w) (w_srv w) (w_conns w) (w_errCh w) (w_signal w) (w_main w) (w_byErr w) (w_events w).
Definition set_ln (w : world) : world :=
  mkWorld (w_listen w) (w_sock w) true (w_srv w) (w_conns w) (w_errCh w) (w_signal w) (w_main w) (w_byErr w) (w_events w).
Definition set_srv (s : option bool) (w : world) : world :=
  mkWorld (w_listen w) (w_sock w) (w_ln w) s (w_conns w) (w_errCh w) (w_signal w) (w_main w) (w_byErr w) (w_events w).
Definition set_errCh (c : option (option gostring)) (w : world) : world :=
  mkWorld (w_listen w) (w_sock w) (w_ln w) (w_srv w) (w_conns w) c (w_signal w) (w_main w) (w_byErr w) (w_events w).
Definition signalled (w : world) : world :=
  mkWorld (w_listen w) (w_sock w) (w_ln w) (w_srv w) (w_conns w) (w_errCh w) true (w_main w) (w_byErr w) (w_events w).
Definition took_err (w : world) : world :=
  mkWorld (w_listen w) (w_sock w) (w_ln w) (w_srv w) (w_conns w) None (w_signal w) MClose true (w_events w).
Definition emit_ev (e : event) (w : world) : world :=
  mkWorld (w_listen w) (w_sock w) (w_ln w) (w_srv w) (w_conns w) (w_errCh w) (w_signal w) (w_main w) (w_byErr w) (w_events w ++ [e]).

(** What a call of the operating system answers: success, an error, or (only
    [Serve] of a gRPC server) a return without error. *)
Inductive answer := Ok_ | Err_ (e : gostring) | Stopped.

(** One statement of [Listen]; an [Accept] or [Serve] that answers [Ok_] got a
    connection, which it can only while the socket is open. *)
Definition listen_stmt (maxConns : Z) (s : stmt) (rest : list stmt) (a : answer) (w : world) : option world :=
  match s, a with
  | SLoadCert m, Err_ e | SBind m, Err_ e | SAccept m, Err_ e => Some (set_listen (LReturned (Some (m ++ e))) w)
  | SLoadCert _, Ok_ => Some (set_listen (LRunning rest) w)
  | SRemove, (Ok_ | Err_ _) => Some (set_listen (LRunning rest) w)
  | SBind _, Ok_ => Some (set_listen (LRunning rest) (set_sock (Some true) w))
  | SSetLn, Ok_ => Some (set_listen (LRunning rest) (set_ln w))
  | SSem, Ok_ => Some (set_listen (LRunning rest) (set_conns (Listen_start maxConns) w))
  | SSetSrv, Ok_ => Some (set_listen (LRunning rest) (set_srv (Some true) w))
  | SAccept _, Ok_ => if bool_decide (w_sock w = Some true) then Some (set_conns (on_accept (w_conns w)).1 w) else None
  | SServe, Ok_ =>
      if bool_decide (w_sock w = Some true) && bool_decide (w_srv w = Some true) then Some (set_conns (on_accept (w_conns w)).1 w) else None
  | SServe, Err_ e => Some (set_listen (LReturned (Some e)) w)
  | SServe, Stopped => if bool_decide (w_srv w = Some false) then Some (set_listen (LReturned None) w) else None
  | _, _ => None
  end.

(** ** The Close methods *)
Definition TCP_Close (w : world) : world := if w_ln w then set_sock (Some false) w else w.
Definition TLS_Close (w : world) : world := if w_ln w then set_sock (Some false) w else w.
Definition Unix_Close (w : world) : world := if w_ln w then set_sock (Some false) w else w.
Definition HTTP_Close (w : world) : world :=
  match w_srv w with Some _ => set_srv (Some false) (set_sock (Some false) w) | None => w end.
(** [GracefulStop] closes the listener and then waits for the calls in
    progress, which is the state [MGraceful]. *)
Definition GRPC_Close (w : world) : world * bool :=
  match w_srv w with Some _ => (set_srv (Some false) (set_sock (Some false) w), true) | None => (w, false) end.

(** [n.Close()] and where [main] goes on. *)
Definition n_Close (t : transport) (w : world) : world :=
  match t with
  | KTCP => set_main MWait (TCP_Close w)
  | KTLS => set_main MWait (TLS_Close w)
  | KUnix => set_main MWait (Unix_Close w)
  | KHTTP => set_main MWait (HTTP_Close w)
  | KGRPC => let '(w', waits) := GRPC_Close w in set_main (if waits then MGraceful else MWait) w'
  end.

(** [Addr()] is the address of the socket once [Listen] has stored it. *)
Definition TCP_Addr (addr : gostring) (w : world) : option gostring := if w_ln w then Some addr else None.
Definition TLS_Addr (addr : gostring) (w : world) : option gostring := if w_ln w then Some addr else None.
Definition Unix_Addr (addr : gostring) (w : world) : option gostring := if w_ln w then Some addr else None.
Definition HTTP_Addr (addr : gostring) (w : world) : option gostring := if w_ln w then Some addr else None.
Definition GRPC_Addr (addr : gostring) (w : world) : option gostring := if w_ln w then Some addr else None.
Definition Addr (t : transport) : gostring → world → option gostring :=
  match t with KTCP => TCP_Addr | KTLS => TLS_Addr | KUnix => Unix_Addr | KHTTP => HTTP_Addr | KGRPC => GRPC_Addr end.

(** A statement of [main]; in the select, [b] chooses the case. *)
Definition main_stmt (t : transport) (b : bool) (w : world) : option world :=
  match w_main w with
  | MSelect => if b then (if w_signal w then Some (set_main MClose w) else None)
               else match w_errCh w with Some _ => Some (took_err w) | None => None end
  | MClose => Some (n_Close t w)
  | MGraceful => if bool_decide (ls_active (w_conns w) = 0) then Some (set_main MWait w) else None
  | MWait => match w_errCh w with Some _ => Some (set_main MLog (set_errCh None w)) | None => None end
  | MLog => Some (set_main MStore (emit_ev EvLogClosed w))
  | MStore => Some (set_main MExit (emit_ev EvStoreClosed w))
  | MExit => None
  end.

(** Who runs: the goroutine of [Listen], its send to the channel, [main], a
    served connection (a command, or its end), the signal. *)
Inductive act := AListen (a : answer) | ASend | AMain (b : bool) | ACommand | AConnEnd | ASignal.

Definition exec (t : transport) (maxConns : Z) (a : act) (w : world) : option world :=
  match a with
  | AListen o => match w_listen w with LRunning (s :: rest) => listen_stmt maxConns s rest o w | _ => None end
  | ASend =>
      match w_listen w, w_errCh w with
      | LReturned e, None => Some (set_listen LSent (set_errCh (Some e) w))
      | _, _ => None
      end
  | AMain b => main_stmt t b w
  | ACommand => if bool_decide (0 < ls_active (w_conns w)) then Some (emit_ev EvCommand w) else None
  | AConnEnd => if bool_decide (0 < ls_active (w_conns w)) then Some (set_conns (on_return (w_conns w)) w) else None
  | ASignal => Some (signalled w)
  end.

Fixpoint exec_all (t : transport) (maxConns : Z) (l : list act) (w : world) : option world :=
  match l with
  | [] => Some w
  | a :: l' => match exec t maxConns a w with Some w' => exec_all t maxConns l' w' | None => None end
  end.

Inductive reachable (t : transport) (maxConns : Z) : world → Prop :=
| reach_start : reachable t maxConns (start t)
| reach_step w w' a : reachable t maxConns w → exec t maxConns a w = Some w' → reachable t maxConns w'.

(** ** Invariants *)

Definition is_close (e : event) : bool := match e with EvCommand => false | _ => true end.
Definition closes (w : world) : list event := filter (λ e, is_close e) (w_events w).

(** What each state of [main] says about the channel and the closed parts. *)
Definition main_inv (w : world) : Prop :=
  if w_byErr w then w_main w ∈ [MClose; MGraceful; MWait] ∧ w_listen w = LSent ∧ w_errCh w = None ∧ closes w = []
  else
    match w_main w with
    | MSelect | MClose | MGraceful | MWait => (w_listen w = LSent ↔ w_errCh w ≠ None) ∧ closes w = []
    | MLog => w_listen w = LSent ∧ w_errCh w = None ∧ closes w = []
    | MStore => w_listen w = LSent ∧ w_errCh w = None ∧ closes w = [EvLogClosed]
    | MExit => w_listen w = LSent ∧ w_errCh w = None ∧ closes w = [EvLogClosed; EvStoreClosed]
    end.

(** How far [Listen] is and what it has set. *)
Definition listen_inv (t : transport) (w : world) : Prop :=
  match w_listen w with
  | LRunning rest =>
      rest `suffix_of` Listen t ∧ rest ≠ [] ∧ (Exists (λ s, ∃ m, s = SBind m) rest → w_sock w = None) ∧
      (SSetLn ∈ rest → w_ln w = false) ∧ (SSetSrv ∈ rest → w_srv w = None)
  | _ => True
  end.

Lemma main_inv_step t maxConns a w w' : main_inv w → exec t maxConns a w = Some w' → main_inv w'.
Proof.
  destruct w as [l s n v c e sg m b ev]. unfold main_inv, closes. simpl. intros Hi H. destruct a; simpl in H.
  - (* Listen *)
    assert (∃ l' s' n' v' c', w' = mkWorld l' s' n' v' c' e sg m b ev ∧ (l' = LSent → l = LSent) ∧ l ≠ LSent) as (l' & s' & n' & v' & c' & -> & H1 & H2).
    { unfold listen_stmt in H. repeat (case_match; simplify_eq/=); eexists _, _, _, _, _; (split; [reflexivity|]); naive_solver. }
    simpl. destruct b; [naive_solver|]. destruct m; naive_solver.
  - destruct l as [|x|], e; simplify_eq/=. destruct b; [naive_solver|]. destruct m; naive_solver.
  - unfold main_stmt, n_Close, TCP_Close, TLS_Close, Unix_Close, HTTP_Close, GRPC_Close in H. simpl in H. destruct b.
    + destruct Hi as (Hm & -> & -> & Hc). destruct m; try (exfalso; set_solver); simplify_eq/=;
        repeat (case_match; simplify_eq/=); split_and!; try done; set_solver.
    + destruct m; simplify_eq/=.
      * destruct Hi as [Hi Hc]. destruct b0; repeat (case_match; simplify_eq/=); [done|]. split_and!; [set_solver|by apply Hi|done..].
      * repeat (case_match; simplify_eq/=); done.
      * case_match; simplify_eq/=. done.
      * destruct Hi as [Hi Hc]. case_match; simplify_eq/=. split_and!; [by apply Hi|done|done].
      * rewrite filter_app. destruct Hi as (? & ? & ->). done.
      * rewrite filter_app. destruct Hi as (? & ? & ->). done.
  - case_bool_decide; simplify_eq/=. rewrite filter_app. change (filter (λ e, is_close e) [EvCommand]) with (@nil event). by rewrite app_nil_r.
  - case_bool_decide; simplify_eq/=. done.
  - simplify_eq/=. done.
Qed.

Lemma suffix_tail (s : stmt) rest l : s :: rest `suffix_of` l → rest `suffix_of` l.
Proof. intros [k ->]. exists (k ++ [s]). by rewrite <-app_assoc. Qed.

(** Binding, storing the listener and making the server happen once. *)
Lemma suffix_once t s rest :
  s :: rest `suffix_of` Listen t →
  match s with
  | SBind _ => ¬ Exists (λ s, ∃ m, s = SBind m) rest ∧ rest ≠ []
  | SSetLn => (SSetLn ∉ rest) ∧ rest ≠ []
  | SSetSrv => (SSetSrv ∉ rest) ∧ rest ≠ []
  | SAccept _ | SServe => rest = []
  | _ => rest ≠ []
  end.
Proof.
  intros [k Hk]. destruct t; cbn [Listen] in Hk; unfold TCP_Listen, TLS_Listen, Unix_Listen, HTTP_Listen, GRPC_Listen in Hk;
    destruct k as [|? [|? [|? [|? [|? k]]]]]; simplify_eq/=; try (by destruct k); rewrite ?Exists_cons, ?Exists_nil; try done; (split; [|done]); set_solver.
Qed.

Lemma bind_first t rest :
  rest `suffix_of` Listen t → Exists (λ s, ∃ m, s = SBind m) rest → SSetLn ∈ rest ∧ (t = KHTTP ∨ t = KGRPC → SSetSrv ∈ rest).
Proof.
  intros [k Hk]. destruct t; cbn [Listen] in Hk; unfold TCP_Listen, TLS_Listen, Unix_Listen, HTTP_Listen, GRPC_Listen in Hk;
    destruct k as [|? [|? [|? [|? [|? k]]]]]; simplify_eq/=; try (destruct k, rest; simplify_eq/=); intros Hx;
    first [exfalso; repeat (apply Exists_cons in Hx as [[? ?]|Hx]; [done|]); by apply Exists_nil in Hx
          |split; [set_solver|intros [|]; [done|done]]|split; [set_solver|intros _; set_solver]].
Qed.

Lemma listen_inv_step t maxConns a w w' : listen_inv t w → exec t maxConns a w = Some w' → listen_inv t w'.
Proof.
  destruct w as [l s n v c e sg m b ev]. unfold listen_inv. simpl. intros Hi H. destruct a as [o| | | | |]; simpl in H.
  - destruct l as [[|x rest]| |]; simplify_eq/=. destruct Hi as (Hs & _ & Hb & Hn & Hv). pose proof (suffix_once t x rest Hs) as H1.
    pose proof (suffix_tail _ _ _ Hs) as Hs'. rewrite Exists_cons in Hb. setoid_rewrite elem_of_cons in Hn. setoid_rewrite elem_of_cons in Hv.
    destruct x, o; simplify_eq/=; repeat (case_match; simplify_eq/=); try done; split_and!; rewrite ?elem_of_cons, ?Exists_cons; naive_solver.
  - destruct l, e; by simplify_eq/=.
  - destruct l as [rest| |]; [|unfold main_stmt, n_Close, TCP_Close, TLS_Close, Unix_Close, HTTP_Close, GRPC_Close in H; simpl in H; repeat (case_match; simplify_eq/=); done..].
    destruct Hi as (Hs & Hne & Hb & Hn & Hv). pose proof (bind_first t rest Hs) as Hf.
    unfold main_stmt, n_Close, TCP_Close, TLS_Close, Unix_Close, HTTP_Close, GRPC_Close in H. simpl in H.
    repeat (case_match; simplify_eq/=); split_and!; try done; intros Hx;
      first [by specialize (Hv Hx)|destruct (Hf Hx) as [H1 H2]; first [by specialize (Hn H1)|by specialize (Hv (H2 ltac:(auto)))]].
  - case_bool_decide; by simplify_eq/=.
  - case_bool_decide; by simplify_eq/=.
  - by simplify_eq/=.
Qed.

Lemma reachable_inv t maxConns w : reachable t maxConns w → main_inv w ∧ listen_inv t w.
Proof.
  induction 1 as [|w w' a _ [IH1 IH2] H].
  - split; [done|]. split_and!; try done. by destruct t.
  - split; [by eapply main_inv_step|by eapply listen_inv_step].
Qed.

Lemma reachable_all t maxConns acts w w' : reachable t maxConns w → exec_all t maxConns acts w = Some w' → reachable t maxConns w'.
Proof.
  revert w; induction acts as [|a acts IH]; intros w Hr H; simplify_eq/=; [done|].
  destruct (exec t maxConns a w) as [w1|] eqn:E; [|done]. eapply IH; [|done]. by eapply reach_step.
Qed.

(** ** Stopping *)
Definition closed (t : transport) (w : world) : Prop :=
  match t with
  | KTCP | KTLS | KUnix => w_ln w = true ∧ w_sock w = Some false
  | KHTTP | KGRPC => w_srv w = Some false ∧ w_sock w = Some false
  end.

(** [main] got the signal and [Close] found something to close. *)
Definition stopping (t : transport) (w : world) : Prop :=
  w_byErr w = false ∧
  match w_main w with MGraceful | MWait => closed t w | MLog | MStore | MExit => True | _ => False end.

(** A step of [main] or of the goroutine of [Listen]. *)
Definition own (a : act) : bool := match a with AListen _ | ASend | AMain _ => true | _ => false end.

(** The steps left to both. *)
Definition left_ (w : world) : nat :=
  (match w_listen w with LRunning rest => length rest + 2 | LReturned _ => 1 | LSent => 0 end) +
  (match w_main w with MSelect => 6 | MClose => 5 | MGraceful => 4 | MWait => 3 | MLog => 2 | MStore => 1 | MExit => 0 end).

Lemma stopping_listen t maxConns o w w' :
  main_inv w → listen_inv t w → stopping t w → exec t maxConns (AListen o) w = Some w' →
  stopping t w' ∧ left_ w' < left_ w.
Proof.
  destruct w as [l s n v c e sg m b ev]. unfold main_inv, listen_inv, stopping, left_. simpl. intros Hm Hl [-> Hs] H.
  destruct l as [[|x rest]| |]; simplify_eq/=. destruct Hl as (Hsx & _ & Hb & Hn & Hv). pose proof (suffix_once t x rest Hsx) as H1.
  rewrite Exists_cons in Hb. setoid_rewrite elem_of_cons in Hn. setoid_rewrite elem_of_cons in Hv.
  assert (m = MGraceful ∨ m = MWait) as Hm' by (destruct m; naive_solver).
  assert (closed t (mkWorld (LRunning (x :: rest)) s n v c e sg m false ev)) as Hc by (destruct m; naive_solver). clear Hs.
  assert (s = Some false) as -> by (unfold closed in Hc; destruct t; naive_solver).
  unfold closed in *. destruct Hm' as [-> | ->]; (destruct x, o; simplify_eq/=; repeat (case_bool_decide; simplify_eq/=);
    (split; [|lia]); (split; [done|]); destruct t; simpl in *; naive_solver).
Qed.

Lemma stopping_main t maxConns b w w' :
  stopping t w → exec t maxConns (AMain b) w = Some w' → stopping t w' ∧ left_ w' < left_ w.
Proof.
  destruct w as [l s n v c e sg m b' ev]. unfold stopping, left_. simpl. intros [-> Hs] H. unfold main_stmt in H. simpl in H.
  destruct m; simplify_eq/=; try done; repeat (case_match; simplify_eq/=); (split; [by split|lia]).
Qed.

Lemma stopping_step t maxConns a w w' :
  main_inv w → listen_inv t w → stopping t w → exec t maxConns a w = Some w' →
  stopping t w' ∧ (if own a then left_ w' < left_ w else left_ w' = left_ w).
Proof.
  intros Hm Hl Hs H. destruct a as [o| |b| | |]; simpl own; cbv iota.
  - by eapply stopping_listen.
  - destruct w as [l s n v c e sg m b ev]. unfold stopping, left_ in *. simpl in *. destruct l, e; simplify_eq/=. split; [done|lia].
  - by eapply stopping_main.
  - simpl in H. by case_bool_decide; simplify_eq/=.
  - simpl in H. by case_bool_decide; simplify_eq/=.
  - by simplify_eq/=.
Qed.

(** Until [main] has exited someone can move. *)
Lemma stopping_progress t maxConns w :
  main_inv w → listen_inv t w → stopping t w → w_main w ≠ MExit →
  ∃ a w', (own a = true ∨ w_main w = MGraceful ∧ a = AConnEnd) ∧ exec t maxConns a w = Some w'.
Proof.
  destruct w as [l s n v c e sg m b ev]. unfold main_inv, listen_inv, stopping. simpl. intros Hm Hl [-> Hs] Hne.
  destruct m; try done.
  - destruct (decide (ls_active c = 0)) as [Hz|Hz].
    + eexists (AMain true), _. split; [by left|]. unfold exec, main_stmt. simpl. by rewrite bool_decide_eq_true_2.
    + eexists AConnEnd, _. split; [by right|]. simpl. rewrite bool_decide_eq_true_2 by lia. done.
  - destruct e as [e|]; [by eexists (AMain true), _; split; [by left|]|]. destruct l as [[|x rest]|e|]; simpl.
    + by destruct Hl as (_ & ? & _).
    + destruct x; first [by eexists (AListen Ok_), _; split; [by left|reflexivity]|by eexists (AListen (Err_ [])), _; split; [by left|reflexivity]].
    + by eexists ASend, _; split; [by left|].
    + by destruct Hm as [[Hm _] _]; destruct (Hm eq_refl).
  - by eexists (AMain true), _; split; [by left|].
  - by eexists (AMain true), _; split; [by left|].
Qed.

Lemma stopping_all t maxConns acts w w' :
  reachable t maxConns w → stopping t w → exec_all t maxConns acts w = Some w' →
  stopping t w' ∧ length (filter (λ a, own a) acts) + left_ w' ≤ left_ w.
Proof.
  revert w; induction acts as [|a acts IH]; intros w Hr Hs H; simplify_eq/=; [by split; [|simpl; lia]|].
  destruct (exec t maxConns a w) as [w1|] eqn:E; [|done]. destruct (reachable_inv _ _ _ Hr) as [Hm Hl].
  destruct (stopping_step t maxConns a w w1 Hm Hl Hs E) as [Hs1 Hlt]. destruct (IH w1) as [Hs' Hle]; [by eapply reach_step|done|done|].
  split; [done|]. rewrite filter_cons. destruct (own a); simpl; lia.
Qed.

Lemma left_bound t w : listen_inv t w → stopping t w → left_ w ≤ 11.
Proof.
  intros Hl [_ Hs]. unfold left_, listen_inv in *. assert (length (Listen t) ≤ 5) by (destruct t; simpl; lia).
  destruct (w_listen w) as [rest| |]; [destruct Hl as [Hl%suffix_length _]|..]; destruct (w_main w); try done; lia.
Qed.

(** ** Other runs *)

(** [main] took the error of [Listen] in its select. *)
Lemma byErr_step t maxConns a w w' : w_byErr w = true → exec t maxConns a w = Some w' → w_byErr w' = true.
Proof.
  destruct w as [l s n v c e sg m b ev]. simpl. intros -> H. destruct a as [o| |b'| | |]; simpl in H.
  - destruct l as [[|x rest]| |]; simplify_eq/=. destruct x, o; simplify_eq/=; repeat (case_match; simplify_eq/=); done.
  - destruct l, e; by simplify_eq/=.
  - unfold main_stmt, n_Close, TCP_Close, TLS_Close, Unix_Close, HTTP_Close, GRPC_Close in H. simpl in H. repeat (case_match; simplify_eq/=); done.
  - case_bool_decide; by simplify_eq/=.
  - case_bool_decide; by simplify_eq/=.
  - by simplify_eq/=.
Qed.

Lemma byErr_all t maxConns acts w w' : w_byErr w = true → exec_all t maxConns acts w = Some w' → w_byErr w' = true.
Proof.
  revert w; induction acts as [|a acts IH]; intros w Hb H; simplify_eq/=; [done|].
  destruct (exec t maxConns a w) as [w1|] eqn:E; [|done]. eapply IH; [|done]. by eapply byErr_step.
Qed.

(** [main] waits for the error of a [Listen] that goes on serving. *)
Definition serving (w : world) : Prop :=
  w_main w = MWait ∧ w_errCh w = None ∧ w_sock w = Some true ∧
  ((∃ m, w_listen w = LRunning [SAccept m]) ∨ w_listen w = LRunning [SServe] ∧ w_srv w = Some true).

(** The operating system reports no error. *)
Definition no_error (a : act) : bool := match a with AListen (Err_ _) => false | _ => true end.

Lemma serving_step t maxConns a w w' : serving w → no_error a = true → exec t maxConns a w = Some w' → serving w'.
Proof.
  destruct w as [l s n v c e sg m b ev]. unfold serving. simpl. intros (-> & -> & -> & Hl) Ha H. destruct a as [o| |b'| | |]; simpl in H.
  - destruct Hl as [[m0 ->]|[-> ->]]; destruct o; simplify_eq/=; (split_and!; [done..|]); [left; by eexists|by right].
  - by destruct Hl as [[m0 ->]|[-> ->]].
  - done.
  - case_bool_decide; by simplify_eq/=.
  - case_bool_decide; by simplify_eq/=.
  - by simplify_eq/=.
Qed.

Lemma serving_all t maxConns acts w w' :
  serving w → forallb no_error acts = true → exec_all t maxConns acts w = Some w' → serving w'.
Proof.
  revert w; induction acts as [|a acts IH]; intros w Hs Ha H; simplify_eq/=; [done|]. apply andb_prop in Ha as [Ha Has].
  destruct (exec t maxConns a w) as [w1|] eqn:E; [|done]. eapply IH; [|done..]. by eapply serving_step.
Qed.

(** A gRPC server that was stopped has no call in progress. *)
Definition grpc_inv (w : world) : Prop :=
  w_srv w = Some false → w_main w = MGraceful ∨ (w_main w ∈ [MWait; MLog; MStore; MExit] ∧ ls_active (w_conns w) = 0).

Lemma grpc_inv_step maxConns a w w' :
  listen_inv KGRPC w → grpc_inv w → exec KGRPC maxConns a w = Some w' → grpc_inv w'.
Proof.
  destruct w as [l s n v c e sg m b ev]. unfold grpc_inv, listen_inv. simpl. intros Hl Hi H. destruct a as [o| |b'| | |]; simpl in H.
  - destruct l as [[|x rest]| |]; simplify_eq/=. destruct Hl as (Hsx & _ & Hb & Hn & Hv).
    assert (x ∈ GRPC_Listen) as Hx by (destruct Hsx as [k Hk]; change (Listen KGRPC) with GRPC_Listen in Hk; rewrite Hk; set_solver).
    unfold GRPC_Listen in Hx. rewrite !elem_of_cons, elem_of_nil in Hx.
    destruct Hx as [->|[->|[->|[->|[]]]]]; destruct o; simplify_eq/=; repeat (case_bool_decide; simplify_eq/=); done.
  - destruct l, e; by simplify_eq/=.
  - unfold main_stmt, n_Close, GRPC_Close in H. simpl in H. intros Hv. destruct m; simplify_eq/=.
    + destruct b', sg, e; simplify_eq/=; destruct (Hi eq_refl) as [?|[? _]]; set_solver.
    + destruct v as [v|]; simplify_eq/=. by left.
    + case_bool_decide; simplify_eq/=. right. split; [set_solver|done].
    + destruct e; simplify_eq/=. destruct (Hi eq_refl) as [?|[_ ?]]; [done|]. right. split; [set_solver|done].
    + destruct (Hi eq_refl) as [?|[_ ?]]; [done|]. right. split; [set_solver|done].
    + destruct (Hi eq_refl) as [?|[_ ?]]; [done|]. right. split; [set_solver|done].
  - case_bool_decide; by simplify_eq/=.
  - case_bool_decide; simplify_eq/=. intros Hv. destruct (Hi Hv) as [?|[? Hz]]; [by left|]. lia.
  - by simplify_eq/=.
Qed.

Lemma grpc_reachable maxConns w : reachable KGRPC maxConns w → grpc_inv w.
Proof.
  induction 1 as [|w w' a Hr IH H]; [done|]. destruct (reachable_inv _ _ _ Hr) as [_ Hl]. by eapply grpc_inv_step.
Qed.

(** A connected client that sends a command before and after the shutdown. *)
Lemma exec_all_app t maxConns l1 l2 w :
  exec_all t maxConns (l1 ++ l2) w = match exec_all t maxConns l1 w with Some w' => exec_all t maxConns l2 w' | None => None end.
Proof. revert w; induction l1 as [|a l1 IH]; intros w; simpl; [done|]. by destruct (exec t maxConns a w). Qed.

Lemma first_accept maxConns : (0 ≤ maxConns)%Z → ls_active (on_accept (Listen_start maxConns)).1 = 1.
Proof.
  intros Hm. unfold Listen_start, on_accept. destruct (Z.ltb_spec 0 maxConns); simpl; [|done]. by rewrite bool_decide_eq_true_2 by lia.
Qed.

Definition connected (l : stmt) (v : option bool) (c : Listener) : world :=
  mkWorld (LRunning [l]) (Some true) true v c None false MSelect false [].

Lemma first_connection t maxConns :
  (0 ≤ maxConns)%Z →
  ∃ l v c, exec_all t maxConns (replicate (length (Listen t)) (AListen Ok_)) (start t) = Some (connected l v c) ∧ ls_active c = 1 ∧
    match t with KHTTP | KGRPC => l = SServe ∧ v = Some true | _ => (∃ m, l = SAccept m) ∧ v = None end.
Proof.
  intros Hm. pose proof (first_accept maxConns Hm).
  destruct t; first [by eexists _, _, (on_accept (Listen_start maxConns)).1; split_and!; [reflexivity|done|by eexists|done]
    |by eexists _, _, (on_accept (mkListener None 0)).1; split_and!; [reflexivity|done|done|done]].
Qed.

Lemma late_command t maxConns l v c :
  t ≠ KGRPC → ls_active c = 1 → match t with KHTTP | KGRPC => l = SServe ∧ v = Some true | _ => (∃ m, l = SAccept m) ∧ v = None end →
  w_events <$> exec_all t maxConns [ACommand; ASignal; AMain true; AMain true; AListen (Err_ []); ASend; AMain true; AMain true; ACommand] (connected l v c)
  = Some [EvCommand; EvLogClosed; EvCommand].
Proof.
  intros Ht Hc Hl. destruct c as [sem n]. simpl in Hc. subst n.
  destruct t; try done; destruct Hl as [Hl ->]; first [subst l|destruct Hl as [m ->]]; reflexivity.
Qed.

(** ** Theorems *)

(** C27: In every run the log is closed before the store, each once, and only
    after Listen has returned: no connection is accepted any more when the
    log is closed, and main exits with both closed. *)
Theorem shutdown_order (t : transport) (maxConns : Z) (w : world) :
  reachable t maxConns w →
  closes w `prefix_of` [EvLogClosed; EvStoreClosed] ∧ (closes w ≠ [] → w_listen w = LSent) ∧
  (w_main w = MExit ↔ closes w = [EvLogClosed; EvStoreClosed]).
Proof.
  intros Hr. destruct (reachable_inv _ _ _ Hr) as [Hm _]. unfold main_inv in Hm. destruct (w_byErr w).
  - destruct Hm as (Hm & Hl & _ & ->). split_and!; [apply prefix_nil|done|]. split; [intros E; rewrite E in Hm; set_solver|done].
  - destruct (w_main w); destruct_and?; split_and!; repeat match goal with H : closes w = _ |- _ => rewrite H end;
      first [apply prefix_nil|by exists [EvStoreClosed]|by exists []|done|idtac].
Qed.

(** C26: Once a signal was received and Close has closed the listener (for gRPC:
    has begun to wait for the calls in progress), the server stops: whatever
    the interleaving, main and Listen take at most eleven more steps, as long
    as main has not exited one of them (or the end of a gRPC call) is
    possible, and main exits with log and store closed. *)
Theorem shutdown_terminates (t : transport) (maxConns : Z) (acts : list act) (w w' : world) :
  reachable t maxConns w → stopping t w → exec_all t maxConns acts w = Some w' →
  length (filter (λ a, own a) acts) + left_ w' ≤ 11 ∧
  ((w_main w' = MExit ∧ closes w' = [EvLogClosed; EvStoreClosed]) ∨
   ∃ a w'', (own a = true ∨ w_main w' = MGraceful ∧ a = AConnEnd) ∧ exec t maxConns a w' = Some w'').
Proof.
  intros Hr Hs H. destruct (reachable_inv _ _ _ Hr) as [_ Hl]. destruct (stopping_all t maxConns acts w w' Hr Hs H) as [Hs' Hle].
  pose proof (left_bound t w Hl Hs). split; [lia|]. pose proof (reachable_all _ _ _ _ _ Hr H) as Hr'.
  destruct (reachable_inv _ _ _ Hr') as [Hm' Hl']. destruct (decide (w_main w' = MExit)) as [E|E]; [left|right; by apply stopping_progress].
  split; [done|]. unfold main_inv in Hm'. destruct Hs' as [Hb _]. rewrite Hb, E in Hm'. apply Hm'.
Qed.

(** When Listen returns by itself (the port is taken, a certificate is
    missing, Accept fails) and main takes its error from the channel, main
    waits for a second value that nobody sends: it never exits, and neither
    log nor store is ever closed. *)
Theorem listen_error_hangs (t : transport) (maxConns : Z) (acts : list act) (w w' : world) :
  reachable t maxConns w → w_byErr w = true → exec_all t maxConns acts w = Some w' →
  w_main w' ≠ MExit ∧ closes w' = [] ∧ (w_main w' = MWait → ∀ b, exec t maxConns (AMain b) w' = None).
Proof.
  intros Hr Hb H. pose proof (byErr_all _ _ _ _ _ Hb H) as Hb'.
  destruct (reachable_inv _ _ _ (reachable_all _ _ _ _ _ Hr H)) as [Hm _]. unfold main_inv in Hm. rewrite Hb' in Hm.
  destruct Hm as (Hm & _ & He & Hc). split_and!; [intros E; rewrite E in Hm; set_solver|done|]. intros E b. simpl. unfold main_stmt. by rewrite E, He.
Qed.

(** A signal that arrives before Listen has stored its listener is lost: Close
    finds nothing to close, the server goes on accepting connections, and
    main gets no further unless Accept fails by itself. *)
Theorem shutdown_race (t : transport) (maxConns : Z) :
  ∃ w, exec_all t maxConns ([ASignal; AMain true; AMain true] ++ replicate (length (Listen t) - 1) (AListen Ok_)) (start t) = Some w ∧
    w_byErr w = false ∧ serving w ∧
    ∀ acts w', forallb no_error acts = true → exec_all t maxConns acts w = Some w' → w_main w' = MWait ∧ w_sock w' = Some true.
Proof.
  assert (∀ w, serving w → ∀ acts w', forallb no_error acts = true → exec_all t maxConns acts w = Some w' →
    w_main w' = MWait ∧ w_sock w' = Some true) as Hall.
  { intros w Hs acts w' Ha H. destruct (serving_all _ _ _ _ _ Hs Ha H) as (? & _ & ? & _). done. }
  destruct t; eexists; (split; [reflexivity|]); (split; [done|]); (split; [|apply Hall]);
    (split_and!; [done..|]); first [left; by eexists|by right].
Qed.

(** Closing a socket listener does not stop the connections: a client that is
    connected when the server stops can have commands executed and answered
    after the log is closed. *)
Theorem commands_after_close (t : transport) (maxConns : Z) :
  (0 ≤ maxConns)%Z → t ≠ KGRPC →
  ∃ acts w, exec_all t maxConns acts (start t) = Some w ∧ w_events w = [EvCommand; EvLogClosed; EvCommand].
Proof.
  intros Hm Ht. destruct (first_connection t maxConns Hm) as (l & v & c & E & Hc & Hl).
  pose proof (late_command t maxConns l v c Ht Hc Hl) as Hw. apply fmap_Some in Hw as (w & Hw & ->).
  exists (replicate (length (Listen t)) (AListen Ok_) ++ [ACommand; ASignal; AMain true; AMain true; AListen (Err_ []); ASend; AMain true; AMain true; ACommand]), w.
  split; [|done]. by rewrite exec_all_app, E.
Qed.

(** GracefulStop does better: once a gRPC server was stopped, no command runs
    when the log is closed or later. *)
Theorem grpc_stops_first (maxConns : Z) (w : world) :
  reachable KGRPC maxConns w → w_srv w = Some false → w_main w ∈ [MLog; MStore; MExit] → exec KGRPC maxConns ACommand w = None.
Proof.
  intros Hr Hv Hm. destruct (grpc_reachable maxConns w Hr Hv) as [E|[_ Hz]]; [rewrite E in Hm; set_solver|]. simpl. by rewrite Hz.
Qed.

(** ** Witnesses *)
Definition tcp_bind_failed : list act := [AListen (Err_ (str "address already in use")); ASend; AMain false; AMain true].
Definition stop_acts : list act := replicate 4 (AListen Ok_) ++ [ASignal; AMain true; AMain true].

Definition run_from (t : transport) (maxConns : Z) (acts : list act) : world := default (start t) (exec_all t maxConns acts (start t)).

Lemma run_reachable t maxConns acts : reachable t maxConns (run_from t maxConns acts).
Proof.
  unfold run_from. destruct (exec_all t maxConns acts (start t)) as [w|] eqn:E; [|constructor]. eapply reachable_all; [constructor|exact E].
Qed.

Lemma shutdown_order_witness :
  let w := run_from KTCP 10 (stop_acts ++ [AListen (Err_ []); ASend; AMain true; AMain true; AMain true]) in
  closes w `prefix_of` [EvLogClosed; EvStoreClosed] ∧ (closes w ≠ [] → w_listen w = LSent) ∧
  (w_main w = MExit ↔ closes w = [EvLogClosed; EvStoreClosed]).
Proof. apply (shutdown_order KTCP 10). apply run_reachable. Defined.

Lemma shutdown_terminates_witness :
  let w := run_from KTCP 10 stop_acts in
  length (filter (λ a, own a) [AListen (Err_ [])]) + left_ (run_from KTCP 10 (stop_acts ++ [AListen (Err_ [])])) ≤ 11.
Proof.
  destruct (shutdown_terminates KTCP 10 [AListen (Err_ [])] (run_from KTCP 10 stop_acts) (run_from KTCP 10 (stop_acts ++ [AListen (Err_ [])])))
    as [H _]; [apply run_reachable|split; [vm_compute; reflexivity|]; vm_compute; split; reflexivity|vm_compute; reflexivity|exact H].
Defined.

Lemma listen_error_hangs_witness :
  let w := run_from KTCP 10 tcp_bind_failed in
  w_main w ≠ MExit ∧ closes w = [] ∧ (w_main w = MWait → ∀ b, exec KTCP 10 (AMain b) w = None).
Proof. apply (listen_error_hangs KTCP 10 [] (run_from KTCP 10 tcp_bind_failed)); [apply run_reachable|vm_compute; reflexivity|vm_compute; reflexivity]. Defined.

Lemma commands_after_close_witness :
  ∃ acts w, exec_all KTCP 10 acts (start KTCP) = Some w ∧ w_events w = [EvCommand; EvLogClosed; EvCommand].
Proof. apply (commands_after_close KTCP 10); [lia|done]. Defined.

Lemma grpc_stops_first_witness :
  exec KGRPC 0 ACommand (run_from KGRPC 0 (stop_acts ++ [AConnEnd; AMain true; AListen Stopped; ASend; AMain true])) = None.
Proof.
  apply (grpc_stops_first 0); [apply run_reachable|vm_compute; reflexivity|]. apply list_elem_of_In. vm_compute. tauto.
Defined.
