(* ===== verification/Telemetry.v ===== *)
(** * Telemetry: src/telemetry, src/health, src/log and [instrument] of src/main.go

    The metrics are a record; Prometheus itself, which serves them, is not
    modelled; AuxServers has the servers for metrics and health.
    [instrument] wraps every handler; the wrapped server is shown to behave as
    the plain one and to count exactly the commands it runs. *)

From stdpp Require Import base list gmap strings.
From Stdlib Require Import ZArith Lia Ascii.
From S2P Require Import Prelude GoLib StoreSpec MapStore GoIO Resp Evict TTLStore Network.
Local Open Scope Z_scope.

(** ** src/telemetry/metrics.go *)

(** Counters and histograms by command, and the gauges; of a histogram the
    observed values. *)
Record metrics := mkMetrics {
  CommandsTotal : gmap gostring nat;
  CommandDuration : gmap gostring (list Z);
  ActiveConnections : Z;
  MemoryBytes : Z;
  KeyCountGauge : Z;
  EvictionsTotal : nat;
  ExpirationsTotal : nat
}.

Definition no_metrics : metrics := mkMetrics ∅ ∅ 0 0 0 0 0.

Definition total (name : gostring) (m : metrics) : nat := default 0%nat (CommandsTotal m !! name).

(** [CommandDuration.WithLabelValues(name).Observe(d)] and
    [CommandsTotal.WithLabelValues(name).Inc()] *)
Definition observe (name : gostring) (d : Z) (m : metrics) : metrics :=
  mkMetrics (CommandsTotal m) (<[name := default [] (CommandDuration m !! name) ++ [d]]> (CommandDuration m))
    (ActiveConnections m) (MemoryBytes m) (KeyCountGauge m) (EvictionsTotal m) (ExpirationsTotal m).
Definition inc (name : gostring) (m : metrics) : metrics :=
  mkMetrics (<[name := S (total name m)]> (CommandsTotal m)) (CommandDuration m)
    (ActiveConnections m) (MemoryBytes m) (KeyCountGauge m) (EvictionsTotal m) (ExpirationsTotal m).

(** ** [instrument], src/main.go *)
Section instrument.
Context {W : Type}.
(** How long the next call takes. *)
Context (elapsed : W → Z).

Definition instrumented (name : gostring) (h : list Value → W → go (W * Value)) : list Value → W * metrics → go ((W * metrics) * Value) :=
  λ args w,
    '(w', result) ← h args w.1;
    Ret ((w', inc name (observe name (elapsed w.1) w.2)), result).

(** [for name, h := range handlers { handlers[name] = instrument(name, h) }] *)
Definition instrument_all (handlers : gmap gostring (list Value → W → go (W * Value))) :
    gmap gostring (list Value → W * metrics → go ((W * metrics) * Value)) :=
  map_imap (λ name h, Some (instrumented name h)) handlers.

(** The callback does not touch the metrics. *)
Definition lift_onWrite (f : gostring → list Value → W → go W) : gostring → list Value → W * metrics → go (W * metrics) :=
  λ command args w, w' ← f command args w.1; Ret (w', w.2).
End instrument.

(** ** src/telemetry/collector.go *)

(** [stop]: the channel, and whether it is closed. *)
Record Collector := mkCollector { c_hasCount : bool; c_stop : option bool }.
Definition NewCollector (hasCount : bool) : Collector := mkCollector hasCount None.
Definition Start (c : Collector) : Collector := mkCollector (c_hasCount c) (Some false).
(** Closing a closed channel panics. *)
Definition Stop (c : Collector) : go Collector :=
  match c_stop c with
  | None => Ret c
  | Some false => Ret (mkCollector (c_hasCount c) (Some true))
  | Some true => Panic
  end.

(** [collect]: [alloc] is what [runtime.ReadMemStats] reports. *)
Definition collect_metrics (c : Collector) (alloc : Z) (keyCount : nat) (m : metrics) : metrics :=
  mkMetrics (CommandsTotal m) (CommandDuration m) (ActiveConnections m) alloc
    (if c_hasCount c then Z.of_nat keyCount else KeyCountGauge m) (EvictionsTotal m) (ExpirationsTotal m).

(** The loop of [Start]: on a tick it collects, once stopped it has returned. *)
Definition on_tick (c : Collector) (alloc : Z) (keyCount : nat) (m : metrics) : metrics :=
  match c_stop c with Some false => collect_metrics c alloc keyCount m | _ => m end.

(** ** src/health/health.go *)
Definition health_response (path : gostring) : option (Z * json) :=
  if bool_decide (path = str "/healthz") then Some (200, JObject [(str "status", JString (str "ok"))])
  else if bool_decide (path = str "/ready") then Some (200, JObject [(str "status", JString (str "ready"))])
  else None.

(** ** src/log/logger.go *)
Inductive level := LevelDebug | LevelInfo | LevelWarn | LevelError.

Definition level_number (l : level) : Z := match l with LevelDebug => -4 | LevelInfo => 0 | LevelWarn => 4 | LevelError => 8 end.

(** [strings.ToLower], like [ToUpper]. *)
Class UnicodeLower := unicode_lower : gostring → gostring.
Definition lower_byte (b : byte) : byte := if (65 <=? byteZ b) && (byteZ b <=? 90) then Zbyte (byteZ b + 32) else b.
Definition ToLower `{UnicodeLower} (s : gostring) : gostring := if forallb isASCII s then map lower_byte s else unicode_lower s.

(** [init]: the level from the value of FLUXCACHE_LOG_LEVEL. *)
Definition log_level `{UnicodeLower} (lvl : gostring) : level :=
  if bool_decide (lvl = []) then LevelInfo else
  let l := ToLower lvl in
  if bool_decide (l = str "debug") then LevelDebug
  else if bool_decide (l = str "warn") then LevelWarn
  else if bool_decide (l = str "error") then LevelError
  else LevelInfo.

(** A handler of [slog] writes the records at its level or above. *)
Definition logs (configured message : level) : bool := level_number configured <=? level_number message.

(** The logger [init] makes, with the messages it has written (their
    attributes are left out), and the four functions of the package. *)
Record Logger := mkLogger { lg_level : level; lg_out : list (level * gostring) }.
Definition NewLogger `{UnicodeLower} (lvl : gostring) : Logger := mkLogger (log_level lvl) [].
Definition log_at (l : level) (msg : gostring) (lg : Logger) : Logger :=
  if logs (lg_level lg) l then mkLogger (lg_level lg) (lg_out lg ++ [(l, msg)]) else lg.
Definition Info : gostring → Logger → Logger := log_at LevelInfo.
Definition Warn : gostring → Logger → Logger := log_at LevelWarn.
Definition Error : gostring → Logger → Logger := log_at LevelError.
Definition Debug : gostring → Logger → Logger := log_at LevelDebug.

(** ** Lemmas *)
Section proofs.
Context `{!UnicodeUpper} {W : Type} (elapsed : W → Z).
Context (handlers : gmap gostring (list Value → W → go (W * Value))).
Context (onWrite : option (gostring → list Value → W → go W)).

Abbreviation handlers' := (instrument_all elapsed handlers).
Abbreviation onWrite' := (lift_onWrite <$> onWrite).

Lemma instrument_all_lookup name : handlers' !! name = instrumented elapsed name <$> handlers !! name.
Proof. unfold instrument_all. rewrite map_lookup_imap. by destruct (handlers !! name). Qed.

(** What runs before the handler. *)
Definition before (name : gostring) (args : list Value) (w : W) : go W := match onWrite with Some f => f name args w | None => Ret w end.

Lemma dispatch_plain name h args w : dispatch onWrite h name args w = w1 ← before name args w; h args w1.
Proof. done. Qed.

(** One command: the plain one, and its account. *)
Lemma dispatch_instrumented name h args w m :
  dispatch onWrite' (instrumented elapsed name h) name args (w, m) =
    w1 ← before name args w;
    '(w2, r) ← h args w1;
    Ret ((w2, inc name (observe name (elapsed w1) m)), r).
Proof.
  unfold dispatch, instrumented, lift_onWrite, before. destruct onWrite as [f|]; cbn [fmap option_fmap option_map fst snd]; [|done].
  by destruct (f name args w).
Qed.

Lemma serve_instrumented pw auth v w m :
  prod_map id fst <$> serve_value handlers' onWrite' pw auth v (w, m) = serve_value handlers onWrite pw auth v w.
Proof.
  unfold serve_value. destruct (v_Type v); try done. destruct (v_Array v) as [|x args]; [done|]. destruct auth; cbn [negb].
  - rewrite instrument_all_lookup. destruct (handlers !! _) as [h|]; cbn [fmap option_fmap option_map]; [|done].
    rewrite dispatch_instrumented, dispatch_plain. destruct (before _ args w) as [w1| | |]; cbn [mbind go_bind]; try done.
    by destruct (h args w1) as [[w2 r]| | |].
  - case_bool_decide; [|done]. destruct args as [|a args]; [done|]. by case_bool_decide.
Qed.

Lemma conn_instrumented fuel pw auth conn out w m :
  prod_map fst id <$> conn_loop handlers' onWrite' fuel pw auth conn out (w, m) = conn_loop handlers onWrite fuel pw auth conn out w.
Proof.
  revert auth conn out w m; induction fuel as [|f IH]; intros auth conn out w m; [done|]. cbn [conn_loop].
  destruct (Resp_Read (NewReader conn)) as [[rd [e|v]]| | |]; try done. cbn [mbind go_bind]. rewrite <-(serve_instrumented pw auth v w m).
  destruct (serve_value handlers' onWrite' pw auth v (w, m)) as [[[a rs] [w' m']]| | |]; try done. apply IH.
Qed.

(** How often a known command occurs. *)
Definition runs (name : gostring) (cs : list (gostring * list Value)) : nat :=
  length (filter (λ c, c.1 = name ∧ is_Some (handlers !! c.1)) cs).

Lemma total_inc name name' d m : total name' (inc name (observe name d m)) = (total name' m + if decide (name = name') then 1 else 0)%nat.
Proof. unfold total, inc, observe. simpl. unfold total. rewrite lookup_insert. case_decide; subst; simpl; lia. Qed.

Lemma exec_counts cs w m w' m' out name :
  exec_commands handlers' onWrite' cs (w, m) = Ret ((w', m'), out) → total name m' = (total name m + runs name cs)%nat.
Proof.
  revert w m out; induction cs as [|[c args] cs IH]; intros w m out E; [simplify_eq/=; unfold runs; simpl; lia|].
  cbn [exec_commands] in E. rewrite instrument_all_lookup in E. unfold runs in *. rewrite filter_cons. cbn [fst].
  destruct (handlers !! c) as [h|] eqn:Eh; cbn [fmap option_fmap option_map] in E.
  - rewrite dispatch_instrumented in E. destruct (before c args w) as [w1| | |]; simplify_eq/=.
    destruct (h args w1) as [[w2 r]| | |]; simplify_eq/=.
    destruct (exec_commands _ _ cs _) as [[[w3 m3] o]| | |] eqn:E2; simplify_eq/=. apply IH in E2. rewrite E2, total_inc.
    destruct (decide (c = name)) as [->|Hne].
    + rewrite decide_True by (by split; [|eexists]). simpl. lia.
    + rewrite decide_False by (intros [? _]; done). lia.
  - rewrite decide_False by (intros [_ [? ?]]; done). by eapply IH.
Qed.
End proofs.

(** ** Theorems *)

(** Instrumentation is transparent: whatever bytes arrive on a
    connection, the instrumented server does to the store and the log exactly
    what the plain one does, sends the same bytes, and panics or blocks
    exactly when it does. *)
Theorem instrument_transparent `{!UnicodeUpper} {W} (elapsed : W → Z) handlers (onWrite : option (gostring → list Value → W → go W))
    (password : gostring) (conn : stream) (w : W) (m : metrics) :
  prod_map fst id <$> handleConn (instrument_all elapsed handlers) (lift_onWrite <$> onWrite) password conn (w, m) =
  handleConn handlers onWrite password conn w.
Proof. apply conn_instrumented. Qed.

(** The counter of a command grows by one for each time a known command of
    that name is run, and not otherwise. *)
Theorem metrics_count {W} (elapsed : W → Z) handlers (onWrite : option (gostring → list Value → W → go W)) cs w m w' m' out name :
  exec_commands (instrument_all elapsed handlers) (lift_onWrite <$> onWrite) cs (w, m) = Ret ((w', m'), out) →
  total name m' = (total name m + runs handlers name cs)%nat.
Proof. apply exec_counts. Qed.

(** The gauge of the collector shows, after a tick of a started collector,
    the number of keys the store holds; a second Stop panics. *)
Theorem collector_reports {S} `{!StoreOps S} `{!StoreLaws S} (t : TTLStore S) (alloc : Z) (m : metrics) :
  ttl_inv t →
  KeyCountGauge (on_tick (Start (NewCollector true)) alloc (KeyCount t) m) = Z.of_nat (size (kv_dom (st_abs (t_inner t)))) ∧
  (c ← Stop (Start (NewCollector true)); Stop c) = Panic.
Proof. intros (_ & Hk & _). split; [|done]. unfold KeyCount. simpl. by rewrite Hk. Qed.

(** Whatever FLUXCACHE_LOG_LEVEL holds, errors are logged, and debug messages
    only when its lower-case form is exactly debug. *)
Theorem log_level_filters `{!UnicodeLower} (lvl : gostring) :
  logs (log_level lvl) LevelError = true ∧ (logs (log_level lvl) LevelDebug = true ↔ lvl ≠ [] ∧ ToLower lvl = str "debug").
Proof.
  unfold log_level. case_bool_decide as H0; [split; [done|]; split; [done|by intros [? _]]|].
  repeat case_bool_decide; (split; [done|]); split; try done; by intros [_ ?].
Qed.

(** ** Witnesses *)
#[local] Instance no_unicode : UnicodeUpper := λ s, s.

Lemma metrics_count_witness :
  let h := (λ args w, Ret (w + 1, VNull)) : list Value → Z → go (Z * Value) in
  total (str "GET") (inc (str "GET") (observe (str "GET") 0 no_metrics)) =
    (total (str "GET") no_metrics + runs {[ str "GET" := h ]} (str "GET") [(str "GET", [])])%nat.
Proof.
  intros h. apply (metrics_count (λ _, 0) {[ str "GET" := h ]} None [(str "GET", [])] 0 no_metrics 1 _ (Marshal VNull)). vm_compute. reflexivity.
Defined.

Lemma collector_reports_witness :
  KeyCountGauge (on_tick (Start (NewCollector true)) 0 (KeyCount (NewTTLStore NewMapStore)) no_metrics) = 0.
Proof.
  destruct (collector_reports (NewTTLStore NewMapStore) 0 no_metrics) as [H _]; [by apply (NewTTLStore_inv NewMapStore)|]. rewrite H. reflexivity.
Defined.
