(* ===== verification/Config.v ===== *)
(** * Config: src/config/config.go

    The configuration, its validation, the environment overrides and the
    construction of the components it names.  [yaml.Unmarshal] (a third-party
    package) and [time.ParseDuration] are arguments; opening a file succeeds
    or fails as [opens] says. *)

From stdpp Require Import base list gmap strings.
From Stdlib Require Import ZArith Lia Ascii.
From S2P Require Import Prelude GoLib Evict Network.
Local Open Scope Z_scope.

Record ServerConfig := mkServer {
  Port : Z; NetworkName : gostring; HealthPort : Z; MetricsPort : Z; MaxConns : Z; MaxMemory : gostring;
  Password : gostring; CertFile : gostring; KeyFile : gostring; SocketPath : gostring
}.
Record StoreConfig := mkStore { StoreType : gostring; StoreFile : gostring; ShardCount : Z; Degree : Z }.
Inductive PersistenceConfig :=
  mkPers (p_type p_file p_interval : gostring) (p_primary p_secondary : option PersistenceConfig).
Record EvictionConfig := mkEviction { PolicyName : gostring; MaxKeys : Z }.
Record Config := mkConfig {
  Server : ServerConfig; Store : StoreConfig; Persistence : PersistenceConfig; Eviction : EvictionConfig
}.

Definition PType (p : PersistenceConfig) := let 'mkPers t _ _ _ _ := p in t.
Definition PFile (p : PersistenceConfig) := let 'mkPers _ f _ _ _ := p in f.
Definition PInterval (p : PersistenceConfig) := let 'mkPers _ _ i _ _ := p in i.
Definition Primary (p : PersistenceConfig) := let 'mkPers _ _ _ a _ := p in a.
Definition Secondary (p : PersistenceConfig) := let 'mkPers _ _ _ _ b := p in b.

#[global] Instance PersistenceConfig_eq_dec : EqDecision PersistenceConfig.
Proof.
  unfold EqDecision, RelDecision. fix IH 1. intros [t f i pa pb] [t' f' i' pa' pb'].
  assert (Decision (pa = pa')) by (destruct pa as [a|], pa' as [a'|]; [destruct (IH a a'); [left|right]|right|right|left]; congruence).
  assert (Decision (pb = pb')) by (destruct pb as [b|], pb' as [b'|]; [destruct (IH b b'); [left|right]|right|right|left]; congruence).
  destruct (decide (t = t')), (decide (f = f')), (decide (i = i')), (decide (pa = pa')), (decide (pb = pb'));
    first [left; congruence|right; congruence].
Defined.
#[global] Instance ServerConfig_eq_dec : EqDecision ServerConfig.
Proof. solve_decision. Defined.
#[global] Instance StoreConfig_eq_dec : EqDecision StoreConfig.
Proof. solve_decision. Defined.
#[global] Instance EvictionConfig_eq_dec : EqDecision EvictionConfig.
Proof. solve_decision. Defined.
#[global] Instance Config_eq_dec : EqDecision Config.
Proof. solve_decision. Defined.

(** ** Environment overrides *)
Definition env_string (env : gostring → option gostring) (name : string) (old : gostring) : gostring :=
  match env (str name) with Some v => v | None => old end.
Definition env_int (env : gostring → option gostring) (name : string) (old : Z) : Z :=
  match env (str name) with
  | Some v => match ParseInt v with Some n => n | None => old end
  | None => old
  end.

(** The overrides of [Primary] and [Secondary] (when they are set). *)
Definition env_nested (env : gostring → option gostring) (tname fname : string) (p : PersistenceConfig) : PersistenceConfig :=
  mkPers (env_string env tname (PType p)) (env_string env fname (PFile p)) (PInterval p) (Primary p) (Secondary p).

Definition FromEnv (env : gostring → option gostring) (c : Config) : Config :=
  let s := Server c in
  let p := Persistence c in
  mkConfig
    (mkServer (env_int env "FLUXCACHE_PORT" (Port s)) (env_string env "FLUXCACHE_NETWORK" (NetworkName s))
       (env_int env "FLUXCACHE_HEALTH_PORT" (HealthPort s)) (env_int env "FLUXCACHE_METRICS_PORT" (MetricsPort s))
       (env_int env "FLUXCACHE_MAX_CONNECTIONS" (MaxConns s)) (env_string env "FLUXCACHE_MAX_MEMORY" (MaxMemory s))
       (env_string env "FLUXCACHE_PASSWORD" (Password s)) (env_string env "FLUXCACHE_CERT_FILE" (CertFile s))
       (env_string env "FLUXCACHE_KEY_FILE" (KeyFile s)) (env_string env "FLUXCACHE_SOCKET_PATH" (SocketPath s)))
    (mkStore (env_string env "FLUXCACHE_STORE_TYPE" (StoreType (Store c)))
       (env_string env "FLUXCACHE_STORE_FILE" (StoreFile (Store c)))
       (env_int env "FLUXCACHE_SHARD_COUNT" (ShardCount (Store c))) (env_int env "FLUXCACHE_DEGREE" (Degree (Store c))))
    (mkPers (env_string env "FLUXCACHE_PERSISTENCE_TYPE" (PType p)) (env_string env "FLUXCACHE_PERSISTENCE_FILE" (PFile p))
       (env_string env "FLUXCACHE_PERSISTENCE_INTERVAL" (PInterval p))
       (env_nested env "FLUXCACHE_PERSISTENCE_PRIMARY_TYPE" "FLUXCACHE_PERSISTENCE_PRIMARY_FILE" <$> Primary p)
       (env_nested env "FLUXCACHE_PERSISTENCE_SECONDARY_TYPE" "FLUXCACHE_PERSISTENCE_SECONDARY_FILE" <$> Secondary p))
    (mkEviction (env_string env "FLUXCACHE_EVICTION_POLICY" (PolicyName (Eviction c)))
       (env_int env "FLUXCACHE_MAX_KEYS" (MaxKeys (Eviction c)))).

Definition Default : Config :=
  mkConfig (mkServer 6379 (str "tcp") 0 0 0 [] [] [] [] []) (mkStore (str "map") [] 0 0)
    (mkPers (str "null") [] [] None None) (mkEviction (str "noeviction") 0).

(** ** Sizes: [parseBytes] *)
Inductive size_error := TooShort | UnknownSuffix | NoNumericValue | BadNumber.

(** The multiplier and the length of the suffix. *)
Definition size_suffix (s : gostring) : size_error + (Z * nat) :=
  let suffix := drop (length s - 2) s in
  if bool_decide (suffix = str "KB") then inr (2 ^ 10, 2%nat)
  else if bool_decide (suffix = str "MB") then inr (2 ^ 20, 2%nat)
  else if bool_decide (suffix = str "GB") then inr (2 ^ 30, 2%nat)
  else if bool_decide (suffix = str "TB") then inr (2 ^ 40, 2%nat)
  else
    let last := drop (length s - 1) s in
    if bool_decide (last = str "B") then inl UnknownSuffix
    else if bool_decide (last = str "K") then inr (2 ^ 10, 1%nat)
    else if bool_decide (last = str "M") then inr (2 ^ 20, 1%nat)
    else if bool_decide (last = str "G") then inr (2 ^ 30, 1%nat)
    else if bool_decide (last = str "T") then inr (2 ^ 40, 1%nat)
    else inr (1, 0%nat).

Definition parseBytes (s : gostring) : size_error + Z :=
  if bool_decide (length s < 2)%nat then inl TooShort else
  match size_suffix s with
  | inl e => inl e
  | inr (mult, n) =>
      let numStr := take (length s - n) s in
      if bool_decide (numStr = []) then inl NoNumericValue else
      match ParseInt numStr with
      | None => inl BadNumber
      | Some v => inr (wrap64 (v * mult))
      end
  end.

Definition MaxMemoryBytes (c : Config) : size_error + Z := parseBytes (MaxMemory (Server c)).

(** ** Validation *)
Definition validNetworks : list gostring := map str ["tcp"; "tls"; "unix"; "http"; "grpc"]%string.
Definition validStores : list gostring :=
  map str ["map"; "sharded"; "syncmap"; "lockfree"; "skiplist"; "bptree"; "art"; "crdt"; "bitcask"]%string.
Definition validPersistence : list gostring := map str ["null"; "aof"; "wal"; "rdb"; "dual"]%string.
Definition validEvictions : list gostring :=
  map str ["noeviction"; "allkeys-lru"; "allkeys-lfu"; "allkeys-random"; "volatile-ttl"]%string.
Definition in_ (l : list gostring) (s : gostring) : bool := bool_decide (s ∈ l).

Inductive config_error :=
| EPort | EHealthPort | EMetricsPort | EMaxConns | EMaxMemory (e : size_error) | ENetwork (s : gostring)
| EStore (s : gostring) | EPersistence (s : gostring) | EEviction (s : gostring) | EBitcaskFile | ETlsCert | ETlsKey
| EUnixPath | EDualPrimary | EDualSecondary | EPersistenceFile (s : gostring) | EInterval (s : gostring)
| EReadFile | EParse | EOpen (s : gostring).

(** [None] is a nil error. *)
Definition Validate (c : Config) : option config_error :=
  let s := Server c in
  let p := Persistence c in
  if (Port s <? 1) || (65535 <? Port s) then Some EPort else
  if (HealthPort s <? 0) || (65535 <? HealthPort s) then Some EHealthPort else
  if (MetricsPort s <? 0) || (65535 <? MetricsPort s) then Some EMetricsPort else
  if MaxConns s <? 0 then Some EMaxConns else
  match (if bool_decide (MaxMemory s = []) then None
         else match parseBytes (MaxMemory s) with inl e => Some (EMaxMemory e) | inr _ => None end) with
  | Some e => Some e
  | None =>
  if negb (in_ validNetworks (NetworkName s)) then Some (ENetwork (NetworkName s)) else
  if negb (in_ validStores (StoreType (Store c))) then Some (EStore (StoreType (Store c))) else
  if negb (in_ validPersistence (PType p)) then Some (EPersistence (PType p)) else
  if negb (in_ validEvictions (PolicyName (Eviction c))) then Some (EEviction (PolicyName (Eviction c))) else
  if bool_decide (StoreType (Store c) = str "bitcask") && bool_decide (StoreFile (Store c) = []) then Some EBitcaskFile else
  if bool_decide (NetworkName s = str "tls") && bool_decide (CertFile s = []) then Some ETlsCert else
  if bool_decide (NetworkName s = str "tls") && bool_decide (KeyFile s = []) then Some ETlsKey else
  if bool_decide (NetworkName s = str "unix") && bool_decide (SocketPath s = []) then Some EUnixPath else
  if bool_decide (PType p = str "dual") && bool_decide (Primary p = None) then Some EDualPrimary else
  if bool_decide (PType p = str "dual") && bool_decide (Secondary p = None) then Some EDualSecondary else
  if (bool_decide (PType p = str "aof") || bool_decide (PType p = str "wal") || bool_decide (PType p = str "rdb"))
     && bool_decide (PFile p = []) then Some (EPersistenceFile (PType p)) else
  None
  end.

(** The defaults [Load] fills in. *)
Definition fill (d s : gostring) : gostring := if bool_decide (s = []) then d else s.

Definition Load_defaults (c : Config) : Config :=
  let s := Server c in
  let p := Persistence c in
  mkConfig
    (mkServer (if Port s =? 0 then 6379 else Port s) (fill (str "tcp") (NetworkName s)) (HealthPort s) (MetricsPort s)
       (MaxConns s) (MaxMemory s) (Password s) (CertFile s) (KeyFile s) (SocketPath s))
    (mkStore (fill (str "map") (StoreType (Store c))) (StoreFile (Store c)) (ShardCount (Store c)) (Degree (Store c)))
    (mkPers (fill (str "null") (PType p)) (PFile p) (PInterval p) (Primary p) (Secondary p))
    (mkEviction (fill (str "noeviction") (PolicyName (Eviction c))) (MaxKeys (Eviction c))).

(** [data]: the content of the file, if it can be read. *)
Definition Load (yaml_Unmarshal : list byte → option Config) (env : gostring → option gostring)
    (data : option (list byte)) : config_error + Config :=
  match data with
  | None => inl EReadFile
  | Some d =>
      match yaml_Unmarshal d with
      | None => inl EParse
      | Some c =>
          let c' := Load_defaults (FromEnv env c) in
          match Validate c' with Some e => inl e | None => inr c' end
      end
  end.

(** [Save]: the bytes written to the file, or the error of the marshaller or of
    the write ([writes] says whether the file can be written). *)
Inductive save_error := SMarshal | SWrite.

Definition Save (yaml_Marshal : Config → option (list byte)) (writes : bool) (c : Config) : save_error + list byte :=
  match yaml_Marshal c with
  | None => inl SMarshal
  | Some data => if writes then inr data else inl SWrite
  end.

(** ** Construction *)
Inductive store_choice :=
| SMap | SSharded (n : Z) | SSyncMap | SLockFree (n : Z) | SSkipList | SBPTree | SART | SCRDT | SBitcask (file : gostring).

Inductive persistence_choice :=
| PNull | PAOF (file : gostring) | PWAL (file : gostring) | PRDB (file : gostring) (interval : Z)
| PDual (primary secondary : persistence_choice).

Section build.
Context (opens : gostring → bool) (ParseDuration : gostring → option Z).

Definition opened {A} (file : gostring) (a : A) : config_error + A := if opens file then inr a else inl (EOpen file).

Definition buildStore (c : StoreConfig) : config_error + store_choice :=
  let t := StoreType c in
  let n := if ShardCount c <? 1 then 16 else ShardCount c in
  if bool_decide (t = str "map") then inr SMap
  else if bool_decide (t = str "sharded") then inr (SSharded n)
  else if bool_decide (t = str "syncmap") then inr SSyncMap
  else if bool_decide (t = str "lockfree") then inr (SLockFree n)
  else if bool_decide (t = str "skiplist") then inr SSkipList
  else if bool_decide (t = str "bptree") then inr SBPTree
  else if bool_decide (t = str "art") then inr SART
  else if bool_decide (t = str "crdt") then inr SCRDT
  else if bool_decide (t = str "bitcask") then opened (StoreFile c) (SBitcask (StoreFile c))
  else inr SMap.

Fixpoint buildPersistence (p : PersistenceConfig) : config_error + persistence_choice :=
  match p with
  | mkPers t file interval primary secondary =>
      if bool_decide (t = str "aof") then opened file (PAOF file)
      else if bool_decide (t = str "wal") then opened file (PWAL file)
      else if bool_decide (t = str "rdb") then
        if bool_decide (interval = []) then inr (PRDB file (5 * Second))
        else match ParseDuration interval with
             | None => inl (EInterval interval)
             | Some d => inr (PRDB file d)
             end
      else if bool_decide (t = str "dual") then
        match primary, secondary with
        | Some a, Some b =>
            match buildPersistence a with
            | inl e => inl e
            | inr x => match buildPersistence b with inl e => inl e | inr y => inr (PDual x y) end
            end
        | _, _ => inl EDualPrimary
        end
      else inr PNull
  end.

Definition buildEvictionPolicy (c : EvictionConfig) : config_error + Policy :=
  let n := PolicyName c in
  if bool_decide (n = str "allkeys-lru") then inr (LRU NewLRUPolicy)
  else if bool_decide (n = str "allkeys-lfu") then inr (LFU NewLFUPolicy)
  else if bool_decide (n = str "allkeys-random") then inr RandomP
  else if bool_decide (n = str "volatile-ttl") then inr TTLP
  else if bool_decide (n = str "noeviction") then inr NoEviction
  else inl (EEviction n).

(** [Build]: the inner store, the policy with the key limit, and the log. *)
Definition Build (c : Config) : config_error + (store_choice * Policy * Z * persistence_choice) :=
  match Validate c with
  | Some e => inl e
  | None =>
      match buildStore (Store c) with
      | inl e => inl e
      | inr s =>
          match buildEvictionPolicy (Eviction c) with
          | inl e => inl e
          | inr policy =>
              match buildPersistence (Persistence c) with
              | inl e => inl e
              | inr p => inr (s, policy, MaxKeys (Eviction c), p)
              end
          end
      end
  end.
End build.

Inductive network_choice := NTCP (t : TCP) | NTLS (t : TLS) | NUnix (u : Unix) | NHTTP (h : HTTP) | NGRPC (g : GRPC).

Definition port_addr (port : Z) : gostring := str ":" ++ Itoa port.

Definition BuildNetwork (s : ServerConfig) : config_error + network_choice :=
  let n := NetworkName s in
  if bool_decide (n = str "tcp") then inr (NTCP (NewTCP (port_addr (Port s)) (MaxConns s) (Password s)))
  else if bool_decide (n = str "tls") then
    if bool_decide (CertFile s = []) || bool_decide (KeyFile s = []) then inl ETlsCert
    else inr (NTLS (NewTLS (port_addr (Port s)) (CertFile s) (KeyFile s) (MaxConns s) (Password s)))
  else if bool_decide (n = str "unix") then
    if bool_decide (SocketPath s = []) then inl EUnixPath
    else inr (NUnix (NewUnix (SocketPath s) (MaxConns s) (Password s)))
  else if bool_decide (n = str "http") then inr (NHTTP (NewHTTP (port_addr (Port s))))
  else if bool_decide (n = str "grpc") then inr (NGRPC (NewGRPC (port_addr (Port s))))
  else inl (ENetwork n).

(** ** Lemmas *)

(** What a nil error of [Validate] guarantees. *)
Record valid (c : Config) : Prop := mk_valid {
  va_port : 1 ≤ Port (Server c) ≤ 65535;
  va_health : 0 ≤ HealthPort (Server c) ≤ 65535;
  va_metrics : 0 ≤ MetricsPort (Server c) ≤ 65535;
  va_conns : 0 ≤ MaxConns (Server c);
  va_memory : MaxMemory (Server c) = [] ∨ ∃ n, MaxMemoryBytes c = inr n;
  va_network : NetworkName (Server c) ∈ validNetworks;
  va_store : StoreType (Store c) ∈ validStores;
  va_pers : PType (Persistence c) ∈ validPersistence;
  va_evict : PolicyName (Eviction c) ∈ validEvictions;
  va_bitcask : StoreType (Store c) = str "bitcask" → StoreFile (Store c) ≠ [];
  va_tls : NetworkName (Server c) = str "tls" → CertFile (Server c) ≠ [] ∧ KeyFile (Server c) ≠ [];
  va_unix : NetworkName (Server c) = str "unix" → SocketPath (Server c) ≠ [];
  va_dual : PType (Persistence c) = str "dual" →
    is_Some (Primary (Persistence c)) ∧ is_Some (Secondary (Persistence c));
  va_file : PType (Persistence c) ∈ map str ["aof"; "wal"; "rdb"]%string → PFile (Persistence c) ≠ []
}.

Lemma andb_bd_false (P Q : Prop) `{!Decision P} `{!Decision Q} :
  bool_decide P && bool_decide Q = false ↔ (P → ¬ Q).
Proof. destruct (decide P), (decide Q); rewrite ?bool_decide_eq_true_2, ?bool_decide_eq_false_2 by done; simpl; naive_solver. Qed.

Lemma negb_in_false l s : negb (in_ l s) = false ↔ s ∈ l.
Proof. unfold in_. rewrite negb_false_iff. apply bool_decide_eq_true. Qed.

Lemma memory_ok c :
  (if bool_decide (MaxMemory (Server c) = []) then None
   else match parseBytes (MaxMemory (Server c)) with inl e => Some (EMaxMemory e) | inr _ => None end) = None ↔
  MaxMemory (Server c) = [] ∨ ∃ n, MaxMemoryBytes c = inr n.
Proof.
  unfold MaxMemoryBytes. case_bool_decide; [by split; [left|]|].
  destruct (parseBytes _) as [e|n]; naive_solver.
Qed.

Lemma file_ok p :
  (bool_decide (PType p = str "aof") || bool_decide (PType p = str "wal") || bool_decide (PType p = str "rdb"))
    && bool_decide (PFile p = []) = false ↔
  (PType p ∈ map str ["aof"; "wal"; "rdb"]%string → PFile p ≠ []).
Proof.
  rewrite andb_false_iff, !orb_false_iff, !bool_decide_eq_false. simpl. rewrite !elem_of_cons, elem_of_nil.
  destruct (decide (PFile p = [])); naive_solver.
Qed.

Lemma range_ok lo hi z : (z <? lo) || (hi <? z) = false ↔ lo ≤ z ≤ hi.
Proof. rewrite orb_false_iff, !Z.ltb_ge. lia. Qed.

Lemma guard_None {A} (b : bool) (e : A) m : (if b then Some e else m) = None ↔ b = false ∧ m = None.
Proof. destruct b; naive_solver. Qed.

Lemma first_None {A} (x m : option A) : match x with Some e => Some e | None => m end = None ↔ x = None ∧ m = None.
Proof. destruct x; naive_solver. Qed.

Lemma Validate_valid c : Validate c = None ↔ valid c.
Proof.
  unfold Validate. cbv zeta.
  rewrite !guard_None, first_None, !guard_None, !range_ok, Z.ltb_ge, memory_ok, !negb_in_false, !andb_bd_false, file_ok.
  split.
  - intros (? & ? & ? & ? & ? & ? & ? & ? & ? & ? & ? & ? & ? & Hp & Hs & ? & _).
    constructor; try done; [by auto|]. intros Hd. split; apply not_eq_None_Some; auto.
  - intros [V1 V2 V3 V4 V5 V6 V7 V8 V9 V10 V11 V12 V13 V14].
    repeat (split; [first [exact V1|exact V2|exact V3|exact V4|exact V5|exact V6|exact V7|exact V8|exact V9|exact V10
      |exact V12|exact V14|by intros Ht%V11; apply Ht
      |intros Hd%V13; destruct Hd as [[? E1] [? E2]]; congruence]|]). done.
Qed.

(** Looking a name up in a list of literals. *)
Ltac in_names H :=
  unfold validEvictions, validNetworks in H; cbn [map] in H; rewrite !elem_of_cons, elem_of_nil in H.
(** [H] lists names that are all excluded. *)
Ltac names_absurd H :=
  exfalso;
  repeat (destruct H as [H|H]; [match goal with N : _ ≠ _ |- _ => exact (N H) end|]); destruct H.

Lemma env_string_idem env n o : env_string env n (env_string env n o) = env_string env n o.
Proof. unfold env_string. by destruct (env (str n)). Qed.

Lemma env_int_idem env n o : env_int env n (env_int env n o) = env_int env n o.
Proof. unfold env_int. destruct (env (str n)) as [v|]; [|done]. by destruct (ParseInt v). Qed.

Lemma env_nested_idem env a b p : env_nested env a b (env_nested env a b p) = env_nested env a b p.
Proof. unfold env_nested. destruct p. simpl. by rewrite !env_string_idem. Qed.

(** The fields of a configuration put together from its parts. *)
Ltac config_fields :=
  cbn [Server Store Persistence Eviction Port NetworkName HealthPort MetricsPort MaxConns MaxMemory
    Password CertFile KeyFile SocketPath StoreType StoreFile ShardCount Degree PType PFile PInterval Primary Secondary
    PolicyName MaxKeys].

Lemma FromEnv_idem env c : FromEnv env (FromEnv env c) = FromEnv env c.
Proof.
  unfold FromEnv. destruct c as [sv st [t f i pa pb] ev]. config_fields.
  rewrite !env_string_idem, !env_int_idem. destruct pa, pb; cbn [fmap option_fmap option_map]; by rewrite ?env_nested_idem.
Qed.

Lemma fill_env_fix env n d o : env_string env n o = o → fill d (env_string env n (fill d o)) = fill d o.
Proof. unfold env_string, fill. destruct (env (str n)) as [v|]; repeat case_bool_decide; by subst. Qed.

Lemma port_env_fix env n d o :
  env_int env n o = o → let x := if o =? 0 then d else o in (if env_int env n x =? 0 then d else env_int env n x) = x.
Proof.
  unfold env_int. destruct (env (str n)) as [v|]; [destruct (ParseInt v); [by intros ->|]|];
    intros _; destruct (Z.eqb_spec o 0) as [->|?]; try (by destruct (Z.eqb_spec d 0)); by rewrite (proj2 (Z.eqb_neq o 0)).
Qed.

(** Loading again what was loaded changes nothing. *)
Lemma Load_idem env c :
  Load_defaults (FromEnv env (Load_defaults (FromEnv env c))) = Load_defaults (FromEnv env c).
Proof.
  pose proof (FromEnv_idem env c) as H. generalize dependent (FromEnv env c). clear c.
  intros [[] [] [t f i pa pb] []] H. unfold FromEnv in H. revert H. config_fields. intros H. injection H as H.
  unfold FromEnv, Load_defaults. config_fields.
  f_equal; f_equal; first [done|by apply fill_env_fix|by apply port_env_fix].
Qed.

Lemma FromEnv_none c : FromEnv (λ _, None) c = c.
Proof. destruct c as [[] [] [t f i [[]|] [[]|]] []]; reflexivity. Qed.

Lemma fill_known d l s : s ∈ l → negb (in_ l []) = true → fill d s = s.
Proof.
  intros Hs Hl. unfold fill. case_bool_decide as E; [|done]. subst s. unfold in_ in Hl.
  by rewrite bool_decide_eq_true_2 in Hl.
Qed.

Lemma Load_valid_id c : valid c → Load_defaults c = c.
Proof.
  intros V. unfold Load_defaults.
  rewrite (fill_known _ validNetworks), (fill_known _ validStores), (fill_known _ validPersistence), (fill_known _ validEvictions)
    by (apply V || reflexivity).
  rewrite (proj2 (Z.eqb_neq _ _)) by (pose proof (va_port _ V); lia). by destruct c as [[] [] [] []].
Qed.

(** ** Theorems *)

(** Whatever the file and the environment say, a configuration that
    [Load] returns is valid; its port is set and its names are known. *)
Theorem load_returns_valid yaml_Unmarshal env data c :
  Load yaml_Unmarshal env data = inr c → valid c.
Proof.
  unfold Load. destruct data as [d|]; [|done]. destruct (yaml_Unmarshal d) as [c0|]; [|done]. cbv zeta.
  destruct (Validate _) eqn:E; [done|]. intros [= <-]. by apply Validate_valid.
Qed.

(** C40: saving and loading: a valid configuration that is saved is loaded
    back unchanged when no variable overrides it, and a configuration that was
    loaded under some environment is loaded back unchanged under the same
    environment.  [yaml] is the package: it reads back what it wrote. *)
Theorem save_load_roundtrip yaml_Marshal yaml_Unmarshal env data c bytes :
  (∀ c b, yaml_Marshal c = Some b → yaml_Unmarshal b = Some c) →
  Save yaml_Marshal true c = inr bytes →
  (valid c → Load yaml_Unmarshal (λ _, None) (Some bytes) = inr c) ∧
  (Load yaml_Unmarshal env data = inr c → Load yaml_Unmarshal env (Some bytes) = inr c).
Proof.
  intros Hy Hs. unfold Save in Hs. destruct (yaml_Marshal c) as [b|] eqn:Em; [|done]. injection Hs as ->.
  apply Hy in Em. split.
  - intros V. unfold Load. rewrite Em. cbv zeta. rewrite FromEnv_none, Load_valid_id by done.
    by rewrite (proj2 (Validate_valid c) V).
  - unfold Load. rewrite Em. destruct data as [d|]; [|done]. destruct (yaml_Unmarshal d) as [c0|]; [|done]. cbv zeta.
    destruct (Validate (Load_defaults (FromEnv env c0))) eqn:E; [done|]. intros [= <-]. rewrite Load_idem. by rewrite E.
Qed.

(** The environment takes precedence over the file: a variable that is
    set, and is a number where one is wanted, decides its field, and
    applying the overrides twice changes nothing. *)
Theorem env_overrides env c :
  FromEnv env (FromEnv env c) = FromEnv env c ∧
  (∀ v, env (str "FLUXCACHE_PASSWORD") = Some v → Password (Server (FromEnv env c)) = v) ∧
  (∀ n, in_int64 n = true → env (str "FLUXCACHE_PORT") = Some (Itoa n) → Port (Server (FromEnv env c)) = n) ∧
  (∀ v, env (str "FLUXCACHE_PORT") = Some v → ParseInt v = None → Port (Server (FromEnv env c)) = Port (Server c)).
Proof.
  split; [apply FromEnv_idem|]. unfold FromEnv, env_string, env_int. cbn [Server Password Port]. split_and!.
  - by intros v ->.
  - intros n Hn ->. by rewrite ParseInt_Itoa.
  - by intros v -> ->.
Qed.

Lemma Build_valid (opens : gostring → bool) (ParseDuration : gostring → option Z) (c : Config) :
  valid c → (∀ f, opens f = true) → PType (Persistence c) ≠ str "dual" →
  (PInterval (Persistence c) = [] ∨ is_Some (ParseDuration (PInterval (Persistence c)))) →
  ∃ s p q, buildStore opens (Store c) = inr s ∧ buildEvictionPolicy (Eviction c) = inr p ∧
    buildPersistence opens ParseDuration (Persistence c) = inr q ∧ Build opens ParseDuration c = inr (s, p, MaxKeys (Eviction c), q).
Proof.
  intros V Ho Hd Hi. unfold Build. rewrite (proj2 (Validate_valid c) V).
  assert (∃ s, buildStore opens (Store c) = inr s) as [s ->].
  { unfold buildStore, opened. rewrite Ho. repeat case_bool_decide; eauto. }
  assert (∃ p, buildEvictionPolicy (Eviction c) = inr p) as [p ->].
  { unfold buildEvictionPolicy. pose proof (va_evict _ V) as He. in_names He.
    repeat (case_bool_decide; [by eauto|]). names_absurd He. }
  assert (∃ q, buildPersistence opens ParseDuration (Persistence c) = inr q) as [q ->]; [|by eexists _, _, _].
  destruct (Persistence c) as [t f i pa pb]. cbn [PType PInterval buildPersistence] in *. unfold opened. rewrite Ho.
  destruct (bool_decide (t = str "aof")); [by eauto|]. destruct (bool_decide (t = str "wal")); [by eauto|].
  destruct (bool_decide (t = str "rdb")).
  + case_bool_decide; [by eauto|]. destruct Hi as [?|[d ->]]; [done|by eauto].
  + rewrite (bool_decide_eq_false_2 (t = str "dual")) by exact Hd. eauto.
Qed.

Lemma BuildNetwork_valid (c : Config) :
  valid c →
  ∃ n, BuildNetwork (Server c) = inr n ∧
    match n with
    | NTCP t => tcp_password t = Password (Server c)
    | NTLS t => tls_password t = Password (Server c)
    | NUnix u => unix_password u = Password (Server c)
    | NHTTP _ | NGRPC _ => NetworkName (Server c) = str "http" ∨ NetworkName (Server c) = str "grpc"
    end.
Proof.
  intros V. unfold BuildNetwork. pose proof (va_network _ V) as Hn. in_names Hn.
  destruct (decide (NetworkName (Server c) = str "tcp")) as [Hc|Hc];
    [rewrite bool_decide_eq_true_2 by exact Hc; by eexists|rewrite bool_decide_eq_false_2 by exact Hc].
  destruct (decide (NetworkName (Server c) = str "tls")) as [Ht|Ht];
    [rewrite bool_decide_eq_true_2 by exact Ht|rewrite bool_decide_eq_false_2 by exact Ht].
  { destruct (va_tls _ V Ht) as [H1 H2]. rewrite (bool_decide_eq_false_2 (CertFile _ = [])) by exact H1.
    rewrite (bool_decide_eq_false_2 (KeyFile _ = [])) by exact H2. by eexists. }
  destruct (decide (NetworkName (Server c) = str "unix")) as [Hu|Hu];
    [rewrite bool_decide_eq_true_2 by exact Hu|rewrite bool_decide_eq_false_2 by exact Hu].
  { rewrite (bool_decide_eq_false_2 (SocketPath _ = [])) by exact (va_unix _ V Hu). by eexists. }
  destruct (decide (NetworkName (Server c) = str "http")) as [Hh|Hh];
    [rewrite bool_decide_eq_true_2 by exact Hh; eexists; split; [reflexivity|by left]
    |rewrite bool_decide_eq_false_2 by exact Hh].
  destruct (decide (NetworkName (Server c) = str "grpc")) as [Hg|Hg];
    [rewrite bool_decide_eq_true_2 by exact Hg; eexists; split; [reflexivity|by right]
    |rewrite bool_decide_eq_false_2 by exact Hg].
  names_absurd Hn.
Qed.

(** The names of what was built. *)
Definition store_name (s : store_choice) : gostring :=
  str match s with
      | SMap => "map" | SSharded _ => "sharded" | SSyncMap => "syncmap" | SLockFree _ => "lockfree" | SSkipList => "skiplist"
      | SBPTree => "bptree" | SART => "art" | SCRDT => "crdt" | SBitcask _ => "bitcask"
      end%string.
Definition policy_name (p : Policy) : gostring :=
  str match p with LRU _ => "allkeys-lru" | LFU _ => "allkeys-lfu" | RandomP => "allkeys-random" | TTLP => "volatile-ttl" | NoEviction => "noeviction" end%string.
Definition log_name (q : persistence_choice) : gostring :=
  str match q with PNull => "null" | PAOF _ => "aof" | PWAL _ => "wal" | PRDB _ _ => "rdb" | PDual _ _ => "dual" end%string.
Definition network_name (n : network_choice) : gostring :=
  str match n with NTCP _ => "tcp" | NTLS _ => "tls" | NUnix _ => "unix" | NHTTP _ => "http" | NGRPC _ => "grpc" end%string.

Lemma buildStore_name opens c s :
  StoreType c ∈ validStores → buildStore opens c = inr s →
  store_name s = StoreType c ∧ (∀ n, s = SSharded n ∨ s = SLockFree n → 1 ≤ n ∧ (1 ≤ ShardCount c → n = ShardCount c)) ∧
  (∀ f, s = SBitcask f → f = StoreFile c).
Proof.
  intros Hv. unfold buildStore, opened. unfold validStores in Hv. cbn [map] in Hv. rewrite !elem_of_cons, elem_of_nil in Hv.
  assert (1 ≤ (if ShardCount c <? 1 then 16 else ShardCount c) ∧
    (1 ≤ ShardCount c → (if ShardCount c <? 1 then 16 else ShardCount c) = ShardCount c)) as Hn by (destruct (Z.ltb_spec (ShardCount c) 1); lia).
  repeat (let Ht := fresh in case_bool_decide as Ht; [try (destruct (opens (StoreFile c)); [|done]); intros [= <-]; rewrite Ht;
    (split; [done|split; [intros m [[= <-]|[= <-]]|by intros f [= <-]]; exact Hn])|]). names_absurd Hv.
Qed.

Lemma buildEvictionPolicy_name c p : buildEvictionPolicy c = inr p → policy_name p = PolicyName c.
Proof. unfold buildEvictionPolicy. repeat (let Ht := fresh in case_bool_decide as Ht; [intros [= <-]; by rewrite Ht|]). done. Qed.

Lemma buildPersistence_name opens ParseDuration p q :
  PType p ∈ validPersistence → buildPersistence opens ParseDuration p = inr q →
  log_name q = PType p ∧ (∀ f d, q = PAOF f ∨ q = PWAL f ∨ q = PRDB f d → f = PFile p).
Proof.
  destruct p as [t f i pa pb]. cbn [PType PFile buildPersistence]. intros Hv. unfold opened.
  unfold validPersistence in Hv. cbn [map] in Hv. rewrite !elem_of_cons, elem_of_nil in Hv.
  case_bool_decide as Ha; [destruct (opens f); [|done]; intros [= <-]; split; [by rewrite Ha|naive_solver]|].
  case_bool_decide as Hw; [destruct (opens f); [|done]; intros [= <-]; split; [by rewrite Hw|naive_solver]|].
  case_bool_decide as Hr; [case_bool_decide; [|destruct (ParseDuration i); [|done]]; intros [= <-]; (split; [by rewrite Hr|naive_solver])|].
  case_bool_decide as Hd; [repeat case_match; try done; intros [= <-]; split; [by rewrite Hd|naive_solver]|].
  intros [= <-]. split; [|naive_solver]. destruct Hv as [->|Hv]; [done|]. names_absurd Hv.
Qed.

Lemma BuildNetwork_name s n :
  BuildNetwork s = inr n → network_name n = NetworkName s ∧
    match n with
    | NTCP t => t = mkTCP (port_addr (Port s)) (MaxConns s) (Password s)
    | NTLS t => t = mkTLS (port_addr (Port s)) (CertFile s) (KeyFile s) (MaxConns s) (Password s)
    | NUnix u => u = mkUnix (SocketPath s) (MaxConns s) (Password s)
    | NHTTP h => h = mkHTTP (port_addr (Port s))
    | NGRPC g => g = mkGRPC (port_addr (Port s))
    end.
Proof. unfold BuildNetwork. repeat (let Ht := fresh in case_bool_decide as Ht; [repeat case_match; try done; intros [= <-]; by rewrite Ht|]). done. Qed.


(** The HTTP and gRPC transports ignore the password: two configurations
    that differ in the password only build the same server. *)
Theorem http_grpc_ignore_password (s : ServerConfig) (password : gostring) :
  NetworkName s = str "http" ∨ NetworkName s = str "grpc" →
  BuildNetwork (mkServer (Port s) (NetworkName s) (HealthPort s) (MetricsPort s) (MaxConns s) (MaxMemory s)
    password (CertFile s) (KeyFile s) (SocketPath s)) = BuildNetwork s.
Proof. unfold BuildNetwork. cbn [NetworkName Port CertFile KeyFile SocketPath]. by intros [-> | ->]. Qed.

Lemma drop_tail {A} (l t : list A) n : length t = n → drop (length (l ++ t) - n) (l ++ t) = t ∧ take (length (l ++ t) - n) (l ++ t) = l.
Proof.
  intros <-. rewrite length_app. replace (length l + length t - length t)%nat with (length l) by lia.
  by rewrite drop_app_length, take_app_length.
Qed.

Lemma parseBytes_suffix n suf mult :
  in_int64 n = true → suf ≠ [] → size_suffix (Itoa n ++ suf) = inr (mult, length suf) →
  parseBytes (Itoa n ++ suf) = inr (wrap64 (n * mult)).
Proof.
  intros Hn Hs E. assert (Itoa n ≠ []) as Hne.
  { intros H0. pose proof (ParseInt_Itoa n Hn) as H1. rewrite H0 in H1. done. }
  unfold parseBytes. rewrite bool_decide_eq_false_2.
  2: { rewrite length_app. destruct (Itoa n), suf; simpl; [done..|]. lia. }
  rewrite E. destruct (drop_tail (Itoa n) suf (length suf) eq_refl) as [_ ->].
  rewrite bool_decide_eq_false_2 by done. by rewrite ParseInt_Itoa.
Qed.

Lemma size_suffix_two l a mult :
  (a, mult) ∈ [("K"%char, 2 ^ 10); ("M"%char, 2 ^ 20); ("G"%char, 2 ^ 30); ("T"%char, 2 ^ 40)] →
  size_suffix (l ++ [a; "B"%char]) = inr (mult, 2%nat).
Proof.
  intros H. unfold size_suffix. destruct (drop_tail l [a; "B"%char] 2 eq_refl) as [-> _].
  repeat (apply elem_of_cons in H as [[= -> ->]|H]; [reflexivity|]). by apply not_elem_of_nil in H.
Qed.

Lemma size_suffix_one l x a mult :
  (a, mult) ∈ [("K"%char, 2 ^ 10); ("M"%char, 2 ^ 20); ("G"%char, 2 ^ 30); ("T"%char, 2 ^ 40)] →
  size_suffix ((l ++ [x]) ++ [a]) = inr (mult, 1%nat).
Proof.
  intros H. unfold size_suffix. destruct (drop_tail (l ++ [x]) [a] 1 eq_refl) as [-> _].
  rewrite <-(app_assoc l). destruct (drop_tail l ([x] ++ [a]) 2 eq_refl) as [-> _].
  assert (a ≠ "B"%char) as Hb.
  { repeat (apply elem_of_cons in H as [[= -> ->]|H]; [discriminate|]). by apply not_elem_of_nil in H. }
  rewrite !(bool_decide_eq_false_2 ([x] ++ [a] = _)) by (intros [= _ ?]; done).
  repeat (apply elem_of_cons in H as [[= -> ->]|H]; [reflexivity|]). by apply not_elem_of_nil in H.
Qed.

(** A size is the number times the unit as long as the product fits 64
    bits, with and without the final B; past that it wraps, so a large limit
    can become negative or zero. *)
Theorem parse_bytes_units (n : Z) :
  in_int64 n = true →
  parseBytes (Itoa n ++ str "KB") = inr (wrap64 (n * 2 ^ 10)) ∧ parseBytes (Itoa n ++ str "MB") = inr (wrap64 (n * 2 ^ 20)) ∧
  parseBytes (Itoa n ++ str "GB") = inr (wrap64 (n * 2 ^ 30)) ∧ parseBytes (Itoa n ++ str "TB") = inr (wrap64 (n * 2 ^ 40)) ∧
  parseBytes (Itoa n ++ str "K") = inr (wrap64 (n * 2 ^ 10)) ∧ parseBytes (Itoa n ++ str "M") = inr (wrap64 (n * 2 ^ 20)) ∧
  parseBytes (Itoa n ++ str "G") = inr (wrap64 (n * 2 ^ 30)) ∧ parseBytes (Itoa n ++ str "T") = inr (wrap64 (n * 2 ^ 40)).
Proof.
  intros Hn. destruct (Itoa n) as [|x l _] eqn:E using rev_ind.
  { pose proof (ParseInt_Itoa n Hn) as H1. rewrite E in H1. done. }
  rewrite <-E. split_and!; apply parseBytes_suffix; try done;
    (apply size_suffix_two || (rewrite E; apply size_suffix_one)); rewrite !elem_of_cons; tauto.
Qed.

Lemma parse_bytes_units_witness :
  parseBytes (Itoa 512 ++ str "MB") = inr 536870912 ∧ parseBytes (Itoa 8388608 ++ str "TB") = inr min_int64.
Proof.
  split.
  - destruct (parse_bytes_units 512 eq_refl) as (_ & -> & _). reflexivity.
  - destruct (parse_bytes_units 8388608 eq_refl) as (_ & _ & _ & -> & _). reflexivity.
Defined.

(** [Validate] does not look into a dual log: a configuration it accepts
    can fail to build. *)
Theorem validate_misses_nested_dual (opens : gostring → bool) (ParseDuration : gostring → option Z) :
  ∃ c, Validate c = None ∧ ∃ e, Build opens ParseDuration c = inl e.
Proof.
  exists (mkConfig (Server Default) (Store Default)
    (mkPers (str "dual") [] [] (Some (mkPers (str "dual") [] [] None None)) (Some (mkPers (str "null") [] [] None None)))
    (Eviction Default)).
  split; [vm_compute; reflexivity|]. exists EDualPrimary. vm_compute. reflexivity.
Qed.

(** ** Witnesses *)
Definition no_env : gostring → option gostring := λ _, None.

Lemma default_valid : valid Default.
Proof. apply Validate_valid. vm_compute. reflexivity. Qed.

Lemma load_returns_valid_witness :
  ∃ c, Load (λ _, Some (mkConfig (mkServer 0 [] 0 0 0 [] [] [] [] []) (mkStore [] [] 0 0) (mkPers [] [] [] None None) (mkEviction [] 0)))
         no_env (Some []) = inr c ∧ valid c.
Proof.
  exists Default. split; [vm_compute; reflexivity|].
  apply (load_returns_valid (λ _, Some (mkConfig (mkServer 0 [] 0 0 0 [] [] [] [] []) (mkStore [] [] 0 0) (mkPers [] [] [] None None) (mkEviction [] 0)))
    no_env (Some [])). vm_compute. reflexivity.
Defined.


Lemma http_grpc_ignore_password_witness :
  let s := mkServer 80 (str "http") 0 0 0 [] (str "secret") [] [] [] in
  BuildNetwork (mkServer 80 (str "http") 0 0 0 [] [] [] [] []) = BuildNetwork s.
Proof. intros s. apply (http_grpc_ignore_password s []). by left. Defined.

(** A package that knows one document. *)
Lemma save_load_roundtrip_witness :
  let marshal c := if decide (c = Default) then Some (str "doc") else None in
  let unmarshal (b : list byte) := if decide (b = str "doc") then Some Default else None in
  Load unmarshal (λ _, None) (Some (str "doc")) = inr Default.
Proof.
  intros marshal unmarshal.
  destruct (save_load_roundtrip marshal unmarshal (λ _, None) None Default (str "doc")) as [H _].
  - intros c b. unfold marshal. case_decide; [|done]. intros [= <-]. subst c. reflexivity.
  - unfold Save, marshal. by rewrite decide_True.
  - apply H, default_valid.
Defined.
