(* ===== verification/Background.v ===== *)
(** * Background: the ticking goroutines

    [sweepLoop] (src/store/ttl.go), [flushLoop] (src/persistence/wal.go) and
    [snapshotLoop] (src/persistence/rdb.go) are one shape: a select on a
    ticker and on the channel that Close closes.  An event is a call by some
    other goroutine, a tick, or the receive from the closed channel; what the
    loops add to a run is stated against the traces of the components. *)

From stdpp Require Import base list gmap strings.
From Stdlib Require Import ZArith Lia Ascii.
From S2P Require Import Prelude GoLib StoreSpec MapStore Evict TTLStore GoIO Resp Persist WAL RDB Config.

(** ** The loop *)
Inductive bg_event (O E : Type) :=
| BCall (o : O)       (* a call of another goroutine *)
| BTick (e : E)       (* case <-ticker.C *)
| BDone (e : E).      (* case <-done *)
Arguments BCall {O E} o.
Arguments BTick {O E} e.
Arguments BDone {O E} e.

Section loop.
Context {O E A : Type} (call : O → A → go A) (tick last : E → A → go A) (closed : A → bool).

(** The flag says whether the goroutine is still in its loop; it can only
    receive from [done] once the channel is closed. *)
Definition bg_step (ev : bg_event O E) (st : A * bool) : go (A * bool) :=
  let '(a, running) := st in
  match ev with
  | BCall o => a' ← call o a; Ret (a', running)
  | BTick e => if running then a' ← tick e a; Ret (a', true) else Ret st
  | BDone e => if running && closed a then a' ← last e a; Ret (a', false) else Ret st
  end.

Definition bg_run : list (bg_event O E) → A * bool → go (A * bool) := go_foldl bg_step.

(** A run of calls only is the fold of the calls. *)
Lemma bg_run_calls os a b : bg_run (BCall <$> os) (a, b) = a' ← go_foldl call os a; Ret (a', b).
Proof.
  unfold bg_run. revert a; induction os as [|o os IH]; intros a; [done|]. cbn.
  destruct (call o a) as [a'| | |]; [|done..]. cbn. apply IH.
Qed.
End loop.

(** ** The three loops *)

(** [None] is the call of [Close]. *)
Definition ttl_call {S} `{!StoreOps S} (o : option (Env * ttl_op)) (t : TTLStore S) : go (TTLStore S) :=
  match o with Some (e, op) => ttl_step e op t | None => TTLStore_Close t end.

Definition sweepLoop {S} `{!StoreOps S} : list (bg_event (option (Env * ttl_op)) Env) → TTLStore S * bool → go (TTLStore S * bool) :=
  bg_run ttl_call sweep (λ _, Ret) t_done.

Definition log_call {P} `{!PersistenceOps P} (o : option Command) (p : P) : go P :=
  fst <$> match o with Some c => p_Write c p | None => p_Close p end.

Definition flushLoop `{!UnicodeUpper} : list (bg_event (option Command) ()) → WAL * bool → go (WAL * bool) :=
  bg_run log_call (λ _ w, Ret (Flush w).1) (λ _ w, Ret (Flush w).1) wal_done.

(** A snapshot iterates over the maps in an order of its own. *)
Definition snapshotLoop :
    list (bg_event (option Command) (gset gostring → list gostring)) → RDB * bool → go (RDB * bool) :=
  bg_run log_call (λ order r, Ret (Snapshot order r)) (λ order r, Ret (Snapshot order r)) rdb_done.

(** *** The interval of the snapshots *)

(** [time.NewTicker] panics on an interval that is not positive. *)
Definition NewTicker (d : Z) : go Z := if (d <=? 0)%Z then Panic else Ret d.

(** [NewRDB] has started the goroutine when [NewRDBWithInterval] assigns the
    interval; the goroutine reads the field when it first runs.  [late] says
    that this is after the assignment; the result is the store and the period
    of its ticker.  A panic in the goroutine ends the process. *)
Definition NewRDBWithInterval (late : bool) (disk : option (list byte)) (interval : Z) : go (RDB * Z) :=
  d ← NewTicker (if late then interval else (5 * Second)%Z); Ret (NewRDB disk, d).

(** ** Lemmas *)

(** A tick of the sweep loop is the sweep of a trace. *)
Definition ttl_event (ev : (Env * ttl_op) + Env) : bg_event (option (Env * ttl_op)) Env :=
  match ev with inl o => BCall (Some o) | inr e => BTick e end.
Definition ttl_trace (ev : (Env * ttl_op) + Env) : Env * ttl_op :=
  match ev with inl o => o | inr e => (e, TSweep) end.

(** Writes and ticks of a log that stays open. *)
Definition wal_event (o : option Command) : bg_event (option Command) () :=
  match o with Some c => BCall (Some c) | None => BTick () end.

Lemma flushLoop_trace `{!UnicodeUpper} os w :
  flushLoop (wal_event <$> os) (w, true) = w' ← go_foldl wal_step os w; Ret (w', true).
Proof.
  unfold flushLoop, bg_run. revert w; induction os as [|[c|] os IH]; intros w; [done| |].
  - cbn. unfold log_call. cbn. destruct (WAL_Write c w) as [[w' b]| | |]; [|done..]. cbn. apply IH.
  - cbn. apply IH.
Qed.

Lemma Flush_empty w : wal_buf w = [] → Flush w = (w, false).
Proof. intros E. unfold Flush. by rewrite E. Qed.

(** After [Close] the buffer is empty, and ticks and the last flush change
    nothing. *)
Lemma flushLoop_closed `{!UnicodeUpper} evs w b :
  wal_buf w = [] → Forall (λ ev, ∀ o, ev ≠ BCall o) evs → ∃ b', flushLoop evs (w, b) = Ret (w, b').
Proof.
  unfold flushLoop, bg_run. intros Hb. revert b.
  induction evs as [|ev evs IH]; intros b Hevs; [by exists b|]. inversion Hevs as [|?? H1 H2]; subst.
  destruct ev as [o|e|e]; [by destruct (H1 o)| |]; cbn.
  - destruct b; cbn; rewrite ?(Flush_empty w Hb); by apply IH.
  - destruct (b && wal_done w); cbn; rewrite ?(Flush_empty w Hb); by apply IH.
Qed.

(** Writes and ticks of a snapshot store that stays open. *)
Definition rdb_event (ev : Command + (gset gostring → list gostring)) : bg_event (option Command) (gset gostring → list gostring) :=
  match ev with inl c => BCall (Some c) | inr order => BTick order end.

Definition rdb_writes {O} (evs : list (Command + O)) : list Command := omap (λ ev, match ev with inl c => Some c | inr _ => None end) evs.

Lemma RDB_Write_keep c r : ∃ r', RDB_Write c r = Ret (r', false) ∧ rdb_kv r' = apply_command c (rdb_kv r) ∧
  rdb_disk r' = rdb_disk r ∧ rdb_done r' = rdb_done r.
Proof.
  destruct (RDB_Write_kv c r) as (r' & E & Hr & Hd). exists r'. split_and!; [done..|].
  unfold RDB_Write in E. injection E as <-. by repeat case_match.
Qed.

(** The run up to [Close]: the writes are in the maps, and the file is the
    snapshot of the last tick. *)
Lemma snapshotLoop_events evs r :
  rdb_done r = false →
  ∃ r', snapshotLoop (rdb_event <$> evs) (r, true) = Ret (r', true) ∧ rdb_done r' = false ∧
    rdb_kv r' = apply_commands (rdb_writes evs) (rdb_kv r) ∧
    (Forall (λ ev, ∃ c, ev = inl c) evs → rdb_disk r' = rdb_disk r) ∧
    (∀ pre order post, evs = pre ++ inr order :: post → Forall (λ ev, ∃ c, ev = inl c) post →
      let a := apply_commands (rdb_writes pre) (rdb_kv r) in rdb_disk r' = Some (snapshot_bytes order (kv_strings a) (kv_hashes a))).
Proof.
  revert r; induction evs as [|ev evs IH]; intros r Hd.
  { exists r. split_and!; [done..|]. intros pre order post E. by destruct pre. }
  assert (∃ r1, bg_step log_call (λ order r, Ret (Snapshot order r)) (λ order r, Ret (Snapshot order r)) rdb_done (rdb_event ev) (r, true) = Ret (r1, true) ∧
    rdb_done r1 = false ∧ rdb_kv r1 = apply_commands (rdb_writes [ev]) (rdb_kv r) ∧
    rdb_disk r1 = match ev with inl _ => rdb_disk r | inr order => Some (snapshot_bytes order (rdb_strings r) (rdb_hashes r)) end) as (r1 & E1 & D1 & K1 & F1).
  { destruct ev as [c|order]; [|by eexists]. destruct (RDB_Write_keep c r) as (r1 & E & K & F & D). exists r1. cbn -[RDB_Write].
    unfold log_call. cbn -[RDB_Write]. rewrite E. cbn. split_and!; [done|congruence|done|done]. }
  destruct (IH r1 D1) as (r' & E' & D' & K' & N' & L'). exists r'. split; [|split; [done|]].
  { unfold snapshotLoop, bg_run in *. rewrite fmap_cons. cbn [go_foldl]. rewrite E1. exact E'. }
  assert (rdb_writes (ev :: evs) = rdb_writes [ev] ++ rdb_writes evs) as Hw by (unfold rdb_writes; by rewrite <-omap_app).
  split; [by rewrite Hw, apply_commands_app, <-K1|]. split.
  - intros [[c ->] Hevs]%Forall_cons. by rewrite N', F1.
  - intros pre order post Hs Hpost. destruct pre as [|ev' pre]; cbn [app] in Hs; injection Hs as -> ->.
    + cbn. rewrite (N' Hpost), F1. done.
    + cbn zeta. change (ev' :: pre) with ([ev'] ++ pre). unfold rdb_writes. rewrite omap_app. fold (rdb_writes [ev']) (rdb_writes pre).
      rewrite apply_commands_app, <-K1. by apply (L' pre order post).
Qed.

(** Ticks after [Close] rewrite the file from the same maps. *)
Lemma snapshotLoop_ticks late r :
  ∃ r', snapshotLoop (BTick <$> late) (r, true) = Ret (r', true) ∧ rdb_kv r' = rdb_kv r ∧ rdb_done r' = rdb_done r.
Proof.
  unfold snapshotLoop, bg_run. revert r; induction late as [|order late IH]; intros r; [by exists r|]. cbn.
  destruct (IH (Snapshot order r)) as (r' & E & K & D). by exists r'.
Qed.

(** What is replayed from the snapshot of a content. *)
Lemma snapshot_replay order a :
  (∀ X, order X ≡ₚ elements X) → snap_ok (kv_strings a) (kv_hashes a) → kv_get [] a ≠ Some [] →
  ∃ r cs, RDB_Replay (NewRDB (Some (snapshot_bytes order (kv_strings a) (kv_hashes a)))) = Ret (r, cs, false) ∧ apply_commands cs kv_empty = a.
Proof.
  intros Ho Hok Hne. pose proof (snapshot_apply order Ho _ _ Hok Hne) as Ha. pose proof (replay_written order Ho _ _ Hok) as Hw.
  eexists _, _. split; [unfold RDB_Replay; cbn [rdb_disk NewRDB]; rewrite Hw; reflexivity|]. rewrite Hw in Ha. etrans; [exact Ha|by destruct a].
Qed.

Lemma WAL_Close_buf w w' err : WAL_Close w = Ret (w', err) → wal_buf w' = [].
Proof. unfold WAL_Close. case_match; [done|]. intros. by simplify_eq/=. Qed.

(** ** Theorems *)

(** The sweeps of the background goroutine are the sweeps of the traces in
    TTLStore: what is proved of every trace holds with the goroutine
    running. *)
Theorem sweepLoop_trace {S} `{!StoreOps S} (evs : list ((Env * ttl_op) + Env)) (t : TTLStore S) :
  sweepLoop (ttl_event <$> evs) (t, true) = t' ← ttl_run (ttl_trace <$> evs) t; Ret (t', true).
Proof.
  unfold sweepLoop, bg_run, ttl_run. revert t; induction evs as [|[[e o]|e] evs IH]; intros t; [done| |].
  - cbn -[ttl_step]. destruct (ttl_step e o t) as [t'| | |]; [|done..]. apply IH.
  - cbn -[sweep]. destruct (sweep e t) as [t'| | |]; [|done..]. apply IH.
Qed.

(** A shutdown of the write-ahead log loses nothing: whatever was
    written and flushed before [Close], and whether or not the flush loop
    ticks again or does its last flush before the process ends, the file
    replays exactly the written commands in order. *)
Theorem wal_shutdown `{!UnicodeUpper} (os : list (option Command)) (late : list (bg_event (option Command) ())) :
  Forall cmd_ok (omap id os) → Forall (λ ev, ∀ o, ev ≠ BCall o) late →
  ∃ w b w', flushLoop ((wal_event <$> os) ++ BCall None :: late) (NewWAL [] None, true) = Ret (w, b) ∧
    WAL_Replay (NewWAL (f_data (wal_file w)) None) = Ret (w', omap id os, false).
Proof.
  intros Hcs Hlate. destruct (wal_trace_log os [] (NewWAL [] None)) as (w & E & Hl); [done|].
  destruct (law_restart (omap id os) w) as (w1 & w2 & E1 & E2 & _); [exact Hl|exact Hcs|].
  destruct (flushLoop_closed late w1 true) as (b & Eb); [by eapply WAL_Close_buf|done|].
  exists w1, b, w2. split; [|exact E2]. unfold flushLoop, bg_run in *. rewrite go_foldl_app.
  pose proof (flushLoop_trace os (NewWAL [] None)) as Ht. unfold flushLoop, bg_run in Ht. rewrite Ht, E. cbn -[WAL_Close].
  unfold log_call. cbn -[WAL_Close]. change (p_Close w) with (WAL_Close w) in E1. by rewrite E1.
Qed.

(** C37: what a shutdown leaves in the snapshot file.  [evs] are the writes and
    the ticks before [Close], in any order.  [Close] only closes the channel:
    when it returns, the file replays to the content at the last tick, or is
    the file of the start when there was none, and a process that ends then
    has lost every write since.  Only when the snapshot goroutine receives from
    the channel, after any number of further ticks, is the file rewritten; then
    its replay rebuilds exactly the content all writes describe.  Strings
    and counts are below 2^32, and the empty key does not hold the empty
    string, which Replay drops. *)
Theorem rdb_shutdown (disk : option (list byte)) (evs : list (Command + (gset gostring → list gostring)))
    (late : list (gset gostring → list gostring)) (order : gset gostring → list gostring) :
  (∀ X, order X ≡ₚ elements X) →
  let content l := apply_commands (rdb_writes l) kv_empty in
  snap_ok (kv_strings (content evs)) (kv_hashes (content evs)) → kv_get [] (content evs) ≠ Some [] →
  let stop := (rdb_event <$> evs) ++ [BCall None] in
  ∃ r r' r'' cs, snapshotLoop stop (NewRDB disk, true) = Ret (r, true) ∧
    (Forall (λ ev, ∃ c, ev = inl c) evs → rdb_disk r = disk) ∧
    (∀ pre tick post, evs = pre ++ inr tick :: post → Forall (λ ev, ∃ c, ev = inl c) post → (∀ X, tick X ≡ₚ elements X) →
      snap_ok (kv_strings (content pre)) (kv_hashes (content pre)) → kv_get [] (content pre) ≠ Some [] →
      ∃ r1 cs1, RDB_Replay (NewRDB (rdb_disk r)) = Ret (r1, cs1, false) ∧ apply_commands cs1 kv_empty = content pre) ∧
    snapshotLoop (stop ++ (BTick <$> late) ++ [BDone order]) (NewRDB disk, true) = Ret (r', false) ∧
    RDB_Replay (NewRDB (rdb_disk r')) = Ret (r'', cs, false) ∧ apply_commands cs kv_empty = content evs.
Proof.
  intros Ho content Hok Hne stop. destruct (snapshotLoop_events evs (NewRDB disk) eq_refl) as (r & E & Hd & Hk & Hn & Hl).
  set (rc := mkRDB (rdb_disk r) (rdb_strings r) (rdb_hashes r) true).
  assert (snapshotLoop stop (NewRDB disk, true) = Ret (rc, true)) as Hs.
  { unfold stop, snapshotLoop, bg_run in *. rewrite go_foldl_app, E. cbn. unfold log_call. cbn. unfold RDB_Close. by rewrite Hd. }
  destruct (snapshotLoop_ticks late rc) as (rl & El & Kl & Dl). change (rdb_kv rl = rdb_kv r) in Kl. rewrite Hk in Kl.
  change (rdb_kv (NewRDB disk)) with kv_empty in *. fold (content evs) in Kl.
  destruct (snapshot_replay order (content evs) Ho Hok Hne) as (r'' & cs & Er & Ea).
  exists rc, (Snapshot order rl), r'', cs. split_and!; [exact Hs|exact Hn| | | |exact Ea].
  - intros pre tick post Hev Hpost Ht Hok1 Hne1. cbn [rdb_disk rc]. rewrite (Hl pre tick post Hev Hpost). by apply snapshot_replay.
  - unfold snapshotLoop, bg_run in *. rewrite go_foldl_app, Hs. cbn [mbind go_bind]. rewrite go_foldl_app, El. cbn. by rewrite Dl.
  - cbn [Snapshot rdb_disk]. change (rdb_strings rl) with (kv_strings (rdb_kv rl)). change (rdb_hashes rl) with (kv_hashes (rdb_kv rl)). by rewrite Kl.
Qed.

(** The configured interval is used only when the goroutine starts after the
    constructor has stored it, otherwise the period is 5 s; and an interval of
    0, which [Validate] and [Build] accept, ends the process when it is used. *)
Theorem rdb_interval_race (opens : gostring → bool) (ParseDuration : gostring → option Z) (disk : option (list byte)) :
  ParseDuration (str "0s") = Some 0%Z →
  (∀ d, (0 < d)%Z → NewRDBWithInterval true disk d = Ret (NewRDB disk, d)) ∧
  (∀ d, NewRDBWithInterval false disk d = Ret (NewRDB disk, (5 * Second)%Z)) ∧
  ∃ c s p n file, Validate c = None ∧ Build opens ParseDuration c = inr (s, p, n, PRDB file 0%Z) ∧
    NewRDBWithInterval true disk 0 = Panic.
Proof.
  intros Hp. split; [|split].
  - intros d Hd. unfold NewRDBWithInterval, NewTicker. by rewrite (proj2 (Z.leb_gt _ _) Hd).
  - intros d. reflexivity.
  - exists (mkConfig (Server Default) (Store Default) (mkPers (str "rdb") (str "f") (str "0s") None None) (Eviction Default)).
    eexists _, _, _, (str "f"). split; [vm_compute; reflexivity|]. split; [|reflexivity].
    unfold Build. replace (Validate _) with (@None config_error) by (vm_compute; reflexivity).
    cbn [Config.Store Config.Persistence Config.Eviction buildPersistence].
    rewrite (bool_decide_eq_false_2 (str "rdb" = str "aof")), (bool_decide_eq_false_2 (str "rdb" = str "wal")),
      (bool_decide_eq_true_2 (str "rdb" = str "rdb")), (bool_decide_eq_false_2 (str "0s" = [])) by done.
    rewrite Hp. reflexivity.
Qed.

(** ** Witnesses *)
#[local] Instance upper_same : UnicodeUpper := λ s, s.

Lemma wal_shutdown_witness :
  ∃ w b w', flushLoop ((wal_event <$> [Some wal_cmd; None; Some wal_cmd]) ++ [BCall None; BTick (); BDone ()])
      (NewWAL [] None, true) = Ret (w, b) ∧
    WAL_Replay (NewWAL (f_data (wal_file w)) None) = Ret (w', [wal_cmd; wal_cmd], false).
Proof.
  apply (wal_shutdown [Some wal_cmd; None; Some wal_cmd] [BTick (); BDone ()]); [|by repeat constructor].
  repeat (apply Forall_cons_2; [apply wal_cmd_ok|]). apply Forall_nil_2.
Defined.

(** A write, a tick, the other writes, and the shutdown. *)
Definition rdb_run : list (Command + (gset gostring → list gostring)) :=
  (inl <$> take 1 rdb_cmds) ++ [inr elements] ++ (inl <$> drop 1 rdb_cmds).

Lemma rdb_shutdown_witness :
  let stop := (rdb_event <$> rdb_run) ++ [BCall None] in
  ∃ r r' r'' cs, snapshotLoop stop (NewRDB None, true) = Ret (r, true) ∧
    (∃ r1 cs1, RDB_Replay (NewRDB (rdb_disk r)) = Ret (r1, cs1, false) ∧ apply_commands cs1 kv_empty = apply_commands (take 1 rdb_cmds) kv_empty) ∧
    snapshotLoop (stop ++ [BTick elements; BDone elements]) (NewRDB None, true) = Ret (r', false) ∧
    RDB_Replay (NewRDB (rdb_disk r')) = Ret (r'', cs, false) ∧ apply_commands cs kv_empty = apply_commands rdb_cmds kv_empty.
Proof.
  destruct (rdb_shutdown None rdb_run [elements] elements) as (r & r' & r'' & cs & H1 & _ & H2 & H3 & H4 & H5);
    [done|apply rdb_cmds_ok|vm_compute; discriminate|].
  exists r, r', r'', cs. split; [exact H1|]. split; [|by repeat split].
  destruct (H2 (inl <$> take 1 rdb_cmds) elements (inl <$> drop 1 rdb_cmds)) as (r1 & cs1 & Er & Ec);
    [done| |done| |vm_compute; discriminate|by exists r1, cs1].
  - apply Forall_fmap, Forall_true. intros c. by exists c.
  - assert (kv_strings (apply_commands (take 1 rdb_cmds) kv_empty) = {[str "k" := str "v"]}) as Es by (vm_compute; reflexivity).
    assert (kv_hashes (apply_commands (take 1 rdb_cmds) kv_empty) = ∅) as Eh by (vm_compute; reflexivity).
    change (rdb_writes (inl <$> take 1 rdb_cmds)) with (take 1 rdb_cmds). rewrite Es, Eh.
    split_and!; [apply map_Forall_singleton; unfold short; simpl; lia|rewrite map_size_singleton; lia|rewrite map_size_empty; lia|apply map_Forall_empty].
Defined.
