(* ===== verification/Server.v ===== *)
(** * Server: the program put together, src/main.go

    The state behind the handlers is the TTL store and the log.  [main]
    replays the log into the store, serves commands (the log callback runs
    before the handler) and closes log and store.  The [n]-th handler call
    runs in the environments [supply n]. *)

From stdpp Require Import base list gmap strings.
From Stdlib Require Import ZArith Lia Ascii.
From S2P Require Import Prelude GoLib StoreSpec MapStore GoIO Resp Evict TTLStore Handler Persist AOF WAL Network.
Local Open Scope Z_scope.

Section server.
Context {S P : Type} `{!StoreOps S} `{!PersistenceOps P}.
Context (supply : nat → Envs).

Record server := mkServerState { sv_store : TTLStore S; sv_log : P; sv_calls : nat }.

(** A handler as [main] installs it ([instrument] only measures it). *)
Definition instrument (h : @HandlerFunc S) : list Value → server → go (server * Value) := λ args w,
  '(t, v) ← h (supply (sv_calls w)) args (sv_store w);
  Ret (mkServerState t (sv_log w) (sv_calls w + 1), v).

Definition server_handlers : gmap gostring (list Value → server → go (server * Value)) := instrument <$> NewHandlers.

(** The callback of [n.Listen]; the error of [p.Write] is ignored. *)
Definition server_onWrite (command : gostring) (args : list Value) (w : server) : go server :=
  if bool_decide (command = str "SET") || bool_decide (command = str "HSET") then
    '(p, _) ← p_Write (mkCommand command (v_Bulk <$> args)) (sv_log w);
    Ret (mkServerState (sv_store w) p (sv_calls w))
  else Ret w.

(** The callback of [p.Replay]. *)
Definition replay_command (e : Env) (c : Command) (t : TTLStore S) : go (TTLStore S) :=
  if bool_decide (cmd_Name c = str "SET") then
    match cmd_Args c with k :: v :: _ => TTLStore_Set e k v t | _ => Ret t end
  else if bool_decide (cmd_Name c = str "HSET") then
    match cmd_Args c with h :: k :: v :: _ => TTLStore_HSet e h k v t | _ => Ret t end
  else Ret t.

Fixpoint replay_all (envs : Envs) (i : nat) (cs : list Command) (t : TTLStore S) : go (TTLStore S) :=
  match cs with
  | [] => Ret t
  | c :: cs' => t' ← replay_command (envs i) c t; replay_all envs (i + 1) cs' t'
  end.

(** [main] up to [n.Listen], on the components [config.Build] made; the error
    of [p.Replay] is ignored. *)
Definition boot (envs : Envs) (inner : S) (policy : Policy) (maxKeys : Z) (p : P) : go server :=
  let t := SetEvictionPolicy policy maxKeys (NewTTLStore inner) in
  '(p', cs, _) ← p_Replay p;
  t' ← replay_all envs 0 cs t;
  Ret (mkServerState t' p' 0).

(** The end of [main]: [p.Close()], then [s.Close()]. *)
Definition shutdown (w : server) : go server :=
  '(p, _) ← p_Close (sv_log w);
  t ← TTLStore_Close (sv_store w);
  Ret (mkServerState t p (sv_calls w)).

Definition serve (cs : list (gostring * list Value)) (w : server) : go (server * list byte) :=
  exec_commands server_handlers (Some server_onWrite) cs w.
End server.
Arguments server : clear implicits.

(** ** What the log records *)
Definition logged (c : command) (args : list Value) : list Command :=
  match c with CSet | CHSet => [mkCommand (command_name c) (v_Bulk <$> args)] | _ => [] end.

(** The effect of a command on the content. *)
Definition kv_effect (c : command) (args : list Value) (a : kv) : kv := (kv_command elements c args a).1.

Lemma kv_effect_order order c args a : (kv_command order c args a).1 = kv_effect c args a.
Proof. unfold kv_effect. destruct c; simpl; repeat case_match; try done; simplify_eq; done. Qed.

(** The commands whose effect the log can rebuild. *)
Definition durable (c : command) (args : list Value) : bool :=
  match c with CDel => false | CHSet => bool_decide (length args ≤ 3)%nat | _ => true end.

Lemma durable_logged c args a : durable c args = true → apply_commands (logged c args) a = kv_effect c args a.
Proof.
  intros Hd. destruct c; [..|discriminate Hd]; destruct args as [|x [|y [|z [|]]]]; done.
Qed.

Section proofs.
Context {S P : Type} `{!StoreOps S} `{!StoreLaws S} `{!PersistenceOps P} `{!PersistenceLaws P}.
Context (supply : nat → Envs).

Definition good (a : kv) (log : list Command) (w : server S P) : Prop := plain a (sv_store w) ∧ p_log log (sv_log w).

Lemma server_handlers_command c :
  server_handlers (S:=S) (P:=P) supply !! command_name c = Some (instrument supply (handler_of c)).
Proof. unfold server_handlers. rewrite lookup_fmap, (NewHandlers_command (S:=S)). done. Qed.

Lemma onWrite_good c args a log w :
  good a log w →
  ∃ w', server_onWrite (command_name c) args w = Ret w' ∧ good a (log ++ logged c args) w' ∧ sv_calls w' = sv_calls w.
Proof.
  intros [Hp Hl]. unfold server_onWrite, logged.
  assert (∀ cmd : Command, ∃ w', ('(p, _) ← p_Write cmd (sv_log w); Ret (mkServerState (sv_store w) p (sv_calls w))) = Ret w' ∧
    good a (log ++ [cmd]) w' ∧ sv_calls w' = sv_calls w) as Hw.
  { intros cmd. destruct (law_Write log cmd (sv_log w)) as (p & E & Hl'); [exact Hl|].
    rewrite E. cbn [mbind go_bind]. eexists. split; [done|]. split; [by split|done]. }
  destruct c; try exact (Hw _); (eexists; split; [reflexivity|]; rewrite app_nil_r; split; [by split|done]).
Qed.

Lemma dispatch_good c args a log w :
  good a log w → sets_no_deadline c args = true →
  ∃ w' v, dispatch (Some server_onWrite) (instrument supply (handler_of c)) (command_name c) args w = Ret (w', v) ∧
    good (kv_effect c args a) (log ++ logged c args) w'.
Proof.
  intros Hg Hd. unfold dispatch. destruct (onWrite_good c args a log w Hg) as (w1 & -> & [Hp1 Hl1] & Hn).
  cbn [mbind go_bind]. unfold instrument.
  destruct (handler_refines c (supply (sv_calls w1)) args a (sv_store w1) Hp1 Hd) as (t & -> & Hpt). simpl.
  eexists _, _. split; [done|]. rewrite kv_effect_order in Hpt. by split.
Qed.

(** Commands as they arrive: name and arguments. *)
Definition wire (cs : list (command * list Value)) : list (gostring * list Value) :=
  (λ c, (command_name c.1, c.2)) <$> cs.
Definition effects (cs : list (command * list Value)) (a : kv) : kv := foldl (λ a c, kv_effect c.1 c.2 a) a cs.
Definition log_of (cs : list (command * list Value)) : list Command := concat ((λ c, logged c.1 c.2) <$> cs).

Lemma serve_good cs a log w :
  good a log w → Forall (λ c, sets_no_deadline c.1 c.2 = true) cs →
  ∃ w' out, serve supply (wire cs) w = Ret (w', out) ∧ good (effects cs a) (log ++ log_of cs) w'.
Proof.
  intros Hg Hcs. revert a log w Hg. induction Hcs as [|[c args] cs Hd _ IH]; intros a log w Hg.
  - exists w, []. by rewrite app_nil_r.
  - unfold serve, wire. rewrite fmap_cons. cbn [exec_commands fst snd]. rewrite server_handlers_command.
    destruct (dispatch_good c args a log w Hg Hd) as (w1 & v & -> & Hg1). cbn [mbind go_bind].
    destruct (IH _ _ _ Hg1) as (w2 & out & E & Hg2). unfold serve, wire in E. rewrite E. cbn [mbind go_bind].
    eexists _, _. split; [done|]. unfold log_of in *. rewrite fmap_cons. simpl. by rewrite app_assoc.
Qed.

Lemma durable_log cs a :
  Forall (λ c, durable c.1 c.2 = true) cs → apply_commands (log_of cs) a = effects cs a.
Proof.
  intros Hcs. revert a; induction Hcs as [|[c args] cs Hd _ IH]; intros a; [done|].
  unfold log_of. rewrite fmap_cons. simpl. rewrite apply_commands_app, durable_logged by done. apply IH.
Qed.

Lemma replay_command_plain e c a t :
  plain a t → ∃ t', replay_command e c t = Ret t' ∧ plain (apply_command c a) t'.
Proof.
  intros Hp. unfold replay_command, apply_command. repeat case_bool_decide; [| |by eauto].
  - destruct (cmd_Args c) as [|k [|v args]]; [by eauto..|by apply plain_Set].
  - destruct (cmd_Args c) as [|h [|k [|v args]]]; [by eauto..|by apply plain_HSet].
Qed.

Lemma replay_all_plain envs i cs a t :
  plain a t → ∃ t', replay_all envs i cs t = Ret t' ∧ plain (apply_commands cs a) t'.
Proof.
  revert i a t; induction cs as [|c cs IH]; intros i a t Hp; [by exists t|]. simpl.
  destruct (replay_command_plain (envs i) c a t Hp) as (t1 & -> & Hp1). simpl. by apply IH.
Qed.

(** Starting on a log that replays [cs]. *)
Lemma boot_good envs (s : S) policy p p' cs :
  st_inv s → st_abs s = kv_empty → p_Replay p = Ret (p', cs, false) → p_log cs p' →
  ∃ w, boot envs s policy 0 p = Ret w ∧ good (apply_commands cs kv_empty) cs w.
Proof.
  intros Hi Ha E Hl. unfold boot. rewrite E. cbn [mbind go_bind].
  destruct (replay_all_plain envs 0 cs kv_empty (SetEvictionPolicy policy 0 (NewTTLStore s))) as (t' & -> & Hp).
  { constructor; simpl; done. }
  cbn [mbind go_bind]. eexists. split; [done|]. by split.
Qed.
End proofs.

(** ** Restart *)
Section restart.
Context {S P : Type} `{!StoreOps S} `{!StoreLaws S} `{!PersistenceOps P} `{!PersistenceLaws P}.
Context (supply : nat → Envs) (supply_ok : ∀ n, envs_ok (supply n)).
Context (envs : Envs).

(** Whatever the commands do to the store, the log grows by what they log. *)
Lemma serve_log cs log (w : server S P) :
  ttl_inv (sv_store w) → p_log log (sv_log w) →
  ∃ w' out, serve supply (wire cs) w = Ret (w', out) ∧ ttl_inv (sv_store w') ∧ p_log (log ++ log_of cs) (sv_log w').
Proof.
  revert log w. induction cs as [|[c args] cs IH]; intros log w Hi Hl.
  - exists w, []. by rewrite app_nil_r.
  - unfold serve, wire. rewrite fmap_cons. cbn [exec_commands fst snd]. rewrite server_handlers_command.
    assert (∃ w1, server_onWrite (command_name c) args w = Ret w1 ∧ sv_store w1 = sv_store w ∧
      p_log (log ++ logged c args) (sv_log w1)) as (w1 & E1 & Es & Hl1).
    { unfold server_onWrite, logged.
      assert (∀ cmd : Command, ∃ w', ('(p, _) ← p_Write cmd (sv_log w); Ret (mkServerState (sv_store w) p (sv_calls w))) = Ret w' ∧
        sv_store w' = sv_store w ∧ p_log (log ++ [cmd]) (sv_log w')) as Hw.
      { intros cmd. destruct (law_Write log cmd (sv_log w)) as (p & E & Hl'); [exact Hl|].
        rewrite E. cbn [mbind go_bind]. by eexists. }
      destruct c; try exact (Hw _); (eexists; split; [reflexivity|]; by rewrite app_nil_r). }
    unfold dispatch. rewrite E1. cbn [mbind go_bind]. unfold instrument. rewrite Es.
    destruct (handler_inv c (supply (sv_calls w1)) args (sv_store w) (supply_ok _) Hi) as (t & v & -> & Hi1).
    cbn [mbind go_bind]. destruct (IH (log ++ logged c args) (mkServerState t (sv_log w1) (sv_calls w1 + 1)) Hi1 Hl1)
      as (w2 & out & E & Hi2 & Hl2).
    unfold serve, wire in E. rewrite E. cbn [mbind go_bind]. eexists _, _. split; [done|]. split; [done|].
    unfold log_of in *. rewrite fmap_cons. simpl. by rewrite app_assoc.
Qed.

(** A fresh server: empty store, empty log. *)
Definition fresh (s : S) (p : P) : Prop :=
  st_inv s ∧ st_abs s = kv_empty ∧ ∃ p', p_Replay p = Ret (p', [], false) ∧ p_log [] p'.

Lemma boot_fresh (s : S) policy (p : P) :
  fresh s p → ∃ w, boot envs s policy 0 p = Ret w ∧ good kv_empty [] w ∧ ttl_inv (sv_store w).
Proof.
  intros (Hi & Ha & p' & E & Hl). unfold boot. rewrite E. cbn [mbind go_bind replay_all].
  eexists. split; [done|]. split; [split; [by constructor|exact Hl]|]. by apply (NewTTLStore_inv s).
Qed.

(** Serve any commands, close the log, start again on it. *)
Lemma restart_log cs (s : S) policy (p : P) :
  fresh s p → p_admits (log_of cs) →
  ∃ w1 w2 out p1 w3, boot envs s policy 0 p = Ret w1 ∧ serve supply (wire cs) w1 = Ret (w2, out) ∧
    p_Close (sv_log w2) = Ret (p1, false) ∧ boot envs s policy 0 (p_reopen p1) = Ret w3 ∧
    good (apply_commands (log_of cs) kv_empty) (log_of cs) w3.
Proof.
  intros Hf Had. destruct (boot_fresh s policy p Hf) as (w1 & E1 & [_ Hl1] & Hi1).
  destruct (serve_log cs [] w1 Hi1 Hl1) as (w2 & out & E2 & _ & Hl2).
  destruct (law_restart (log_of cs) (sv_log w2)) as (p1 & p2 & E3 & E4 & Hl3); [exact Hl2|exact Had|].
  destruct Hf as (Hi & Ha & _). destruct (boot_good envs s policy (p_reopen p1) p2 (log_of cs) Hi Ha E4 Hl3) as (w3 & E5 & Hg).
  by exists w1, w2, out, p1, w3.
Qed.

(** The content before the restart, when no deadline is involved. *)
Lemma serve_content cs (s : S) policy (p : P) w1 w2 out :
  fresh s p → Forall (λ c, sets_no_deadline c.1 c.2 = true) cs →
  boot envs s policy 0 p = Ret w1 → serve supply (wire cs) w1 = Ret (w2, out) →
  st_abs (t_inner (sv_store w2)) = effects cs kv_empty.
Proof.
  intros Hf Hcs E1 E2. destruct (boot_fresh s policy p Hf) as (w1' & E1' & Hg & _). rewrite E1 in E1'. injection E1' as <-.
  destruct (serve_good supply cs kv_empty [] w1 Hg Hcs) as (w2' & out' & E2' & [Hp _]). rewrite E2 in E2'.
  injection E2' as <- <-. apply Hp.
Qed.

(** What a restart rebuilds: after any commands, with any clock, closing
    the log and starting again on it gives a store whose content is that of
    the logged SET and HSET commands applied in order, and no deadlines. *)
Theorem server_restart_content (cs : list (command * list Value)) (s : S) (policy : Policy) (p : P) :
  fresh s p → p_admits (log_of cs) →
  ∃ w1 w2 out p1 w3, boot envs s policy 0 p = Ret w1 ∧ serve supply (wire cs) w1 = Ret (w2, out) ∧
    p_Close (sv_log w2) = Ret (p1, false) ∧ boot envs s policy 0 (p_reopen p1) = Ret w3 ∧
    st_abs (t_inner (sv_store w3)) = apply_commands (log_of cs) kv_empty ∧ t_expireAt (sv_store w3) = ∅.
Proof.
  intros Hf Had. destruct (restart_log cs s policy p Hf Had) as (w1 & w2 & out & p1 & w3 & ? & ? & ? & ? & [Hp _]).
  exists w1, w2, out, p1, w3. split_and!; [done..| |]; apply Hp.
Qed.

(** Durability of the server: when the commands are reads, SETs without
    deadline and HSETs of the right arity, the store after a restart holds
    exactly what it held before. *)
Theorem server_restart_recovers (cs : list (command * list Value)) (s : S) (policy : Policy) (p : P) :
  fresh s p → p_admits (log_of cs) →
  Forall (λ c, sets_no_deadline c.1 c.2 = true) cs → Forall (λ c, durable c.1 c.2 = true) cs →
  ∃ w1 w2 out p1 w3, boot envs s policy 0 p = Ret w1 ∧ serve supply (wire cs) w1 = Ret (w2, out) ∧
    p_Close (sv_log w2) = Ret (p1, false) ∧ boot envs s policy 0 (p_reopen p1) = Ret w3 ∧
    st_abs (t_inner (sv_store w3)) = st_abs (t_inner (sv_store w2)).
Proof.
  intros Hf Had Hnd Hdu. destruct (restart_log cs s policy p Hf Had) as (w1 & w2 & out & p1 & w3 & E1 & E2 & E3 & E4 & [Hp _]).
  exists w1, w2, out, p1, w3. split_and!; [done..|].
  rewrite (serve_content cs s policy p w1 w2 out Hf Hnd E1 E2), (pl_abs _ _ Hp). by apply durable_log.
Qed.

(** A deletion is not durable: DEL is not logged, so a key that was set
    and deleted is back after a restart. *)
Theorem server_restart_resurrects (k v : gostring) (s : S) (policy : Policy) (p : P) :
  let cs := [(CSet, [VBulk k; VBulk v]); (CDel, [VBulk k])] in
  fresh s p → p_admits (log_of cs) →
  ∃ w1 w2 out p1 w3, boot envs s policy 0 p = Ret w1 ∧ serve supply (wire cs) w1 = Ret (w2, out) ∧
    p_Close (sv_log w2) = Ret (p1, false) ∧ boot envs s policy 0 (p_reopen p1) = Ret w3 ∧
    kv_get k (st_abs (t_inner (sv_store w2))) = None ∧ kv_get k (st_abs (t_inner (sv_store w3))) = Some v.
Proof.
  intros cs Hf Had. destruct (restart_log cs s policy p Hf Had) as (w1 & w2 & out & p1 & w3 & E1 & E2 & E3 & E4 & [Hp _]).
  exists w1, w2, out, p1, w3. split_and!; [done..| |].
  - rewrite (serve_content cs s policy p w1 w2 out Hf) by (done || (repeat (apply Forall_cons_2; [reflexivity|]); apply Forall_nil_2)).
    unfold effects, kv_effect, cs. simpl.
    assert (kv_get k (kv_set k v kv_empty) = Some v) as -> by apply lookup_insert_eq. apply lookup_delete_eq.
  - rewrite (pl_abs _ _ Hp). apply lookup_insert_eq.
Qed.

(** A rejected HSET takes effect after a restart: with a fourth argument
    the handler answers an error and changes nothing, but the command is in
    the log and the replay accepts it. *)
Theorem server_restart_applies_rejected (h k v x : gostring) (s : S) (policy : Policy) (p : P) :
  let cs := [(CHSet, [VBulk h; VBulk k; VBulk v; VBulk x])] in
  fresh s p → p_admits (log_of cs) →
  ∃ w1 w2 out p1 w3, boot envs s policy 0 p = Ret w1 ∧ serve supply (wire cs) w1 = Ret (w2, out) ∧
    p_Close (sv_log w2) = Ret (p1, false) ∧ boot envs s policy 0 (p_reopen p1) = Ret w3 ∧
    st_abs (t_inner (sv_store w2)) = kv_empty ∧ kv_hget h k (st_abs (t_inner (sv_store w3))) = Some v.
Proof.
  intros cs Hf Had. destruct (restart_log cs s policy p Hf Had) as (w1 & w2 & out & p1 & w3 & E1 & E2 & E3 & E4 & [Hp _]).
  exists w1, w2, out, p1, w3. split_and!; [done..| |].
  - rewrite (serve_content cs s policy p w1 w2 out Hf) by (done || (repeat (apply Forall_cons_2; [reflexivity|]); apply Forall_nil_2)).
    reflexivity.
  - rewrite (pl_abs _ _ Hp). unfold kv_hget. simpl. rewrite lookup_insert_eq. simpl. by rewrite lookup_insert_eq.
Qed.
End restart.

(** ** Witnesses: a map store and a write-ahead log *)
#[local] Instance upper_id : UnicodeUpper := λ s, s.

Lemma fresh_map_wal : fresh NewMapStore (NewWAL [] None).
Proof. split; [done|]. split; [reflexivity|]. eexists. split; [reflexivity|]. by repeat split. Qed.

Definition cmd_okb (c : Command) : bool :=
  negb (bool_decide (cmd_Name c = [])) && is_upper (cmd_Name c) && Nat.ltb (length (cmd_Name c)) 100 &&
  Nat.ltb (length (cmd_Args c)) 100 && forallb (λ a, Nat.ltb (length a) 100) (cmd_Args c).

Lemma cmd_okb_ok c : cmd_okb c = true → cmd_ok c.
Proof.
  unfold cmd_okb. rewrite !andb_true_iff, negb_true_iff, bool_decide_eq_false, !Nat.ltb_lt.
  intros ((((? & ?) & ?) & ?) & Hf). split_and!; [done|done|lia|lia|].
  apply forallb_Forall_iff in Hf. eapply Forall_impl; [exact Hf|]. intros a Ha%Nat.ltb_lt. lia.
Qed.

Lemma cmds_ok cs : forallb cmd_okb cs = true → Forall cmd_ok cs.
Proof. intros H%forallb_Forall_iff. eapply Forall_impl; [exact H|]. apply cmd_okb_ok. Qed.

Definition demo_cmds : list (command * list Value) :=
  [(CSet, bulks ["k"; "v"]%string); (CHSet, bulks ["h"; "f"; "1"]%string); (CGet, bulks ["k"]%string); (CSet, bulks ["k"]%string)].
Definition clock : nat → Envs := λ n, at_ (Z.of_nat n).
Lemma clock_ok n : envs_ok (clock n).
Proof. apply at_ok. Qed.

Lemma server_restart_content_witness :
  let cs := (CExpire, bulks ["k"; "1"]%string) :: demo_cmds ++ [(CDel, bulks ["k"]%string)] in
  ∃ w1 w2 out p1 w3, boot (at_ 0) NewMapStore NoEviction 0 (NewWAL [] None) = Ret w1 ∧ serve clock (wire cs) w1 = Ret (w2, out) ∧
    p_Close (sv_log w2) = Ret (p1, false) ∧ boot (at_ 0) NewMapStore NoEviction 0 (p_reopen p1) = Ret w3.
Proof.
  intros cs. destruct (server_restart_content clock clock_ok (at_ 0) cs NewMapStore NoEviction (NewWAL [] None))
    as (w1 & w2 & out & p1 & w3 & E1 & E2 & E3 & E4 & _);
    [apply fresh_map_wal|apply cmds_ok; vm_compute; reflexivity|].
  exists w1, w2, out, p1, w3. split_and!; [exact E1|exact E2|exact E3|exact E4].
Defined.

Lemma server_restart_recovers_witness :
  ∃ w1 w2 out p1 w3, boot (at_ 0) NewMapStore NoEviction 0 (NewWAL [] None) = Ret w1 ∧ serve clock (wire demo_cmds) w1 = Ret (w2, out) ∧
    p_Close (sv_log w2) = Ret (p1, false) ∧ boot (at_ 0) NewMapStore NoEviction 0 (p_reopen p1) = Ret w3 ∧
    st_abs (t_inner (sv_store w3)) = st_abs (t_inner (sv_store w2)).
Proof.
  apply (server_restart_recovers clock clock_ok (at_ 0) demo_cmds NewMapStore NoEviction (NewWAL [] None)).
  - apply fresh_map_wal.
  - apply cmds_ok. vm_compute. reflexivity.
  - repeat (apply Forall_cons_2; [vm_compute; reflexivity|]). apply Forall_nil_2.
  - repeat (apply Forall_cons_2; [vm_compute; reflexivity|]). apply Forall_nil_2.
Defined.

Lemma server_restart_resurrects_witness :
  let cs := [(CSet, [VBulk (str "k"); VBulk (str "v")]); (CDel, [VBulk (str "k")])] in
  ∃ w1 w2 out p1 w3, boot (at_ 0) NewMapStore NoEviction 0 (NewWAL [] None) = Ret w1 ∧ serve clock (wire cs) w1 = Ret (w2, out) ∧
    p_Close (sv_log w2) = Ret (p1, false) ∧ boot (at_ 0) NewMapStore NoEviction 0 (p_reopen p1) = Ret w3 ∧
    kv_get (str "k") (st_abs (t_inner (sv_store w2))) = None ∧ kv_get (str "k") (st_abs (t_inner (sv_store w3))) = Some (str "v").
Proof.
  apply (server_restart_resurrects clock clock_ok (at_ 0) (str "k") (str "v") NewMapStore NoEviction (NewWAL [] None));
    [apply fresh_map_wal|apply cmds_ok; vm_compute; reflexivity].
Defined.

Lemma server_restart_applies_rejected_witness :
  let cs := [(CHSet, [VBulk (str "h"); VBulk (str "k"); VBulk (str "v"); VBulk (str "x")])] in
  ∃ w1 w2 out p1 w3, boot (at_ 0) NewMapStore NoEviction 0 (NewWAL [] None) = Ret w1 ∧ serve clock (wire cs) w1 = Ret (w2, out) ∧
    p_Close (sv_log w2) = Ret (p1, false) ∧ boot (at_ 0) NewMapStore NoEviction 0 (p_reopen p1) = Ret w3 ∧
    st_abs (t_inner (sv_store w2)) = kv_empty ∧ kv_hget (str "h") (str "k") (st_abs (t_inner (sv_store w3))) = Some (str "v").
Proof.
  apply (server_restart_applies_rejected clock clock_ok (at_ 0) (str "h") (str "k") (str "v") (str "x") NewMapStore NoEviction (NewWAL [] None));
    [apply fresh_map_wal|apply cmds_ok; vm_compute; reflexivity].
Defined.

(** ** A store that comes with content *)

(** The keys a Bitcask store recovers from its file are not tracked: a server
    that starts on a store with content counts no keys, and writing to it
    evicts nothing although the content exceeds the limit. *)
Theorem recovered_keys_untracked {S} `{!StoreOps S} `{!StoreLaws S} (envs : Envs) (s : S) (policy : Policy) (m : Z) :
  st_inv s → 1 ≤ m →
  ∃ w, boot envs s policy m NewNullPersistence = Ret w ∧ st_abs (t_inner (sv_store w)) = st_abs s ∧
    KeyCount (sv_store w) = 0%nat ∧
    ∀ e k v, ∃ t, TTLStore_Set e k v (sv_store w) = Ret t ∧ st_abs (t_inner t) = kv_set k v (st_abs s).
Proof.
  intros Hi Hm. eexists. split; [reflexivity|]. split; [done|]. split; [reflexivity|]. intros e k v. cbn [sv_store].
  destruct (Set_unfold e k v (SetEvictionPolicy policy m (NewTTLStore s))) as (s' & -> & Hi' & Ha'); [exact Hi|].
  exists (track e k (with_inner s' (SetEvictionPolicy policy m (NewTTLStore s)))). split; [|exact Ha'].
  unfold evictIfNeeded, shouldEvict. cbn [t_maxKeys t_allKeys track with_inner SetEvictionPolicy NewTTLStore].
  rewrite (proj2 (Z.ltb_ge _ (Z.of_nat _))); [by rewrite andb_false_r|].
  rewrite union_empty_r_L, size_singleton. lia.
Qed.

Lemma recovered_keys_untracked_witness :
  let s := mkMapStore {[str "a" := str "1"; str "b" := str "2"; str "c" := str "3"]} ∅ in
  ∃ w, boot (at_ 0) s (LRU NewLRUPolicy) 1 NewNullPersistence = Ret w ∧ st_abs (t_inner (sv_store w)) = st_abs s ∧
    KeyCount (sv_store w) = 0%nat.
Proof.
  intros s. destruct (recovered_keys_untracked (at_ 0) s (LRU NewLRUPolicy) 1) as (w & E1 & E2 & E3 & _); [done|lia|].
  by exists w.
Defined.
