(* ===== verification/ServerConc.v ===== *)
(** * ServerConc: connections served at the same time, src/main.go, src/network

    Every connection has a goroutine that runs the log callback and then the
    handler of each of its requests, without a lock around the two: between
    them the goroutines of other connections run.  A step here is one call
    of the callback or one call of a handler (with its reply); a schedule
    names the connection that takes the next step.  The run is compared with
    an abstract machine that only records in which order the commands were
    logged and in which order they were executed. *)

From stdpp Require Import base list gmap strings.
From Stdlib Require Import ZArith Lia Ascii.
From S2P Require Import Prelude GoLib StoreSpec MapStore GoIO Resp Evict TTLStore Handler Persist WAL Network Server.

(** ** The goroutines *)

(** A goroutine: the request whose callback has run, the requests to come,
    what it has written to its client. *)
Record goroutine := mkGo {
  g_flight : option (gostring * list Value);
  g_todo : list (gostring * list Value);
  g_out : list byte
}.

Section conc.
Context {S P : Type} `{!StoreOps S} `{!PersistenceOps P}.
Context (supply : nat → Envs).

(** One step of goroutine [i]: the callback of its next request, or the
    handler of the request in flight.  Unknown commands are skipped. *)
Definition go_step (i : nat) (x : list goroutine * server S P) : go (list goroutine * server S P) :=
  let '(gs, w) := x in
  match gs !! i with
  | Some (mkGo (Some (name, args)) todo out) =>
      match server_handlers supply !! name with
      | None => Ret (<[i := mkGo None todo out]> gs, w)
      | Some h => '(w', v) ← h args w; Ret (<[i := mkGo None todo (Writer_Write v out)]> gs, w')
      end
  | Some (mkGo None ((name, args) :: todo) out) =>
      match server_handlers (S:=S) (P:=P) supply !! name with
      | None => Ret (<[i := mkGo None todo out]> gs, w)
      | Some _ => w' ← server_onWrite name args w; Ret (<[i := mkGo (Some (name, args)) todo out]> gs, w')
      end
  | _ => Ret x
  end.

Definition go_run : list nat → list goroutine * server S P → go (list goroutine * server S P) := go_foldl go_step.
End conc.

(** The goroutines of new connections with their requests. *)
Definition conn_start (progs : list (list (command * list Value))) : list goroutine :=
  (λ cs, mkGo None (wire cs) []) <$> progs.

(** Every request was answered. *)
Definition idle (g : goroutine) : Prop := g_flight g = None ∧ g_todo g = [].

(** ** The abstract machine *)
Definition cmd : Type := command * list Value.

Record actor := mkActor { a_flight : option cmd; a_todo : list cmd }.

(** The commands with the number of their connection, in the order of the
    handlers and in the order of the log. *)
Record machine := mkMachine { m_actors : list actor; m_done : list (nat * cmd); m_logged : list (nat * cmd) }.

Definition m_step (i : nat) (m : machine) : machine :=
  match m_actors m !! i with
  | Some (mkActor (Some c) todo) =>
      mkMachine (<[i := mkActor None todo]> (m_actors m)) (m_done m ++ [(i, c)]) (m_logged m)
  | Some (mkActor None (c :: todo)) =>
      mkMachine (<[i := mkActor (Some c) todo]> (m_actors m)) (m_done m) (m_logged m ++ [(i, c)])
  | _ => m
  end.

Definition m_run (sched : list nat) (m : machine) : machine := foldl (λ m i, m_step i m) m sched.
Definition m_start (progs : list (list cmd)) : machine := mkMachine (mkActor None <$> progs) [] [].

(** The log and the execution keep the order of each connection; what is
    logged and not executed is in flight. *)
Definition m_inv (progs : list (list cmd)) (m : machine) : Prop :=
  ∀ i, match m_actors m !! i with
       | Some a =>
           by_thread i (m_logged m) = by_thread i (m_done m) ++ option_list (a_flight a) ∧
           progs !! i = Some (by_thread i (m_logged m) ++ a_todo a)
       | None => by_thread i (m_logged m) = [] ∧ by_thread i (m_done m) = [] ∧ progs !! i = None
       end.

Lemma m_start_inv progs : m_inv progs (m_start progs).
Proof. intros i. simpl. rewrite list_lookup_fmap. destruct (progs !! i); simpl; done. Qed.

Lemma m_step_inv progs i m : m_inv progs m → m_inv progs (m_step i m).
Proof.
  intros Hm. unfold m_step. destruct (m_actors m !! i) as [[[c|] todo]|] eqn:E; [| |done].
  - intros j. specialize (Hm j). simpl. rewrite by_thread_app, by_thread_one. case_decide as Hij; subst.
    + rewrite E in Hm. destruct Hm as [H1 H2]. rewrite list_lookup_insert_eq by (by eapply lookup_lt_Some).
      cbn [a_flight a_todo option_list] in *. by rewrite app_nil_r.
    + rewrite list_lookup_insert_ne, app_nil_r by done. exact Hm.
  - destruct todo as [|c todo]; [done|].
    intros j. specialize (Hm j). simpl. rewrite by_thread_app, by_thread_one. case_decide as Hij; subst.
    + rewrite E in Hm. destruct Hm as [H1 H2]. rewrite list_lookup_insert_eq by (by eapply lookup_lt_Some).
      cbn [a_flight a_todo option_list] in *. rewrite H1, app_nil_r in *. by rewrite <-app_assoc.
    + rewrite list_lookup_insert_ne, app_nil_r by done. exact Hm.
Qed.

Lemma m_run_inv progs sched m : m_inv progs m → m_inv progs (m_run sched m).
Proof. revert m; induction sched as [|i sched IH]; intros m Hm; [done|]. apply IH. by apply m_step_inv. Qed.

(** Nothing is logged twice or dropped: the log and what is still to come are
    the requests of all connections. *)
Definition to_come (m : machine) : list cmd := concat (a_todo <$> m_actors m).

Lemma to_come_same i m fl fl' td :
  m_actors m !! i = Some (mkActor fl td) → concat (a_todo <$> <[i := mkActor fl' td]> (m_actors m)) = to_come m.
Proof.
  intros E. unfold to_come. f_equal. apply list_eq. intros j. rewrite !list_lookup_fmap.
  destruct (decide (i = j)) as [->|]; [|by rewrite list_lookup_insert_ne].
  rewrite list_lookup_insert_eq by (by eapply lookup_lt_Some). by rewrite E.
Qed.

Lemma to_come_next i m fl fl' c td :
  m_actors m !! i = Some (mkActor fl (c :: td)) →
  to_come m ≡ₚ c :: concat (a_todo <$> <[i := mkActor fl' td]> (m_actors m)).
Proof.
  intros E. unfold to_come. pose proof (lookup_lt_Some _ _ _ E) as Hlt.
  rewrite insert_take_drop by done. rewrite <-(take_drop_middle _ _ _ E) at 1.
  rewrite !fmap_app, !fmap_cons, !concat_app. simpl. symmetry. apply Permutation_middle.
Qed.

Definition m_all (progs : list (list cmd)) (m : machine) : Prop := (m_logged m).*2 ++ to_come m ≡ₚ concat progs.

Lemma m_step_all progs i m : m_all progs m → m_all progs (m_step i m).
Proof.
  unfold m_all. intros Hm. unfold m_step. destruct (m_actors m !! i) as [[[c|] td]|] eqn:E; [| |done].
  - unfold to_come. cbn [m_logged m_actors]. by rewrite (to_come_same i m (Some c) None td E).
  - destruct td as [|c td]; [done|]. unfold to_come. cbn [m_logged m_actors].
    rewrite fmap_app. simpl. rewrite <-app_assoc. rewrite <-Hm. apply Permutation_app_head. simpl. symmetry.
    by apply to_come_next with (fl := None).
Qed.

Lemma m_run_all progs sched m : m_all progs m → m_all progs (m_run sched m).
Proof. revert m; induction sched as [|i sched IH]; intros m Hm; [done|]. apply IH. by apply m_step_all. Qed.

Lemma m_start_all progs : m_all progs (m_start progs).
Proof. unfold m_all, to_come, m_start. simpl. rewrite <-list_fmap_compose. by rewrite (list_fmap_ext _ id), list_fmap_id. Qed.

(** ** Content, one key at a time *)
Definition agree (k : gostring) (a b : kv) : Prop :=
  kv_strings a !! k = kv_strings b !! k ∧ kv_hashes a !! k = kv_hashes b !! k.

Lemma agree_ext a b : (∀ k, agree k a b) → a = b.
Proof. destruct a, b. intros H. f_equal; apply map_eq; intros k; apply (H k). Qed.

(** The command is a write of the key or hash [k]. *)
Definition writes (k : gostring) (c : cmd) : bool :=
  match c with
  | (CSet, x :: _) | (CHSet, x :: _) => bool_decide (v_Bulk x = k)
  | _ => false
  end.

(** Other commands than the writes of [k] leave it alone, and the writes of
    [k] only depend on it. *)
Lemma kv_effect_agree k (c : cmd) a b :
  durable c.1 c.2 = true → agree k a b →
  agree k (kv_effect c.1 c.2 a) (if writes k c then kv_effect c.1 c.2 b else b).
Proof.
  destruct c as [c args]. intros Hd [H1 H2]. unfold kv_effect, agree in *.
  destruct c; try discriminate Hd; destruct args as [|x [|y [|z [|u args]]]]; cbn -[kv_set kv_hset] in *;
    repeat case_bool_decide; subst; cbn in *;
    rewrite ?lookup_insert_eq, ?lookup_insert_ne by done; rewrite ?H1, ?H2; try done.
Qed.

Lemma effects_agree k l a b :
  Forall (λ c : cmd, durable c.1 c.2 = true) l → agree k a b →
  agree k (effects l a) (effects (filter (λ c, writes k c = true) l) b).
Proof.
  intros Hl. revert a b. induction Hl as [|c l Hc _ IH]; intros a b Hab; [done|].
  rewrite filter_cons. pose proof (kv_effect_agree k c a b Hc Hab) as Hstep.
  destruct (writes k c) eqn:E; [rewrite decide_True by done|rewrite decide_False by congruence]; by apply IH.
Qed.

(** A key that one connection owns: its writes are those of the connection. *)
Lemma filter_owner k i (l : list (nat * cmd)) :
  (∀ j c, (j, c) ∈ l → writes k c = true → j = i) →
  filter (λ c, writes k c = true) l.*2 = filter (λ c, writes k c = true) (by_thread i l).
Proof.
  intros Ho. induction l as [|[j c] l IH]; [done|].
  assert (filter (λ c, writes k c = true) l.*2 = filter (λ c, writes k c = true) (by_thread i l)) as IH'.
  { apply IH. intros j' c' Hin. apply Ho. by right. }
  change ((j, c) :: l) with ([(j, c)] ++ l). rewrite by_thread_app, by_thread_one, fmap_app, !filter_app, IH'. f_equal.
  simpl. rewrite !filter_cons. destruct (writes k c) eqn:E.
  - rewrite (Ho j c) by (done || by left). rewrite decide_True by done. rewrite (decide_True (P := i = i)) by done.
    by rewrite filter_cons, decide_True by done.
  - rewrite decide_False by congruence. case_decide; [|done]. by rewrite filter_cons, decide_False by congruence.
Qed.

(** No key is written by two connections. *)
Definition disjoint_writes (progs : list (list cmd)) : Prop :=
  ∀ i j p q c d k, progs !! i = Some p → progs !! j = Some q → c ∈ p → d ∈ q →
    writes k c = true → writes k d = true → i = j.

(** Two orders that keep each connection's own order give the same content. *)
Lemma effects_disjoint progs (l1 l2 : list (nat * cmd)) a :
  disjoint_writes progs → Forall (λ c : cmd, durable c.1 c.2 = true) l1.*2 → Forall (λ c : cmd, durable c.1 c.2 = true) l2.*2 →
  (∀ i c, c ∈ by_thread i l1 → ∃ p, progs !! i = Some p ∧ c ∈ p) →
  (∀ i, by_thread i l1 = by_thread i l2) → effects l1.*2 a = effects l2.*2 a.
Proof.
  intros Hd D1 D2 Hin He. apply agree_ext. intros k.
  assert (∀ i c (l : list (nat * cmd)), (i, c) ∈ l ↔ c ∈ by_thread i l) as Hof.
  { intros i c l. unfold by_thread. rewrite list_elem_of_fmap. setoid_rewrite list_elem_of_filter. split.
    - intros H. by exists (i, c).
    - by intros ([j d] & -> & Hj & H); simpl in *; subst. }
  assert (∃ i, (∀ j c, (j, c) ∈ l1 → writes k c = true → j = i) ∧ (∀ j c, (j, c) ∈ l2 → writes k c = true → j = i)) as (i & O1 & O2).
  { destruct (decide (Exists (λ x, writes k x.2 = true) l1)) as [Hex|Hno].
    - apply Exists_exists in Hex as ([i c] & Hc & Hw). exists i. rewrite Hof in Hc. destruct (Hin _ _ Hc) as (p & Hp & Hcp).
      split; intros j d Hjd Hwd; apply Hof in Hjd; rewrite <-?He in Hjd; destruct (Hin _ _ Hjd) as (q & Hq & Hdq);
        by apply (Hd j i q p d c k).
    - exists 0. assert (∀ j c, (j, c) ∈ l1 → writes k c = true → False) as Hn.
      { intros j c Hjc Hw. apply Hno, Exists_exists. by exists (j, c). }
      split; intros j c Hjc Hw; exfalso; apply (Hn j c); [done..| |done]. by rewrite Hof, He, <-Hof. }
  pose proof (effects_agree k l1.*2 a a D1 (conj eq_refl eq_refl)) as A1.
  pose proof (effects_agree k l2.*2 a a D2 (conj eq_refl eq_refl)) as A2.
  rewrite (filter_owner k i l1 O1) in A1. rewrite (filter_owner k i l2 O2), <-(He i) in A2.
  destruct A1 as [A1 B1], A2 as [A2 B2]. split; congruence.
Qed.

(** ** The goroutines follow the abstract machine *)
Definition wire_cmd (c : cmd) : gostring * list Value := (command_name c.1, c.2).

Definition tracks (g : goroutine) (a : actor) : Prop :=
  g_flight g = wire_cmd <$> a_flight a ∧ g_todo g = wire (a_todo a) ∧
  Forall (λ c : cmd, sets_no_deadline c.1 c.2 = true) (option_list (a_flight a) ++ a_todo a).

Section sim.
Context {S P : Type} `{!StoreOps S} `{!StoreLaws S} `{!PersistenceOps P} `{!PersistenceLaws P}.
Context (supply : nat → Envs).

Definition sim (x : list goroutine * server S P) (m : machine) : Prop :=
  Forall2 tracks x.1 (m_actors m) ∧
  good (effects (m_done m).*2 kv_empty) (log_of (m_logged m).*2) x.2.

Lemma log_of_app l1 l2 : log_of (l1 ++ l2) = log_of l1 ++ log_of l2.
Proof. unfold log_of. by rewrite fmap_app, concat_app. Qed.

Lemma snd_snoc (l : list (nat * cmd)) i c : (l ++ [(i, c)]).*2 = l.*2 ++ [c].
Proof. by rewrite fmap_app. Qed.

Lemma effects_snoc l (c : cmd) a : effects (l ++ [c]) a = kv_effect c.1 c.2 (effects l a).
Proof. unfold effects. by rewrite foldl_app. Qed.

Lemma go_step_sim i x m :
  sim x m → ∃ x', go_step supply i x = Ret x' ∧ sim x' (m_step i m).
Proof.
  destruct x as [gs w]. intros [Ht Hg]. simpl in Ht, Hg. unfold m_step.
  destruct (m_actors m !! i) as [a|] eqn:Ea.
  2:{ exists (gs, w). unfold go_step. assert (gs !! i = None) as ->; [|done].
      apply lookup_ge_None. rewrite (Forall2_length _ _ _ Ht). by apply lookup_ge_None. }
  destruct (Forall2_lookup_r _ _ _ _ _ Ht Ea) as (g & Eg & Hf & Htd & Hnd). unfold go_step. rewrite Eg.
  destruct a as [[c|] td], g as [fl tg out]; cbn in Hf, Htd, Hnd; subst.
  - unfold wire_cmd. cbv beta iota.
    rewrite server_handlers_command. destruct Hg as [Hp Hl].
    apply Forall_cons in Hnd as [Hc Hnd]. unfold instrument.
    destruct (handler_refines c.1 (supply (sv_calls w)) c.2 _ (sv_store w) Hp Hc) as (t & -> & Hpt). simpl.
    eexists. split; [done|]. split; simpl.
    + apply Forall2_insert; [done|]. by split.
    + rewrite snd_snoc, effects_snoc. rewrite kv_effect_order in Hpt. by split.
  - destruct td as [|c td]; [by exists (gs, w)|].
    cbn [fmap list_fmap]. cbv beta iota. rewrite server_handlers_command.
    destruct (onWrite_good c.1 c.2 _ _ w Hg) as (w' & -> & Hg' & _). simpl.
    eexists. split; [done|]. split; simpl.
    + apply Forall2_insert; [done|]. by split.
    + rewrite snd_snoc, log_of_app. unfold log_of at 2. simpl. by rewrite app_nil_r.
Qed.

Lemma go_run_sim sched x m :
  sim x m → ∃ x', go_run supply sched x = Ret x' ∧ sim x' (m_run sched m).
Proof.
  revert x m; induction sched as [|i sched IH]; intros x m Hs; [by exists x|].
  destruct (go_step_sim i x m Hs) as (x1 & E1 & Hs1). destruct (IH x1 (m_step i m) Hs1) as (x2 & E2 & Hs2).
  exists x2. split; [|exact Hs2]. unfold go_run in *. cbn [go_foldl]. by rewrite E1.
Qed.

Lemma start_sim progs w :
  Forall (Forall (λ c : cmd, sets_no_deadline c.1 c.2 = true)) progs → good kv_empty [] w → sim (conn_start progs, w) (m_start progs).
Proof.
  intros Hnd Hg. split; [|exact Hg]. simpl. unfold conn_start. apply Forall2_fmap, Forall_Forall2_diag.
  eapply Forall_impl; [exact Hnd|]. intros p Hp. by repeat split.
Qed.

(** When all goroutines are idle, what was logged is what was executed, for
    each connection its whole program. *)
Lemma idle_done progs x m i :
  sim x m → m_inv progs m → Forall idle x.1 →
  by_thread i (m_done m) = default [] (progs !! i) ∧ by_thread i (m_logged m) = default [] (progs !! i).
Proof.
  intros [Ht _] Hm Hidle. specialize (Hm i). destruct (m_actors m !! i) as [a|] eqn:Ea.
  - destruct (Forall2_lookup_r _ _ _ _ _ Ht Ea) as (g & Eg & Hf & Htd & _).
    destruct (Forall_lookup_1 _ _ _ _ Hidle Eg) as [If It]. rewrite If in Hf. rewrite It in Htd.
    destruct a as [[c|] [|d td]]; [done..| |done]. cbn in Hm. rewrite app_nil_r in Hm. destruct Hm as [H1 H2].
    rewrite app_nil_r in H2. rewrite H2. simpl. by rewrite <-H1.
  - destruct Hm as (-> & -> & ->). done.
Qed.
End sim.

(** ** Theorems *)
Section theorems.
Context {S P : Type} `{!StoreOps S} `{!StoreLaws S} `{!PersistenceOps P} `{!PersistenceLaws P}.
Context (supply : nat → Envs) (envs : Envs).

(** Starting, serving, closing the log and starting again, for a schedule. *)
Lemma conc_restart progs sched (s : S) policy (p : P) :
  fresh s p → (∀ l, l ≡ₚ concat progs → p_admits (log_of l)) →
  Forall (Forall (λ c : cmd, sets_no_deadline c.1 c.2 = true)) progs →
  let m := m_run sched (m_start progs) in
  ∃ w1 gs w2, boot envs s policy 0 p = Ret w1 ∧ go_run supply sched (conn_start progs, w1) = Ret (gs, w2) ∧
    sim (gs, w2) m ∧
    (Forall idle gs → ∃ p1 w3, p_Close (sv_log w2) = Ret (p1, false) ∧ boot envs s policy 0 (p_reopen p1) = Ret w3 ∧
      st_abs (t_inner (sv_store w2)) = effects (m_done m).*2 kv_empty ∧
      st_abs (t_inner (sv_store w3)) = apply_commands (log_of (m_logged m).*2) kv_empty).
Proof.
  intros Hf Had Hnd m. destruct (boot_fresh envs s policy p Hf) as (w1 & E1 & Hg & _).
  destruct (go_run_sim supply sched _ _ (start_sim progs w1 Hnd Hg)) as ([gs w2] & E2 & Hs).
  exists w1, gs, w2. split; [done|]. split; [done|]. split; [exact Hs|]. intros Hidle. destruct Hs as [Ht [Hp Hl]].
  destruct (law_restart (log_of (m_logged m).*2) (sv_log w2)) as (p1 & p2 & E3 & E4 & Hl3); [exact Hl| |].
  { apply Had. pose proof (m_run_all progs sched _ (m_start_all progs)) as Hall. unfold m_all in Hall. fold m in Hall.
    rewrite <-Hall. assert (to_come m = []) as ->; [|by rewrite app_nil_r].
    unfold to_come. apply concat_nil_Forall, Forall_fmap, Forall_lookup. intros i a Ha.
    destruct (Forall2_lookup_r _ _ _ _ _ Ht Ha) as (g & Eg & _ & Htd & _).
    destruct (Forall_lookup_1 _ _ _ _ Hidle Eg) as [_ It]. cbn in Eg. rewrite It in Htd. cbn.
    by destruct (a_todo a). }
  destruct Hf as (Hi & Ha & _).
  destruct (boot_good envs s policy (p_reopen p1) p2 (log_of (m_logged m).*2) Hi Ha E4 Hl3) as (w3 & E5 & [Hp3 _]).
  exists p1, w3. split_and!; [done..| |]; [apply Hp|apply Hp3].
Qed.

(** Write-ahead order under concurrency: at every moment of every schedule
    the content is that of the executed commands, the log is that of the
    logged ones; each connection's commands are executed and logged in its
    own order, all that was executed is logged, and at most one command per
    connection is logged ahead of its execution. *)
Theorem conc_write_ahead (progs : list (list cmd)) (sched : list nat) (w : server S P) :
  good kv_empty [] w → Forall (Forall (λ c : cmd, sets_no_deadline c.1 c.2 = true)) progs →
  ∃ gs w' (E L : list (nat * cmd)), go_run supply sched (conn_start progs, w) = Ret (gs, w') ∧
    good (effects E.*2 kv_empty) (log_of L.*2) w' ∧
    ∀ i p, progs !! i = Some p →
      by_thread i E `prefix_of` by_thread i L ∧ by_thread i L `prefix_of` p ∧
      length (by_thread i L) ≤ length (by_thread i E) + 1.
Proof.
  intros Hg Hnd. destruct (go_run_sim supply sched _ _ (start_sim progs w Hnd Hg)) as ([gs w'] & E & _ & Hg').
  eexists gs, w', _, _. split; [exact E|]. split; [exact Hg'|]. intros i p Hp.
  pose proof (m_run_inv progs sched _ (m_start_inv progs) i) as Hi.
  destruct (m_actors _ !! i) as [a|]; [|destruct Hi as (_ & _ & Hn); discriminate (eq_trans (eq_sym Hn) Hp)].
  destruct Hi as [H1 H2]. rewrite Hp in H2. injection H2 as ->. split; [rewrite H1; by eexists|]. split; [by eexists|].
  rewrite H1, length_app. destruct (a_flight a); simpl; lia.
Qed.

(** C2: A server with many connections recovers its content.  It starts
    with an empty store that keeps the store contract (all but the radix tree),
    an empty log and no key limit.  However the goroutines
    of the connections interleave the log callback and the handlers, if no key
    is written by two connections, the commands are reads, SETs without
    deadline and HSETs of at most three arguments (no DEL), and the log admits
    them in every order (for the write-ahead log, lengths that fit the fields
    of a record; for the append-only file, at most 4096 bytes in all), then
    once all requests are answered, closing the log and starting again on it
    gives exactly the content the store had. *)
Theorem conc_restart_recovers (progs : list (list cmd)) (sched : list nat) (s : S) (policy : Policy) (p : P) :
  fresh s p → (∀ l, l ≡ₚ concat progs → p_admits (log_of l)) →
  Forall (Forall (λ c : cmd, sets_no_deadline c.1 c.2 = true)) progs →
  Forall (Forall (λ c : cmd, durable c.1 c.2 = true)) progs → disjoint_writes progs →
  ∃ w1 gs w2, boot envs s policy 0 p = Ret w1 ∧ go_run supply sched (conn_start progs, w1) = Ret (gs, w2) ∧
    (Forall idle gs → ∃ p1 w3, p_Close (sv_log w2) = Ret (p1, false) ∧ boot envs s policy 0 (p_reopen p1) = Ret w3 ∧
      st_abs (t_inner (sv_store w3)) = st_abs (t_inner (sv_store w2))).
Proof.
  intros Hf Had Hnd Hdu Hdj. destruct (conc_restart progs sched s policy p Hf Had Hnd) as (w1 & gs & w2 & E1 & E2 & Hs & Hre).
  exists w1, gs, w2. split; [done|]. split; [done|]. intros Hidle. destruct (Hre Hidle) as (p1 & w3 & E3 & E4 & A2 & A3).
  exists p1, w3. split; [done|]. split; [done|]. rewrite A2, A3. set (m := m_run sched (m_start progs)) in *.
  pose proof (m_run_inv progs sched _ (m_start_inv progs)) as Hm. fold m in Hm.
  assert (∀ l : list (nat * cmd), (∀ i, by_thread i l = default [] (progs !! i)) →
    Forall (λ c : cmd, durable c.1 c.2 = true) l.*2 ∧ ∀ i c, c ∈ by_thread i l → ∃ q, progs !! i = Some q ∧ c ∈ q) as Hl.
  { intros l Hl. assert (∀ i c, c ∈ by_thread i l → ∃ q, progs !! i = Some q ∧ c ∈ q) as Hin.
    { intros i c. rewrite Hl. destruct (progs !! i) as [q|]; simpl; [by eauto|by intros ?%not_elem_of_nil]. }
    split; [|exact Hin]. apply Forall_forall. intros c Hc. apply list_elem_of_fmap in Hc as ([i c'] & -> & Hc).
    destruct (Hin i c') as (q & Hq & Hcq).
    { unfold by_thread. apply list_elem_of_fmap. exists (i, c'). by rewrite list_elem_of_filter. }
    pose proof (Forall_lookup_1 _ _ _ _ Hdu Hq) as Hd. by rewrite Forall_forall in Hd; apply Hd. }
  destruct (Hl (m_done m)) as [D1 I1]; [intros i; by apply (idle_done progs (gs, w2) m i)|].
  destruct (Hl (m_logged m)) as [D2 _]; [intros i; by apply (idle_done progs (gs, w2) m i)|].
  rewrite durable_log by done. symmetry. apply (effects_disjoint progs); [done..|].
  intros i. destruct (idle_done progs (gs, w2) m i Hs Hm Hidle) as [-> ->]. done.
Qed.

(** two clients that set one key can see a value that a restart
    replaces: the log callback and the handler are not one atomic step, so
    the commands can be logged in one order and executed in the other. *)
Theorem conc_restart_diverges (k v1 v2 : gostring) (s : S) (policy : Policy) (p : P) :
  let progs : list (list cmd) := [[(CSet, [VBulk k; VBulk v1])]; [(CSet, [VBulk k; VBulk v2])]] in
  fresh s p → (∀ l, l ≡ₚ concat progs → p_admits (log_of l)) →
  ∃ sched w1 gs w2 p1 w3, boot envs s policy 0 p = Ret w1 ∧ go_run supply sched (conn_start progs, w1) = Ret (gs, w2) ∧
    Forall idle gs ∧ p_Close (sv_log w2) = Ret (p1, false) ∧ boot envs s policy 0 (p_reopen p1) = Ret w3 ∧
    kv_get k (st_abs (t_inner (sv_store w2))) = Some v1 ∧ kv_get k (st_abs (t_inner (sv_store w3))) = Some v2.
Proof.
  intros progs Hf Had. exists [0; 1; 1; 0].
  destruct (conc_restart progs [0; 1; 1; 0] s policy p Hf Had) as (w1 & gs & w2 & E1 & E2 & Hs & Hre); [by repeat constructor|].
  assert (Forall idle gs) as Hidle.
  { destruct Hs as [Ht _]. cbn in Ht. inversion Ht as [|g a gs' l (? & ? & _) Ht']; subst.
    inversion Ht' as [|g' a' gs'' l' (? & ? & _) Ht'']; subst. inversion Ht''; subst. by repeat constructor. }
  destruct (Hre Hidle) as (p1 & w3 & E3 & E4 & A2 & A3).
  exists w1, gs, w2, p1, w3. split_and!; [done..| |].
  - rewrite A2. apply lookup_insert_eq.
  - rewrite A3. apply lookup_insert_eq.
Qed.
End theorems.

(** ** Witnesses: a map store and a write-ahead log *)
#[local] Instance upper_same : UnicodeUpper := λ s, s.

Lemma admits_perm (l l' : list cmd) :
  l ≡ₚ l' → forallb (λ c : cmd, forallb cmd_okb (logged c.1 c.2)) l' = true → p_admits (P := WAL) (log_of l).
Proof.
  intros Hl Hb. unfold log_of. apply Forall_concat, Forall_fmap. rewrite Hl. apply forallb_Forall_iff in Hb.
  eapply Forall_impl; [exact Hb|]. intros c Hc. by apply cmds_ok.
Qed.

Definition two_clients : list (list cmd) :=
  [[(CSet, bulks ["a"; "1"]%string); (CGet, bulks ["b"]%string); (CSet, bulks ["a"; "2"]%string)];
   [(CHSet, bulks ["b"; "f"; "3"]%string); (CSet, bulks ["b"; "4"]%string)]].
Definition mixed : list nat := [0; 1; 1; 0; 0; 1; 0; 0; 1; 0].

Lemma two_clients_disjoint : disjoint_writes two_clients.
Proof.
  intros i j p q c d k Hi Hj Hc Hd Wc Wd.
  apply list_elem_of_In in Hc, Hd. destruct i as [|[|i]], j as [|[|j]]; simplify_eq/=; [done| | |done]; exfalso;
    repeat match goal with H : _ ∨ _ |- _ => destruct H as [<-|H] end; try done; cbn in Wc, Wd; try done;
    apply bool_decide_eq_true in Wc, Wd; subst; discriminate.
Qed.

Lemma conc_restart_recovers_witness :
  ∃ w1 gs w2 p1 w3, boot (at_ 0) NewMapStore NoEviction 0 (NewWAL [] None) = Ret w1 ∧
    go_run clock mixed (conn_start two_clients, w1) = Ret (gs, w2) ∧ p_Close (sv_log w2) = Ret (p1, false) ∧
    boot (at_ 0) NewMapStore NoEviction 0 (p_reopen p1) = Ret w3 ∧
    st_abs (t_inner (sv_store w3)) = st_abs (t_inner (sv_store w2)).
Proof.
  destruct (conc_restart_recovers clock (at_ 0) two_clients mixed NewMapStore NoEviction (NewWAL [] None))
    as (w1 & gs & w2 & E1 & E2 & Hre).
  - apply fresh_map_wal.
  - intros l Hl. apply (admits_perm _ _ Hl). vm_compute. reflexivity.
  - repeat (apply Forall_cons_2; [repeat (apply Forall_cons_2; [reflexivity|]); apply Forall_nil_2|]); apply Forall_nil_2.
  - repeat (apply Forall_cons_2; [repeat (apply Forall_cons_2; [reflexivity|]); apply Forall_nil_2|]); apply Forall_nil_2.
  - apply two_clients_disjoint.
  - destruct Hre as (p1 & w3 & E3 & E4 & E5).
    + revert E2. vm_compute in E1. injection E1 as <-. vm_compute. intros [= <- <-]. by repeat constructor.
    + by exists w1, gs, w2, p1, w3.
Defined.

Lemma conc_restart_diverges_witness :
  let progs : list (list cmd) := [[(CSet, [VBulk (str "k"); VBulk (str "1")])]; [(CSet, [VBulk (str "k"); VBulk (str "2")])]] in
  ∃ sched w1 gs w2 p1 w3, boot (at_ 0) NewMapStore NoEviction 0 (NewWAL [] None) = Ret w1 ∧
    go_run clock sched (conn_start progs, w1) = Ret (gs, w2) ∧
    Forall idle gs ∧ p_Close (sv_log w2) = Ret (p1, false) ∧ boot (at_ 0) NewMapStore NoEviction 0 (p_reopen p1) = Ret w3 ∧
    kv_get (str "k") (st_abs (t_inner (sv_store w2))) = Some (str "1") ∧
    kv_get (str "k") (st_abs (t_inner (sv_store w3))) = Some (str "2").
Proof.
  apply (conc_restart_diverges clock (at_ 0) (str "k") (str "1") (str "2") NewMapStore NoEviction (NewWAL [] None)).
  - apply fresh_map_wal.
  - intros l Hl. apply (admits_perm _ _ Hl). vm_compute. reflexivity.
Defined.
