(* ===== verification/Crash.v ===== *)
(** * Crash: the server killed at any moment, src/main.go, src/persistence/wal.go

    A process that is killed leaves the log file as the operating system has
    it; what the write-ahead log still held in its buffer is gone.  The
    connections run as in ServerConc, the two lock regions of [WAL.Write] are
    steps of their own as in WALConc, and the flush goroutine ticks between any
    two steps.  The kill falls between two steps or into the [file.Write] of a
    flush, after any number of its bytes. *)

From stdpp Require Import base list gmap strings.
From Stdlib Require Import ZArith Lia Ascii.
From S2P Require Import Prelude GoLib StoreSpec MapStore GoIO Resp Evict TTLStore Handler Persist WAL WALConc Network Server ServerConc.

(** ** The log, one lock region at a time *)

(** The log as the callback sees it when [Write] has returned from its first
    lock region: the flag is [shouldFlush]. *)
Record regions := mkRegions { rg_wal : WAL; rg_flush : bool }.

#[global] Instance regions_ops `{!UnicodeUpper} : PersistenceOps regions := {
  p_Write := λ c p, let '(w, shouldFlush) := Write_append c (rg_wal p) in Ret (mkRegions w shouldFlush, false);
  p_Replay := λ p, '(w, cs, err) ← WAL_Replay (rg_wal p); Ret (mkRegions w false, cs, err);
  p_Close := λ p, '(w, err) ← WAL_Close (rg_wal p); Ret (mkRegions w false, err)
}.

#[global] Program Instance regions_laws `{!UnicodeUpper} : PersistenceLaws regions := {
  p_log := λ cs p, wal_log cs (rg_wal p);
  p_admits := Forall cmd_ok;
  p_reopen := λ p, mkRegions (NewWAL (f_data (wal_file (rg_wal p))) None) false
}.
Next Obligation. intros ? cs c [w b] Hl. eexists. split; [reflexivity|]. by apply append_log. Qed.
Next Obligation.
  intros ? cs [w b] Hl Ha. destruct (law_restart cs w) as (p1 & p2 & E1 & E2 & H2); [exact Hl|exact Ha|].
  exists (mkRegions p1 false), (mkRegions p2 false). cbn in *. by rewrite E1, E2.
Qed.

(** The logged commands with the numbers of their connections. *)
Definition tagged (l : list (nat * cmd)) : list (nat * Command) := concat ((λ e, pair e.1 <$> logged e.2.1 e.2.2) <$> l).

Lemma tagged_snd l : (tagged l).*2 = log_of l.*2.
Proof.
  induction l as [|[i c] l IH]; [done|]. change (tagged ((i, c) :: l)) with ((pair i <$> logged c.1 c.2) ++ tagged l).
  rewrite fmap_app, IH. change (log_of ((i, c) :: l).*2) with (logged c.1 c.2 ++ log_of l.*2). f_equal.
  by destruct c as [[] args].
Qed.

Lemma tagged_snoc l i c : tagged (l ++ [(i, c)]) = tagged l ++ (pair i <$> logged c.1 c.2).
Proof. unfold tagged. rewrite fmap_app, concat_app. simpl. by rewrite app_nil_r. Qed.

(** ** The server *)

(** The goroutines, the connections whose [Write] has appended its record and
    has still to call [Flush], and the server. *)
Record running (S : Type) := mkRunning { k_go : list goroutine; k_flush : gset nat; k_server : server S regions }.
Arguments mkRunning {S}.
Arguments k_go {S}.
Arguments k_flush {S}.
Arguments k_server {S}.

(** The request behind the logged command is not answered. *)
Definition unanswered (gs : list goroutine) (e : nat * Command) : Prop :=
  ∃ args todo out, gs !! e.1 = Some (mkGo (Some (cmd_Name e.2, args)) todo out) ∧ cmd_Args e.2 = v_Bulk <$> args.

Section crash.
Context `{!UnicodeUpper} {S : Type} `{!StoreOps S} `{!StoreLaws S}.
Context (supply : nat → Envs).
Implicit Types (x : running S) (m : machine).

Definition with_wal (w : WAL) (sv : server S regions) : server S regions :=
  mkServerState (sv_store sv) (mkRegions w false) (sv_calls sv).

(** The process after [boot]: the connections have sent nothing. *)
Definition run_start (progs : list (list cmd)) (w : server S WAL) : running S :=
  mkRunning (conn_start progs) ∅ (mkServerState (sv_store w) (mkRegions (sv_log w) false) (sv_calls w)).

(** [Some i] is a step of connection [i]: the second lock region of a [Write]
    that is to flush, or the first one, or the handler; [None] is a tick. *)
Definition ev_step (ev : option nat) x : go (running S) :=
  let w := rg_wal (sv_log (k_server x)) in
  match ev with
  | None => Ret (mkRunning (k_go x) (k_flush x) (with_wal (Flush w).1 (k_server x)))
  | Some i =>
      if decide (i ∈ k_flush x) then Ret (mkRunning (k_go x) (k_flush x ∖ {[i]}) (with_wal (Flush w).1 (k_server x))) else
      '(gs, sv) ← go_step supply i (k_go x, k_server x);
      Ret (mkRunning gs (if rg_flush (sv_log sv) then {[i]} ∪ k_flush x else k_flush x) (with_wal (rg_wal (sv_log sv)) sv))
  end.

Definition ev_run : list (option nat) → running S → go (running S) := go_foldl ev_step.

(** A connection that is to flush is in flight. *)
Definition flushing (X : gset nat) (acts : list actor) (e : nat * Command) : Prop :=
  e.1 ∈ X ∧ ∃ c todo, acts !! e.1 = Some (mkActor (Some c) todo) ∧ e.2 ∈ logged c.1 c.2.

Definition csim x m : Prop :=
  sim (k_go x, k_server x) m ∧ rg_flush (sv_log (k_server x)) = false ∧
  wal_regions (flushing (k_flush x) (m_actors m)) (tagged (m_logged m)) (rg_wal (sv_log (k_server x))).

(** A flush changes where the records are, not which there are. *)
Lemma csim_flush X x m :
  csim x m → csim (mkRunning (k_go x) X (with_wal (Flush (rg_wal (sv_log (k_server x)))).1 (k_server x))) m.
Proof.
  intros [[Ht [Hp Hl]] [_ Hw]]. destruct (Flush_log _ _ Hl) as (_ & Hl' & _).
  split; [split; [exact Ht|by split]|]. split; [done|]. by eapply wal_regions_flush.
Qed.

(** What the callback does to the log. *)
Lemma onWrite_regions c args (w w' : server S regions) :
  server_onWrite (command_name c) args w = Ret w' → rg_flush (sv_log w) = false →
  match logged c args with
  | [] => rg_wal (sv_log w') = rg_wal (sv_log w) ∧ rg_flush (sv_log w') = false
  | cmd :: _ => Write_append cmd (rg_wal (sv_log w)) = (rg_wal (sv_log w'), rg_flush (sv_log w'))
  end.
Proof.
  intros E Hf. unfold server_onWrite, logged in *. destruct c; cbn -[Write_append] in *;
    try (injection E as <-; by split); destruct (Write_append _ _) as [wal b]; cbn in E; by injection E as <-.
Qed.

Lemma flushing_other X Y acts i a e :
  i ∉ X → X ⊆ Y → flushing X acts e → flushing Y (<[i := a]> acts) e.
Proof.
  intros Hi HX [He (c & td & Ha & Hc)]. split; [set_solver|]. exists c, td. by rewrite list_lookup_insert_ne by set_solver.
Qed.

Lemma go_step_regions i x m gs sv :
  csim x m → i ∉ k_flush x → go_step supply i (k_go x, k_server x) = Ret (gs, sv) →
  csim (mkRunning gs (if rg_flush (sv_log sv) then {[i]} ∪ k_flush x else k_flush x) (with_wal (rg_wal (sv_log sv)) sv)) (m_step i m).
Proof.
  destruct x as [gs0 X w]. cbn [k_go k_flush k_server]. intros [Hs [Hfl Hw]] Hi E. destruct (go_step_sim supply i (gs0, w) m Hs) as (x'' & E' & Hs').
  rewrite E in E'. injection E' as <-. split; [exact Hs'|]. split; [done|]. clear Hs'. destruct Hs as [Ht _]. cbn [fst snd k_go k_server k_flush] in *.
  unfold m_step, go_step in *. destruct (m_actors m !! i) as [a|] eqn:Ea.
  2:{ assert (gs0 !! i = None) as Hn by (apply lookup_ge_None; rewrite (Forall2_length _ _ _ Ht); by apply lookup_ge_None).
      rewrite Hn in E. injection E as <- <-. by rewrite Hfl. }
  destruct (Forall2_lookup_r _ _ _ _ _ Ht Ea) as (g & Eg & Hf & Htd & _). rewrite Eg in E. pose proof (lookup_lt_Some _ _ _ Ea) as Hlt.
  destruct a as [[c|] td], g as [fl tg out]; cbn in Hf, Htd; subst.
  - unfold wire_cmd in E. cbv beta iota in E. rewrite server_handlers_command in E. unfold instrument in E.
    destruct (handler_of c.1 _ c.2 (sv_store w)) as [[t v]| | |]; [|done..]. cbn in E. injection E as <- <-. cbn. rewrite Hfl.
    eapply wal_regions_impl; [|exact Hw]. intros e. by apply flushing_other.
  - destruct td as [|c td]; [injection E as <- <-; by rewrite Hfl|]. cbn [fmap list_fmap] in E. cbv beta iota in E.
    rewrite server_handlers_command in E. destruct (server_onWrite (command_name c.1) c.2 w) as [w'| | |] eqn:Ew; [|done..].
    cbn in E. injection E as <- <-. cbn [with_wal sv_log rg_wal m_logged m_actors]. rewrite tagged_snoc.
    pose proof (onWrite_regions c.1 c.2 w w' Ew Hfl) as Hr. destruct (logged c.1 c.2) as [|cm l] eqn:El.
    + destruct Hr as [-> ->]. rewrite app_nil_r. eapply wal_regions_impl; [|exact Hw]. intros e. by apply flushing_other.
    + assert (l = []) as -> by (destruct c as [[] args]; by simplify_eq/=). cbn [fmap list_fmap].
      pose proof (wal_regions_append (flushing X (m_actors m))
        (flushing (if rg_flush (sv_log w') then {[i]} ∪ X else X) (<[i := mkActor (Some c) td]> (m_actors m)))
        (tagged (m_logged m)) (rg_wal (sv_log w)) i cm Hw) as Happ. rewrite Hr in Happ. apply Happ; cbn [fst snd].
      * intros e. apply flushing_other; [done|]. destruct (rg_flush (sv_log w')); set_solver.
      * intros ->. split; [set_solver|]. exists c, td. split; [by apply list_lookup_insert_eq|]. rewrite El. by left.
Qed.

(** The step of the abstract machine an event makes. *)
Definition ev_machine x (ev : option nat) m : machine :=
  match ev with Some i => if decide (i ∈ k_flush x) then m else m_step i m | None => m end.

Lemma ev_step_regions ev x m : csim x m → ∃ x', ev_step ev x = Ret x' ∧ csim x' (ev_machine x ev m).
Proof.
  intros Hx. destruct ev as [i|]; [|eexists; split; [reflexivity|by apply csim_flush]].
  unfold ev_step, ev_machine. case_decide as Hi; [eexists; split; [reflexivity|by apply csim_flush]|].
  pose proof Hx as [Hs _]. destruct (go_step_sim supply i (k_go x, k_server x) m Hs) as ([gs sv] & E & _). rewrite E.
  eexists. split; [reflexivity|]. by apply go_step_regions.
Qed.

Lemma ev_run_regions evs x m : csim x m → ∃ x' sched, ev_run evs x = Ret x' ∧ csim x' (m_run sched m).
Proof.
  revert x m; induction evs as [|ev evs IH]; intros x m Hx; [by exists x, []|].
  destruct (ev_step_regions ev x m Hx) as (x1 & E1 & H1). destruct (IH x1 _ H1) as (x2 & sched & E2 & H2).
  exists x2. assert (ev_run (ev :: evs) x = Ret x2) as E by (unfold ev_run in *; cbn [go_foldl]; by rewrite E1).
  destruct ev as [i|]; [|by exists sched]. cbn [ev_machine] in H2. case_decide; [by exists sched|by exists (i :: sched)].
Qed.

Lemma flushing_unanswered x m e : csim x m → flushing (k_flush x) (m_actors m) e → unanswered (k_go x) e.
Proof.
  intros [[Ht _] _] [_ (c & td & Ha & He)]. destruct (Forall2_lookup_r _ _ _ _ _ Ht Ha) as (g & Eg & Hf & _). cbn in Eg.
  destruct g as [fl tg out]. cbn in Hf. subst fl. exists c.2, tg, out.
  destruct c as [[] args], e as [j cm]; cbn in *; try (by apply not_elem_of_nil in He); apply list_elem_of_singleton in He as ->; done.
Qed.
End crash.
Arguments running S : clear implicits.

(** ** Theorem *)

(** C3: bounded loss when the process is killed.  A server starts on a new
    write-ahead log with an empty store that keeps the store contract (all but
    the radix tree) and no key limit, and serves commands
    without deadlines whose logged records fit their length fields.  However
    the connections, the two lock regions of [WAL.Write] and the ticks
    interleave, at every moment, and when [i] bytes of the buffer have been
    written by a flush: a start on the file as it is then either rebuilds the
    content of a first part of the logged commands, and what is missing is
    less than 1000 bytes of log followed only by commands that were not
    answered; or the kill has cut a record in the middle of a write, and the
    start never gets past Replay.  The commands are logged in the order of
    their connections, and all that was executed was logged. *)
Theorem crash_bounded_loss `{!UnicodeUpper} {S} `{!StoreOps S} `{!StoreLaws S} (supply : nat → Envs) (envs : Envs)
    (progs : list (list cmd)) (evs : list (option nat)) (s : S) (policy : Policy) :
  st_inv s → st_abs s = kv_empty →
  Forall (Forall (λ c : cmd, sets_no_deadline c.1 c.2 = true ∧ Forall cmd_ok (logged c.1 c.2))) progs →
  ∃ w1 x (E L : list (nat * cmd)),
    boot envs s policy 0 (NewWAL [] None) = Ret w1 ∧ ev_run supply evs (run_start progs w1) = Ret x ∧
    st_abs (t_inner (sv_store (k_server x))) = effects E.*2 kv_empty ∧
    (∀ j p, progs !! j = Some p → by_thread j E `prefix_of` by_thread j L ∧ by_thread j L `prefix_of` p) ∧
    ∀ i, let file := killed_wal i (rg_wal (sv_log (k_server x))) in
      (∃ w3 kept lost late, boot envs s policy 0 (NewWAL file None) = Ret w3 ∧
        st_abs (t_inner (sv_store w3)) = apply_commands kept.*2 kv_empty ∧
        tagged L = kept ++ lost ++ late ∧ length (wal_bytes lost.*2) < 1000 ∧ Forall (unanswered (k_go x)) late) ∨
      (0 < i ∧ boot envs s policy 0 (NewWAL file None) = NoFuel ∧
        ∃ kept e rest n, tagged L = kept ++ e :: rest ∧ 0 < n < length (marshalCommand e.2) ∧
          file = wal_bytes kept.*2 ++ take n (marshalCommand e.2) ∧ ∀ fuel, wal_loop fuel file [] = NoFuel).
Proof.
  intros Hi Ha Hok. set (t0 := SetEvictionPolicy policy 0 (NewTTLStore s)).
  set (w1 := mkServerState t0 (NewWAL [] None) 0 : server S WAL).
  assert (csim (run_start progs w1) (m_start progs)) as Hc.
  { split; [|split; [done|apply NewWAL_regions]]. apply start_sim.
    - eapply Forall_impl; [exact Hok|]. intros p Hp. eapply Forall_impl; [exact Hp|]. by intros c [? _].
    - split; [by constructor|done]. }
  destruct (ev_run_regions supply evs _ _ Hc) as (x & sched & E2 & Hx). set (m := m_run sched (m_start progs)) in *.
  exists w1, x, (m_done m), (m_logged m). pose proof Hx as [[_ [Hp _]] [_ Hw]].
  split; [done|]. split; [done|]. split; [apply Hp|]. split.
  { intros j p Hj. pose proof (m_run_inv progs sched _ (m_start_inv progs) j) as Hm. fold m in Hm.
    destruct (m_actors m !! j) as [a|]; [|destruct Hm as (_ & _ & Hn); discriminate (eq_trans (eq_sym Hn) Hj)].
    destruct Hm as [H1 H2]. rewrite Hj in H2. injection H2 as ->. split; [rewrite H1; by eexists|by eexists]. }
  assert (Forall cmd_ok (tagged (m_logged m)).*2) as Hcmds.
  { rewrite tagged_snd. unfold log_of. apply Forall_concat, Forall_fmap. pose proof (m_run_all progs sched _ (m_start_all progs)) as Hall.
    unfold m_all in Hall. fold m in Hall. assert (Forall (λ c : cmd, Forall cmd_ok (logged c.1 c.2)) (concat progs)) as Hall'.
    { apply Forall_concat. eapply Forall_impl; [exact Hok|]. intros p Hp'. eapply Forall_impl; [exact Hp'|]. by intros c [_ ?]. }
    rewrite <-Hall in Hall'. by apply Forall_app in Hall' as [? _]. }
  intros i file. destruct (wal_regions_killed _ _ _ i Hw Hcmds) as [(kept & lost & late & w' & Ho & E3 & Hlost & Hlate & Hl')|(Hi0 & Htorn)].
  - left. destruct (boot_good envs s policy (NewWAL file None) w' kept.*2) as (w3 & E4 & [Hp3 _]);
      [exact Hi|exact Ha|exact E3|exact Hl'|]. exists w3, kept, lost, late. split_and!; [done|apply Hp3|done|done|].
    eapply Forall_impl; [exact Hlate|]. intros e. by apply flushing_unanswered with (m := m).
  - right. split; [done|]. split; [|exact Htorn]. destruct Htorn as (_ & _ & _ & _ & _ & _ & _ & Hloop). unfold boot.
    change (p_Replay (NewWAL file None)) with (WAL_Replay (NewWAL file None)). rewrite WAL_Replay_new. unfold file. by rewrite Hloop.
Qed.

(** ** Witness *)
#[local] Instance upper_same : UnicodeUpper := λ s, s.

(** Two clients, one flush, killed when a second flush had written 20 bytes. *)
Lemma crash_bounded_loss_witness :
  let evs := [Some 0; Some 1; Some 0; None; Some 1; Some 1] in
  ∃ w1 x (E L : list (nat * cmd)),
    boot (at_ 0) NewMapStore NoEviction 0 (NewWAL [] None) = Ret w1 ∧ ev_run clock evs (run_start two_clients w1) = Ret x ∧
    st_abs (t_inner (sv_store (k_server x))) = effects E.*2 kv_empty ∧
    let file := killed_wal 20 (rg_wal (sv_log (k_server x))) in
      (∃ w3 kept lost late, boot (at_ 0) NewMapStore NoEviction 0 (NewWAL file None) = Ret w3 ∧
        st_abs (t_inner (sv_store w3)) = apply_commands kept.*2 kv_empty ∧
        tagged L = kept ++ lost ++ late ∧ length (wal_bytes lost.*2) < 1000 ∧ Forall (unanswered (k_go x)) late) ∨
      (0 < 20 ∧ boot (at_ 0) NewMapStore NoEviction 0 (NewWAL file None) = NoFuel ∧
        ∃ kept e rest n, tagged L = kept ++ e :: rest ∧ 0 < n < length (marshalCommand e.2) ∧
          file = wal_bytes kept.*2 ++ take n (marshalCommand e.2) ∧ ∀ fuel, wal_loop fuel file [] = NoFuel).
Proof.
  destruct (crash_bounded_loss clock (at_ 0) two_clients [Some 0; Some 1; Some 0; None; Some 1; Some 1] NewMapStore NoEviction)
    as (w1 & x & E & L & H1 & H2 & H3 & _ & H4).
  - done.
  - reflexivity.
  - repeat (apply Forall_cons_2; [repeat (apply Forall_cons_2; [split; [reflexivity|apply cmds_ok; vm_compute; reflexivity]|]);
      apply Forall_nil_2|]); apply Forall_nil_2.
  - exists w1, x, E, L. split; [exact H1|]. split; [exact H2|]. split; [exact H3|]. exact (H4 20).
Defined.
