(* ===== verification/CrashFiles.v ===== *)
(** * CrashFiles: starting on the files a killed process left, src/main.go, src/persistence/aof.go, rdb.go

    [main] drops the error of [p.Replay] and serves whatever was replayed.
    Here a server that was killed in the middle of a write to its append-only
    file, or of a snapshot, is started again on what is on the disk; and a
    write-ahead log whose disk was full. *)

From stdpp Require Import base list gmap strings.
From Stdlib Require Import ZArith Lia Ascii.
From S2P Require Import Prelude GoLib StoreSpec MapStore GoIO Resp Evict TTLStore Handler Persist AOF AOFTorn WAL RDB RDBFile Network Server ServerConc.

(** The append-only file of a process killed while [Write] of [c] was at its
    [i]-th byte. *)
Definition killed_aof {S} (c : Command) (i : nat) (w : server S AOF) : list byte :=
  f_data (aof_file (sv_log w)) ++ take i (Marshal (aof_value c)).

(** ** Starting on any log *)

(** The content is what the replayed commands describe, with or without an error. *)
Lemma boot_replay {S P} `{!StoreOps S} `{!StoreLaws S} `{!PersistenceOps P} envs (s : S) policy (p p' : P) cs err :
  st_inv s → st_abs s = kv_empty → p_Replay p = Ret (p', cs, err) →
  ∃ w, boot envs s policy 0 p = Ret w ∧ plain (apply_commands cs kv_empty) (sv_store w).
Proof.
  intros Hi Ha E. unfold boot. rewrite E. cbn [mbind go_bind].
  destruct (replay_all_plain envs 0 cs kv_empty (SetEvictionPolicy policy 0 (NewTTLStore s))) as (t' & -> & Hp).
  { constructor; simpl; done. }
  cbn [mbind go_bind]. by eexists.
Qed.

(** ** The size of the append-only file *)
Lemma concat_perm {A} (l l' : list (list A)) : l ≡ₚ l' → concat l ≡ₚ concat l'.
Proof.
  induction 1 as [|x l l' _ IH|x y l|l l' l'' _ IH1 _ IH2]; simpl; [done|by rewrite IH| |by etransitivity].
  rewrite !app_assoc. by rewrite (Permutation_app_comm y x).
Qed.

Lemma log_of_perm l l' : l ≡ₚ l' → log_of l ≡ₚ log_of l'.
Proof. intros H. unfold log_of. apply concat_perm. by apply fmap_Permutation. Qed.

Lemma aof_size_perm cs cs' : cs ≡ₚ cs' → length (aof_bytes cs) = length (aof_bytes cs').
Proof. intros H. unfold aof_bytes. apply Permutation_length, concat_perm. by apply fmap_Permutation. Qed.

Lemma aof_size_app cs cs' : length (aof_bytes (cs ++ cs')) = length (aof_bytes cs) + length (aof_bytes cs').
Proof. unfold aof_bytes. by rewrite fmap_app, concat_app, length_app. Qed.

Lemma logged_upper l : Forall (λ c, is_upper (cmd_Name c) = true) (log_of l).
Proof.
  unfold log_of. apply Forall_concat, Forall_fmap, Forall_true. intros [c args]. by destruct c; repeat constructor.
Qed.

(** ** Theorems *)

(** C5: A server with an append-only file loses nothing when it is killed, as
    long as the file with the record being written fits the 4096-byte read
    buffer.  It starts with an empty store that keeps the store contract (all
    but the radix tree), a new file and no key limit, and
    serves commands without deadlines.  However the connections interleave, at
    every moment, and also when the kill falls into the write of one more
    record [c] and leaves [i] of its bytes: a start on the file succeeds and
    rebuilds the content of all logged commands, in their order, followed at
    most by the cut one with other bytes of the same length in its last string.
    All that was executed was logged. *)
Theorem aof_crash_keeps_all `{!UnicodeUpper} {S} `{!StoreOps S} `{!StoreLaws S} (supply : nat → Envs) (envs : Envs)
    (progs : list (list cmd)) (sched : list nat) (s : S) (policy : Policy) (c : Command) (i : nat) :
  st_inv s → st_abs s = kv_empty → Forall (Forall (λ c : cmd, sets_no_deadline c.1 c.2 = true)) progs →
  length (aof_bytes (log_of (concat progs) ++ [c])) ≤ bufSize → is_upper (cmd_Name c) = true → i < length (Marshal (aof_value c)) →
  ∃ w1 gs w2 w3 (E L : list (nat * cmd)) torn,
    boot envs s policy 0 (NewAOF [] None) = Ret w1 ∧ go_run supply sched (conn_start progs, w1) = Ret (gs, w2) ∧
    st_abs (t_inner (sv_store w2)) = effects E.*2 kv_empty ∧
    boot envs s policy 0 (NewAOF (killed_aof c i w2) None) = Ret w3 ∧
    st_abs (t_inner (sv_store w3)) = apply_commands (log_of L.*2 ++ torn) kv_empty ∧ torn_command c torn ∧
    ∀ j p, progs !! j = Some p → by_thread j E `prefix_of` by_thread j L ∧ by_thread j L `prefix_of` p.
Proof.
  intros Hi Ha Hnd Hsz Hu Hc. set (w1 := mkServerState (SetEvictionPolicy policy 0 (NewTTLStore s)) (NewAOF [] None) 0 : server S AOF).
  assert (boot envs s policy 0 (NewAOF [] None) = Ret w1) as E1 by reflexivity.
  assert (good kv_empty [] w1) as Hg by (split; [by constructor|done]).
  destruct (go_run_sim supply sched _ _ (start_sim progs w1 Hnd Hg)) as ([gs w2] & E2 & _ & [Hp Hl]).
  set (m := m_run sched (m_start progs)) in *. cbn [snd] in *. destruct Hl as (Hd & _). set (L := log_of (m_logged m).*2) in *.
  assert (aof_admits (L ++ [c])) as Had.
  { split; [apply Forall_app_2; [apply logged_upper|by repeat constructor]|]. rewrite aof_size_app in *.
    pose proof (m_run_all progs sched _ (m_start_all progs)) as Hall. unfold m_all in Hall. fold m in Hall.
    apply log_of_perm, aof_size_perm in Hall. rewrite log_of_app, aof_size_app in Hall. fold L in Hall. lia. }
  destruct (aof_torn_replay L c i Had Hc) as (a & torn & E3 & Ht). rewrite <-Hd in E3.
  destruct (boot_replay envs s policy (NewAOF (killed_aof c i w2) None) a (L ++ torn) false)
    as (w3 & E4 & Hp3); [exact Hi|exact Ha|exact E3|].
  exists w1, gs, w2, w3, (m_done m), (m_logged m), torn. split_and!; [done|done|apply Hp|done|apply Hp3|done|].
  intros j p Hj. pose proof (m_run_inv progs sched _ (m_start_inv progs) j) as Hm. fold m in Hm.
  destruct (m_actors m !! j) as [x|]; [|destruct Hm as (_ & _ & Hn); discriminate (eq_trans (eq_sym Hn) Hj)].
  destruct Hm as [H1 H2]. rewrite Hj in H2. injection H2 as ->. split; [rewrite H1; by eexists|by eexists].
Qed.

(** A server killed during a snapshot, after any of its write calls and with
    any room on the disk, starts again with a first part of what the snapshot
    was to hold and confined damage; the snapshot was to hold exactly what the
    written commands describe. *)
Theorem rdb_crash_start {S} `{!StoreOps S} `{!StoreLaws S} (envs : Envs) (order : gset gostring → list gostring)
    (cs : list Command) (k : nat) (room : option nat) (s : S) (policy : Policy) :
  st_inv s → st_abs s = kv_empty → (∀ X, order X ≡ₚ elements X) →
  let a := apply_commands cs kv_empty in
  snap_ok (kv_strings a) (kv_hashes a) → kv_get [] a ≠ Some [] →
  ∃ r w pre torn full, go_foldl (λ c r, fst <$> RDB_Write c r) cs (NewRDB None) = Ret r ∧
    boot envs s policy 0 (NewRDB (Some (killed_snapshot k room order r))) = Ret w ∧
    st_abs (t_inner (sv_store w)) = apply_commands (pre ++ torn) kv_empty ∧
    pre `prefix_of` full ∧ damage (kv_hashes a) torn ∧ apply_commands full kv_empty = a.
Proof.
  intros Hi Ha Ho a Hok Hne. destruct (RDB_writes_kv cs (NewRDB None)) as (r & E & Hr).
  assert (rdb_kv r = a) as Hra by exact Hr. clear Hr. destruct (killed_prefix k room order r) as [n Hn].
  assert (kv_strings a = rdb_strings r ∧ kv_hashes a = rdb_hashes r) as [Es Eh] by (by rewrite <-Hra).
  rewrite Es, Eh in Hok. destruct (replay_cut order Ho (rdb_strings r) (rdb_hashes r) n Hok) as (pre & torn & err & Er & Hp & Hd).
  destruct (boot_replay envs s policy (NewRDB (Some (killed_snapshot k room order r))) (NewRDB (Some (killed_snapshot k room order r))) (pre ++ torn) err)
    as (w & Ew & Hw); [exact Hi|exact Ha|cbn; unfold RDB_Replay; cbn [rdb_disk NewRDB]; by rewrite Hn, Er|].
  exists r, w, pre, torn, (replay_bytes (snapshot_bytes order (rdb_strings r) (rdb_hashes r))).1.
  split_and!; [done|done|apply Hw|done|by rewrite Eh|].
  rewrite (snapshot_apply order Ho _ _ Hok); [by rewrite <-Hra|]. rewrite <-Es. exact Hne.
Qed.

(** A disk that fills up while the write-ahead log is flushed keeps the server
    from starting again: the flush writes whole records [ds] and a part of the
    next one, reports an error that nobody reads, and the loop of the next
    Replay never ends. *)
Theorem wal_full_disk_blocks_start `{!UnicodeUpper} {S} `{!StoreOps S} (envs : Envs) (s : S) (policy : Policy)
    (w : WAL) (cs ds : list Command) (c : Command) (rest : list byte) (n : nat) :
  Forall cmd_ok (cs ++ ds) → cmd_ok c → 0 < n < length (marshalCommand c) →
  f_data (wal_file w) = wal_bytes cs → f_pos (wal_file w) = length (f_data (wal_file w)) → f_closed (wal_file w) = false →
  wal_buf w = wal_bytes ds ++ marshalCommand c ++ rest → f_room (wal_file w) = Some (length (wal_bytes ds) + n) →
  ∃ w', Flush w = (w', true) ∧
    boot envs s policy 0 (NewWAL (f_data (wal_file w')) None) = NoFuel ∧
    ∀ fuel, wal_loop fuel (f_data (wal_file w')) [] = NoFuel.
Proof.
  intros Hok Hc Hn Hd Hp Hcl Hb Hr.
  destruct (wal_flush_error_drops w (length (wal_bytes ds) + n)) as (He & _ & Hdata); [done|done| |done|].
  { rewrite Hb, !length_app. lia. }
  assert (f_data (wal_file (Flush w).1) = wal_bytes (cs ++ ds) ++ take n (marshalCommand c)) as Hf.
  { rewrite wal_bytes_app, Hdata, Hd, Hb, <-app_assoc. f_equal.
    rewrite take_app, take_ge by lia. f_equal. replace (_ - _) with n by lia. by rewrite take_app_le by lia. }
  assert (∀ fuel, wal_loop fuel (f_data (wal_file (Flush w).1)) [] = NoFuel) as Hloop.
  { rewrite Hf. by apply wal_torn_record_loops. }
  destruct (Flush w) as [w' e]. cbn [fst snd] in *. subst e. exists w'. split; [done|]. split; [|exact Hloop].
  unfold boot. change (p_Replay (NewWAL ?d None)) with (WAL_Replay (NewWAL d None)). by rewrite WAL_Replay_new, Hloop.
Qed.

(** ** Witnesses *)
#[local] Instance upper_same : UnicodeUpper := λ s, s.

Lemma aof_crash_keeps_all_witness :
  let c := mkCommand (str "SET") [str "x"; str "value"] in
  ∃ w1 gs w2 w3 (E L : list (nat * cmd)) torn,
    boot (at_ 0) NewMapStore NoEviction 0 (NewAOF [] None) = Ret w1 ∧ go_run clock [0; 1; 0; 1] (conn_start two_clients, w1) = Ret (gs, w2) ∧
    st_abs (t_inner (sv_store w2)) = effects E.*2 kv_empty ∧
    boot (at_ 0) NewMapStore NoEviction 0 (NewAOF (killed_aof c 25 w2) None) = Ret w3 ∧
    st_abs (t_inner (sv_store w3)) = apply_commands (log_of L.*2 ++ torn) kv_empty ∧ torn_command c torn ∧
    ∀ j p, two_clients !! j = Some p → by_thread j E `prefix_of` by_thread j L ∧ by_thread j L `prefix_of` p.
Proof.
  intros c. apply (aof_crash_keeps_all clock (at_ 0) two_clients [0; 1; 0; 1] NewMapStore NoEviction c 25).
  - done.
  - reflexivity.
  - repeat (apply Forall_cons_2; [repeat (apply Forall_cons_2; [reflexivity|]); apply Forall_nil_2|]); apply Forall_nil_2.
  - apply Nat.leb_le. vm_compute. reflexivity.
  - reflexivity.
  - apply Nat.ltb_lt. vm_compute. reflexivity.
Defined.

Lemma rdb_crash_start_witness :
  let a := apply_commands rdb_cmds kv_empty in
  ∃ r w pre torn full, go_foldl (λ c r, fst <$> RDB_Write c r) rdb_cmds (NewRDB None) = Ret r ∧
    boot (at_ 0) NewMapStore NoEviction 0 (NewRDB (Some (killed_snapshot 6 None elements r))) = Ret w ∧
    st_abs (t_inner (sv_store w)) = apply_commands (pre ++ torn) kv_empty ∧
    pre `prefix_of` full ∧ damage (kv_hashes a) torn ∧ apply_commands full kv_empty = a.
Proof.
  apply (rdb_crash_start (at_ 0) elements rdb_cmds 6 None NewMapStore NoEviction); [done|reflexivity|done|apply rdb_cmds_ok|vm_compute; discriminate].
Defined.

Lemma wal_full_disk_blocks_start_witness :
  let w := mkWAL (mkFile [] 0 (Some 9) false) (marshalCommand wal_cmd) 1000 false in
  ∃ w', Flush w = (w', true) ∧ boot (at_ 0) NewMapStore NoEviction 0 (NewWAL (f_data (wal_file w')) None) = NoFuel ∧
    ∀ fuel, wal_loop fuel (f_data (wal_file w')) [] = NoFuel.
Proof.
  intros w. apply (wal_full_disk_blocks_start (at_ 0) NewMapStore NoEviction w [] [] wal_cmd [] 9).
  - apply Forall_nil_2.
  - apply wal_cmd_ok.
  - vm_compute. lia.
  - reflexivity.
  - reflexivity.
  - reflexivity.
  - vm_compute. reflexivity.
  - reflexivity.
Defined.
