(* ===== verification/HttpJSON.v ===== *)
(** * HttpJSON: the bytes of HTTP requests and responses, src/network/http.go

    What [encoding/json] does for the handler: [Encode] of the response
    values ([json] of Network) with the escapes of Go, and [DecodeArgs], the
    decoder of a body into a [[]string].  Then the handler from the bytes of
    the body to the bytes of the response. *)

From stdpp Require Import base list gmap strings.
From Stdlib Require Import ZArith Lia Ascii.
From S2P Require Import Prelude GoLib StoreSpec MapStore GoIO Utf8 Resp Evict TTLStore Handler Persist WAL Network Server.
Local Open Scope Z_scope.

(** ** Encoding *)

(** The runes of a text as the library reads them, with their lengths; the
    bytes of a rune already read are skipped. *)
Fixpoint chunks_from (skip : nat) (s : list byte) : list (Z * nat) :=
  match s with
  | [] => []
  | _ :: t =>
      match skip with
      | S k => chunks_from k t
      | O => let d := DecodeRune s in d :: chunks_from (d.2 - 1) t
      end
  end.
Definition chunks : list byte → list (Z * nat) := chunks_from 0.

Definition DQUOTE : byte := Zbyte 34.
Definition BACKSLASH : byte := Zbyte 92.
Definition hex (d : Z) : byte := if d <? 10 then Zbyte (48 + d) else Zbyte (87 + d).

(** [htmlSafeSet] *)
Definition htmlSafe (r : Z) : bool :=
  (32 <=? r) && negb (bool_decide (r ∈ [34; 92; 60; 62; 38])).

(** The escapes of [appendString] with [escapeHTML]. *)
Definition escape (r : Z) : list byte :=
  if htmlSafe r then [Zbyte r]
  else if (r =? 34) || (r =? 92) then [BACKSLASH; Zbyte r]
  else if r =? 8 then BACKSLASH :: str "b"
  else if r =? 12 then BACKSLASH :: str "f"
  else if r =? 10 then BACKSLASH :: str "n"
  else if r =? 13 then BACKSLASH :: str "r"
  else if r =? 9 then BACKSLASH :: str "t"
  else BACKSLASH :: str "u00" ++ [hex (r / 16); hex (r mod 16)].

Definition quote_chunk (d : Z * nat) : list byte :=
  if d.1 <? 128 then escape d.1
  else if invalid d then BACKSLASH :: str "ufffd"
  else if (d.1 =? 8232) || (d.1 =? 8233) then BACKSLASH :: str "u202" ++ [hex (d.1 mod 16)]
  else EncodeRune d.1.

Definition quote (s : gostring) : list byte := DQUOTE :: concat (quote_chunk <$> chunks s) ++ [DQUOTE].

(** [maps] are written with their keys in order. *)
Fixpoint insert_field (f : gostring * list byte) (l : list (gostring * list byte)) : list (gostring * list byte) :=
  match l with
  | [] => [f]
  | g :: l' => if str_ltb g.1 f.1 then g :: insert_field f l' else f :: l
  end.
Definition sort_fields (l : list (gostring * list byte)) : list (gostring * list byte) := foldr insert_field [] l.

Fixpoint commas (l : list (list byte)) : list byte :=
  match l with
  | [] => []
  | [x] => x
  | x :: l' => x ++ str "," ++ commas l'
  end.

Fixpoint json_bytes (j : json) : list byte :=
  match j with
  | JNull => str "null"
  | JBool b => if b then str "true" else str "false"
  | JString s => quote s
  | JNumber n => Itoa n
  | JArray l => str "[" ++ commas (map json_bytes l) ++ str "]"
  | JObject fields =>
      str "{" ++ commas (map (λ f, quote f.1 ++ str ":" ++ f.2)
        (sort_fields (map (λ kv, match kv with (k, v) => (k, json_bytes v) end) fields))) ++ str "}"
  end.

(** [json.NewEncoder(w).Encode(v)] *)
Definition Encode (j : json) : list byte := json_bytes j ++ [LF].

(** ** Decoding *)
Definition hex_val (b : byte) : option Z :=
  let x := byteZ b in
  if within 48 57 x then Some (x - 48)
  else if within 97 102 x then Some (x - 87)
  else if within 65 70 x then Some (x - 55)
  else None.

(** [getu4]: the rune of an escape [\uXXXX] at the head. *)
Definition getu4 (s : list byte) : option Z :=
  match s with
  | b :: u :: h1 :: h2 :: h3 :: h4 :: _ =>
      if bool_decide (b = BACKSLASH) && bool_decide (u = "u"%char) then
        match hex_val h1, hex_val h2, hex_val h3, hex_val h4 with
        | Some a, Some b, Some c, Some d => Some (((a * 16 + b) * 16 + c) * 16 + d)
        | _, _, _, _ => None
        end
      else None
  | _ => None
  end.

(** The escapes of one character that the scanner accepts. *)
Definition unescape (c : byte) : option byte :=
  if bool_decide (c = DQUOTE) || bool_decide (c = BACKSLASH) || bool_decide (c = "/"%char) then Some c
  else if bool_decide (c = "b"%char) then Some (Zbyte 8)
  else if bool_decide (c = "f"%char) then Some (Zbyte 12)
  else if bool_decide (c = "n"%char) then Some LF
  else if bool_decide (c = "r"%char) then Some CR
  else if bool_decide (c = "t"%char) then Some (Zbyte 9)
  else None.

Definition put (l : list byte) (o : option (gostring * list byte)) : option (gostring * list byte) :=
  match o with Some (s, rest) => Some (l ++ s, rest) | None => None end.

(** The text of a string literal after its opening quote, up to its closing
    one, and what follows ([unquoteBytes] on what the scanner accepted). *)
Fixpoint unquote (skip : nat) (s : list byte) : option (gostring * list byte) :=
  match s with
  | [] => None
  | b :: t =>
      match skip with
      | S k => unquote k t
      | O =>
          if byteZ b =? 34 then Some ([], t)
          else if byteZ b =? 92 then
            match t with
            | [] => None
            | c :: _ =>
                if bool_decide (c = "u"%char) then
                  match getu4 s with
                  | None => None
                  | Some r =>
                      if surrogate r then
                        let d := utf16_DecodeRune r (default (-1) (getu4 (drop 6 s))) in
                        if d =? RuneError then put (EncodeRune RuneError) (unquote 5 t)
                        else put (EncodeRune d) (unquote 11 t)
                      else put (EncodeRune r) (unquote 5 t)
                  end
                else match unescape c with None => None | Some x => put [x] (unquote 1 t) end
            end
          else if byteZ b <? 32 then None
          else if byteZ b <? 128 then put [b] (unquote 0 t)
          else let d := DecodeRune s in put (EncodeRune d.1) (unquote (d.2 - 1) t)
      end
  end.

Definition isSpace (b : byte) : bool :=
  (byteZ b =? 32) || (byteZ b =? 9) || (byteZ b =? 10) || (byteZ b =? 13).

Fixpoint skip_space (s : list byte) : list byte :=
  match s with
  | b :: t => if isSpace b then skip_space t else s
  | [] => []
  end.

(** An element of a [[]string]: a string, or null, which leaves the empty
    string; any other value is a type error. *)
Definition element (s : list byte) : option (gostring * list byte) :=
  match s with
  | b :: t =>
      if bool_decide (b = DQUOTE) then unquote 0 t
      else if HasPrefix s (str "null") then Some ([], drop 4 s) else None
  | [] => None
  end.

(** The elements after the first bracket or comma; [n] bounds their number. *)
Fixpoint elements_of (n : nat) (s : list byte) : option (list gostring) :=
  match n with
  | O => None
  | S n' =>
      match element (skip_space s) with
      | None => None
      | Some (x, s1) =>
          match skip_space s1 with
          | b :: s2 =>
              if bool_decide (b = ","%char) then cons x <$> elements_of n' s2
              else if bool_decide (b = "]"%char) then Some [x] else None
          | [] => None
          end
      end
  end.

(** [json.NewDecoder(r.Body).Decode(&args)]: [None] is an error; what follows
    the first value is not read. *)
Definition DecodeArgs (body : list byte) : option (list gostring) :=
  match skip_space body with
  | [] => None
  | b :: t =>
      if bool_decide (b = "["%char) then
        match skip_space t with
        | c :: _ => if bool_decide (c = "]"%char) then Some [] else elements_of (length t) t
        | [] => None
        end
      else if HasPrefix (b :: t) (str "null") then Some [] else None
  end.

(** ** The handler, bytes to bytes *)
Section http.
Context `{!UnicodeUpper} {W : Type}.
Context (handlers : gmap gostring (list Value → W → go (W * Value))).
Context (onWrite : option (gostring → list Value → W → go W)).

(** The status line's code and the body of a response ([writeJSON] sets the
    code, the answer of a command is sent with 200). *)
Definition serveHTTP (method : gostring) (body : list byte) (w : W) : go (W * (Z * list byte)) :=
  '(w', (status, v)) ← handleCommand handlers onWrite (mkRequest method (DecodeArgs body)) w;
  Ret (w', (status, Encode v)).
End http.

(** ** Strings, back and forth *)

(** The text a reader of the encoding gets: invalid bytes became U+FFFD. *)
Definition coerce (s : gostring) : gostring := concat ((λ d, EncodeRune d.1) <$> chunks s).

Lemma chunks_skip k s : chunks_from k s = chunks (drop k s).
Proof. revert k; induction s as [|b s IH]; intros [|k]; [done..|]. apply IH. Qed.

Lemma chunks_cons b s : chunks (b :: s) = DecodeRune (b :: s) :: chunks (drop ((DecodeRune (b :: s)).2 - 1) s).
Proof. unfold chunks at 1. cbn [chunks_from]. by rewrite chunks_skip. Qed.

(** What a decoded rune can be. *)
Definition chunk_ok (d : Z * nat) : Prop := d = (RuneError, 1%nat) ∨ (scalar d.1 ∧ invalid d = false).

Lemma DecodeRune_ok b s : chunk_ok (DecodeRune (b :: s)).
Proof.
  destruct (invalid (DecodeRune (b :: s))) eqn:E.
  - left. unfold invalid in E. destruct (DecodeRune (b :: s)) as [r n]. cbn in E.
    apply andb_true_iff in E as [->%Z.eqb_eq ->%Nat.eqb_eq]. done.
  - right. split; [|done]. destruct (DecodeRune_valid (b :: s)) as (r & rest & Hr & _ & ->); [done..|]. exact Hr.
Qed.

Lemma chunks_from_ok k s : Forall chunk_ok (chunks_from k s).
Proof. revert k; induction s as [|b s IH]; intros [|k]; simpl; auto. constructor; [apply DecodeRune_ok|apply IH]. Qed.

Lemma unquote_skip l s : unquote (length l) (l ++ s) = unquote 0 s.
Proof. induction l as [|b l IH]; [done|]. apply IH. Qed.

(** The first byte of a rune outside ASCII. *)
Lemma EncodeRune_high r : scalar r → 128 ≤ r → ∃ b t, EncodeRune r = b :: t ∧ 128 ≤ byteZ b.
Proof.
  intros Hr Hh. destruct Hr as [Hr Hs]. destruct (EncodeRune_scalar r (conj Hr Hs)) as [[H ->]|[[H ->]|[[H ->]|[H ->]]]]; [lia|..];
    eexists _, _; (split; [done|]); rewrite byteZ_Zbyte, Z.mod_small; Z.div_mod_to_equations; lia.
Qed.

Lemma unquote_escape r s : 0 ≤ r < 128 → unquote 0 (escape r ++ s) = put (EncodeRune r) (unquote 0 s).
Proof.
  intros Hr. assert (∃ n, (n < 128)%nat ∧ r = Z.of_nat n) as (n & Hn & ->) by (exists (Z.to_nat r); lia).
  clear Hr. do 128 (destruct n as [|n]; [reflexivity|]). lia.
Qed.

Lemma unquote_chunk d s : chunk_ok d → unquote 0 (quote_chunk d ++ s) = put (EncodeRune d.1) (unquote 0 s).
Proof.
  intros [->|[Hr Hv]]; [reflexivity|]. destruct d as [r n]. cbn [fst] in *. unfold quote_chunk. cbn [fst].
  destruct (Z.ltb_spec r 128) as [|Hh]; [apply unquote_escape; destruct Hr; lia|]. rewrite Hv.
  destruct (Z.eqb_spec r 8232) as [->|]; [reflexivity|]. destruct (Z.eqb_spec r 8233) as [->|]; [reflexivity|]. cbn [orb].
  destruct (DecodeRune_EncodeRune r s Hr) as [E _]. destruct (EncodeRune_high r Hr Hh) as (b & t & Eb & Hb).
  rewrite Eb in *. cbn [app] in *. cbn [unquote]. rewrite E.
  rewrite (proj2 (Z.eqb_neq _ _)), (proj2 (Z.eqb_neq (byteZ b) 92)), (proj2 (Z.ltb_ge (byteZ b) 32)), (proj2 (Z.ltb_ge (byteZ b) 128)) by lia.
  cbn [fst snd length]. rewrite Nat.sub_succ, Nat.sub_0_r, unquote_skip. by rewrite Eb.
Qed.

(** A string literal is read back as the coerced text. *)
Lemma unquote_quote s rest :
  unquote 0 (concat (quote_chunk <$> chunks s) ++ DQUOTE :: rest) = Some (coerce s, rest).
Proof.
  unfold coerce. pose proof (chunks_from_ok 0 s) as Hok. fold (chunks s) in Hok. induction Hok as [|d l Hd _ IH]; [reflexivity|].
  rewrite !fmap_cons. cbn [concat]. rewrite <-app_assoc, unquote_chunk by done. by rewrite IH.
Qed.

Lemma utf8_rune r s : utf8 s → utf8 (EncodeRune r ++ s).
Proof. intros Hs. destruct (EncodeRune_valid r) as (r' & Hr & ->). by constructor. Qed.

Lemma EncodeRune_ascii b : byteZ b < 128 → [b] = EncodeRune (byteZ b).
Proof.
  intros H. pose proof (byteZ_range b). symmetry. apply EncodeRune_bytes; [split; [lia|unfold surrogate; lia]|].
  rewrite (proj2 (Z.leb_le _ _)) by lia. by repeat constructor.
Qed.

Lemma chunks_rune r s : scalar r → chunks (EncodeRune r ++ s) = (r, length (EncodeRune r)) :: chunks s.
Proof.
  intros Hr. destruct (DecodeRune_EncodeRune r s Hr) as [E _]. pose proof (EncodeRune_pos r).
  destruct (EncodeRune r) as [|b t] eqn:Er; [simpl in *; lia|]. cbn [app] in *. rewrite chunks_cons, E. cbn [snd length].
  by rewrite Nat.sub_succ, Nat.sub_0_r, drop_app_length.
Qed.

Lemma utf8_coerce s : utf8 (coerce s).
Proof.
  unfold coerce, chunks. pose proof (chunks_from_ok 0 s) as H. induction H as [|d l _ _ IH]; [constructor|].
  rewrite fmap_cons. cbn [concat]. by apply utf8_rune.
Qed.

Lemma coerce_id s : coerce s = s ↔ utf8 s.
Proof.
  split; [intros <-; apply utf8_coerce|]. induction 1 as [|r s Hr _ IH]; [done|].
  unfold coerce in *. rewrite chunks_rune by done. rewrite fmap_cons. cbn [concat fst]. by rewrite IH.
Qed.

Lemma put_Some l o x rest : put l o = Some (x, rest) → ∃ y, o = Some (y, rest) ∧ x = l ++ y.
Proof. destruct o as [[y r]|]; simpl; [|done]. intros [= <- <-]. by exists y. Qed.

Lemma unescape_ascii c x : unescape c = Some x → byteZ x < 128.
Proof.
  unfold unescape. destruct (decide (c = DQUOTE)) as [->|H1]; [by intros [= <-]|].
  destruct (decide (c = BACKSLASH)) as [->|H2]; [by intros [= <-]|].
  destruct (decide (c = "/"%char)) as [->|H3]; [by intros [= <-]|].
  rewrite !bool_decide_eq_false_2 by done. cbn [orb]. repeat case_match; intros; by simplify_eq.
Qed.

(** A decoded string is valid text, and its literal has at least one byte. *)
Lemma unquote_utf8 k s x rest : unquote k s = Some (x, rest) → utf8 x ∧ (length rest < length s)%nat.
Proof.
  revert k x. induction s as [|b s IH]; intros k x E; [done|]. destruct k as [|k]; cbn [unquote] in E.
  2:{ destruct (IH _ _ E). simpl. split; [done|lia]. }
  assert (∀ r k, put (EncodeRune r) (unquote k s) = Some (x, rest) → utf8 x ∧ (length rest < length (b :: s))%nat) as Hput.
  { intros r k Hp. apply put_Some in Hp as (y & Hy & ->). destruct (IH _ _ Hy). simpl. split; [by apply utf8_rune|lia]. }
  destruct (byteZ b =? 34); [injection E as <- <-; simpl; split; [constructor|lia]|].
  destruct (byteZ b =? 92).
  - destruct s as [|c s']; [done|]. destruct (bool_decide (c = "u"%char)).
    + destruct (getu4 (b :: c :: s')); [|done]. repeat case_match; eauto.
    + destruct (unescape c) as [u|] eqn:Eu; [|done]. rewrite (EncodeRune_ascii u) in E by (by eapply unescape_ascii). eauto.
  - destruct (byteZ b <? 32); [done|]. destruct (Z.ltb_spec (byteZ b) 128); [|eauto].
    rewrite (EncodeRune_ascii b) in E by done. eauto.
Qed.

(** ** Lists of strings *)
Lemma element_quote s rest : element (quote s ++ rest) = Some (coerce s, rest).
Proof.
  unfold quote. cbn [app element]. rewrite bool_decide_eq_true_2 by done. rewrite <-app_assoc. cbn [app].
  apply unquote_quote.
Qed.

Lemma skip_space_quote s rest : skip_space (quote s ++ rest) = quote s ++ rest.
Proof. reflexivity. Qed.

Lemma element_utf8 s x rest : element s = Some (x, rest) → utf8 x ∧ (length rest < length s)%nat.
Proof.
  unfold element. destruct s as [|b s]; [done|]. case_bool_decide.
  - intros E. destruct (unquote_utf8 _ _ _ _ E). simpl. split; [done|lia].
  - destruct (HasPrefix _ _); [|done]. intros [= <- <-]. split; [constructor|]. rewrite length_drop. simpl. lia.
Qed.

Lemma skip_space_length s : (length (skip_space s) ≤ length s)%nat.
Proof. induction s as [|b s IH]; simpl; [done|]. case_match; simpl; lia. Qed.

(** The bound is no restriction: any bound above the length gives the same. *)
Lemma elements_of_fuel n m s :
  (length s ≤ n)%nat → (length s ≤ m)%nat → elements_of n s = elements_of m s.
Proof.
  revert m s; induction n as [|n IH]; intros m s Hn Hm.
  - destruct s; [|simpl in Hn; lia]. by destruct m.
  - destruct m as [|m]; [destruct s; [done|simpl in Hm; lia]|]. cbn [elements_of].
    destruct (element (skip_space s)) as [[x s1]|] eqn:E; [|done]. apply element_utf8 in E as [_ Hl].
    pose proof (skip_space_length s). pose proof (skip_space_length s1) as Hs1.
    destruct (skip_space s1) as [|b s2]; [done|]. simpl in Hs1.
    case_bool_decide; [|done]. f_equal. apply IH; lia.
Qed.

Lemma elements_of_utf8 n s args : elements_of n s = Some args → Forall utf8 args.
Proof.
  revert s args; induction n as [|n IH]; intros s args E; [done|]. cbn [elements_of] in E.
  destruct (element (skip_space s)) as [[x s1]|] eqn:Ex; [|done]. apply element_utf8 in Ex as [Hx _].
  destruct (skip_space s1) as [|b s2]; [done|]. case_bool_decide.
  - destruct (elements_of n s2) as [l|] eqn:El; [|done]. injection E as <-. constructor; eauto.
  - case_bool_decide; [|done]. injection E as <-. by repeat constructor.
Qed.

Lemma elements_of_quotes n arg args rest :
  (length args < n)%nat →
  elements_of n (commas (quote <$> (arg :: args)) ++ str "]" ++ rest) = Some (coerce <$> (arg :: args)).
Proof.
  revert n arg; induction args as [|arg' args IH]; intros n arg Hn; (destruct n as [|n]; [simpl in Hn; lia|]).
  - cbn [fmap list_fmap commas elements_of]. rewrite skip_space_quote, element_quote. reflexivity.
  - change (commas (quote <$> arg :: arg' :: args)) with (quote arg ++ str "," ++ commas (quote <$> arg' :: args)).
    rewrite <-!app_assoc. cbn [elements_of]. rewrite skip_space_quote, element_quote.
    change (skip_space (str "," ++ ?x)) with ("," :: x)%char. cbv beta iota. rewrite bool_decide_eq_true_2 by done.
    rewrite IH by (simpl in Hn; lia). reflexivity.
Qed.

(** The body a client sends for a command. *)
Definition request_body (args : list gostring) : list byte := Encode (JArray (JString <$> args)).

Lemma DecodeArgs_request args : DecodeArgs (request_body args) = Some (coerce <$> args).
Proof.
  unfold request_body, Encode. cbn [json_bytes]. rewrite <-!app_assoc.
  assert (map json_bytes (JString <$> args) = quote <$> args) as -> by apply map_map.
  destruct args as [|arg args]; [reflexivity|]. set (t := commas (quote <$> arg :: args) ++ str "]" ++ [LF]).
  change (DecodeArgs (str "[" ++ t)) with
    (match skip_space t with c :: _ => if bool_decide (c = "]"%char) then Some [] else elements_of (length t) t | [] => None end).
  assert (∃ t', skip_space t = DQUOTE :: t') as [t' ->].
  { subst t. destruct args; rewrite fmap_cons; cbn [commas fmap list_fmap]; unfold quote at 1; eexists; reflexivity. }
  rewrite bool_decide_eq_false_2 by done. rewrite (elements_of_fuel _ (length t + length args + 1)) by lia.
  apply elements_of_quotes. lia.
Qed.

(** ** Theorems *)

(** [encoding/json] as the transport uses it: a body that encodes a list of
    strings is decoded to exactly these strings when they are valid UTF-8,
    whatever characters need escaping; otherwise every invalid byte has become
    U+FFFD, so the list arrives unchanged only if all its strings are valid. *)
Theorem http_request_roundtrip (args : list gostring) :
  DecodeArgs (request_body args) = Some (coerce <$> args) ∧
  (DecodeArgs (request_body args) = Some args ↔ Forall utf8 args).
Proof.
  rewrite DecodeArgs_request. split; [done|]. split.
  - intros [= E]. apply Forall_lookup. intros i s Hs. apply coerce_id.
    pose proof (f_equal (.!! i) E) as Ei. rewrite list_lookup_fmap, Hs in Ei. by injection Ei.
  - intros Hu. f_equal. rewrite <-(list_fmap_id args) at 2. apply list_fmap_ext. intros i s Hs.
    by apply coerce_id, (Forall_lookup_1 _ _ _ _ Hu Hs).
Qed.

(** Whatever the body, the arguments a handler gets over HTTP are valid
    UTF-8: a key that is not, set over another transport, cannot be named. *)
Theorem http_args_utf8 (body : list byte) (args : list gostring) : DecodeArgs body = Some args → Forall utf8 args.
Proof.
  unfold DecodeArgs. destruct (skip_space body) as [|b t]; [done|]. case_bool_decide.
  - destruct (skip_space t) as [|c t']; [done|]. case_bool_decide; [by intros [= <-]|apply elements_of_utf8].
  - case_match; [by intros [= <-]|done].
Qed.

Section server.
Context `{!UnicodeUpper}.
Context {S P : Type} `{!StoreOps S} `{!StoreLaws S} `{!PersistenceOps P} `{!PersistenceLaws P}.
Context (supply : nat → Envs).

Definition server_http := serveHTTP (server_handlers (S:=S) (P:=P) supply) (Some server_onWrite).

(** A command over HTTP: its effect is that of its coerced arguments and the
    response is the encoded reply. *)
Lemma server_http_command c args a log w :
  good a log w → sets_no_deadline c (VBulk <$> (coerce <$> args)) = true →
  let vs := VBulk <$> (coerce <$> args) in
  ∃ w' n, server_http (str "POST") (request_body (command_name c :: args)) w =
    Ret (w', (200, Encode (respToJSON (kv_command (e_order (supply n 0%nat)) c vs a).2))) ∧
  good (kv_effect c vs a) (log ++ logged c vs) w'.
Proof.
  intros [Hp Hl] Hnd vs. unfold server_http, serveHTTP, handleCommand. cbn [rq_method rq_body].
  rewrite bool_decide_eq_true_2 by done. cbn [negb]. rewrite DecodeArgs_request. rewrite fmap_cons.
  assert (coerce (command_name c) = command_name c) as -> by (by destruct c).
  rewrite ToUpper_is_upper by (by destruct c). rewrite server_handlers_command. unfold dispatch.
  destruct (onWrite_good c vs a log w (conj Hp Hl)) as (w1 & E1 & [Hp1 Hl1] & Hn). fold vs. rewrite E1. cbn [mbind go_bind].
  unfold instrument. destruct (handler_refines c (supply (sv_calls w1)) vs a (sv_store w1) Hp1 Hnd) as (t & E2 & Hpt).
  rewrite E2. cbn [mbind go_bind]. eexists _, (sv_calls w1). split; [done|]. rewrite kv_effect_order in Hpt. by split.
Qed.

(** C13: SET and GET over HTTP, bytes to bytes: from any state without deadlines
    and without a key limit, a posted SET answers OK and a posted GET of the
    key then answers the value, with its characters escaped; the value is the
    one sent if it is valid UTF-8, and otherwise has U+FFFD for invalid bytes. *)
Theorem http_set_get (k v : gostring) a log (w : server S P) :
  good a log w →
  ∃ w1 w2, server_http (str "POST") (request_body [str "SET"; k; v]) w = Ret (w1, (200, Encode (json_ok (JString (str "OK"))))) ∧
    server_http (str "POST") (request_body [str "GET"; k]) w1 = Ret (w2, (200, Encode (json_ok (JString (coerce v))))) ∧
    (utf8 v → coerce v = v) ∧ (∀ rest, element (quote (coerce v) ++ rest) = Some (coerce v, rest)).
Proof.
  intros Hg. destruct (server_http_command CSet [k; v] a log w Hg) as (w1 & n1 & E1 & Hg1); [done|].
  destruct (server_http_command CGet [k] _ _ w1 Hg1) as (w2 & n2 & E2 & _); [done|].
  exists w1, w2. split; [exact E1|]. split; [|split; [apply coerce_id|]].
  - etrans; [exact E2|]. unfold kv_effect. cbn. unfold kv_get. cbn. by rewrite lookup_insert_eq.
  - intros rest. rewrite element_quote. by rewrite (proj2 (coerce_id (coerce v)) (utf8_coerce v)).
Qed.

(** gRPC: the response is encoded by the protobuf package, [Marshal] here,
    which refuses a string field that is not valid UTF-8; the call then fails.
    A value that is not UTF-8 can therefore not be read over gRPC. *)
Theorem grpc_binary_value_fails (Marshal : ResponseValue → option (list byte)) (k v : gostring) a log (w : server S P) :
  (∀ t s n b l, is_Some (Marshal (mkResponse t s n b l)) → utf8 s ∧ utf8 b) →
  good a log w → kv_get k a = Some v → ¬ utf8 v →
  ∃ w' r, Exec (server_handlers supply) (Some server_onWrite) (str "GET") [k] w = Ret (w', r) ∧ Marshal r = None.
Proof.
  intros Hm [Hp Hl] Hk Hv. unfold Exec. rewrite ToUpper_is_upper by done.
  change (str "GET") with (command_name CGet). rewrite server_handlers_command. unfold dispatch.
  destruct (onWrite_good CGet [VBulk k] a log w (conj Hp Hl)) as (w1 & E1 & [Hp1 _] & _).
  change (VBulk <$> [k]) with [VBulk k]. rewrite E1. cbn [mbind go_bind]. unfold instrument.
  destruct (handler_refines CGet (supply (sv_calls w1)) [VBulk k] a (sv_store w1) Hp1) as (t & E2 & _); [done|].
  rewrite E2. cbn [mbind go_bind]. eexists _, _. split; [done|]. cbn -[kv_get].
  change (v_Bulk (VBulk k)) with k. rewrite Hk. cbn.
  apply eq_None_not_Some. intros Hs. apply Hm in Hs. by apply Hv, Hs.
Qed.

(** Values that are not UTF-8 are not readable over HTTP: the response to a
    GET of the byte 255 is the one of the byte 254. *)
Theorem http_binary_value_lost (k : gostring) a log (w : server S P) :
  good a log w → utf8 k → kv_get k a = Some [Zbyte 255] →
  ∃ w', server_http (str "POST") (request_body [str "GET"; k]) w = Ret (w', (200, Encode (json_ok (JString [Zbyte 254])))).
Proof.
  intros Hg Hk Hv. destruct (server_http_command CGet [k] a log w Hg) as (w1 & n & E & _); [done|]. exists w1. etrans; [exact E|].
  cbn. rewrite (proj2 (coerce_id k) Hk), Hv. reflexivity.
Qed.
End server.

(** ** Witnesses *)
#[local] Instance upper_same : UnicodeUpper := λ s, s.

Lemma http_set_get_witness :
  ∃ w w1 w2, boot (at_ 0) NewMapStore NoEviction 0 (NewWAL [] None) = Ret w ∧
    server_http clock (str "POST") (request_body [str "SET"; str "a<b"; [Zbyte 195; Zbyte 169; DQUOTE]]) w =
      Ret (w1, (200, Encode (json_ok (JString (str "OK"))))) ∧
    server_http clock (str "POST") (request_body [str "GET"; str "a<b"]) w1 =
      Ret (w2, (200, Encode (json_ok (JString [Zbyte 195; Zbyte 169; DQUOTE])))).
Proof.
  destruct (boot_fresh (at_ 0) NewMapStore NoEviction (NewWAL [] None) fresh_map_wal) as (w & E & Hg & _).
  destruct (http_set_get clock (str "a<b") [Zbyte 195; Zbyte 169; DQUOTE] kv_empty [] w Hg) as (w1 & w2 & E1 & E2 & _).
  exists w, w1, w2. split; [exact E|]. split; [exact E1|exact E2].
Defined.
