(* ===== verification/AuxServers.v ===== *)
(** * AuxServers: the health and metrics servers, src/health, src/telemetry/server.go, src/main.go

    [main] starts up to two more HTTP servers and the metrics collector beside
    [n.Listen].  Each [StartServer] runs in a goroutine, and starts one that
    closes its server when the context is done.  [http.Server] is modelled by
    its shutdown flag, its listener and the stages of [ListenAndServe]: it
    tests the flag before it binds and again before it accepts, so a Close
    that comes first is not lost; the accept loop goes round once per
    connection and once per temporary error, and ends when the listener is
    closed.  [Close] sets the flag and then closes the listener, in two steps.
    The steps of Lifecycle and of these goroutines interleave. *)

From stdpp Require Import base list gmap strings.
From Stdlib Require Import ZArith Lia Ascii.
From S2P Require Import Prelude GoLib StoreSpec GoIO Resp Network Lifecycle Telemetry Config HttpJSON.

(** ** One server *)
Inductive aux_kind := Health | Metrics.
Inductive srv_error := ErrServerClosed | ErrOther (e : gostring).

(** Where [StartServer] is: before [go func()], before its log message, inside
    [ListenAndServe], before the test of its error, returned. *)
Inductive stage := QSpawn | QLog | QCheck | QBind | QTrack | QAccept | QErr (e : srv_error) | QEnd.

(** The goroutine that waits for the context: not started, waiting, in [Close]
    between the flag and the listener, done. *)
Inductive watch := WNone | WWait | WFlag | WDone.

(** What the operating system answers: done, a temporary error of [Accept],
    another error, and [Accept] on a closed listener. *)
Inductive srv_answer := SOk | STemporary | SFail (e : gostring) | SClosed.

(** [x_shutdown] is the flag of the server, [x_closed] its closed listener. *)
Record aux := mkAux { x_kind : aux_kind; x_stage : stage; x_watch : watch; x_shutdown : bool; x_closed : bool }.

(** [health.StartServer] and [telemetry.StartServer], before their first step. *)
Definition health_StartServer : aux := mkAux Health QSpawn WNone false false.
Definition telemetry_StartServer : aux := mkAux Metrics QSpawn WNone false false.

Definition at_stage (q : stage) (a : aux) : aux := mkAux (x_kind a) q (x_watch a) (x_shutdown a) (x_closed a).

(** A step of [StartServer].  In the accept loop [SOk] is a connection, which
    is served by a goroutine of its own, and [STemporary] a retry, unless the
    flag is set; an error of [Accept] is [ErrServerClosed] when the flag is
    set. *)
Definition serve_step (o : srv_answer) (a : aux) (lg : Logger) : option (aux * Logger) :=
  match x_stage a, o with
  | QSpawn, SOk =>
      Some (mkAux (x_kind a) (match x_kind a with Health => QLog | Metrics => QCheck end) WWait (x_shutdown a) (x_closed a), lg)
  | QLog, SOk => Some (at_stage QCheck a, Info (str "health endpoint") lg)
  | QCheck, SOk => Some (at_stage (if x_shutdown a then QErr ErrServerClosed else QBind) a, lg)
  | QBind, SOk => Some (at_stage QTrack a, lg)
  | QBind, SFail e => Some (at_stage (QErr (ErrOther e)) a, lg)
  | QTrack, SOk => Some (at_stage (if x_shutdown a then QErr ErrServerClosed else QAccept) a, lg)
  | QAccept, SOk => if x_closed a then None else Some (a, lg)
  | QAccept, STemporary => Some (if x_shutdown a then at_stage (QErr ErrServerClosed) a else a, lg)
  | QAccept, SFail e => Some (at_stage (QErr (if x_shutdown a then ErrServerClosed else ErrOther e)) a, lg)
  | QAccept, SClosed => if x_closed a then Some (at_stage (QErr ErrServerClosed) a, lg) else None
  | QErr ErrServerClosed, SOk => Some (at_stage QEnd a, lg)
  | QErr (ErrOther _), SOk =>
      Some (at_stage QEnd a, Error (match x_kind a with Health => str "health server error" | Metrics => str "metrics server error" end) lg)
  | _, _ => None
  end.

(** [<-ctx.Done(); srv.Close()] *)
Definition watch_step (ctx_done : bool) (a : aux) : option aux :=
  match x_watch a with
  | WWait => if ctx_done then Some (mkAux (x_kind a) (x_stage a) WFlag true (x_closed a)) else None
  | WFlag => Some (mkAux (x_kind a) (x_stage a) WDone (x_shutdown a) true)
  | _ => None
  end.

(** The two muxes; [prom] is what the Prometheus handler writes. *)
Definition not_found : Z * list byte := (404%Z, str "404 page not found" ++ [LF]).
Definition health_mux (path : gostring) : Z * list byte :=
  match health_response path with Some (status, j) => (status, Encode j) | None => not_found end.
Definition metrics_mux (prom : list byte) (path : gostring) : Z * list byte :=
  if bool_decide (path = str "/metrics") then (200%Z, prom) else not_found.

(** A request: the server answers while it accepts; [None] is a refused
    connection. *)
Definition aux_request (prom : list byte) (path : gostring) (a : aux) : option (Z * list byte) :=
  match x_stage a with
  | QAccept => if x_shutdown a then None else Some (match x_kind a with Health => health_mux path | Metrics => metrics_mux prom path end)
  | _ => None
  end.

(** ** The program *)
Record system := mkSystem { y_world : world; y_aux : list aux; y_collector : option Collector; y_log : Logger }.

(** The servers [main] starts, by their ports. *)
Definition aux_servers (s : ServerConfig) : list aux :=
  (if (0 <? HealthPort s)%Z then [health_StartServer] else []) ++ (if (0 <? MetricsPort s)%Z then [telemetry_StartServer] else []).

(** The collector is started with the metrics server; nothing stops it. *)
Definition aux_collector (s : ServerConfig) (lg : Logger) : option Collector * Logger :=
  if (0 <? MetricsPort s)%Z then (Some (Start (NewCollector true)), Debug (str "metrics collector started") lg) else (None, lg).

Definition start_system (t : transport) (s : ServerConfig) (lg : Logger) : system :=
  let '(c, lg') := aux_collector s lg in mkSystem (start t) (aux_servers s) c (Info (str "listening") lg').

(** What [main] logs in a step: after its select and at its end. *)
Definition main_log (b : bool) (w : world) (lg : Logger) : Logger :=
  match w_main w with
  | MSelect =>
      if b then Info (str "shutting down") lg
      else match w_errCh w with Some (Some _) => Error (str "server error") lg | _ => lg end
  | MStore => Info (str "shutdown complete") lg
  | _ => lg
  end.

Inductive sys_act := YWorld (a : act) | YServe (i : nat) (o : srv_answer) | YWatch (i : nat).

(** A step; the process is gone when [main] has returned. *)
Definition sys_exec (t : transport) (maxConns : Z) (a : sys_act) (y : system) : option system :=
  if bool_decide (w_main (y_world y) = MExit) then None else
  match a with
  | YWorld act =>
      match exec t maxConns act (y_world y) with
      | Some w => Some (mkSystem w (y_aux y) (y_collector y) (match act with AMain b => main_log b (y_world y) (y_log y) | _ => y_log y end))
      | None => None
      end
  | YServe i o =>
      match y_aux y !! i with
      | Some x => match serve_step o x (y_log y) with
                  | Some (x', lg) => Some (mkSystem (y_world y) (<[i := x']> (y_aux y)) (y_collector y) lg)
                  | None => None
                  end
      | None => None
      end
  | YWatch i =>
      match y_aux y !! i with
      | Some x => match watch_step (w_signal (y_world y)) x with
                  | Some x' => Some (mkSystem (y_world y) (<[i := x']> (y_aux y)) (y_collector y) (y_log y))
                  | None => None
                  end
      | None => None
      end
  end.

Fixpoint sys_run (t : transport) (maxConns : Z) (l : list sys_act) (y : system) : option system :=
  match l with
  | [] => Some y
  | a :: l' => match sys_exec t maxConns a y with Some y' => sys_run t maxConns l' y' | None => None end
  end.

(** ** Invariants *)

(** The watching goroutine is there from the first step on; it sets the flag
    and then closes the listener. *)
Definition aux_inv (a : aux) : Prop :=
  (x_watch a = WNone ↔ x_stage a = QSpawn) ∧ (x_shutdown a = true ↔ x_watch a = WFlag ∨ x_watch a = WDone) ∧
  (x_closed a = true ↔ x_watch a = WDone).

(** A step of these goroutines. *)
Definition aux_own (a : sys_act) : bool := match a with YWorld _ => false | _ => true end.
(** The operating system reported an error to one of them. *)
Definition aux_fault (a : sys_act) : bool := match a with YServe _ (SFail _ | STemporary) => true | _ => false end.
(** Both goroutines of a server have ended. *)
Definition ended (a : aux) : Prop := x_stage a = QEnd ∧ x_watch a = WDone.

(** The steps left to both goroutines of a server, rounds of the accept loop
    apart. *)
Definition stage_left (q : stage) : nat :=
  match q with QSpawn => 7 | QLog => 6 | QCheck => 5 | QBind => 4 | QTrack => 3 | QAccept => 2 | QErr _ => 1 | QEnd => 0 end.
Definition watch_left (w : watch) : nat := match w with WNone | WWait => 2 | WFlag => 1 | WDone => 0 end.
Definition aux_left (a : aux) : nat := stage_left (x_stage a) + watch_left (x_watch a).
Definition sys_left (y : system) : nat := sum_list_with aux_left (y_aux y).

Lemma serve_step_ok o a lg a' lg' :
  aux_inv a → serve_step o a lg = Some (a', lg') → aux_inv a' ∧ (aux_left a' < aux_left a ∨ a' = a ∧ x_closed a = false) ∧ x_closed a' = x_closed a.
Proof.
  destruct a as [k q w sh cl]. unfold aux_inv, aux_left, serve_step, at_stage. simpl. intros (H1 & H2 & H3) E.
  assert (cl = true → sh = true) as Hcs by naive_solver.
  assert (q = QSpawn → w = WNone) as Hq by naive_solver. assert (q ≠ QSpawn → w ≠ WNone) as Hq' by naive_solver.
  destruct q as [| | | | | |[|e]|], o; simplify_eq/=; try (rewrite (Hq eq_refl) in *); destruct sh, cl; simplify_eq/=;
    try (by specialize (Hcs eq_refl)); (split; [split_and!; try done; destruct k; naive_solver|split; [|done]]);
    first [left; destruct k; simpl; lia|by right].
Qed.

Lemma watch_step_ok d a a' : aux_inv a → watch_step d a = Some a' → aux_inv a' ∧ aux_left a' < aux_left a ∧ (x_closed a = true → x_closed a' = true).
Proof.
  destruct a as [k q w sh cl]. unfold aux_inv, aux_left, watch_step. simpl. intros (H1 & H2 & H3) E.
  destruct w, d; simplify_eq/=; (split; [|split; [lia|done]]); split_and!; split; intros; simplify_eq/=; try tauto;
    first [by discriminate (proj2 H1 eq_refl)|by discriminate (proj1 H3 eq_refl)].
Qed.

Lemma sum_insert (f : aux → nat) l i x x' :
  l !! i = Some x → f x' < f x → sum_list_with f (<[i := x']> l) < sum_list_with f l.
Proof. revert i; induction l as [|h l IH]; intros [|i] E Hlt; simplify_eq/=; [lia|]. pose proof (IH i E Hlt). lia. Qed.

Definition all_closed (y : system) : Prop := Forall (λ x, x_closed x = true) (y_aux y).

(** With the listeners closed every step of these goroutines is one of the
    last. *)
Lemma sys_exec_ok t maxConns a y y' :
  Forall aux_inv (y_aux y) → sys_exec t maxConns a y = Some y' →
  Forall aux_inv (y_aux y') ∧ length (y_aux y') = length (y_aux y) ∧
  (all_closed y → all_closed y' ∧ (if aux_own a then sys_left y' < sys_left y else sys_left y' = sys_left y)).
Proof.
  intros Hi E. unfold sys_exec in E. case_bool_decide; [done|]. unfold sys_left, all_closed. destruct a as [act|i o|i]; cbn [aux_own].
  - destruct (exec _ _ _ _); simplify_eq/=. done.
  - destruct (y_aux y !! i) as [x|] eqn:Ex; [|done]. destruct (serve_step o x (y_log y)) as [[x' lg]|] eqn:Es; simplify_eq/=.
    destruct (serve_step_ok o x _ x' lg (Forall_lookup_1 _ _ _ _ Hi Ex) Es) as (Hx' & Hl & Hc).
    split; [by apply Forall_insert|]. split; [apply length_insert|]. intros Hcl. pose proof (Forall_lookup_1 _ _ _ _ Hcl Ex) as Hxc. simpl in Hxc.
    split; [apply Forall_insert; [done|congruence]|]. destruct Hl as [Hl|[_ ?]]; [by eapply sum_insert|congruence].
  - destruct (y_aux y !! i) as [x|] eqn:Ex; [|done]. destruct (watch_step _ x) as [x'|] eqn:Es; simplify_eq/=.
    destruct (watch_step_ok _ x x' (Forall_lookup_1 _ _ _ _ Hi Ex) Es) as (Hx' & Hl & Hc).
    split; [by apply Forall_insert|]. split; [apply length_insert|]. intros Hcl. pose proof (Forall_lookup_1 _ _ _ _ Hcl Ex) as Hxc. simpl in Hxc.
    split; [apply Forall_insert; auto|by eapply sum_insert].
Qed.

Lemma sys_run_inv t maxConns acts y y' :
  Forall aux_inv (y_aux y) → sys_run t maxConns acts y = Some y' → Forall aux_inv (y_aux y') ∧ length (y_aux y') = length (y_aux y).
Proof.
  revert y; induction acts as [|a acts IH]; intros y Hi E; simplify_eq/=; [done|].
  destruct (sys_exec t maxConns a y) as [y1|] eqn:E1; [|done]. destruct (sys_exec_ok _ _ _ _ _ Hi E1) as (Hi1 & <- & _). by apply IH.
Qed.

Lemma sys_run_closed t maxConns acts y y' :
  Forall aux_inv (y_aux y) → all_closed y → sys_run t maxConns acts y = Some y' →
  length (filter (λ a, aux_own a) acts) + sys_left y' ≤ sys_left y.
Proof.
  revert y; induction acts as [|a acts IH]; intros y Hi Hc E; simplify_eq/=; [simpl; lia|].
  destruct (sys_exec t maxConns a y) as [y1|] eqn:E1; [|done]. destruct (sys_exec_ok _ _ _ _ _ Hi E1) as (Hi1 & _ & Hl).
  destruct (Hl Hc) as [Hc1 Hl1]. pose proof (IH y1 Hi1 Hc1 E) as Hle. rewrite filter_cons. destruct (aux_own a); simpl; lia.
Qed.

(** A server whose listener is closed has at most six steps left. *)
Lemma closed_left y : Forall aux_inv (y_aux y) → all_closed y → sys_left y ≤ 6 * length (y_aux y).
Proof.
  unfold all_closed, sys_left. intros Hi Hc. induction Hi as [|x xs (H1 & H2 & H3) _ IH]; [done|]. apply Forall_cons in Hc as [Hx Hc].
  specialize (IH Hc). simpl. assert (aux_left x ≤ 6); [|lia]. unfold aux_left. rewrite (proj1 H3 Hx). simpl.
  destruct (x_stage x) eqn:Eq; simpl; try lia. pose proof (proj1 H3 Hx). pose proof (proj2 H1 eq_refl). congruence.
Qed.

Lemma start_system_inv t s lg : Forall aux_inv (y_aux (start_system t s lg)) ∧ length (y_aux (start_system t s lg)) ≤ 2.
Proof.
  unfold start_system, aux_collector, aux_servers.
  destruct (0 <? HealthPort s)%Z, (0 <? MetricsPort s)%Z; simpl; (split; [|lia]); repeat constructor; simpl; naive_solver.
Qed.

(** Until both goroutines of a server have ended, one of them can move, and
    not only round the accept loop. *)
Lemma aux_progress a lg :
  aux_inv a → ended a ∨
  (∃ o a' lg', serve_step o a lg = Some (a', lg') ∧ a' ≠ a ∧ o ≠ STemporary ∧ ∀ e, o ≠ SFail e) ∨ (∃ a', watch_step true a = Some a' ∧ a' ≠ a).
Proof.
  destruct a as [k q w sh cl]. unfold aux_inv, ended, serve_step, watch_step, at_stage. simpl. intros (H1 & H2 & H3).
  destruct q as [| | | | | |[|e]|]; try (right; left; exists SOk; eexists _, _; by repeat split; try (destruct k, sh)).
  - right. destruct cl; [left; exists SClosed; by eexists _, _|]. right. destruct w; try (by eexists); naive_solver.
  - destruct w; [naive_solver|right; right; by eexists|right; right; by eexists|by left].
Qed.

(** *** The log *)

(** The only error in the log is the one of [n.Listen]. *)
Definition quiet (lg : Logger) : Prop := ∀ m, (LevelError, m) ∈ lg_out lg → m = str "server error".
Definition no_failure (a : aux) : Prop := ∀ e, x_stage a ≠ QErr (ErrOther e).

Lemma log_at_quiet l m lg : (l = LevelError → m = str "server error") → quiet lg → quiet (log_at l m lg).
Proof.
  intros Hl Hq. unfold log_at. destruct (logs _ _); [|done]. intros m' [Hm|[= <- ->]%list_elem_of_singleton]%elem_of_app; [by apply Hq|by apply Hl].
Qed.

Lemma serve_step_quiet o a lg a' lg' :
  match o with SFail _ => False | _ => True end → no_failure a → quiet lg → serve_step o a lg = Some (a', lg') → no_failure a' ∧ quiet lg'.
Proof.
  intros Ho Ha Hq E. unfold no_failure, serve_step, at_stage in *. destruct a as [k q w sh cl]. simpl in *.
  destruct q as [| | | | | |[|e]|], o; simplify_eq/=; repeat (case_match; simplify_eq/=); try (split; [done|]); try done; try (by apply log_at_quiet).
  all: by specialize (Ha e).
Qed.

Lemma sys_exec_quiet t maxConns a y y' :
  aux_fault a = false → Forall no_failure (y_aux y) → quiet (y_log y) → sys_exec t maxConns a y = Some y' →
  Forall no_failure (y_aux y') ∧ quiet (y_log y').
Proof.
  intros Ha Hf Hq E. unfold sys_exec in E. case_bool_decide; [done|]. destruct a as [act|i o|i].
  - destruct (exec _ _ _ _); simplify_eq/=. split; [done|]. destruct act; try done. unfold main_log.
    destruct (w_main (y_world y)); try done; [|by apply log_at_quiet]. destruct b; [by apply log_at_quiet|].
    destruct (w_errCh (y_world y)) as [[e|]|]; try done. by apply log_at_quiet.
  - destruct (y_aux y !! i) as [x|] eqn:Ex; [|done]. destruct (serve_step o x (y_log y)) as [[x' lg]|] eqn:Es; simplify_eq/=.
    destruct (serve_step_quiet o x (y_log y) x' lg) as [H1 H2]; [by destruct o|by eapply Forall_lookup_1|done|done|].
    split; [by apply Forall_insert|done].
  - destruct (y_aux y !! i) as [x|] eqn:Ex; [|done]. unfold watch_step in E.
    destruct (x_watch x); [done|destruct (w_signal (y_world y))|..|done]; simplify_eq/=; (split; [|done]); (apply Forall_insert; [done|]); exact (Forall_lookup_1 _ _ _ _ Hf Ex).
Qed.

Lemma sys_run_quiet t maxConns acts y y' :
  forallb (λ a, negb (aux_fault a)) acts = true → Forall no_failure (y_aux y) → quiet (y_log y) → sys_run t maxConns acts y = Some y' →
  quiet (y_log y').
Proof.
  revert y; induction acts as [|a acts IH]; intros y Ha Hf Hq E; simplify_eq/=; [done|]. apply andb_prop in Ha as [Ha Has].
  apply negb_true_iff in Ha. destruct (sys_exec t maxConns a y) as [y1|] eqn:E1; [|done].
  destruct (sys_exec_quiet _ _ _ _ _ Ha Hf Hq E1). by eapply IH.
Qed.

Lemma start_system_quiet t s l : Forall no_failure (y_aux (start_system t s (mkLogger l []))) ∧ quiet (y_log (start_system t s (mkLogger l []))).
Proof.
  assert (quiet (mkLogger l [])) as H0 by (intros m Hm; by apply not_elem_of_nil in Hm).
  unfold start_system, aux_collector, aux_servers.
  destruct (0 <? HealthPort s)%Z, (0 <? MetricsPort s)%Z; cbn [y_aux y_log app]; (split; [by repeat constructor|]); repeat apply log_at_quiet; done.
Qed.

(** *** A health server that outlives Listen *)
Definition healthy (y : system) : Prop :=
  w_signal (y_world y) = false ∧ ∃ x, y_aux y !! 0 = Some x ∧ x_kind x = Health ∧ x_stage x = QAccept ∧ x_watch x = WWait ∧ x_shutdown x = false ∧ x_closed x = false.

(** No signal, and no failing Accept of the health server. *)
Definition calm_act (a : sys_act) : bool := match a with YWorld ASignal | YServe 0 (SFail _) => false | _ => true end.

Lemma exec_signal t maxConns a w w' : a ≠ ASignal → exec t maxConns a w = Some w' → w_signal w' = w_signal w.
Proof.
  destruct w as [l s n v c e sg m b ev]. intros Ha H. destruct a as [o| |b'| | |]; simpl in H.
  - destruct l as [[|x rest]| |]; simplify_eq/=. destruct x, o; simplify_eq/=; repeat (case_match; simplify_eq/=); done.
  - destruct l, e; by simplify_eq/=.
  - unfold main_stmt, n_Close, TCP_Close, TLS_Close, Unix_Close, HTTP_Close, GRPC_Close in H. simpl in H. repeat (case_match; simplify_eq/=); done.
  - case_bool_decide; by simplify_eq/=.
  - case_bool_decide; by simplify_eq/=.
  - done.
Qed.

Lemma sys_exec_healthy t maxConns a y y' :
  calm_act a = true → healthy y → sys_exec t maxConns a y = Some y' → healthy y'.
Proof.
  intros Ha [Hs (x & Hx & Hk & Hq & Hwt & Hsh & Hcl)] E. unfold sys_exec in E. case_bool_decide; [done|]. destruct a as [act|i o|i].
  - destruct (exec _ _ _ _) as [w|] eqn:Ew; simplify_eq/=. split; [|by exists x]. cbn [y_world].
    rewrite (exec_signal t maxConns act (y_world y) w); [done|by intros ->|done].
  - destruct i as [|i].
    + rewrite Hx in E. unfold serve_step in E. rewrite Hq, Hsh, Hcl in E. destruct o; simplify_eq/=; (split; [done|]); exists x;
        (split; [|done]); apply list_lookup_insert_eq; by eapply lookup_lt_Some.
    + destruct (y_aux y !! S i) as [x1|] eqn:E1; [|done]. destruct (serve_step o x1 (y_log y)) as [[x' lg]|]; simplify_eq/=.
      split; [done|]. exists x. split; [|done]. destruct (y_aux y); [done|exact Hx].
  - destruct (y_aux y !! i) as [x1|] eqn:E1; [|done]. unfold watch_step in E. rewrite Hs in E.
    destruct (x_watch x1) eqn:Ew; simplify_eq/=. split; [done|]. exists x. split; [|done]. destruct i as [|i]; [congruence|].
    cbn [y_aux]. by rewrite list_lookup_insert_ne.
Qed.

Lemma sys_exec_byErr t maxConns a y y' :
  main_inv (y_world y) → w_byErr (y_world y) = true → sys_exec t maxConns a y = Some y' →
  main_inv (y_world y') ∧ w_byErr (y_world y') = true.
Proof.
  intros Hm Hb E. unfold sys_exec in E. case_bool_decide; [done|]. destruct a as [act|i o|i].
  - destruct (exec _ _ _ _) as [w|] eqn:Ew; simplify_eq/=. split; [by eapply main_inv_step|by eapply byErr_step].
  - destruct (y_aux y !! i) as [x|]; [|done]. by destruct (serve_step _ _ _) as [[? ?]|]; simplify_eq/=.
  - destruct (y_aux y !! i) as [x|]; [|done]. by destruct (watch_step _ _) as [?|]; simplify_eq/=.
Qed.

(** The steps of the health server up to its accept loop, and of a [Listen] that cannot bind. *)
Definition listen_fails (t : transport) : list sys_act :=
  (match t with KUnix => [YWorld (AListen Ok_)] | _ => [] end) ++
  [YWorld (AListen (Err_ (str "address already in use"))); YWorld ASend; YWorld (AMain false)].
Definition hang_acts (t : transport) : list sys_act := replicate 5 (YServe 0 SOk) ++ listen_fails t.

Lemma sys_run_app t maxConns l1 l2 y :
  sys_run t maxConns (l1 ++ l2) y = match sys_run t maxConns l1 y with Some y' => sys_run t maxConns l2 y' | None => None end.
Proof. revert y; induction l1 as [|a l1 IH]; intros y; simpl; [done|]. by destruct (sys_exec t maxConns a y). Qed.

Lemma health_up t maxConns xs c lg :
  sys_run t maxConns (replicate 5 (YServe 0 SOk)) (mkSystem (start t) (health_StartServer :: xs) c lg) =
    Some (mkSystem (start t) (mkAux Health QAccept WWait false false :: xs) c (Info (str "health endpoint") lg)).
Proof. reflexivity. Qed.

Lemma listen_fails_run t maxConns xs c lg :
  ∃ w lg', sys_run t maxConns (listen_fails t) (mkSystem (start t) xs c lg) = Some (mkSystem w xs c lg') ∧
    w_listen w = LSent ∧ w_sock w = None ∧ w_signal w = false ∧ w_byErr w = true ∧ w_main w = MClose ∧ w_errCh w = None ∧ closes w = [].
Proof. destruct t; (eexists _, _; split; [reflexivity|]; by split_and!). Qed.

(** ** Theorems *)

(** C28: The health and metrics servers stop with the program.  In every run, however
    their goroutines interleave with main, Listen and the connections: once the
    signal has arrived and as long as main has not exited, a server that has
    not ended can go on, without an error of the operating system and not only
    round its accept loop, also when the signal comes before it listens; once
    the listeners are closed the goroutines of both servers take at most twelve
    steps more, whatever arrives and whatever Accept reports; and unless the
    operating system reports an error they log none. *)
Theorem aux_servers_stop (t : transport) (maxConns : Z) (s : ServerConfig) (l : level) (acts : list sys_act) (y : system) :
  sys_run t maxConns acts (start_system t s (mkLogger l [])) = Some y →
  (w_signal (y_world y) = true → w_main (y_world y) ≠ MExit → ∀ i x, y_aux y !! i = Some x →
    ended x ∨ ∃ a y' x', (a = YWatch i ∨ ∃ o, a = YServe i o) ∧ aux_fault a = false ∧
      sys_exec t maxConns a y = Some y' ∧ y_aux y' !! i = Some x' ∧ x' ≠ x) ∧
  (all_closed y → ∀ acts' y', sys_run t maxConns acts' y = Some y' → length (filter (λ a, aux_own a) acts') ≤ 12) ∧
  (forallb (λ a, negb (aux_fault a)) acts = true → quiet (y_log y)).
Proof.
  intros E. destruct (start_system_inv t s (mkLogger l [])) as [Hi Hn]. destruct (sys_run_inv _ _ _ _ _ Hi E) as [Hi' Hn']. split_and!.
  - intros Hs Hm i x Hx. pose proof (lookup_lt_Some _ _ _ Hx) as Hlt.
    destruct (aux_progress x (y_log y) (Forall_lookup_1 _ _ _ _ Hi' Hx)) as [?|[(o & x' & lg & Es & Hne & Ho1 & Ho2)|(x' & Es & Hne)]]; [by left|right..].
    + eexists (YServe i o), _, x'. split; [by right; exists o|]. split; [by destruct o as [| |e|]; simpl; try done; destruct (Ho2 e)|].
      unfold sys_exec. rewrite bool_decide_eq_false_2, Hx, Es by done. split; [reflexivity|]. split; [by apply list_lookup_insert_eq|done].
    + eexists (YWatch i), _, x'. split; [by left|]. split; [done|].
      unfold sys_exec. rewrite bool_decide_eq_false_2, Hx, Hs, Es by done. split; [reflexivity|]. split; [by apply list_lookup_insert_eq|done].
  - intros Hc acts' y' E'. pose proof (sys_run_closed _ _ _ _ _ Hi' Hc E'). pose proof (closed_left y Hi' Hc). lia.
  - intros Ha. destruct (start_system_quiet t s l) as [Hf Hq]. by eapply sys_run_quiet.
Qed.

(** Healthy while nothing is served: when Listen fails (the port is taken)
    main waits for ever, and /healthz goes on answering 200 as long as no
    signal comes; so does /ready. *)
Theorem healthz_while_hung (t : transport) (maxConns : Z) (s : ServerConfig) (lg : Logger) (prom : list byte) :
  (0 < HealthPort s)%Z →
  ∃ y, sys_run t maxConns (hang_acts t) (start_system t s lg) = Some y ∧ w_listen (y_world y) = LSent ∧ w_sock (y_world y) = None ∧
    ∀ acts y', forallb calm_act acts = true → sys_run t maxConns acts y = Some y' →
      w_main (y_world y') ≠ MExit ∧
      ∃ x, y_aux y' !! 0 = Some x ∧
        aux_request prom (str "/healthz") x = Some (200%Z, Encode (JObject [(str "status", JString (str "ok"))])) ∧
        aux_request prom (str "/ready") x = Some (200%Z, Encode (JObject [(str "status", JString (str "ready"))])).
Proof.
  intros Hp. assert (∃ y, sys_run t maxConns (hang_acts t) (start_system t s lg) = Some y ∧ w_listen (y_world y) = LSent ∧ w_sock (y_world y) = None ∧
    healthy y ∧ main_inv (y_world y) ∧ w_byErr (y_world y) = true) as (y & E & H1 & H2 & Hh & Hm & Hb).
  { unfold start_system, aux_servers. rewrite (proj2 (Z.ltb_lt _ _) Hp). destruct (aux_collector s lg) as [c lg']. cbn [app].
    unfold hang_acts. rewrite sys_run_app, health_up.
    destruct (listen_fails_run t maxConns (mkAux Health QAccept WWait false false :: if (0 <? MetricsPort s)%Z then [telemetry_StartServer] else []) c
      (Info (str "health endpoint") (Info (str "listening") lg'))) as (w & lg2 & E & H1 & H2 & Hs & Hb & Hm & He & Hc).
    eexists. split; [exact E|]. cbn [y_world]. split_and!; [done|done|split; [done|by eexists]| |done].
    unfold main_inv. rewrite Hb, Hm. split_and!; [set_solver|done..]. }
  exists y. split_and!; [done..|]. clear E H1 H2 Hp. intros acts. revert y Hh Hm Hb.
  induction acts as [|a acts IH]; intros y Hh Hm Hb y' Ha E; simplify_eq/=.
  - split.
    + intros Hx. unfold main_inv in Hm. rewrite Hb, Hx in Hm. destruct Hm as [Hm _]. set_solver.
    + destruct Hh as [_ ([k q w sh cl] & Hx & Hk & Hq & _ & Hsh & _)]. simpl in *. subst. eexists. split; [exact Hx|]. by split.
  - apply andb_prop in Ha as [Ha Has]. destruct (sys_exec t maxConns a y) as [y1|] eqn:E1; [|done].
    destruct (sys_exec_byErr _ _ _ _ _ Hm Hb E1) as [Hm1 Hb1]. eapply IH; [|exact Hm1|exact Hb1|done|exact E]. by eapply sys_exec_healthy.
Qed.

(** ** Witnesses *)
Definition demo_server : ServerConfig := mkServer 6379 (str "tcp") 8081 9090 0 [] [] [] [] [].

(** Two requests to the metrics server, a signal before the health server
    listens, and both servers closed. *)
Definition early_signal : list sys_act :=
  replicate 6 (YServe 1 SOk) ++ [YServe 0 SOk; YWorld ASignal; YWatch 0; YServe 0 SOk; YServe 0 SOk; YWatch 0; YWatch 1; YServe 1 SOk; YWatch 1].

Definition demo_run (acts : list sys_act) : system :=
  default (start_system KTCP demo_server (mkLogger LevelInfo [])) (sys_run KTCP 0 acts (start_system KTCP demo_server (mkLogger LevelInfo []))).

Lemma aux_servers_stop_witness :
  let y := demo_run early_signal in
  y_aux y = [mkAux Health (QErr ErrServerClosed) WDone true true; mkAux Metrics QAccept WDone true true] ∧
  (w_signal (y_world y) = true → w_main (y_world y) ≠ MExit → ∀ i x, y_aux y !! i = Some x →
    ended x ∨ ∃ a y' x', (a = YWatch i ∨ ∃ o, a = YServe i o) ∧ aux_fault a = false ∧
      sys_exec KTCP 0 a y = Some y' ∧ y_aux y' !! i = Some x' ∧ x' ≠ x) ∧
  (∀ acts' y', sys_run KTCP 0 acts' y = Some y' → length (filter (λ a, aux_own a) acts') ≤ 12) ∧ quiet (y_log y).
Proof.
  split; [vm_compute; reflexivity|].
  destruct (aux_servers_stop KTCP 0 demo_server LevelInfo early_signal (demo_run early_signal)) as (H1 & H2 & H3); [vm_compute; reflexivity|].
  split; [exact H1|]. split; [apply H2; repeat constructor|apply H3; reflexivity].
Defined.

Lemma healthz_while_hung_witness :
  ∃ y, sys_run KTCP 0 (hang_acts KTCP) (start_system KTCP demo_server (mkLogger LevelInfo [])) = Some y ∧
    w_listen (y_world y) = LSent ∧ w_sock (y_world y) = None ∧
    ∀ acts y', forallb calm_act acts = true → sys_run KTCP 0 acts y = Some y' →
      w_main (y_world y') ≠ MExit ∧
      ∃ x, y_aux y' !! 0 = Some x ∧
        aux_request [] (str "/healthz") x = Some (200%Z, Encode (JObject [(str "status", JString (str "ok"))])) ∧
        aux_request [] (str "/ready") x = Some (200%Z, Encode (JObject [(str "status", JString (str "ready"))])).
Proof. apply (healthz_while_hung KTCP 0 demo_server (mkLogger LevelInfo []) []). vm_compute. reflexivity. Defined.
