(* ===== verification/Main.v ===== *)
(** * Main: the whole program, src/main.go on src/config/config.go

    [config.Build] returns values of interface type: [AnyStore] and [AnyLog]
    are such values, with dynamic dispatch; a store carries, for the proofs
    only, its invariant and its abstraction function.  [main_start] is [main]
    up to [n.Listen], from the command line and the environment to the booted
    server; Lifecycle models the rest of [main]. *)

From stdpp Require Import base list gmap strings.
From Stdlib Require Import ZArith Lia Ascii.
From S2P Require Import Prelude GoLib StoreSpec MapStore ShardedStore SyncMapStore LockFreeStore CRDTStore GoIO BitcaskStore.
From S2P Require Import SkipListStore BPTreeStore BPTreeProofs ARTStore Resp Evict TTLStore Handler Persist AOF WAL RDB Network Config Server.
Local Open Scope Z_scope.

(** ** Interface values *)
Record AnyStore := mkAny { i_T : Type; i_ops : StoreOps i_T; i_inv : i_T → Prop; i_abs : i_T → kv; i_val : i_T }.

Definition with_val (i : AnyStore) (v : i_T i) : AnyStore := mkAny (i_T i) (i_ops i) (i_inv i) (i_abs i) v.

#[global] Instance AnyStore_ops : StoreOps AnyStore := {
  st_Set k v i := s ← @st_Set _ (i_ops i) k v (i_val i); Ret (with_val i s);
  st_Get k i := @st_Get _ (i_ops i) k (i_val i);
  st_Del k i := s ← @st_Del _ (i_ops i) k (i_val i); Ret (with_val i s);
  st_HSet h k v i := s ← @st_HSet _ (i_ops i) h k v (i_val i); Ret (with_val i s);
  st_HGet h k i := @st_HGet _ (i_ops i) h k (i_val i);
  st_HGetAll h i := @st_HGetAll _ (i_ops i) h (i_val i);
  st_Close i := s ← @st_Close _ (i_ops i) (i_val i); Ret (with_val i s)
}.

(** The implementation fulfils the contract with the invariant and the
    abstraction it carries. *)
Definition honest (i : AnyStore) : Prop :=
  ∃ L : @StoreLaws (i_T i) (i_ops i), @st_inv _ _ L = i_inv i ∧ @st_abs _ _ L = i_abs i.

#[global] Program Instance AnyStore_laws : StoreLaws AnyStore := {
  st_inv i := honest i ∧ i_inv i (i_val i);
  st_abs i := i_abs i (i_val i)
}.
Next Obligation.
  intros k v i [[L [Hi Ha]] Hv]. rewrite <-Hi in Hv. destruct (law_Set k v _ Hv) as (s & E & Hs & Hb). simpl. rewrite E.
  eexists. split; [done|]. simpl. rewrite <-Hi, <-Ha. split; [split; [by exists L|done]|done].
Qed.
Next Obligation.
  intros k i [[L [Hi Ha]] Hv]. rewrite <-Hi in Hv. destruct (law_Del k _ Hv) as (s & E & Hs & Hb). simpl. rewrite E.
  eexists. split; [done|]. simpl. rewrite <-Hi, <-Ha. split; [split; [by exists L|done]|done].
Qed.
Next Obligation.
  intros h k v i [[L [Hi Ha]] Hv]. rewrite <-Hi in Hv. destruct (law_HSet h k v _ Hv) as (s & E & Hs & Hb). simpl. rewrite E.
  eexists. split; [done|]. simpl. rewrite <-Hi, <-Ha. split; [split; [by exists L|done]|done].
Qed.
Next Obligation. intros k i [[L [Hi Ha]] Hv]. rewrite <-Hi in Hv. simpl. rewrite <-Ha. by apply law_Get. Qed.
Next Obligation. intros h k i [[L [Hi Ha]] Hv]. rewrite <-Hi in Hv. simpl. rewrite <-Ha. by apply law_HGet. Qed.
Next Obligation. intros h i [[L [Hi Ha]] Hv]. rewrite <-Hi in Hv. simpl. rewrite <-Ha. by apply law_HGetAll. Qed.

Definition boxed {T} `{!StoreOps T} `{!StoreLaws T} (v : T) : AnyStore := mkAny T _ st_inv st_abs v.

Lemma boxed_ok {T} `{!StoreOps T} `{!StoreLaws T} (v : T) :
  st_inv v → st_abs v = kv_empty → st_inv (boxed v) ∧ st_abs (boxed v) = kv_empty.
Proof. intros Hi Ha. split; [|done]. split; [by eexists|done]. Qed.

(** [l_reopen]: what the constructor builds on the same file after a restart. *)
Record AnyLog := mkLog { l_T : Type; l_ops : PersistenceOps l_T; l_reopen : l_T → l_T; l_val : l_T }.

Definition with_log (l : AnyLog) (p : l_T l) : AnyLog := mkLog (l_T l) (l_ops l) (l_reopen l) p.

#[global] Instance AnyLog_ops : PersistenceOps AnyLog := {
  p_Write c l := '(p, e) ← @p_Write _ (l_ops l) c (l_val l); Ret (with_log l p, e);
  p_Replay l := '(p, cs, e) ← @p_Replay _ (l_ops l) (l_val l); Ret (with_log l p, cs, e);
  p_Close l := '(p, e) ← @p_Close _ (l_ops l) (l_val l); Ret (with_log l p, e)
}.

Definition wal_value `{!UnicodeUpper} (w : WAL) : AnyLog := mkLog WAL _ (λ w, NewWAL (f_data (wal_file w)) None) w.

(** ** The start of [main] *)
Section main.
Context `{!UnicodeUpper}.
(** The YAML package, the environment, the command line, whether a file can
    be created or opened, [time.ParseDuration], the coins of the skip list. *)
Context (yaml_Unmarshal : list byte → option Config) (env : gostring → option gostring) (args : list gostring).
Context (opens : gostring → bool) (ParseDuration : gostring → option Z) (coins : nat → bool).

(** [buildStore] on the content of the disk; [None] is its error. *)
Definition newStore (disk : gostring → option (list byte)) (c : store_choice) : go (option AnyStore) :=
  match c with
  | SMap => Ret (Some (boxed NewMapStore))
  | SSharded n => Ret (Some (boxed (NewShardedStore n)))
  | SSyncMap => Ret (Some (boxed NewSyncMapStore))
  | SLockFree n => Ret (Some (boxed (NewLockFreeStore n)))
  | SSkipList => Ret (Some (boxed (NewSkipListStore coins)))
  | SBPTree => Ret (Some (boxed NewBPTreeStore))
  | SART => Ret (Some (mkAny ARTStore _ (λ _, False) (λ _, kv_empty) NewARTStore))
  | SCRDT => Ret (Some (boxed NewCRDTStore))
  | SBitcask file =>
      r ← NewBitcaskStore (default [] (disk file)) None;
      Ret (match r with inr b => Some (boxed b) | inl _ => None end)
  end.

(** [buildPersistence] on the content of the disk. *)
Fixpoint newLog (disk : gostring → option (list byte)) (c : persistence_choice) : AnyLog :=
  match c with
  | PNull => mkLog NullPersistence _ (λ n, n) NewNullPersistence
  | PAOF file => mkLog AOF _ (λ a, NewAOF (f_data (aof_file a)) None) (NewAOF (default [] (disk file)) None)
  | PWAL file => wal_value (NewWAL (default [] (disk file)) None)
  | PRDB file _ => mkLog RDB _ (λ r, NewRDB (rdb_disk r)) (NewRDB (disk file))
  | PDual a b =>
      let x := newLog disk a in
      let y := newLog disk b in
      mkLog (DualPersistence (l_T x) (l_T y)) (@Dual_ops _ _ (l_ops x) (l_ops y))
        (λ d, NewDualPersistence (l_reopen x (primary d)) (l_reopen y (secondary d))) (NewDualPersistence (l_val x) (l_val y))
  end.

(** The path of the configuration: argument, environment, default. *)
Definition cfgPath : gostring :=
  match args with
  | _ :: path :: _ => path
  | _ => default (str "config.yaml") (env (str "FLUXCACHE_CONFIG"))
  end.

(** [main] exits with status 1, or reaches [n.Listen] with the configuration,
    the server, the transport and the memory limit it has set. *)
Inductive started := Exit1 (e : config_error) | Running (cfg : Config) (w : server AnyStore AnyLog) (n : network_choice) (limit : option Z).

Definition memory_limit (cfg : Config) : option Z :=
  if bool_decide (MaxMemory (Server cfg) = []) then None
  else Some (match MaxMemoryBytes cfg with inr n => n | inl _ => 0 end).

Definition main_start (envs : Envs) (disk : gostring → option (list byte)) : go started :=
  match Load yaml_Unmarshal env (disk cfgPath) with
  | inl e => Ret (Exit1 e)
  | inr cfg =>
      match Build opens ParseDuration cfg with
      | inl e => Ret (Exit1 e)
      | inr (sc, policy, maxKeys, pc) =>
          i ← newStore disk sc;
          match i with
          | None => Ret (Exit1 (EOpen (StoreFile (Store cfg))))
          | Some s =>
              w ← boot envs s policy maxKeys (newLog disk pc);
              match BuildNetwork (Server cfg) with
              | inl e => Ret (Exit1 e)
              | inr n => Ret (Running cfg w n (memory_limit cfg))
              end
          end
      end
  end.
End main.

(** ** Lemmas *)

(** The stores that fulfil the contract and start empty. *)
Definition plain_store (c : store_choice) : Prop :=
  match c with SART | SBitcask _ => False | SSharded n | SLockFree n => n ≤ 2 ^ 63 | _ => True end.

Lemma buildStore_plain opens (c : StoreConfig) sc :
  buildStore opens c = inr sc → StoreType c ≠ str "art" → StoreType c ≠ str "bitcask" → in_int64 (ShardCount c) = true → plain_store sc.
Proof.
  unfold buildStore. intros H Ha Hb Hn. unfold in_int64, max_int64 in Hn.
  assert (∀ n, n = (if ShardCount c <? 1 then 16 else ShardCount c) → n ≤ 2 ^ 63) as Hle by (intros n ->; destruct (ShardCount c <? 1); lia).
  rewrite (bool_decide_eq_false_2 (StoreType c = str "art")), (bool_decide_eq_false_2 (StoreType c = str "bitcask")) in H by done.
  repeat case_match; simplify_eq; by first [done|apply Hle].
Qed.

Lemma newStore_fresh coins disk sc :
  plain_store sc → ∃ i, newStore coins disk sc = Ret (Some i) ∧ st_inv i ∧ st_abs i = kv_empty.
Proof.
  intros Hp. destruct sc; try done; (eexists; split; [reflexivity|]); apply boxed_ok; try done.
  - by apply NewShardedStore_inv.
  - apply NewShardedStore_abs.
  - apply NewSyncMapStore_inv.
  - by apply NewLockFreeStore_inv.
  - apply NewLockFreeStore_abs.
  - exists []. apply NewSkipListStore_rep.
  - apply NewBPTreeStore_inv.
Qed.

(** A write-ahead log behind the interface keeps its promise. *)
Section wal.
Context `{!UnicodeUpper}.

#[local] Program Instance wal_value_laws : PersistenceLaws AnyLog := {
  p_log cs l := ∃ v : WAL, l = wal_value v ∧ p_log cs v;
  p_admits := p_admits (P:=WAL);
  p_reopen l := with_log l (l_reopen l (l_val l))
}.
Next Obligation.
  intros cs c l (v & -> & Hv). destruct (law_Write cs c v Hv) as (v' & E & Hv'). simpl. simpl in E. rewrite E.
  eexists. split; [done|]. by exists v'.
Qed.
Next Obligation.
  intros cs l (v & -> & Hv) Ha. destruct (law_restart cs v Hv Ha) as (v1 & v2 & E1 & E2 & Hv2). simpl in *. rewrite E1.
  cbn [mbind go_bind]. eexists _, _. split; [done|]. simpl. rewrite E2. split; [done|]. by exists v2.
Qed.
End wal.

(** ** Theorems *)
Section theorems.
Context `{!UnicodeUpper}.
Context (yaml_Unmarshal : list byte → option Config) (env : gostring → option gostring) (args : list gostring).
Context (opens : gostring → bool) (ParseDuration : gostring → option Z) (coins : nat → bool).
Context (envs : Envs).
#[local] Existing Instance wal_value_laws.

(** A configuration with a write-ahead log, no key limit, and a store kept in
    memory other than the radix tree. *)
Record durable_config (cfg : Config) : Prop := mk_durable {
  dc_wal : PType (Persistence cfg) = str "wal";
  dc_interval : PInterval (Persistence cfg) = [];
  dc_art : StoreType (Store cfg) ≠ str "art";
  dc_bitcask : StoreType (Store cfg) ≠ str "bitcask";
  dc_shards : in_int64 (ShardCount (Store cfg)) = true;
  dc_keys : MaxKeys (Eviction cfg) = 0
}.

Lemma buildPersistence_wal cfg :
  durable_config cfg → opens (PFile (Persistence cfg)) = true →
  buildPersistence opens ParseDuration (Persistence cfg) = inr (PWAL (PFile (Persistence cfg))).
Proof.
  intros [Hw _ _ _ _ _] Ho. destruct (Persistence cfg) as [t f i a b]. simpl in *. subst t. simpl. unfold opened. by rewrite Ho.
Qed.

(** What [main] starts for such a configuration. *)
Lemma main_start_durable cfg disk :
  Load yaml_Unmarshal env (disk (cfgPath env args)) = inr cfg → (∀ f, opens f = true) → durable_config cfg →
  ∃ (s : AnyStore) policy n, st_inv s ∧ st_abs s = kv_empty ∧
    ∀ disk', disk' (cfgPath env args) = disk (cfgPath env args) →
      main_start yaml_Unmarshal env args opens ParseDuration coins envs disk' =
        (w ← boot envs s policy 0 (wal_value (NewWAL (default [] (disk' (PFile (Persistence cfg)))) None)); Ret (Running cfg w n (memory_limit cfg))).
Proof.
  intros HL Ho D. assert (valid cfg) as V.
  { unfold Load in HL. repeat case_match; simplify_eq. by apply Validate_valid. }
  destruct (Build_valid opens ParseDuration cfg V Ho) as (sc & policy & q & Es & _ & Eq & EB).
  { rewrite (dc_wal _ D). done. }
  { left. apply D. }
  rewrite (buildPersistence_wal cfg D (Ho _)) in Eq. injection Eq as <-.
  assert (plain_store sc) as Hsc by (apply (buildStore_plain opens (Store cfg)); [done|apply D..]).
  destruct (BuildNetwork_valid cfg V) as (n & En & _).
  destruct (newStore_fresh coins disk sc Hsc) as (s & Ei & Hi & Ha). exists s, policy, n. split_and!; [done|done|].
  intros disk' Hd. unfold main_start. rewrite Hd, HL, EB, (dc_keys _ D).
  assert (newStore coins disk' sc = Ret (Some s)) as -> by (destruct sc; done). cbn [mbind go_bind newLog].
  destruct (boot _ _ _ _ _) as [w| | |]; cbn [mbind go_bind]; [|done..]. by rewrite En.
Qed.

(** The server only runs with a valid configuration, on the transport that
    configuration names, and the memory limit is set exactly when one is
    configured, to the parsed value. *)
Theorem main_start_valid (disk : gostring → option (list byte)) cfg w n limit :
  main_start yaml_Unmarshal env args opens ParseDuration coins envs disk = Ret (Running cfg w n limit) →
  valid cfg ∧ BuildNetwork (Server cfg) = inr n ∧
  match limit with None => MaxMemory (Server cfg) = [] | Some m => MaxMemory (Server cfg) ≠ [] ∧ MaxMemoryBytes cfg = inr m end.
Proof.
  unfold main_start. intros E. destruct (Load _ _ _) as [e|cfg'] eqn:HL; [done|].
  destruct (Build _ _ _) as [e|[[[sc policy] maxKeys] pc]]; [done|].
  destruct (newStore _ _ _) as [[s|]| | |]; simplify_eq/=. destruct (boot _ _ _ _ _) as [w'| | |]; simplify_eq/=.
  destruct (BuildNetwork (Server cfg')) as [e|n'] eqn:En; simplify_eq/=.
  assert (valid cfg) as V by (unfold Load in HL; repeat case_match; simplify_eq; by apply Validate_valid).
  split_and!; [done|done|]. unfold memory_limit. case_bool_decide as Hm; [done|]. split; [done|].
  destruct (va_memory _ V) as [?|[m ->]]; done.
Qed.

(** C1: The whole program: started on a valid configuration with an empty
    write-ahead log (in a file other than the configuration), no snapshot
    interval, no key limit, no password and a store other than the radix tree
    and Bitcask, where files open, it serves the requests that arrive on a
    connection, one per segment and each at most 4096 bytes with an upper-case
    name: reads, PING, SETs without deadline and HSETs of at most three
    arguments (a DEL is not logged, so it is excluded, and so are deadlines),
    with fewer than 65536 arguments each.  When the log is closed and the
    program is started again on the files it left, its store holds exactly
    what it held before. *)
Theorem main_restart_recovers (supply : nat → Envs) (cs : list (command * list Value)) (cfg : Config) (disk : gostring → option (list byte)) :
  (∀ n, envs_ok (supply n)) →
  Load yaml_Unmarshal env (disk (cfgPath env args)) = inr cfg → (∀ f, opens f = true) → durable_config cfg → Password (Server cfg) = [] →
  PFile (Persistence cfg) ≠ cfgPath env args → default [] (disk (PFile (Persistence cfg))) = [] →
  Forall request_ok (wire cs) → Forall cmd_ok (log_of cs) →
  Forall (λ c, sets_no_deadline c.1 c.2 = true) cs → Forall (λ c, durable c.1 c.2 = true) cs →
  ∃ w1 n limit w2 out v w3,
    main_start yaml_Unmarshal env args opens ParseDuration coins envs disk = Ret (Running cfg w1 n limit) ∧
    handleConn (server_handlers supply) (Some server_onWrite) (Password (Server cfg)) ((λ c, Marshal (request_value c)) <$> wire cs) w1 = Ret (w2, out) ∧
    p_Close (sv_log w2) = Ret (wal_value v, false) ∧
    main_start yaml_Unmarshal env args opens ParseDuration coins envs
      (λ f, if decide (f = PFile (Persistence cfg)) then Some (f_data (wal_file v)) else disk f) = Ret (Running cfg w3 n limit) ∧
    st_abs (t_inner (sv_store w3)) = st_abs (t_inner (sv_store w2)).
Proof.
  intros Hsu HL Ho D Hpw Hf Hd Hrq Hok Hnd Hdu. rewrite Hpw.
  destruct (main_start_durable cfg disk HL Ho D) as (s & policy & n & Hi & Ha & Hstart).
  assert (fresh s (wal_value (NewWAL [] None))) as Hfr.
  { split; [done|]. split; [done|]. eexists. split; [reflexivity|]. eexists. split; [reflexivity|]. by repeat split. }
  destruct (restart_log supply Hsu envs cs s policy _ Hfr Hok) as (w1 & w2 & out & p1 & w3 & E1 & E2 & E3 & E4 & [Hp _]).
  assert (∃ v, p1 = wal_value v) as [v ->].
  { destruct (boot_fresh envs s policy _ Hfr) as (w1' & E1' & [_ Hl1] & Hi1). rewrite E1 in E1'. injection E1' as <-.
    destruct (serve_log supply Hsu cs [] w1 Hi1 Hl1) as (w2' & out' & E2' & _ & (v2 & Hv2 & _)). rewrite E2 in E2'. injection E2' as <- <-.
    rewrite Hv2 in E3. simpl in E3. destruct (WAL_Close v2) as [[v e]| | |]; simplify_eq/=. by exists v. }
  exists w1, n, (memory_limit cfg), w2, out, v, w3. split_and!.
  - rewrite Hstart by done. rewrite Hd, E1. done.
  - rewrite handleConn_requests by done. exact E2.
  - exact E3.
  - rewrite Hstart by (by rewrite decide_False by done). rewrite decide_True by done. cbn [from_option id].
    change (wal_value (NewWAL (f_data (wal_file v)) None)) with (p_reopen (wal_value v)). by rewrite E4.
  - rewrite (serve_content supply envs cs s policy _ w1 w2 out Hfr Hnd E1 E2), (pl_abs _ _ Hp). by apply durable_log.
Qed.
End theorems.

(** ** Witness: a B+ tree store and a log in the file db.wal *)
Definition demo_config : Config :=
  mkConfig (mkServer 6379 (str "tcp") 0 0 0 [] [] [] [] []) (mkStore (str "bptree") [] 0 0) (mkPers (str "wal") (str "db.wal") [] None None)
    (mkEviction (str "noeviction") 0).
Definition demo_disk : gostring → option (list byte) := λ f, if decide (f = str "config.yaml") then Some [] else None.

#[local] Existing Instance upper_id.

Lemma demo_durable : durable_config demo_config.
Proof. split; first [reflexivity|vm_compute; discriminate]. Qed.

Lemma main_restart_recovers_witness :
  ∃ w1 n limit w2 out v w3,
    main_start (λ _, Some demo_config) no_env [] (λ _, true) (λ _, None) (λ _, true) (at_ 0) demo_disk = Ret (Running demo_config w1 n limit) ∧
    handleConn (server_handlers clock) (Some server_onWrite) [] ((λ c, Marshal (request_value c)) <$> wire demo_cmds) w1 = Ret (w2, out) ∧
    p_Close (sv_log w2) = Ret (wal_value v, false) ∧
    main_start (λ _, Some demo_config) no_env [] (λ _, true) (λ _, None) (λ _, true) (at_ 0)
      (λ f, if decide (f = str "db.wal") then Some (f_data (wal_file v)) else demo_disk f) = Ret (Running demo_config w3 n limit) ∧
    st_abs (t_inner (sv_store w3)) = st_abs (t_inner (sv_store w2)).
Proof.
  apply (main_restart_recovers (λ _, Some demo_config) no_env [] (λ _, true) (λ _, None) (λ _, true) (at_ 0) clock demo_cmds demo_config demo_disk);
    [apply clock_ok|vm_compute; reflexivity|done|apply demo_durable|reflexivity|vm_compute; discriminate|reflexivity|..].
  - repeat (apply Forall_cons_2; [split_and!; [vm_compute; reflexivity|vm_compute; reflexivity|vm_compute; lia]|]). apply Forall_nil_2.
  - apply cmds_ok. vm_compute. reflexivity.
  - repeat (apply Forall_cons_2; [vm_compute; reflexivity|]). apply Forall_nil_2.
  - repeat (apply Forall_cons_2; [vm_compute; reflexivity|]). apply Forall_nil_2.
Defined.
